(* ===== verification/_CoqProject ===== *)
-Q . S2P
Prelude.v
Effects.v
Diagnostics.v
Validator.v
RangeMath.v
AssetReader.v
Metrics.v
MetricsDump.v
MetricsSpec.v
MetricsThreads.v
CacheOptions.v
CacheKey.v
BlockPlan.v
BlockCache.v
SingleFlight.v
PersistentTier.v
CachedReader.v
CachedReaderSpec.v
Sha256.v
DiskFormat.v
DiskStore.v
MemoryFs.v
PlatformFile.v
LocalReader.v
Uri.v
Identifier.v
Framing.v
Destination.v
HttpReader.v
HttpReaderSpec.v
CurlTransport.v
CurlTransportSpec.v
Configuration.v
ConfigurationSpec.v
ResolverReport.v
HttpResolver.v
HttpResolverSpec.v
ResolverScope.v
ResolverContext.v
Stack.v
HttpStack.v
ResolverStack.v
Examples.v
HttpExamples.v
CurlExamples.v
Witnesses.v
HttpWitnesses.v
ResolverWitnesses.v
CurlWitnesses.v
