(* ===== verification/Prelude.v ===== *)
(** * A verification of usd-http-resolver

    usd-http-resolver reads USD assets at random offsets over HTTP and from
    local files, through a shared block cache with an optional directory of
    persisted blocks, and serves them to OpenUSD as an asset resolver.  This
    library models its C++ code (src/libs and src/plugins) as Rocq functions and
    proves what the components promise each other and their callers.

    ** The parts and how they interact

    A reader (the abstract class [AssetReader]) serves [Read(offset, size)] of
    one revision of one asset.  Two backends implement it: the local one over
    POSIX calls, the HTTP one over a transport.  [CachedAssetReader] wraps a
    reader and implements the same class; it asks the process-wide block store
    ([BlockCache]) for the blocks a range covers, fetches the missing ones from
    the reader underneath in coalesced runs, publishes them, waits for those
    another reader is fetching, and keeps a copy in the directory store
    ([DiskBlockStore]), whose entries are self-describing and checksummed.  The
    HTTP backend talks to a transport, the one over libcurl.  The resolver plugin
    turns the paths of layers into normalized identifiers, reads its settings from
    the environment and from contexts bound to stages, opens each asset once for
    resolving and reading it, remembers the identities it has seen, and hands the
    host an asset over the cached reader.

    ** Files

    - [Prelude], [Effects]: 64-bit arithmetic, bytes and [std::string] searches,
      decimal text, slices; the monad of the cached reader with its weakest
      preconditions.
    - usd-asset-io: [Diagnostics] (Diagnostics.cpp: statuses, elision of
      secrets), [Validator] (Validator.cpp), [RangeMath] (RangeMath.cpp),
      [AssetReader] (AssetReader.h: the class, and [ReaderContract], what it
      promises), [Metrics] (Metrics.cpp: histograms, counters, registry),
      [MetricsDump] (its ratios and text dump), [MetricsSpec] (what the
      registry reports) and [MetricsThreads] (its atomics, access by access, as
      a step relation).
    - usd-asset-cache: [CacheOptions], [CacheKey], [BlockPlan], [BlockCache]
      (the sources of the same names), [SingleFlight] (the interleavings of the
      store's operations as a step relation), [PersistentTier] (what the cached
      reader relies on of the tier below: [TierContract]), [CachedReader]
      (CachedAssetReader.cpp) and [CachedReaderSpec] (its proofs), [Sha256]
      (Sha256.h), [DiskFormat] and [DiskStore] (DiskBlockStore.cpp: the entry
      format, and the directory).
    - usd-asset-local: [PlatformFile] (PlatformFile.cpp: the interface
      [Platform] with its laws, and the POSIX and Windows branches as instances)
      and [LocalReader] (LocalAssetReader.cpp, over that interface).
    - usd-asset-http: [Uri] (Uri.cpp), [Framing] (Framing.cpp, Transport.cpp),
      [Destination] (Destination.cpp), [HttpReader] (HttpAssetReader.cpp) and
      [HttpReaderSpec] (its proofs), [CurlTransport] (CurlTransport.cpp: the
      callbacks, the pool of handles, the request and its outcome) and
      [CurlTransportSpec] (its proofs, and the interface of the backend
      discharged).
    - http-resolver: [Identifier] (Identifier.cpp), [Configuration]
      (Configuration.cpp) and [ConfigurationSpec] (its proofs), [ResolverReport]
      (Diagnostics.cpp, Report.cpp, Identity.cpp, ResolvedAsset.cpp),
      [HttpResolver] (HttpResolver.cpp) and [HttpResolverSpec] (the interleavings
      of its lock sections as a step relation, and its proofs), [ResolverScope]
      (the resolutions that threads of a scope share) and [ResolverContext]
      (Context.h, Context.cpp: contexts as values, and the registration of their
      Python conversion as a step relation).
    - [Stack] and [HttpStack] compose an opened backend, the cache and the
      directory, [ResolverStack] the plugin above them; [MemoryFs], [Examples],
      [HttpExamples] and [CurlExamples] instantiate the interfaces with concrete
      ones, and [Witnesses], [HttpWitnesses], [ResolverWitnesses] and
      [CurlWitnesses] apply the theorems to them.

    ** How code becomes definitions

    A [std::uint64_t] is a [Z]; an operation that can wrap is written with
    [u64].  Strings and buffers are lists of [ascii].  A function that fills an
    out-parameter and returns a flag returns an option or a sum.  A handler
    that changes state takes and returns it, its early returns are the branches
    of its [if]s, and a pointer the callee writes through is a buffer threaded
    through the call.  What is not code of the repository is a type class with
    its documented behaviour as laws: [Posix] and [PosixLaws], [Win32] and
    [Win32Laws] (system calls), [FileSystem] and [FileSystemLaws]
    (std::filesystem), [HttpWorld] (the transport, the request interceptor and
    the clock), [LibCurl], [LibCurlLaws] and [HandleLaws] (libcurl, and what its
    callbacks and handles obey).  The environment of the process is a lookup
    function, the host's diagnostics a list of the messages posted; the context
    and the cache scope OpenUSD keeps per thread are arguments of the handlers.

    Three assumptions are about the world and not about an interface, and are
    hypotheses of the theorems that need them.  [Origin], and [WireOrigin] below
    the transport: the asset is published under a strong entity tag at some URLs,
    redirects from them stay among them, and a range request there with that tag
    in [If-Range] gets a [206] only for the bytes its [Content-Range] names, unless
    the response names another tag or another length (RFC 9110, 13.1.5);
    everything else the origin sends is arbitrary, and a reader without a strong
    entity tag is promised nothing of it.  [identity_tells]: a file whose size,
    device, number and modification time are unchanged was not rewritten, which no
    system promises and libs/usd-asset-local/README.md lists exceptions to.
    [store_holds] and [tier_ok]: what the store and the directory already hold
    under an asset's key is the asset's, which every operation keeps.

    Shared state is shared in the model: a cached read runs against a store, a
    directory and a reader that an environment may change between any two of
    its steps, as far as the invariant of the store allows.  The mutexes of the
    sources make each operation of the store one step, and each section of the
    resolver under a lock; the destructor of a binding, which takes the locks of
    the stripes one after the other, is one step too, since the keys it removes are
    of an identity no other binding has.  The [shared_ptr] entries of the
    resolver's table are a heap, so an entry taken out of the table is still the
    one another thread holds.  The walk of a sweep sees the directory at one
    moment, and entries of equal age keep its order.  A transfer of libcurl is a finite tree of the callbacks it makes, each with its
    continuation on the answer, run with the callbacks of the source.

    ** What the theorems show

    - Reads: a cached read returns the asset's bytes or fails, under any
      interference; it returns when the reader underneath does and nobody holds
      a block for ever; every block it took is published or given back.  The
      local and the HTTP backend keep the same contract: for the first, while
      other processes rewrite the file, where [identity_tells] holds (and what
      holds without it is stated too); for the second, over an [Origin].
      [stack_read] and [http_stack_reads] are the compositions, and
      [resolver_read] goes from the path a layer names to the bytes of a read.
    - The store: a block has one fetcher at a time, a hit is the block last
      published for its key, two readers share blocks exactly when they name the
      same revision by a strong validator, and in every reachable state a stripe
      is within its share of the budget or holds a single block.
    - The directory: a lookup returns the block stored under the key or
      nothing, damage of any one byte, truncation and extension are detected,
      file names are safe, the sweep removes the oldest entries down to its
      target.
    - Requests: what an exchange may put on the wire, whatever the server
      answers: permitted hosts, no loss of TLS, credentials for the opened
      origin only, and how many requests there can be.  The transport bounds
      bodies and header blocks and opens no socket the policy refuses, whatever
      libcurl does ([exchange_destinations], over a library that logs its
      callbacks); it reports what happened, never shares a handle between
      threads, and meets the interface of the backend ([Curl_Origin]).
    - The resolver: identifiers are in normal form and the backend reads them as
      they are, but for a second port and for port zero; settings are in range whatever the environment holds, and the
      text of a context determines it; the tables are bounded and consistent in
      every interleaving, no stage is handed a reader or an identity obtained
      under a configuration that is not its own, inside a scope or outside it,
      a published version never
      covers two revisions, and resolving and opening an asset is one open.
    - Formats: round trips and exactness of URIs, references, dot segments,
      [Content-Range], entries, keys, digests; the text forms of IPv4 and IPv6
      literals; address
      classes against a table of CIDR blocks; SHA-256 by pieces.
    - Arithmetic: ranges, covering blocks, coalesced runs, options, histograms.
    - Metrics: what the process aggregate and its table of assets report is what
      the closed readers measured, and threads that update one reader's counters
      at once leave what they would leave one after the other.

    ** Fuel and bounds

    Loops that are not structural take fuel that a lemma or the theorem itself
    shows to be enough: the length of the text or of the list that every turn
    shortens, the number of bytes a transfer still needs, the blocks a pass
    owns.  The loops of the HTTP backend are structural on the budgets of
    redirects and retries ([resume_loop_fuel] for the one that is not).  The
    wait of the cached reader is bounded by the parameter [patience], and
    running out of it is a result of its own ([None]) that [Cached_Read_total]
    excludes when nobody holds a block for ever.

    ** Not modelled

    - The Windows branches of the socket callback and of EnvironmentFlagSet, and
      curl_global_init.
    - OpenUSD's container of scoped caches and Python's objects: the first is any
      assignment of live caches to threads, the second a count of conversions.
    - Test hooks (Testing.h, TestSupport.h), and accessors that return a member.
    - Weak memory: an access of an atomic is a step on one memory, which is exact
      for each counter by itself and not for readings of several. *)

From Stdlib Require Export Ascii String ZArith Lia.
From stdpp Require Export base numbers list strings gmap sorting.

#[global] Open Scope Z_scope.

(** ** Machine integers

    [std::uint64_t] and [std::size_t] are [Z]; an operation that can wrap in
    C++ is written with [u64], one that can wrap at 32 bits with [u32]. *)

Definition u64_max : Z := 2 ^ 64 - 1.

Definition u64 (z : Z) : Z := z mod 2 ^ 64.

Definition u32 (z : Z) : Z := z mod 2 ^ 32.

(** [static_cast<int>] of a wider integer. *)
Definition i32 (z : Z) : Z := (z + 2 ^ 31) mod 2 ^ 32 - 2 ^ 31.

Definition is_u64 (z : Z) : Prop := 0 <= z < 2 ^ 64.

Definition is_u32 (z : Z) : Prop := 0 <= z < 2 ^ 32.

(** ** Bytes and strings

    [char], [unsigned char] and the bytes of a block are [ascii]; a
    [std::string], a [std::string_view] and a byte buffer are [list ascii]. *)

Abbreviation str := (list ascii).
Abbreviation bytes := (list ascii).

Definition lit (s : string) : str := list_ascii_of_string s.

Definition code (c : ascii) : Z := Z.of_N (N_of_ascii c).

Definition chr (z : Z) : ascii := ascii_of_N (Z.to_N (z mod 256)).

Definition char_eqb (a b : ascii) : bool := bool_decide (a = b).

Definition str_eqb (a b : str) : bool := bool_decide (a = b).

(** [lo <= c && c <= hi], the shape of every character test of the sources. *)
Definition in_range (lo hi : ascii) (c : ascii) : bool :=
  (code lo <=? code c) && (code c <=? code hi).

Definition is_digit (c : ascii) : bool := in_range "0" "9" c.

Definition is_lower (c : ascii) : bool := in_range "a" "z" c.

Definition is_upper (c : ascii) : bool := in_range "A" "Z" c.

Definition is_alpha (c : ascii) : bool := is_lower c || is_upper c.

(** The ASCII lower-casing every module spells out for itself. *)
Definition lower (c : ascii) : ascii := if is_upper c then chr (code c + 32) else c.

Definition lower_str (s : str) : str := map lower s.

(** ** The [std::string] searches, with [npos] as [None] *)

Fixpoint find_if (p : ascii -> bool) (s : str) : option nat :=
  match s with
  | [] => None
  | c :: s' => if p c then Some 0%nat else S <$> find_if p s'
  end.

Definition find (c : ascii) (s : str) : option nat := find_if (char_eqb c) s.

(** [find(c, from)]. *)
Definition find_from (c : ascii) (s : str) (from : nat) : option nat :=
  (fun i => (from + i)%nat) <$> find c (drop from s).

Definition find_first_of (set : str) (s : str) : option nat :=
  find_if (fun c => bool_decide (c ∈ set)) s.

Fixpoint rfind (c : ascii) (s : str) : option nat :=
  match s with
  | [] => None
  | d :: s' =>
      match rfind c s' with
      | Some i => Some (S i)
      | None => if char_eqb c d then Some 0%nat else None
      end
  end.

Fixpoint starts_with (p s : str) : bool :=
  match p, s with
  | [], _ => true
  | _, [] => false
  | a :: p', b :: s' => char_eqb a b && starts_with p' s'
  end.

(** [find(pattern)] for a pattern of several characters. *)
Fixpoint find_sub (p s : str) : option nat :=
  if starts_with p s then Some 0%nat
  else match s with [] => None | _ :: s' => S <$> find_sub p s' end.

(** ** Decimal text: [std::to_string] and its value *)

Fixpoint digits_acc (fuel : nat) (z : Z) (acc : str) : str :=
  match fuel with
  | O => acc
  | S f =>
      let acc' := chr (48 + z mod 10) :: acc in
      if z <? 10 then acc' else digits_acc f (z / 10) acc'
  end.

Definition to_string (z : Z) : str :=
  if z <? 0 then "-"%char :: digits_acc (S (Z.to_nat (Z.log2 (- z)))) (- z) []
  else digits_acc (S (Z.to_nat (Z.log2 z))) z [].

Definition decimal_step (v : Z) (c : ascii) : Z := v * 10 + (code c - 48).

Definition decimal_value (s : str) : Z := fold_left decimal_step s 0.

(** ** Slices and in-place writes *)

Definition slice {A} (l : list A) (off len : Z) : list A :=
  take (Z.to_nat len) (drop (Z.to_nat off) l).

(** [memcpy(buf + pos, src, |src|)] on a buffer known to be large enough. *)
Definition write_at {A} (buf : list A) (pos : Z) (src : list A) : list A :=
  take (Z.to_nat pos) buf ++ src ++ drop (Z.to_nat pos + length src) buf.

Definition zlen {A} (l : list A) : Z := Z.of_nat (length l).

(** The sum a loop of [+=] computes, as the other components use it. *)
Definition zsum {A} (f : A -> Z) (l : list A) : Z := foldr (fun x acc => f x + acc) 0 l.

(** [std::string]'s order: byte by byte, a proper prefix first. *)
Fixpoint str_ltb (a b : str) : bool :=
  match a, b with
  | _, [] => false
  | [], _ :: _ => true
  | x :: a', y :: b' => (code x <? code y) || ((code x =? code y) && str_ltb a' b')
  end.

(** ** Automation

    [wf] is the hint database of well-formedness and range facts the
    components register; [arith_simpl] is the rewrite base of the machine
    arithmetic. *)

Create HintDb wf.

Ltac bdestruct_all :=
  repeat match goal with
  | |- context [bool_decide ?P] => destruct (bool_decide_reflect P)
  | H : context [bool_decide ?P] |- _ => destruct (bool_decide_reflect P)
  end.

(** Split every boolean comparison of the goal and the context into its two
    cases and close the impossible ones. *)
Ltac zbool :=
  repeat match goal with
  | |- context [?a <? ?b] => destruct (Z.ltb_spec a b)
  | |- context [?a <=? ?b] => destruct (Z.leb_spec a b)
  | |- context [?a =? ?b] => destruct (Z.eqb_spec a b)
  | H : context [?a <? ?b] |- _ => destruct (Z.ltb_spec a b)
  | H : context [?a <=? ?b] |- _ => destruct (Z.leb_spec a b)
  | H : context [?a =? ?b] |- _ => destruct (Z.eqb_spec a b)
  end; simpl in *; try lia; try discriminate.

(** Name the scrutinee of the first [match] of the goal and split on it. *)
Ltac ands := split_and!; (done || lia || eauto with wf).

Ltac case_of :=
  match goal with |- context [match ?x with _ => _ end] => destruct x eqn:? end.

(** ** Characters *)

Definition all_chars : list ascii := map ascii_of_nat (seq 0 256).

Lemma all_chars_complete c : c ∈ all_chars.
Proof.
  rewrite <-(ascii_nat_embedding c). apply list_elem_of_fmap_2.
  apply elem_of_seq. pose proof (nat_ascii_bounded c). lia.
Qed.

(** A property of one character is checked on the 256 of them. *)
Lemma char_forall (P : ascii -> bool) : forallb P all_chars = true -> forall c, P c = true.
Proof.
  rewrite forallb_forall. intros H c. apply H, list_elem_of_In, all_chars_complete.
Qed.

Lemma code_range c : 0 <= code c < 256.
Proof.
  unfold code. pose proof (N_ascii_bounded c). lia.
Qed.

Lemma chr_code c : chr (code c) = c.
Proof.
  unfold chr. rewrite Z.mod_small by apply code_range.
  unfold code. rewrite N2Z.id. apply ascii_N_embedding.
Qed.

Lemma code_chr z : code (chr z) = z mod 256.
Proof.
  unfold code, chr. assert (0 <= z mod 256 < 256) by (apply Z.mod_pos_bound; lia).
  rewrite N_ascii_embedding by lia. lia.
Qed.

Lemma code_inj a b : code a = code b -> a = b.
Proof. intros H. rewrite <-(chr_code a), <-(chr_code b). by rewrite H. Qed.

Lemma char_eqb_eq a b : char_eqb a b = true <-> a = b.
Proof. apply bool_decide_eq_true. Qed.

Lemma char_eqb_refl a : char_eqb a a = true.
Proof. by apply char_eqb_eq. Qed.

Lemma char_eqb_ne a b : a <> b -> char_eqb a b = false.
Proof. apply bool_decide_eq_false. Qed.

Lemma str_eqb_eq a b : str_eqb a b = true <-> a = b.
Proof. apply bool_decide_eq_true. Qed.

Lemma lower_idem c : lower (lower c) = lower c.
Proof.
  apply char_eqb_eq. revert c. apply (char_forall (fun c => char_eqb (lower (lower c)) (lower c))).
  by vm_compute.
Qed.

Lemma lower_str_idem s : lower_str (lower_str s) = lower_str s.
Proof. unfold lower_str. rewrite map_map. apply map_ext, lower_idem. Qed.

(** ** Machine integers *)

Lemma u64_small z : is_u64 z -> u64 z = z.
Proof. intros ?. apply Z.mod_small. apply H. Qed.

Lemma u64_is_u64 z : is_u64 (u64 z).
Proof. apply Z.mod_pos_bound. lia. Qed.

Lemma u64_add_l a b : u64 (u64 a + b) = u64 (a + b).
Proof. apply Zplus_mod_idemp_l. Qed.

Lemma u64_add_r a b : u64 (a + u64 b) = u64 (a + b).
Proof. apply Zplus_mod_idemp_r. Qed.

Lemma u32_small z : is_u32 z -> u32 z = z.
Proof. intros ?. apply Z.mod_small. apply H. Qed.

Lemma lor_disjoint v c n : 0 <= n -> 0 <= v < 2 ^ n -> Z.lor v (Z.shiftl c n) = v + c * 2 ^ n.
Proof.
  intros Hn Hv. rewrite <-Z.shiftl_mul_pow2 by done.
  assert (Z.land v (Z.shiftl c n) = 0) as H0.
  { apply Z.bits_inj_0. intros k. rewrite Z.land_spec. destruct (Z.ltb_spec k n) as [Hk|Hk].
    - destruct (Z.ltb_spec k 0); [by rewrite Z.testbit_neg_r|]. rewrite Z.shiftl_spec_low by done. apply andb_false_r.
    - assert (Z.testbit v k = false) as ->; [|done].
      rewrite <-(Z.mod_small v (2 ^ n)) by done. apply Z.mod_pow2_bits_high. lia. }
  rewrite <-Z.lxor_lor, Z.add_nocarry_lxor by done. done.
Qed.

#[export] Hint Resolve u64_is_u64 code_range : wf.

(** ** Searches *)

Lemma find_if_None p s : find_if p s = None <-> Forall (fun c => p c = false) s.
Proof.
  induction s as [|c s IH]; simpl; [by split|].
  rewrite Forall_cons. destruct (p c) eqn:E; [split; [done|intros [? _]; congruence]|].
  rewrite fmap_None, IH. naive_solver.
Qed.

Lemma find_if_Some p s i :
  find_if p s = Some i <->
  exists c, s !! i = Some c /\ p c = true /\ Forall (fun d => p d = false) (take i s).
Proof.
  revert i. induction s as [|c s IH]; intros i; simpl.
  { split; [done|]. intros (c & H & _). by rewrite lookup_nil in H. }
  destruct (p c) eqn:E.
  - split; [intros [= <-]; exists c; by rewrite take_0|].
    intros (d & Hd & Pd & F). destruct i as [|i]; [done|].
    simpl in F. apply Forall_cons in F as [? _]. congruence.
  - rewrite fmap_Some. split.
    + intros (j & Hj & ->). apply IH in Hj as (d & Hd & Pd & F).
      exists d. simpl. by rewrite Forall_cons.
    + intros (d & Hd & Pd & F). destruct i as [|i]; simpl in *; [congruence|].
      apply Forall_cons in F as [_ F]. exists i. split; [|done]. apply IH. eauto.
Qed.

(** Where the match is when the text before it has none. *)
Lemma find_if_app p a c b :
  Forall (fun d => p d = false) a -> p c = true -> find_if p (a ++ c :: b) = Some (length a).
Proof.
  intros F Hc. apply find_if_Some. exists c. rewrite list_lookup_middle by done.
  by rewrite take_app_length.
Qed.

Lemma find_if_app_None p a b :
  Forall (fun d => p d = false) a ->
  find_if p (a ++ b) = (fun i => (length a + i)%nat) <$> find_if p b.
Proof.
  intros F. induction F as [|d a Hd F IH]; simpl.
  - by destruct (find_if p b).
  - rewrite Hd, IH. by destruct (find_if p b).
Qed.

(** The split a successful search gives. *)
Lemma find_if_split p s i :
  find_if p s = Some i ->
  exists c, s = take i s ++ c :: drop (S i) s /\ p c = true /\
            Forall (fun d => p d = false) (take i s).
Proof.
  intros (c & Hc & Pc & F)%find_if_Some. exists c. split; [|done].
  symmetry. by apply take_drop_middle.
Qed.

Lemma not_elem_Forall c s : c ∉ s <-> Forall (fun d => char_eqb c d = false) s.
Proof.
  rewrite Forall_forall. unfold char_eqb. split.
  - intros H d Hd. apply bool_decide_eq_false. by intros ->.
  - intros H Hc. specialize (H c Hc). by apply bool_decide_eq_false in H.
Qed.

Lemma find_None c s : find c s = None <-> c ∉ s.
Proof. unfold find. by rewrite find_if_None, not_elem_Forall. Qed.

Lemma find_app c a b : c ∉ a -> find c (a ++ c :: b) = Some (length a).
Proof. intros ?%not_elem_Forall. apply find_if_app; [done|]. apply char_eqb_refl. Qed.

Lemma find_split c s i :
  find c s = Some i -> s = take i s ++ c :: drop (S i) s /\ c ∉ take i s.
Proof.
  intros (d & E & Hd & F)%find_if_split. apply char_eqb_eq in Hd as <-.
  by rewrite <-not_elem_Forall in F.
Qed.

Lemma find_lt c s i : find c s = Some i -> (i < length s)%nat.
Proof. intros (d & Hd & _)%find_if_Some. by apply lookup_lt_Some in Hd. Qed.

(** A separator splits a text in one way. *)
Lemma sep_inj (c : ascii) (a b x y : str) : c ∉ a -> c ∉ b -> a ++ c :: x = b ++ c :: y -> a = b /\ x = y.
Proof.
  intros Ha Hb E. assert (length a = length b) as Hl.
  { apply (find_app c a x) in Ha. apply (find_app c b y) in Hb. rewrite E in Ha. congruence. }
  apply app_inj_1 in E as [-> E]; [|done]. by injection E.
Qed.

Lemma rfind_None c s : rfind c s = None <-> c ∉ s.
Proof.
  induction s as [|d s IH]; simpl; [split; [intros _; apply not_elem_of_nil|done]|].
  rewrite not_elem_of_cons. destruct (rfind c s); [naive_solver|].
  unfold char_eqb. case_bool_decide; naive_solver.
Qed.

Lemma rfind_app c a b : c ∉ b -> rfind c (a ++ c :: b) = Some (length a).
Proof.
  intros Hb%rfind_None. induction a as [|d a IH]; simpl.
  - by rewrite Hb, char_eqb_refl.
  - by rewrite IH.
Qed.

(** The last separator splits a text in one way. *)
Lemma sep_inj_r (c : ascii) (a b x y : str) : c ∉ x -> c ∉ y -> a ++ c :: x = b ++ c :: y -> a = b /\ x = y.
Proof.
  intros Hx Hy E. assert (length a = length b) as Hl.
  { apply (rfind_app c a x) in Hx. apply (rfind_app c b y) in Hy. rewrite E in Hx. congruence. }
  apply app_inj_1 in E as [-> E]; [|done]. by injection E.
Qed.

Lemma rfind_split c s i :
  rfind c s = Some i -> s = take i s ++ c :: drop (S i) s /\ c ∉ drop (S i) s.
Proof.
  revert i. induction s as [|d s IH]; intros i; simpl; [done|].
  destruct (rfind c s) as [j|] eqn:E.
  - intros [= <-]. destruct (IH j eq_refl) as [E1 E2]. simpl.
    split; [by rewrite <-E1|done].
  - destruct (char_eqb c d) eqn:Ed; [|done]. intros [= <-].
    apply char_eqb_eq in Ed as ->. simpl. rewrite drop_0. split; [done|].
    by apply rfind_None.
Qed.

Lemma rfind_lt c s i : rfind c s = Some i -> (i < length s)%nat.
Proof.
  revert i. induction s as [|d s IH]; intros i; simpl; [done|].
  destruct (rfind c s) as [j|]; [intros [= <-]; specialize (IH j eq_refl); lia|].
  destruct (char_eqb c d); [intros [= <-]; lia|done].
Qed.

Lemma starts_with_app p s : starts_with p (p ++ s) = true.
Proof. induction p; simpl; [done|]. by rewrite char_eqb_refl. Qed.

Lemma starts_with_true p s : starts_with p s = true -> s = p ++ drop (length p) s.
Proof.
  revert s. induction p as [|a p IH]; intros [|b s]; simpl; try done.
  intros [->%char_eqb_eq H]%andb_true_iff. by rewrite <-IH.
Qed.

(** ** Decimal text *)

Lemma is_digit_code c : is_digit c = true <-> 48 <= code c <= 57.
Proof.
  unfold is_digit, in_range. rewrite andb_true_iff, !Z.leb_le.
  change (code "0") with 48. change (code "9") with 57. lia.
Qed.

Lemma is_digit_chr d : 0 <= d <= 9 -> is_digit (chr (48 + d)) = true.
Proof. intros. apply is_digit_code. rewrite code_chr, Z.mod_small; lia. Qed.

Lemma decimal_value_snoc s c : decimal_value (s ++ [c]) = decimal_step (decimal_value s) c.
Proof. unfold decimal_value. by rewrite fold_left_app. Qed.

Lemma digits_acc_app fuel z acc : digits_acc fuel z acc = digits_acc fuel z [] ++ acc.
Proof.
  revert z acc. induction fuel as [|f IH]; intros z acc; simpl; [done|].
  destruct (z <? 10); [done|]. rewrite IH, (IH _ [_]). by rewrite <-app_assoc.
Qed.

Lemma digits_acc_spec fuel z :
  0 <= z < 2 ^ Z.of_nat fuel ->
  Forall (fun c => is_digit c = true) (digits_acc fuel z []) /\
  decimal_value (digits_acc fuel z []) = z.
Proof.
  revert z. induction fuel as [|f IH]; intros z Hz; [split; [constructor|cbn in *; lia]|].
  cbn [digits_acc]. assert (0 <= z mod 10 < 10) by (apply Z.mod_pos_bound; lia).
  destruct (Z.ltb_spec z 10).
  - split; [constructor; [apply is_digit_chr; lia|constructor]|].
    unfold decimal_value, decimal_step. cbn [fold_left]. rewrite code_chr.
    rewrite (Z.mod_small (48 + _)) by lia. rewrite Z.mod_small by lia. lia.
  - rewrite digits_acc_app. destruct (IH (z / 10)) as [F V].
    { split; [apply Z.div_pos; lia|]. apply Z.div_lt_upper_bound; [lia|].
      rewrite Nat2Z.inj_succ, Z.pow_succ_r in Hz by lia. lia. }
    rewrite Forall_app, decimal_value_snoc, V. split.
    + split; [done|]. constructor; [apply is_digit_chr; lia|constructor].
    + unfold decimal_step. rewrite code_chr, (Z.mod_small (48 + _)) by lia.
      rewrite (Z.div_mod z 10) at 3 by lia. lia.
Qed.

Lemma to_string_fuel z : 0 <= z -> z < 2 ^ Z.of_nat (S (Z.to_nat (Z.log2 z))).
Proof.
  intros Hz. rewrite Nat2Z.inj_succ, Z2Nat.id by apply Z.log2_nonneg.
  destruct (decide (z = 0)) as [->|]; [done|]. apply Z.log2_spec. lia.
Qed.

Lemma to_string_digits z : 0 <= z -> Forall (fun c => is_digit c = true) (to_string z).
Proof.
  intros Hz. unfold to_string. destruct (Z.ltb_spec z 0); [lia|].
  apply digits_acc_spec. split; [done|]. by apply to_string_fuel.
Qed.

Lemma decimal_value_to_string z : 0 <= z -> decimal_value (to_string z) = z.
Proof.
  intros Hz. unfold to_string. destruct (Z.ltb_spec z 0); [lia|].
  apply digits_acc_spec. split; [done|]. by apply to_string_fuel.
Qed.

Lemma to_string_nonempty z : to_string z <> [].
Proof.
  unfold to_string. destruct (z <? 0); [done|]. cbn [digits_acc].
  destruct (z <? 10); [done|]. rewrite digits_acc_app. by intros [_ ?]%app_nil.
Qed.

Lemma to_string_no_char c z : 0 <= z -> is_digit c = false -> c ∉ to_string z.
Proof.
  intros Hz Hc Hin. pose proof (to_string_digits z Hz) as F. rewrite Forall_forall in F.
  specialize (F c Hin). congruence.
Qed.

Lemma decimal_fold_ge s v :
  Forall (fun c => is_digit c = true) s -> 0 <= v -> v <= fold_left decimal_step s v.
Proof.
  intros HF. revert v. induction HF as [|d s Hd HF IH]; intros v Hv; [done|]. cbn [fold_left].
  apply is_digit_code in Hd. etrans; [|apply IH]; unfold decimal_step; lia.
Qed.

Lemma Forall_digits_impl (P : ascii -> bool) s :
  forallb (fun c => implb (is_digit c) (P c)) all_chars = true ->
  Forall (fun c => is_digit c = true) s -> Forall (fun c => P c = true) s.
Proof.
  intros H HF. eapply Forall_impl; [exact HF|]. intros c Hc. pose proof (char_forall _ H c) as Hi.
  simpl in Hi. by rewrite Hc in Hi.
Qed.

Lemma to_string_inj a b : 0 <= a -> 0 <= b -> to_string a = to_string b -> a = b.
Proof. intros Ha Hb H. by rewrite <-(decimal_value_to_string a), H, decimal_value_to_string. Qed.

(** ** Slices and writes *)

Lemma lookup_0_app {A} (a b : list A) : a <> [] -> (a ++ b) !! 0%nat = a !! 0%nat.
Proof. by destruct a. Qed.

Lemma zlen_nonneg {A} (l : list A) : 0 <= zlen l.
Proof. unfold zlen. lia. Qed.

Lemma zlen_app {A} (a b : list A) : zlen (a ++ b) = zlen a + zlen b.
Proof. unfold zlen. rewrite length_app. lia. Qed.

Lemma zlen_slice {A} (l : list A) off len :
  0 <= off -> 0 <= len -> off + len <= zlen l -> zlen (slice l off len) = len.
Proof. unfold zlen, slice. intros. rewrite length_take, length_drop. lia. Qed.

Lemma slice_lookup {A} (l : list A) off len (i : nat) :
  (i < Z.to_nat len)%nat -> slice l off len !! i = l !! (Z.to_nat off + i)%nat.
Proof. intros. unfold slice. by rewrite lookup_take_lt, lookup_drop. Qed.

Lemma slice_lookup_ge {A} (l : list A) off len (i : nat) :
  (Z.to_nat len <= i)%nat -> slice l off len !! i = None.
Proof. intros. unfold slice. by rewrite lookup_take_ge. Qed.

Lemma slice_app {A} (l : list A) off a b :
  0 <= off -> 0 <= a -> 0 <= b -> slice l off (a + b) = slice l off a ++ slice l (off + a) b.
Proof.
  intros. unfold slice. rewrite !Z2Nat.inj_add by lia.
  by rewrite <-take_take_drop, drop_drop.
Qed.

Lemma slice_slice {A} (l : list A) off len o n :
  0 <= off -> 0 <= o -> 0 <= n -> o + n <= len ->
  slice (slice l off len) o n = slice l (off + o) n.
Proof.
  intros. unfold slice. rewrite !Z2Nat.inj_add by lia.
  rewrite skipn_firstn_comm, take_take, drop_drop. f_equal. lia.
Qed.

Lemma slice_full {A} (l : list A) : slice l 0 (zlen l) = l.
Proof. unfold slice, zlen. rewrite Nat2Z.id. by rewrite drop_0, take_ge. Qed.

Lemma slice_zero {A} (l : list A) off : slice l off 0 = [].
Proof. unfold slice. by rewrite take_0. Qed.

Lemma length_write_at {A} (buf : list A) pos src :
  0 <= pos -> pos + zlen src <= zlen buf -> length (write_at buf pos src) = length buf.
Proof.
  unfold write_at, zlen. intros. rewrite !length_app, length_take, length_drop. lia.
Qed.

Lemma lookup_write_at {A} (buf : list A) pos src (i : nat) :
  0 <= pos -> pos + zlen src <= zlen buf ->
  write_at buf pos src !! i =
    if bool_decide (Z.to_nat pos <= i < Z.to_nat pos + length src)%nat
    then src !! (i - Z.to_nat pos)%nat else buf !! i.
Proof.
  unfold zlen. intros Hp Hl. unfold write_at.
  assert (length (take (Z.to_nat pos) buf) = Z.to_nat pos) as HL by (rewrite length_take; lia).
  case_bool_decide.
  - rewrite lookup_app_r by lia. rewrite HL, lookup_app_l by lia. done.
  - destruct (decide (i < Z.to_nat pos)%nat).
    + rewrite lookup_app_l by lia. by rewrite lookup_take_lt.
    + rewrite lookup_app_r by lia. rewrite HL, lookup_app_r by lia.
      rewrite lookup_drop. f_equal. lia.
Qed.

(** Writing a slice back where it came from, at the front of the rest. *)
Lemma write_at_prefix {A} (buf src : list A) :
  write_at buf 0 src = src ++ drop (length src) buf.
Proof. done. Qed.

Lemma list_eq_slice {A} (l m : list A) off len :
  0 <= off -> 0 <= len -> off + len <= zlen m -> length l = Z.to_nat len ->
  (forall i : nat, (i < Z.to_nat len)%nat -> l !! i = m !! (Z.to_nat off + i)%nat) ->
  l = slice m off len.
Proof.
  intros ??? HL H. apply list_eq. intros i.
  destruct (decide (i < Z.to_nat len)%nat).
  - by rewrite slice_lookup, H.
  - rewrite slice_lookup_ge by lia. apply lookup_ge_None. lia.
Qed.

Lemma str_ltb_irrefl a : str_ltb a a = false.
Proof. induction a as [|x a IH]; [done|]. cbn. by rewrite Z.ltb_irrefl, IH, andb_false_r. Qed.

Lemma str_ltb_trans a b c : str_ltb a b = true -> str_ltb b c = true -> str_ltb a c = true.
Proof.
  revert b c. induction a as [|x a IH]; intros [|y b] [|z c]; simpl; try done.
  rewrite !orb_true_iff, !andb_true_iff, !Z.ltb_lt, !Z.eqb_eq.
  intros [?|[? ?]] [?|[? ?]]; try (left; lia). right. split; [lia|eauto].
Qed.

Lemma str_ltb_total a b : a <> b -> str_ltb a b = false -> str_ltb b a = true.
Proof.
  revert b. induction a as [|x a IH]; intros [|y b] Hne; simpl; try done.
  rewrite orb_false_iff, andb_false_iff, Z.ltb_ge, orb_true_iff, andb_true_iff, Z.ltb_lt, !Z.eqb_eq, Z.eqb_neq.
  intros [Hle [Hn|Hl]]; [left; lia|]. destruct (decide (code x = code y)) as [E|E]; [right|left; lia].
  apply code_inj in E as ->. split; [done|]. apply IH; congruence.
Qed.

Lemma zsum_app {A} (f : A -> Z) a b : zsum f (a ++ b) = zsum f a + zsum f b.
Proof. unfold zsum. induction a; simpl; lia. Qed.

Lemma zsum_snoc {A} (f : A -> Z) l x : zsum f (l ++ [x]) = zsum f l + f x.
Proof. rewrite zsum_app. simpl. lia. Qed.

Lemma zsum_ext {A} (f g : A -> Z) l :
  (forall x, x ∈ l -> f x = g x) -> zsum f l = zsum g l.
Proof.
  unfold zsum. induction l as [|x l IH]; intros H; simpl; [done|].
  rewrite H, IH; [done| |]; set_solver.
Qed.

Lemma zsum_nonneg {A} (f : A -> Z) l : (forall x, x ∈ l -> 0 <= f x) -> 0 <= zsum f l.
Proof.
  unfold zsum. induction l as [|x l IH]; intros H; simpl; [done|].
  assert (0 <= f x) by (apply H; set_solver).
  assert (0 <= foldr (fun x acc => f x + acc) 0 l) by (apply IH; set_solver). lia.
Qed.

Lemma zsum_permutation {A} (f : A -> Z) l1 l2 : l1 ≡ₚ l2 -> zsum f l1 = zsum f l2.
Proof. unfold zsum. induction 1; simpl; lia. Qed.

Lemma filter_all {A} (P : A -> Prop) `{forall x, Decision (P x)} (l : list A) :
  (forall x, x ∈ l -> P x) -> filter P l = l.
Proof.
  induction l as [|x l IH]; intros HP; [done|].
  rewrite filter_cons_True by (apply HP; set_solver). rewrite IH; [done|]. set_solver.
Qed.

#[export] Hint Resolve zlen_nonneg : wf.
