(* ===== verification/Effects.v ===== *)
(** * Effects: state, early return and blocking

    The handlers of the sources are sequences of calls that update shared
    state, return early with a result, loop over containers, and in one place
    ([BlockCache::Binding::Await]) wait.  [M S E A] is the monad they are
    written in: a state [S] threaded through, [Exit e] for a [return e] out of
    the enclosing C++ function, [Blocked] for a wait that has not been
    satisfied.  [wp] is its weakest precondition and the lemmas below are the
    proof rules the components use; [mwp] applies them. *)

From S2P Require Import Prelude.

Inductive outcome (E A : Type) : Type :=
| Ret (a : A)
| Exit (e : E)
| Blocked.

Arguments Ret {E A} a.
Arguments Exit {E A} e.
Arguments Blocked {E A}.

Definition M (S E A : Type) : Type := S -> outcome E A * S.

Section ops.
Context {S E : Type}.

Definition ret {A} (a : A) : M S E A := fun s => (Ret a, s).

Definition bind {A B} (m : M S E A) (f : A -> M S E B) : M S E B := fun s =>
  match m s with
  | (Ret a, s') => f a s'
  | (Exit e, s') => (Exit e, s')
  | (Blocked, s') => (Blocked, s')
  end.

Definition exit {A} (e : E) : M S E A := fun s => (Exit e, s).

Definition block {A} : M S E A := fun s => (Blocked, s).

Definition get : M S E S := fun s => (Ret s, s).

Definition gets {A} (f : S -> A) : M S E A := fun s => (Ret (f s), s).

Definition modify (f : S -> S) : M S E unit := fun s => (Ret tt, f s).

(** A step that computes a value and the next state. *)
Definition act {A} (f : S -> A * S) : M S E A := fun s => let '(a, s') := f s in (Ret a, s').

Definition when (b : bool) (m : M S E unit) : M S E unit := if b then m else ret tt.

(** [for (x : l) body(x)] with [continue] as the end of [body]. *)
Fixpoint mfor {X} (l : list X) (body : X -> M S E unit) : M S E unit :=
  match l with
  | [] => ret tt
  | x :: l' => bind (body x) (fun _ => mfor l' body)
  end.

(** [while (true)] with a [break]: [body] returns [true] to go round again.
    [fuel] bounds the iterations, and running out is [Blocked]. *)
Fixpoint mwhile (fuel : nat) (body : M S E bool) : M S E unit :=
  match fuel with
  | O => block
  | Datatypes.S fuel' => bind body (fun again => if again then mwhile fuel' body else ret tt)
  end.

(** A destructor: [fin] runs however [m] leaves. *)
Definition finally {A} (m : M S E A) (fin : S -> S) : M S E A := fun s =>
  let '(o, s') := m s in (o, fin s').

(** Running a handler to the value it returns. *)
Definition run (m : M S E E) (s : S) : option E * S :=
  match m s with
  | (Ret e, s') => (Some e, s')
  | (Exit e, s') => (Some e, s')
  | (Blocked, s') => (None, s')
  end.

(** ** Weakest preconditions *)

(** [Q] on a normal end, [X] on an early return, [B] on a wait. *)
Definition wp {A} (m : M S E A) (Q : A -> S -> Prop) (X : E -> S -> Prop) (B : S -> Prop)
    (s : S) : Prop :=
  match m s with
  | (Ret a, s') => Q a s'
  | (Exit e, s') => X e s'
  | (Blocked, s') => B s'
  end.

End ops.

Declare Scope effect_scope.
Delimit Scope effect_scope with effect.
Notation "x <- m ;; k" := (bind m (fun x => k))
  (at level 100, m at next level, right associativity) : effect_scope.
Notation "m ;; k" := (bind m (fun _ => k))
  (at level 100, right associativity) : effect_scope.

Section rules.
Context {S E : Type}.
Implicit Types (X : E -> S -> Prop) (B : S -> Prop) (s : S).

Lemma wp_ret {A} (a : A) Q X B s : Q a s -> wp (S:=S) (E:=E) (ret a) Q X B s.
Proof. done. Qed.

Lemma wp_bind {A C} (m : M S E A) (f : A -> M S E C) Q X B s :
  wp m (fun a => wp (f a) Q X B) X B s -> wp (bind m f) Q X B s.
Proof. unfold wp, bind. by destruct (m s) as [[] ?]. Qed.

Lemma wp_exit {A} (e : E) (Q : A -> S -> Prop) X B s : X e s -> wp (exit e) Q X B s.
Proof. done. Qed.

Lemma wp_block {A} (Q : A -> S -> Prop) X B s : B s -> wp (E:=E) block Q X B s.
Proof. done. Qed.

Lemma wp_get Q X B s : Q s s -> wp (E:=E) get Q X B s.
Proof. done. Qed.

Lemma wp_gets {A} (f : S -> A) Q X B s : Q (f s) s -> wp (E:=E) (gets f) Q X B s.
Proof. done. Qed.

Lemma wp_modify f Q X B s : Q tt (f s) -> wp (E:=E) (modify f) Q X B s.
Proof. done. Qed.

Lemma wp_act {A} (f : S -> A * S) Q X B s :
  Q (fst (f s)) (snd (f s)) -> wp (E:=E) (act f) Q X B s.
Proof. unfold wp, act. by destruct (f s). Qed.

Lemma wp_when b m Q X B s :
  (b = true -> wp m Q X B s) -> (b = false -> Q tt s) -> wp (E:=E) (when b m) Q X B s.
Proof. destruct b; intros Ht Hf; [by apply Ht|by apply Hf]. Qed.

Lemma wp_mono {A} (m : M S E A) (Q Q' : A -> S -> Prop) X X' B B' s :
  wp m Q X B s -> (forall a s', Q a s' -> Q' a s') -> (forall e s', X e s' -> X' e s') ->
  (forall s', B s' -> B' s') -> wp m Q' X' B' s.
Proof. unfold wp. destruct (m s) as [[] ?]; eauto. Qed.

(** The loop rule: an invariant indexed by the elements already visited. *)
Lemma wp_mfor {Y} (l : list Y) body (I : list Y -> S -> Prop) Q X B s :
  I [] s ->
  (forall (seen : list Y) x rest s', l = seen ++ x :: rest -> I seen s' ->
     wp (body x) (fun _ => I (seen ++ [x])) X B s') ->
  (forall s', I l s' -> Q tt s') -> wp (mfor l body) Q X B s.
Proof.
  intros H0 Hstep Hend.
  enough (forall (seen rest : list Y) s', l = seen ++ rest -> I seen s' -> wp (mfor rest body) Q X B s') as H.
  { by apply (H [] l). }
  intros seen rest. revert seen. induction rest as [|x rest IH]; intros seen s' El Hs'; simpl.
  { apply wp_ret, Hend. by rewrite El, app_nil_r. }
  apply wp_bind. eapply wp_mono; [by apply Hstep with rest|..]; [|done..].
  intros [] s2 Hs2. apply IH with (seen ++ [x]); [|done]. by rewrite <-app_assoc.
Qed.

(** Partial correctness of a fuelled loop: running out of fuel is [B]. *)
Lemma wp_mwhile fuel (body : M S E bool) (I : S -> Prop) Q X B s :
  I s -> (forall s', I s' -> B s') ->
  (forall s', I s' -> wp body (fun again s2 => if again then I s2 else Q tt s2) X B s') ->
  wp (mwhile fuel body) Q X B s.
Proof.
  intros Hs HB Hbody. revert s Hs. induction fuel as [|f IH]; intros s Hs; simpl.
  { by apply wp_block, HB. }
  apply wp_bind. eapply wp_mono; [by apply Hbody|..]; [|done..].
  intros [] s2 H; [by apply IH|done].
Qed.

(** Total correctness: a measure that every further turn lowers. *)
Lemma wp_mwhile_total (measure : S -> nat) fuel (body : M S E bool) (I : S -> Prop) Q X B s :
  I s -> (measure s < fuel)%nat ->
  (forall s', I s' -> wp body (fun again s2 =>
     if again then I s2 /\ (measure s2 < measure s')%nat else Q tt s2) X B s') ->
  wp (mwhile fuel body) Q X B s.
Proof.
  intros Hs Hm Hbody. revert s Hs Hm. induction fuel as [|f IH]; intros s Hs Hm; [lia|].
  simpl. apply wp_bind. eapply wp_mono; [by apply Hbody|..]; [|done..].
  intros [] s2 H; [|done]. destruct H. apply IH; [done|lia].
Qed.

Lemma wp_finally {A} (m : M S E A) fin (Q : A -> S -> Prop) X B s :
  wp m (fun a s' => Q a (fin s')) (fun e s' => X e (fin s')) (fun s' => B (fin s')) s ->
  wp (finally m fin) Q X B s.
Proof. unfold wp, finally. by destruct (m s) as [[] ?]. Qed.

(** What [wp] of a handler says of [run]. *)
Lemma run_wp (m : M S E E) (Q : E -> S -> Prop) B s :
  wp m Q Q B s ->
  match run m s with (Some e, s') => Q e s' | (None, s') => B s' end.
Proof. unfold wp, run. by destruct (m s) as [[] ?]. Qed.

End rules.

(** One step of symbolic execution of a handler. *)
Ltac mwp1 :=
  lazymatch goal with
  | |- wp (ret _) _ _ _ _ => apply wp_ret
  | |- wp (bind _ _) _ _ _ _ => apply wp_bind
  | |- wp (exit _) _ _ _ _ => apply wp_exit
  | |- wp get _ _ _ _ => apply wp_get
  | |- wp (gets _) _ _ _ _ => apply wp_gets
  | |- wp (modify _) _ _ _ _ => apply wp_modify
  | |- wp (act _) _ _ _ _ => apply wp_act
  | |- wp (finally _ _) _ _ _ _ => apply wp_finally
  | |- wp (when _ _) _ _ _ _ => apply wp_when; intros ?
  end.

Ltac mwp := repeat (mwp1; cbn beta).
