(* ===== verification/Diagnostics.v ===== *)
(** * Diagnostics: the typed status vocabulary and secret elision

    libs/usd-asset-io: include/usdAssetIo/Diagnostics.h and
    src/Diagnostics.cpp.  [Status] is the value every operation of every other
    component returns; [ElideSecrets] is the function every identifier goes
    through before it reaches a message. *)

From S2P Require Import Prelude.

Inductive Severity : Type := Warning | Error | CodingError.

Inductive StatusCode : Type :=
| Ok | NotFound | AccessDenied | RangeNotSupported | InvalidResponse
| NetworkError | Timeout | AssetChanged | Cancelled | InvalidArgument
| Unsupported.

#[export] Instance Severity_eq_dec : EqDecision Severity.
Proof. solve_decision. Defined.

#[export] Instance StatusCode_eq_dec : EqDecision StatusCode.
Proof. solve_decision. Defined.

Definition StatusCodeName (code : StatusCode) : str :=
  match code with
  | Ok => lit "Ok"
  | NotFound => lit "NotFound"
  | AccessDenied => lit "AccessDenied"
  | RangeNotSupported => lit "RangeNotSupported"
  | InvalidResponse => lit "InvalidResponse"
  | NetworkError => lit "NetworkError"
  | Timeout => lit "Timeout"
  | AssetChanged => lit "AssetChanged"
  | Cancelled => lit "Cancelled"
  | InvalidArgument => lit "InvalidArgument"
  | Unsupported => lit "Unsupported"
  end.

Definition SeverityName (severity : Severity) : str :=
  match severity with
  | Warning => lit "warning"
  | Error => lit "error"
  | CodingError => lit "coding error"
  end.

Definition DefaultSeverity (code : StatusCode) : Severity :=
  match code with
  | Ok => Error
  | Cancelled => Warning
  | InvalidArgument => CodingError
  | _ => Error
  end.

Record Status : Type := mkStatus {
  st_code : StatusCode;
  st_severity : Severity;
  st_message : str;
  st_byteOffset : option Z;
  st_byteLength : option Z;
  st_transportStatus : option Z }.

#[export] Instance Status_eq_dec : EqDecision Status.
Proof. solve_decision. Defined.

Definition IsOk (s : Status) : bool := bool_decide (st_code s = Ok).

Definition Status_Ok : Status := mkStatus Ok Error [] None None None.

Definition Status_Error (code : StatusCode) (message : str) : Status :=
  mkStatus code (DefaultSeverity code) message None None None.

Definition WithRange (s : Status) (offset length : Z) : Status :=
  mkStatus (st_code s) (st_severity s) (st_message s) (Some offset) (Some length)
    (st_transportStatus s).

Definition WithTransportStatus (s : Status) (status : Z) : Status :=
  mkStatus (st_code s) (st_severity s) (st_message s) (st_byteOffset s) (st_byteLength s)
    (Some status).

Definition WithSeverity (s : Status) (severity : Severity) : Status :=
  mkStatus (st_code s) severity (st_message s) (st_byteOffset s) (st_byteLength s)
    (st_transportStatus s).

Definition Status_ToString (s : Status) : str :=
  let out := StatusCodeName (st_code s) ++ lit " (" ++ SeverityName (st_severity s) ++ lit ")" in
  let out := if bool_decide (st_message s = []) then out
             else out ++ lit ": " ++ st_message s in
  let out :=
    match st_byteOffset s, st_byteLength s with
    | None, None => out
    | offset, length =>
        out ++ lit " ["
            ++ match offset with Some o => lit "offset " ++ to_string o | None => [] end
            ++ match length with
               | Some n => (if offset is Some _ then lit ", " else []) ++ lit "length " ++ to_string n
               | None => []
               end
            ++ lit "]"
    end in
  match st_transportStatus s with
  | Some t => out ++ lit " [transport " ++ to_string t ++ lit "]"
  | None => out
  end.

(** ** Elision *)

Definition scheme_char (c : ascii) : bool :=
  is_lower c || is_upper c || is_digit c || char_eqb c "+" || char_eqb c "-" || char_eqb c ".".

Definition IsScheme (text : str) : bool :=
  match text with
  | [] => false
  | first :: _ => if negb (is_lower first || is_upper first) then false
                  else forallb scheme_char text
  end.

Definition FindAuthority (identifier : str) : option nat :=
  if starts_with (lit "//") identifier then Some 2%nat
  else match find_sub (lit "://") identifier with
       | Some separator =>
           if IsScheme (take separator identifier) then Some (separator + 3)%nat else None
       | None => None
       end.

(** The first step of [ElideSecrets]: everything from the first '?'. *)
Definition elide_query (s : str) : str :=
  match find "?" s with
  | Some query => take query s ++ lit "?<elided>"
  | None => s
  end.

(** The second step: the userinfo of the authority.  [rfind('@', authorityEnd)]
    looks at the positions up to and including [authorityEnd]. *)
Definition elide_userinfo (out : str) : str :=
  match FindAuthority out with
  | None => out
  | Some authorityBegin =>
      let authorityEnd :=
        match find_first_of (lit "/?#") (drop authorityBegin out) with
        | Some i => (authorityBegin + i)%nat
        | None => length out
        end in
      match rfind "@" (take (S authorityEnd) out) with
      | Some at_ =>
          if (authorityBegin <=? at_)%nat && (at_ <? authorityEnd)%nat
          then take authorityBegin out ++ lit "<elided>@" ++ drop (S at_) out
          else out
      | None => out
      end
  end.

Definition ElideSecrets (identifier : str) : str := elide_userinfo (elide_query identifier).

(** ** What a status says *)

(** The two builders that attach a location leave the code and its severity
    alone, so a caller that branches on the code sees the producer's. *)
Lemma Status_Error_code code message : st_code (Status_Error code message) = code.
Proof. done. Qed.

Lemma IsOk_Error code message : IsOk (Status_Error code message) = bool_decide (code = Ok).
Proof. done. Qed.

Lemma StatusCodeName_inj a b : StatusCodeName a = StatusCodeName b -> a = b.
Proof. by destruct a, b. Qed.

(** ** Lemmas on elision *)

Definition authority_char (c : ascii) : bool := negb (bool_decide (c ∈ lit "/?#")).

Lemma scheme_char_no_colon c : scheme_char c = true -> c <> ":"%char.
Proof. by intros H ->. Qed.

Lemma IsScheme_chars s : IsScheme s = true -> Forall (fun c => scheme_char c = true) s.
Proof.
  destruct s as [|c s]; simpl; [done|]. destruct (negb _); [done|].
  rewrite andb_true_iff, forallb_forall. intros [Hc H]. constructor; [done|].
  apply Forall_forall. intros x Hx. apply H. by apply list_elem_of_In.
Qed.

Lemma find_sub_scheme s rest :
  Forall (fun c => scheme_char c = true) s ->
  find_sub (lit "://") (s ++ lit "://" ++ rest) = Some (length s).
Proof.
  induction 1 as [|c s Hc Hs IH]; [done|].
  cbn [app find_sub]. change (lit "://") with (":"%char :: lit "//") at 1. cbn [starts_with].
  rewrite (char_eqb_ne ":" c) by (intros <-; by apply scheme_char_no_colon in Hc).
  cbn [andb]. by rewrite IH.
Qed.

Lemma scheme_not_slashes s rest :
  IsScheme s = true -> starts_with (lit "//") (s ++ rest) = false.
Proof.
  destruct s as [|c s]; simpl; [done|]. unfold char_eqb. by case_bool_decide; subst.
Qed.

Lemma FindAuthority_scheme s rest :
  IsScheme s = true -> FindAuthority (s ++ lit "://" ++ rest) = Some (length s + 3)%nat.
Proof.
  intros Hs. unfold FindAuthority. rewrite scheme_not_slashes by done.
  rewrite find_sub_scheme by by apply IsScheme_chars. rewrite take_app_length. by rewrite Hs.
Qed.

Lemma elide_query_app a q :
  "?"%char ∉ a -> elide_query (a ++ "?"%char :: q) = a ++ lit "?<elided>".
Proof. intros Ha. unfold elide_query. by rewrite find_app, take_app_length. Qed.

Lemma elide_query_none s : "?"%char ∉ s -> elide_query s = s.
Proof. unfold elide_query. by intros ->%find_None. Qed.

Lemma elide_query_prefix a t :
  "?"%char ∉ a -> elide_query (a ++ t) = a ++ elide_query t.
Proof.
  intros Ha. destruct (decide ("?"%char ∈ t)) as [Ht|Ht].
  - apply list_elem_of_split_l in Ht as (t1 & t2 & -> & Ht1).
    rewrite app_assoc, !elide_query_app by set_solver. by rewrite app_assoc.
  - by rewrite !elide_query_none by set_solver.
Qed.

(** A tail the authority ends at: empty, or starting with one of "/?#". *)
Definition ends_authority (t : str) : bool :=
  match t with [] => true | c :: _ => negb (authority_char c) end.

Lemma ends_authority_elide t : ends_authority t = true -> ends_authority (elide_query t) = true.
Proof.
  unfold elide_query. destruct (find "?" t) as [i|] eqn:E; [|done].
  destruct t as [|c t]; [done|]. by destruct i.
Qed.

Lemma authority_end a t :
  Forall (fun c => authority_char c = true) a -> ends_authority t = true ->
  match find_first_of (lit "/?#") (a ++ t) with Some i => i | None => length (a ++ t) end
  = length a.
Proof.
  intros Ha Ht. unfold find_first_of.
  assert (Forall (fun c => bool_decide (c ∈ lit "/?#") = false) a) as Ha'.
  { eapply Forall_impl; [exact Ha|]. intros c. unfold authority_char.
    by destruct (bool_decide _). }
  rewrite find_if_app_None by done. destruct t as [|c t]; cbn [find_if].
  { by rewrite app_nil_r. }
  cbn [ends_authority] in Ht. unfold authority_char in Ht. rewrite negb_involutive in Ht.
  rewrite Ht. simpl. lia.
Qed.

(** The userinfo step on a URL with a scheme, whatever the userinfo is. *)
Lemma elide_userinfo_scheme s u h t :
  IsScheme s = true ->
  Forall (fun c => authority_char c = true) u ->
  Forall (fun c => authority_char c = true) h -> "@"%char ∉ h ->
  ends_authority t = true ->
  elide_userinfo (s ++ lit "://" ++ (u ++ "@"%char :: h) ++ t)
  = s ++ lit "://<elided>@" ++ h ++ t.
Proof.
  intros Hs Hu Hh Hat Ht. unfold elide_userinfo. rewrite FindAuthority_scheme by done.
  set (p := s ++ lit "://"). replace (length s + 3)%nat with (length p)
    by (unfold p; by rewrite length_app).
  rewrite (app_assoc s (lit "://")). fold p. rewrite drop_app_length.
  pose proof (authority_end (u ++ "@"%char :: h) t) as Hend.
  assert (Forall (fun c => authority_char c = true) (u ++ "@"%char :: h)) as Ha
    by (apply Forall_app; split; [done|by constructor]).
  specialize (Hend Ha Ht). set (a := u ++ "@"%char :: h) in *.
  assert (match find_first_of (lit "/?#") (a ++ t) with
          | Some i => (length p + i)%nat | None => length (p ++ a ++ t) end
          = (length p + length a)%nat) as ->.
  { rewrite length_app. destruct (find_first_of _ _); lia. }
  assert (take (S (length p + length a)) (p ++ a ++ t)
          = (p ++ u) ++ "@"%char :: (h ++ take 1 t)) as ->.
  { rewrite take_app_ge by lia. rewrite take_app_ge by lia.
    replace (S (length p + length a) - length p - length a)%nat with 1%nat by lia.
    unfold a. by rewrite <-!app_assoc. }
  rewrite rfind_app.
  2:{ rewrite not_elem_of_app. split; [done|]. destruct t as [|c t]; simpl; [set_solver|].
      intros Hc%list_elem_of_singleton. by subst. }
  rewrite length_app.
  assert ((length p <=? length p + length u)%nat && (length p + length u <? length p + length a)%nat
    = true) as ->.
  { unfold a. rewrite length_app. cbn [length]. apply andb_true_iff.
    rewrite Nat.leb_le, Nat.ltb_lt. lia. }
  rewrite take_app_length. unfold a. rewrite <-!app_assoc. cbn [app].
  rewrite (app_assoc p u), drop_app_ge by (rewrite length_app; lia).
  rewrite length_app. replace (S (length p + length u) - (length p + length u))%nat with 1%nat by lia.
  unfold p. by rewrite <-!app_assoc.
Qed.

(** Elision removes the secrets of a URL and nothing else: for every scheme,
    user information and host, what is logged is the scheme, a marker for the
    user information, the host and the path, with a marker for the query. *)
Theorem ElideSecrets_url s u h t :
  IsScheme s = true ->
  Forall (fun c => authority_char c = true) u ->
  Forall (fun c => authority_char c = true) h -> "@"%char ∉ h ->
  ends_authority t = true ->
  ElideSecrets (s ++ lit "://" ++ u ++ lit "@" ++ h ++ t)
  = s ++ lit "://<elided>@" ++ h ++ elide_query t.
Proof.
  intros Hs Hu Hh Hat Ht. unfold ElideSecrets.
  assert ("?"%char ∉ s ++ lit "://" ++ u ++ lit "@" ++ h) as Hq.
  { rewrite !not_elem_of_app. apply IsScheme_chars in Hs. rewrite Forall_forall in Hs, Hu, Hh.
    split; [by intros ?%Hs|]. split; [by apply (bool_decide_unpack _)|].
    split; [by intros ?%Hu|]. split; [by apply (bool_decide_unpack _)|by intros ?%Hh]. }
  replace (s ++ lit "://" ++ u ++ lit "@" ++ h ++ t)
    with ((s ++ lit "://" ++ u ++ lit "@" ++ h) ++ t) by by rewrite <-!app_assoc.
  rewrite (elide_query_prefix _ t Hq).
  rewrite <-(elide_userinfo_scheme s u h (elide_query t)) by (done || by apply ends_authority_elide).
  by rewrite <-!app_assoc.
Qed.
