(* ===== verification/Validator.v ===== *)
(** * Validator: revision validators and the stability they give an identity

    libs/usd-asset-io: include/usdAssetIo/Validator.h and src/Validator.cpp. *)

From S2P Require Import Prelude.

Inductive ValidatorKind : Type := KindNone | EntityTag | HttpDate | Derived.

Inductive ValidatorStrength : Type := StrengthNone | Weak | Strong.

Inductive IdentityStability : Type := Stable | Unstable | Unavailable.

#[export] Instance ValidatorKind_eq_dec : EqDecision ValidatorKind.
Proof. solve_decision. Defined.

#[export] Instance ValidatorStrength_eq_dec : EqDecision ValidatorStrength.
Proof. solve_decision. Defined.

#[export] Instance IdentityStability_eq_dec : EqDecision IdentityStability.
Proof. solve_decision. Defined.

Record Validator : Type := mkValidator {
  v_value : str;
  v_kind : ValidatorKind;
  v_strength : ValidatorStrength }.

#[export] Instance Validator_eq_dec : EqDecision Validator.
Proof. solve_decision. Defined.

(** The default-constructed validator. *)
Definition Validator_none : Validator := mkValidator [] KindNone StrengthNone.

Definition IsUsable (v : Validator) : bool := negb (bool_decide (v_kind v = KindNone)).

(** [operator==], field by field as the source compares them. *)
Definition Validator_eqb (lhs rhs : Validator) : bool :=
  bool_decide (v_kind lhs = v_kind rhs) && bool_decide (v_strength lhs = v_strength rhs) &&
  str_eqb (v_value lhs) (v_value rhs).

Definition ClassifyStability (v : Validator) : IdentityStability :=
  if negb (IsUsable v) then Unavailable
  else match v_strength v with
       | Strong => Stable
       | Weak => Unstable
       | StrengthNone => Unavailable
       end.

Definition ValidatorKindName (kind : ValidatorKind) : str :=
  match kind with
  | KindNone => lit "None"
  | EntityTag => lit "EntityTag"
  | HttpDate => lit "HttpDate"
  | Derived => lit "Derived"
  end.

Definition ValidatorStrengthName (strength : ValidatorStrength) : str :=
  match strength with
  | StrengthNone => lit "None"
  | Weak => lit "Weak"
  | Strong => lit "Strong"
  end.

Definition IdentityStabilityName (stability : IdentityStability) : str :=
  match stability with
  | Stable => lit "Stable"
  | Unstable => lit "Unstable"
  | Unavailable => lit "Unavailable"
  end.

(** ** Lemmas *)

Lemma Validator_eqb_eq a b : Validator_eqb a b = true <-> a = b.
Proof.
  unfold Validator_eqb. rewrite !andb_true_iff, !bool_decide_eq_true, str_eqb_eq.
  destruct a, b; simpl. naive_solver.
Qed.

(** Only a usable strong validator makes an identity stable. *)
Lemma ClassifyStability_Stable v :
  ClassifyStability v = Stable <-> v_kind v <> KindNone /\ v_strength v = Strong.
Proof.
  unfold ClassifyStability, IsUsable. rewrite negb_involutive.
  case_bool_decide; destruct (v_strength v); naive_solver.
Qed.
