(* ===== verification/RangeMath.v ===== *)
(** * RangeMath: what a caller's (offset, size) resolves to

    libs/usd-asset-io: include/usdAssetIo/RangeMath.h and src/RangeMath.cpp.
    Every reader resolves a request through [ResolveReadRange]; the lemmas here
    are the arithmetic the readers' proofs rest on. *)

From S2P Require Import Prelude Diagnostics.

Inductive ReadRangeOutcome : Type := Empty | Transfer | Overflow.

#[export] Instance ReadRangeOutcome_eq_dec : EqDecision ReadRangeOutcome.
Proof. solve_decision. Defined.

Record ReadRange : Type := mkReadRange {
  rr_outcome : ReadRangeOutcome;
  rr_offset : Z;
  rr_length : Z }.

Definition ResolveReadRange (offset size assetSize : Z) : ReadRange :=
  let wanted := size in
  if offset >? u64_max - wanted then mkReadRange Overflow offset 0
  else if (wanted =? 0) || (offset >=? assetSize) then mkReadRange Empty offset 0
  else
    let remaining := u64 (assetSize - offset) in
    let available := if remaining <? wanted then remaining else wanted in
    mkReadRange Transfer offset available.

Definition OverflowStatus (offset size : Z) : Status :=
  WithRange
    (Status_Error InvalidArgument
       (lit "read offset " ++ to_string offset ++ lit " plus length " ++ to_string size ++
        lit " overflows a 64-bit byte offset"))
    offset size.

Definition ShortReadStatus (offset expected actual : Z) (identifier : str) : Status :=
  let message :=
    lit "transfer stopped below end of asset (requested " ++ to_string expected ++
    lit " bytes at offset " ++ to_string offset ++ lit ", delivered " ++ to_string actual ++
    lit ")" in
  let message :=
    if bool_decide (identifier = []) then message
    else message ++ lit " " ++ ElideSecrets identifier in
  WithRange (Status_Error InvalidResponse message) offset expected.

(** ** The specification: the length of the overlap with the asset *)

(** The bytes of [offset, offset + size) that the asset has. *)
Definition available (offset size assetSize : Z) : Z := Z.max 0 (Z.min size (assetSize - offset)).

Lemma available_range offset size assetSize :
  0 <= size -> 0 <= available offset size assetSize <= size.
Proof. unfold available. lia. Qed.

Lemma available_in_asset offset size assetSize :
  0 <= offset -> available offset size assetSize = 0 \/
  offset + available offset size assetSize <= assetSize.
Proof. unfold available. lia. Qed.

(** The three outcomes, each with its exact condition. *)
Lemma ResolveReadRange_cases offset size assetSize :
  is_u64 offset -> is_u64 size -> is_u64 assetSize ->
  let r := ResolveReadRange offset size assetSize in
  rr_offset r = offset /\
  ((2 ^ 64 <= offset + size /\ rr_outcome r = Overflow /\ rr_length r = 0) \/
   (offset + size < 2 ^ 64 /\ available offset size assetSize = 0 /\
      rr_outcome r = Empty /\ rr_length r = 0) \/
   (offset + size < 2 ^ 64 /\ 0 < available offset size assetSize /\
      rr_outcome r = Transfer /\ rr_length r = available offset size assetSize /\
      offset + rr_length r <= assetSize)).
Proof.
  unfold is_u64, ResolveReadRange, available, u64_max. intros Ho Hs Ha.
  destruct (Z.gtb_spec offset (2 ^ 64 - 1 - size)); simpl; [split; [done|left; ands]|].
  destruct (Z.eqb_spec size 0); simpl; [split; [done|right; left; ands]|].
  rewrite Z.geb_leb. destruct (Z.leb_spec assetSize offset); simpl; [split; [done|right; left; ands]|].
  rewrite u64_small by (unfold is_u64; lia).
  destruct (Z.ltb_spec (assetSize - offset) size); split; try done; right; right; simpl; ands.
Qed.

(** A request resolves to overflow exactly when its end does not fit in 64
    bits, to nothing exactly when it is empty or begins past the end, and
    otherwise to the overlap with the asset, clipped only at the asset's end. *)
Theorem ResolveReadRange_spec offset size assetSize :
  is_u64 offset -> is_u64 size -> is_u64 assetSize ->
  let r := ResolveReadRange offset size assetSize in
  (rr_outcome r = Overflow <-> 2 ^ 64 <= offset + size) /\
  (rr_outcome r = Empty <-> offset + size < 2 ^ 64 /\ (size = 0 \/ assetSize <= offset)) /\
  (rr_outcome r <> Overflow -> rr_length r = available offset size assetSize) /\
  0 <= rr_length r <= size /\
  (0 < rr_length r -> offset + rr_length r <= assetSize) /\
  (rr_length r < size -> rr_outcome r = Transfer -> offset + rr_length r = assetSize).
Proof.
  intros Ho Hs Ha r. destruct (ResolveReadRange_cases offset size assetSize) as [_ H]; try done.
  fold r in H. unfold available in *. unfold is_u64 in *.
  destruct H as [(? & -> & ->)|[(? & ? & -> & ->)|(? & ? & -> & -> & ?)]];
    split_and!; try done; try lia; split; try done; lia.
Qed.

Lemma OverflowStatus_code offset size : st_code (OverflowStatus offset size) = InvalidArgument.
Proof. done. Qed.

Lemma ShortReadStatus_code offset expected actual id :
  st_code (ShortReadStatus offset expected actual id) = InvalidResponse.
Proof. done. Qed.
