(* ===== verification/AssetReader.v ===== *)
(** * AssetReader: the random-access read contract

    libs/usd-asset-io/include/usdAssetIo/AssetReader.h.  [AssetReader] is the
    abstract class as a type class of operations; [ReaderContract] is what its
    comment promises of [Read], stated against the bytes [A] of the revision
    the reader is bound to.  The cache is proved against [ReaderContract] and
    itself satisfies it; the backends discharge it. *)

From S2P Require Import Prelude Diagnostics Validator RangeMath.

Record AssetMetadata : Type := mkAssetMetadata {
  am_resolvedIdentifier : str;
  am_size : Z;
  am_supportsRandomAccess : bool;
  am_validator : Validator;
  am_stability : IdentityStability;
  am_contentType : str }.

Record ReadResult : Type := mkReadResult {
  rr_bytesRead : Z;
  rr_status : Status }.

#[export] Instance ReadResult_eq_dec : EqDecision ReadResult.
Proof. solve_decision. Defined.

(** The abstract class.  [Read r offset dst size] returns the result, the
    caller's buffer after the call and the reader after the call; [dst] is
    [None] for a null pointer. *)
Class AssetReader (R : Type) : Type := {
  Metadata : R -> AssetMetadata;
  Read : R -> Z -> option bytes -> Z -> ReadResult * option bytes * R }.

(** [OpenResult]: a reader exactly when the status is success. *)
Record OpenResult (R : Type) : Type := mkOpenResult {
  or_reader : option R;
  or_status : Status }.

Arguments mkOpenResult {R} or_reader or_status.
Arguments or_reader {R} _.
Arguments or_status {R} _.

(** ** The contract *)

(** What one call may return for the request [(offset, size)] on the buffer
    [dst], for the asset bytes [A].  On success the number of bytes is exactly
    what the asset has, and those bytes are the asset's; a read that stops
    below the end of the asset is a failure.  The buffer keeps its length: no
    byte is written outside of it. *)
Record read_post (A : bytes) (offset size : Z) (dst : bytes) (r : ReadResult) (dst' : bytes) : Prop := {
  rp_length : length dst' = length dst;
  rp_count : 0 <= rr_bytesRead r <= size;
  rp_overflow : 2 ^ 64 <= offset + size ->
    st_code (rr_status r) = InvalidArgument /\ rr_bytesRead r = 0 /\ dst' = dst;
  rp_ok : IsOk (rr_status r) = true ->
    rr_bytesRead r = available offset size (zlen A) /\
    take (Z.to_nat (rr_bytesRead r)) dst' = slice A offset (rr_bytesRead r) }.

(** [Inv r] is the reader's own invariant, which every call keeps. *)
Class ReaderContract (R : Type) `{AssetReader R} (Inv : R -> Prop) (A : bytes) : Prop := {
  rc_size : forall r, Inv r -> am_size (Metadata r) = zlen A;
  rc_u64 : is_u64 (zlen A);
  rc_metadata : forall r offset dst size, Inv r ->
    Metadata (snd (Read r offset dst size)) = Metadata r;
  rc_read : forall r offset dst size r' res dst',
    Inv r -> is_u64 offset -> is_u64 size -> zlen dst = size ->
    Read r offset (Some dst) size = (res, dst', r') ->
    Inv r' /\ exists d, dst' = Some d /\ read_post A offset size dst res d }.

(** A call the contract makes total: the reader that never fails returns
    success on every request that does not overflow. *)
Definition never_fails {R} `{AssetReader R} (Inv : R -> Prop) : Prop :=
  forall r offset dst size, Inv r -> is_u64 offset -> is_u64 size -> zlen dst = size ->
    offset + size < 2 ^ 64 ->
    IsOk (rr_status (fst (fst (Read r offset (Some dst) size)))) = true.

(** ** Lemmas on the postcondition *)

Lemma IsOk_iff s : IsOk s = true <-> st_code s = Ok.
Proof. apply bool_decide_eq_true. Qed.

(** A failure that leaves the buffer's length alone meets the postcondition,
    provided it is the overflow failure when the request overflows. *)
Lemma read_post_fail A offset size dst r dst' :
  IsOk (rr_status r) = false -> rr_bytesRead r = 0 -> 0 <= size ->
  length dst' = length dst ->
  (2 ^ 64 <= offset + size -> st_code (rr_status r) = InvalidArgument /\ dst' = dst) ->
  read_post A offset size dst r dst'.
Proof.
  intros Hf Hn Hs Hl Ho. split; [done|lia| |].
  - intros H. destruct (Ho H). done.
  - congruence.
Qed.

(** Success with nothing to read. *)
Lemma read_post_empty A offset size dst :
  0 <= size -> offset + size < 2 ^ 64 -> available offset size (zlen A) = 0 ->
  read_post A offset size dst (mkReadResult 0 Status_Ok) dst.
Proof.
  intros Hs Ho Ha. split; simpl; [done|lia|lia|].
  intros _. rewrite slice_zero. split; done.
Qed.
