(* ===== verification/Metrics.v ===== *)
(** * Metrics: counters and latency histograms

    libs/usd-asset-io: include/usdAssetIo/Metrics.h and src/Metrics.cpp.  The
    eighteen counters of a reader are indexed by [Counter], one constructor per
    field of [ReaderMetrics] and [MetricsSnapshot]; every relaxed atomic update
    is one step on its counter.  The clock is read by the callers and the
    elapsed time is an argument of [ScopedLatency_end]. *)

From S2P Require Import Prelude Diagnostics.

(** ** Latency histograms *)

Definition kBucketCount : nat := 41.

(** The loop of [BucketFor]: [bucket] rises to at most [kBucketCount - 1]. *)
Fixpoint bucket_loop (fuel : nat) (bucket : nat) (bound microseconds : Z) : nat :=
  match fuel with
  | O => bucket
  | S f =>
      if (bucket + 1 <? kBucketCount)%nat && (microseconds >=? u64 (bound * 2))
      then bucket_loop f (bucket + 1) (u64 (bound * 2)) microseconds else bucket
  end.

Definition BucketFor (microseconds : Z) : nat :=
  if microseconds =? 0 then 0%nat else bucket_loop kBucketCount 1 1 microseconds.

Definition BucketUpperBound (bucket : nat) : Z :=
  if (bucket =? 0)%nat then 0
  else u64 (Nat.iter (bucket - 1) (fun bound => u64 (bound * 2)) 1 * 2 - 1).

Record LatencyHistogram : Type := mkHistogram {
  h_buckets : list Z;
  h_count : Z;
  h_sum : Z;
  h_max : Z }.

Definition LatencyHistogram_new : LatencyHistogram :=
  mkHistogram (replicate kBucketCount 0) 0 0 0.

Definition AddRelaxed (counter delta : Z) : Z := u64 (counter + delta).

Definition MaxRelaxed (counter value : Z) : Z := if value >? counter then value else counter.

Definition Record_ (microseconds : Z) (h : LatencyHistogram) : LatencyHistogram :=
  mkHistogram (alter (fun b => AddRelaxed b 1) (BucketFor microseconds) (h_buckets h))
    (AddRelaxed (h_count h) 1) (AddRelaxed (h_sum h) microseconds)
    (MaxRelaxed (h_max h) microseconds).

Record Summary : Type := mkSummary {
  su_count : Z;
  su_sum : Z;
  su_max : Z;
  su_p50 : Z;
  su_p90 : Z;
  su_p99 : Z }.

(** One of the three [found]/value pairs of [Snapshot] at one bucket. *)
Definition observe (rank cumulative bound : Z) (q : bool * Z) : bool * Z :=
  if negb (fst q) && (cumulative >=? rank) then (true, bound) else q.

(** The loop of [Snapshot] over the buckets from index [i]. *)
Fixpoint quantile_loop (buckets : list Z) (i : nat) (rank50 rank90 rank99 cumulative : Z)
    (q50 q90 q99 : bool * Z) : Z * Z * Z :=
  match buckets with
  | [] => (snd q50, snd q90, snd q99)
  | b :: rest =>
      let cumulative := u64 (cumulative + b) in
      let bound := BucketUpperBound i in
      quantile_loop rest (S i) rank50 rank90 rank99 cumulative
        (observe rank50 cumulative bound q50) (observe rank90 cumulative bound q90)
        (observe rank99 cumulative bound q99)
  end.

Definition Histogram_Snapshot (h : LatencyHistogram) : Summary :=
  if h_count h =? 0 then mkSummary (h_count h) (h_sum h) (h_max h) 0 0 0
  else
    let rank q := u64 (u64 (h_count h * q) + 99) / 100 in
    let '(p50, p90, p99) :=
      quantile_loop (h_buckets h) 0 (rank 50) (rank 90) (rank 99) 0
        (false, 0) (false, 0) (false, 0) in
    mkSummary (h_count h) (h_sum h) (h_max h)
      (Z.min p50 (h_max h)) (Z.min p90 (h_max h)) (Z.min p99 (h_max h)).

Definition Histogram_Fold (other h : LatencyHistogram) : LatencyHistogram :=
  mkHistogram (zip_with AddRelaxed (h_buckets h) (h_buckets other))
    (AddRelaxed (h_count h) (h_count other)) (AddRelaxed (h_sum h) (h_sum other))
    (MaxRelaxed (h_max h) (h_max other)).

(** Every atomic of the histogram is stored to, the buckets in order. *)
Definition Histogram_Reset (h : LatencyHistogram) : LatencyHistogram :=
  mkHistogram (map (fun _ => 0) (h_buckets h)) 0 0 0.

(** [~ScopedLatency] with the two clock readings. *)
Definition ScopedLatency_end (start end_ : Z) (h : LatencyHistogram) : LatencyHistogram :=
  let elapsed := if end_ >? start then end_ - start else 0 in
  Record_ (elapsed / 1000) h.

(** ** The counters *)

Inductive Counter : Type :=
| assetSize | bytesRequested | bytesTransferred | bytesFromCache | requestCount
| metadataRequestCount | retryCount | redirectCount
| blockHits | blockMisses | partialHits | requestsSavedByCoalescing
| requestsSavedBySingleFlight | bytesOverFetched | evictions | peakResidentBytes
| persistedHits | persistedWrites.

#[export] Instance Counter_eq_dec : EqDecision Counter.
Proof. solve_decision. Defined.

Record ReaderMetrics : Type := mkReaderMetrics {
  rm_identifier : str;
  rm_value : Counter -> Z;
  rm_detached : bool;
  rm_openLatency : LatencyHistogram;
  rm_requestLatency : LatencyHistogram;
  rm_readLatency : LatencyHistogram }.

Definition ReaderMetrics_new (identifier : str) : ReaderMetrics :=
  mkReaderMetrics (ElideSecrets identifier) (fun _ => 0) false LatencyHistogram_new
    LatencyHistogram_new LatencyHistogram_new.

Definition set_counter (c : Counter) (f : Z -> Z) (m : ReaderMetrics) : ReaderMetrics :=
  mkReaderMetrics (rm_identifier m)
    (fun c' => if decide (c' = c) then f (rm_value m c') else rm_value m c')
    (rm_detached m) (rm_openLatency m) (rm_requestLatency m) (rm_readLatency m).

(** The [Add...] members: one relaxed addition to one counter. *)
Definition bump (c : Counter) (n : Z) (m : ReaderMetrics) : ReaderMetrics :=
  set_counter c (fun v => AddRelaxed v n) m.

Definition SetAssetSize (n : Z) : ReaderMetrics -> ReaderMetrics := set_counter assetSize (fun _ => n).
Definition AddBytesRequested : Z -> ReaderMetrics -> ReaderMetrics := bump bytesRequested.
Definition AddBytesTransferred : Z -> ReaderMetrics -> ReaderMetrics := bump bytesTransferred.
Definition AddBytesFromCache : Z -> ReaderMetrics -> ReaderMetrics := bump bytesFromCache.
Definition AddRequest : Z -> ReaderMetrics -> ReaderMetrics := bump requestCount.

(** A metadata request counts in the request total too. *)
Definition AddMetadataRequest (n : Z) (m : ReaderMetrics) : ReaderMetrics :=
  bump requestCount n (bump metadataRequestCount n m).

Definition AddRetry : Z -> ReaderMetrics -> ReaderMetrics := bump retryCount.
Definition AddRedirect : Z -> ReaderMetrics -> ReaderMetrics := bump redirectCount.
Definition AddBlockHit : Z -> ReaderMetrics -> ReaderMetrics := bump blockHits.
Definition AddBlockMiss : Z -> ReaderMetrics -> ReaderMetrics := bump blockMisses.
Definition AddPartialHit : Z -> ReaderMetrics -> ReaderMetrics := bump partialHits.
Definition AddRequestsSavedByCoalescing : Z -> ReaderMetrics -> ReaderMetrics :=
  bump requestsSavedByCoalescing.
Definition AddRequestsSavedBySingleFlight : Z -> ReaderMetrics -> ReaderMetrics :=
  bump requestsSavedBySingleFlight.
Definition AddBytesOverFetched : Z -> ReaderMetrics -> ReaderMetrics := bump bytesOverFetched.
Definition AddEviction : Z -> ReaderMetrics -> ReaderMetrics := bump evictions.
Definition AddPersistedHit : Z -> ReaderMetrics -> ReaderMetrics := bump persistedHits.
Definition AddPersistedWrite : Z -> ReaderMetrics -> ReaderMetrics := bump persistedWrites.

Definition ObserveResidentBytes (n : Z) : ReaderMetrics -> ReaderMetrics :=
  set_counter peakResidentBytes (fun v => MaxRelaxed v n).

Definition DetachFromRegistry (m : ReaderMetrics) : ReaderMetrics :=
  mkReaderMetrics (rm_identifier m) (rm_value m) true (rm_openLatency m) (rm_requestLatency m)
    (rm_readLatency m).

Definition AbsorbTransport (inner m : ReaderMetrics) : ReaderMetrics :=
  let take c := bump c (rm_value inner c) in
  let m := set_counter assetSize (fun v => MaxRelaxed v (rm_value inner assetSize)) m in
  let m := take redirectCount (take retryCount (take metadataRequestCount
             (take requestCount (take bytesTransferred m)))) in
  mkReaderMetrics (rm_identifier m) (rm_value m) (rm_detached m)
    (Histogram_Fold (rm_openLatency inner) (rm_openLatency m))
    (Histogram_Fold (rm_requestLatency inner) (rm_requestLatency m)) (rm_readLatency m).

(** Recording into one of the three histograms of a reader. *)
Definition on_readLatency (f : LatencyHistogram -> LatencyHistogram) (m : ReaderMetrics) : ReaderMetrics :=
  mkReaderMetrics (rm_identifier m) (rm_value m) (rm_detached m) (rm_openLatency m)
    (rm_requestLatency m) (f (rm_readLatency m)).

Definition on_requestLatency (f : LatencyHistogram -> LatencyHistogram) (m : ReaderMetrics) : ReaderMetrics :=
  mkReaderMetrics (rm_identifier m) (rm_value m) (rm_detached m) (rm_openLatency m)
    (f (rm_requestLatency m)) (rm_readLatency m).

Definition on_openLatency (f : LatencyHistogram -> LatencyHistogram) (m : ReaderMetrics) : ReaderMetrics :=
  mkReaderMetrics (rm_identifier m) (rm_value m) (rm_detached m) (f (rm_openLatency m))
    (rm_requestLatency m) (rm_readLatency m).

(** ** Snapshots and the process aggregate *)

Record MetricsSnapshot : Type := mkSnapshot {
  ms_identifier : str;
  ms_value : Counter -> Z;
  ms_openLatency : Summary;
  ms_requestLatency : Summary;
  ms_readLatency : Summary }.

Definition Summary_empty : Summary := mkSummary 0 0 0 0 0 0.

Definition MetricsSnapshot_new : MetricsSnapshot :=
  mkSnapshot [] (fun _ => 0) Summary_empty Summary_empty Summary_empty.

Definition Metrics_Snapshot (m : ReaderMetrics) : MetricsSnapshot :=
  mkSnapshot (rm_identifier m) (rm_value m) (Histogram_Snapshot (rm_openLatency m))
    (Histogram_Snapshot (rm_requestLatency m)) (Histogram_Snapshot (rm_readLatency m)).

Definition Snapshot_AbsorbTransport (inner s : MetricsSnapshot) : MetricsSnapshot :=
  mkSnapshot (ms_identifier s)
    (fun c => match c with
              | assetSize => Z.max (ms_value s c) (ms_value inner c)
              | bytesTransferred | requestCount | metadataRequestCount | retryCount
              | redirectCount => u64 (ms_value s c + ms_value inner c)
              | _ => ms_value s c
              end)
    (ms_openLatency inner) (ms_requestLatency inner) (ms_readLatency s).

Definition mergeLatency (into from : Summary) : Summary :=
  mkSummary (u64 (su_count into + su_count from)) (u64 (su_sum into + su_sum from))
    (Z.max (su_max into) (su_max from)) 0 0 0.

Definition Snapshot_Add (other s : MetricsSnapshot) : MetricsSnapshot :=
  mkSnapshot (ms_identifier s)
    (fun c => match c with
              | peakResidentBytes => Z.max (ms_value s c) (ms_value other c)
              | _ => u64 (ms_value s c + ms_value other c)
              end)
    (mergeLatency (ms_openLatency s) (ms_openLatency other))
    (mergeLatency (ms_requestLatency s) (ms_requestLatency other))
    (mergeLatency (ms_readLatency s) (ms_readLatency other)).

Definition kMaxTrackedIdentifiers : nat := 4096.

Record MetricsRegistry : Type := mkRegistry {
  mr_aggregate : MetricsSnapshot;
  mr_openLatency : LatencyHistogram;
  mr_requestLatency : LatencyHistogram;
  mr_readLatency : LatencyHistogram;
  mr_perAsset : gmap str MetricsSnapshot }.

Definition MetricsRegistry_new : MetricsRegistry :=
  mkRegistry MetricsSnapshot_new LatencyHistogram_new LatencyHistogram_new LatencyHistogram_new ∅.

Definition set_assetSize (n : Z) (s : MetricsSnapshot) : MetricsSnapshot :=
  mkSnapshot (ms_identifier s) (fun c => if decide (c = assetSize) then n else ms_value s c)
    (ms_openLatency s) (ms_requestLatency s) (ms_readLatency s).

Definition Registry_Fold (reader : ReaderMetrics) (r : MetricsRegistry) : MetricsRegistry :=
  let snapshot := Metrics_Snapshot reader in
  let perAsset :=
    match mr_perAsset r !! ms_identifier snapshot with
    | Some existing =>
        let knownSize := ms_value existing assetSize in
        <[ms_identifier snapshot :=
            set_assetSize (Z.max knownSize (ms_value snapshot assetSize))
              (Snapshot_Add snapshot existing)]> (mr_perAsset r)
    | None =>
        if (size (mr_perAsset r) <? kMaxTrackedIdentifiers)%nat
        then <[ms_identifier snapshot := snapshot]> (mr_perAsset r) else mr_perAsset r
    end in
  mkRegistry (Snapshot_Add snapshot (mr_aggregate r))
    (Histogram_Fold (rm_openLatency reader) (mr_openLatency r))
    (Histogram_Fold (rm_requestLatency reader) (mr_requestLatency r))
    (Histogram_Fold (rm_readLatency reader) (mr_readLatency r)) perAsset.

(** [~ReaderMetrics]. *)
Definition ReaderMetrics_end (m : ReaderMetrics) (r : MetricsRegistry) : MetricsRegistry :=
  if rm_detached m then r else Registry_Fold m r.

Definition Aggregate (r : MetricsRegistry) : MetricsSnapshot :=
  mkSnapshot [] (ms_value (mr_aggregate r)) (Histogram_Snapshot (mr_openLatency r))
    (Histogram_Snapshot (mr_requestLatency r)) (Histogram_Snapshot (mr_readLatency r)).

Definition ResetForTesting (r : MetricsRegistry) : MetricsRegistry :=
  mkRegistry MetricsSnapshot_new (Histogram_Reset (mr_openLatency r))
    (Histogram_Reset (mr_requestLatency r)) (Histogram_Reset (mr_readLatency r)) ∅.

(** The order of [TopAssetsByBytesTransferred]'s [std::sort]: most bytes first,
    then by identifier. *)
Definition asset_before (lhs rhs : MetricsSnapshot) : bool :=
  if negb (ms_value lhs bytesTransferred =? ms_value rhs bytesTransferred)
  then ms_value lhs bytesTransferred >? ms_value rhs bytesTransferred
  else str_ltb (ms_identifier lhs) (ms_identifier rhs).

Fixpoint sorted_insert (x : MetricsSnapshot) (l : list MetricsSnapshot) : list MetricsSnapshot :=
  match l with
  | [] => [x]
  | y :: l' => if asset_before y x then y :: sorted_insert x l' else x :: l
  end.

Definition TopAssetsByBytesTransferred (n : nat) (r : MetricsRegistry) : list MetricsSnapshot :=
  take n (foldr sorted_insert [] (map snd (map_to_list (mr_perAsset r)))).

(** ** Buckets *)

(** The bucket of a sample is its bit length, saturated. *)
Definition bit_length (z : Z) : Z := if z =? 0 then 0 else Z.log2 z + 1.

Lemma bucket_loop_spec fuel b us :
  (1 <= b)%nat -> (b < 41)%nat -> (40 - b <= fuel)%nat -> 2 ^ (Z.of_nat b - 1) <= us < 2 ^ 64 ->
  Z.of_nat (bucket_loop fuel b (2 ^ (Z.of_nat b - 1)) us) = Z.min 40 (Z.log2 us + 1).
Proof.
  revert b. induction fuel as [|f IH]; intros b Hb1 Hb2 Hf Hu; cbn [bucket_loop].
  { assert (b = 40%nat) as -> by lia. assert (39 <= Z.log2 us) by (apply Z.log2_le_pow2; lia). lia. }
  assert (Z.of_nat b - 1 <= Z.log2 us) as Hlog.
  { apply Z.log2_le_pow2; [|lia]. pose proof (Z.pow_pos_nonneg 2 (Z.of_nat b - 1)). lia. }
  assert (2 ^ (Z.of_nat b - 1) * 2 = 2 ^ Z.of_nat b) as E.
  { replace (Z.of_nat b) with (Z.of_nat b - 1 + 1) at 2 by lia. rewrite Z.pow_add_r by lia. lia. }
  assert (0 < 2 ^ Z.of_nat b <= 2 ^ 40) by (split; [apply Z.pow_pos_nonneg; lia|apply Z.pow_le_mono_r; lia]).
  rewrite E, u64_small by (unfold is_u64; lia).
  destruct (Nat.ltb_spec (b + 1) 41) as [H1|H1]; cbn [andb].
  2:{ unfold kBucketCount. destruct (Nat.ltb_spec (b + 1) 41); [lia|]. simpl. lia. }
  unfold kBucketCount. destruct (Nat.ltb_spec (b + 1) 41); [|lia]. cbn [andb].
  destruct (Z.geb_spec us (2 ^ Z.of_nat b)) as [H2|H2].
  - specialize (IH (b + 1)%nat). replace (Z.of_nat (b + 1) - 1) with (Z.of_nat b) in IH by lia.
    apply IH; lia.
  - assert (Z.log2 us < Z.of_nat b) by (apply Z.log2_lt_pow2; [pose proof (Z.pow_pos_nonneg 2 (Z.of_nat b - 1)); lia|lia]).
    lia.
Qed.

Lemma BucketFor_spec us :
  is_u64 us -> Z.of_nat (BucketFor us) = Z.min 40 (bit_length us).
Proof.
  unfold is_u64, BucketFor, bit_length. intros Hu. destruct (Z.eqb_spec us 0); [done|].
  pose proof (bucket_loop_spec 41 1 us) as H. simpl in H. rewrite <-H; [done|lia..].
Qed.

Lemma BucketFor_lt us : is_u64 us -> (BucketFor us < kBucketCount)%nat.
Proof. intros Hu. pose proof (BucketFor_spec us Hu). unfold kBucketCount. lia. Qed.

Lemma iter_double n : (n <= 62)%nat -> Nat.iter n (fun bound => u64 (bound * 2)) 1 = 2 ^ Z.of_nat n.
Proof.
  induction n as [|n IH]; intros Hn; [done|]. rewrite Nat.iter_succ, IH by lia.
  rewrite Nat2Z.inj_succ, Z.pow_succ_r by lia. rewrite u64_small; [lia|]. unfold is_u64.
  assert (0 < 2 ^ Z.of_nat n <= 2 ^ 62) by (split; [apply Z.pow_pos_nonneg; lia|apply Z.pow_le_mono_r; lia]).
  lia.
Qed.

Lemma BucketUpperBound_spec b : (b <= 62)%nat -> BucketUpperBound b = 2 ^ Z.of_nat b - 1.
Proof.
  intros Hb. unfold BucketUpperBound. destruct b as [|b]; [done|]. simpl (Nat.eqb _ _). cbn iota.
  replace (S b - 1)%nat with b by lia. rewrite iter_double by lia.
  assert (0 < 2 ^ Z.of_nat b <= 2 ^ 62) by (split; [apply Z.pow_pos_nonneg; lia|apply Z.pow_le_mono_r; lia]).
  rewrite Nat2Z.inj_succ, Z.pow_succ_r by lia. rewrite u64_small; [lia|]. unfold is_u64. lia.
Qed.

(** Below the saturated bucket, being in bucket [j] or lower is being at most
    its upper bound. *)
Lemma BucketFor_le us j :
  0 <= us < 2 ^ 40 -> (BucketFor us <= j)%nat <-> us <= 2 ^ Z.of_nat j - 1.
Proof.
  intros Hu. pose proof (BucketFor_spec us) as H. unfold is_u64, bit_length in H.
  specialize (H ltac:(lia)). destruct (Z.eqb_spec us 0) as [->|Hne].
  { split; [|lia]. intros _. assert (0 < 2 ^ Z.of_nat j) by (apply Z.pow_pos_nonneg; lia). lia. }
  assert (Z.log2 us < 40) by (apply Z.log2_lt_pow2; lia). rewrite Z.min_r in H by lia.
  split; intros Hj.
  - assert (us < 2 ^ Z.of_nat j) by (apply Z.log2_lt_pow2; lia). lia.
  - assert (Z.log2 us < Z.of_nat j) by (apply Z.log2_lt_pow2; lia). lia.
Qed.

(** ** Histograms of a list of samples *)

Definition cnt {A} (P : A -> bool) (l : list A) : Z := zsum (fun x => Z.b2z (P x)) l.

Lemma cnt_nonneg {A} (P : A -> bool) l : 0 <= cnt P l.
Proof. apply zsum_nonneg. intros x _. destruct (P x); simpl; lia. Qed.

Lemma cnt_le {A} (P Q : A -> bool) l :
  (forall x, x ∈ l -> P x = true -> Q x = true) -> cnt P l <= cnt Q l.
Proof.
  unfold cnt, zsum. induction l as [|x l IH]; intros H; simpl; [lia|].
  assert (Z.b2z (P x) <= Z.b2z (Q x)).
  { specialize (H x ltac:(set_solver)). destruct (P x), (Q x); simpl; lia. }
  specialize (IH ltac:(set_solver)). lia.
Qed.

Lemma cnt_all {A} (P : A -> bool) l : (forall x, x ∈ l -> P x = true) -> cnt P l = zlen l.
Proof.
  unfold cnt, zsum, zlen. induction l as [|x l IH]; intros H; simpl; [lia|].
  rewrite (H x) by set_solver. rewrite IH by set_solver. simpl. lia.
Qed.

Lemma cnt_le_len {A} (P : A -> bool) (l : list A) : cnt P l <= zlen l.
Proof. rewrite <-(cnt_all (fun _ => true) l) by done. by apply cnt_le. Qed.

Lemma cnt_app {A} (P : A -> bool) l1 l2 : cnt P (l1 ++ l2) = cnt P l1 + cnt P l2.
Proof. apply zsum_app. Qed.

Definition max_of (l : list Z) : Z := foldr Z.max 0 l.

(** [h] holds exactly the samples [l]. *)
Record holds (h : LatencyHistogram) (l : list Z) : Prop := {
  ho_len : length (h_buckets h) = kBucketCount;
  ho_buckets : forall i, (i < kBucketCount)%nat ->
    h_buckets h !! i = Some (cnt (fun s => BucketFor s =? i)%nat l);
  ho_count : h_count h = zlen l;
  ho_sum : h_sum h = u64 (zsum id l);
  ho_max : h_max h = max_of l }.

Definition samples_ok (l : list Z) : Prop := Forall is_u64 l /\ zlen l < 2 ^ 57.

Lemma holds_new : holds LatencyHistogram_new [].
Proof.
  split; try done. intros i Hi. unfold LatencyHistogram_new. cbn [h_buckets].
  by rewrite lookup_replicate_2.
Qed.

Lemma max_of_snoc l x : Forall is_u64 l -> is_u64 x -> max_of (l ++ [x]) = Z.max (max_of l) x.
Proof. unfold max_of, is_u64. induction 1 as [|y l Hy Hl IH]; intros Hx; simpl; [lia|]. rewrite IH by done. lia. Qed.

Lemma max_of_app l1 l2 : max_of (l1 ++ l2) = Z.max (max_of l1) (max_of l2).
Proof.
  unfold max_of. induction l1 as [|x l1 IH]; simpl; [|rewrite IH; lia].
  assert (forall l, 0 <= foldr Z.max 0 l) as H by (induction l; simpl; lia). specialize (H l2). lia.
Qed.

Lemma MaxRelaxed_max a b : MaxRelaxed a b = Z.max a b.
Proof. unfold MaxRelaxed. destruct (Z.gtb_spec b a); lia. Qed.

Lemma cnt_u64 {A} (P : A -> bool) (l : list A) k :
  zlen l < 2 ^ 57 -> 0 <= k <= 2 ^ 57 -> u64 (cnt P l + k) = cnt P l + k.
Proof.
  intros. apply u64_small. pose proof (cnt_nonneg P l). pose proof (cnt_le_len P l).
  unfold is_u64. lia.
Qed.

Lemma holds_record h l s :
  holds h l -> samples_ok l -> is_u64 s -> holds (Record_ s h) (l ++ [s]).
Proof.
  intros [H1 H2 H3 H4 H5] [Hl Hn] Hs. unfold Record_, AddRelaxed. split; simpl.
  - by rewrite length_alter.
  - intros i Hi. rewrite cnt_app. destruct (decide (i = BucketFor s)) as [->|Hne].
    + rewrite list_lookup_alter_eq, H2 by done. simpl. rewrite Nat.eqb_refl, cnt_u64 by lia. simpl. by rewrite Z.add_0_r.
    + rewrite list_lookup_alter_ne, H2 by done. unfold cnt at 3. simpl.
      rewrite (proj2 (Nat.eqb_neq _ _)) by done. simpl. f_equal. lia.
  - rewrite H3, zlen_app. apply u64_small. unfold is_u64, zlen in *. simpl. lia.
  - rewrite H4, zsum_app. unfold u64. rewrite Zplus_mod_idemp_l. simpl. unfold id. f_equal. lia.
  - by rewrite MaxRelaxed_max, H5, max_of_snoc.
Qed.

(** Folding is concatenation of the samples. *)
Lemma holds_fold h1 l1 h2 l2 :
  holds h1 l1 -> holds h2 l2 -> samples_ok l1 -> samples_ok l2 ->
  holds (Histogram_Fold h2 h1) (l1 ++ l2).
Proof.
  intros [A1 A2 A3 A4 A5] [B1 B2 B3 B4 B5] [Hl1 Hn1] [Hl2 Hn2]. unfold Histogram_Fold, AddRelaxed.
  split; simpl.
  - rewrite length_zip_with, A1, B1. done.
  - intros i Hi. rewrite lookup_zip_with, A2, B2 by done. simpl. rewrite cnt_app.
    pose proof (cnt_nonneg (fun s => BucketFor s =? i)%nat l2).
    pose proof (cnt_le_len (fun s => BucketFor s =? i)%nat l2).
    by rewrite cnt_u64 by lia.
  - rewrite A3, B3, zlen_app. apply u64_small. unfold is_u64, zlen in *. lia.
  - rewrite A4, B4, zsum_app. unfold u64. by rewrite <-Zplus_mod.
  - by rewrite MaxRelaxed_max, A5, B5, max_of_app.
Qed.

(** ** Quantiles *)

(** The loop for one of the three quantiles alone. *)
Fixpoint one_quantile (buckets : list Z) (i : nat) (rank cumulative : Z) (q : bool * Z) : Z :=
  match buckets with
  | [] => snd q
  | b :: rest =>
      let cumulative := u64 (cumulative + b) in
      one_quantile rest (S i) rank cumulative (observe rank cumulative (BucketUpperBound i) q)
  end.

Lemma quantile_loop_split buckets i r50 r90 r99 c q50 q90 q99 :
  quantile_loop buckets i r50 r90 r99 c q50 q90 q99
  = (one_quantile buckets i r50 c q50, one_quantile buckets i r90 c q90, one_quantile buckets i r99 c q99).
Proof.
  revert i c q50 q90 q99. induction buckets as [|b rest IH]; intros; [done|]. apply IH.
Qed.

Lemma one_quantile_found buckets i rank c v : one_quantile buckets i rank c (true, v) = v.
Proof. revert i c. induction buckets as [|b rest IH]; intros; [done|]. apply IH. Qed.

(** The samples in the buckets below [i]. *)
Definition below (l : list Z) (i : nat) : Z := cnt (fun s => BucketFor s <? i)%nat l.

Lemma below_0 l : below l 0 = 0.
Proof.
  unfold below, cnt, zsum. induction l as [|s l IH]; cbn [foldr]; [done|]. rewrite IH.
  destruct (Nat.ltb_spec (BucketFor s) 0); simpl; lia.
Qed.

Lemma below_S l i : below l (S i) = below l i + cnt (fun s => BucketFor s =? i)%nat l.
Proof.
  unfold below, cnt, zsum. induction l as [|s l IH]; simpl; [done|]. rewrite IH.
  destruct (Nat.ltb_spec (BucketFor s) (S i)), (Nat.ltb_spec (BucketFor s) i),
    (Nat.eqb_spec (BucketFor s) i); simpl; lia.
Qed.

(** The loop stops at the first bucket whose cumulative count reaches the
    rank. *)
Lemma one_quantile_spec h l rank n i :
  holds h l -> samples_ok l -> (i + n = kBucketCount)%nat -> below l i < rank ->
  rank <= below l kBucketCount ->
  exists j, (i <= j < kBucketCount)%nat /\ below l j < rank <= below l (S j) /\
    one_quantile (drop i (h_buckets h)) i rank (below l i) (false, 0) = BucketUpperBound j.
Proof.
  intros Hh [Hl Hz]. revert i. induction n as [|n IH]; intros i Hi Hlo Hhi.
  { assert (i = kBucketCount) as -> by lia. lia. }
  pose proof (ho_buckets _ _ Hh i ltac:(lia)) as Hb. rewrite (drop_S _ _ _ Hb). cbn [one_quantile].
  assert (u64 (below l i + cnt (fun s => BucketFor s =? i)%nat l) = below l (S i)) as ->.
  { rewrite <-below_S. unfold below. rewrite <-(Z.add_0_r (cnt _ _)) at 1. rewrite cnt_u64 by lia. lia. }
  unfold observe. cbn [fst negb andb]. destruct (Z.geb_spec (below l (S i)) rank) as [Hge|Hlt].
  - rewrite one_quantile_found. exists i. ands.
  - destruct (IH (S i)) as (j & Hj & Hr & E); [lia..|]. exists j. ands.
Qed.

Lemma max_of_ge l s : s ∈ l -> s <= max_of l.
Proof. unfold max_of. induction 1; simpl; lia. Qed.

Lemma rank_spec n q :
  0 < n < 2 ^ 57 -> 1 <= q <= 99 -> 0 < u64 (u64 (n * q) + 99) / 100 <= n.
Proof.
  intros Hn Hq. rewrite (u64_small (n * q)) by (unfold is_u64; nia).
  rewrite u64_small by (unfold is_u64; nia). split.
  - apply Z.div_str_pos. nia.
  - apply Z.lt_succ_r, Z.div_lt_upper_bound; nia.
Qed.

(** One quantile of a histogram whose samples are below the saturated bucket. *)
Lemma quantile_bound h l q :
  holds h l -> samples_ok l -> l <> [] -> Forall (fun s => s < 2 ^ 40) l -> 1 <= q <= 99 ->
  let rank := u64 (u64 (h_count h * q) + 99) / 100 in
  let p := Z.min (one_quantile (h_buckets h) 0 rank 0 (false, 0)) (h_max h) in
  rank <= cnt (fun s => s <=? p) l /\ (p = 0 \/ cnt (fun s => 2 * s <=? p) l < rank).
Proof.
  intros Hh Hl Hne Hmax Hq rank p. pose proof Hl as [Hu Hz]. rewrite Forall_forall in Hmax, Hu.
  assert (0 < zlen l) by (destruct l; [done|]; unfold zlen; simpl; lia).
  assert (0 < rank <= zlen l) as Hrank.
  { unfold rank. rewrite (ho_count _ _ Hh). apply rank_spec; lia. }
  destruct (one_quantile_spec h l rank kBucketCount 0) as (j & Hj & Hr & E); [done..| | |].
  { rewrite below_0. lia. }
  { unfold below. rewrite cnt_all; [lia|]. intros s Hs. apply Nat.ltb_lt, BucketFor_lt. auto. }
  rewrite drop_0, below_0 in E. unfold p. rewrite E, BucketUpperBound_spec by (unfold kBucketCount in Hj; lia).
  split.
  - transitivity (below l (S j)); [lia|]. apply cnt_le. intros s Hs Hb. apply Nat.ltb_lt in Hb.
    specialize (Hu s Hs). specialize (Hmax s Hs). unfold is_u64 in Hu.
    assert (s <= 2 ^ Z.of_nat j - 1) by (apply BucketFor_le; lia).
    pose proof (max_of_ge l s Hs). rewrite (ho_max _ _ Hh). apply Z.leb_le. lia.
  - destruct (decide (j = 0%nat)) as [->|Hj0]; [left|right].
    { simpl. rewrite (ho_max _ _ Hh).
      destruct l as [|s l']; [done|]. pose proof (max_of_ge (s :: l') s ltac:(set_solver)).
      specialize (Hu s ltac:(set_solver)). unfold is_u64 in Hu. lia. }
    eapply Z.le_lt_trans; [|apply Hr]. apply cnt_le. intros s Hs Hb. apply Z.leb_le in Hb.
    apply Nat.ltb_lt. specialize (Hu s Hs). specialize (Hmax s Hs). unfold is_u64 in Hu.
    enough (BucketFor s <= j - 1)%nat by lia. apply BucketFor_le; [lia|].
    assert (2 ^ Z.of_nat j = 2 * 2 ^ Z.of_nat (j - 1)) as E2.
    { replace (Z.of_nat j) with (Z.succ (Z.of_nat (j - 1))) by lia. by rewrite Z.pow_succ_r by lia. }
    lia.
Qed.

(** The quantile at [q] percent: at least the rank's share of the samples is no
    larger (it does not under-report), and fewer than that share is no larger
    than half of it (it over-reports by less than a factor of two). *)
Definition good_quantile (l : list Z) (q p : Z) : Prop :=
  let rank := (zlen l * q + 99) / 100 in
  rank <= cnt (fun s => s <=? p) l /\ (p = 0 \/ cnt (fun s => 2 * s <=? p) l < rank) /\ p <= max_of l.

Definition record_all (l : list Z) : LatencyHistogram := fold_left (fun h s => Record_ s h) l LatencyHistogram_new.

Lemma holds_record_all l : samples_ok l -> holds (record_all l) l.
Proof.
  intros [Hu Hz]. unfold record_all. induction l as [|s l IH] using rev_ind; [apply holds_new|].
  rewrite fold_left_app. apply Forall_app in Hu as [Hu Hs]. rewrite zlen_app in Hz.
  pose proof (zlen_nonneg l). unfold zlen in Hz at 2. simpl in Hz.
  assert (samples_ok l) by (split; [done|lia]).
  apply holds_record; [|done|by inversion Hs]. apply IH; [done|lia].
Qed.

(** The quantiles of recorded latencies: for samples below the top bucket the
    snapshot's count and maximum are exact, and each quantile it reports is at
    least the sample of that rank, below twice it and never above the maximum. *)
Theorem Snapshot_quantiles l :
  samples_ok l -> l <> [] -> Forall (fun s => s < 2 ^ 40) l ->
  let s := Histogram_Snapshot (record_all l) in
  su_count s = zlen l /\ su_max s = max_of l /\
  good_quantile l 50 (su_p50 s) /\ good_quantile l 90 (su_p90 s) /\ good_quantile l 99 (su_p99 s).
Proof.
  intros Hl Hne Hm. pose proof (holds_record_all l Hl) as Hh.
  assert (0 < zlen l) by (destruct l; [done|]; unfold zlen; simpl; lia).
  unfold Histogram_Snapshot. rewrite quantile_loop_split.
  destruct (Z.eqb_spec (h_count (record_all l)) 0) as [E|_]; [rewrite (ho_count _ _ Hh) in E; lia|].
  cbn [su_count su_max su_p50 su_p90 su_p99].
  split; [apply Hh|]. split; [apply Hh|].
  assert (forall q, 1 <= q <= 99 ->
    good_quantile l q (Z.min (one_quantile (h_buckets (record_all l)) 0
      (u64 (u64 (h_count (record_all l) * q) + 99) / 100) 0 (false, 0)) (h_max (record_all l)))) as Hgood.
  { intros q Hq. destruct (quantile_bound (record_all l) l q) as [H1 H2]; [done..|].
    destruct Hl as [_ Hz]. unfold good_quantile. rewrite (ho_count _ _ Hh) in H1, H2 |- *.
    rewrite (u64_small (zlen l * q)), u64_small in * by (unfold is_u64; nia).
    split_and!; [done..|]. rewrite (ho_max _ _ Hh). lia. }
  split_and!; apply Hgood; lia.
Qed.

(** Folding a reader's histogram into another is recording its samples
    there. *)
Theorem Histogram_Fold_samples l1 l2 :
  samples_ok l1 -> samples_ok l2 -> zlen l1 + zlen l2 < 2 ^ 57 ->
  Histogram_Fold (record_all l2) (record_all l1) = record_all (l1 ++ l2).
Proof.
  intros H1 H2 Hz. assert (samples_ok (l1 ++ l2)) as H3.
  { destruct H1, H2. split; [by apply Forall_app|]. by rewrite zlen_app. }
  pose proof (holds_fold _ _ _ _ (holds_record_all _ H1) (holds_record_all _ H2) H1 H2) as [A1 A2 A3 A4 A5].
  pose proof (holds_record_all _ H3) as [B1 B2 B3 B4 B5].
  assert (h_buckets (Histogram_Fold (record_all l2) (record_all l1)) = h_buckets (record_all (l1 ++ l2))) as E.
  { apply list_eq. intros i. destruct (decide (i < kBucketCount)%nat) as [Hi|Hi].
    - by rewrite A2, B2.
    - rewrite !lookup_ge_None_2; [done|..]; lia. }
  destruct (Histogram_Fold _ _), (record_all (l1 ++ l2)). simpl in *. congruence.
Qed.
