(* ===== verification/MetricsDump.v ===== *)
(** * MetricsDump: derived ratios and the text dump

    libs/usd-asset-io: the last parts of src/Metrics.cpp.  A [double] is the
    standard library's executable model of the IEEE binary64 format, and
    [show_double] is what an output stream in its default format prints of one
    (six significant digits, trailing zeros dropped). *)

From Stdlib Require Import SpecFloat.
From S2P Require Import Prelude Diagnostics Metrics.

(** ** Doubles *)

(** [static_cast<double>] of an unsigned integer: nearest, ties to even. *)
Definition double_of (n : Z) : spec_float := binary_normalize 53 1024 n 0 false.

Definition Ratio (numerator denominator : Z) : spec_float :=
  if denominator =? 0 then S754_zero false
  else SFdiv 53 1024 (double_of numerator) (double_of denominator).

(** The nearest integer to [n / d], ties to even. *)
Definition nearest (n d : Z) : Z :=
  let q := n / d in
  let twice := 2 * (n mod d) in
  if (twice >? d) || ((twice =? d) && Z.odd q) then q + 1 else q.

(** The decimal exponent of [n / d], for [n >= d] and for [n < d]. *)
Fixpoint exponent_up (fuel : nat) (n d : Z) : Z :=
  match fuel with
  | O => 0
  | S f => if d * 10 <=? n then 1 + exponent_up f n (d * 10) else 0
  end.

Fixpoint exponent_down (fuel : nat) (n d : Z) : Z :=
  match fuel with
  | O => 0
  | S f => if n <? d then exponent_down f (n * 10) d - 1 else 0
  end.

Definition scaled (n d k : Z) : Z :=
  if 0 <=? k then nearest (n * 10 ^ k) d else nearest n (d * 10 ^ (- k)).

(** [digits] of them, zeros in front. *)
Definition padded (digits : nat) (z : Z) : str :=
  let text := to_string z in replicate (digits - length text) "0"%char ++ text.

Fixpoint strip_zeros (reversed : str) : str :=
  match reversed with
  | c :: rest => if Ascii.eqb c "0"%char then strip_zeros rest else reversed
  | [] => []
  end.

Definition fraction (digits : nat) (z : Z) : str :=
  match reverse (strip_zeros (reverse (padded digits z))) with
  | [] => []
  | text => lit "." ++ text
  end.

(** The text of [n / d], both positive: the digits of [%g] at precision six. *)
Definition show_quotient (n d : Z) : str :=
  let fuel := 400%nat in
  let x := if d <=? n then exponent_up fuel n d else exponent_down fuel n d in
  let m := scaled n d (5 - x) in
  let '(m, x) := if m =? 10 ^ 6 then (10 ^ 5, x + 1) else (m, x) in
  if (-4 <=? x) && (x <? 6)
  then to_string (m / 10 ^ (5 - x)) ++ fraction (Z.to_nat (5 - x)) (m mod 10 ^ (5 - x))
  else to_string (m / 10 ^ 5) ++ fraction 5 (m mod 10 ^ 5) ++
       lit (if x <? 0 then "e-" else "e+") ++ padded 2 (Z.abs x).

Definition show_double (x : spec_float) : str :=
  match x with
  | S754_zero s => lit (if s then "-0" else "0")
  | S754_infinity s => lit (if s then "-inf" else "inf")
  | S754_nan => lit "nan"
  | S754_finite s m e =>
      lit (if s then "-" else "") ++
      (if 0 <=? e then show_quotient (Z.pos m * 2 ^ e) 1 else show_quotient (Z.pos m) (2 ^ (- e)))
  end.

(** ** The ratios of a snapshot *)

Definition Amplification (s : MetricsSnapshot) : spec_float :=
  Ratio (ms_value s bytesTransferred) (ms_value s bytesRequested).
Definition OverFetchRatio (s : MetricsSnapshot) : spec_float :=
  Ratio (ms_value s bytesOverFetched) (ms_value s bytesTransferred).
Definition CacheHitRatio (s : MetricsSnapshot) : spec_float :=
  Ratio (ms_value s bytesFromCache) (ms_value s bytesRequested).
Definition RequestEfficiency (s : MetricsSnapshot) : spec_float :=
  Ratio (ms_value s bytesTransferred) (ms_value s requestCount).
Definition Selectivity (s : MetricsSnapshot) : spec_float :=
  Ratio (ms_value s bytesTransferred) (ms_value s assetSize).

(** ** The dump *)

(** The branch of [EnvironmentFlagSet] that reads [std::getenv]. *)
Definition EnvironmentFlagSet (value : option str) : bool :=
  match value with Some (_ :: _) => true | _ => false end.

Definition newline : str := ["010"%char].

Definition counter_line (label : string) (s : MetricsSnapshot) (c : Counter) : str :=
  lit label ++ to_string (ms_value s c) ++ newline.

Definition ratio_line (label : string) (x : spec_float) : str := lit label ++ show_double x ++ newline.

Definition latency_line (label : string) (s : Summary) : str :=
  lit label ++ lit "p50 " ++ to_string (su_p50 s) ++ lit " p90 " ++ to_string (su_p90 s) ++
  lit " p99 " ++ to_string (su_p99 s) ++ lit " max " ++ to_string (su_max s) ++ newline.

Definition asset_line (asset : MetricsSnapshot) : str :=
  lit "    " ++ to_string (ms_value asset bytesTransferred) ++ lit "  " ++ ms_identifier asset ++ newline.

Definition Dump (r : MetricsRegistry) : str :=
  let aggregate := Aggregate r in
  let top := TopAssetsByBytesTransferred 10 r in
  lit "usd-http-resolver metrics" ++ newline ++
  counter_line "  assetSize            " aggregate assetSize ++
  counter_line "  bytesRequested       " aggregate bytesRequested ++
  counter_line "  bytesTransferred     " aggregate bytesTransferred ++
  counter_line "  bytesFromCache       " aggregate bytesFromCache ++
  counter_line "  requestCount         " aggregate requestCount ++
  counter_line "  metadataRequestCount " aggregate metadataRequestCount ++
  counter_line "  retryCount           " aggregate retryCount ++
  counter_line "  redirectCount        " aggregate redirectCount ++
  counter_line "  blockHits            " aggregate blockHits ++
  counter_line "  blockMisses          " aggregate blockMisses ++
  counter_line "  partialHits          " aggregate partialHits ++
  counter_line "  savedByCoalescing    " aggregate requestsSavedByCoalescing ++
  counter_line "  savedBySingleFlight  " aggregate requestsSavedBySingleFlight ++
  counter_line "  bytesOverFetched     " aggregate bytesOverFetched ++
  counter_line "  evictions            " aggregate evictions ++
  counter_line "  peakResidentBytes    " aggregate peakResidentBytes ++
  ratio_line "  amplification        " (Amplification aggregate) ++
  ratio_line "  selectivity          " (Selectivity aggregate) ++
  ratio_line "  cacheHitRatio        " (CacheHitRatio aggregate) ++
  ratio_line "  overFetchRatio       " (OverFetchRatio aggregate) ++
  latency_line "  openLatency us       " (ms_openLatency aggregate) ++
  latency_line "  requestLatency us    " (ms_requestLatency aggregate) ++
  latency_line "  readLatency us       " (ms_readLatency aggregate) ++
  match top with
  | [] => []
  | _ => lit "  top assets by bytesTransferred" ++ newline ++ concat (map asset_line top)
  end.

(** What the lambda of [Instance] arms at exit. *)
Definition dump_at_exit (flag : option str) (r : MetricsRegistry) : str :=
  if EnvironmentFlagSet flag then Dump r else [].
