(* ===== verification/MetricsSpec.v ===== *)
(** * MetricsSpec: what the process aggregate reports

    The registry of src/Metrics.cpp against the readers closed so far: totals,
    latencies, the bounded table of assets and the order it is listed in. *)

From S2P Require Import Prelude Diagnostics Metrics MetricsDump.

(** ** The order of the listing *)

Lemma asset_before_trans a b c : asset_before a b = true -> asset_before b c = true -> asset_before a c = true.
Proof.
  unfold asset_before. pose proof (str_ltb_trans (ms_identifier a) (ms_identifier b) (ms_identifier c)).
  repeat case_match; rewrite ?negb_true_iff, ?negb_false_iff, ?Z.eqb_eq, ?Z.eqb_neq, ?Z.gtb_lt in *; auto; lia.
Qed.

Lemma asset_before_total a b :
  ms_identifier a <> ms_identifier b -> asset_before a b = false -> asset_before b a = true.
Proof.
  intros Hne. unfold asset_before. pose proof (str_ltb_total _ _ Hne).
  repeat case_match; rewrite ?negb_true_iff, ?negb_false_iff, ?Z.eqb_eq, ?Z.eqb_neq, ?Z.gtb_ltb, ?Z.ltb_lt, ?Z.ltb_ge in *; auto; lia.
Qed.

Definition before (a b : MetricsSnapshot) : Prop := asset_before a b = true.

Lemma sorted_insert_perm x l : sorted_insert x l ≡ₚ x :: l.
Proof.
  induction l as [|y l IH]; simpl; [done|]. case_match; [|done]. rewrite IH. constructor.
Qed.

Lemma sorted_insert_sorted x l :
  ms_identifier x ∉ map ms_identifier l -> StronglySorted before l -> StronglySorted before (sorted_insert x l).
Proof.
  induction l as [|y l IH]; simpl; intros Hx Hs; [by repeat constructor|].
  apply not_elem_of_cons in Hx as [Hxy Hx]. inversion_clear Hs as [|?? Hl Hy]. case_match eqn:E.
  - constructor; [by apply IH|]. rewrite sorted_insert_perm. by constructor.
  - apply asset_before_total in E; [|congruence]. constructor; [by constructor|]. constructor; [done|].
    eapply Forall_impl; [exact Hy|]. intros z. by apply asset_before_trans.
Qed.

Lemma sort_spec l :
  NoDup (map ms_identifier l) ->
  foldr sorted_insert [] l ≡ₚ l /\ StronglySorted before (foldr sorted_insert [] l).
Proof.
  induction l as [|x l IH]; simpl; intros Hnd; [by repeat constructor|].
  apply NoDup_cons in Hnd as [Hx Hnd]. destruct (IH Hnd) as [Hp Hs]. split.
  - by rewrite sorted_insert_perm, Hp.
  - apply sorted_insert_sorted; [|done]. by rewrite Hp.
Qed.

(** What a listing of [n] rows of a table must be. *)
Record listing (n : nat) (table : gmap str MetricsSnapshot) (top : list MetricsSnapshot) : Prop := {
  li_sorted : StronglySorted before top;
  li_length : length top = (n `min` size table)%nat;
  li_rows : forall row, row ∈ top -> table !! ms_identifier row = Some row;
  li_rest : forall id row, table !! id = Some row -> row ∉ top -> Forall (fun t => before t row) top }.

(** The rows of a table that files each under its own identifier. *)
Definition filed (table : gmap str MetricsSnapshot) : Prop :=
  forall id row, table !! id = Some row -> ms_identifier row = id.

Lemma filed_ids table : filed table -> map ms_identifier (map snd (map_to_list table)) = map fst (map_to_list table).
Proof.
  intros Hf. rewrite map_map. apply map_ext_in. intros [id row] Hin. simpl.
  apply Hf, elem_of_map_to_list. by apply list_elem_of_In.
Qed.

Lemma TopAssets_listing n r :
  filed (mr_perAsset r) -> listing n (mr_perAsset r) (TopAssetsByBytesTransferred n r).
Proof.
  intros Hf. unfold TopAssetsByBytesTransferred. set (rows := map snd (map_to_list (mr_perAsset r))).
  assert (NoDup (map ms_identifier rows)) as Hnd by (unfold rows; rewrite filed_ids by done; apply NoDup_fst_map_to_list).
  destruct (sort_spec rows Hnd) as [Hp Hs]. set (sorted := foldr sorted_insert [] rows) in *.
  assert (forall row, row ∈ sorted <-> mr_perAsset r !! ms_identifier row = Some row) as Hrow.
  { intros row. rewrite Hp. unfold rows. rewrite list_elem_of_fmap. split.
    - intros ([id row'] & -> & Hin%elem_of_map_to_list). simpl. by rewrite (Hf _ _ Hin).
    - intros H%elem_of_map_to_list. by eexists (_, _). }
  rewrite <-(take_drop n sorted) in Hs. apply StronglySorted_app in Hs as (Hcross & Htop & _). split.
  - done.
  - rewrite length_take, Hp. unfold rows. by rewrite length_map, length_map_to_list.
  - intros row Hin. apply Hrow. rewrite <-(take_drop n sorted). by apply elem_of_app; left.
  - intros id row Hl Hni. apply Forall_forall. intros t Ht. apply Hcross; [done|].
    assert (row ∈ sorted) as Hin by (apply Hrow; by rewrite (Hf _ _ Hl)).
    rewrite <-(take_drop n sorted), elem_of_app in Hin. by destruct Hin.
Qed.

(** ** Totals *)

(** A counter over several readers: a high-water mark is a maximum, the rest
    are sums at their width; of one asset the size is a maximum too. *)
Definition total (c : Counter) (l : list Z) : Z :=
  match c with peakResidentBytes => max_of l | _ => u64 (zsum id l) end.

Definition asset_total (c : Counter) (l : list Z) : Z :=
  match c with assetSize => max_of l | _ => total c l end.

Lemma total_snoc s m c l :
  ms_value s c = total c l -> Forall is_u64 l -> is_u64 (rm_value m c) ->
  ms_value (Snapshot_Add (Metrics_Snapshot m) s) c = total c (l ++ [rm_value m c]).
Proof.
  intros E Hl Hm. unfold total in *. cbn [Snapshot_Add ms_value Metrics_Snapshot].
  destruct c; rewrite E, ?zsum_snoc, ?u64_add_l, ?max_of_snoc by done; done.
Qed.

Lemma asset_total_single c v : is_u64 v -> asset_total c [v] = v.
Proof.
  intros Hv. assert (u64 (v + 0) = v) by (rewrite Z.add_0_r; by apply u64_small).
  unfold asset_total, total, max_of, zsum, is_u64 in *. destruct c; simpl; lia.
Qed.

(** The distinct elements of a list, in the order they first appear. *)
Definition firsts (l : list str) : list str :=
  foldl (fun acc x => if decide (x ∈ acc) then acc else acc ++ [x]) [] l.

Lemma firsts_snoc l x : firsts (l ++ [x]) = if decide (x ∈ firsts l) then firsts l else firsts l ++ [x].
Proof. unfold firsts. by rewrite foldl_app. Qed.

Lemma firsts_spec l : NoDup (firsts l) /\ forall x, x ∈ firsts l <-> x ∈ l.
Proof.
  induction l as [|y l [Hnd IH]] using rev_ind; [split; [constructor|done]|].
  rewrite firsts_snoc. case_decide as Hy.
  - split; [done|]. intros x. rewrite elem_of_app, list_elem_of_singleton, <-IH. split; [by left|intros [?| ->]; done].
  - split; [|intros x; by rewrite !elem_of_app, IH].
    apply NoDup_app. split; [done|]. split; [|apply NoDup_singleton]. intros x Hx ->%list_elem_of_singleton. done.
Qed.

(** ** Closed readers *)

(** A reader at its end of life: counters at their width, and histograms that
    hold the latencies of its opens, requests and reads. *)
Record Closing : Type := mkClosing {
  cl_reader : ReaderMetrics;
  cl_opens : list Z;
  cl_requests : list Z;
  cl_reads : list Z }.

Record closing_ok (c : Closing) : Prop := {
  co_values : forall k, is_u64 (rm_value (cl_reader c) k);
  co_open : rm_openLatency (cl_reader c) = record_all (cl_opens c);
  co_request : rm_requestLatency (cl_reader c) = record_all (cl_requests c);
  co_read : rm_readLatency (cl_reader c) = record_all (cl_reads c);
  co_opens : Forall is_u64 (cl_opens c);
  co_requests : Forall is_u64 (cl_requests c);
  co_reads : Forall is_u64 (cl_reads c) }.

Definition close_all (l : list Closing) : MetricsRegistry :=
  fold_left (fun r c => ReaderMetrics_end (cl_reader c) r) l MetricsRegistry_new.

Definition attached (l : list Closing) : list Closing :=
  List.filter (fun c => negb (rm_detached (cl_reader c))) l.

Definition fold_all (l : list Closing) : MetricsRegistry :=
  fold_left (fun r c => Registry_Fold (cl_reader c) r) l MetricsRegistry_new.

Lemma close_all_attached l : close_all l = fold_all (attached l).
Proof.
  unfold close_all, fold_all. generalize MetricsRegistry_new. induction l as [|c l IH]; intros r; simpl; [done|].
  unfold ReaderMetrics_end at 2. destruct (rm_detached (cl_reader c)); simpl; apply IH.
Qed.

(** The values of one counter over readers, and the readers of one asset. *)
Definition values (k : Counter) (l : list Closing) : list Z := map (fun c => rm_value (cl_reader c) k) l.
Definition ids (l : list Closing) : list str := map (fun c => rm_identifier (cl_reader c)) l.
Definition of_asset (id : str) (l : list Closing) : list Closing :=
  List.filter (fun c => bool_decide (rm_identifier (cl_reader c) = id)) l.

(** The registry after folding the readers of [l]. *)
Record accounts (l : list Closing) (r : MetricsRegistry) : Prop := {
  ac_total : forall k, ms_value (mr_aggregate r) k = total k (values k l);
  ac_tracked : dom (mr_perAsset r) = list_to_set (take kMaxTrackedIdentifiers (firsts (ids l)));
  ac_filed : filed (mr_perAsset r);
  ac_rows : forall id row k, mr_perAsset r !! id = Some row ->
    ms_value row k = asset_total k (values k (of_asset id l)) }.

Lemma values_ok k l : Forall closing_ok l -> Forall is_u64 (values k l).
Proof. intros Hl. unfold values. apply Forall_map. eapply Forall_impl; [exact Hl|]. intros c Hc. apply Hc. Qed.

Lemma of_asset_ok id l : Forall closing_ok l -> Forall closing_ok (of_asset id l).
Proof.
  unfold of_asset. induction 1 as [|c l Hc Hl IH]; simpl; [constructor|]. case_match; [by constructor|done].
Qed.

Lemma of_asset_snoc id l c :
  of_asset id (l ++ [c]) = of_asset id l ++ if decide (rm_identifier (cl_reader c) = id) then [c] else [].
Proof.
  unfold of_asset. rewrite List.filter_app. simpl. f_equal. by destruct (decide _); simplify_option_eq.
Qed.

Lemma of_asset_none id l : id ∉ ids l -> of_asset id l = [].
Proof.
  unfold of_asset, ids. induction l as [|c l IH]; simpl; intros Hn; [done|].
  apply not_elem_of_cons in Hn as [Hc Hn]. rewrite bool_decide_eq_false_2 by congruence. auto.
Qed.

(** A reader's figures added to the row of its asset. *)
Lemma row_snoc row m k l :
  ms_value row k = asset_total k l -> Forall is_u64 l -> is_u64 (rm_value m k) ->
  ms_value (set_assetSize (Z.max (ms_value row assetSize) (rm_value m assetSize))
    (Snapshot_Add (Metrics_Snapshot m) row)) k = asset_total k (l ++ [rm_value m k]).
Proof.
  intros E Hl Hm. cbn [set_assetSize ms_value]. case_decide as Hk.
  - subst k. unfold asset_total in *. by rewrite E, max_of_snoc.
  - unfold asset_total in *. destruct k; try done; by apply total_snoc.
Qed.

(** Which assets the bounded table lists. *)
Lemma tracked_size table (l : list str) :
  dom table = (list_to_set (take kMaxTrackedIdentifiers (firsts l)) : gset str) ->
  size (table : gmap str MetricsSnapshot) = (kMaxTrackedIdentifiers `min` length (firsts l))%nat.
Proof.
  intros E. rewrite <-size_dom, E, size_list_to_set, length_take; [done|].
  destruct (firsts_spec l) as [Hnd _]. rewrite <-(take_drop kMaxTrackedIdentifiers (firsts l)) in Hnd.
  by apply NoDup_app in Hnd as [? _].
Qed.

Lemma take_firsts_seen n l x :
  x ∈ firsts l \/ (n <= length (firsts l))%nat -> take n (firsts (l ++ [x])) = take n (firsts l).
Proof.
  intros H. rewrite firsts_snoc. case_decide; [done|]. destruct H; [done|]. by rewrite take_app_le.
Qed.

Lemma take_firsts_new n l x :
  x ∉ firsts l -> (length (firsts l) < n)%nat -> take n (firsts (l ++ [x])) = take n (firsts l) ++ [x].
Proof.
  intros H Hn. rewrite firsts_snoc, decide_False by done. rewrite !take_ge; [done|lia|rewrite length_app; simpl; lia].
Qed.

Section fold_one.
Context (l : list Closing) (r : MetricsRegistry) (c : Closing).
Context (Hac : accounts l r) (Hl : Forall closing_ok l) (Hc : closing_ok c).
Let id := rm_identifier (cl_reader c).
Let r' := Registry_Fold (cl_reader c) r.

(** The three outcomes for the table. *)
Lemma fold_known row :
  mr_perAsset r !! id = Some row ->
  mr_perAsset r' = <[id := set_assetSize (Z.max (ms_value row assetSize) (rm_value (cl_reader c) assetSize))
                              (Snapshot_Add (Metrics_Snapshot (cl_reader c)) row)]> (mr_perAsset r) /\
  id ∈ firsts (ids l).
Proof.
  intros E. split; [unfold r', Registry_Fold; cbn [mr_perAsset Metrics_Snapshot ms_identifier]; fold id; by rewrite E|].
  apply elem_of_dom_2 in E. rewrite (ac_tracked _ _ Hac), elem_of_list_to_set in E.
  rewrite <-(take_drop kMaxTrackedIdentifiers (firsts (ids l))). apply elem_of_app. by left.
Qed.

Lemma fold_new :
  mr_perAsset r !! id = None -> (length (firsts (ids l)) < kMaxTrackedIdentifiers)%nat ->
  mr_perAsset r' = <[id := Metrics_Snapshot (cl_reader c)]> (mr_perAsset r) /\ id ∉ firsts (ids l).
Proof.
  intros E Hn. split.
  - unfold r', Registry_Fold. cbn [mr_perAsset Metrics_Snapshot ms_identifier]. fold id. rewrite E.
    rewrite (tracked_size _ _ (ac_tracked _ _ Hac)). by destruct (Nat.ltb_spec (kMaxTrackedIdentifiers `min` length (firsts (ids l))) kMaxTrackedIdentifiers); [|lia].
  - apply not_elem_of_dom in E. rewrite (ac_tracked _ _ Hac), elem_of_list_to_set, take_ge in E by lia. done.
Qed.

Lemma fold_full :
  mr_perAsset r !! id = None -> (kMaxTrackedIdentifiers <= length (firsts (ids l)))%nat ->
  mr_perAsset r' = mr_perAsset r.
Proof.
  intros E Hn. unfold r', Registry_Fold. cbn [mr_perAsset Metrics_Snapshot ms_identifier]. fold id. rewrite E.
  rewrite (tracked_size _ _ (ac_tracked _ _ Hac)). by destruct (Nat.ltb_spec (kMaxTrackedIdentifiers `min` length (firsts (ids l))) kMaxTrackedIdentifiers); [lia|].
Qed.

Lemma ids_snoc : ids (l ++ [c]) = ids l ++ [id].
Proof. unfold ids. by rewrite map_app. Qed.

(** The rows of other assets are as they were. *)
Lemma other_row i row k :
  i <> id -> mr_perAsset r !! i = Some row -> ms_value row k = asset_total k (values k (of_asset i (l ++ [c]))).
Proof.
  intros Hne E. rewrite of_asset_snoc, decide_False, app_nil_r by (unfold id in Hne; congruence). by apply Hac.
Qed.

Lemma own_row row k :
  mr_perAsset r' !! id = Some row ->
  ms_identifier row = id /\ ms_value row k = asset_total k (values k (of_asset id (l ++ [c]))).
Proof.
  intros E. rewrite of_asset_snoc, decide_True by done. unfold values. rewrite map_app. cbn [map].
  destruct (mr_perAsset r !! id) as [known|] eqn:Ek.
  - rewrite (proj1 (fold_known known Ek)), lookup_insert_eq in E. injection E as <-. split; [exact (ac_filed _ _ Hac _ _ Ek)|].
    apply row_snoc; [by apply Hac|by apply values_ok, of_asset_ok|apply Hc].
  - destruct (decide (length (firsts (ids l)) < kMaxTrackedIdentifiers)%nat) as [Hn|Hn].
    + destruct (fold_new Ek Hn) as [E' Hni]. rewrite E', lookup_insert_eq in E. injection E as <-. split; [done|].
      rewrite of_asset_none by (by rewrite <-(proj2 (firsts_spec _))). symmetry. apply asset_total_single, Hc.
    + rewrite fold_full in E by (done || lia). congruence.
Qed.

Lemma other_lookup i : i <> id -> mr_perAsset r' !! i = mr_perAsset r !! i.
Proof.
  intros Hne. destruct (mr_perAsset r !! id) as [known|] eqn:Ek.
  - by rewrite (proj1 (fold_known known Ek)), lookup_insert_ne by done.
  - destruct (decide (length (firsts (ids l)) < kMaxTrackedIdentifiers)%nat) as [Hn|Hn].
    + by rewrite (proj1 (fold_new Ek Hn)), lookup_insert_ne by done.
    + by rewrite fold_full by (done || lia).
Qed.

Lemma fold_tracked : dom (mr_perAsset r') = list_to_set (take kMaxTrackedIdentifiers (firsts (ids (l ++ [c])))).
Proof.
  rewrite ids_snoc. destruct (mr_perAsset r !! id) as [known|] eqn:Ek.
  - destruct (fold_known known Ek) as [-> Hin]. rewrite take_firsts_seen by auto.
    rewrite dom_insert_lookup_L by eauto. apply Hac.
  - destruct (decide (length (firsts (ids l)) < kMaxTrackedIdentifiers)%nat) as [Hn|Hn].
    + destruct (fold_new Ek Hn) as [-> Hni]. rewrite take_firsts_new, dom_insert_L, (ac_tracked _ _ Hac) by (done || lia).
      rewrite list_to_set_app_L, list_to_set_singleton_L. apply (comm_L (∪)).
    + rewrite fold_full, take_firsts_seen by first [done | lia | right; lia]. apply Hac.
Qed.

Lemma accounts_snoc : accounts (l ++ [c]) r'.
Proof.
  split.
  - intros k. unfold values. rewrite map_app. apply total_snoc; [apply Hac|by apply values_ok|apply Hc].
  - apply fold_tracked.
  - intros i row E. destruct (decide (i = id)) as [->|Hne]; [by apply (own_row row assetSize)|].
    rewrite other_lookup in E by done. by apply (ac_filed _ _ Hac).
  - intros i row k E. destruct (decide (i = id)) as [->|Hne]; [by apply own_row|].
    rewrite other_lookup in E by done. by apply other_row.
Qed.
End fold_one.

Lemma fold_all_accounts l : Forall closing_ok l -> accounts l (fold_all l).
Proof.
  unfold fold_all. induction l as [|c l IH] using rev_ind; intros Hl.
  - split; [by intros []|done|by intros id row|by intros id row k].
  - rewrite Forall_app, Forall_singleton in Hl. destruct Hl as [Hl Hc]. rewrite fold_left_app. cbn [fold_left].
    apply accounts_snoc; auto.
Qed.

(** One of the registry's histograms, [q], that folds one of a reader's, [p]. *)
Lemma fold_all_latency (p : ReaderMetrics -> LatencyHistogram) (q : MetricsRegistry -> LatencyHistogram)
    (samples : Closing -> list Z) l :
  q MetricsRegistry_new = LatencyHistogram_new ->
  (forall m r, q (Registry_Fold m r) = Histogram_Fold (p m) (q r)) ->
  Forall (fun c => p (cl_reader c) = record_all (samples c) /\ Forall is_u64 (samples c)) l ->
  zlen (concat (map samples l)) < 2 ^ 57 ->
  q (fold_all l) = record_all (concat (map samples l)).
Proof.
  intros Hnew Hfold. unfold fold_all. induction l as [|c l IH] using rev_ind; intros Hl Hz; [done|].
  rewrite Forall_app, Forall_singleton in Hl. destruct Hl as (Hl & Ec & Hs).
  rewrite map_app, concat_app in Hz |- *. cbn [map concat] in *. rewrite app_nil_r in *. rewrite zlen_app in Hz.
  pose proof (zlen_nonneg (samples c)). pose proof (zlen_nonneg (concat (map samples l))).
  rewrite fold_left_app. cbn [fold_left]. rewrite Hfold, IH, Ec by (done || lia).
  apply Histogram_Fold_samples; [split; [|lia]|split; [done|lia]|lia].
  apply Forall_concat, Forall_map. eapply Forall_impl; [exact Hl|]. by intros c' [_ ?].
Qed.

(** C39: What the process aggregate reports is what the closed readers measured.
    After any readers have ended, in any order, with [L] those of them that were
    not detached: every total is the sum over [L] at its width, the resident peak
    the maximum; the quantiles of the three latencies are those of all the
    samples of [L] together; the table of assets tracks the first 4096 distinct
    identifiers of [L] and no other, each row under its own identifier with the
    exact figures of every reader of that asset (its size counted once); and a
    listing of [n] of them is the [n] with the most bytes transferred, most
    first, ties by identifier. *)
Theorem registry_totals closings n :
  let L := attached closings in
  let r := close_all closings in
  Forall closing_ok closings ->
  zlen (concat (map cl_opens L)) < 2 ^ 57 -> zlen (concat (map cl_requests L)) < 2 ^ 57 ->
  zlen (concat (map cl_reads L)) < 2 ^ 57 ->
  (forall k, ms_value (Aggregate r) k = total k (values k L)) /\
  ms_openLatency (Aggregate r) = Histogram_Snapshot (record_all (concat (map cl_opens L))) /\
  ms_requestLatency (Aggregate r) = Histogram_Snapshot (record_all (concat (map cl_requests L))) /\
  ms_readLatency (Aggregate r) = Histogram_Snapshot (record_all (concat (map cl_reads L))) /\
  dom (mr_perAsset r) = list_to_set (take 4096 (firsts (ids L))) /\
  (forall id row, mr_perAsset r !! id = Some row ->
     ms_identifier row = id /\ forall k, ms_value row k = asset_total k (values k (of_asset id L))) /\
  listing n (mr_perAsset r) (TopAssetsByBytesTransferred n r).
Proof.
  intros L r Hok Ho Hq Hr. subst r. rewrite close_all_attached. fold L.
  assert (Forall closing_ok L) as HL.
  { unfold L, attached. clear -Hok. induction Hok; simpl; [constructor|]. case_match; [by constructor|done]. }
  pose proof (fold_all_accounts L HL) as Hac.
  assert (forall p q samples, q MetricsRegistry_new = LatencyHistogram_new ->
    (forall m r, q (Registry_Fold m r) = Histogram_Fold (p m) (q r)) ->
    (forall c, closing_ok c -> p (cl_reader c) = record_all (samples c) /\ Forall is_u64 (samples c)) ->
    zlen (concat (map samples L)) < 2 ^ 57 -> q (fold_all L) = record_all (concat (map samples L))) as Hh.
  { intros p q samples E1 E2 E3. apply (fold_all_latency p); [done..|]. eapply Forall_impl; [exact HL|done]. }
  unfold Aggregate. cbn [ms_value ms_openLatency ms_requestLatency ms_readLatency]. split_and!.
  - apply Hac.
  - rewrite (Hh rm_openLatency mr_openLatency cl_opens); [done..| |done]. intros c []. by split.
  - rewrite (Hh rm_requestLatency mr_requestLatency cl_requests); [done..| |done]. intros c []. by split.
  - rewrite (Hh rm_readLatency mr_readLatency cl_reads); [done..| |done]. intros c []. by split.
  - apply (ac_tracked _ _ Hac).
  - intros id row E. split; [by apply (ac_filed _ _ Hac)|]. intros k. by apply (ac_rows _ _ Hac).
  - apply TopAssets_listing, Hac.
Qed.

(** A reset histogram is a new one: it has the same buckets, all empty. *)
Lemma Histogram_Reset_new h : length (h_buckets h) = kBucketCount -> Histogram_Reset h = LatencyHistogram_new.
Proof.
  intros E. unfold Histogram_Reset, LatencyHistogram_new. f_equal. rewrite <-E.
  generalize (h_buckets h). intros l. by induction l as [|b l IH]; simpl; [|rewrite IH].
Qed.

(** ** An example

    Two readers of one asset, one of another, and a detached one. *)

Definition ex_closing (identifier : string) (bytes opened : Z) (detach : bool) : Closing :=
  let m := ReaderMetrics_new (lit identifier) in
  let m := AddBytesTransferred bytes (SetAssetSize 3000 (on_openLatency (Record_ opened) m)) in
  mkClosing (if detach then DetachFromRegistry m else m) [opened] [] [].

Definition ex_closings : list Closing :=
  [ex_closing "http://h/a.usd?sig=1" 700 90 false; ex_closing "http://h/b.usd" 1000 5 false;
   ex_closing "http://h/a.usd?sig=2" 301 7 false; ex_closing "http://h/c.usd" 9999 7 true].

Lemma ex_closing_ok identifier bytes opened detach :
  is_u64 bytes -> is_u64 opened -> closing_ok (ex_closing identifier bytes opened detach).
Proof.
  intros Hb Ho. unfold ex_closing. split.
  - intros k. destruct detach; cbn; unfold AddRelaxed;
      repeat case_decide; try apply u64_is_u64; unfold is_u64; lia.
  - by destruct detach.
  - by destruct detach.
  - by destruct detach.
  - by constructor.
  - constructor.
  - constructor.
Qed.

Example ex_top_assets :
  map (fun s => (string_of_list_ascii (ms_identifier s), ms_value s bytesTransferred, ms_value s assetSize))
    (TopAssetsByBytesTransferred 5 (close_all ex_closings)) =
  [("http://h/a.usd?<elided>"%string, 1001, 3000); ("http://h/b.usd"%string, 1000, 3000)].
Proof. vm_compute. reflexivity. Qed.

Lemma registry_totals_witness :
  let r := close_all ex_closings in
  ms_value (Aggregate r) bytesTransferred = 2001 /\
  ms_openLatency (Aggregate r) = Histogram_Snapshot (record_all [90; 5; 7]) /\
  listing 1 (mr_perAsset r) (TopAssetsByBytesTransferred 1 r).
Proof.
  destruct (registry_totals ex_closings 1) as (H1 & H2 & _ & _ & _ & _ & H3); [|done..|].
  { apply Forall_forall. intros c Hc. repeat apply elem_of_cons in Hc as [->|Hc]; try (by apply elem_of_nil in Hc);
      apply ex_closing_ok; unfold is_u64; lia. }
  split; [exact (H1 bytesTransferred)|]. split; [exact H2|exact H3].
Defined.

(** Its dump, with the signatures elided. *)
Example ex_dump :
  dump_at_exit (Some (lit "1")) (close_all ex_closings) = lit
"usd-http-resolver metrics
  assetSize            9000
  bytesRequested       0
  bytesTransferred     2001
  bytesFromCache       0
  requestCount         0
  metadataRequestCount 0
  retryCount           0
  redirectCount        0
  blockHits            0
  blockMisses          0
  partialHits          0
  savedByCoalescing    0
  savedBySingleFlight  0
  bytesOverFetched     0
  evictions            0
  peakResidentBytes    0
  amplification        0
  selectivity          0.222333
  cacheHitRatio        0
  overFetchRatio       0
  openLatency us       p50 7 p90 90 p99 90 max 90
  requestLatency us    p50 0 p90 0 p99 0 max 0
  readLatency us       p50 0 p90 0 p99 0 max 0
  top assets by bytesTransferred
    1001  http://h/a.usd?<elided>
    1000  http://h/b.usd
".
Proof. vm_compute. reflexivity. Qed.
