(* ===== verification/MetricsThreads.v ===== *)
(** * MetricsThreads: counters under threads

    The counters of src/Metrics.cpp are atomics that many threads update with no
    lock.  [Metrics] writes an update as one step on its counter; here the
    updates are the operations the code performs, a fetch-and-add or the loop of
    [MaxRelaxed] around a compare-and-exchange that may fail, interleaved in any
    order.  A counter has one order of modification whatever the memory order of
    its operations, so each is a cell that all threads see. *)

From S2P Require Import Prelude Diagnostics Metrics.

(** ** Cells, updates and threads *)

Inductive Which : Type := Opens | Requests | Reads.

#[export] Instance Which_eq_dec : EqDecision Which.
Proof. solve_decision. Defined.

(** The atomics of a [ReaderMetrics]: its counters, and the buckets and figures
    of its three histograms. *)
Inductive Cell : Type :=
| Value (c : Counter)
| Bucket (w : Which) (i : nat)
| Count (w : Which)
| Sum (w : Which)
| Max (w : Which).

#[export] Instance Cell_eq_dec : EqDecision Cell.
Proof. solve_decision. Defined.

(** The two ways the code writes to one: [AddRelaxed] and [MaxRelaxed]. *)
Inductive AtomicUpdate : Type := Add (delta : Z) | Raise (value : Z).

(** What an update amounts to when it runs alone. *)
Definition effect (u : AtomicUpdate) (x : Z) : Z :=
  match u with Add d => AddRelaxed x d | Raise v => MaxRelaxed x v end.

Definition Memory : Type := Cell -> Z.

Definition store (c : Cell) (x : Z) (m : Memory) : Memory := fun c' => if decide (c' = c) then x else m c'.

(** A thread: the updates it still has to make, and, inside the loop of
    [MaxRelaxed] for the first of them, the value of [previous]. *)
Record Thread : Type := mkThread {
  th_todo : list (Cell * AtomicUpdate);
  th_previous : option Z }.

(** One atomic access of a thread.  [spurious] is the freedom of a weak
    compare-and-exchange to fail although the value is the expected one. *)
Definition thread_step (spurious : bool) (m : Memory) (t : Thread) : option (Memory * Thread) :=
  match th_todo t with
  | [] => None
  | (c, Add delta) :: rest => Some (store c (u64 (m c + delta)) m, mkThread rest None)
  | (c, Raise value) :: rest =>
      match th_previous t with
      | None => Some (m, mkThread (th_todo t) (Some (m c)))
      | Some previous =>
          if negb (value >? previous) then Some (m, mkThread rest None)
          else if negb spurious && (m c =? previous) then Some (store c value m, mkThread rest None)
          else Some (m, mkThread (th_todo t) (Some (m c)))
      end
  end.

Definition State : Type := Memory * list Thread.

Inductive step : State -> State -> Prop :=
| step_thread i spurious m ts t m' t' :
    ts !! i = Some t -> thread_step spurious m t = Some (m', t') -> step (m, ts) (m', <[i := t']> ts).

Definition finished (ts : list Thread) : Prop := Forall (fun t => th_todo t = []) ts.

Definition start (programs : list (list (Cell * AtomicUpdate))) : list Thread :=
  map (fun p => mkThread p None) programs.

(** ** Linearization

    An update takes effect at one access of its thread: the addition, the
    exchange that succeeds, or the load that found the maximum no smaller. *)

Definition pending (t : Thread) : list (Cell * AtomicUpdate) :=
  match th_todo t, th_previous t with
  | (c, Raise value) :: rest, Some previous => if value >? previous then th_todo t else rest
  | todo, _ => todo
  end.

Definition at_cell (c : Cell) (l : list (Cell * AtomicUpdate)) : list AtomicUpdate :=
  omap (fun cu => if decide (cu.1 = c) then Some cu.2 else None) l.

Definition effects (l : list AtomicUpdate) (x : Z) : Z := fold_left (fun x u => effect u x) l x.

Lemma effects_app l1 l2 x : effects (l1 ++ l2) x = effects l2 (effects l1 x).
Proof. apply fold_left_app. Qed.

Lemma at_cell_app c l1 l2 : at_cell c (l1 ++ l2) = at_cell c l1 ++ at_cell c l2.
Proof. apply omap_app. Qed.

Lemma at_cell_single c d u : at_cell c [(d, u)] = if decide (d = c) then [u] else [].
Proof. unfold at_cell. cbn. by destruct (decide (d = c)). Qed.

(** A load that finds the counter no smaller makes the update, to no effect. *)
Lemma load_effect c value rest m :
  exists l, (c, Raise value) :: rest = l ++ (if value >? m c then (c, Raise value) :: rest else rest) /\
    forall d, m d = effects (at_cell d l) (m d).
Proof.
  destruct (value >? m c) eqn:E; [by exists []|]. exists [(c, Raise value)]. split; [done|].
  intros d. rewrite at_cell_single. destruct (decide (c = d)) as [->|]; [|done]. cbn. unfold MaxRelaxed. by rewrite E.
Qed.

(** A step makes the first pending update of its thread, or none. *)
Lemma thread_step_effect spurious m t m' t' :
  thread_step spurious m t = Some (m', t') ->
  exists l, pending t = l ++ pending t' /\ forall c, m' c = effects (at_cell c l) (m c).
Proof.
  unfold thread_step, pending. destruct t as [todo prev]. cbn [th_todo th_previous].
  destruct todo as [|[c u] rest]; [done|].
  assert (forall x, m' = store c x m -> x = effect u (m c) ->
    forall d, m' d = effects (at_cell d [(c, u)]) (m d)) as Hstore.
  { intros x -> -> d. rewrite at_cell_single. unfold store.
    destruct (decide (d = c)) as [->|Hne]; [by rewrite decide_True|by rewrite decide_False]. }
  destruct u as [delta|value].
  - intros [= Em <-]. exists [(c, Add delta)]. cbn [th_todo th_previous]. split; [by destruct rest as [|[? []]]|].
    by apply (Hstore (u64 (m c + delta))).
  - destruct prev as [previous|].
    + destruct (value >? previous) eqn:Ev; cbn [negb].
      2:{ intros [= <- <-]. exists []. cbn [th_todo th_previous]. by destruct rest as [|[? []]]. }
      destruct (negb spurious && (m c =? previous)) eqn:Ec.
      * intros [= Em <-]. apply andb_true_iff in Ec as [_ Ec%Z.eqb_eq]. exists [(c, Raise value)].
        cbn [th_todo th_previous]. split; [by destruct rest as [|[? []]]|].
        apply (Hstore value); [done|]. cbn [effect]. unfold MaxRelaxed. by rewrite Ec, Ev.
      * intros [= <- <-]. apply load_effect.
    + intros [= <- <-]. apply load_effect.
Qed.

Definition all_pending (ts : list Thread) : list (Cell * AtomicUpdate) := concat (map pending ts).

(** From the memory [m0], the updates [made] have taken effect, one after the
    other; with those still pending they are the updates of [total]. *)
Definition linear (m0 : Memory) (total : list (Cell * AtomicUpdate)) (s : State) : Prop :=
  exists made, made ++ all_pending s.2 ≡ₚ total /\ forall c, s.1 c = effects (at_cell c made) (m0 c).

Lemma all_pending_insert ts i t t' l :
  ts !! i = Some t -> pending t = l ++ pending t' -> all_pending ts ≡ₚ l ++ all_pending (<[i := t']> ts).
Proof.
  intros Hi E. unfold all_pending. rewrite list_fmap_insert.
  rewrite <-(take_drop_middle ts i t Hi) at 1. rewrite insert_take_drop by (rewrite length_map; by eapply lookup_lt_Some).
  rewrite map_app, !concat_app. cbn [map concat]. rewrite E, fmap_take, fmap_drop, <-!(assoc_L (++)).
  apply Permutation_app_swap_app.
Qed.

Lemma linear_step m0 total s s' : linear m0 total s -> step s s' -> linear m0 total s'.
Proof.
  intros (made & Hp & Hm) Hs. destruct Hs as [i spurious m ts t m' t' Hi Ht]. cbn [fst snd] in *.
  destruct (thread_step_effect _ _ _ _ _ Ht) as (l & El & Em). exists (made ++ l). cbn [fst snd]. split.
  - by rewrite <-(assoc_L (++)), <-(all_pending_insert ts i t t' l).
  - intros c. by rewrite at_cell_app, effects_app, Em, Hm.
Qed.

Lemma linear_start m0 programs : linear m0 (concat programs) (m0, start programs).
Proof.
  exists []. split; [|done]. cbn [snd app]. unfold all_pending, start. rewrite map_map.
  assert (map (fun p => pending (mkThread p None)) programs = programs) as ->; [|done].
  rewrite <-(map_id programs) at 2. apply map_ext. by intros [|[? []]].
Qed.

(** Every interleaving is one sequence of the threads' updates. *)
Lemma linearization m0 programs m ts :
  rtc step (m0, start programs) (m, ts) -> finished ts ->
  exists order, order ≡ₚ concat programs /\ forall c, m c = effects (at_cell c order) (m0 c).
Proof.
  intros Hr Hf. assert (linear m0 (concat programs) (m, ts)) as (made & Hp & Hm).
  { revert Hr. generalize (linear_start m0 programs). generalize (m0, start programs). intros s Hl Hr.
    remember (m, ts) as s' eqn:E. clear E Hf. induction Hr; eauto using linear_step. }
  exists made. split; [|done]. cbn [snd] in Hp. rewrite <-Hp.
  assert (all_pending ts = []) as ->; [|by rewrite app_nil_r].
  unfold all_pending. clear -Hf. induction Hf as [|[todo prev] ts Ht Hf IH]; [done|]. cbn in *. by rewrite Ht.
Qed.

(** No interleaving is stuck: left alone, the threads finish. *)
Lemma thread_finishes m ts i c u rest prev :
  ts !! i = Some (mkThread ((c, u) :: rest) prev) ->
  exists m', rtc step (m, ts) (m', <[i := mkThread rest None]> ts).
Proof.
  intros Hi. assert (forall ts previous, ts !! i = Some (mkThread ((c, u) :: rest) (Some previous)) -> previous = m c ->
    exists m', step (m, ts) (m', <[i := mkThread rest None]> ts)) as Hloop.
  { intros ts' previous Hi' ->. destruct u as [delta|value].
    - eexists. by apply (step_thread i false _ _ _ _ _ Hi').
    - destruct (value >? m c) eqn:Ev; eexists; apply (step_thread i false _ _ _ _ _ Hi'); unfold thread_step;
        cbn [th_todo th_previous]; rewrite Ev; cbn [negb andb]; [by rewrite Z.eqb_refl|done]. }
  assert (forall prev', ts !! i = Some (mkThread ((c, u) :: rest) prev') -> prev' <> Some (m c) ->
    step (m, ts) (m, <[i := mkThread ((c, u) :: rest) (Some (m c))]> ts) \/
    exists m', step (m, ts) (m', <[i := mkThread rest None]> ts)) as Hfirst.
  { intros prev' Hi' Hne. destruct u as [delta|value].
    - right. eexists. by apply (step_thread i false _ _ _ _ _ Hi').
    - destruct prev' as [p|]; [|left; by apply (step_thread i false _ _ _ _ _ Hi')].
      destruct (value >? p) eqn:Ev; [left|right; eexists]; apply (step_thread i false _ _ _ _ _ Hi'); unfold thread_step;
        cbn [th_todo th_previous]; rewrite Ev; cbn [negb andb]; [|done].
      destruct (Z.eqb_spec (m c) p); [congruence|done]. }
  destruct (decide (prev = Some (m c))) as [->|Hne].
  - destruct (Hloop ts (m c) Hi eq_refl) as [m' Hs]. exists m'. by apply rtc_once.
  - destruct (Hfirst prev Hi Hne) as [Hs|[m' Hs]]; [|exists m'; by apply rtc_once].
    destruct (Hloop (<[i := mkThread ((c, u) :: rest) (Some (m c))]> ts) (m c)) as [m' Hs']; [|done|].
    + rewrite list_lookup_insert_eq; [done|]. by eapply lookup_lt_Some.
    + rewrite list_insert_insert_eq in Hs'. exists m'. by eapply rtc_l; [|apply rtc_once].
Qed.

Definition work (ts : list Thread) : nat := sum_list_with (fun t => length (th_todo t)) ts.

Lemma work_insert ts i t t' :
  ts !! i = Some t -> (length (th_todo t') < length (th_todo t))%nat -> (work (<[i := t']> ts) < work ts)%nat.
Proof.
  unfold work. revert i. induction ts as [|x ts IH]; intros [|i] Hi Hlt; cbn in *; try done.
  - injection Hi as ->. lia.
  - by apply Nat.add_lt_mono_l, IH.
Qed.

Lemma can_finish m ts : exists m' ts', rtc step (m, ts) (m', ts') /\ finished ts'.
Proof.
  remember (work ts) as n eqn:En. revert m ts En. induction (lt_wf n) as [n _ IH]. intros m ts ->.
  destruct (decide (Exists (fun t => th_todo t <> []) ts)) as [He|Hn].
  - apply Exists_exists in He as (t & [i Hi]%list_elem_of_lookup & Ht).
    destruct t as [[|[c u] rest] prev]; [done|]. destruct (thread_finishes m ts i c u rest prev Hi) as [m1 H1].
    destruct (IH (work (<[i := mkThread rest None]> ts))) with (m := m1) (ts := <[i := mkThread rest None]> ts)
      as (m2 & ts2 & H2 & Hf); [|done|].
    + eapply work_insert; [exact Hi|]. cbn. lia.
    + exists m2, ts2. split; [|done]. by etrans.
  - exists m, ts. split; [done|]. apply not_Exists_Forall in Hn; [|apply _].
    eapply Forall_impl; [exact Hn|]. intros t Ht. by apply dec_stable.
Qed.

(** ** Updates that commute

    The code only adds to a cell or only raises it, so the order in which the
    updates took effect does not matter. *)

Definition raised (c : Cell) : bool :=
  match c with Value peakResidentBytes | Value assetSize | Max _ => true | _ => false end.

Definition fits (cu : Cell * AtomicUpdate) : Prop :=
  match cu.2 with Add _ => raised cu.1 = false | Raise _ => raised cu.1 = true end.

Lemma effect_comm c u v x : fits (c, u) -> fits (c, v) -> effect v (effect u x) = effect u (effect v x).
Proof.
  unfold fits. destruct u as [d|a], v as [e|b]; cbn; intros H1 H2; try congruence.
  - unfold AddRelaxed. rewrite !u64_add_l. f_equal. lia.
  - unfold MaxRelaxed. repeat case_match; lia.
Qed.

Lemma at_cell_permutation c l1 l2 : l1 ≡ₚ l2 -> at_cell c l1 ≡ₚ at_cell c l2.
Proof. intros E. unfold at_cell. by rewrite E. Qed.

Lemma at_cell_fits c l : Forall fits l -> Forall (fun u => fits (c, u)) (at_cell c l).
Proof.
  induction 1 as [|[d u] l Hu Hl IH]; [constructor|]. unfold at_cell. cbn.
  destruct (decide (d = c)) as [->|]; [by constructor|done].
Qed.

Lemma effects_permutation c l1 l2 x :
  l1 ≡ₚ l2 -> Forall (fun u => fits (c, u)) l1 -> effects l1 x = effects l2 x.
Proof.
  intros Hp. revert x. induction Hp as [|u l1 l2 Hp IH|u v l|l1 l2 l3 Hp1 IH1 Hp2 IH2]; intros x Hf; [done|..].
  - inversion_clear Hf. cbn. by apply IH.
  - inversion_clear Hf as [|?? Hv Hf']. inversion_clear Hf' as [|?? Hu _]. cbn. by rewrite (effect_comm c v u).
  - rewrite IH1 by done. apply IH2. by rewrite <-Hp1.
Qed.

(** ** The members of [ReaderMetrics] as updates *)

Definition latency_of (w : Which) (rm : ReaderMetrics) : LatencyHistogram :=
  match w with Opens => rm_openLatency rm | Requests => rm_requestLatency rm | Reads => rm_readLatency rm end.

Definition on_latency (w : Which) : (LatencyHistogram -> LatencyHistogram) -> ReaderMetrics -> ReaderMetrics :=
  match w with Opens => on_openLatency | Requests => on_requestLatency | Reads => on_readLatency end.

(** The atomics of a counter set, and what a reader of them would see. *)
Definition memory_of (rm : ReaderMetrics) : Memory := fun c =>
  match c with
  | Value k => rm_value rm k
  | Bucket w i => default 0 (h_buckets (latency_of w rm) !! i)
  | Count w => h_count (latency_of w rm)
  | Sum w => h_sum (latency_of w rm)
  | Max w => h_max (latency_of w rm)
  end.

Definition histogram_at (w : Which) (m : Memory) : LatencyHistogram :=
  mkHistogram (map (fun i => m (Bucket w i)) (seq 0 kBucketCount)) (m (Count w)) (m (Sum w)) (m (Max w)).

Definition shows (m : Memory) (rm : ReaderMetrics) : Prop :=
  (forall k, m (Value k) = rm_value rm k) /\ forall w, histogram_at w m = latency_of w rm.

(** [LatencyHistogram::Record] and [::Fold], access by access. *)
Definition record_program (w : Which) (microseconds : Z) : list (Cell * AtomicUpdate) :=
  [(Bucket w (BucketFor microseconds), Add 1); (Count w, Add 1); (Sum w, Add microseconds);
   (Max w, Raise microseconds)].

Definition fold_program (w : Which) (other : LatencyHistogram) : list (Cell * AtomicUpdate) :=
  imap (fun i b => (Bucket w i, Add b)) (h_buckets other) ++
  [(Count w, Add (h_count other)); (Sum w, Add (h_sum other)); (Max w, Raise (h_max other))].

(** What threads do to the counters of a reader: the [Add...] members, the
    timers, and [AbsorbTransport] of a reader that is no longer in use. *)
Inductive Task : Type :=
| TAdd (k : Counter) (n : Z)
| TMetadata (n : Z)
| TObserve (n : Z)
| TLatency (w : Which) (microseconds : Z)
| TAbsorb (inner : ReaderMetrics).

Definition program (t : Task) : list (Cell * AtomicUpdate) :=
  match t with
  | TAdd k n => [(Value k, Add n)]
  | TMetadata n => [(Value metadataRequestCount, Add n); (Value requestCount, Add n)]
  | TObserve n => [(Value peakResidentBytes, Raise n)]
  | TLatency w us => record_program w us
  | TAbsorb inner =>
      (Value assetSize, Raise (rm_value inner assetSize)) ::
      map (fun k => (Value k, Add (rm_value inner k)))
        [bytesTransferred; requestCount; metadataRequestCount; retryCount; redirectCount] ++
      fold_program Opens (rm_openLatency inner) ++ fold_program Requests (rm_requestLatency inner)
  end.

(** The same member, as [Metrics] defines it. *)
Definition perform (rm : ReaderMetrics) (t : Task) : ReaderMetrics :=
  match t with
  | TAdd k n => bump k n rm
  | TMetadata n => AddMetadataRequest n rm
  | TObserve n => ObserveResidentBytes n rm
  | TLatency w us => on_latency w (Record_ us) rm
  | TAbsorb inner => AbsorbTransport inner rm
  end.

(** No member adds to the two figures that are maxima, and a histogram has its
    buckets. *)
Definition task_ok (t : Task) : Prop :=
  match t with
  | TAdd k _ => raised (Value k) = false
  | TAbsorb inner => forall w, length (h_buckets (latency_of w inner)) = kBucketCount
  | _ => True
  end.

Definition run (p : list (Cell * AtomicUpdate)) (m : Memory) : Memory := fun c => effects (at_cell c p) (m c).

Lemma run_app p1 p2 m c : run (p1 ++ p2) m c = run p2 (run p1 m) c.
Proof. unfold run. by rewrite at_cell_app, effects_app. Qed.

Lemma shows_ext m m' rm : (forall c, m c = m' c) -> shows m' rm -> shows m rm.
Proof.
  intros E [H1 H2]. split; [intros k; by rewrite E|]. intros w. rewrite <-H2. unfold histogram_at. rewrite !E.
  f_equal. apply map_ext. intros i. apply E.
Qed.

Lemma shows_memory_of rm :
  (forall w, length (h_buckets (latency_of w rm)) = kBucketCount) -> shows (memory_of rm) rm.
Proof.
  intros Hl. split; [done|]. intros w. unfold histogram_at. cbn [memory_of]. specialize (Hl w).
  destruct (latency_of w rm) as [buckets count sum max]. cbn [h_buckets h_count h_sum h_max] in *. f_equal. rewrite <-Hl.
  apply list_eq. intros i. rewrite list_lookup_fmap. destruct (decide (i < length buckets)%nat) as [Hi|Hi].
  - rewrite lookup_seq_lt by done. cbn. by destruct (lookup_lt_is_Some_2 _ _ Hi) as [x ->].
  - rewrite (lookup_ge_None_2 buckets) by lia. by rewrite (lookup_ge_None_2 (seq _ _)) by (rewrite length_seq; lia).
Qed.

Lemma on_latency_value w f rm k : rm_value (on_latency w f rm) k = rm_value rm k.
Proof. by destruct w. Qed.

Lemma on_latency_of w w' f rm :
  latency_of w' (on_latency w f rm) = if decide (w' = w) then f (latency_of w rm) else latency_of w' rm.
Proof. by destruct w, w'. Qed.

(** A program that touches one histogram. *)
Lemma shows_latency w f p m rm :
  (forall k, at_cell (Value k) p = []) ->
  (forall w' i, w' <> w -> at_cell (Bucket w' i) p = [] /\ at_cell (Count w') p = [] /\
     at_cell (Sum w') p = [] /\ at_cell (Max w') p = []) ->
  histogram_at w (run p m) = f (histogram_at w m) ->
  shows m rm -> shows (run p m) (on_latency w f rm).
Proof.
  intros Hv Ho Hw [H1 H2]. split; [intros k; unfold run; by rewrite Hv, on_latency_value, <-H1|].
  intros w'. rewrite on_latency_of. destruct (decide (w' = w)) as [->|Hne]; [by rewrite Hw, H2|].
  rewrite <-H2. unfold histogram_at, run. f_equal; [apply map_ext; intros i|..].
  - by destruct (Ho w' i Hne) as (-> & _).
  - by destruct (Ho w' 0%nat Hne) as (_ & -> & _).
  - by destruct (Ho w' 0%nat Hne) as (_ & _ & -> & _).
  - by destruct (Ho w' 0%nat Hne) as (_ & _ & _ & ->).
Qed.

Lemma at_cell_cons c d u l : at_cell c ((d, u) :: l) = if decide (d = c) then u :: at_cell c l else at_cell c l.
Proof. unfold at_cell. cbn. by destruct (decide (d = c)). Qed.

Ltac cells := rewrite ?at_cell_cons; repeat (rewrite decide_False by congruence); try done.

Lemma shows_record w us m rm : shows m rm -> shows (run (record_program w us) m) (on_latency w (Record_ us) rm).
Proof.
  apply shows_latency; unfold record_program.
  - intros k. by cells.
  - intros w' i Hne. by split_and!; cells.
  - unfold histogram_at, run, Record_. cbn [h_buckets h_count h_sum h_max].
    f_equal; [|cells; by rewrite decide_True..].
    apply list_eq. intros i. rewrite list_lookup_alter, !list_lookup_fmap.
    destruct (decide (BucketFor us = i)) as [->|Hne]; (destruct (seq 0 kBucketCount !! i) as [j|] eqn:Ej; [|done]);
      apply lookup_seq in Ej as [-> _]; cbn [Nat.add fmap option_fmap option_map]; rewrite at_cell_cons.
    + rewrite decide_True by done. by cells.
    + by cells.
Qed.

Lemma at_cell_buckets w (l : list Z) n i :
  at_cell (Bucket w i) (imap (fun j b => (Bucket w (n + j), Add b)) l) =
  if (i <? n)%nat then [] else match l !! (i - n)%nat with Some b => [Add b] | None => [] end.
Proof.
  revert n. induction l as [|b l IH]; intros n; [by destruct (i <? n)%nat|]. rewrite imap_cons, at_cell_cons.
  rewrite (imap_ext _ (fun j b => (Bucket w (S n + j), Add b))) by (intros; cbn; do 2 f_equal; lia).
  rewrite IH, Nat.add_0_r. destruct (Nat.ltb_spec i (S n)), (Nat.ltb_spec i n); try lia.
  - rewrite decide_False; [done|]. intros [= ?]. lia.
  - assert (i = n) as -> by lia. by rewrite decide_True, Nat.sub_diag by done.
  - rewrite decide_False by (intros [= ?]; lia). by replace (i - n)%nat with (S (i - S n)) by lia.
Qed.

Lemma at_cell_buckets_none c w (l : list Z) :
  (forall i, c <> Bucket w i) -> at_cell c (imap (fun j b => (Bucket w j, Add b)) l) = [].
Proof.
  intros Hc. assert (Forall (fun cu => cu.1 <> c) (imap (fun j b => (Bucket w j, Add b)) l)) as Hf.
  { apply Forall_lookup. intros i cu. rewrite list_lookup_imap. destruct (l !! i); intros [= <-]. cbn. congruence. }
  induction Hf as [|[d u] l' Hd Hf IH]; [done|]. by rewrite at_cell_cons, decide_False.
Qed.

Lemma shows_fold w other m rm :
  length (h_buckets other) = kBucketCount -> shows m rm ->
  shows (run (fold_program w other) m) (on_latency w (Histogram_Fold other) rm).
Proof.
  intros Hl. apply shows_latency; unfold fold_program.
  - intros k. rewrite at_cell_app, at_cell_buckets_none by done. by cells.
  - intros w' i Hne. split_and!; rewrite at_cell_app, at_cell_buckets_none by congruence; by cells.
  - unfold histogram_at, run, Histogram_Fold. cbn [h_buckets h_count h_sum h_max].
    f_equal; [|rewrite at_cell_app, at_cell_buckets_none by done; cells; by rewrite decide_True..].
    apply list_eq. intros i. rewrite lookup_zip_with, !list_lookup_fmap.
    destruct (seq 0 kBucketCount !! i) as [j|] eqn:Ej; [|done]. apply lookup_seq in Ej as [-> Hi].
    cbn [Nat.add fmap option_fmap option_map]. rewrite at_cell_app, (at_cell_buckets w _ 0 i), Nat.sub_0_r. cbn [Nat.ltb Nat.leb].
    destruct (lookup_lt_is_Some_2 (h_buckets other) i) as [b ->]; [lia|]. by cells.
Qed.

(** A program that touches one counter. *)
Lemma shows_value k u m rm : shows m rm -> shows (run [(Value k, u)] m) (set_counter k (effect u) rm).
Proof.
  intros [H1 H2]. split.
  - intros k'. unfold run. rewrite at_cell_single. cbn [set_counter rm_value]. rewrite <-!H1.
    destruct (decide (k' = k)) as [->|Hne]; [by rewrite decide_True|by rewrite decide_False by congruence].
  - intros w. transitivity (histogram_at w m); [done|]. rewrite H2. by destruct w.
Qed.

Lemma shows_run_app p1 p2 m rm : shows (run p2 (run p1 m)) rm -> shows (run (p1 ++ p2) m) rm.
Proof. apply shows_ext. intros c. apply run_app. Qed.

(** A task's accesses, run alone, are the member. *)
Lemma shows_task t m rm : task_ok t -> shows m rm -> shows (run (program t) m) (perform rm t).
Proof.
  intros Ht Hs. destruct t as [k n|n|n|w us|inner]; cbn [program perform].
  - by apply (shows_value k (Add n)).
  - unfold AddMetadataRequest. apply (shows_run_app [(Value metadataRequestCount, Add n)] [(Value requestCount, Add n)]).
    by apply (shows_value requestCount (Add n)), (shows_value metadataRequestCount (Add n)).
  - by apply (shows_value peakResidentBytes (Raise n)).
  - by apply shows_record.
  - apply (shows_run_app [_]). cbn [map]. do 4 apply (shows_run_app [_]). apply (shows_run_app [_] (_ ++ _)), shows_run_app.
    pose (take k := set_counter k (effect (Add (rm_value inner k)))).
    change (AbsorbTransport inner rm) with
      (on_latency Requests (Histogram_Fold (rm_requestLatency inner)) (on_latency Opens (Histogram_Fold (rm_openLatency inner))
        (take redirectCount (take retryCount (take metadataRequestCount (take requestCount (take bytesTransferred
          (set_counter assetSize (effect (Raise (rm_value inner assetSize))) rm)))))))).
    apply (shows_fold Requests); [apply (Ht Requests)|]. apply (shows_fold Opens); [apply (Ht Opens)|].
    do 6 apply shows_value. exact Hs.
Qed.

Lemma fold_program_fits w other : Forall fits (fold_program w other).
Proof.
  apply Forall_app. split; [|by repeat constructor]. apply Forall_lookup. intros i cu.
  rewrite list_lookup_imap. by destruct (h_buckets other !! i); intros [= <-].
Qed.

Lemma program_fits t : task_ok t -> Forall fits (program t).
Proof.
  destruct t as [k n|n|n|w us|inner]; cbn [program task_ok]; intros Ht; try by repeat constructor.
  apply Forall_cons. split; [done|]. rewrite !Forall_app.
  split; [by repeat constructor|]. split; apply fold_program_fits.
Qed.

Definition programs_of (threads : list (list Task)) : list (list (Cell * AtomicUpdate)) :=
  map (fun l => concat (map program l)) threads.

Lemma programs_of_concat threads : concat (programs_of threads) = concat (map program (concat threads)).
Proof.
  unfold programs_of. induction threads as [|l threads IH]; [done|]. cbn [map concat].
  by rewrite IH, map_app, concat_app.
Qed.

Lemma shows_tasks l m rm :
  Forall task_ok l -> shows m rm -> shows (run (concat (map program l)) m) (fold_left perform l rm).
Proof.
  revert m rm. induction l as [|t l IH]; intros m rm Hl Hs; [done|]. inversion_clear Hl as [|?? Ht Hl'].
  cbn [map concat fold_left]. apply shows_run_app, IH, shows_task; done.
Qed.

(** C40: Threads that update the counters of one reader at the same time, with no
    lock, lose nothing and invent nothing.  Each thread runs any sequence of the
    members that add to a counter, raise a maximum, record a latency or absorb
    another reader, and their atomic accesses interleave in any order, the
    compare-and-exchange of a maximum failing whenever it likes.  When all are
    done, every counter and histogram is what the members leave when they run one
    after the other; and from every state on the way they can all finish. *)
Theorem concurrent_updates rm threads :
  let initial := (memory_of rm, start (programs_of threads)) in
  (forall w, length (h_buckets (latency_of w rm)) = kBucketCount) -> Forall (Forall task_ok) threads ->
  (forall m ts, rtc step initial (m, ts) -> finished ts -> shows m (fold_left perform (concat threads) rm)) /\
  (forall s, rtc step initial s -> exists s', rtc step s s' /\ finished (snd s')).
Proof.
  intros initial Hl Hok. assert (Forall task_ok (concat threads)) as Hc by by apply Forall_concat.
  split.
  - intros m ts Hr Hf. destruct (linearization _ _ _ _ Hr Hf) as (order & Hp & Hm).
    apply (shows_ext _ (run (concat (map program (concat threads))) (memory_of rm))).
    + intros c. rewrite Hm. unfold run. rewrite programs_of_concat in Hp.
      apply (effects_permutation c); [by apply at_cell_permutation|].
      apply at_cell_fits. rewrite Hp. apply Forall_concat, Forall_map.
      eapply Forall_impl; [exact Hc|]. apply program_fits.
    + by apply shows_tasks, shows_memory_of.
  - intros [m ts] _. destruct (can_finish m ts) as (m' & ts' & H & Hf). by exists (m', ts').
Qed.

(** ** An example: two threads race on one maximum *)

(** The steps a schedule names: which thread, and whether its exchange fails. *)
Fixpoint scheduled (l : list (nat * bool)) (s : State) : option State :=
  match l with
  | [] => Some s
  | (i, spurious) :: l' =>
      t ← snd s !! i;
      '(m', t') ← thread_step spurious (fst s) t;
      scheduled l' (m', <[i := t']> (snd s))
  end.

Lemma scheduled_steps l s s' : scheduled l s = Some s' -> rtc step s s'.
Proof.
  revert s. induction l as [|[i spurious] l IH]; intros [m ts]; cbn [scheduled fst snd]; [by intros [= <-]|].
  intros H. destruct (ts !! i) as [t|] eqn:Hi; [|done]. cbn in H.
  destruct (thread_step spurious m t) as [[m' t']|] eqn:Ht; [|done]. cbn in H.
  eapply rtc_l; [|by apply IH]. by eapply step_thread.
Qed.

(** Both threads load the peak; the second raises it, so that the first's
    exchange finds another value, loads again and leaves it. *)
Definition race : list (list Task) := [[TObserve 30; TLatency Reads 5]; [TObserve 70; TAdd bytesRequested 4]].

Definition race_schedule : list (nat * bool) :=
  [(0, false); (1, false); (1, true); (1, false); (0, false); (0, false); (1, false);
   (0, false); (0, false); (0, false); (0, false); (0, false)]%nat.

Definition race_start : State := (memory_of (ReaderMetrics_new []), start (programs_of race)).

Lemma race_finishes : exists m ts, scheduled race_schedule race_start = Some (m, ts) /\ finished ts.
Proof.
  assert (match scheduled race_schedule race_start with
          | Some (_, ts) => forallb (fun t => match th_todo t with [] => true | _ => false end) ts
          | None => false
          end = true) as H by (vm_compute; reflexivity).
  destruct (scheduled race_schedule race_start) as [[m ts]|]; [|done]. exists m, ts. split; [done|].
  apply Forall_forall. intros t Ht. rewrite forallb_forall in H. specialize (H t (proj1 (list_elem_of_In _ _) Ht)).
  by destruct (th_todo t).
Qed.

Lemma concurrent_updates_witness :
  exists m ts,
    scheduled race_schedule race_start = Some (m, ts) /\
    finished ts /\ m (Value peakResidentBytes) = 70 /\ histogram_at Reads m = record_all [5].
Proof.
  destruct (concurrent_updates (ReaderMetrics_new []) race) as [Hend _]; [by intros []|by repeat constructor|].
  destruct race_finishes as (m & ts & E & Hf). destruct (Hend m ts (scheduled_steps _ _ _ E) Hf) as [Hv Hh].
  exists m, ts. split; [exact E|]. split; [exact Hf|]. split.
  - rewrite (Hv peakResidentBytes). vm_compute. reflexivity.
  - rewrite (Hh Reads). vm_compute. reflexivity.
Defined.
