(* ===== verification/CacheOptions.v ===== *)
(** * CacheOptions: the cache's policy numbers and their normal form

    libs/usd-asset-cache: include/usdAssetCache/CacheOptions.h and
    src/CacheOptions.cpp. *)

From S2P Require Import Prelude.

Definition kMinBlockSize : Z := 4096.
Definition kMaxBlockSize : Z := 64 * 1024 * 1024.
Definition kDefaultBlockSize : Z := 64 * 1024.
Definition kDefaultBudgetBytes : Z := 128 * 1024 * 1024.
Definition kDefaultCoalesceGapBlocks : Z := 1.
Definition kDefaultMaxRequestBytes : Z := 8 * 1024 * 1024.
Definition kDefaultBypassThresholdBytes : Z := 1 * 1024 * 1024.

Record CacheOptions : Type := mkCacheOptions {
  co_blockSize : Z;
  co_budgetBytes : Z;
  co_coalesceGapBlocks : Z;
  co_maxRequestBytes : Z;
  co_bypassThresholdBytes : Z }.

#[export] Instance CacheOptions_eq_dec : EqDecision CacheOptions.
Proof. solve_decision. Defined.

Definition CacheOptions_default : CacheOptions :=
  mkCacheOptions kDefaultBlockSize kDefaultBudgetBytes kDefaultCoalesceGapBlocks
    kDefaultMaxRequestBytes kDefaultBypassThresholdBytes.

(** [while ((power << 1) <= value) power <<= 1]. *)
Fixpoint double_while (fuel : nat) (power value : Z) : Z :=
  match fuel with
  | O => power
  | S f => if u64 (Z.shiftl power 1) <=? value
           then double_while f (u64 (Z.shiftl power 1)) value else power
  end.

(** From [kMinBlockSize] to below [kMaxBlockSize] there are 14 doublings. *)
Definition RoundDownToPowerOfTwo (value : Z) : Z :=
  if value <? kMinBlockSize then kMinBlockSize
  else if value >=? kMaxBlockSize then kMaxBlockSize
  else double_while 14 kMinBlockSize value.

Definition Normalized (o : CacheOptions) : CacheOptions :=
  let blockSize := RoundDownToPowerOfTwo
    (if co_blockSize o =? 0 then kDefaultBlockSize else co_blockSize o) in
  let maxRequestBytes := Z.max (co_maxRequestBytes o) blockSize in
  let budgetBytes := Z.max (co_budgetBytes o) blockSize in
  let bypassThresholdBytes := Z.max (co_bypassThresholdBytes o) blockSize in
  let blocksPerRequest := maxRequestBytes / blockSize in
  let gapCeiling := if blocksPerRequest >=? 2 then blocksPerRequest - 2 else 0 in
  let coalesceGapBlocks :=
    if co_coalesceGapBlocks o >? gapCeiling
    then u32 (Z.min gapCeiling 0xFFFFFFFF) else co_coalesceGapBlocks o in
  mkCacheOptions blockSize budgetBytes coalesceGapBlocks maxRequestBytes bypassThresholdBytes.

Definition IsNormalized (o : CacheOptions) : bool :=
  let n := Normalized o in
  (co_blockSize n =? co_blockSize o) && (co_budgetBytes n =? co_budgetBytes o) &&
  (co_coalesceGapBlocks n =? co_coalesceGapBlocks o) &&
  (co_maxRequestBytes n =? co_maxRequestBytes o) &&
  (co_bypassThresholdBytes n =? co_bypassThresholdBytes o).

(** ** What normal options guarantee *)

(** The fields hold values of their C++ types. *)
Record options_typed (o : CacheOptions) : Prop := {
  ot_block : is_u64 (co_blockSize o);
  ot_budget : is_u64 (co_budgetBytes o);
  ot_gap : is_u32 (co_coalesceGapBlocks o);
  ot_request : is_u64 (co_maxRequestBytes o);
  ot_bypass : is_u64 (co_bypassThresholdBytes o) }.

Record normal_options (o : CacheOptions) : Prop := {
  no_power : exists k, 12 <= k <= 26 /\ co_blockSize o = 2 ^ k;
  no_budget : co_blockSize o <= co_budgetBytes o;
  no_request : co_blockSize o <= co_maxRequestBytes o;
  no_bypass : co_blockSize o <= co_bypassThresholdBytes o;
  no_gap : 0 < co_coalesceGapBlocks o ->
    (co_coalesceGapBlocks o + 2) * co_blockSize o <= co_maxRequestBytes o }.

(** The doubling loop stops at the power of two below [value]. *)
Lemma double_while_spec fuel k value :
  0 <= k -> k + Z.of_nat fuel <= 62 -> 2 ^ k <= value < 2 ^ (k + Z.of_nat fuel + 1) ->
  exists j, k <= j <= k + Z.of_nat fuel /\ double_while fuel (2 ^ k) value = 2 ^ j /\
            2 ^ j <= value < 2 ^ (j + 1).
Proof.
  revert k. induction fuel as [|f IH]; intros k Hk Hf Hv; cbn [double_while].
  { exists k. replace (k + Z.of_nat 0 + 1) with (k + 1) in Hv by lia. ands. }
  assert (u64 (Z.shiftl (2 ^ k) 1) = 2 ^ (k + 1)) as ->.
  { rewrite Z.shiftl_mul_pow2, <-Z.pow_add_r by lia. apply u64_small. unfold is_u64.
    split; [lia|]. apply Z.pow_lt_mono_r; lia. }
  destruct (Z.leb_spec (2 ^ (k + 1)) value) as [H|H].
  - destruct (IH (k + 1)) as (j & Hj & E & Hb); [lia|lia| |].
    { replace (k + 1 + Z.of_nat f + 1) with (k + Z.of_nat (S f) + 1) by lia. lia. }
    exists j. ands.
  - exists k. ands.
Qed.

Lemma RoundDown_spec value :
  exists k, 12 <= k <= 26 /\ RoundDownToPowerOfTwo value = 2 ^ k /\
    (kMinBlockSize <= value -> 2 ^ k <= value) /\
    (kMinBlockSize <= value < kMaxBlockSize -> value < 2 ^ (k + 1)).
Proof.
  unfold RoundDownToPowerOfTwo, kMinBlockSize, kMaxBlockSize.
  destruct (Z.ltb_spec value 4096); [exists 12; ands|].
  destruct (Z.geb_spec value (64 * 1024 * 1024)); [exists 26; ands|].
  destruct (double_while_spec 14 12 value) as (j & Hj & E & Hb); [lia..|].
  exists j. change 4096 with (2 ^ 12). ands.
Qed.

Lemma RoundDown_fixed k : 12 <= k <= 26 -> RoundDownToPowerOfTwo (2 ^ k) = 2 ^ k.
Proof.
  intros Hk. destruct (decide (k = 26)) as [->|]; [done|].
  destruct (RoundDown_spec (2 ^ k)) as (j & Hj & -> & H1 & H2).
  unfold kMinBlockSize, kMaxBlockSize in *.
  assert (2 ^ 12 <= 2 ^ k < 2 ^ 26)
    by (split; [apply Z.pow_le_mono_r|apply Z.pow_lt_mono_r]; lia).
  assert (j <= k) by (apply (Z.pow_le_mono_r_iff 2); lia).
  assert (k < j + 1) by (apply (Z.pow_lt_mono_r_iff 2); lia).
  f_equal. lia.
Qed.

(** The gap cap: [G + 2] blocks fit the request ceiling. *)
Lemma gap_cap gap bs maxr :
  0 < bs -> bs <= maxr -> 0 <= gap < 2 ^ 32 ->
  let ceiling := if maxr / bs >=? 2 then maxr / bs - 2 else 0 in
  let capped := if gap >? ceiling then u32 (Z.min ceiling 0xFFFFFFFF) else gap in
  0 <= capped < 2 ^ 32 /\ capped <= ceiling /\ (gap <= ceiling -> capped = gap) /\
  (0 < capped -> (capped + 2) * bs <= maxr).
Proof.
  intros Hb Hm Hg ceiling capped.
  assert (1 <= maxr / bs) by (apply Z.div_le_lower_bound; lia).
  assert (bs * (maxr / bs) <= maxr) by (apply Z.mul_div_le; lia).
  assert (0 <= ceiling /\ (0 < ceiling -> ceiling = maxr / bs - 2)) as [Hc0 Hc].
  { unfold ceiling. destruct (Z.geb_spec (maxr / bs) 2); lia. }
  assert (0 <= capped < 2 ^ 32 /\ capped <= ceiling /\ (gap <= ceiling -> capped = gap))
    as (H1 & H2 & H3).
  { unfold capped. destruct (Z.gtb_spec gap ceiling); [|lia].
    rewrite u32_small by (unfold is_u32; lia). lia. }
  ands. nia.
Qed.

Lemma Normalized_normal o : options_typed o -> normal_options (Normalized o).
Proof.
  intros [_ _ Hg _ _]. unfold Normalized.
  destruct (RoundDown_spec (if co_blockSize o =? 0 then kDefaultBlockSize else co_blockSize o))
    as (k & Hk & E & _). rewrite E.
  assert (2 ^ 12 <= 2 ^ k) by (apply Z.pow_le_mono_r; lia).
  destruct (gap_cap (co_coalesceGapBlocks o) (2 ^ k) (Z.max (co_maxRequestBytes o) (2 ^ k)))
    as (_ & _ & _ & Hcap); [lia|lia|done|].
  split; simpl; [by exists k|lia|lia|lia|done].
Qed.

Lemma Normalized_typed o : options_typed o -> options_typed (Normalized o).
Proof.
  intros [? ? Hg ? ?]. unfold Normalized.
  destruct (RoundDown_spec (if co_blockSize o =? 0 then kDefaultBlockSize else co_blockSize o))
    as (k & Hk & E & _). rewrite E.
  assert (2 ^ 12 <= 2 ^ k <= 2 ^ 26) by (split; apply Z.pow_le_mono_r; lia).
  destruct (gap_cap (co_coalesceGapBlocks o) (2 ^ k) (Z.max (co_maxRequestBytes o) (2 ^ k)))
    as (Hcap & _); [lia|lia|done|].
  unfold is_u64 in *. split; simpl; unfold is_u64; [lia|lia|done|lia|lia].
Qed.

Lemma Normalized_id o : options_typed o -> normal_options o -> Normalized o = o.
Proof.
  intros Ht [(k & Hk & E) Hb Hr Hy Hg]. unfold Normalized.
  assert (2 ^ 12 <= 2 ^ k) by (apply Z.pow_le_mono_r; lia).
  destruct (Z.eqb_spec (co_blockSize o) 0); [lia|].
  rewrite E, RoundDown_fixed by done. rewrite E in *.
  rewrite !Z.max_l by lia. destruct (gap_cap (co_coalesceGapBlocks o) (2 ^ k) (co_maxRequestBytes o))
    as (_ & _ & Hcap & _); [lia|lia|apply Ht|].
  rewrite Hcap; [destruct o; simpl in *; by subst|].
  destruct Ht as [_ _ [Ht _] _ _]. destruct (decide (co_coalesceGapBlocks o = 0)) as [->|];
    [destruct (_ >=? _) eqn:?; lia|].
  assert (co_coalesceGapBlocks o + 2 <= co_maxRequestBytes o / 2 ^ k)
    by (apply Z.div_le_lower_bound; lia).
  destruct (Z.geb_spec (co_maxRequestBytes o / 2 ^ k) 2); lia.
Qed.

Lemma IsNormalized_eq o : IsNormalized o = true <-> Normalized o = o.
Proof.
  unfold IsNormalized. rewrite !andb_true_iff, !Z.eqb_eq.
  destruct (Normalized o), o; simpl. naive_solver.
Qed.

(** Normalizing options yields what the cache relies on (a power-of-two block
    size between its limits, budgets and thresholds of at least a block, a gap a
    request can hold), normalizing again changes nothing, and the options
    reported as normal are exactly those. *)
Theorem Normalized_spec o :
  options_typed o ->
  normal_options (Normalized o) /\ IsNormalized (Normalized o) = true /\
  (normal_options o <-> IsNormalized o = true).
Proof.
  intros Ht. pose proof (Normalized_normal o Ht) as Hn.
  pose proof (Normalized_typed o Ht) as Ht'. split; [done|].
  rewrite !IsNormalized_eq. split; [by apply Normalized_id|].
  split; [by apply Normalized_id|]. by intros <-.
Qed.
