(* ===== verification/CacheKey.v ===== *)
(** * CacheKey: what a cached block is stored under

    libs/usd-asset-cache: include/usdAssetCache/CacheKey.h and
    src/CacheKey.cpp.  The hash functions are the keys of [std::unordered_map]
    buckets and nothing else, so [std::hash] stays a parameter of them. *)

From S2P Require Import Prelude Validator.

Record AssetIdentity : Type := mkAssetIdentity {
  ai_resolvedIdentifier : str;
  ai_validator : str;
  ai_blockSize : Z }.

#[export] Instance AssetIdentity_eq_dec : EqDecision AssetIdentity.
Proof. solve_decision. Defined.

#[export] Instance AssetIdentity_countable : Countable AssetIdentity.
Proof.
  refine (inj_countable' (fun i => (ai_resolvedIdentifier i, ai_validator i, ai_blockSize i))
            (fun '(r, v, b) => mkAssetIdentity r v b) _). by intros [].
Defined.

(** [operator==], in the source's order of comparison. *)
Definition AssetIdentity_eqb (lhs rhs : AssetIdentity) : bool :=
  (ai_blockSize lhs =? ai_blockSize rhs) &&
  str_eqb (ai_resolvedIdentifier lhs) (ai_resolvedIdentifier rhs) &&
  str_eqb (ai_validator lhs) (ai_validator rhs).

Record CacheKey : Type := mkCacheKey {
  ck_identity : AssetIdentity;
  ck_blockIndex : Z }.

Definition CacheKey_eqb (lhs rhs : CacheKey) : bool :=
  (ck_blockIndex lhs =? ck_blockIndex rhs) &&
  AssetIdentity_eqb (ck_identity lhs) (ck_identity rhs).

Definition HashCombine (seed value : Z) : Z :=
  Z.lxor seed
    (u64 (value + 0x9E3779B97F4A7C15 + u64 (Z.shiftl seed 6) + Z.shiftr seed 2)).

Section hash.
Context (hash_string : str -> Z) (hash_u64 : Z -> Z).

Definition HashAssetIdentity (identity : AssetIdentity) : Z :=
  let seed := hash_string (ai_resolvedIdentifier identity) in
  let seed := HashCombine seed (hash_string (ai_validator identity)) in
  HashCombine seed (hash_u64 (ai_blockSize identity)).

Definition HashCacheKey (key : CacheKey) : Z :=
  HashCombine (HashAssetIdentity (ck_identity key)) (hash_u64 (ck_blockIndex key)).
End hash.

Definition IsShareable (v : Validator) : bool :=
  IsUsable v && bool_decide (v_strength v = Strong).

(** ** Lemmas *)

Lemma AssetIdentity_eqb_eq a b : AssetIdentity_eqb a b = true <-> a = b.
Proof.
  unfold AssetIdentity_eqb. rewrite !andb_true_iff, Z.eqb_eq, !str_eqb_eq.
  destruct a, b; simpl. naive_solver.
Qed.

Lemma CacheKey_eqb_eq a b : CacheKey_eqb a b = true <-> a = b.
Proof.
  unfold CacheKey_eqb. rewrite andb_true_iff, Z.eqb_eq, AssetIdentity_eqb_eq.
  destruct a, b; simpl. naive_solver.
Qed.

(** What may be shared is exactly what is stable. *)
Lemma IsShareable_Stable v : IsShareable v = true <-> ClassifyStability v = Stable.
Proof.
  rewrite ClassifyStability_Stable. unfold IsShareable, IsUsable.
  rewrite andb_true_iff, negb_true_iff, bool_decide_eq_false, bool_decide_eq_true. done.
Qed.
