(* ===== verification/BlockPlan.v ===== *)
(** * BlockPlan: block arithmetic and fetch coalescing

    libs/usd-asset-cache: src/BlockPlan.h and src/BlockPlan.cpp.  The
    arithmetic is at 64 bits, every wrap written out; the lemmas show that for
    blocks of an asset nothing wraps, so the planned runs are the intervals
    the comments describe. *)

From S2P Require Import Prelude.

Record BlockSpan : Type := mkBlockSpan { bs_first : Z; bs_last : Z }.

Definition Count (s : BlockSpan) : Z := u64 (bs_last s - bs_first s + 1).

Definition CoveringBlocks (offset length blockSize : Z) : BlockSpan :=
  mkBlockSpan (offset / blockSize) (u64 (offset + length - 1) / blockSize).

Record BlockExtent : Type := mkBlockExtent { be_offset : Z; be_length : Z }.

Definition ExtentOf (blockIndex blockSize assetSize : Z) : BlockExtent :=
  let offset := u64 (blockIndex * blockSize) in
  if offset >=? assetSize then mkBlockExtent offset 0
  else
    let remaining := u64 (assetSize - offset) in
    mkBlockExtent offset (Z.min blockSize remaining).

Record FetchRun : Type := mkFetchRun {
  fr_firstBlock : Z;
  fr_blockCount : Z;
  fr_offset : Z;
  fr_length : Z }.

(** The [close] lambda of [PlanRuns]. *)
Definition close_run (blockSize assetSize first last : Z) : FetchRun :=
  let b := ExtentOf first blockSize assetSize in
  let e := ExtentOf last blockSize assetSize in
  mkFetchRun first (u64 (last - first + 1)) (be_offset b)
    (u64 (u64 (be_offset e + be_length e) - be_offset b)).

(** The loop of [PlanRuns] over [blocks\[1..\]], with the open run
    [first, last]. *)
Fixpoint plan_loop (blockSize assetSize coalesceGapBlocks maxRequestBytes first last : Z)
    (blocks : list Z) : list FetchRun :=
  match blocks with
  | [] => [close_run blockSize assetSize first last]
  | next :: rest =>
      let gap := u64 (next - last - 1) in
      let b := ExtentOf first blockSize assetSize in
      let e := ExtentOf next blockSize assetSize in
      let merged := u64 (u64 (be_offset e + be_length e) - be_offset b) in
      if (gap <=? coalesceGapBlocks) && (merged <=? maxRequestBytes)
      then plan_loop blockSize assetSize coalesceGapBlocks maxRequestBytes first next rest
      else close_run blockSize assetSize first last ::
           plan_loop blockSize assetSize coalesceGapBlocks maxRequestBytes next next rest
  end.

Definition PlanRuns (blocks : list Z) (blockSize assetSize coalesceGapBlocks maxRequestBytes : Z)
    : list FetchRun :=
  match blocks with
  | [] => []
  | first :: rest =>
      plan_loop blockSize assetSize coalesceGapBlocks maxRequestBytes first first rest
  end.

Definition OverFetchedBytes (run : FetchRun) (takenBytes : Z) : Z :=
  if takenBytes <? fr_length run then u64 (fr_length run - takenBytes) else 0.

(** ** Blocks of an asset *)

Section asset.
Context (blockSize assetSize : Z) (Hblock : 0 < blockSize) (Hasset : is_u64 assetSize).

(** [i] is a block of the asset: it holds at least one of its bytes. *)
Definition in_asset (i : Z) : Prop := 0 <= i /\ i * blockSize < assetSize.

(** The end of a block, clamped to the asset. *)
Definition block_end (i : Z) : Z := Z.min assetSize ((i + 1) * blockSize).

Lemma ExtentOf_spec i :
  in_asset i ->
  ExtentOf i blockSize assetSize = mkBlockExtent (i * blockSize) (block_end i - i * blockSize).
Proof.
  intros [Hi Ha]. unfold ExtentOf, is_u64 in *.
  rewrite (u64_small (i * blockSize)) by (unfold is_u64; nia).
  destruct (Z.geb_spec (i * blockSize) assetSize); [lia|].
  rewrite u64_small by (unfold is_u64; nia).
  f_equal. unfold block_end. lia.
Qed.

Lemma block_end_gt i : in_asset i -> i * blockSize < block_end i.
Proof. unfold in_asset, block_end. nia. Qed.

Lemma block_end_mono i j : i <= j -> block_end i <= block_end j.
Proof. unfold block_end. nia. Qed.

Lemma in_asset_le i j : in_asset j -> 0 <= i <= j -> in_asset i.
Proof. unfold in_asset. nia. Qed.

(** The interval a run covers: from the start of its first block to the end of
    its last. *)
Definition run_spec (first last : Z) : FetchRun :=
  mkFetchRun first (last - first + 1) (first * blockSize) (block_end last - first * blockSize).

Lemma extent_end first last :
  in_asset first -> in_asset last -> first <= last ->
  u64 (u64 (be_offset (ExtentOf last blockSize assetSize) + be_length (ExtentOf last blockSize assetSize))
       - be_offset (ExtentOf first blockSize assetSize)) = block_end last - first * blockSize.
Proof.
  intros Hf Hl Hle. rewrite !ExtentOf_spec by done. simpl.
  replace (last * blockSize + (block_end last - last * blockSize)) with (block_end last) by lia.
  pose proof (block_end_gt last Hl). pose proof (block_end_mono first last Hle).
  pose proof (block_end_gt first Hf). destruct Hf, Hl. unfold is_u64, block_end in *.
  rewrite (u64_small (_ `min` _)) by (unfold is_u64; nia).
  apply u64_small. unfold is_u64. nia.
Qed.

Lemma close_run_spec first last :
  in_asset first -> in_asset last -> first <= last ->
  close_run blockSize assetSize first last = run_spec first last.
Proof.
  intros Hf Hl Hle. unfold close_run. rewrite extent_end by done.
  rewrite (ExtentOf_spec first) by done. simpl. unfold run_spec. f_equal.
  apply u64_small. destruct Hf, Hl. unfold is_u64 in *. nia.
Qed.

(** ** The plan as a greedy grouping

    The blocks are cut, in order, into groups; each group is one run.  A group
    has no hole wider than the gap and fits the request ceiling (or is a single
    block), and no group could have taken the first block of the next one. *)

Context (gap maxr : Z).

Definition first_of (g : list Z) : Z := default 0 (head g).

Definition last_of (g : list Z) : Z := default 0 (last g).

Definition run_of (g : list Z) : FetchRun := run_spec (first_of g) (last_of g).

Definition near (x y : Z) : Prop := y - x - 1 <= gap.

Definition fits (first last : Z) : Prop := block_end last - first * blockSize <= maxr.

Record group_ok (g : list Z) : Prop := {
  go_nonempty : g <> [];
  go_gaps : Sorted near g;
  go_size : length g = 1%nat \/ fits (first_of g) (last_of g) }.

Definition cannot_merge (g1 g2 : list Z) : Prop :=
  ~ (near (last_of g1) (first_of g2) /\ fits (first_of g1) (first_of g2)).

Lemma Sorted_snoc {A} (R : A -> A -> Prop) l x y :
  Sorted R l -> last l = Some x -> R x y -> Sorted R (l ++ [y]).
Proof.
  induction 1 as [|a l Hs IH Hd]; intros Hl Hr; [done|]. simpl.
  destruct l as [|b l]; simpl in *.
  { injection Hl as ->. repeat constructor. done. }
  constructor; [by apply IH|]. constructor. by inversion Hd.
Qed.

Lemma last_of_snoc g x : last_of (g ++ [x]) = x.
Proof. unfold last_of. by rewrite last_snoc. Qed.

Lemma first_of_app a g l : first_of ((a :: g) ++ l) = first_of (a :: g).
Proof. done. Qed.

Lemma last_of_some a g : last (a :: g) = Some (last_of (a :: g)).
Proof.
  unfold last_of. destruct (last (a :: g)) eqn:E; [done|].
  by apply last_None in E.
Qed.

Lemma last_of_elem a g : last_of (a :: g) ∈ a :: g.
Proof. apply last_Some_elem_of, last_of_some. Qed.

(** Strictly ascending blocks of the asset. *)
Definition ascending (l : list Z) : Prop := StronglySorted Z.lt l /\ Forall in_asset l.

Lemma ascending_bound a g next rest :
  ascending ((a :: g) ++ next :: rest) ->
  in_asset a /\ in_asset (last_of (a :: g)) /\ in_asset next /\
  a <= last_of (a :: g) /\ last_of (a :: g) < next.
Proof.
  intros [Hs Hf]. rewrite Forall_forall in Hf.
  assert (a < next /\ last_of (a :: g) < next) as [? ?].
  { split; eapply StronglySorted_app_1_elem_of; eauto using last_of_elem; set_solver. }
  pose proof (last_of_elem a g) as Hl.
  split; [apply Hf; set_solver|]. split; [apply Hf; set_solver|]. split; [apply Hf; set_solver|].
  split; [|done]. apply elem_of_cons in Hl as [->|Hl]; [done|].
  simpl in Hs. apply StronglySorted_inv in Hs as [_ Hs]. rewrite Forall_forall in Hs.
  apply Z.lt_le_incl, Hs. set_solver.
Qed.

Lemma ascending_snoc a g :
  ascending (a :: g) -> in_asset a /\ in_asset (last_of (a :: g)) /\ a <= last_of (a :: g).
Proof.
  intros [Hs Hf]. rewrite Forall_forall in Hf. pose proof (last_of_elem a g) as Hl.
  split; [apply Hf; set_solver|]. split; [by apply Hf|].
  apply elem_of_cons in Hl as [->|Hl]; [done|].
  apply StronglySorted_inv in Hs as [_ Hs]. rewrite Forall_forall in Hs. by apply Z.lt_le_incl, Hs.
Qed.

Lemma plan_loop_groups rest a g :
  0 <= gap ->
  ascending ((a :: g) ++ rest) -> group_ok (a :: g) ->
  exists g' gs,
    concat (((a :: g) ++ g') :: gs) = (a :: g) ++ rest /\
    plan_loop blockSize assetSize gap maxr a (last_of (a :: g)) rest
      = map run_of (((a :: g) ++ g') :: gs) /\
    Forall group_ok (((a :: g) ++ g') :: gs) /\
    Sorted cannot_merge (((a :: g) ++ g') :: gs).
Proof.
  intros Hgap. revert a g. induction rest as [|next rest IH]; intros a g Hasc Hg.
  { exists [], []. rewrite app_nil_r in *. apply ascending_snoc in Hasc as (? & ? & ?).
    cbn [plan_loop concat map]. rewrite close_run_spec by done. rewrite app_nil_r.
    split_and!; [done..|by constructor|by repeat constructor]. }
  destruct (ascending_bound _ _ _ _ Hasc) as (Ha & Hl & Hn & Hle & Hlt).
  cbn [plan_loop]. rewrite extent_end by (done || lia).
  rewrite u64_small by (destruct Hl, Hn; unfold is_u64 in *; nia).
  destruct (_ && _) eqn:E; rewrite ?andb_true_iff, ?andb_false_iff, ?Z.leb_le, ?Z.leb_gt in E.
  - destruct (IH a (g ++ [next])) as (g' & gs & H1 & H2 & H3 & H4).
    { by rewrite app_comm_cons, <-app_assoc. }
    { destruct Hg as [_ Hs _]. split; [done| |].
      - apply (Sorted_snoc near (a :: g) (last_of (a :: g))); [done|apply last_of_some|apply E].
      - right. rewrite app_comm_cons, last_of_snoc. apply E. }
    exists (next :: g'), gs. rewrite (app_comm_cons g), last_of_snoc, <-!app_assoc in *.
    exact (conj H1 (conj H2 (conj H3 H4))).
  - destruct (IH next []) as (g' & gs & H1 & H2 & H3 & H4).
    { destruct Hasc as [Hs Hf]. split; [by eapply StronglySorted_app_1_r|].
      by apply Forall_app in Hf as [_ ?]. }
    { split; [done|repeat constructor|by left]. }
    exists [], (([next] ++ g') :: gs). rewrite app_nil_r, close_run_spec by done.
    split; [cbn [concat] in *; by rewrite H1|]. split; [cbn [map] in *; by rewrite <-H2|].
    split; [by constructor|]. constructor; [done|constructor].
    intros [Hn1 Hn2]. unfold near, fits, first_of in *. simpl in *. lia.
Qed.

Lemma PlanRuns_groups blocks :
  0 <= gap -> ascending blocks ->
  exists groups,
    concat groups = blocks /\
    PlanRuns blocks blockSize assetSize gap maxr = map run_of groups /\
    Forall group_ok groups /\ Sorted cannot_merge groups.
Proof.
  intros Hgap Hasc. destruct blocks as [|a rest]; [by exists []; repeat constructor|].
  destruct (plan_loop_groups rest a []) as (g' & gs & H1 & H2 & H3 & H4); [done..| |].
  { split; [done|repeat constructor|by left]. }
  by exists (([a] ++ g') :: gs).
Qed.

(** ** The cover of a read *)

Lemma CoveringBlocks_spec offset length :
  0 <= offset -> 0 < length -> offset + length <= assetSize ->
  CoveringBlocks offset length blockSize
  = mkBlockSpan (offset / blockSize) ((offset + length - 1) / blockSize).
Proof.
  intros. unfold CoveringBlocks, is_u64 in *. by rewrite u64_small by (unfold is_u64; lia).
Qed.

(** The part of block [i] inside [offset, offset + length). *)
Definition overlap (offset length i : Z) : Z :=
  Z.max 0 (Z.min (offset + length) (block_end i) - Z.max offset (i * blockSize)).

Lemma span_in_asset offset length i :
  0 <= offset -> 0 < length -> offset + length <= assetSize ->
  offset / blockSize <= i <= (offset + length - 1) / blockSize -> in_asset i.
Proof.
  intros Ho Hl Ha [H1 H2]. assert (0 <= offset / blockSize) by (apply Z.div_pos; lia).
  assert (blockSize * ((offset + length - 1) / blockSize) <= offset + length - 1)
    by (apply Z.mul_div_le; lia).
  split; [lia|nia].
Qed.

(** A block is in the span exactly when it holds a byte of the read. *)
Lemma span_exact offset length i :
  0 <= offset -> 0 < length -> offset + length <= assetSize -> 0 <= i ->
  offset / blockSize <= i <= (offset + length - 1) / blockSize <->
  exists b, offset <= b < offset + length /\ i * blockSize <= b < (i + 1) * blockSize.
Proof.
  intros Ho Hl Ha Hi.
  pose proof (Z.div_mod offset blockSize). pose proof (Z.div_mod (offset + length - 1) blockSize).
  pose proof (Z.mod_pos_bound offset blockSize Hblock).
  pose proof (Z.mod_pos_bound (offset + length - 1) blockSize Hblock).
  split.
  - intros [H3 H4]. exists (Z.max offset (i * blockSize)). nia.
  - intros (b & Hb & Hi').
    assert (i = b / blockSize) as ->.
    { apply Z.div_unique_pos with (b - i * blockSize); lia. }
    split; apply Z.div_le_mono; lia.
Qed.

(** The overlaps of consecutive blocks telescope. *)
Lemma overlap_sum offset length first n :
  0 <= offset -> 0 < length -> offset + length <= assetSize -> 0 <= first ->
  first * blockSize <= offset ->
  zsum (overlap offset length) (seqZ first (Z.of_nat n))
  = Z.max 0 (Z.min (offset + length) ((first + Z.of_nat n) * blockSize) - offset).
Proof.
  intros Ho Hl Ha Hf Hfo. induction n as [|n IH]; [simpl; lia|].
  rewrite seqZ_S, zsum_app, IH. cbn [zsum foldr].
  unfold overlap, block_end. nia.
Qed.

Lemma overlap_span_sum offset length :
  0 <= offset -> 0 < length -> offset + length <= assetSize ->
  zsum (overlap offset length)
    (seqZ (offset / blockSize) ((offset + length - 1) / blockSize - offset / blockSize + 1)) = length.
Proof.
  intros Ho Hl Ha.
  assert (offset / blockSize <= (offset + length - 1) / blockSize)
    by (apply Z.div_le_mono; lia).
  pose proof (Z.div_mod offset blockSize). pose proof (Z.div_mod (offset + length - 1) blockSize).
  pose proof (Z.mod_pos_bound offset blockSize Hblock).
  pose proof (Z.mod_pos_bound (offset + length - 1) blockSize Hblock).
  rewrite <-(Z2Nat.id ((offset + length - 1) / blockSize - offset / blockSize + 1)) by lia.
  rewrite overlap_sum; [|lia..|apply Z.div_pos; lia|nia].
  rewrite Z2Nat.id by lia. nia.
Qed.

End asset.

(** C38: the plan of a fetch is the greedy grouping of the missing blocks: the runs
    cover exactly the blocks asked for, in order, each run is the byte range from
    its first block to its last within the gap and request limits, and no two
    neighbouring runs could have been one. *)
Theorem PlanRuns_spec blockSize assetSize gap maxr blocks :
  0 < blockSize -> is_u64 assetSize -> 0 <= gap ->
  ascending blockSize assetSize blocks ->
  exists groups,
    concat groups = blocks /\
    PlanRuns blocks blockSize assetSize gap maxr = map (run_of blockSize assetSize) groups /\
    Forall (group_ok blockSize assetSize gap maxr) groups /\
    Sorted (cannot_merge blockSize assetSize gap maxr) groups.
Proof. intros. by apply PlanRuns_groups. Qed.

(** The covering span of a range is exact: a block is in it if and only if it
    holds a byte of the range, and the parts of the range the blocks of the span
    hold add up to the range. *)
Theorem CoveringBlocks_exact blockSize assetSize offset length i :
  0 < blockSize -> is_u64 assetSize -> 0 <= offset -> 0 < length ->
  offset + length <= assetSize -> 0 <= i ->
  let span := CoveringBlocks offset length blockSize in
  (bs_first span <= i <= bs_last span <->
   exists b, offset <= b < offset + length /\ i * blockSize <= b < (i + 1) * blockSize) /\
  zsum (overlap blockSize assetSize offset length) (seqZ (bs_first span) (Count span)) = length.
Proof.
  intros Hb Ha Ho Hl Hr Hi span. unfold span.
  rewrite (CoveringBlocks_spec blockSize assetSize) by done. simpl.
  split; [by apply (span_exact blockSize assetSize)|].
  unfold Count. simpl. rewrite u64_small; [by apply overlap_span_sum|].
  assert (0 <= offset / blockSize) by (apply Z.div_pos; lia).
  assert (offset / blockSize <= (offset + length - 1) / blockSize) by (apply Z.div_le_mono; lia).
  assert ((offset + length - 1) / blockSize <= offset + length - 1) by (apply Z.div_le_upper_bound; nia).
  unfold is_u64 in *. lia.
Qed.
