(* ===== verification/BlockCache.v ===== *)
(** * BlockCache: the process-wide block store

    libs/usd-asset-cache: include/usdAssetCache/BlockCache.h and
    src/BlockCache.cpp.  A shard is the source's [Shard] without its mutex and
    condition variable: each operation below is the critical section the
    source runs under that mutex, so it is one atomic step; a wait on the
    condition variable is a result of [shard_await].  The LRU list is a list of
    keys, most recent first, and an [lruIt] iterator is the position of the
    entry's own key in it, which the invariant makes unique. *)

From S2P Require Import Prelude Validator CacheKey CacheOptions.

Record ShardKey : Type := mkShardKey { sk_identityId : Z; sk_blockIndex : Z }.

#[export] Instance ShardKey_eq_dec : EqDecision ShardKey.
Proof. solve_decision. Defined.

#[export] Instance ShardKey_countable : Countable ShardKey.
Proof.
  refine (inj_countable' (fun k => (sk_identityId k, sk_blockIndex k))
            (fun '(i, b) => mkShardKey i b) _). by intros [].
Defined.

Definition Mix (value : Z) : Z :=
  let value := u64 (value + 0x9E3779B97F4A7C15) in
  let value := u64 (Z.lxor value (Z.shiftr value 30) * 0xBF58476D1CE4E5B9) in
  let value := u64 (Z.lxor value (Z.shiftr value 27) * 0x94D049BB133111EB) in
  Z.lxor value (Z.shiftr value 31).

Definition ShardKeyHash (key : ShardKey) : Z :=
  Mix (Z.lxor (sk_identityId key) (Mix (sk_blockIndex key))).

Record Entry : Type := mkEntry {
  en_block : option bytes;
  en_pending : bool;
  en_bytes : Z;
  en_inLru : bool }.

Record Shard : Type := mkShard {
  sh_entries : gmap ShardKey Entry;
  sh_lru : list ShardKey;
  sh_residentBytes : Z;
  sh_evictions : Z;
  sh_peakResidentBytes : Z }.

Definition Shard_empty : Shard := mkShard ∅ [] 0 0 0.

(** [while (count < 64 && count * 2 <= desired) count *= 2], from 1: at most
    six turns. *)
Fixpoint shard_count_loop (fuel : nat) (count desired : Z) : Z :=
  match fuel with
  | O => count
  | S f => if (count <? 64) && (count * 2 <=? desired)
           then shard_count_loop f (u32 (count * 2)) desired else count
  end.

Definition ChooseShardCount (budgetBytes blockSize : Z) : Z :=
  let desired := if blockSize >? 0 then budgetBytes / u64 (blockSize * 8) else 1 in
  shard_count_loop 6 1 desired.

(** [BlockCache::Impl]. *)
Record Store : Type := mkStore {
  s_options : CacheOptions;
  s_shards : list Shard;
  s_shardMask : Z;
  s_shardBudget : Z;
  s_residentTotal : Z;
  s_identities : gmap AssetIdentity Z;
  s_nextIdentityId : Z;
  s_liveBindings : Z }.

(** [Impl::ResetLocked]: the identity counter and the binding count survive. *)
Definition ResetLocked (requested : CacheOptions) (st : Store) : Store :=
  let options := Normalized requested in
  let count := ChooseShardCount (co_budgetBytes options) (co_blockSize options) in
  mkStore options (replicate (Z.to_nat count) Shard_empty) (count - 1)
    (Z.max (co_budgetBytes options / count) (co_blockSize options))
    0 ∅ (s_nextIdentityId st) (s_liveBindings st).

(** The constructor: member initializers, then [Reset]. *)
Definition BlockCache_new (requested : CacheOptions) : Store :=
  ResetLocked requested (mkStore CacheOptions_default [] 0 0 0 ∅ 1 0).

Definition ShardFor (st : Store) (key : ShardKey) : nat :=
  Z.to_nat (Z.land (ShardKeyHash key) (s_shardMask st)).

(** ** Operations on one stripe *)

(** The loop of [EvictLocked].  Every turn pops the list, so its length is
    fuel enough. *)
Fixpoint evict_loop (fuel : nat) (budget : Z) (sh : Shard) (total evicted : Z)
    : Shard * Z * Z :=
  match fuel with
  | O => (sh, total, evicted)
  | S f =>
      match last (sh_lru sh) with
      | Some victim =>
          if (sh_residentBytes sh >? budget) && (1 <? length (sh_lru sh))%nat then
            let lru := removelast (sh_lru sh) in
            let '(entries, resident, total) :=
              match sh_entries sh !! victim with
              | Some e => (delete victim (sh_entries sh),
                           u64 (sh_residentBytes sh - en_bytes e),
                           u64 (total - en_bytes e))
              | None => (sh_entries sh, sh_residentBytes sh, total)
              end in
            evict_loop f budget
              (mkShard entries lru resident (u64 (sh_evictions sh + 1)) (sh_peakResidentBytes sh))
              total (evicted + 1)
          else (sh, total, evicted)
      | None => (sh, total, evicted)
      end
  end.

Definition EvictLocked (sh : Shard) (budget total : Z) : Shard * Z * Z :=
  evict_loop (length (sh_lru sh)) budget sh total 0.

(** [splice] moves the entry's own node to the front. *)
Definition TouchLocked (key : ShardKey) (e : Entry) (sh : Shard) : Shard :=
  if negb (en_inLru e) then sh
  else mkShard (sh_entries sh) (key :: filter (fun k => k <> key) (sh_lru sh))
         (sh_residentBytes sh) (sh_evictions sh) (sh_peakResidentBytes sh).

Inductive Acquisition : Type :=
| Hit (block : option bytes)
| Owned
| Busy.

Definition shard_acquire (key : ShardKey) (sh : Shard) : Acquisition * Shard :=
  match sh_entries sh !! key with
  | None =>
      (Owned, mkShard (<[key := mkEntry None true 0 false]> (sh_entries sh)) (sh_lru sh)
                (sh_residentBytes sh) (sh_evictions sh) (sh_peakResidentBytes sh))
  | Some e =>
      if en_pending e then (Busy, sh)
      else (Hit (en_block e), TouchLocked key e sh)
  end.

(** One turn of the loop of [Await]: [None] is [published.wait], [Some] the
    value it returns. *)
Definition shard_await (key : ShardKey) (sh : Shard) : option (option bytes) * Shard :=
  match sh_entries sh !! key with
  | None => (Some None, sh)
  | Some e =>
      if en_pending e then (None, sh)
      else (Some (en_block e), TouchLocked key e sh)
  end.

Definition shard_publish (key : ShardKey) (data : bytes) (budget total : Z) (sh : Shard)
    : Shard * Z * Z :=
  match sh_entries sh !! key with
  | None => (sh, total, 0)
  | Some e =>
      if negb (en_pending e) then (sh, total, 0)
      else
        let resident := u64 (sh_residentBytes sh + zlen data) in
        EvictLocked
          (mkShard (<[key := mkEntry (Some data) false (zlen data) true]> (sh_entries sh))
             (key :: sh_lru sh) resident (sh_evictions sh)
             (Z.max (sh_peakResidentBytes sh) resident))
          budget (u64 (total + zlen data))
  end.

Definition shard_abandon (key : ShardKey) (sh : Shard) : Shard :=
  match sh_entries sh !! key with
  | Some e =>
      if en_pending e
      then mkShard (delete key (sh_entries sh)) (sh_lru sh) (sh_residentBytes sh)
             (sh_evictions sh) (sh_peakResidentBytes sh)
      else sh
  | None => sh
  end.

(** One turn of the loop of [~Binding] over the entries of a stripe. *)
Definition close_entry (id : Z) (acc : Shard * Z) (kv : ShardKey * Entry) : Shard * Z :=
  let '(sh, total) := acc in
  let '(k, e) := kv in
  if negb (sk_identityId k =? id) then (sh, total)
  else if en_inLru e then
    (mkShard (delete k (sh_entries sh)) (filter (fun k' => k' <> k) (sh_lru sh))
       (u64 (sh_residentBytes sh - en_bytes e)) (sh_evictions sh) (sh_peakResidentBytes sh),
     u64 (total - en_bytes e))
  else
    (mkShard (delete k (sh_entries sh)) (sh_lru sh) (sh_residentBytes sh) (sh_evictions sh)
       (sh_peakResidentBytes sh), total).

Definition shard_close (id : Z) (sh : Shard) (total : Z) : Shard * Z :=
  foldl (close_entry id) (sh, total) (map_to_list (sh_entries sh)).

(** ** Operations on the store *)

Definition set_shard (st : Store) (i : nat) (sh : Shard) (total : Z) : Store :=
  mkStore (s_options st) (<[i := sh]> (s_shards st)) (s_shardMask st) (s_shardBudget st) total
    (s_identities st) (s_nextIdentityId st) (s_liveBindings st).

(** [BlockCache::Binding::Impl], its store apart. *)
Record Binding : Type := mkBinding {
  b_identity : AssetIdentity;
  b_identityId : Z;
  b_isPrivate : bool }.

Definition Bind (st : Store) (resolvedIdentifier : str) (validator : Validator) (blockSize : Z)
    : Binding * Store :=
  let identity := mkAssetIdentity resolvedIdentifier (v_value validator) blockSize in
  let isPrivate := negb (IsShareable validator) in
  let live := u64 (s_liveBindings st + 1) in
  let fresh identities :=
    (mkBinding identity (s_nextIdentityId st) isPrivate,
     mkStore (s_options st) (s_shards st) (s_shardMask st) (s_shardBudget st)
       (s_residentTotal st) identities (u64 (s_nextIdentityId st + 1)) live) in
  if isPrivate then fresh (s_identities st)
  else match s_identities st !! identity with
       | Some id =>
           (mkBinding identity id isPrivate,
            mkStore (s_options st) (s_shards st) (s_shardMask st) (s_shardBudget st)
              (s_residentTotal st) (s_identities st) (s_nextIdentityId st) live)
       | None => fresh (<[identity := s_nextIdentityId st]> (s_identities st))
       end.

Definition key_of (b : Binding) (blockIndex : Z) : ShardKey :=
  mkShardKey (b_identityId b) blockIndex.

Definition Acquire (b : Binding) (blockIndex : Z) (st : Store) : Acquisition * Store :=
  let key := key_of b blockIndex in
  let i := ShardFor st key in
  match s_shards st !! i with
  | Some sh => let '(r, sh') := shard_acquire key sh in (r, set_shard st i sh' (s_residentTotal st))
  | None => (Busy, st)
  end.

Definition Await (b : Binding) (blockIndex : Z) (st : Store) : option (option bytes) * Store :=
  let key := key_of b blockIndex in
  let i := ShardFor st key in
  match s_shards st !! i with
  | Some sh => let '(r, sh') := shard_await key sh in (r, set_shard st i sh' (s_residentTotal st))
  | None => (None, st)
  end.

Definition Publish (b : Binding) (blockIndex : Z) (data : bytes) (st : Store) : Z * Store :=
  let key := key_of b blockIndex in
  let i := ShardFor st key in
  match s_shards st !! i with
  | Some sh =>
      let '(sh', total, evicted) :=
        shard_publish key data (s_shardBudget st) (s_residentTotal st) sh in
      (evicted, set_shard st i sh' total)
  | None => (0, st)
  end.

Definition Abandon (b : Binding) (blockIndex : Z) (st : Store) : Store :=
  let key := key_of b blockIndex in
  let i := ShardFor st key in
  match s_shards st !! i with
  | Some sh => set_shard st i (shard_abandon key sh) (s_residentTotal st)
  | None => st
  end.

(** [~Binding]: the stripes in order, then the binding count. *)
Fixpoint close_shards (id : Z) (shards : list Shard) (total : Z) : list Shard * Z :=
  match shards with
  | [] => ([], total)
  | sh :: rest =>
      let '(sh', total) := shard_close id sh total in
      let '(rest', total) := close_shards id rest total in
      (sh' :: rest', total)
  end.

(** One step: the source takes the stripes' locks one after the other, and what it
    erases are the keys of an identity that no other binding has. *)
Definition Binding_close (b : Binding) (st : Store) : Store :=
  let '(shards, total) :=
    if b_isPrivate b then close_shards (b_identityId b) (s_shards st) (s_residentTotal st)
    else (s_shards st, s_residentTotal st) in
  mkStore (s_options st) shards (s_shardMask st) (s_shardBudget st) total (s_identities st)
    (s_nextIdentityId st) (u64 (s_liveBindings st - 1)).

Definition ConfigureProcess (options : CacheOptions) (st : Store) : bool * Store :=
  if negb (s_liveBindings st =? 0) then (false, st) else (true, ResetLocked options st).

Definition ResidentBytes (st : Store) : Z := s_residentTotal st.

Definition ClearForTesting (st : Store) : Store :=
  mkStore (s_options st) (map (fun _ => Shard_empty) (s_shards st)) (s_shardMask st)
    (s_shardBudget st) 0 ∅ (s_nextIdentityId st) (s_liveBindings st).

Record Stats : Type := mkStats {
  stats_residentBytes : Z;
  stats_blockCount : Z;
  stats_pendingCount : Z;
  stats_evictions : Z;
  stats_peakResidentBytes : Z;
  stats_identityCount : Z;
  stats_shardCount : Z;
  stats_shardBudgetBytes : Z }.

Definition count_pending (sh : Shard) : Z :=
  zsum (fun kv : ShardKey * Entry => if en_pending (snd kv) then 1 else 0) (map_to_list (sh_entries sh)).

Definition Snapshot (st : Store) : Stats :=
  mkStats (u64 (zsum sh_residentBytes (s_shards st)))
    (zsum (fun sh => Z.of_nat (size (sh_entries sh)) - count_pending sh) (s_shards st))
    (zsum count_pending (s_shards st))
    (u64 (zsum sh_evictions (s_shards st)))
    (u64 (zsum sh_peakResidentBytes (s_shards st)))
    (Z.of_nat (size (s_identities st)))
    (u32 (zlen (s_shards st)))
    (s_shardBudget st).

(** ** The stripe invariant *)

(** An entry is pending and empty, or published and in the LRU list. *)
Definition entry_wf (e : Entry) : Prop :=
  e = mkEntry None true 0 false \/
  exists b, e = mkEntry (Some b) false (zlen b) true /\ zlen b <= kMaxBlockSize.

Definition bytes_at (m : gmap ShardKey Entry) (k : ShardKey) : Z :=
  match m !! k with Some e => en_bytes e | None => 0 end.

(** The LRU list enumerates the published entries, and the resident count is
    the sum of their lengths. *)
Record lru_wf (sh : Shard) : Prop := {
  lw_nodup : NoDup (sh_lru sh);
  lw_lru : forall k, k ∈ sh_lru sh <-> exists e, sh_entries sh !! k = Some e /\ en_inLru e = true;
  lw_entry : forall k e, sh_entries sh !! k = Some e -> entry_wf e;
  lw_resident : sh_residentBytes sh = zsum (bytes_at (sh_entries sh)) (sh_lru sh);
  lw_u64 : is_u64 (sh_residentBytes sh) }.

(** Inside the budget, or down to a single block. *)
Definition within_budget (budget : Z) (sh : Shard) : Prop :=
  sh_residentBytes sh <= budget \/ (length (sh_lru sh) <= 1)%nat.

Definition shard_wf (budget : Z) (sh : Shard) : Prop := lru_wf sh /\ within_budget budget sh.

Lemma entry_wf_bytes e : entry_wf e -> 0 <= en_bytes e <= kMaxBlockSize.
Proof.
  intros [->|(b & -> & H)]; simpl; [unfold kMaxBlockSize; lia|]. split; [|done]. apply zlen_nonneg.
Qed.

Lemma bytes_at_range sh k : lru_wf sh -> 0 <= bytes_at (sh_entries sh) k <= kMaxBlockSize.
Proof.
  intros H. unfold bytes_at. destruct (sh_entries sh !! k) eqn:E.
  - by eapply entry_wf_bytes, lw_entry.
  - unfold kMaxBlockSize. lia.
Qed.

#[export] Hint Resolve bytes_at_range entry_wf_bytes : wf.

Lemma bytes_at_delete m k k' : k <> k' -> bytes_at (delete k m) k' = bytes_at m k'.
Proof. intros. unfold bytes_at. by rewrite lookup_delete_ne. Qed.

Lemma bytes_at_insert_ne m k k' e : k <> k' -> bytes_at (<[k := e]> m) k' = bytes_at m k'.
Proof. intros. unfold bytes_at. by rewrite lookup_insert_ne. Qed.

(** Dropping a resident key keeps the bookkeeping. *)
Lemma lru_wf_drop sh k e l1 l2 ev pk :
  lru_wf sh -> sh_entries sh !! k = Some e -> sh_lru sh = l1 ++ k :: l2 ->
  lru_wf (mkShard (delete k (sh_entries sh)) (l1 ++ l2) (u64 (sh_residentBytes sh - en_bytes e)) ev pk)
  /\ u64 (sh_residentBytes sh - en_bytes e) = sh_residentBytes sh - en_bytes e.
Proof.
  intros Hw He Hl. pose proof Hw as [Hn Hi Hent Hr Hu].
  rewrite Hl in Hn. apply NoDup_app in Hn as (Hn1 & Hd & Hn2).
  apply NoDup_cons in Hn2 as [Hk2 Hn2]. assert (k ∉ l1) as Hk1 by set_solver.
  assert (bytes_at (sh_entries sh) k = en_bytes e) as Hb by (unfold bytes_at; by rewrite He).
  assert (zsum (bytes_at (delete k (sh_entries sh))) (l1 ++ l2) = sh_residentBytes sh - en_bytes e) as Hs.
  { rewrite Hr, Hl, !zsum_app. cbn [zsum foldr]. rewrite Hb.
    rewrite (zsum_ext _ (bytes_at (sh_entries sh)) l1), (zsum_ext _ (bytes_at (sh_entries sh)) l2).
    - unfold zsum. lia.
    - intros x Hx. apply bytes_at_delete. by intros ->.
    - intros x Hx. apply bytes_at_delete. by intros ->. }
  assert (0 <= sh_residentBytes sh - en_bytes e) as Hpos.
  { rewrite <-Hs. apply zsum_nonneg. intros x Hx.
    rewrite bytes_at_delete by (intros ->; set_solver). by apply bytes_at_range. }
  assert (0 <= en_bytes e) by (apply entry_wf_bytes; eauto).
  assert (u64 (sh_residentBytes sh - en_bytes e) = sh_residentBytes sh - en_bytes e) as Eu.
  { apply u64_small. unfold is_u64 in *. lia. }
  split; [|done]. split; simpl.
  - apply NoDup_app. split_and!; [done| |done]. set_solver.
  - intros x. specialize (Hi x). rewrite Hl in Hi.
    destruct (decide (x = k)) as [->|Hne].
    + rewrite lookup_delete_eq. split; [set_solver|naive_solver].
    + rewrite lookup_delete_ne by done. rewrite <-Hi. set_solver.
  - intros x e' Hx. apply lookup_delete_Some in Hx as [_ Hx]. eauto.
  - by rewrite Eu, Hs.
  - apply u64_is_u64.
Qed.

(** ** Eviction *)

Lemma u64_sub_sub t a b : u64 (u64 (t - a) - b) = u64 (t - a - b).
Proof. unfold u64. by rewrite Zminus_mod_idemp_l. Qed.

(** What an eviction from [sh] to [sh'] under [budget] may do: it removes a
    suffix of the LRU list and exactly those entries, it leaves at least one
    block, and it stops as soon as the budget is met. *)
Record evicts (budget : Z) (sh sh' : Shard) (victims : list ShardKey) : Prop := {
  ev_lru : sh_lru sh = sh_lru sh' ++ victims;
  ev_entries : forall k, sh_entries sh' !! k =
    if decide (k ∈ victims) then None else sh_entries sh !! k;
  ev_one : sh_lru sh <> [] -> sh_lru sh' <> [];
  ev_needed : forall v vs, victims = v :: vs ->
    budget < sh_residentBytes sh' + bytes_at (sh_entries sh) v;
  ev_wf : shard_wf budget sh';
  ev_peak : sh_peakResidentBytes sh' = sh_peakResidentBytes sh;
  ev_bytes : sh_residentBytes sh' = sh_residentBytes sh - zsum (bytes_at (sh_entries sh)) victims }.

Lemma evicts_none budget sh : shard_wf budget sh -> evicts budget sh sh [].
Proof.
  intros. split; [by rewrite app_nil_r| |done..|simpl; lia].
  intros k. by rewrite decide_False by set_solver.
Qed.

(** The shard after one turn of the loop. *)
Definition evict_one (sh : Shard) (v : ShardKey) (e : Entry) : Shard :=
  mkShard (delete v (sh_entries sh)) (removelast (sh_lru sh))
    (u64 (sh_residentBytes sh - en_bytes e)) (u64 (sh_evictions sh + 1)) (sh_peakResidentBytes sh).

Lemma removelast_snoc {A} (l : list A) x : removelast (l ++ [x]) = l.
Proof. apply removelast_last. Qed.

Lemma evicts_step budget sh v e l sh' vs :
  lru_wf sh -> sh_lru sh = l ++ [v] -> l <> [] -> sh_entries sh !! v = Some e ->
  budget < sh_residentBytes sh ->
  evicts budget (evict_one sh v e) sh' vs -> evicts budget sh sh' (vs ++ [v]).
Proof.
  intros Hw Hl Hne He Hb [H1 H2 H3 H4 H5 H6 H7].
  destruct (lru_wf_drop sh v e l [] (u64 (sh_evictions sh + 1)) (sh_peakResidentBytes sh)) as [_ Hsub];
    [done..|].
  assert (v ∉ l) as Hvl.
  { pose proof (lw_nodup _ Hw) as Hn. rewrite Hl in Hn. apply NoDup_app in Hn. set_solver. }
  unfold evict_one in *. simpl in *. rewrite Hl, removelast_snoc in *.
  assert (bytes_at (sh_entries sh) v = en_bytes e) as Eb by (unfold bytes_at; by rewrite He).
  assert (forall x, x ∈ vs -> x <> v) as Hvs by (intros x Hx ->; apply Hvl; rewrite H1; set_solver).
  assert (zsum (bytes_at (delete v (sh_entries sh))) vs = zsum (bytes_at (sh_entries sh)) vs) as Es.
  { apply zsum_ext. intros x Hx. apply bytes_at_delete. specialize (Hvs x Hx). congruence. }
  split.
  - by rewrite app_assoc, <-H1.
  - intros k. rewrite H2. destruct (decide (k = v)) as [->|Hk].
    + rewrite lookup_delete_eq. rewrite (decide_True (P := v ∈ vs ++ [v])) by set_solver.
      by case_decide.
    + rewrite lookup_delete_ne by done. destruct (decide (k ∈ vs)) as [Hin|Hin].
      * by rewrite decide_True by set_solver.
      * by rewrite decide_False by set_solver.
  - intros _. by apply H3.
  - intros v' vs' E. destruct vs as [|v0 vs0]; simpl in E; injection E as <- <-.
    + rewrite Eb, H7. simpl. rewrite Hsub. lia.
    + rewrite <-(bytes_at_delete _ v v0); [by eapply H4|]. intros <-. apply (Hvs v); [by left|done].
  - done.
  - done.
  - rewrite zsum_snoc, Eb, H7, Hsub, Es. lia.
Qed.

Lemma evict_stop budget sh total evicted :
  shard_wf budget sh -> is_u64 total ->
  exists sh' victims,
    (sh, total, evicted)
      = (sh', u64 (total - zsum (bytes_at (sh_entries sh)) victims), evicted + zlen victims) /\
    evicts budget sh sh' victims.
Proof.
  intros Hw Ht. exists sh, []. split; [|by apply evicts_none].
  simpl. rewrite Z.sub_0_r, u64_small by done. f_equal. unfold zlen. simpl. lia.
Qed.

Lemma evict_loop_spec fuel budget sh total evicted :
  lru_wf sh -> is_u64 total -> (length (sh_lru sh) <= fuel)%nat ->
  exists sh' victims,
    evict_loop fuel budget sh total evicted
      = (sh', u64 (total - zsum (bytes_at (sh_entries sh)) victims), evicted + zlen victims) /\
    evicts budget sh sh' victims.
Proof.
  revert sh total evicted. induction fuel as [|f IH]; intros sh total evicted Hw Ht Hf; cbn [evict_loop].
  { apply evict_stop; [|done]. split; [done|right; lia]. }
  destruct (last (sh_lru sh)) as [v|] eqn:El.
  2:{ apply evict_stop; [|done]. split; [done|right]. apply last_None in El. rewrite El. simpl. lia. }
  destruct (_ && _) eqn:Eg.
  2:{ apply evict_stop; [|done]. split; [done|]. apply andb_false_iff in Eg as [H|H];
        [left; rewrite Z.gtb_ltb, Z.ltb_ge in H; lia|right; apply Nat.ltb_ge in H; lia]. }
  apply andb_true_iff in Eg as [Hbig Hlen]. rewrite Z.gtb_lt in Hbig. apply Nat.ltb_lt in Hlen.
  apply last_Some in El as [l El].
  assert (v ∈ sh_lru sh) as (e & He & _)%(lw_lru _ Hw) by (rewrite El; set_solver).
  rewrite He. fold (evict_one sh v e).
  destruct (lru_wf_drop sh v e l [] (u64 (sh_evictions sh + 1)) (sh_peakResidentBytes sh)) as [Hw' _];
    [done..|]. rewrite app_nil_r in Hw'.
  assert (sh_lru (evict_one sh v e) = l) as Hl' by (unfold evict_one; simpl; by rewrite El, removelast_snoc).
  destruct (IH (evict_one sh v e) (u64 (total - en_bytes e)) (evicted + 1)) as (sh' & vs & E & Hev).
  - unfold evict_one. rewrite El, removelast_snoc. done.
  - apply u64_is_u64.
  - rewrite Hl'. rewrite El, length_app in Hf. simpl in Hf. lia.
  - exists sh', (vs ++ [v]). split.
    2:{ apply (evicts_step budget sh v e l); try done.
        intros ->. rewrite El in Hlen. simpl in Hlen. lia. }
    rewrite E, u64_sub_sub, zlen_app. f_equal; [f_equal|unfold zlen; simpl; lia].
    f_equal. rewrite zsum_snoc. unfold bytes_at at 3. rewrite He.
    assert (v ∉ vs) as Hv.
    { pose proof (lw_nodup _ Hw) as Hn. rewrite El in Hn. apply NoDup_app in Hn as (_ & Hn & _).
      destruct Hev as [Hl _ _ _ _ _ _]. rewrite Hl' in Hl. rewrite Hl in Hn. set_solver. }
    rewrite (zsum_ext (bytes_at (sh_entries (evict_one sh v e))) (bytes_at (sh_entries sh))); [lia|].
    intros x Hx. apply bytes_at_delete. by intros <-.
Qed.

(** ** Every operation keeps the stripe invariant *)

Lemma shard_wf_empty budget : 0 <= budget -> shard_wf budget Shard_empty.
Proof.
  intros. split; [|by left]. split; simpl.
  - constructor.
  - intros k. rewrite lookup_empty. split; [set_solver|naive_solver].
  - intros k e. by rewrite lookup_empty.
  - done.
  - unfold is_u64. lia.
Qed.

Lemma entry_wf_pending e : entry_wf e -> en_pending e = true -> e = mkEntry None true 0 false.
Proof. by intros [->|(b & -> & _)]. Qed.

Lemma entry_wf_published e :
  entry_wf e -> en_pending e = false -> exists b, e = mkEntry (Some b) false (zlen b) true /\ zlen b <= kMaxBlockSize.
Proof. intros [->|(b & -> & H)]; [done|]. eauto. Qed.

Lemma filter_ne_perm (l : list ShardKey) k :
  NoDup l -> k ∈ l -> (k :: filter (fun k' => k' <> k) l) ≡ₚ l.
Proof.
  intros Hn Hk. apply NoDup_Permutation; [|done|].
  - constructor; [rewrite list_elem_of_filter; naive_solver|by apply NoDup_filter].
  - intros x. rewrite elem_of_cons, list_elem_of_filter. destruct (decide (x = k)); naive_solver.
Qed.

Lemma lru_wf_perm sh l :
  lru_wf sh -> l ≡ₚ sh_lru sh ->
  lru_wf (mkShard (sh_entries sh) l (sh_residentBytes sh) (sh_evictions sh) (sh_peakResidentBytes sh)).
Proof.
  intros [Hn Hl He Hr Hu] Hp. split; simpl; [by rewrite Hp| |done| |done].
  - intros k. by rewrite Hp.
  - by rewrite (zsum_permutation _ _ _ Hp).
Qed.

Lemma TouchLocked_wf budget key e sh :
  shard_wf budget sh -> sh_entries sh !! key = Some e -> shard_wf budget (TouchLocked key e sh).
Proof.
  intros [Hw Hb] He. unfold TouchLocked. destruct (en_inLru e) eqn:Ei; simpl; [|done].
  assert ((key :: filter (fun k => k <> key) (sh_lru sh)) ≡ₚ sh_lru sh) as Hp.
  { apply filter_ne_perm; [apply Hw|]. apply (lw_lru _ Hw). eauto. }
  split; [by apply lru_wf_perm|]. unfold within_budget in *. cbn [sh_residentBytes sh_lru].
  by rewrite Hp.
Qed.

Lemma TouchLocked_entries key e sh : sh_entries (TouchLocked key e sh) = sh_entries sh.
Proof. unfold TouchLocked. by destruct (en_inLru e). Qed.

Lemma lru_wf_pending sh key :
  lru_wf sh -> sh_entries sh !! key = None ->
  lru_wf (mkShard (<[key := mkEntry None true 0 false]> (sh_entries sh)) (sh_lru sh)
            (sh_residentBytes sh) (sh_evictions sh) (sh_peakResidentBytes sh)).
Proof.
  intros Hw Hk. pose proof Hw as [Hn Hl He Hr Hu].
  assert (key ∉ sh_lru sh) as Hnot by (rewrite Hl; naive_solver).
  split; simpl; [done| | | |done].
  - intros k. rewrite Hl. destruct (decide (k = key)) as [->|].
    + rewrite lookup_insert_eq, Hk. naive_solver.
    + by rewrite lookup_insert_ne by done.
  - intros k e Hk'. apply lookup_insert_Some in Hk' as [[<- <-]|[_ ?]]; [by left|eauto].
  - rewrite Hr. apply zsum_ext. intros x Hx. symmetry. apply bytes_at_insert_ne. by intros <-.
Qed.

Lemma shard_acquire_wf budget key sh :
  shard_wf budget sh -> shard_wf budget (snd (shard_acquire key sh)).
Proof.
  intros Hw. unfold shard_acquire. destruct (sh_entries sh !! key) as [e|] eqn:E.
  - destruct (en_pending e); [done|]. by apply TouchLocked_wf.
  - destruct Hw as [Hw Hb]. split; [by apply lru_wf_pending|done].
Qed.

Lemma shard_await_wf budget key sh :
  shard_wf budget sh -> shard_wf budget (snd (shard_await key sh)).
Proof.
  intros Hw. unfold shard_await. destruct (sh_entries sh !! key) as [e|] eqn:E; [|done].
  destruct (en_pending e); [done|]. by apply TouchLocked_wf.
Qed.

Lemma shard_abandon_wf budget key sh :
  shard_wf budget sh -> shard_wf budget (shard_abandon key sh).
Proof.
  intros [Hw Hb]. unfold shard_abandon. destruct (sh_entries sh !! key) as [e|] eqn:E; [|done].
  destruct (en_pending e) eqn:Ep; [|done]. split; [|done].
  pose proof Hw as [Hn Hl He Hr Hu].
  assert (e = mkEntry None true 0 false) as -> by eauto using entry_wf_pending.
  assert (key ∉ sh_lru sh) as Hnot by (rewrite Hl; naive_solver).
  split; simpl; [done| | | |done].
  - intros k. rewrite Hl. destruct (decide (k = key)) as [->|].
    + rewrite lookup_delete_eq, E. naive_solver.
    + by rewrite lookup_delete_ne by done.
  - intros k e Hk'. apply lookup_delete_Some in Hk' as [_ ?]. eauto.
  - rewrite Hr. apply zsum_ext. intros x Hx. symmetry. apply bytes_at_delete. by intros <-.
Qed.

Lemma resident_bound budget sh :
  shard_wf budget sh -> sh_residentBytes sh <= Z.max budget kMaxBlockSize.
Proof.
  intros [Hw [Hb|Hb]]; [lia|]. rewrite (lw_resident _ Hw).
  destruct (sh_lru sh) as [|k [|]]; simpl in *; [unfold kMaxBlockSize; lia| |lia].
  pose proof (bytes_at_range sh k Hw). lia.
Qed.

(** The shard in the middle of [Publish]: the block is in, nothing is evicted. *)
Definition published (key : ShardKey) (data : bytes) (sh : Shard) : Shard :=
  let resident := u64 (sh_residentBytes sh + zlen data) in
  mkShard (<[key := mkEntry (Some data) false (zlen data) true]> (sh_entries sh))
    (key :: sh_lru sh) resident (sh_evictions sh) (Z.max (sh_peakResidentBytes sh) resident).

Lemma published_wf budget key data sh e :
  shard_wf budget sh -> budget + kMaxBlockSize < 2 ^ 64 -> zlen data <= kMaxBlockSize ->
  sh_entries sh !! key = Some e -> en_pending e = true ->
  lru_wf (published key data sh) /\
  sh_residentBytes (published key data sh) = sh_residentBytes sh + zlen data.
Proof.
  intros Hs Hbud Hd Hk Hp. pose proof (resident_bound _ _ Hs) as Hrb. destruct Hs as [Hw _].
  pose proof Hw as [Hn Hl He Hr Hu]. pose proof (zlen_nonneg data).
  assert (e = mkEntry None true 0 false) as -> by eauto using entry_wf_pending.
  assert (key ∉ sh_lru sh) as Hnot by (rewrite Hl; naive_solver).
  assert (u64 (sh_residentBytes sh + zlen data) = sh_residentBytes sh + zlen data) as Eu.
  { apply u64_small. unfold is_u64, kMaxBlockSize in *. lia. }
  split; [|done]. unfold published. split; simpl; rewrite ?Eu.
  - by constructor.
  - intros k. rewrite elem_of_cons, Hl. destruct (decide (k = key)) as [->|].
    + rewrite lookup_insert_eq. naive_solver.
    + rewrite lookup_insert_ne by done. naive_solver.
  - intros k e Hk'. apply lookup_insert_Some in Hk' as [[<- <-]|[_ ?]]; [right; eauto|eauto].
  - rewrite Hr. unfold bytes_at at 2. rewrite lookup_insert_eq. simpl.
    rewrite (zsum_ext (bytes_at (<[key:=_]> _)) (bytes_at (sh_entries sh))); [unfold zsum; lia|].
    intros x Hx. apply bytes_at_insert_ne. by intros <-.
  - rewrite <-Eu. apply u64_is_u64.
Qed.

(** [Publish] on a pending block: the block is resident afterwards, whatever
    had to be evicted for it. *)
Lemma shard_publish_spec budget key data total sh e :
  shard_wf budget sh -> budget + kMaxBlockSize < 2 ^ 64 -> zlen data <= kMaxBlockSize ->
  is_u64 total -> sh_entries sh !! key = Some e -> en_pending e = true ->
  exists sh' victims,
    shard_publish key data budget total sh
      = (sh', u64 (u64 (total + zlen data) - zsum (bytes_at (sh_entries sh)) victims), zlen victims) /\
    evicts budget (published key data sh) sh' victims /\ key ∉ victims /\
    Forall (fun v => v ∈ sh_lru sh) victims.
Proof.
  intros Hs Hbud Hd Ht Hk Hp. destruct (published_wf budget key data sh e) as [Hw _]; [done..|].
  unfold shard_publish. rewrite Hk, Hp. cbn [negb]. fold (published key data sh).
  unfold EvictLocked.
  destruct (evict_loop_spec (length (sh_lru (published key data sh))) budget (published key data sh)
              (u64 (total + zlen data)) 0) as (sh' & vs & E & Hev); [done|apply u64_is_u64|done|].
  assert (key ∉ vs /\ Forall (fun v => v ∈ sh_lru sh) vs) as [Hkv Hvs].
  { pose proof Hev as [Hl _ Hone _ _ _ _]. pose proof (lw_nodup _ Hw) as Hn.
    unfold published in Hl, Hn, Hone. simpl in Hl, Hn, Hone.
    specialize (Hone ltac:(done)). destruct (sh_lru sh') as [|k' l']; [done|].
    simpl in Hl. injection Hl as <- Hl. apply NoDup_cons in Hn as [Hn _]. rewrite Hl in Hn |- *.
    split; [set_solver|]. rewrite Forall_forall. set_solver. }
  exists sh', vs. split; [|done]. rewrite E. f_equal. f_equal. f_equal. f_equal.
  apply zsum_ext. intros x Hx. apply bytes_at_insert_ne. by intros <-.
Qed.

Lemma shard_publish_wf budget key data total sh :
  shard_wf budget sh -> budget + kMaxBlockSize < 2 ^ 64 -> zlen data <= kMaxBlockSize ->
  is_u64 total -> shard_wf budget (fst (fst (shard_publish key data budget total sh))).
Proof.
  intros Hs Hbud Hd Ht. destruct (sh_entries sh !! key) as [e|] eqn:E.
  2:{ unfold shard_publish. by rewrite E. }
  destruct (en_pending e) eqn:Ep.
  - destruct (shard_publish_spec budget key data total sh e) as (sh' & vs & -> & Hev & _); [done..|].
    apply Hev.
  - unfold shard_publish. by rewrite E, Ep.
Qed.

(** ** Closing a private binding *)

Lemma filter_ne_split (l1 l2 : list ShardKey) k :
  NoDup (l1 ++ k :: l2) -> filter (fun k' => k' <> k) (l1 ++ k :: l2) = l1 ++ l2.
Proof.
  intros (Hn1 & Hd & [Hk2 Hn2]%NoDup_cons)%NoDup_app.
  rewrite filter_app, filter_cons_False by naive_solver.
  rewrite !(filter_all (fun k' => k' <> k)); [done|..]; intros x Hx ->; set_solver.
Qed.

Lemma lru_wf_remove sh k e :
  lru_wf sh -> sh_entries sh !! k = Some e ->
  lru_wf (fst (close_entry (sk_identityId k) (sh, 0) (k, e))).
Proof.
  intros Hw He. unfold close_entry. rewrite Z.eqb_refl. simpl.
  destruct (en_inLru e) eqn:Ei; simpl.
  - assert (k ∈ sh_lru sh) as Hk by (apply (lw_lru _ Hw); eauto).
    apply list_elem_of_split in Hk as (l1 & l2 & El).
    destruct (lru_wf_drop sh k e l1 l2 (sh_evictions sh) (sh_peakResidentBytes sh)) as [H _]; [done..|].
    pose proof (lw_nodup _ Hw) as Hn. rewrite El in Hn. rewrite El, filter_ne_split by done. done.
  - destruct (shard_abandon_wf (sh_residentBytes sh) k sh) as [H _]; [split; [done|by left]|].
    unfold shard_abandon in H. rewrite He in H.
    destruct (lw_entry _ Hw k e He) as [->|(b & -> & _)]; done.
Qed.

Lemma close_entry_entries id sh t k e :
  sh_entries (fst (close_entry id (sh, t) (k, e)))
  = if sk_identityId k =? id then delete k (sh_entries sh) else sh_entries sh.
Proof. unfold close_entry. by destruct (_ =? _); [destruct (en_inLru e)|]. Qed.

Lemma close_entry_shrinks id sh t k e :
  lru_wf sh -> is_u64 t -> sh_entries sh !! k = Some e ->
  let '(sh', t') := close_entry id (sh, t) (k, e) in
  lru_wf sh' /\ sh_residentBytes sh' <= sh_residentBytes sh /\
  (length (sh_lru sh') <= length (sh_lru sh))%nat /\
  t' = u64 (t + (sh_residentBytes sh' - sh_residentBytes sh)).
Proof.
  intros Hw Ht He. assert (t = u64 (t + (sh_residentBytes sh - sh_residentBytes sh))) as Et.
  { rewrite Z.sub_diag, Z.add_0_r. symmetry. by apply u64_small. }
  destruct (Z.eqb_spec (sk_identityId k) id) as [<-|Hne].
  2:{ unfold close_entry. rewrite (proj2 (Z.eqb_neq _ _)) by done. simpl. ands. }
  pose proof (lru_wf_remove sh k e Hw He) as Hr. unfold close_entry in *. rewrite Z.eqb_refl in *. simpl in *.
  pose proof (entry_wf_bytes _ (lw_entry _ Hw _ _ He)).
  destruct (en_inLru e) eqn:Ei; simpl in *; [|ands].
  assert (k ∈ sh_lru sh) as Hk by (apply (lw_lru _ Hw); eauto).
  apply list_elem_of_split in Hk as (l1 & l2 & El).
  destruct (lru_wf_drop sh k e l1 l2 0 0) as [_ Es]; [done..|]. split; [done|]. rewrite Es.
  split; [lia|]. split; [apply length_filter|]. f_equal. lia.
Qed.

Lemma close_foldl id l sh total :
  lru_wf sh -> is_u64 total -> NoDup l.*1 ->
  (forall k e, (k, e) ∈ l -> sh_entries sh !! k = Some e) ->
  let '(sh', total') := foldl (close_entry id) (sh, total) l in
  lru_wf sh' /\ sh_residentBytes sh' <= sh_residentBytes sh /\
  (length (sh_lru sh') <= length (sh_lru sh))%nat /\
  total' = u64 (total + (sh_residentBytes sh' - sh_residentBytes sh)) /\
  forall k, sh_entries sh' !! k =
    if decide (k ∈ l.*1 /\ sk_identityId k = id) then None else sh_entries sh !! k.
Proof.
  revert sh total. induction l as [|[k e] l IH]; intros sh total Hw Ht Hn Hl; cbn [foldl].
  { simpl. ands. rewrite Z.sub_diag, Z.add_0_r. symmetry. by apply u64_small. }
  simpl in Hn. apply NoDup_cons in Hn as [Hk Hn].
  assert (sh_entries sh !! k = Some e) as He by (apply Hl; set_solver).
  pose proof (close_entry_shrinks id sh total k e Hw Ht He) as Hshrink.
  pose proof (close_entry_entries id sh total k e) as Een.
  destruct (close_entry id (sh, total) (k, e)) as [sh1 t1] eqn:E1. simpl in Een.
  destruct Hshrink as (Hw1 & Hr1 & Hl1 & Ht1).
  assert (is_u64 t1) as Hu1 by (rewrite Ht1; apply u64_is_u64).
  specialize (IH sh1 t1 Hw1 Hu1 Hn). destruct (foldl _ _ l) as [sh2 t2].
  destruct IH as (Hw2 & Hr2 & Hl2 & Ht2 & Hen).
  { intros k' e' Hin. assert (k' <> k) by (intros ->; apply Hk; apply list_elem_of_fmap; by exists (k, e')).
    rewrite Een. destruct (_ =? _); [rewrite lookup_delete_ne by done|]; apply Hl; set_solver. }
  split; [done|]. split; [lia|]. split; [lia|]. split.
  { rewrite Ht2, Ht1. unfold u64. rewrite Zplus_mod_idemp_l. f_equal. lia. }
  intros k'. rewrite Hen, Een. simpl.
  destruct (Z.eqb_spec (sk_identityId k) id) as [Hid|Hid].
  - destruct (decide (k' = k)) as [->|Hne].
    + rewrite lookup_delete_eq. transitivity (@None Entry); [by case_decide|].
      case_decide as Hd; [done|]. destruct Hd. split; [by left|done].
    + rewrite lookup_delete_ne by done. apply decide_ext. rewrite elem_of_cons. clear -Hne. naive_solver.
  - apply decide_ext. rewrite elem_of_cons. clear -Hid. naive_solver.
Qed.

(** The close of a private binding removes exactly its entries. *)
Lemma shard_close_spec budget id sh total :
  shard_wf budget sh -> is_u64 total ->
  let '(sh', total') := shard_close id sh total in
  shard_wf budget sh' /\
  total' = u64 (total + (sh_residentBytes sh' - sh_residentBytes sh)) /\
  forall k, sh_entries sh' !! k = if decide (sk_identityId k = id) then None else sh_entries sh !! k.
Proof.
  intros [Hw Hb] Ht. pose proof (close_foldl id (map_to_list (sh_entries sh)) sh total) as H.
  unfold shard_close. destruct (foldl _ _ _) as [sh' total'].
  destruct H as (H1 & H2 & H3 & H4 & H5); [done..|apply NoDup_fst_map_to_list| |].
  { intros k e Hin. by apply elem_of_map_to_list. }
  split; [split; [done|]; unfold within_budget in *; destruct Hb; [left|right]; lia|]. split; [done|].
  intros k. rewrite H5. destruct (decide (sk_identityId k = id)) as [Hid|Hid].
  - destruct (sh_entries sh !! k) as [e|] eqn:E.
    + rewrite decide_True; [done|]. split; [|done]. apply list_elem_of_fmap.
      exists (k, e). split; [done|]. by apply elem_of_map_to_list.
    + by case_decide.
  - by rewrite decide_False by naive_solver.
Qed.

(** ** The store invariant *)

Definition lookup_entry (st : Store) (k : ShardKey) : option Entry :=
  s_shards st !! ShardFor st k ≫= fun sh => sh_entries sh !! k.

(** What a reader can see of a key: nothing, a pending fetch, or bytes. *)
Definition visible (st : Store) (k : ShardKey) : option (option bytes) :=
  en_block <$> lookup_entry st k.

Record shard_at (st : Store) (i : nat) (sh : Shard) : Prop := {
  sa_wf : shard_wf (s_shardBudget st) sh;
  sa_keys : forall k e, sh_entries sh !! k = Some e ->
    ShardFor st k = i /\ sk_identityId k < s_nextIdentityId st }.

Record store_wf (st : Store) : Prop := {
  sw_shards : forall i sh, s_shards st !! i = Some sh -> shard_at st i sh;
  sw_count : exists n, 0 <= n <= 6 /\ zlen (s_shards st) = 2 ^ n /\ s_shardMask st = Z.ones n;
  sw_budget : 0 <= s_shardBudget st /\ s_shardBudget st + kMaxBlockSize < 2 ^ 64;
  sw_total : s_residentTotal st = u64 (zsum sh_residentBytes (s_shards st));
  sw_ids : forall identity id, s_identities st !! identity = Some id -> id < s_nextIdentityId st;
  sw_inj : forall i1 i2 id, s_identities st !! i1 = Some id -> s_identities st !! i2 = Some id -> i1 = i2 }.

Lemma store_wf_total st : store_wf st -> is_u64 (s_residentTotal st).
Proof. intros Hw. rewrite (sw_total _ Hw). apply u64_is_u64. Qed.

Lemma ShardFor_lt st k : store_wf st -> (ShardFor st k < length (s_shards st))%nat.
Proof.
  intros Hw. destruct (sw_count _ Hw) as (n & Hn & Hl & Hm). unfold ShardFor.
  rewrite Hm, Z.land_ones by lia. unfold zlen in Hl.
  pose proof (Z.mod_pos_bound (ShardKeyHash k) (2 ^ n)). assert (0 < 2 ^ n) by lia. lia.
Qed.

Lemma ShardFor_some st k : store_wf st -> exists sh, s_shards st !! ShardFor st k = Some sh.
Proof. intros. by apply lookup_lt_is_Some, ShardFor_lt. Qed.

Lemma zsum_insert {A} (f : A -> Z) l i x y :
  l !! i = Some x -> zsum f (<[i := y]> l) = zsum f l - f x + f y.
Proof.
  revert i. unfold zsum. induction l as [|z l IH]; intros [|i] E; simplify_eq/=; [lia|].
  rewrite (IH i) by done. lia.
Qed.

(** Replacing one stripe, with the total moved by what the stripe moved. *)
Lemma set_shard_wf st i sh sh' total :
  store_wf st -> s_shards st !! i = Some sh -> shard_at st i sh' ->
  total = u64 (s_residentTotal st + (sh_residentBytes sh' - sh_residentBytes sh)) ->
  store_wf (set_shard st i sh' total).
Proof.
  intros [H1 H2 H3 H4 H5 H6] Hi Ha Ht. split; simpl; try done.
  - intros j shj Hj. destruct (decide (i = j)) as [<-|Hne].
    + rewrite list_lookup_insert_eq in Hj by by eapply lookup_lt_Some. injection Hj as <-.
      destruct Ha as [Ha1 Ha2]. by split.
    + rewrite list_lookup_insert_ne in Hj by done. destruct (H1 j shj Hj) as [Hj1 Hj2]. by split.
  - destruct H2 as (n & ? & ? & ?). exists n. unfold zlen in *. by rewrite length_insert.
  - rewrite Ht, H4, (zsum_insert _ _ _ sh) by done. unfold u64. rewrite Zplus_mod_idemp_l.
    f_equal. lia.
Qed.

Lemma lookup_set_shard st i sh sh' total k :
  s_shards st !! i = Some sh ->
  lookup_entry (set_shard st i sh' total) k =
    if decide (ShardFor st k = i) then sh_entries sh' !! k else lookup_entry st k.
Proof.
  intros Hi. unfold lookup_entry. change (ShardFor (set_shard st i sh' total) k) with (ShardFor st k).
  simpl. destruct (decide (ShardFor st k = i)) as [<-|Hne].
  - by rewrite list_lookup_insert_eq by by eapply lookup_lt_Some.
  - by rewrite list_lookup_insert_ne by done.
Qed.

Lemma set_shard_same st i sh k :
  s_shards st !! i = Some sh -> i = ShardFor st k ->
  lookup_entry st k = sh_entries sh !! k.
Proof. intros Hi ->. unfold lookup_entry. by rewrite Hi. Qed.

(** A stripe that keeps its entries keeps what every key shows. *)
Lemma visible_same_entries st i sh sh' total k :
  s_shards st !! i = Some sh -> sh_entries sh' = sh_entries sh ->
  lookup_entry (set_shard st i sh' total) k = lookup_entry st k.
Proof.
  intros Hi He. rewrite (lookup_set_shard _ _ sh) by done. case_decide; [|done].
  rewrite He. symmetry. by apply set_shard_same with i.
Qed.

Lemma shard_at_touch st i sh key e :
  shard_at st i sh -> sh_entries sh !! key = Some e -> shard_at st i (TouchLocked key e sh).
Proof.
  intros [H1 H2] He. split; [by apply TouchLocked_wf|]. intros k e'. rewrite TouchLocked_entries. apply H2.
Qed.

Lemma touch_resident key e sh : sh_residentBytes (TouchLocked key e sh) = sh_residentBytes sh.
Proof. unfold TouchLocked. by destruct (en_inLru e). Qed.

Lemma lookup_entry_wf st k e : store_wf st -> lookup_entry st k = Some e -> entry_wf e.
Proof.
  intros Hw. unfold lookup_entry. destruct (s_shards st !! _) as [sh|] eqn:E; [|done]. simpl.
  intros He. destruct (sw_shards _ Hw _ _ E) as [[Hl _] _]. by eapply lw_entry.
Qed.

(** The fields no stripe operation touches. *)
Definition same_frame (st st' : Store) : Prop :=
  s_options st' = s_options st /\ s_identities st' = s_identities st /\
  s_nextIdentityId st' = s_nextIdentityId st /\ s_liveBindings st' = s_liveBindings st /\
  s_shardBudget st' = s_shardBudget st /\ s_shardMask st' = s_shardMask st.

Lemma u64_keep st : store_wf st -> forall a, s_residentTotal st = u64 (s_residentTotal st + (a - a)).
Proof.
  intros Hw a. rewrite Z.sub_diag, Z.add_0_r. symmetry. apply u64_small. by apply store_wf_total.
Qed.

(** ** The abstract store

    What a client of the store relies on: a partial map from keys to pending
    or published blocks.  Eviction is the only thing that happens behind a
    client's back, and it only ever forgets published blocks. *)

Definition abstract : Type := ShardKey -> option (option bytes).

Definition acquire_rel (v : abstract) (k : ShardKey) (r : Acquisition) (v' : abstract) : Prop :=
  match v k with
  | None => r = Owned /\ forall k', v' k' = if decide (k' = k) then Some None else v k'
  | Some None => r = Busy /\ forall k', v' k' = v k'
  | Some (Some d) => r = Hit (Some d) /\ forall k', v' k' = v k'
  end.

Definition await_rel (v : abstract) (k : ShardKey) (r : option (option bytes)) (v' : abstract) : Prop :=
  r = match v k with None => Some None | Some None => None | Some (Some d) => Some (Some d) end /\
  forall k', v' k' = v k'.

Definition publish_rel (v : abstract) (k : ShardKey) (d : bytes) (evicted : Z) (v' : abstract) : Prop :=
  match v k with
  | Some None =>
      v' k = Some (Some d) /\
      exists victims, NoDup victims /\ evicted = zlen victims /\ k ∉ victims /\
        forall k', k' <> k ->
          if decide (k' ∈ victims) then (exists d', v k' = Some (Some d')) /\ v' k' = None
          else v' k' = v k'
  | _ => evicted = 0 /\ forall k', v' k' = v k'
  end.

Definition abandon_rel (v : abstract) (k : ShardKey) (v' : abstract) : Prop :=
  forall k', v' k' = if decide (k' = k /\ v k = Some None) then None else v k'.

(** A binding this store made. *)
Definition binding_wf (st : Store) (b : Binding) : Prop := b_identityId b < s_nextIdentityId st.

Lemma Acquire_spec b i st :
  store_wf st -> binding_wf st b ->
  let '(r, st') := Acquire b i st in
  store_wf st' /\ same_frame st st' /\ acquire_rel (visible st) (key_of b i) r (visible st').
Proof.
  intros Hw Hb. unfold Acquire. set (k := key_of b i). destruct (ShardFor_some st k Hw) as [sh Hsh].
  rewrite Hsh. pose proof (sw_shards _ Hw _ _ Hsh) as Hat. pose proof Hat as [Hswf Hkeys].
  unfold acquire_rel, visible. rewrite (set_shard_same st _ sh k) by done.
  unfold shard_acquire. destruct (sh_entries sh !! k) as [e|] eqn:E; simpl.
  - pose proof (lw_entry _ (proj1 Hswf) _ _ E) as He. destruct (en_pending e) eqn:Ep.
    + apply entry_wf_pending in He as ->; [|done]. simpl.
      split; [apply set_shard_wf with sh; try done; by apply u64_keep|]. split; [done|].
      split; [done|]. intros k'. by rewrite (visible_same_entries _ _ sh).
    + apply entry_wf_published in He as (d & -> & _); [|done]. simpl.
      split.
      { apply set_shard_wf with sh; try done; [by apply shard_at_touch|]. by apply u64_keep. }
      split; [done|]. split; [done|]. intros k'. by rewrite (visible_same_entries _ _ sh).
  - split.
    { apply set_shard_wf with sh; try done; [|by apply u64_keep]. split.
      - pose proof (shard_acquire_wf _ k sh Hswf) as H. unfold shard_acquire in H. by rewrite E in H.
      - simpl. intros k' e' [[<- <-]|[_ Hk']]%lookup_insert_Some; [by split|eauto]. }
    split; [done|]. split; [done|]. intros k'. rewrite (lookup_set_shard _ _ sh) by done. simpl.
    destruct (decide (k' = k)) as [->|Hne].
    + by rewrite decide_True, lookup_insert_eq.
    + rewrite lookup_insert_ne by done. case_decide as Hs; [|done].
      by rewrite (set_shard_same st (ShardFor st k) sh k') by congruence.
Qed.

Lemma Await_spec b i st :
  store_wf st ->
  let '(r, st') := Await b i st in
  store_wf st' /\ same_frame st st' /\ await_rel (visible st) (key_of b i) r (visible st').
Proof.
  intros Hw. unfold Await. set (k := key_of b i). destruct (ShardFor_some st k Hw) as [sh Hsh].
  rewrite Hsh. pose proof (sw_shards _ Hw _ _ Hsh) as Hat. pose proof Hat as [Hswf Hkeys].
  unfold await_rel, visible. rewrite (set_shard_same st _ sh k) by done.
  unfold shard_await. destruct (sh_entries sh !! k) as [e|] eqn:E; simpl.
  - pose proof (lw_entry _ (proj1 Hswf) _ _ E) as He. destruct (en_pending e) eqn:Ep.
    + apply entry_wf_pending in He as ->; [|done]. simpl.
      split; [apply set_shard_wf with sh; try done; by apply u64_keep|]. split; [done|].
      split; [done|]. intros k'. by rewrite (visible_same_entries _ _ sh).
    + apply entry_wf_published in He as (d & -> & _); [|done]. simpl.
      split.
      { apply set_shard_wf with sh; try done; [by apply shard_at_touch|]. by apply u64_keep. }
      split; [done|]. split; [done|]. intros k'. by rewrite (visible_same_entries _ _ sh).
  - split; [apply set_shard_wf with sh; try done; by apply u64_keep|]. split; [done|].
    split; [done|]. intros k'. by rewrite (visible_same_entries _ _ sh).
Qed.

Lemma Abandon_spec b i st :
  store_wf st ->
  store_wf (Abandon b i st) /\ same_frame st (Abandon b i st) /\
  abandon_rel (visible st) (key_of b i) (visible (Abandon b i st)).
Proof.
  intros Hw. unfold Abandon. set (k := key_of b i). destruct (ShardFor_some st k Hw) as [sh Hsh].
  rewrite Hsh. pose proof (sw_shards _ Hw _ _ Hsh) as Hat. pose proof Hat as [Hswf Hkeys].
  assert (sh_residentBytes (shard_abandon k sh) = sh_residentBytes sh) as Er.
  { unfold shard_abandon. destruct (_ !! k) as [e|]; [|done]. by destruct (en_pending e). }
  split.
  { apply set_shard_wf with sh; try done; [|rewrite Er; by apply u64_keep].
    split; [by apply shard_abandon_wf|]. intros k' e' Hk'. apply (Hkeys k' e'). revert Hk'.
    unfold shard_abandon. destruct (sh_entries sh !! k) as [e|]; [|done].
    destruct (en_pending e); [|done]. simpl. by intros [_ ?]%lookup_delete_Some. }
  split; [done|]. unfold abandon_rel, visible. intros k'.
  rewrite (lookup_set_shard _ _ sh), (set_shard_same st _ sh k) by done.
  destruct (decide (k' = k)) as [->|Hne].
  - rewrite (decide_True (P := ShardFor st k = _)) by done. unfold shard_abandon.
    destruct (sh_entries sh !! k) as [e|] eqn:E.
    2:{ rewrite E. case_decide; [done|]. by rewrite (set_shard_same st (ShardFor st k) sh k), E. }
    pose proof (lw_entry _ (proj1 Hswf) _ _ E) as [->|(d & -> & _)]; simpl.
    + rewrite lookup_delete_eq, decide_True by done. done.
    + rewrite E, decide_False by naive_solver. simpl. by rewrite (set_shard_same st (ShardFor st k) sh k), E.
  - rewrite (decide_False (P := k' = k /\ _)) by naive_solver. case_decide as Hs; [|done].
    rewrite (set_shard_same st (ShardFor st k) sh k') by congruence. unfold shard_abandon.
    destruct (sh_entries sh !! k) as [e|]; [|done].
    destruct (en_pending e); simpl; by rewrite ?lookup_delete_ne.
Qed.

Lemma u64_add_sub t a b : u64 (u64 (t + a) - b) = u64 (t + (a - b)).
Proof. unfold u64. rewrite Zminus_mod_idemp_l. f_equal. lia. Qed.

(** Writing a stripe back as it was changes nothing. *)
Lemma set_shard_idle st k sh :
  store_wf st -> s_shards st !! ShardFor st k = Some sh ->
  forall r, r = (sh, s_residentTotal st, 0) ->
    let '(sh', total, evicted) := r in
    store_wf (set_shard st (ShardFor st k) sh' total) /\ same_frame st (set_shard st (ShardFor st k) sh' total) /\
    (evicted = 0 /\ forall k', en_block <$> lookup_entry (set_shard st (ShardFor st k) sh' total) k'
                               = en_block <$> lookup_entry st k').
Proof.
  intros Hw Hsh r ->. split; [apply set_shard_wf with sh; try done|].
  - by apply (sw_shards _ Hw _ _ Hsh).
  - by apply u64_keep.
  - split; [done|]. split; [done|]. intros k'. by rewrite (visible_same_entries _ _ sh).
Qed.

Lemma Publish_spec b i d st :
  store_wf st -> zlen d <= kMaxBlockSize ->
  let '(evicted, st') := Publish b i d st in
  store_wf st' /\ same_frame st st' /\ publish_rel (visible st) (key_of b i) d evicted (visible st').
Proof.
  intros Hw Hd. unfold Publish. set (k := key_of b i). destruct (ShardFor_some st k Hw) as [sh Hsh].
  rewrite Hsh. pose proof (sw_shards _ Hw _ _ Hsh) as Hat. pose proof Hat as [Hswf Hkeys].
  pose proof (proj2 (sw_budget _ Hw)) as Hbud. pose proof (store_wf_total _ Hw) as Ht.
  unfold publish_rel, visible. rewrite (set_shard_same st _ sh k) by done.
  pose proof (set_shard_idle st k sh Hw Hsh) as Hsame.
  destruct (sh_entries sh !! k) as [e|] eqn:E.
  2:{ specialize (Hsame (shard_publish k d (s_shardBudget st) (s_residentTotal st) sh)).
      unfold shard_publish in *. rewrite E in *. by apply Hsame. }
  pose proof (lw_entry _ (proj1 Hswf) _ _ E) as [->|(d0 & -> & _)]; simpl.
  2:{ specialize (Hsame (shard_publish k d (s_shardBudget st) (s_residentTotal st) sh)).
      unfold shard_publish in *. rewrite E in *. by apply Hsame. }
  clear Hsame.
  destruct (shard_publish_spec (s_shardBudget st) k d (s_residentTotal st) sh (mkEntry None true 0 false))
    as (sh' & vs & -> & Hev & Hkv & Hvs); [done..|].
  destruct (published_wf (s_shardBudget st) k d sh (mkEntry None true 0 false)) as [Hpw Hpr]; [done..|].
  assert (forall x, x ∈ vs -> x <> k) as Hne by (intros x Hx ->; done).
  assert (forall k', k' <> k -> sh_entries sh' !! k' = if decide (k' ∈ vs) then None else sh_entries sh !! k') as Hen.
  { intros k' Hk'. rewrite (ev_entries _ _ _ _ Hev). unfold published. simpl. by rewrite lookup_insert_ne. }
  assert (sh_entries sh' !! k = Some (mkEntry (Some d) false (zlen d) true)) as Hek.
  { rewrite (ev_entries _ _ _ _ Hev), decide_False by done. unfold published. simpl. apply lookup_insert_eq. }
  split; [|split; [done|]].
  - apply set_shard_wf with sh; try done.
    + split; [apply Hev|]. intros k' e' Hk'. destruct (decide (k' = k)) as [->|Hk]; [by apply (Hkeys _ _ E)|].
      rewrite Hen in Hk' by done. case_decide; [done|]. by apply (Hkeys _ _ Hk').
    + rewrite u64_add_sub, (ev_bytes _ _ _ _ Hev), Hpr. f_equal. f_equal.
      rewrite (zsum_ext (bytes_at (sh_entries (published k d sh))) (bytes_at (sh_entries sh))); [lia|].
      intros x Hx. apply bytes_at_insert_ne. specialize (Hne x Hx). congruence.
  - split.
    { rewrite (lookup_set_shard _ _ sh), decide_True by done. by rewrite Hek. }
    exists vs. split_and!; [|done..|].
    { pose proof (lw_nodup _ Hpw) as Hn. rewrite (ev_lru _ _ _ _ Hev) in Hn. apply NoDup_app in Hn. apply Hn. }
    rewrite Forall_forall in Hvs. intros k' Hk'. rewrite (lookup_set_shard _ _ sh) by done.
    destruct (decide (k' ∈ vs)) as [Hin|Hin].
    + apply Hvs in Hin as Hlru. apply (lw_lru _ (proj1 Hswf)) in Hlru as (e & He & Hi).
      destruct (Hkeys _ _ He) as [Hs _]. rewrite decide_True, Hen, decide_True by done.
      rewrite (set_shard_same st (ShardFor st k) sh k'), He by done.
      destruct (lw_entry _ (proj1 Hswf) _ _ He) as [->|(d' & -> & _)]; [done|]. eauto.
    + case_decide as Hs; [|done]. rewrite Hen, decide_False by done.
      by rewrite (set_shard_same st (ShardFor st k) sh k').
Qed.

(** ** Construction, binding and closing *)

Lemma zsum_zero {A} (f : A -> Z) l : (forall x, x ∈ l -> f x = 0) -> zsum f l = 0.
Proof.
  intros H. rewrite (zsum_ext f (fun _ => 0)) by done. unfold zsum. clear H. induction l; simpl; lia.
Qed.

Lemma shard_count_loop_spec fuel n desired :
  0 <= n -> n + Z.of_nat fuel <= 6 ->
  exists m, n <= m <= 6 /\ shard_count_loop fuel (2 ^ n) desired = 2 ^ m.
Proof.
  revert n. induction fuel as [|f IH]; intros n Hn Hf; cbn [shard_count_loop]; [exists n; ands|].
  destruct (_ && _); [|exists n; ands].
  assert (u32 (2 ^ n * 2) = 2 ^ (n + 1)) as ->.
  { rewrite u32_small; [by rewrite Z.pow_add_r by lia|]. unfold is_u32.
    assert (0 < 2 ^ n <= 2 ^ 6) by (split; [lia|apply Z.pow_le_mono_r; lia]). lia. }
  destruct (IH (n + 1)) as (m & ? & ?); [lia..|]. exists m. ands.
Qed.

Lemma ChooseShardCount_spec budget bs :
  exists n, 0 <= n <= 6 /\ ChooseShardCount budget bs = 2 ^ n.
Proof.
  unfold ChooseShardCount.
  destruct (shard_count_loop_spec 6 0 (if bs >? 0 then budget / u64 (bs * 8) else 1)) as (n & ? & ?);
    [lia..|]. eauto.
Qed.

Lemma ResetLocked_wf requested st :
  options_typed requested -> co_budgetBytes requested + kMaxBlockSize < 2 ^ 64 ->
  store_wf (ResetLocked requested st).
Proof.
  intros Ht Hb. pose proof (Normalized_normal _ Ht) as Hn. pose proof (Normalized_typed _ Ht) as Ht'.
  assert (co_budgetBytes (Normalized requested) + kMaxBlockSize < 2 ^ 64 /\
          0 < co_blockSize (Normalized requested) <= kMaxBlockSize) as [Hb' Hbs].
  { destruct (RoundDown_spec (if co_blockSize requested =? 0 then kDefaultBlockSize else co_blockSize requested))
      as (k & Hk & E & _). unfold Normalized. simpl. rewrite E.
    assert (0 < 2 ^ k <= 2 ^ 26) by (split; [apply Z.pow_pos_nonneg; lia|apply Z.pow_le_mono_r; lia]).
    unfold kMaxBlockSize in *. lia. }
  unfold ResetLocked. destruct (ChooseShardCount_spec (co_budgetBytes (Normalized requested))
    (co_blockSize (Normalized requested))) as (n & Hn6 & Ec). rewrite Ec.
  assert (0 < 2 ^ n) by (apply Z.pow_pos_nonneg; lia). pose proof (ot_budget _ Ht') as [Hb0 _].
  assert (0 <= co_budgetBytes (Normalized requested) / 2 ^ n <= co_budgetBytes (Normalized requested)).
  { split; [apply Z.div_pos; lia|]. apply Z.div_le_upper_bound; nia. }
  clear Hn Ht Hb Ec. generalize dependent (Normalized requested). intros o Ht' Hb' Hbs Hb0 Hdiv.
  split; simpl; [| |unfold kMaxBlockSize in *; lia| |by intros ? ?; rewrite lookup_empty..].
  - intros i sh [-> _]%lookup_replicate. split; simpl; [apply shard_wf_empty; lia|].
    intros k e. by rewrite lookup_empty.
  - exists n. split; [done|]. split.
    + unfold zlen. rewrite length_replicate. lia.
    + by rewrite Z.ones_equiv.
  - rewrite zsum_zero; [done|]. by intros x [-> _]%elem_of_replicate.
Qed.

Lemma ResetLocked_visible requested st k : visible (ResetLocked requested st) k = None.
Proof.
  unfold visible, lookup_entry.
  destruct (s_shards (ResetLocked requested st) !! _) as [sh|] eqn:E; [|done]. simpl in E |- *.
  apply lookup_replicate in E as [-> _]. simpl. by rewrite lookup_empty.
Qed.

Lemma BlockCache_new_wf requested :
  options_typed requested -> co_budgetBytes requested + kMaxBlockSize < 2 ^ 64 ->
  store_wf (BlockCache_new requested) /\ forall k, visible (BlockCache_new requested) k = None.
Proof. intros Ht Hb. split; [by apply ResetLocked_wf|]. intros k. apply ResetLocked_visible. Qed.

(** A reconfiguration is refused while a binding is alive. *)
Lemma ConfigureProcess_spec options st :
  (s_liveBindings st <> 0 -> ConfigureProcess options st = (false, st)) /\
  (s_liveBindings st = 0 -> ConfigureProcess options st = (true, ResetLocked options st)).
Proof.
  unfold ConfigureProcess. destruct (Z.eqb_spec (s_liveBindings st) 0); naive_solver.
Qed.

Lemma close_shards_spec st id shards total base :
  (forall i sh, shards !! i = Some sh -> shard_at st (base + i) sh) -> is_u64 total ->
  let '(shards', total') := close_shards id shards total in
  (forall i sh', shards' !! i = Some sh' -> shard_at st (base + i) sh') /\
  length shards' = length shards /\
  total' = u64 (total + (zsum sh_residentBytes shards' - zsum sh_residentBytes shards)) /\
  forall i k, (shards' !! i ≫= fun sh => sh_entries sh !! k)
    = if decide (sk_identityId k = id) then None else shards !! i ≫= fun sh => sh_entries sh !! k.
Proof.
  revert total base. induction shards as [|sh rest IH]; intros total base Hat Ht; cbn [close_shards].
  { split_and!; [done..| |by intros; case_decide].
    simpl. rewrite Z.add_0_r. symmetry. by apply u64_small. }
  pose proof (Hat 0%nat sh eq_refl) as [Hsw Hkeys]. rewrite Nat.add_0_r in Hkeys.
  pose proof (shard_close_spec _ id sh total Hsw Ht) as H.
  destruct (shard_close id sh total) as [sh' t1]. destruct H as (H1 & H2 & H3).
  specialize (IH t1 (S base)). destruct (close_shards id rest t1) as [rest' t2].
  destruct IH as (I1 & I2 & I3 & I4).
  { intros i sh0 Hi. specialize (Hat (S i) sh0 Hi). by replace (S base + i)%nat with (base + S i)%nat by lia. }
  { rewrite H2. apply u64_is_u64. }
  split; [|split; [simpl; lia|split]].
  - intros [|i] sh0 Hi; simpl in Hi.
    + injection Hi as <-. split; [done|]. intros k e Hk. rewrite H3 in Hk. case_decide; [done|].
      rewrite Nat.add_0_r. by eapply Hkeys.
    + replace (base + S i)%nat with (S base + i)%nat by lia. by apply I1.
  - rewrite I3, H2. unfold u64. rewrite Zplus_mod_idemp_l. f_equal. unfold zsum. simpl. lia.
  - intros [|i] k; simpl; [apply H3|apply I4].
Qed.

Lemma store_wf_live st live :
  store_wf st ->
  store_wf (mkStore (s_options st) (s_shards st) (s_shardMask st) (s_shardBudget st)
    (s_residentTotal st) (s_identities st) (s_nextIdentityId st) live).
Proof.
  intros [W1 W2 W3 W4 W5 W6]. split; try done. intros i sh Hi.
  destruct (W1 i sh Hi) as [A1 A2]. by split.
Qed.

Lemma Binding_close_spec b st :
  store_wf st ->
  let st' := Binding_close b st in
  store_wf st' /\ s_identities st' = s_identities st /\ s_nextIdentityId st' = s_nextIdentityId st /\
  s_liveBindings st' = u64 (s_liveBindings st - 1) /\
  forall k, visible st' k =
    if decide (b_isPrivate b = true /\ sk_identityId k = b_identityId b) then None else visible st k.
Proof.
  intros Hw. unfold Binding_close. destruct (b_isPrivate b) eqn:Ep.
  2:{ split; [by apply store_wf_live|]. split_and!; [done..|]. intros k. by rewrite decide_False by naive_solver. }
  pose proof (close_shards_spec st (b_identityId b) (s_shards st) (s_residentTotal st) 0) as H.
  destruct (close_shards _ _ _) as [shards' total']. destruct H as (H1 & H2 & H3 & H4).
  { intros i sh. apply (sw_shards _ Hw). } { by apply store_wf_total. }
  split.
  - destruct Hw as [W1 W2 W3 W4 W5 W6]. split; simpl; try done.
    + intros i sh Hi. destruct (H1 i sh Hi) as [A1 A2]. split; [done|]. apply A2.
    + destruct W2 as (n & ? & ? & ?). exists n. unfold zlen in *. by rewrite H2.
    + rewrite H3, W4. unfold u64. rewrite Zplus_mod_idemp_l. f_equal. lia.
  - split_and!; [done..|]. intros k. unfold visible, lookup_entry.
    change (ShardFor _ k) with (ShardFor st k) at 1. cbn [s_shards]. rewrite H4.
    case_decide as Hd.
    + by rewrite decide_True by done.
    + by rewrite decide_False by naive_solver.
Qed.

(** Binding: a private identity is fresh, a shared one is interned once. *)
Lemma Bind_spec rid v bs st :
  store_wf st -> 0 <= s_nextIdentityId st < 2 ^ 64 - 1 ->
  let '(b, st') := Bind st rid v bs in
  store_wf st' /\ (forall k, visible st' k = visible st k) /\
  s_liveBindings st' = u64 (s_liveBindings st + 1) /\
  s_nextIdentityId st <= s_nextIdentityId st' <= s_nextIdentityId st + 1 /\
  b_identity b = mkAssetIdentity rid (v_value v) bs /\
  b_isPrivate b = negb (IsShareable v) /\ b_identityId b < s_nextIdentityId st' /\
  (forall i id, s_identities st !! i = Some id -> s_identities st' !! i = Some id) /\
  if b_isPrivate b then b_identityId b = s_nextIdentityId st /\ s_identities st' = s_identities st
  else s_identities st' !! b_identity b = Some (b_identityId b) /\
       (s_identities st !! b_identity b = None -> b_identityId b = s_nextIdentityId st).
Proof.
  intros Hw Hn. unfold Bind. rewrite (u64_small (s_nextIdentityId st + 1)) by (unfold is_u64; lia).
  assert (forall ids live,
    (forall i id, ids !! i = Some id -> id < s_nextIdentityId st + 1) ->
    (forall i1 i2 id, ids !! i1 = Some id -> ids !! i2 = Some id -> i1 = i2) ->
    store_wf (mkStore (s_options st) (s_shards st) (s_shardMask st) (s_shardBudget st) (s_residentTotal st)
      ids (s_nextIdentityId st + 1) live)) as Hfresh.
  { intros ids live Hi Hinj. destruct Hw as [W1 W2 W3 W4 W5 W6]. split; try done; simpl.
    intros i sh Hsh. destruct (W1 i sh Hsh) as [A1 A2]. split; [done|]. simpl. intros k e Hk.
    destruct (A2 k e Hk). split; [done|lia]. }
  pose proof (sw_ids _ Hw) as Hids. pose proof (sw_inj _ Hw) as Hinj.
  destruct (IsShareable v) eqn:Es; simpl.
  - destruct (s_identities st !! _) as [id|] eqn:E; simpl.
    + split; [by apply store_wf_live|]. split_and!; try done; try lia; [by eapply Hids|congruence].
    + split; [apply Hfresh|].
      * intros i id [[<- <-]|[_ Hi]]%lookup_insert_Some; [lia|]. apply Hids in Hi. lia.
      * intros i1 i2 id [[<- <-]|[_ H1]]%lookup_insert_Some [[<- ?]|[_ H2]]%lookup_insert_Some; try done.
        -- apply Hids in H2. lia.
        -- apply Hids in H1. lia.
        -- eauto.
      * split_and!; try done; try lia; [|apply lookup_insert_eq].
        intros i id Hi. rewrite lookup_insert_ne; [done|]. intros <-. congruence.
  - split; [apply Hfresh|]; [|done|ands]. intros i id Hi. apply Hids in Hi. lia.
Qed.
