(* ===== verification/SingleFlight.v ===== *)
(** * SingleFlight: the store shared by concurrent readers

    The block store of [BlockCache] under interleaved operations of any number
    of readers.  A world is the store, the bindings alive and the obligations
    outstanding: a reader told [Owned] for a block holds the obligation to end
    it in one [Publish] or one [Abandon] (BlockCache.h, [Binding]).  [step] is
    one critical section of one reader; the theorems are invariants of every
    reachable world. *)

From S2P Require Import Prelude Validator CacheKey CacheOptions BlockCache.
From Stdlib Require Import Relations.

Record world : Type := mkWorld {
  w_store : Store;
  w_bindings : list Binding;
  w_owned : list (nat * ShardKey) }.

(** The obligation a reader [t] takes on with the answer [r]. *)
Definition take_on (t : nat) (k : ShardKey) (r : Acquisition) (owned : list (nat * ShardKey))
    : list (nat * ShardKey) :=
  match r with Owned => (t, k) :: owned | _ => owned end.

Inductive step : world -> world -> Prop :=
| step_bind st bs owned rid v blockSize b st' :
    0 <= s_nextIdentityId st < 2 ^ 64 - 1 ->
    Bind st rid v blockSize = (b, st') ->
    step (mkWorld st bs owned) (mkWorld st' (b :: bs) owned)
| step_acquire st bs owned t b i r st' :
    b ∈ bs -> Acquire b i st = (r, st') ->
    step (mkWorld st bs owned) (mkWorld st' bs (take_on t (key_of b i) r owned))
| step_await st bs owned b i r st' :
    b ∈ bs -> Await b i st = (r, st') ->
    step (mkWorld st bs owned) (mkWorld st' bs owned)
| step_publish st bs owned1 owned2 t b i d evicted st' :
    b ∈ bs -> zlen d <= kMaxBlockSize -> Publish b i d st = (evicted, st') ->
    step (mkWorld st bs (owned1 ++ (t, key_of b i) :: owned2)) (mkWorld st' bs (owned1 ++ owned2))
| step_abandon st bs owned1 owned2 t b i :
    b ∈ bs ->
    step (mkWorld st bs (owned1 ++ (t, key_of b i) :: owned2))
         (mkWorld (Abandon b i st) bs (owned1 ++ owned2))
| step_close st bs1 bs2 owned b :
    (** A reader closes with nothing outstanding that only it could end. *)
    (forall t k, (t, k) ∈ owned -> sk_identityId k = b_identityId b ->
       exists b', b' ∈ bs1 ++ bs2 /\ b_identityId b' = b_identityId b) ->
    step (mkWorld st (bs1 ++ b :: bs2) owned) (mkWorld (Binding_close b st) (bs1 ++ bs2) owned)
| step_configure st bs owned options ok st' :
    options_typed options -> co_budgetBytes options + kMaxBlockSize < 2 ^ 64 ->
    zlen bs < 2 ^ 64 ->
    ConfigureProcess options st = (ok, st') ->
    step (mkWorld st bs owned) (mkWorld st' bs owned).

Definition reachable (requested : CacheOptions) (w : world) : Prop :=
  clos_refl_trans_1n world step (mkWorld (BlockCache_new requested) [] []) w.

(** ** The invariant *)

(** How the live bindings stand to the identity table. *)
Record bindings_ok (st : Store) (bs : list Binding) : Prop := {
  bo_wf : forall b, b ∈ bs -> binding_wf st b;
  bo_shared : forall b, b ∈ bs -> b_isPrivate b = false ->
    s_identities st !! b_identity b = Some (b_identityId b);
  bo_private : forall b, b ∈ bs -> b_isPrivate b = true ->
    forall identity, s_identities st !! identity <> Some (b_identityId b);
  bo_nodup : NoDup (map b_identityId (filter (fun b => b_isPrivate b = true) bs)) }.

Record world_ok (w : world) : Prop := {
  wo_store : store_wf (w_store w);
  wo_bindings : bindings_ok (w_store w) (w_bindings w);
  wo_pending : forall k, visible (w_store w) k = Some None <-> k ∈ map snd (w_owned w);
  wo_unique : NoDup (map snd (w_owned w));
  wo_held : forall k, k ∈ map snd (w_owned w) ->
    exists b, b ∈ w_bindings w /\ b_identityId b = sk_identityId k;
  wo_live : s_liveBindings (w_store w) = u64 (zlen (w_bindings w)) }.

Lemma bindings_ok_frame st st' bs :
  s_identities st' = s_identities st -> s_nextIdentityId st' = s_nextIdentityId st ->
  bindings_ok st bs -> bindings_ok st' bs.
Proof. intros Hi Hn [H1 H2 H3 H4]. split; unfold binding_wf in *; rewrite ?Hi, ?Hn; done. Qed.

Lemma bindings_ok_remove st bs1 b bs2 :
  bindings_ok st (bs1 ++ b :: bs2) -> bindings_ok st (bs1 ++ bs2).
Proof.
  intros [H1 H2 H3 H4]. split.
  - intros x Hx. apply H1. set_solver.
  - intros x Hx. apply H2. set_solver.
  - intros x Hx. apply H3. set_solver.
  - rewrite filter_app, map_app in *. rewrite filter_cons in H4.
    case_decide; [|done]. rewrite map_cons in H4.
    rewrite <-Permutation_middle in H4. by apply NoDup_cons in H4 as [_ H4].
Qed.

Lemma bindings_ok_bind st bs rid v blockSize b st' :
  store_wf st -> 0 <= s_nextIdentityId st < 2 ^ 64 - 1 -> Bind st rid v blockSize = (b, st') ->
  bindings_ok st bs -> bindings_ok st' (b :: bs).
Proof.
  intros Hw Hn Hb [H1 H2 H3 H4]. pose proof (Bind_spec rid v blockSize st Hw Hn) as H.
  rewrite Hb in H. destruct H as (Hw' & Hvis & Hlive & Hnext & Hid & Hpriv & Hlt & Hmono & Hcase).
  assert (forall x, x ∈ bs -> b_identityId x <> s_nextIdentityId st) as Hold.
  { intros x Hx. specialize (H1 x Hx). unfold binding_wf in H1. lia. }
  split.
  - intros x [->|Hx]%elem_of_cons; [done|]. specialize (H1 x Hx). unfold binding_wf in *. lia.
  - intros x [->|Hx]%elem_of_cons Hp; [rewrite Hp in Hcase; apply Hcase|auto].
  - intros x [->|Hx]%elem_of_cons Hp identity E.
    + rewrite Hp in Hcase. destruct Hcase as [Hf Hsame]. rewrite Hsame in E.
      apply (sw_ids _ Hw) in E. lia.
    + destruct (b_isPrivate b) eqn:Eb; [destruct Hcase as [_ Hs]; rewrite Hs in E; by eapply H3|].
      destruct Hcase as [Hins Hfresh].
      destruct (s_identities st !! identity) as [id|] eqn:Ei.
      { rewrite (Hmono _ _ Ei) in E. injection E as ->. by apply (H3 x Hx Hp identity). }
      destruct (decide (identity = b_identity b)) as [->|Hne].
      * rewrite Hins in E. injection E as E. apply (Hold x Hx). rewrite <-E. by apply Hfresh.
      * revert E. unfold Bind in Hb. destruct (IsShareable v); [|by simplify_eq].
        simpl in Hb. destruct (s_identities st !! _) eqn:E2; simplify_eq; simpl; [by rewrite Ei|].
        rewrite lookup_insert_ne by done. by rewrite Ei.
  - rewrite filter_cons. case_decide as Hp; [|done]. rewrite map_cons. constructor; [|done].
    rewrite Hp in Hcase. destruct Hcase as [Hf _]. rewrite list_elem_of_In, in_map_iff.
    intros (x & Ex & Hx%list_elem_of_In). apply list_elem_of_filter in Hx as [_ Hx].
    apply (Hold x Hx). congruence.
Qed.

(** ** Preservation, one lemma per kind of step *)

Lemma owned_split (o1 o2 : list (nat * ShardKey)) t k :
  NoDup (map snd (o1 ++ (t, k) :: o2)) ->
  NoDup (map snd (o1 ++ o2)) /\ k ∉ map snd (o1 ++ o2) /\
  (forall k', k' ∈ map snd (o1 ++ (t, k) :: o2) <-> k' = k \/ k' ∈ map snd (o1 ++ o2)).
Proof.
  rewrite !map_app. simpl. rewrite <-Permutation_middle, NoDup_cons. intros [Hk Hn].
  split; [done|]. split; [done|]. intros k'. rewrite !elem_of_app, elem_of_cons. tauto.
Qed.

Lemma acquire_ok st bs owned t b i r st' :
  world_ok (mkWorld st bs owned) -> b ∈ bs -> Acquire b i st = (r, st') ->
  world_ok (mkWorld st' bs (take_on t (key_of b i) r owned)).
Proof.
  intros [W1 W2 W3 W4 W5 W6] Hb Ha; simpl in *.
  pose proof (Acquire_spec b i st W1 (bo_wf _ _ W2 b Hb)) as H. rewrite Ha in H.
  destruct H as (Hw & (_ & Hi & Hn & Hl & _) & Hrel). unfold acquire_rel in Hrel.
  assert (bindings_ok st' bs) by by apply bindings_ok_frame with st.
  destruct (visible st (key_of b i)) as [[d|]|] eqn:E; destruct Hrel as [-> Hv];
    split; simpl; try done; try congruence; try (intros k; rewrite Hv; apply W3).
  - intros k. rewrite Hv, elem_of_cons. destruct (decide (k = key_of b i)) as [->|Hne]; [tauto|].
    rewrite W3. naive_solver.
  - constructor; [|done]. rewrite <-W3. congruence.
  - intros k [->|Hk]%elem_of_cons; [by exists b|auto].
Qed.

Lemma publish_ok st bs o1 o2 t b i d evicted st' :
  world_ok (mkWorld st bs (o1 ++ (t, key_of b i) :: o2)) -> zlen d <= kMaxBlockSize ->
  Publish b i d st = (evicted, st') -> world_ok (mkWorld st' bs (o1 ++ o2)).
Proof.
  intros [W1 W2 W3 W4 W5 W6] Hd Hp; simpl in *.
  destruct (owned_split _ _ _ _ W4) as (Hn' & Hk & Hin).
  pose proof (Publish_spec b i d st W1 Hd) as H. rewrite Hp in H.
  destruct H as (Hw & (_ & Hi & Hn & Hl & _) & Hrel). unfold publish_rel in Hrel.
  assert (visible st (key_of b i) = Some None) as E by (apply W3, Hin; by left).
  rewrite E in Hrel. destruct Hrel as (Hpk & vs & _ & _ & Hkv & Hrest).
  split; simpl; try done.
  - by apply bindings_ok_frame with st.
  - intros k. destruct (decide (k = key_of b i)) as [->|Hne].
    { rewrite Hpk. split; [done|by intros]. }
    specialize (Hrest k Hne). destruct (decide (k ∈ vs)).
    + destruct Hrest as [[d' Hd'] ->]. split; [done|]. intros Hko.
      assert (visible st k = Some None) by (apply W3, Hin; by right). congruence.
    + rewrite Hrest, W3, Hin. naive_solver.
  - intros k Hko. apply W5, Hin. by right.
  - congruence.
Qed.

Lemma abandon_ok st bs o1 o2 t b i :
  world_ok (mkWorld st bs (o1 ++ (t, key_of b i) :: o2)) ->
  world_ok (mkWorld (Abandon b i st) bs (o1 ++ o2)).
Proof.
  intros [W1 W2 W3 W4 W5 W6]; simpl in *. destruct (owned_split _ _ _ _ W4) as (Hn' & Hk & Hin).
  destruct (Abandon_spec b i st W1) as (Hw & (_ & Hi & Hn & Hl & _) & Hrel).
  assert (visible st (key_of b i) = Some None) as E by (apply W3, Hin; by left).
  split; simpl; try done.
  - by apply bindings_ok_frame with st.
  - intros k. rewrite (Hrel k). case_decide as Hd.
    + destruct Hd as [-> _]. split; [done|by intros].
    + rewrite W3, Hin. naive_solver.
  - intros k Hko. apply W5, Hin. by right.
  - congruence.
Qed.

Lemma await_ok st bs owned b i r st' :
  world_ok (mkWorld st bs owned) -> Await b i st = (r, st') -> world_ok (mkWorld st' bs owned).
Proof.
  intros [W1 W2 W3 W4 W5 W6] Ha; simpl in *. pose proof (Await_spec b i st W1) as H. rewrite Ha in H.
  destruct H as (Hw & (_ & Hi & Hn & Hl & _) & _ & Hv). split; simpl; try done; try congruence.
  - by apply bindings_ok_frame with st.
  - intros k. by rewrite Hv.
Qed.

Lemma close_ok st bs1 bs2 owned b :
  world_ok (mkWorld st (bs1 ++ b :: bs2) owned) ->
  (forall t k, (t, k) ∈ owned -> sk_identityId k = b_identityId b ->
     exists b', b' ∈ bs1 ++ bs2 /\ b_identityId b' = b_identityId b) ->
  world_ok (mkWorld (Binding_close b st) (bs1 ++ bs2) owned).
Proof.
  intros [W1 W2 W3 W4 W5 W6] Hout; simpl in *.
  destruct (Binding_close_spec b st W1) as (Hw & Hi & Hn & Hl & Hv).
  assert (forall k, k ∈ map snd owned -> exists t, (t, k) ∈ owned) as Htok.
  { intros k (x & -> & Hx)%list_elem_of_fmap. exists (fst x). by destruct x. }
  split; simpl; try done.
  - apply bindings_ok_frame with st; [done..|]. by eapply bindings_ok_remove.
  - intros k. rewrite Hv. destruct (decide (b_isPrivate b = true /\ sk_identityId k = b_identityId b)) as [Hd|Hd]; [|apply W3]. split; [done|]. intros Hk.
    destruct Hd as [Hp Hid]. exfalso. apply Htok in Hk as [t Ht].
    destruct (Hout t k Ht Hid) as (b' & Hb' & Eb').
    assert (b' ∈ bs1 ++ b :: bs2) as Hb2 by set_solver.
    destruct (b_isPrivate b') eqn:Ep'.
    + pose proof (bo_nodup _ _ W2) as Hnd. rewrite filter_app, filter_cons_True, map_app in Hnd by done.
      rewrite map_cons, <-Permutation_middle, <-map_app, <-filter_app in Hnd.
      apply NoDup_cons in Hnd as [Hnd _]. apply Hnd. rewrite <-Eb'. apply list_elem_of_fmap.
      exists b'. split; [done|]. by apply list_elem_of_filter.
    + apply (bo_private _ _ W2 b) with (b_identity b'); [set_solver|done|].
      rewrite <-Eb'. by apply (bo_shared _ _ W2).
  - intros k Hk. destruct (W5 k Hk) as (b' & Hb' & Eb'). apply Htok in Hk as [t Ht].
    apply elem_of_app in Hb' as [Hb'|[->|Hb']%elem_of_cons]; [exists b'; set_solver| |exists b'; set_solver].
    rewrite <-Eb'. by apply (Hout t k).
  - rewrite Hl, W6. unfold u64, zlen. rewrite Zminus_mod_idemp_l, !length_app. simpl. f_equal. lia.
Qed.

Lemma configure_ok st bs owned options ok st' :
  world_ok (mkWorld st bs owned) -> options_typed options ->
  co_budgetBytes options + kMaxBlockSize < 2 ^ 64 -> zlen bs < 2 ^ 64 ->
  ConfigureProcess options st = (ok, st') -> world_ok (mkWorld st' bs owned).
Proof.
  intros [W1 W2 W3 W4 W5 W6] Ht Hb Hz Hc; simpl in *.
  destruct (ConfigureProcess_spec options st) as [Hno Hyes].
  destruct (decide (s_liveBindings st = 0)) as [E|E].
  2:{ rewrite Hno in Hc by done. by injection Hc as <- <-. }
  rewrite Hyes in Hc by done. injection Hc as <- <-.
  assert (bs = []) as ->.
  { rewrite W6, u64_small in E by (split; [apply zlen_nonneg|done]). destruct bs; [done|].
    unfold zlen in E. simpl in E. lia. }
  assert (owned = []) as ->.
  { destruct owned as [|[t k] o]; [done|]. destruct (W5 k) as (b & Hb' & _); set_solver. }
  split; simpl; try done.
  - by apply ResetLocked_wf.
  - split; simpl; try set_solver. constructor.
  - intros k. rewrite ResetLocked_visible. set_solver.
Qed.

Lemma bind_ok st bs owned rid v blockSize b st' :
  world_ok (mkWorld st bs owned) -> 0 <= s_nextIdentityId st < 2 ^ 64 - 1 ->
  Bind st rid v blockSize = (b, st') -> world_ok (mkWorld st' (b :: bs) owned).
Proof.
  intros [W1 W2 W3 W4 W5 W6] Hn Hb. cbn [w_store w_bindings w_owned] in *.
  pose proof (Bind_spec rid v blockSize st W1 Hn) as H. rewrite Hb in H.
  destruct H as (Hw & Hv & Hl & _). split; cbn [w_store w_bindings w_owned]; try done.
  - by apply (bindings_ok_bind st bs rid v blockSize).
  - intros k. by rewrite Hv.
  - intros k Hk. destruct (W5 k Hk) as (b' & ? & ?). exists b'. set_solver.
  - rewrite Hl, W6. unfold u64, zlen. rewrite Zplus_mod_idemp_l. f_equal. simpl. lia.
Qed.

Lemma step_ok w w' : world_ok w -> step w w' -> world_ok w'.
Proof.
  intros Hok Hs. destruct Hs;
    eauto using bind_ok, acquire_ok, publish_ok, abandon_ok, await_ok, close_ok, configure_ok.
Qed.

Lemma initial_ok requested :
  options_typed requested -> co_budgetBytes requested + kMaxBlockSize < 2 ^ 64 ->
  world_ok (mkWorld (BlockCache_new requested) [] []).
Proof.
  intros Ht Hb. destruct (BlockCache_new_wf requested) as [Hw Hv]; [done..|].
  split; simpl; try done; [| |constructor|set_solver].
  - split; simpl; try set_solver. constructor.
  - intros k. rewrite Hv. set_solver.
Qed.

Lemma reachable_ok requested w :
  options_typed requested -> co_budgetBytes requested + kMaxBlockSize < 2 ^ 64 ->
  reachable requested w -> world_ok w.
Proof.
  intros Ht Hb Hr. pose proof (initial_ok requested Ht Hb) as H0.
  unfold reachable in Hr. induction Hr as [w|w1 w2 w3 Hs _ IH]; [done|].
  apply IH. by eapply step_ok.
Qed.

(** ** Single flight and isolation *)

(** C14: single flight, in every reachable state of the shared store, whatever the
    readers do and in whatever order: a block is pending exactly when one reader
    owes it, no two readers owe the same block, and no acquisition hands out a
    block that is owed. *)
Theorem single_flight requested w :
  options_typed requested -> co_budgetBytes requested + kMaxBlockSize < 2 ^ 64 ->
  reachable requested w ->
  (forall k, visible (w_store w) k = Some None <-> exists t, (t, k) ∈ w_owned w) /\
  (forall t1 t2 k, (t1, k) ∈ w_owned w -> (t2, k) ∈ w_owned w -> t1 = t2) /\
  (forall b i st', b ∈ w_bindings w -> Acquire b i (w_store w) = (Owned, st') ->
     forall t, (t, key_of b i) ∉ w_owned w).
Proof.
  intros Ht Hb Hr. pose proof (reachable_ok requested w Ht Hb Hr) as [W1 W2 W3 W4 W5 W6].
  split; [|split].
  - intros k. rewrite W3. split.
    + intros (x & -> & Hx)%list_elem_of_fmap. exists (fst x). by destruct x.
    + intros [t Hx]. apply list_elem_of_fmap. by exists (t, k).
  - intros t1 t2 k [i1 H1]%list_elem_of_lookup [i2 H2]%list_elem_of_lookup.
    assert (i1 = i2) as ->.
    { eapply (NoDup_lookup (map snd (w_owned w))); [done|..]; rewrite list_lookup_fmap;
        [by rewrite H1|by rewrite H2]. }
    rewrite H1 in H2. by injection H2.
  - intros b i st' Hbi Ha t Hin. pose proof (Acquire_spec b i _ W1 (bo_wf _ _ W2 b Hbi)) as H.
    rewrite Ha in H. destruct H as (_ & _ & Hrel). unfold acquire_rel in Hrel.
    assert (visible (w_store w) (key_of b i) = Some None) as E.
    { apply W3, list_elem_of_fmap. by exists (t, key_of b i). }
    rewrite E in Hrel. by destruct Hrel.
Qed.

(** ** Who the bindings belong to *)

(** What a reader was opened with. *)
Record Reader : Type := mkReader {
  rd_identifier : str;
  rd_validator : Validator;
  rd_blockSize : Z }.

(** A reachable world with the readers its bindings were made for, position by
    position. *)
Inductive tracked (requested : CacheOptions) : world -> list Reader -> Prop :=
| tracked_start : tracked requested (mkWorld (BlockCache_new requested) [] []) []
| tracked_bind st bs owned readers rid v blockSize b st' :
    tracked requested (mkWorld st bs owned) readers ->
    0 <= s_nextIdentityId st < 2 ^ 64 - 1 -> Bind st rid v blockSize = (b, st') ->
    tracked requested (mkWorld st' (b :: bs) owned) (mkReader rid v blockSize :: readers)
| tracked_close st bs1 b bs2 owned r1 r r2 :
    tracked requested (mkWorld st (bs1 ++ b :: bs2) owned) (r1 ++ r :: r2) -> length bs1 = length r1 ->
    step (mkWorld st (bs1 ++ b :: bs2) owned) (mkWorld (Binding_close b st) (bs1 ++ bs2) owned) ->
    tracked requested (mkWorld (Binding_close b st) (bs1 ++ bs2) owned) (r1 ++ r2)
| tracked_step w w' readers :
    tracked requested w readers -> step w w' -> w_bindings w' = w_bindings w -> tracked requested w' readers.

Lemma tracked_world requested w readers :
  tracked requested w readers -> reachable requested w /\ length (w_bindings w) = length readers.
Proof.
  intros Hr. unfold reachable. rewrite <-clos_rt_rt1n_iff.
  induction Hr as [|st bs owned readers rid v z b st' Hr [IH Hl] Hn Hb|st bs1 b bs2 owned r1 r r2 Hr [IH Hl] He Hs|w w' readers Hr [IH Hl] Hs E].
  - split; [apply rt_refl|done].
  - split; [|cbn in *; lia]. eapply rt_trans; [exact IH|]. apply rt_step. by eapply step_bind.
  - split; [|cbn in *; rewrite !length_app in *; cbn in *; lia]. eapply rt_trans; [exact IH|]. by apply rt_step.
  - split; [|by rewrite E]. eapply rt_trans; [exact IH|]. by apply rt_step.
Qed.

(** Every reachable world is one of some readers. *)
Lemma reachable_tracked requested w : reachable requested w -> exists readers, tracked requested w readers.
Proof.
  unfold reachable. rewrite <-clos_rt_rt1n_iff, clos_rt_rtn1_iff.
  induction 1 as [|w w' Hs _ (readers & IH)]; [exists []; constructor|].
  destruct (tracked_world _ _ _ IH) as [_ Hl].
  inversion Hs as [st bs owned rid v z b st' Hn Hb|st bs owned t b i r st' Hb Ha|st bs owned b i r st' Hb Ha
    |st bs o1 o2 t b i d ev st' Hb Hd Hp|st bs o1 o2 t b i Hb|st bs1 bs2 owned b Hout|st bs owned o ok st' Ht Hbud Hz Hc]; subst;
    try (exists readers; by eapply tracked_step).
  - eexists. by eapply tracked_bind.
  - cbn in Hl. rewrite length_app in Hl. cbn in Hl.
    rewrite <-(take_drop (length bs1) readers) in IH.
    destruct (drop (length bs1) readers) as [|r r2] eqn:Ed; [apply (f_equal length) in Ed; rewrite length_drop in Ed; cbn in Ed; lia|].
    exists (take (length bs1) readers ++ r2). eapply tracked_close; [exact IH| |exact Hs]. rewrite length_take. lia.
Qed.

(** A binding is the one [Bind] makes for its reader. *)
Definition made_for (b : Binding) (r : Reader) : Prop :=
  b_identity b = mkAssetIdentity (rd_identifier r) (v_value (rd_validator r)) (rd_blockSize r) /\
  b_isPrivate b = negb (IsShareable (rd_validator r)).

Lemma tracked_made requested w readers :
  options_typed requested -> co_budgetBytes requested + kMaxBlockSize < 2 ^ 64 ->
  tracked requested w readers -> Forall2 made_for (w_bindings w) readers.
Proof.
  intros Ht Hb. induction 1 as [|st bs owned readers rid v z b st' Hr IH Hn Hbind|st bs1 b bs2 owned r1 r r2 Hr IH He Hs|w w' readers Hr IH Hs E].
  - constructor.
  - constructor; [|done]. destruct (tracked_world _ _ _ Hr) as [Hre _].
    pose proof (Bind_spec rid v z st (wo_store _ (reachable_ok _ _ Ht Hb Hre)) Hn) as H. rewrite Hbind in H.
    destruct H as (_ & _ & _ & _ & H1 & H2 & _). done.
  - cbn in *. apply Forall2_app_inv in IH as [H1 H2]; [|done]. inversion H2; subst. by apply Forall2_app.
  - by rewrite E.
Qed.

(** Two bindings of one identity are shared ones of one key, and conversely. *)
Lemma bindings_shared st bs i j b1 b2 :
  store_wf st -> bindings_ok st bs -> bs !! i = Some b1 -> bs !! j = Some b2 -> i <> j ->
  b_identityId b1 = b_identityId b2 <->
  b_isPrivate b1 = false /\ b_isPrivate b2 = false /\ b_identity b1 = b_identity b2.
Proof.
  intros W1 [B1 B2 B3 B4] Hi Hj Hne.
  assert (b1 ∈ bs) as H1 by by apply list_elem_of_lookup_2 with i.
  assert (b2 ∈ bs) as H2 by by apply list_elem_of_lookup_2 with j.
  split.
  2:{ intros (P1 & P2 & E). pose proof (B2 b1 H1 P1) as E1. pose proof (B2 b2 H2 P2) as E2. rewrite E, E2 in E1. by injection E1. }
  intros Hid. destruct (b_isPrivate b1) eqn:E1, (b_isPrivate b2) eqn:E2.
  - exfalso. clear -Hi Hj Hne Hid B4 E1 E2. revert i j Hi Hj Hne B4.
    induction bs as [|b bs IH]; intros [|i] [|j] Hi Hj Hne B4; simplify_eq/=;
      rewrite filter_cons in B4.
    + rewrite decide_True in B4 by done. apply NoDup_cons in B4 as [B4 _]. apply B4. rewrite Hid.
      apply list_elem_of_fmap. exists b2. split; [done|]. apply list_elem_of_filter.
      split; [done|]. by apply list_elem_of_lookup_2 with j.
    + rewrite decide_True in B4 by done. apply NoDup_cons in B4 as [B4 _]. apply B4. rewrite <-Hid.
      apply list_elem_of_fmap. exists b1. split; [done|]. apply list_elem_of_filter.
      split; [done|]. by apply list_elem_of_lookup_2 with i.
    + apply (IH i j); [done..|lia|]. case_decide; [by apply NoDup_cons in B4 as [_ ?]|done].
  - exfalso. apply (B3 b1 H1 E1 (b_identity b2)). rewrite Hid. auto.
  - exfalso. apply (B3 b2 H2 E2 (b_identity b1)). rewrite <-Hid. auto.
  - split_and!; [done..|]. apply (sw_inj _ W1) with (b_identityId b1); [auto|]. rewrite Hid. auto.
Qed.

(** C16: isolation, in every reachable state of the shared store whose
    requested budget leaves room for one largest block below 2^64.  Two live readers
    share an identity, and so blocks, exactly when the validators they were opened
    with are both shareable (usable and strong) and they name the same resolved
    identifier, validator value and block size; a reader without a strong
    validator shares with nobody. *)
Theorem binding_isolation requested w readers i j b1 b2 r1 r2 :
  options_typed requested -> co_budgetBytes requested + kMaxBlockSize < 2 ^ 64 ->
  tracked requested w readers ->
  w_bindings w !! i = Some b1 -> readers !! i = Some r1 -> w_bindings w !! j = Some b2 -> readers !! j = Some r2 -> i <> j ->
  b_identityId b1 = b_identityId b2 <->
  IsShareable (rd_validator r1) = true /\ IsShareable (rd_validator r2) = true /\
  rd_identifier r1 = rd_identifier r2 /\ v_value (rd_validator r1) = v_value (rd_validator r2) /\
  rd_blockSize r1 = rd_blockSize r2.
Proof.
  intros Ht Hb Hr Hi Hri Hj Hrj Hne. destruct (tracked_world _ _ _ Hr) as [Hre _].
  pose proof (reachable_ok requested w Ht Hb Hre) as [W1 W2 _ _ _ _].
  rewrite (bindings_shared _ _ i j b1 b2 W1 W2 Hi Hj Hne). pose proof (tracked_made _ _ _ Ht Hb Hr) as Hm.
  destruct (Forall2_lookup_lr _ _ _ _ _ _ Hm Hi Hri) as [-> ->].
  destruct (Forall2_lookup_lr _ _ _ _ _ _ Hm Hj Hrj) as [-> ->].
  rewrite !negb_false_iff. split; [|by intros (-> & -> & -> & -> & ->)]. intros (H1 & H2 & E). by injection E.
Qed.

(** C15: the store implements its abstract specification, a partial map from keys
    to pending and published blocks: each of the four operations keeps the
    store's invariant and what it returns and does to the map is what the
    abstract operation allows.  Publishing may forget other published blocks
    and reports how many; nothing else ever forgets a block or loses a pending
    one. *)
Theorem store_refinement st b i d :
  store_wf st -> binding_wf st b -> zlen d <= kMaxBlockSize ->
  (let '(r, st') := Acquire b i st in
   store_wf st' /\ acquire_rel (visible st) (key_of b i) r (visible st')) /\
  (let '(r, st') := Await b i st in
   store_wf st' /\ await_rel (visible st) (key_of b i) r (visible st')) /\
  (let '(evicted, st') := Publish b i d st in
   store_wf st' /\ publish_rel (visible st) (key_of b i) d evicted (visible st')) /\
  (store_wf (Abandon b i st) /\ abandon_rel (visible st) (key_of b i) (visible (Abandon b i st))).
Proof.
  intros Hw Hb Hd. split_and!.
  - pose proof (Acquire_spec b i st Hw Hb) as H. destruct (Acquire b i st). naive_solver.
  - pose proof (Await_spec b i st Hw) as H. destruct (Await b i st). naive_solver.
  - pose proof (Publish_spec b i d st Hw Hd) as H. destruct (Publish b i d st). naive_solver.
  - apply (Abandon_spec b i st Hw).
  - apply (Abandon_spec b i st Hw).
Qed.

(** The budget of a stripe: its share of the configured budget, and room for one
    block of the configured size. *)
Definition stripe_share (st : Store) : Z :=
  Z.max (co_budgetBytes (s_options st) / (s_shardMask st + 1)) (co_blockSize (s_options st)).

Lemma step_share w w' :
  world_ok w -> step w w' -> s_shardBudget (w_store w) = stripe_share (w_store w) ->
  s_shardBudget (w_store w') = stripe_share (w_store w').
Proof.
  intros [W1 W2 _ _ _ _] Hs. assert (forall st st', same_frame st st' -> s_shardBudget st = stripe_share st -> s_shardBudget st' = stripe_share st') as Hf.
  { intros st st' (F1 & _ & _ & _ & F5 & F6). unfold stripe_share. by rewrite F1, F5, F6. }
  destruct Hs as [st bs owned rid v z b st' Hn Hb|st bs owned t b i r st' Hb Ha|st bs owned b i r st' Hb Ha
    |st bs o1 o2 t b i d ev st' Hb Hd Hp|st bs o1 o2 t b i Hb|st bs1 bs2 owned b Hout|st bs owned o ok st' Ht Hbud Hz Hc];
    cbn [w_store w_bindings] in *.
  - unfold Bind in Hb. destruct (negb _); [by injection Hb as _ <-|]. destruct (s_identities st !! _); by injection Hb as _ <-.
  - apply Hf. pose proof (Acquire_spec b i st W1 (bo_wf _ _ W2 b Hb)) as H. rewrite Ha in H. apply H.
  - apply Hf. pose proof (Await_spec b i st W1) as H. rewrite Ha in H. apply H.
  - apply Hf. pose proof (Publish_spec b i d st W1 Hd) as H. rewrite Hp in H. apply H.
  - apply Hf. apply (Abandon_spec b i st W1).
  - unfold Binding_close. by destruct (if b_isPrivate b then _ else _).
  - unfold ConfigureProcess in Hc. destruct (negb _); injection Hc as _ <-; [done|]. intros _. unfold stripe_share, ResetLocked. cbn.
    by rewrite Z.sub_add.
Qed.

Lemma reachable_share requested w :
  options_typed requested -> co_budgetBytes requested + kMaxBlockSize < 2 ^ 64 ->
  reachable requested w -> s_shardBudget (w_store w) = stripe_share (w_store w).
Proof.
  intros Ht Hb Hr. assert (s_shardBudget (BlockCache_new requested) = stripe_share (BlockCache_new requested)) as H0
    by (unfold stripe_share, BlockCache_new, ResetLocked; cbn; by rewrite Z.sub_add).
  pose proof (initial_ok requested Ht Hb) as Hok. unfold reachable in Hr.
  change (BlockCache_new requested) with (w_store (mkWorld (BlockCache_new requested) [] [])) in H0 at 1 2.
  induction Hr as [w|w1 w2 w3 Hs _ IH]; [done|]. apply IH; [by eapply step_share|by eapply step_ok].
Qed.

(** C17: memory stays bounded in every reachable state, for a requested budget
    that leaves room for one largest block below 2^64. A stripe's budget is its
    share of the configured budget, or one block of the configured size where that
    is more.  Its resident count is the sum of the lengths of the blocks it holds,
    and is at most its budget unless it holds a single block, which is never longer
    than the largest block size (64 MiB); every published block is counted; and
    the process total is the sum over the stripes, as a 64-bit number. *)
Theorem reachable_budget requested w i sh :
  options_typed requested -> co_budgetBytes requested + kMaxBlockSize < 2 ^ 64 ->
  reachable requested w -> s_shards (w_store w) !! i = Some sh ->
  let st := w_store w in
  s_shardBudget st = Z.max (co_budgetBytes (s_options st) / zlen (s_shards st)) (co_blockSize (s_options st)) /\
  sh_residentBytes sh = zsum (bytes_at (sh_entries sh)) (sh_lru sh) /\
  (forall k d, lookup_entry st k ≫= en_block = Some d -> ShardFor st k = i ->
     k ∈ sh_lru sh /\ bytes_at (sh_entries sh) k = zlen d /\ zlen d <= kMaxBlockSize) /\
  (sh_residentBytes sh <= s_shardBudget st \/
   (length (sh_lru sh) <= 1)%nat /\ sh_residentBytes sh <= kMaxBlockSize) /\
  s_residentTotal st = u64 (zsum sh_residentBytes (s_shards st)).
Proof.
  intros Ht Hb Hr Hsh st. pose proof (wo_store _ (reachable_ok requested w Ht Hb Hr)) as Hw. fold st in Hw, Hsh.
  destruct (sw_shards _ Hw _ _ Hsh) as [[Hl Hbud] Hkeys]. split_and!.
  - unfold st. rewrite (reachable_share requested w Ht Hb Hr). fold st. unfold stripe_share.
    destruct (sw_count _ Hw) as (n & Hn & -> & ->). do 2 f_equal. rewrite Z.ones_equiv. lia.
  - apply Hl.
  - intros k d Hk Hi. unfold lookup_entry in Hk. rewrite Hi, Hsh in Hk. simpl in Hk.
    destruct (sh_entries sh !! k) as [e|] eqn:Ee; [|done]. simpl in Hk.
    destruct (lw_entry _ Hl k e Ee) as [->|(x & -> & Hx)]; [done|]. simpl in Hk. injection Hk as ->.
    split_and!; [apply (lw_lru _ Hl); by eexists|unfold bytes_at; by rewrite Ee|done].
  - destruct Hbud as [Hbud|Hone]; [by left|right]. split; [done|]. rewrite (lw_resident _ Hl).
    assert (forall k, bytes_at (sh_entries sh) k <= kMaxBlockSize) as Hbk by (intros k; by apply bytes_at_range).
    destruct (sh_lru sh) as [|k [|]]; simpl in *; [unfold kMaxBlockSize; lia| |lia].
    specialize (Hbk k). lia.
  - apply (sw_total _ Hw).
Qed.
