(* ===== verification/PersistentTier.v ===== *)
(** * PersistentTier: what the cached reader asks of the disk tier

    The operations of [DiskBlockStore] (libs/usd-asset-cache,
    include/usdAssetCache/DiskBlockStore.h) that the read path calls, as a type
    class, with the promise the read path relies on: a block it is given was
    stored for the same key.  [Persistable] is the rule of which validators
    admit an entry that outlives the process. *)

From S2P Require Import Prelude Validator CacheKey BlockPlan.

Definition Persistable (v : Validator) : bool :=
  bool_decide (v_strength v = Strong) && bool_decide (v_kind v = EntityTag).

(** [Load] returns the block or [None] for a miss; [Store] whether it wrote. *)
Class PersistentTier (D : Type) : Type := {
  IsEnabled : D -> bool;
  Load : D -> AssetIdentity -> Z -> Z -> option bytes * D;
  Store_ : D -> AssetIdentity -> Z -> bool -> bytes -> bool * D }.

(** The bytes of block [i] of an asset. *)
Definition block_of (A : bytes) (blockSize i : Z) : bytes :=
  slice A (i * blockSize) (block_end blockSize (zlen A) i - i * blockSize).

(** The tier holds, for the key [identity], only blocks of [A]. *)
Class TierContract (D : Type) `{PersistentTier D} (Dinv : D -> Prop) (identity : AssetIdentity)
    (A : bytes) : Prop := {
  tc_load : forall d i len r d', Dinv d -> Load d identity i len = (r, d') ->
    Dinv d' /\
    forall data, r = Some data -> zlen data = len /\
      (in_asset (ai_blockSize identity) (zlen A) i ->
       zlen data = zlen (block_of A (ai_blockSize identity) i) ->
       data = block_of A (ai_blockSize identity) i);
  tc_store : forall d i persistable r d', Dinv d ->
    in_asset (ai_blockSize identity) (zlen A) i ->
    Store_ d identity i persistable (block_of A (ai_blockSize identity) i) = (r, d') -> Dinv d' }.

(** The longer lifetime asks for one thing more. *)
Lemma Persistable_shareable v : Persistable v = true -> IsShareable v = true.
Proof.
  unfold Persistable, IsShareable, IsUsable. rewrite !andb_true_iff, !bool_decide_eq_true.
  intros [-> ->]. done.
Qed.

Lemma zlen_block_of A blockSize i :
  0 < blockSize -> in_asset blockSize (zlen A) i ->
  zlen (block_of A blockSize i) = block_end blockSize (zlen A) i - i * blockSize.
Proof.
  intros Hb Hi. pose proof (block_end_gt blockSize (zlen A) Hb i Hi). destruct Hi.
  apply zlen_slice; [nia|lia|]. unfold block_end. lia.
Qed.
