(* ===== verification/CachedReader.v ===== *)
(** * CachedReader: the block-caching reader

    libs/usd-asset-cache: include/usdAssetCache/CachedAssetReader.h and
    src/CachedAssetReader.cpp.  [ReadCached] is the source's function statement
    by statement, in the monad of [Effects]: its local variables, the objects
    it shares with other readers (the block store, the persistent tier, the
    reader underneath) and its counters are the state.

    Concurrency is interference: before every call on a shared object the
    environment [env] runs, a function of time on the shared objects that
    stands for whatever the other readers did in the meantime.  The theorems
    hold for every environment that keeps the invariants this reader keeps. *)

From S2P Require Import Prelude Effects Diagnostics Validator RangeMath AssetReader Metrics.
From S2P Require Import CacheKey CacheOptions BlockPlan BlockCache PersistentTier.

Open Scope effect_scope.

Definition kMaxCooperativePasses : nat := 3.

(** [CopyOverlap]: the buffer after the copy and the number of bytes. *)
Definition CopyOverlap (dst : bytes) (rangeOffset rangeLength blockOffset : Z) (blockBytes : bytes)
    (blockLength : Z) : bytes * Z :=
  let rangeEnd := u64 (rangeOffset + rangeLength) in
  let blockEnd := u64 (blockOffset + blockLength) in
  let begin := Z.max rangeOffset blockOffset in
  let end_ := Z.min rangeEnd blockEnd in
  if end_ <=? begin then (dst, 0)
  else
    let length := u64 (end_ - begin) in
    (write_at dst (begin - rangeOffset) (slice blockBytes (begin - blockOffset) length), length).

(** ** [OwnedBlocks] *)

Record OwnedBlocks : Type := mkOwnedBlocks {
  ob_blocks : list (Z * bool);
  ob_outstanding : Z;
  ob_cursor : nat }.

Definition OwnedBlocks_new : OwnedBlocks := mkOwnedBlocks [] 0 0.

Definition Owned_Add (blockIndex : Z) (o : OwnedBlocks) : OwnedBlocks :=
  mkOwnedBlocks (ob_blocks o ++ [(blockIndex, false)]) (ob_outstanding o + 1) (ob_cursor o).

Definition Owned_Size (o : OwnedBlocks) : Z := ob_outstanding o.

Definition Owned_Empty (o : OwnedBlocks) : bool := ob_outstanding o =? 0.

Definition Owned_Outstanding (o : OwnedBlocks) : list Z :=
  map fst (filter (fun e : Z * bool => snd e = false) (ob_blocks o)).

(** [while (_cursor < _blocks.size() && _blocks\[_cursor\].settled) ++_cursor]. *)
Fixpoint skip_settled (blocks : list (Z * bool)) (cursor : nat) : nat :=
  match blocks with
  | (_, true) :: rest => skip_settled rest (S cursor)
  | _ => cursor
  end.

Definition SkipSettled (o : OwnedBlocks) : OwnedBlocks :=
  mkOwnedBlocks (ob_blocks o) (ob_outstanding o)
    (skip_settled (drop (ob_cursor o) (ob_blocks o)) (ob_cursor o)).

(** [Next] moves the cursor; its value is undefined when everything is
    settled, and no caller asks then. *)
Definition Owned_Next (o : OwnedBlocks) : Z * OwnedBlocks :=
  let o := SkipSettled o in
  (match ob_blocks o !! ob_cursor o with Some e => fst e | None => 0 end, o).

Definition Owned_MarkPublished (o : OwnedBlocks) : OwnedBlocks :=
  let o := SkipSettled o in
  mkOwnedBlocks (alter (fun e : Z * bool => (fst e, true)) (ob_cursor o) (ob_blocks o))
    (ob_outstanding o - 1) (ob_cursor o).

(** The loop of [Settle]: the first unsettled entry with that index. *)
Fixpoint settle (blockIndex : Z) (blocks : list (Z * bool)) : option (list (Z * bool)) :=
  match blocks with
  | [] => None
  | (i, s) :: rest =>
      if (i =? blockIndex) && negb s then Some ((i, true) :: rest)
      else (fun r => (i, s) :: r) <$> settle blockIndex rest
  end.

Definition Owned_Settle (blockIndex : Z) (o : OwnedBlocks) : OwnedBlocks :=
  match settle blockIndex (ob_blocks o) with
  | Some blocks => mkOwnedBlocks blocks (ob_outstanding o - 1) (ob_cursor o)
  | None => o
  end.

(** ** The reader *)

(** The calls a read makes on the store, for the record. *)
Inductive event : Type :=
| Acquired (blockIndex : Z)
| Published (blockIndex : Z)
| Abandoned (blockIndex : Z)
| Awaiting (blockIndex : Z).

Section reader.
Context {R D : Type} `{AssetReader R} `{PersistentTier D}.

(** What the other readers do to the shared objects, as a function of time. *)
Context (env : nat -> BlockCache.Store * D * R -> BlockCache.Store * D * R).

(** How many turns of [published.wait] a read is followed through. *)
Context (patience : nat).

(** [CachedAssetReader::Impl] without the shared objects and the counters. *)
Record Impl : Type := mkImpl {
  im_options : CacheOptions;
  im_binding : Binding;
  im_persistable : bool;
  im_persistentEnabled : bool;
  im_persists : bool }.

(** The state of one call: the shared objects, the counters, the caller's
    buffer and the local variables. *)
Record rstate : Type := mkRState {
  y_store : BlockCache.Store;
  y_disk : D;
  y_inner : R;
  y_tick : nat;
  y_metrics : ReaderMetrics;
  y_dst : bytes;
  y_resolved : list bool;
  y_served : Z;
  y_cacheServed : Z;
  y_owned : OwnedBlocks;
  y_busy : list nat;
  y_log : list event }.

Definition RM (A : Type) : Type := M rstate ReadResult A.

Definition set_shared (w : BlockCache.Store * D * R) (s : rstate) : rstate :=
  let '(st, d, r) := w in
  mkRState st d r (S (y_tick s)) (y_metrics s) (y_dst s) (y_resolved s) (y_served s)
    (y_cacheServed s) (y_owned s) (y_busy s) (y_log s).

Definition set_metrics (f : ReaderMetrics -> ReaderMetrics) (s : rstate) : rstate :=
  mkRState (y_store s) (y_disk s) (y_inner s) (y_tick s) (f (y_metrics s)) (y_dst s) (y_resolved s)
    (y_served s) (y_cacheServed s) (y_owned s) (y_busy s) (y_log s).

Definition set_dst (dst : bytes) (s : rstate) : rstate :=
  mkRState (y_store s) (y_disk s) (y_inner s) (y_tick s) (y_metrics s) dst (y_resolved s)
    (y_served s) (y_cacheServed s) (y_owned s) (y_busy s) (y_log s).

Definition set_resolved (i : nat) (s : rstate) : rstate :=
  mkRState (y_store s) (y_disk s) (y_inner s) (y_tick s) (y_metrics s) (y_dst s)
    (<[i := true]> (y_resolved s)) (y_served s) (y_cacheServed s) (y_owned s) (y_busy s) (y_log s).

Definition add_served (n : Z) (s : rstate) : rstate :=
  mkRState (y_store s) (y_disk s) (y_inner s) (y_tick s) (y_metrics s) (y_dst s) (y_resolved s)
    (u64 (y_served s + n)) (y_cacheServed s) (y_owned s) (y_busy s) (y_log s).

Definition add_cacheServed (s : rstate) : rstate :=
  mkRState (y_store s) (y_disk s) (y_inner s) (y_tick s) (y_metrics s) (y_dst s) (y_resolved s)
    (y_served s) (u64 (y_cacheServed s + 1)) (y_owned s) (y_busy s) (y_log s).

Definition set_owned (f : OwnedBlocks -> OwnedBlocks) (s : rstate) : rstate :=
  mkRState (y_store s) (y_disk s) (y_inner s) (y_tick s) (y_metrics s) (y_dst s) (y_resolved s)
    (y_served s) (y_cacheServed s) (f (y_owned s)) (y_busy s) (y_log s).

Definition set_busy (f : list nat -> list nat) (s : rstate) : rstate :=
  mkRState (y_store s) (y_disk s) (y_inner s) (y_tick s) (y_metrics s) (y_dst s) (y_resolved s)
    (y_served s) (y_cacheServed s) (y_owned s) (f (y_busy s)) (y_log s).

Definition note (e : event) (s : rstate) : rstate :=
  mkRState (y_store s) (y_disk s) (y_inner s) (y_tick s) (y_metrics s) (y_dst s) (y_resolved s)
    (y_served s) (y_cacheServed s) (y_owned s) (y_busy s) (y_log s ++ [e]).

(** A call on a shared object: the others first, then the call. *)
Definition shared {A} (f : BlockCache.Store * D * R -> A * (BlockCache.Store * D * R)) (s : rstate)
    : A * rstate :=
  let '(a, w) := f (env (y_tick s) (y_store s, y_disk s, y_inner s)) in (a, set_shared w s).

Definition on_store {A} (f : BlockCache.Store -> A * BlockCache.Store) : RM A :=
  act (shared (fun '(st, d, r) => let '(a, st') := f st in (a, (st', d, r)))).

Definition on_disk {A} (f : D -> A * D) : RM A :=
  act (shared (fun '(st, d, r) => let '(a, d') := f d in (a, (st, d', r)))).

(** [inner->Read(offset, buffer, length)] into a buffer of its own. *)
Definition inner_read (offset : Z) (buffer : bytes) (length : Z) : RM (ReadResult * bytes) :=
  act (shared (fun '(st, d, r) =>
    let '(res, buf, r') := Read r offset (Some buffer) length in
    ((res, default buffer buf), (st, d, r')))).

Definition count (f : ReaderMetrics -> ReaderMetrics) : RM unit := modify (set_metrics f).

(** [OwnedBlocks::AbandonAll], which its destructor runs too. *)
Fixpoint abandon_each (b : Binding) (blocks : list Z) (s : rstate) : rstate :=
  match blocks with
  | [] => s
  | i :: rest =>
      let s := snd (shared (fun '(st, d, r) => (tt, (Abandon b i st, d, r))) s) in
      abandon_each b rest (note (Abandoned i) s)
  end.

Definition AbandonAll (b : Binding) (s : rstate) : rstate :=
  set_owned (fun _ => OwnedBlocks_new) (abandon_each b (Owned_Outstanding (y_owned s)) s).

Context (im : Impl).

(** [ReadDirect] into the caller's buffer at [pos]. *)
Definition ReadDirect (offset pos length : Z) : RM Status :=
  s <- get ;;
  res <- inner_read offset (slice (y_dst s) pos length) length ;;
  modify (fun s => set_dst (write_at (y_dst s) pos (snd res)) s) ;;
  if negb (IsOk (rr_status (fst res))) then ret (rr_status (fst res))
  else if negb (rr_bytesRead (fst res) =? length) then
    s <- get ;;
    ret (ShortReadStatus offset length (rr_bytesRead (fst res))
           (am_resolvedIdentifier (Metadata (y_inner s))))
  else ret Status_Ok.

(** The locals [ReadCached] computes once. *)
Record plan : Type := mkPlan {
  p_range : ReadRange;
  p_assetSize : Z;
  p_blockSize : Z;
  p_span : BlockSpan;
  p_blockCount : nat }.

Context (p : plan).

Definition extent (blockIndex : Z) : BlockExtent := ExtentOf blockIndex (p_blockSize p) (p_assetSize p).

(** [span.first + i] and back. *)
Definition block_at (i : nat) : Z := u64 (bs_first (p_span p) + Z.of_nat i).
Definition index_of (blockIndex : Z) : nat := Z.to_nat (u64 (blockIndex - bs_first (p_span p))).

(** [served += CopyOverlap(dst, ..., extent, data)], returning the count. *)
Definition copy_block (e : BlockExtent) (data : bytes) : RM Z :=
  act (fun s =>
    let '(dst, copied) := CopyOverlap (y_dst s) (rr_offset (p_range p)) (rr_length (p_range p))
                            (be_offset e) data (be_length e) in
    (copied, add_served copied (set_dst dst s))).

(** A direct read of the part of block [i] the caller wants, counted as a
    miss; a failure returns from [ReadCached]. *)
Definition direct_block (i : nat) (e : BlockExtent) : RM unit :=
  let begin := Z.max (rr_offset (p_range p)) (be_offset e) in
  let end_ := Z.min (u64 (rr_offset (p_range p) + rr_length (p_range p)))
                (u64 (be_offset e + be_length e)) in
  direct <- ReadDirect begin (begin - rr_offset (p_range p)) (u64 (end_ - begin)) ;;
  if negb (IsOk direct) then exit (mkReadResult 0 direct)
  else
    count (AddBlockMiss 1) ;;
    modify (add_served (u64 (end_ - begin))) ;;
    modify (set_resolved i).

(** The body of the acquisition loop, for block [i] of the span. *)
Definition acquire_block (i : nat) : RM unit :=
  s <- get ;;
  if default false (y_resolved s !! i) then ret tt
  else
    let blockIndex := block_at i in
    let e := extent blockIndex in
    acquired <- on_store (Acquire (im_binding im) blockIndex) ;;
    match acquired with
    | Hit block =>
        match (d ← block; if zlen d =? be_length e then Some d else None) with
        | Some data =>
            copied <- copy_block e data ;;
            count (AddBytesFromCache copied) ;;
            modify add_cacheServed ;;
            modify (set_resolved i)
        | None =>
            modify (AbandonAll (im_binding im)) ;;
            direct_block i e
        end
    | Owned =>
        modify (note (Acquired blockIndex)) ;;
        modify (set_owned (Owned_Add blockIndex))
    | Busy => modify (set_busy (fun busy => busy ++ [i]))
    end.

(** One block of the persistent pass. *)
Definition load_block (blockIndex : Z) : RM unit :=
  let e := extent blockIndex in
  loaded <- on_disk (fun d => Load d (b_identity (im_binding im)) blockIndex (be_length e)) ;;
  match loaded with
  | None => ret tt
  | Some data =>
      evicted <- on_store (Publish (im_binding im) blockIndex data) ;;
      modify (note (Published blockIndex)) ;;
      count (AddEviction evicted) ;;
      modify (set_owned (Owned_Settle blockIndex)) ;;
      count (AddPersistedHit 1) ;;
      copied <- copy_block e data ;;
      count (AddBytesFromCache copied) ;;
      modify add_cacheServed ;;
      modify (set_resolved (index_of blockIndex))
  end.

(** One turn of the loop that publishes the blocks of a run.  It returns
    whether to go on; [taken] accumulates in the closure of the source and is
    the sum of the copies. *)
Definition publish_turn (run : FetchRun) (transfer : bytes) (taken : Z) : RM (option Z) :=
  s <- get ;;
  if Owned_Empty (y_owned s) then ret None
  else
    blockIndex <- act (fun s => let '(n, o) := Owned_Next (y_owned s) in (n, set_owned (fun _ => o) s)) ;;
    if negb (blockIndex <=? u64 (fr_firstBlock run + fr_blockCount run - 1)) then ret None
    else
      let e := extent blockIndex in
      let data := slice transfer (be_offset e - fr_offset run) (be_length e) in
      evicted <- on_store (Publish (im_binding im) blockIndex data) ;;
      modify (note (Published blockIndex)) ;;
      count (AddEviction evicted) ;;
      modify (set_owned Owned_MarkPublished) ;;
      count (AddBlockMiss 1) ;;
      (if im_persistentEnabled im then
         wrote <- on_disk (fun d => Store_ d (b_identity (im_binding im)) blockIndex
                                      (im_persistable im) data) ;;
         when wrote (count (AddPersistedWrite 1))
       else ret tt) ;;
      copied <- copy_block e data ;;
      modify (set_resolved (index_of blockIndex)) ;;
      ret (Some (u64 (taken + copied))).

(** The loop itself.  Every turn settles a block, so the blocks owned are fuel
    enough. *)
Fixpoint publish_run (fuel : nat) (run : FetchRun) (transfer : bytes) (taken : Z) : RM Z :=
  match fuel with
  | O => block
  | S f =>
      next <- publish_turn run transfer taken ;;
      match next with
      | Some taken' => publish_run f run transfer taken'
      | None => ret taken
      end
  end.

(** One merged fetch. *)
Definition fetch_run (run : FetchRun) : RM unit :=
  fetched <- inner_read (fr_offset run) (replicate (Z.to_nat (fr_length run)) zero) (fr_length run) ;;
  let '(res, transfer) := fetched in
  if negb (IsOk (rr_status res)) || negb (rr_bytesRead res =? fr_length run) then
    modify (AbandonAll (im_binding im)) ;;
    if negb (IsOk (rr_status res)) then exit (mkReadResult 0 (rr_status res))
    else
      s <- get ;;
      exit (mkReadResult 0 (ShortReadStatus (fr_offset run) (fr_length run) (rr_bytesRead res)
                              (am_resolvedIdentifier (Metadata (y_inner s)))))
  else
    s <- get ;;
    taken <- publish_run (S (length (ob_blocks (y_owned s)))) run transfer 0 ;;
    count (AddBytesOverFetched (OverFetchedBytes run taken)).

(** [binding->Await], followed through [patience] waits. *)
Fixpoint await (fuel : nat) (blockIndex : Z) : RM (option bytes) :=
  match fuel with
  | O => block
  | S f =>
      r <- on_store (Await (im_binding im) blockIndex) ;;
      match r with
      | Some b => ret b
      | None => await f blockIndex
      end
  end.

(** One block of the waiting pass. *)
Definition await_block (i : nat) : RM unit :=
  let blockIndex := block_at i in
  let e := extent blockIndex in
  modify (note (Awaiting blockIndex)) ;;
  b <- await patience blockIndex ;;
  match (d ← b; if zlen d =? be_length e then Some d else None) with
  | None => ret tt
  | Some data =>
      copied <- copy_block e data ;;
      count (AddBytesFromCache copied) ;;
      count (AddRequestsSavedBySingleFlight 1) ;;
      modify add_cacheServed ;;
      modify (set_resolved i)
  end.

(** The second half of a pass: break out when nothing is left, fetch what is
    owned, wait for what is not.  The result is whether it broke out. *)
Definition fetch_and_wait : RM bool :=
  s <- get ;;
  if Owned_Empty (y_owned s) && bool_decide (y_busy s = []) then ret true
  else
    when (negb (Owned_Empty (y_owned s)))
      (let runs := PlanRuns (Owned_Outstanding (y_owned s)) (p_blockSize p) (p_assetSize p)
                     (co_coalesceGapBlocks (im_options im)) (co_maxRequestBytes (im_options im)) in
       count (AddRequestsSavedByCoalescing (u64 (Owned_Size (y_owned s) - zlen runs))) ;;
       mfor runs fetch_run) ;;
    s <- get ;;
    mfor (y_busy s) await_block ;;
    ret false.

(** The body of the cooperative loop. *)
Definition pass_body : RM bool :=
  mfor (seq 0 (p_blockCount p)) acquire_block ;;
  s <- get ;;
  when (im_persists im && negb (Owned_Empty (y_owned s)))
    (mfor (Owned_Outstanding (y_owned s)) load_block) ;;
  fetch_and_wait.

(** A pass with its [OwnedBlocks] and [busy], destroyed at its end. *)
Definition pass : RM bool :=
  modify (set_owned (fun _ => OwnedBlocks_new)) ;;
  modify (set_busy (fun _ => [])) ;;
  finally pass_body (AbandonAll (im_binding im)).

Fixpoint passes (n : nat) : RM unit :=
  match n with
  | O => ret tt
  | S n' =>
      broke <- pass ;;
      if (broke : bool) then ret tt else passes n'
  end.

(** What the cooperative loop could not settle. *)
Definition finish_block (i : nat) : RM unit :=
  s <- get ;;
  if default false (y_resolved s !! i) then ret tt else direct_block i (extent (block_at i)).

(** The high-water mark, and the check that nothing is missing. *)
Definition conclude : RM ReadResult :=
  resident <- on_store (fun st => (ResidentBytes st, st)) ;;
  count (ObserveResidentBytes resident) ;;
  s <- get ;;
  if negb (y_served s =? rr_length (p_range p)) then
    ret (mkReadResult 0 (ShortReadStatus (rr_offset (p_range p)) (rr_length (p_range p)) (y_served s)
                           (am_resolvedIdentifier (Metadata (y_inner s)))))
  else ret (mkReadResult (rr_length (p_range p)) Status_Ok).

Definition ReadCached_body : RM ReadResult :=
  passes kMaxCooperativePasses ;;
  mfor (seq 0 (p_blockCount p)) finish_block ;;
  s <- get ;;
  (if y_cacheServed s =? Z.of_nat (p_blockCount p) then count (AddBlockHit 1)
   else when (y_cacheServed s >? 0) (count (AddPartialHit 1))) ;;
  conclude.

End reader.

(** ** The whole call *)

Section read.
Context {R D : Type} `{AssetReader R} `{PersistentTier D}.
Context (env : nat -> BlockCache.Store * D * R -> BlockCache.Store * D * R) (patience : nat).

(** The objects a cached reader works on: the shared ones, the time and its
    counters. *)
Record csys : Type := mkCsys {
  c_store : BlockCache.Store;
  c_disk : D;
  c_inner : R;
  c_tick : nat;
  c_metrics : ReaderMetrics }.

Definition csys_of (s : rstate (R := R) (D := D)) : csys :=
  mkCsys (y_store s) (y_disk s) (y_inner s) (y_tick s) (y_metrics s).

Definition plan_of (im : Impl) (range : ReadRange) (assetSize : Z) : plan :=
  let blockSize := co_blockSize (im_options im) in
  let span := CoveringBlocks (rr_offset range) (rr_length range) blockSize in
  mkPlan range assetSize blockSize span (Z.to_nat (Count span)).

Definition initial (c : csys) (dst : bytes) (p : plan) : rstate (R := R) (D := D) :=
  mkRState (c_store c) (c_disk c) (c_inner c) (c_tick c) (c_metrics c) dst
    (replicate (p_blockCount p) false) 0 0 OwnedBlocks_new [] [].

Definition ReadCached (im : Impl) (range : ReadRange) (dst : bytes) (c : csys)
    : option ReadResult * rstate (R := R) (D := D) :=
  let p := plan_of im range (am_size (Metadata (c_inner c))) in
  run (ReadCached_body env patience im p) (initial c dst p).

(** [CachedAssetReader::Read], without its latency timer.  The result is
    [None] when the call is still waiting for another reader's block. *)
Definition Cached_Read_untimed (im : Impl) (offset : Z) (dst : option bytes) (size : Z) (c : csys)
    : option ReadResult * option bytes * csys :=
  let c := mkCsys (c_store c) (c_disk c) (c_inner c) (c_tick c)
             (AddBytesRequested size (c_metrics c)) in
  let range := ResolveReadRange offset size (am_size (Metadata (c_inner c))) in
  match rr_outcome range with
  | Overflow => (Some (mkReadResult 0 (OverflowStatus offset size)), dst, c)
  | _ =>
      match dst with
      | None =>
          if size >? 0 then
            (Some (mkReadResult 0
               (WithRange (Status_Error InvalidArgument (lit "read destination buffer is null"))
                  offset size)), dst, c)
          else (Some (mkReadResult 0 Status_Ok), dst, c)
      | Some buffer =>
          if bool_decide (rr_outcome range = Empty) then (Some (mkReadResult 0 Status_Ok), dst, c)
          else if rr_length range >=? co_bypassThresholdBytes (im_options im) then
            let '(st, d, r) := env (c_tick c) (c_store c, c_disk c, c_inner c) in
            let '(res, dst', r') := Read r offset dst size in
            (Some res, dst', mkCsys st d r' (S (c_tick c)) (c_metrics c))
          else
            let '(res, s) := ReadCached im range buffer c in
            (res, Some (y_dst s), csys_of s)
      end
  end.

(** [ScopedLatency readTimer] around the call, with its two clock readings. *)
Definition Cached_Read (im : Impl) (start end_ : Z) (offset : Z) (dst : option bytes) (size : Z)
    (c : csys) : option ReadResult * option bytes * csys :=
  let '(res, dst', c') := Cached_Read_untimed im offset dst size c in
  (res, dst', mkCsys (c_store c') (c_disk c') (c_inner c') (c_tick c')
                (on_readLatency (ScopedLatency_end start end_) (c_metrics c'))).

(** The constructor of [CachedAssetReader::Impl].  [innerMetrics] is the
    counter set of the reader underneath, when it has one. *)
Definition Impl_new (inner : R) (requested : CacheOptions) (st : BlockCache.Store) (d : D)
    (innerMetrics : option ReaderMetrics)
    : Impl * ReaderMetrics * option ReaderMetrics * BlockCache.Store :=
  let options := CacheOptions.Normalized requested in
  let meta := Metadata inner in
  let metrics := SetAssetSize (am_size meta) (ReaderMetrics_new (am_resolvedIdentifier meta)) in
  let innerMetrics := DetachFromRegistry <$> innerMetrics in
  let '(binding, st) := Bind st (am_resolvedIdentifier meta) (am_validator meta) (co_blockSize options) in
  let persistable := Persistable (am_validator meta) in
  let persistentEnabled := IsEnabled d in
  (mkImpl options binding persistable persistentEnabled (persistentEnabled && persistable),
   metrics, innerMetrics, st).

(** [SnapshotMetrics] and the destructor's [AbsorbTransport]. *)
Definition SnapshotMetrics (metrics : ReaderMetrics) (innerMetrics : option ReaderMetrics)
    : MetricsSnapshot :=
  match innerMetrics with
  | Some m => Snapshot_AbsorbTransport (Metrics_Snapshot m) (Metrics_Snapshot metrics)
  | None => Metrics_Snapshot metrics
  end.

Definition Impl_end (metrics : ReaderMetrics) (innerMetrics : option ReaderMetrics) : ReaderMetrics :=
  match innerMetrics with
  | Some m => AbsorbTransport m metrics
  | None => metrics
  end.

(** [Wrap] and [WrapAsset]: which reader the caller gets. *)
Inductive wrapped : Type :=
| NoReader (status : Status)
| PassedThrough (r : R) (status : Status)
| Cached (im : Impl) (r : R) (metrics : ReaderMetrics) (innerMetrics : option ReaderMetrics)
    (st : BlockCache.Store).

Definition Wrap (inner : option R) (innerMetrics : option ReaderMetrics) (options : CacheOptions)
    (st : BlockCache.Store) (d : D) : wrapped :=
  match inner with
  | None => NoReader (Status_Error InvalidArgument (lit "the cache was given no reader to decorate"))
  | Some r =>
      let '(im, metrics, innerMetrics, st) := Impl_new r options st d innerMetrics in
      Cached im r metrics innerMetrics st
  end.

Definition WrapAsset (inner : OpenResult R) (innerMetrics : option ReaderMetrics)
    (options : CacheOptions) (st : BlockCache.Store) (d : D) : wrapped :=
  match or_reader inner with
  | None => NoReader (or_status inner)
  | Some r =>
      if negb (am_supportsRandomAccess (Metadata r)) then PassedThrough r (or_status inner)
      else Wrap (Some r) innerMetrics options st d
  end.

End read.

(** ** Lemmas on [OwnedBlocks] *)

Definition unsettled (l : list (Z * bool)) : list Z :=
  map fst (filter (fun e : Z * bool => snd e = false) l).

(** Before the cursor everything is settled, and the count is right. *)
Record ob_wf (o : OwnedBlocks) : Prop := {
  ob_count : ob_outstanding o = zlen (Owned_Outstanding o);
  ob_split : exists done rest, ob_blocks o = done ++ rest /\ length done = ob_cursor o /\
    Forall (fun e : Z * bool => snd e = true) done }.

Lemma unsettled_app l1 l2 : unsettled (l1 ++ l2) = unsettled l1 ++ unsettled l2.
Proof. unfold unsettled. by rewrite filter_app, map_app. Qed.

Lemma unsettled_cons i s l : unsettled ((i, s) :: l) = if s then unsettled l else i :: unsettled l.
Proof. unfold unsettled. rewrite filter_cons. simpl. by destruct s. Qed.

Lemma unsettled_none l : Forall (fun e : Z * bool => snd e = true) l -> unsettled l = [].
Proof. induction 1 as [|[i s] l Hs _ IH]; [done|]. simpl in Hs. subst. by rewrite unsettled_cons. Qed.

Lemma ob_wf_new : ob_wf OwnedBlocks_new.
Proof. split; [done|]. by exists [], []. Qed.

Lemma Owned_Empty_spec o : ob_wf o -> Owned_Empty o = bool_decide (Owned_Outstanding o = []).
Proof.
  intros [Hc _]. unfold Owned_Empty. rewrite Hc. unfold zlen.
  destruct (Owned_Outstanding o); [done|]. rewrite (proj2 (Z.eqb_neq _ _)); [done|]. simpl. lia.
Qed.

Lemma Owned_Add_spec b o :
  ob_wf o -> ob_wf (Owned_Add b o) /\ Owned_Outstanding (Owned_Add b o) = Owned_Outstanding o ++ [b].
Proof.
  intros [Hc (d & r & Hb & Hl & Hd)].
  assert (Owned_Outstanding (Owned_Add b o) = Owned_Outstanding o ++ [b]) as E.
  { apply (unsettled_app (ob_blocks o) [(b, false)]). }
  split; [|done]. split.
  - rewrite E, zlen_app. simpl. rewrite Hc. done.
  - exists d, (r ++ [(b, false)]). simpl. by rewrite Hb, app_assoc.
Qed.

Lemma skip_settled_spec l n :
  exists d r, l = d ++ r /\ skip_settled l n = (n + length d)%nat /\
    Forall (fun e : Z * bool => snd e = true) d /\
    match r with [] => True | (_, s) :: _ => s = false end.
Proof.
  revert n. induction l as [|[i [|]] l IH]; intros n; simpl.
  - exists [], []. simpl. rewrite Nat.add_0_r. by repeat constructor.
  - destruct (IH (S n)) as (d & r & -> & -> & Hd & Hr). exists ((i, true) :: d), r.
    split_and!; [done|simpl; lia|by constructor|done].
  - exists [], ((i, false) :: l). simpl. rewrite Nat.add_0_r. by repeat constructor.
Qed.

(** The cursor of a well-formed set, moved to the first unsettled block. *)
Lemma SkipSettled_spec o :
  ob_wf o ->
  exists d r, ob_blocks o = d ++ r /\ SkipSettled o = mkOwnedBlocks (ob_blocks o) (ob_outstanding o) (length d) /\
    Forall (fun e : Z * bool => snd e = true) d /\ Owned_Outstanding o = unsettled r /\
    match r with [] => True | (_, s) :: _ => s = false end.
Proof.
  intros [Hc (d & r & Hb & Hl & Hd)]. unfold SkipSettled. rewrite <-Hl, Hb, drop_app_length.
  destruct (skip_settled_spec r (length d)) as (d' & r' & -> & -> & Hd' & Hr').
  exists (d ++ d'), r'. rewrite app_assoc, length_app.
  assert (Forall (fun e : Z * bool => snd e = true) (d ++ d')) by by apply Forall_app.
  split_and!; try done. unfold Owned_Outstanding. rewrite Hb.
  fold (unsettled (d ++ d' ++ r')). rewrite app_assoc, unsettled_app, unsettled_none by done. done.
Qed.

Lemma SkipSettled_wf o : ob_wf o -> ob_wf (SkipSettled o).
Proof.
  intros Hw. destruct (SkipSettled_spec o Hw) as (d & r & Hb & -> & Hd & _ & _).
  destruct Hw as [Hc _]. split; [done|]. by exists d, r.
Qed.

Lemma Owned_Next_spec o b rest :
  ob_wf o -> Owned_Outstanding o = b :: rest ->
  fst (Owned_Next o) = b /\ ob_wf (snd (Owned_Next o)) /\
  Owned_Outstanding (snd (Owned_Next o)) = Owned_Outstanding o /\
  length (ob_blocks (snd (Owned_Next o))) = length (ob_blocks o).
Proof.
  intros Hw Ho. split; [|by split; [apply SkipSettled_wf|]]. unfold Owned_Next.
  destruct (SkipSettled_spec o Hw) as (d & r & Hb & E & Hd & Hout & Hr). rewrite E. simpl.
  destruct r as [|[i s] r]; [by rewrite Hout in Ho|]. subst s. rewrite Hb, list_lookup_middle by done.
  rewrite Hout, unsettled_cons in Ho. by injection Ho as <- _.
Qed.

Lemma Owned_MarkPublished_spec o b rest :
  ob_wf o -> Owned_Outstanding o = b :: rest ->
  ob_wf (Owned_MarkPublished o) /\ Owned_Outstanding (Owned_MarkPublished o) = rest /\
  length (ob_blocks (Owned_MarkPublished o)) = length (ob_blocks o).
Proof.
  intros Hw Ho. unfold Owned_MarkPublished.
  destruct (SkipSettled_spec o Hw) as (d & r & Hb & E & Hd & Hout & Hr). rewrite E. cbn [ob_blocks ob_cursor ob_outstanding].
  destruct r as [|[i s] r]; [by rewrite Hout in Ho|]. subst s.
  rewrite Hout, unsettled_cons in Ho. injection Ho as -> <-.
  assert (alter (fun e : Z * bool => (fst e, true)) (length d) (ob_blocks o) = d ++ (b, true) :: r) as ->.
  { rewrite Hb, alter_app_r_alt by lia. by rewrite Nat.sub_diag. }
  assert (Owned_Outstanding (mkOwnedBlocks (d ++ (b, true) :: r) (ob_outstanding o - 1) (length d))
    = unsettled r) as Eo.
  { change (unsettled (d ++ (b, true) :: r) = unsettled r).
    by rewrite unsettled_app, unsettled_none, unsettled_cons. }
  split; [|split; [done|rewrite Hb, !length_app; done]]. destruct Hw as [Hc _]. split.
  - rewrite Eo. simpl. rewrite Hc, Hout, unsettled_cons. unfold zlen. simpl. lia.
  - by exists d, ((b, true) :: r).
Qed.

Lemma settle_spec b l :
  b ∈ unsettled l -> NoDup (unsettled l) ->
  exists l', settle b l = Some l' /\ unsettled l' = filter (fun x => x <> b) (unsettled l) /\
    length l' = length l /\
    forall n, Forall (fun e : Z * bool => snd e = true) (take n l) ->
              Forall (fun e : Z * bool => snd e = true) (take n l').
Proof.
  induction l as [|[i s] l IH]; intros Hin Hn; [by apply not_elem_of_nil in Hin|].
  rewrite unsettled_cons in Hin, Hn. cbn [settle].
  destruct (Z.eqb_spec i b) as [->|Hne]; [destruct s|]; cbn [andb negb].
  - destruct IH as (l' & -> & E & Hl & Hf); [done..|]. exists ((b, true) :: l').
    rewrite !unsettled_cons. split_and!; [done|done|simpl; lia|].
    intros [|n]; simpl; [constructor|]. rewrite !Forall_cons. intros [_ H]. split; [done|]. by apply Hf.
  - exists ((b, true) :: l). rewrite !unsettled_cons. apply NoDup_cons in Hn as [Hn _].
    split_and!; [done| |done|].
    + rewrite filter_cons_False by naive_solver. rewrite filter_all; [done|]. intros x Hx ->. done.
    + intros [|n]; simpl; [constructor|]. rewrite !Forall_cons. naive_solver.
  - assert (b ∈ unsettled l /\ NoDup (unsettled l)) as [Hin' Hn'].
    { destruct s; [done|]. apply NoDup_cons in Hn as [_ Hn]. apply elem_of_cons in Hin. naive_solver. }
    destruct IH as (l' & -> & E & Hl & Hf); [done..|]. exists ((i, s) :: l').
    rewrite !unsettled_cons, E. split_and!; [done| |simpl; lia|].
    + destruct s; [done|]. by rewrite filter_cons_True.
    + intros [|n]; simpl; [constructor|]. rewrite !Forall_cons. naive_solver.
Qed.

Lemma length_filter_ne (l : list Z) b :
  NoDup l -> b ∈ l -> zlen (filter (fun x => x <> b) l) = zlen l - 1.
Proof.
  induction l as [|x l IH]; intros Hn Hb; [set_solver|]. apply NoDup_cons in Hn as [Hx Hn].
  rewrite filter_cons. unfold zlen in *. destruct (decide (x <> b)) as [Hne|Heq].
  - apply elem_of_cons in Hb as [->|Hb]; [done|]. specialize (IH Hn Hb). simpl in *. lia.
  - assert (x = b) as -> by (destruct (decide (x = b)); naive_solver).
    rewrite filter_all; [simpl; lia|]. intros y Hy ->. done.
Qed.

Lemma Owned_Settle_spec o b :
  ob_wf o -> NoDup (Owned_Outstanding o) -> b ∈ Owned_Outstanding o ->
  ob_wf (Owned_Settle b o) /\
  Owned_Outstanding (Owned_Settle b o) = filter (fun x => x <> b) (Owned_Outstanding o).
Proof.
  intros [Hc (d & r & Hb & Hl & Hd)] Hn Hin. unfold Owned_Settle.
  destruct (settle_spec b (ob_blocks o)) as (l' & -> & E & Hlen & Hf); [done..|].
  assert (Owned_Outstanding (mkOwnedBlocks l' (ob_outstanding o - 1) (ob_cursor o))
    = filter (fun x => x <> b) (Owned_Outstanding o)) as Eo by done.
  split; [|done]. split.
  - rewrite Eo, length_filter_ne by done. simpl. by rewrite Hc.
  - exists (take (ob_cursor o) l'), (drop (ob_cursor o) l'). cbn [ob_blocks ob_cursor].
    rewrite take_drop. split; [done|]. split.
    + rewrite length_take, Hlen, Hb, length_app. lia.
    + apply Hf. by rewrite Hb, <-Hl, take_app_length.
Qed.
