(* ===== verification/CachedReaderSpec.v ===== *)
(** * CachedReaderSpec: what a cached read guarantees under interference

    The proof of [CachedReader.ReadCached] against the asset bytes [A]: for
    every environment that keeps the shared invariant [winv], a read that
    returns success returns exactly the bytes of [A], a read keeps [winv]
    whatever it returns, every block it is told to own is published or
    abandoned exactly once, and it never waits while it owns a block. *)

From S2P Require Import Prelude Effects Diagnostics Validator RangeMath AssetReader Metrics.
From S2P Require Import CacheKey CacheOptions BlockPlan BlockCache PersistentTier CachedReader.

(** ** The obligations in a log *)

(** The blocks owned after a log, or [None] when the log breaks the protocol: a
    block acquired twice, published or abandoned without being owned, or a wait
    while something is owned. *)
Definition obligation (owed : option (list Z)) (e : event) : option (list Z) :=
  owed ≫= fun l =>
    match e with
    | Acquired i => if decide (i ∈ l) then None else Some (l ++ [i])
    | Published i | Abandoned i =>
        if decide (i ∈ l) then Some (filter (fun x => x <> i) l) else None
    | Awaiting _ => if decide (l = []) then Some [] else None
    end.

Definition obligations (log : list event) : option (list Z) := foldl obligation (Some []) log.

Lemma obligations_snoc log e : obligations (log ++ [e]) = obligation (obligations log) e.
Proof. apply foldl_snoc. Qed.

Section proof.
Context {R D : Type} `{AssetReader R} `{PersistentTier D}.
Context (env : nat -> BlockCache.Store * D * R -> BlockCache.Store * D * R) (patience : nat).
Context (im : Impl) (A : bytes) (Rinv : R -> Prop) (Dinv : D -> Prop).
Context `{!ReaderContract R Rinv A} `{!TierContract D Dinv (b_identity (im_binding im)) A}.

Local Abbreviation b := (im_binding im).
Local Abbreviation bs := (co_blockSize (im_options im)).
Local Abbreviation blk i := (block_of A bs i).

Context (Hbs : 0 < bs <= kMaxBlockSize).
Context (Hid : ai_blockSize (b_identity (im_binding im)) = co_blockSize (im_options im)).
Context (Hgap : 0 <= co_coalesceGapBlocks (im_options im)).

(** Every block of this identity that is resident at its right length is the
    asset's. *)
Definition content (st : BlockCache.Store) : Prop :=
  forall i d, in_asset bs (zlen A) i -> visible st (key_of b i) = Some (Some d) ->
    zlen d = zlen (blk i) -> d = blk i.

(** What readers of this asset keep true of the objects they share. *)
Definition winv (w : BlockCache.Store * D * R) : Prop :=
  let '(st, d, r) := w in store_wf st /\ binding_wf st b /\ content st /\ Dinv d /\ Rinv r.

Context (Hrely : forall t w, winv w -> winv (env t w)).

(** The resolved range and the caller's buffer. *)
Context (o l : Z) (N : nat) (Ho : 0 <= o) (Hl : 0 < l) (Hfit : o + l <= zlen A) (HN : l <= Z.of_nat N).

Definition rp : plan := plan_of im (mkReadRange Transfer o l) (zlen A).

Local Abbreviation first := (o / bs).
Local Abbreviation c := (p_blockCount rp).

Lemma asset_u64 : is_u64 (zlen A).
Proof. by apply rc_u64. Qed.

Lemma rp_span : bs_first (p_span rp) = first /\ Z.of_nat c = (o + l - 1) / bs - first + 1.
Proof.
  pose proof asset_u64 as Hu. unfold rp, plan_of. simpl.
  rewrite (CoveringBlocks_spec bs (zlen A) Hu o l) by done. simpl. split; [done|].
  assert (0 <= first) by (apply Z.div_pos; lia).
  assert (first <= (o + l - 1) / bs) by (apply Z.div_le_mono; lia).
  assert ((o + l - 1) / bs <= o + l - 1) by (apply Z.div_le_upper_bound; nia).
  unfold Count. simpl. unfold is_u64 in Hu. rewrite u64_small by (unfold is_u64; lia). lia.
Qed.

Definition bk (i : nat) : Z := first + Z.of_nat i.

Lemma bk_in_asset i : (i < c)%nat -> in_asset bs (zlen A) (bk i).
Proof.
  intros Hi. destruct rp_span as [_ Hc]. apply (span_in_asset bs (zlen A) ltac:(lia) o l); try done.
  unfold bk. lia.
Qed.

Lemma in_asset_u64 k : in_asset bs (zlen A) k -> is_u64 k.
Proof. intros [H1 H2]. pose proof asset_u64. unfold is_u64 in *. nia. Qed.

Lemma block_at_bk i : (i < c)%nat -> block_at rp i = bk i.
Proof.
  intros Hi. unfold block_at. rewrite (proj1 rp_span). apply u64_small, in_asset_u64.
  by apply bk_in_asset.
Qed.

Lemma index_of_bk i : (i < c)%nat -> index_of rp (bk i) = i.
Proof.
  intros Hi. unfold index_of. rewrite (proj1 rp_span). unfold bk.
  replace (first + Z.of_nat i - first) with (Z.of_nat i) by lia.
  pose proof (in_asset_u64 _ (bk_in_asset i Hi)) as Hu. unfold bk, is_u64 in Hu.
  assert (0 <= first) by (apply Z.div_pos; lia).
  rewrite u64_small by (unfold is_u64; lia). lia.
Qed.

Lemma extent_in k :
  in_asset bs (zlen A) k -> extent rp k = mkBlockExtent (k * bs) (zlen (blk k)).
Proof.
  intros Hk. unfold extent. simpl. rewrite (ExtentOf_spec bs (zlen A) ltac:(lia) asset_u64 k Hk).
  f_equal. symmetry. apply zlen_block_of; [lia|done].
Qed.

Lemma blk_small k : in_asset bs (zlen A) k -> 0 < zlen (blk k) <= bs.
Proof.
  intros Hk. rewrite zlen_block_of by (done || lia).
  pose proof (block_end_gt bs (zlen A) ltac:(lia) k Hk). unfold block_end in *. lia.
Qed.

(** ** The buffer *)

(** [dst'] is [dst] with the part of block [k] inside the range filled in. *)
Definition patched (k : Z) (dst dst' : bytes) : Prop :=
  length dst' = length dst /\
  forall j : nat, dst' !! j =
    if decide (Z.max o (k * bs) <= o + Z.of_nat j < Z.min (o + l) (block_end bs (zlen A) k))
    then A !! Z.to_nat (o + Z.of_nat j) else dst !! j.

(** The bytes of block [k] inside the range are in place. *)
Definition block_done (k : Z) (dst : bytes) : Prop :=
  forall j : nat, Z.max o (k * bs) <= o + Z.of_nat j < Z.min (o + l) (block_end bs (zlen A) k) ->
    dst !! j = A !! Z.to_nat (o + Z.of_nat j).

Lemma patched_done k dst dst' : patched k dst dst' -> block_done k dst'.
Proof. intros [_ Hp] j Hj. rewrite Hp. by rewrite decide_True. Qed.

Lemma patched_keeps k k' dst dst' : patched k dst dst' -> block_done k' dst -> block_done k' dst'.
Proof. intros [_ Hp] Hd j Hj. rewrite Hp. case_decide; [done|]. by apply Hd. Qed.

(** Writing the asset's own bytes over [begin, end_) of the range. *)
Lemma write_patched k dst begin end_ :
  length dst = N -> begin = Z.max o (k * bs) -> end_ = Z.min (o + l) (block_end bs (zlen A) k) ->
  begin < end_ -> patched k dst (write_at dst (begin - o) (slice A begin (end_ - begin))).
Proof.
  intros Hn -> -> Hlt. assert (0 <= Z.max o (k * bs) - o) by lia.
  set (begin := Z.max o (k * bs)) in *. set (end_ := Z.min (o + l) (block_end bs (zlen A) k)) in *.
  assert (end_ <= o + l) by lia.
  assert (zlen (slice A begin (end_ - begin)) = end_ - begin) as Hz by (apply zlen_slice; lia).
  assert (begin - o + zlen (slice A begin (end_ - begin)) <= zlen dst) by (unfold zlen in *; lia).
  split; [apply length_write_at; lia|]. intros j. rewrite lookup_write_at by lia.
  unfold zlen in Hz. case_bool_decide as Hj; case_decide as Hd; try lia; [|done].
  rewrite slice_lookup by lia. f_equal. lia.
Qed.

Lemma overlap_pos k : in_asset bs (zlen A) k ->
  overlap bs (zlen A) o l k = Z.max 0 (Z.min (o + l) (block_end bs (zlen A) k) - Z.max o (k * bs)).
Proof. done. Qed.

Lemma ends_u64 k : in_asset bs (zlen A) k ->
  u64 (o + l) = o + l /\ u64 (k * bs + zlen (blk k)) = block_end bs (zlen A) k.
Proof.
  intros Hk. pose proof asset_u64 as Hu. rewrite zlen_block_of by (done || lia).
  pose proof (block_end_gt bs (zlen A) ltac:(lia) k Hk). destruct Hk. unfold is_u64 in *.
  replace (k * bs + (block_end bs (zlen A) k - k * bs)) with (block_end bs (zlen A) k) by lia.
  rewrite !u64_small; unfold is_u64, block_end in *; [done|nia|nia].
Qed.

(** [CopyOverlap] of a correct block. *)
Lemma CopyOverlap_spec k dst :
  in_asset bs (zlen A) k -> length dst = N ->
  exists dst', CopyOverlap dst o l (k * bs) (blk k) (zlen (blk k)) = (dst', overlap bs (zlen A) o l k) /\
    patched k dst dst'.
Proof.
  intros Hk Hn. destruct (ends_u64 k Hk) as [E1 E2]. unfold CopyOverlap. rewrite E1, E2.
  rewrite overlap_pos by done.
  set (begin := Z.max o (k * bs)). set (end_ := Z.min (o + l) (block_end bs (zlen A) k)).
  destruct (Z.leb_spec end_ begin) as [Hle|Hlt].
  { exists dst. split; [f_equal; lia|]. split; [done|]. intros j. rewrite decide_False by lia. done. }
  assert (u64 (end_ - begin) = end_ - begin) as ->.
  { apply u64_small. pose proof asset_u64. unfold is_u64 in *. lia. }
  eexists. split; [f_equal; lia|].
  assert (slice (blk k) (begin - k * bs) (end_ - begin) = slice A begin (end_ - begin)) as ->.
  { unfold block_of. destruct Hk. rewrite slice_slice; [f_equal; lia|nia|lia|lia|lia]. }
  by apply write_patched.
Qed.

(** ** The local invariant *)

Definition share (res : list bool) (i : nat) : Z :=
  if default false (res !! i) then overlap bs (zlen A) o l (bk i) else 0.

Definition served_of (res : list bool) : Z := zsum (share res) (seq 0 c).

Record local_ok (dst : bytes) (res : list bool) (served : Z) : Prop := {
  lo_dst : length dst = N;
  lo_res : length res = c;
  lo_bytes : forall i, res !! i = Some true -> block_done (bk i) dst;
  lo_served : served = served_of res }.

Lemma zsum_change {B} (f g : B -> Z) (xs : list B) x :
  NoDup xs -> x ∈ xs -> (forall y, y ∈ xs -> y <> x -> g y = f y) ->
  zsum g xs = zsum f xs + (g x - f x).
Proof.
  unfold zsum. induction xs as [|y xs IH]; intros Hn Hx He; [set_solver|]. simpl.
  apply NoDup_cons in Hn as [Hy Hn]. apply elem_of_cons in Hx as [->|Hx].
  - assert (foldr (fun z acc => g z + acc) 0 xs = foldr (fun z acc => f z + acc) 0 xs) as ->; [|lia].
    apply (zsum_ext g f). intros z Hz. apply He; [set_solver|]. by intros ->.
  - rewrite (IH Hn Hx) by set_solver. rewrite (He y) by set_solver. lia.
Qed.

Lemma served_of_set res i :
  length res = c -> res !! i = Some false ->
  served_of (<[i := true]> res) = served_of res + overlap bs (zlen A) o l (bk i).
Proof.
  intros Hlen Hi. assert (i < c)%nat as Hlt by (rewrite <-Hlen; by eapply lookup_lt_Some).
  unfold served_of. rewrite (zsum_change (share res) _ _ i).
  - unfold share. rewrite Hi, list_lookup_insert_eq by (rewrite Hlen; done). simpl. lia.
  - apply NoDup_seq.
  - apply elem_of_seq. lia.
  - intros y _ Hy. unfold share. by rewrite list_lookup_insert_ne.
Qed.

Lemma overlap_nonneg k : 0 <= overlap bs (zlen A) o l k.
Proof. unfold overlap. lia. Qed.

Lemma all_served : zsum (fun i => overlap bs (zlen A) o l (bk i)) (seq 0 c) = l.
Proof.
  destruct rp_span as [_ Hc].
  etransitivity; [|apply (overlap_span_sum bs (zlen A) ltac:(lia) o l); done]. rewrite <-Hc.
  unfold seqZ. rewrite Nat2Z.id. unfold zsum, bk.
  induction (seq 0 c) as [|x xs IH]; simpl; [done|]. rewrite IH. f_equal. f_equal. lia.
Qed.

Lemma served_of_le res : 0 <= served_of res <= l.
Proof.
  split.
  - apply zsum_nonneg. intros i _. unfold share. destruct (default false _); [apply overlap_nonneg|lia].
  - etransitivity; [|apply Z.eq_le_incl, all_served]. unfold served_of, zsum. induction (seq 0 c) as [|i xs IH]; simpl; [lia|].
    pose proof (overlap_nonneg (bk i)). unfold share at 1. destruct (default false _); lia.
Qed.

(** Resolving a block keeps the invariant. *)
Lemma local_ok_resolve dst res served i dst' :
  local_ok dst res served -> res !! i = Some false -> patched (bk i) dst dst' ->
  local_ok dst' (<[i := true]> res) (u64 (served + overlap bs (zlen A) o l (bk i))).
Proof.
  intros [H1 H2 H3 H4] Hi Hp. assert (i < c)%nat by (rewrite <-H2; by eapply lookup_lt_Some).
  split.
  - by rewrite (proj1 Hp).
  - by rewrite length_insert.
  - intros j Hj. destruct (decide (j = i)) as [->|Hne]; [by eapply patched_done|].
    rewrite list_lookup_insert_ne in Hj by done. eapply patched_keeps; eauto.
  - rewrite served_of_set, H4 by done. apply u64_small.
    pose proof (served_of_le (<[i := true]> res)) as Hle. rewrite served_of_set in Hle by done.
    pose proof asset_u64. unfold is_u64 in *. lia.
Qed.

(** With every block resolved the whole range is in place. *)
Lemma local_ok_complete dst res served :
  local_ok dst res served -> (forall i, (i < c)%nat -> res !! i = Some true) ->
  served = l /\ take (Z.to_nat l) dst = slice A o l.
Proof.
  intros [H1 H2 H3 H4] Hall. split.
  - rewrite H4. etransitivity; [|apply all_served]. apply zsum_ext. intros i Hi. apply elem_of_seq in Hi.
    unfold share. by rewrite Hall by lia.
  - apply list_eq_slice; [done|lia|done| |].
    { rewrite length_take. lia. }
    intros j Hj. rewrite lookup_take_lt by done. destruct rp_span as [_ Hc].
    set (q := o + Z.of_nat j). assert (first <= q / bs <= (o + l - 1) / bs) as Hq.
    { split; apply Z.div_le_mono; lia. }
    assert (in_asset bs (zlen A) (q / bs)) as Hin by by apply (span_in_asset bs (zlen A) ltac:(lia) o l).
    pose proof (Z.div_mod q bs). pose proof (Z.mod_pos_bound q bs).
    replace (Z.to_nat o + j)%nat with (Z.to_nat q) by lia.
    assert (bk (Z.to_nat (q / bs - first)) = q / bs) as Ebk by (unfold bk; lia).
    apply (H3 (Z.to_nat (q / bs - first))); [apply Hall; lia|]. rewrite Ebk.
    unfold block_end. fold q. nia.
Qed.

(** ** The shared objects *)

Lemma content_mono st st' :
  (forall k d, visible st' k = Some (Some d) -> visible st k = Some (Some d)) ->
  content st -> content st'.
Proof. intros Hsub Hc i d Hi Hv. apply Hc; [done|]. by apply Hsub. Qed.

Lemma winv_store st st' d r :
  winv (st, d, r) -> store_wf st' -> same_frame st st' -> content st' -> winv (st', d, r).
Proof.
  intros (H1 & H2 & H3 & H4 & H5) Hw (_ & _ & Hn & _) Hc. split_and!; try done.
  unfold binding_wf in *. by rewrite Hn.
Qed.

Lemma acquire_winv i st d r :
  winv (st, d, r) -> in_asset bs (zlen A) i ->
  winv (snd (Acquire b i st), d, r) /\
  forall data, fst (Acquire b i st) = Hit (Some data) -> zlen data = zlen (blk i) -> data = blk i.
Proof.
  intros Hw Hi. pose proof Hw as (H1 & H2 & H3 & _). pose proof (Acquire_spec b i st H1 H2) as H4.
  destruct (Acquire b i st) as [a st']. destruct H4 as (Hwf & Hfr & Hrel). unfold acquire_rel in Hrel. simpl.
  destruct (visible st (key_of b i)) as [[data|]|] eqn:E; destruct Hrel as [-> Hv].
  - split; [apply (winv_store st); try done; apply (content_mono st); [|done]; intros k x; by rewrite Hv|].
    intros data' [= <-]. by apply H3.
  - split; [|done]. apply (winv_store st); try done. apply (content_mono st); [|done]. intros k x. by rewrite Hv.
  - split; [|done]. apply (winv_store st); try done. apply (content_mono st); [|done].
    intros k x. rewrite Hv. by case_decide.
Qed.

Lemma await_winv i st d r :
  winv (st, d, r) -> in_asset bs (zlen A) i ->
  winv (snd (Await b i st), d, r) /\
  forall data, fst (Await b i st) = Some (Some data) -> zlen data = zlen (blk i) -> data = blk i.
Proof.
  intros Hw Hi. pose proof Hw as (H1 & H2 & H3 & _). pose proof (Await_spec b i st H1) as H4.
  destruct (Await b i st) as [a st']. destruct H4 as (Hwf & Hfr & -> & Hv). simpl.
  split; [apply (winv_store st); try done; apply (content_mono st); [|done]; intros k x; by rewrite Hv|].
  intros data. destruct (visible st (key_of b i)) as [[x|]|] eqn:E; try done. intros [= ->]. by apply H3.
Qed.

Lemma abandon_winv i st d r : winv (st, d, r) -> winv (Abandon b i st, d, r).
Proof.
  intros Hw. pose proof Hw as (H1 & _ & H3 & _). destruct (Abandon_spec b i st H1) as (Hwf & Hfr & Hrel).
  apply (winv_store st); try done. apply (content_mono st); [|done]. intros k x. rewrite (Hrel k).
  destruct (decide (k = key_of b i /\ visible st (key_of b i) = Some None)); done.
Qed.

Lemma publish_winv i st d r :
  winv (st, d, r) -> in_asset bs (zlen A) i -> winv (snd (Publish b i (blk i) st), d, r).
Proof.
  intros Hw Hi. pose proof Hw as (H1 & _ & H3 & _). pose proof (blk_small i Hi).
  pose proof (Publish_spec b i (blk i) st H1 ltac:(lia)) as H4.
  destruct (Publish b i (blk i) st) as [n st']. destruct H4 as (Hwf & Hfr & Hrel). simpl.
  apply (winv_store st); try done. unfold publish_rel in Hrel.
  destruct (visible st (key_of b i)) as [[x|]|] eqn:E;
    [destruct Hrel as [_ Hv]; apply (content_mono st); [|done]; intros k y; by rewrite Hv| |
     destruct Hrel as [_ Hv]; apply (content_mono st); [|done]; intros k y; by rewrite Hv].
  destruct Hrel as (Hk & vs & _ & _ & _ & Hrest). intros j data Hj Hv Hz.
  destruct (decide (j = i)) as [->|Hne].
  - rewrite Hk in Hv. by injection Hv as <-.
  - assert (key_of b j <> key_of b i) as Hkj by (unfold key_of; congruence). specialize (Hrest _ Hkj).
    destruct (decide _) in Hrest; [destruct Hrest as [_ Hn]; by rewrite Hn in Hv|].
    rewrite Hrest in Hv. by apply H3.
Qed.

(** ** Rules for the calls on the shared objects *)

Local Abbreviation S := (rstate (R := R) (D := D)).
Local Abbreviation w_of s := (y_store s, y_disk s, y_inner s).

Lemma wp_on_store {B} (f : BlockCache.Store -> B * BlockCache.Store)
    (Q : B -> S -> Prop) (X : ReadResult -> S -> Prop) (Bl : S -> Prop) (s : S) :
  winv (w_of s) ->
  (forall st d r, winv (st, d, r) -> Q (fst (f st)) (set_shared (snd (f st), d, r) s)) ->
  wp (on_store env f) Q X Bl s.
Proof.
  intros Hw HQ. apply wp_act. unfold shared. pose proof (Hrely (y_tick s) _ Hw) as Hw'.
  destruct (env _ _) as [[st d] r]. specialize (HQ st d r Hw'). by destruct (f st).
Qed.

Lemma wp_on_disk {B} (f : D -> B * D)
    (Q : B -> S -> Prop) (X : ReadResult -> S -> Prop) (Bl : S -> Prop) (s : S) :
  winv (w_of s) ->
  (forall st d r, winv (st, d, r) -> Q (fst (f d)) (set_shared (st, snd (f d), r) s)) ->
  wp (on_disk env f) Q X Bl s.
Proof.
  intros Hw HQ. apply wp_act. unfold shared. pose proof (Hrely (y_tick s) _ Hw) as Hw'.
  destruct (env _ _) as [[st d] r]. specialize (HQ st d r Hw'). by destruct (f d).
Qed.

(** The reader underneath failed a request it could have answered. *)
Definition inner_failed : Prop :=
  exists r offset buf size, Rinv r /\ is_u64 offset /\ is_u64 size /\ zlen buf = size /\
    offset + size < 2 ^ 64 /\ IsOk (rr_status (fst (fst (Read r offset (Some buf) size)))) = false.

(** The reader underneath, by its contract. *)
Lemma wp_inner_read offset buffer length
    (Q : ReadResult * bytes -> S -> Prop) (X : ReadResult -> S -> Prop) (Bl : S -> Prop) (s : S) :
  winv (w_of s) -> is_u64 offset -> is_u64 length -> zlen buffer = length ->
  offset + length < 2 ^ 64 ->
  (forall st d r res buf, winv (st, d, r) -> read_post A offset length buffer res buf ->
     (IsOk (rr_status res) = false -> inner_failed) ->
     Q (res, buf) (set_shared (st, d, r) s)) ->
  wp (inner_read env offset buffer length) Q X Bl s.
Proof.
  intros Hw Ho' Hl' Hz Hov HQ. apply wp_act. unfold shared. pose proof (Hrely (y_tick s) _ Hw) as Hw'.
  destruct (env _ _) as [[st d] r]. destruct (Read r offset (Some buffer) length) as [[res buf] r'] eqn:E.
  destruct Hw' as (W1 & W2 & W3 & W4 & W5).
  destruct (rc_read (Inv := Rinv) r offset buffer length r' res buf) as (Hi & x & -> & Hp); [done..|].
  simpl. apply (HQ st d r' res x); [by split_and!|done|]. intros Hf.
  exists r, offset, buffer, length. rewrite E. by split_and!.
Qed.

(** ** Abandoning *)

(** Two states of a read that differ only in the shared objects, the time and
    the log. *)
Definition same_locals (s s' : S) : Prop :=
  y_metrics s' = y_metrics s /\ y_dst s' = y_dst s /\ y_resolved s' = y_resolved s /\
  y_served s' = y_served s /\ y_cacheServed s' = y_cacheServed s /\ y_busy s' = y_busy s.

Lemma abandon_each_spec blocks (s : S) :
  winv (w_of s) -> NoDup blocks -> obligations (y_log s) = Some blocks ->
  let s' := abandon_each env b blocks s in
  winv (w_of s') /\ same_locals s s' /\ obligations (y_log s') = Some [].
Proof.
  revert s. induction blocks as [|i rest IH]; intros s Hw Hn Hlog; cbn [abandon_each]; [done|].
  apply NoDup_cons in Hn as [Hi Hn]. unfold shared. pose proof (Hrely (y_tick s) _ Hw) as Hw'.
  destruct (env _ _) as [[st d] r]. cbn [snd].
  destruct (IH (note (Abandoned i) (set_shared (Abandon b i st, d, r) s))) as (J1 & J2 & J3).
  - simpl. by apply abandon_winv.
  - done.
  - simpl. rewrite obligations_snoc, Hlog. simpl. rewrite decide_True by set_solver.
    rewrite filter_cons_False by naive_solver. rewrite filter_all; [done|]. intros x Hx ->. done.
  - split; [done|]. split; [|done]. destruct J2 as (? & ? & ? & ? & ? & ?). by split_and!.
Qed.

Lemma AbandonAll_spec (s : S) :
  winv (w_of s) -> NoDup (Owned_Outstanding (y_owned s)) ->
  obligations (y_log s) = Some (Owned_Outstanding (y_owned s)) ->
  let s' := AbandonAll env b s in
  winv (w_of s') /\ same_locals s s' /\ y_owned s' = OwnedBlocks_new /\
  obligations (y_log s') = Some [].
Proof.
  intros Hw Hn Hlog. unfold AbandonAll.
  destruct (abandon_each_spec (Owned_Outstanding (y_owned s)) s Hw Hn Hlog) as (H1 & H2 & H3).
  by split_and!.
Qed.

(** ** The invariant of a pass *)

Definition inv (s : S) : Prop :=
  winv (w_of s) /\ local_ok (y_dst s) (y_resolved s) (y_served s).

(** What the pass owns and what it will wait for: unresolved, disjoint, and in
    step with the log. *)
Record own_ok (res : list bool) (ow : OwnedBlocks) (busy : list nat) (log : list event) : Prop := {
  oo_wf : ob_wf ow;
  oo_asc : ascending bs (zlen A) (Owned_Outstanding ow);
  oo_span : forall k, k ∈ Owned_Outstanding ow ->
    exists i, k = bk i /\ res !! i = Some false /\ i ∉ busy;
  oo_nodup : NoDup busy;
  oo_busy : forall i, i ∈ busy -> res !! i = Some false;
  oo_log : obligations log = Some (Owned_Outstanding ow) }.

Definition pinv (s : S) : Prop :=
  inv s /\ own_ok (y_resolved s) (y_owned s) (y_busy s) (y_log s).

(** The state an early return leaves, before the destructor of the pass. *)
Definition exit_ok (e : ReadResult) (s : S) : Prop :=
  winv (w_of s) /\ length (y_dst s) = N /\ (IsOk (rr_status e) = false /\ inner_failed) /\
  rr_bytesRead e = 0 /\ NoDup (Owned_Outstanding (y_owned s)) /\
  obligations (y_log s) = Some (Owned_Outstanding (y_owned s)).

(** Waiting [fuel] turns for block [k] from time [tick] finds it pending every
    time. *)
Fixpoint stuck (fuel : nat) (k : Z) (tick : nat) (w : BlockCache.Store * D * R) : Prop :=
  match fuel with
  | O => True
  | Datatypes.S f =>
      let '(st, d, r) := env tick w in
      let '(res, st') := Await b k st in
      res = None /\ stuck f k (Datatypes.S tick) (st', d, r)
  end.

(** Another reader's block of this range stayed pending for all of the
    patience of this one. *)
Definition starved : Prop :=
  exists i tick w, (i < c)%nat /\ winv w /\ stuck patience (bk i) tick w.

(** The state of a read that waits: it owns nothing. *)
Definition blocked_ok (s : S) : Prop :=
  winv (w_of s) /\ length (y_dst s) = N /\ Owned_Outstanding (y_owned s) = [] /\
  obligations (y_log s) = Some [] /\ starved.

Lemma ascending_NoDup ks : ascending bs (zlen A) ks -> NoDup ks.
Proof.
  intros [Hs _]. induction Hs as [|k ks Hs IH Hk]; constructor; [|done].
  rewrite Forall_forall in Hk. intros Hin. specialize (Hk k Hin). lia.
Qed.

Lemma bk_inj i j : bk i = bk j -> i = j.
Proof. unfold bk. lia. Qed.

Lemma own_ok_resolve res ow busy log i :
  own_ok res ow busy log -> res !! i = Some false -> bk i ∉ Owned_Outstanding ow -> i ∉ busy ->
  own_ok (<[i := true]> res) ow busy log.
Proof.
  intros [H1 H2 H3 H4 H5 H6] Hi Hk Hb. split; try done.
  - intros k Hin. destruct (H3 k Hin) as (j & -> & Hj & Hjb). exists j. split; [done|].
    rewrite list_lookup_insert_ne; [done|]. intros ->. done.
  - intros j Hj. rewrite list_lookup_insert_ne; [by apply H5|]. intros ->. done.
Qed.

Lemma own_ok_new res busy log :
  NoDup busy -> (forall i, i ∈ busy -> res !! i = Some false) -> obligations log = Some [] ->
  own_ok res OwnedBlocks_new busy log.
Proof.
  intros. split; try done; [apply ob_wf_new|split; constructor|].
  intros k Hk. by apply not_elem_of_nil in Hk.
Qed.

(** A block somebody else is fetching is left for later. *)
Lemma own_ok_busy res ow busy log i :
  own_ok res ow busy log -> bk i ∉ Owned_Outstanding ow -> res !! i = Some false -> i ∉ busy ->
  own_ok res ow (busy ++ [i]) log.
Proof.
  intros [O1 O2 O3 O4 O5 O6] Hnk Hi Hnb. split; try done.
  - intros k Hin. destruct (O3 k Hin) as (j & -> & Hj & Hjb). exists j. split_and!; [done..|].
    rewrite not_elem_of_app. split; [done|]. intros ->%list_elem_of_singleton. done.
  - apply NoDup_app. split_and!; [done| |apply NoDup_singleton]. intros x Hx ->%list_elem_of_singleton. done.
  - intros j [Hj| ->%list_elem_of_singleton]%elem_of_app; [by apply O5|done].
Qed.

Lemma own_ok_add res ow busy log i :
  own_ok res ow busy log -> (i < c)%nat -> res !! i = Some false -> i ∉ busy ->
  (forall k, k ∈ Owned_Outstanding ow -> k < bk i) ->
  own_ok res (Owned_Add (bk i) ow) busy (log ++ [Acquired (bk i)]).
Proof.
  intros [H1 H2 H3 H4 H5 H6] Hc Hi Hb Hlt. destruct (Owned_Add_spec (bk i) ow H1) as [Hw E].
  assert (bk i ∉ Owned_Outstanding ow) by (intros Hin; specialize (Hlt _ Hin); lia).
  split; try done; rewrite ?E.
  - destruct H2 as [Hs Hf]. split.
    + apply StronglySorted_app_2; [intros x y Hx ->%list_elem_of_singleton; by apply Hlt|done|].
      by repeat constructor.
    + apply Forall_app. split; [done|]. constructor; [by apply bk_in_asset|done].
  - intros k [Hk| ->%list_elem_of_singleton]%elem_of_app; [by apply H3|]. by exists i.
  - rewrite obligations_snoc, H6. simpl. by rewrite decide_False.
Qed.

Lemma resolved_false res i :
  length res = c -> (i < c)%nat -> default false (res !! i) = false -> res !! i = Some false.
Proof.
  intros Hlen Hi. destruct (res !! i) as [x|] eqn:E; [simpl; congruence|].
  apply lookup_ge_None in E. lia.
Qed.

(** Every block of the span meets the range. *)
Lemma begin_lt_end i : (i < c)%nat ->
  Z.max o (bk i * bs) < Z.min (o + l) (block_end bs (zlen A) (bk i)).
Proof.
  intros Hi. destruct rp_span as [_ Hc]. pose proof (bk_in_asset i Hi) as [? ?].
  pose proof (Z.div_mod o bs ltac:(lia)). pose proof (Z.mod_pos_bound o bs ltac:(lia)).
  pose proof (Z.div_mod (o + l - 1) bs ltac:(lia)). pose proof (Z.mod_pos_bound (o + l - 1) bs ltac:(lia)).
  unfold block_end, bk in *. nia.
Qed.

(** ** Rules for the pieces of the read *)

Lemma wp_copy_block k (Q : Z -> S -> Prop) (X : ReadResult -> S -> Prop) (Bl : S -> Prop) (s : S) :
  in_asset bs (zlen A) k -> length (y_dst s) = N ->
  (forall dst', patched k (y_dst s) dst' ->
     Q (overlap bs (zlen A) o l k) (add_served (overlap bs (zlen A) o l k) (set_dst dst' s))) ->
  wp (copy_block rp (extent rp k) (blk k)) Q X Bl s.
Proof.
  intros Hk Hn HQ. apply wp_act. rewrite extent_in by done.
  destruct (CopyOverlap_spec k (y_dst s) Hk Hn) as (dst' & E & Hp).
  cbn [be_offset be_length]. change (rr_offset (p_range rp)) with o. change (rr_length (p_range rp)) with l.
  rewrite E. simpl. by apply HQ.
Qed.

Lemma wp_ReadDirect i (Q : Status -> S -> Prop) (X : ReadResult -> S -> Prop) (Bl : S -> Prop) (s : S) :
  (i < c)%nat -> inv s ->
  let begin := Z.max o (bk i * bs) in
  let end_ := Z.min (o + l) (block_end bs (zlen A) (bk i)) in
  (forall st d r dst' status, winv (st, d, r) -> length dst' = N ->
     (IsOk status = true -> patched (bk i) (y_dst s) dst') ->
     (IsOk status = false -> inner_failed) ->
     Q status (set_dst dst' (set_shared (st, d, r) s))) ->
  wp (ReadDirect env begin (begin - o) (end_ - begin)) Q X Bl s.
Proof.
  intros Hi [Hw [Hd Hr Hby Hs]] begin end_ HQ. pose proof (begin_lt_end i Hi) as Hlt.
  fold begin end_ in Hlt. pose proof asset_u64 as Hu. unfold is_u64 in Hu.
  assert (end_ <= zlen A /\ end_ <= o + l /\ o <= begin) as (He1 & He2 & Hb1) by (unfold end_, begin; lia).
  unfold ReadDirect. mwp.
  assert (zlen (slice (y_dst s) (begin - o) (end_ - begin)) = end_ - begin) as Hz.
  { apply zlen_slice; unfold zlen; lia. }
  apply wp_inner_read; [done|unfold is_u64; lia..|done|lia|].
  intros st d r res buf Hw' [P1 P2 P3 P4] Hfail. mwp. cbn [fst snd].
  assert (length (write_at (y_dst s) (begin - o) buf) = N) as Hlen.
  { rewrite length_write_at; [done|lia|]. unfold zlen in *. lia. }
  change (y_dst (set_shared (st, d, r) s)) with (y_dst s).
  destruct (IsOk (rr_status res)) eqn:Eok; cbn [negb].
  - destruct (P4 eq_refl) as [Hcount Htake]. rewrite Hcount.
    assert (available begin (end_ - begin) (zlen A) = end_ - begin) as Ea by (unfold available; lia).
    rewrite Ea in *. rewrite Z.eqb_refl. cbn [negb]. mwp. apply HQ; [done..| |done]. intros _.
    rewrite Hcount in Htake. rewrite take_ge in Htake by (unfold zlen in *; lia). rewrite Htake.
    by apply write_patched.
  - mwp. apply HQ; [done..| |auto]. congruence.
Qed.

Lemma wp_direct_block i (Q : unit -> S -> Prop) (X : ReadResult -> S -> Prop) (Bl : S -> Prop) (s : S) :
  (i < c)%nat -> inv s -> y_resolved s !! i = Some false ->
  (forall e s', winv (w_of s') -> length (y_dst s') = N -> IsOk (rr_status e) = false ->
     inner_failed -> rr_bytesRead e = 0 -> y_owned s' = y_owned s -> y_log s' = y_log s -> X e s') ->
  (forall s', inv s' -> y_resolved s' = <[i := true]> (y_resolved s) -> y_owned s' = y_owned s ->
     y_busy s' = y_busy s -> y_log s' = y_log s -> Q tt s') ->
  wp (direct_block env rp i (extent rp (bk i))) Q X Bl s.
Proof.
  intros Hi Hinv Hres HX HQ. pose proof (bk_in_asset i Hi) as Hk. pose proof (begin_lt_end i Hi) as Hlt.
  unfold direct_block. rewrite extent_in by done. cbn [be_offset be_length].
  change (rr_offset (p_range rp)) with o. change (rr_length (p_range rp)) with l.
  destruct (ends_u64 (bk i) Hk) as [E1 E2]. rewrite E1, E2.
  rewrite (u64_small (_ - _)) by (pose proof asset_u64; unfold is_u64 in *; lia).
  mwp. apply wp_ReadDirect; [done..|]. intros st d r dst' status Hw Hd Hp Hfail.
  destruct (IsOk status) eqn:Eok; cbn [negb].
  - unfold count. mwp. apply HQ; try done. destruct Hinv as [_ Hloc]. split; [done|]. simpl.
    replace (Z.min _ _ - _) with (overlap bs (zlen A) o l (bk i)) by (unfold overlap; lia).
    apply (local_ok_resolve (y_dst s)); [done..|]. by apply Hp.
  - mwp. apply HX; auto.
Qed.

(** A block served from memory, by whatever name it is counted. *)
Lemma pinv_resolve (s s' : S) i dst' :
  pinv s -> y_resolved s !! i = Some false -> patched (bk i) (y_dst s) dst' ->
  bk i ∉ Owned_Outstanding (y_owned s') -> i ∉ y_busy s' -> winv (w_of s') ->
  own_ok (y_resolved s) (y_owned s') (y_busy s') (y_log s') ->
  y_dst s' = dst' -> y_resolved s' = <[i := true]> (y_resolved s) ->
  y_served s' = u64 (y_served s + overlap bs (zlen A) o l (bk i)) -> pinv s'.
Proof.
  intros [[_ Hloc] _] Hi Hp Hk Hb Hw Ho' Ed Er Es. split; [split; [done|]|].
  - rewrite Ed, Er, Es. by apply (local_ok_resolve (y_dst s)).
  - rewrite Er. by apply own_ok_resolve.
Qed.

(** The invariant of the acquisition loop after [n] blocks. *)
Definition acq_inv (n : nat) (s : S) : Prop :=
  pinv s /\ (forall k, k ∈ Owned_Outstanding (y_owned s) -> k < bk n) /\
  (forall j, j ∈ y_busy s -> (j < n)%nat).

Lemma acq_inv_S n s : acq_inv n s -> acq_inv (Datatypes.S n) s.
Proof.
  intros (H1 & H2 & H3). split; [done|]. split.
  - intros k Hk. specialize (H2 k Hk). unfold bk in *. lia.
  - intros j Hj. specialize (H3 j Hj). lia.
Qed.

Lemma wp_acquire_block i (s : S) :
  (i < c)%nat -> acq_inv i s ->
  wp (acquire_block env im rp i) (fun _ => acq_inv (Datatypes.S i)) exit_ok blocked_ok s.
Proof.
  intros Hi Hacq. pose proof Hacq as (Hp & Hlt & Hbz). pose proof Hp as [[Hw Hloc] Hown].
  pose proof (bk_in_asset i Hi) as Hk. unfold acquire_block. mwp.
  destruct (default false (y_resolved s !! i)) eqn:Eres; [mwp; by apply acq_inv_S|].
  apply resolved_false in Eres; [|apply Hloc|done].
  assert (bk i ∉ Owned_Outstanding (y_owned s)) as Hnk by (intros Hin; specialize (Hlt _ Hin); lia).
  assert (i ∉ y_busy s) as Hnb by (intros Hin; specialize (Hbz _ Hin); lia).
  rewrite block_at_bk by done. mwp. apply wp_on_store; [done|]. intros st d r Hw'.
  destruct (acquire_winv (bk i) st d r Hw' Hk) as [Hw2 Hhit].
  destruct (Acquire b (bk i) st) as [[blk0| |] st'] eqn:Eacq; cbn [fst snd] in *.
  - destruct (blk0 ≫= _) as [data|] eqn:Edata.
    + assert (data = blk (bk i)) as ->.
      { destruct blk0 as [x|]; [|done]. simpl in Edata. rewrite extent_in in Edata by done. simpl in Edata.
        destruct (Z.eqb_spec (zlen x) (zlen (blk (bk i)))) as [Ez|]; [|done]. injection Edata as <-.
        by apply Hhit. }
      mwp. apply wp_copy_block; [done|apply Hloc|]. intros dst' Hpt. unfold count. mwp.
      apply acq_inv_S. split; [|by split].
      eapply (pinv_resolve s); try done.
    + mwp. destruct (AbandonAll_spec (set_shared (st', d, r) s)) as (A1 & A2 & A3 & A4); [done| |apply Hown|].
      { apply ascending_NoDup, Hown. }
      set (s1 := AbandonAll env b (set_shared (st', d, r) s)) in *.
      destruct A2 as (_ & L1 & L2 & L3 & _ & L5).
      change (y_dst s1 = y_dst s) in L1. change (y_resolved s1 = y_resolved s) in L2.
      change (y_served s1 = y_served s) in L3. change (y_busy s1 = y_busy s) in L5.
      apply wp_direct_block; [done| |by rewrite L2| |].
      { split; [done|]. by rewrite L1, L2, L3. }
      { intros e s' ? ? ? ? ? Eo El. unfold exit_ok. rewrite Eo, El, A3, A4. split_and!; try done. constructor. }
      intros s2 Hinv Er Eo Eb El. rewrite L2 in Er. rewrite L5 in Eb. rewrite A3 in Eo.
      split; [split; [done|]|].
      * rewrite Er, Eo, Eb, El. apply own_ok_resolve; try done; [|by apply not_elem_of_nil].
        apply own_ok_new; [apply Hown|apply Hown|done].
      * rewrite Eo, Eb. split; [|intros j Hj; specialize (Hbz j Hj); lia].
        intros k Hin. by apply not_elem_of_nil in Hin.
  - mwp. destruct (Owned_Add_spec (bk i) (y_owned s)) as [_ Eo]; [apply Hown|]. split; [split; [by split|]|].
    + simpl. by apply own_ok_add.
    + simpl. rewrite Eo. split; [|intros j Hj; specialize (Hbz j Hj); lia].
      intros k [Hin| ->%list_elem_of_singleton]%elem_of_app; [specialize (Hlt k Hin)|]; unfold bk in *; lia.
  - mwp. split; [split; [by split|by apply own_ok_busy]|].
    simpl. split; [intros k Hin; specialize (Hlt k Hin); unfold bk in *; lia|].
    intros j [Hj| ->%list_elem_of_singleton]%elem_of_app; [specialize (Hbz j Hj)|]; lia.
Qed.

(** ** The persistent pass *)

Lemma ascending_filter (P : Z -> Prop) `{forall x, Decision (P x)} ks :
  ascending bs (zlen A) ks -> ascending bs (zlen A) (filter P ks).
Proof.
  intros [Hs Hf]. split.
  - induction Hs as [|k ks Hs IH Hk]; [constructor|]. rewrite filter_cons. apply Forall_cons in Hf as [_ Hf].
    case_decide; [|by apply IH]. constructor; [by apply IH|]. rewrite Forall_forall in Hk |- *.
    intros x [_ Hx]%list_elem_of_filter. by apply Hk.
  - rewrite Forall_forall in Hf |- *. intros x [_ Hx]%list_elem_of_filter. by apply Hf.
Qed.

Lemma own_ok_settle res ow busy log k :
  own_ok res ow busy log -> k ∈ Owned_Outstanding ow ->
  own_ok res (Owned_Settle k ow) busy (log ++ [Published k]).
Proof.
  intros [H1 H2 H3 H4 H5 H6] Hk. pose proof (ascending_NoDup _ H2) as Hn.
  destruct (Owned_Settle_spec ow k H1 Hn Hk) as [Hw E]. split; try done; rewrite ?E.
  - by apply ascending_filter.
  - intros k' [_ Hk']%list_elem_of_filter. by apply H3.
  - rewrite obligations_snoc, H6. simpl. by rewrite decide_True.
Qed.

Lemma own_ok_mark res ow busy log k rest :
  own_ok res ow busy log -> Owned_Outstanding ow = k :: rest ->
  own_ok res (Owned_MarkPublished ow) busy (log ++ [Published k]).
Proof.
  intros [H1 H2 H3 H4 H5 H6] Hk. pose proof (ascending_NoDup _ H2) as Hn. rewrite Hk in *.
  destruct (Owned_MarkPublished_spec ow k rest H1 Hk) as (Hw & E & _). apply NoDup_cons in Hn as [Hn _].
  split; try done; rewrite ?E.
  - destruct H2 as [Hs Hf]. split; [by apply StronglySorted_inv in Hs as [? _]|by apply Forall_cons in Hf as [_ ?]].
  - intros k' Hk'. apply H3. by right.
  - rewrite obligations_snoc, H6. simpl. rewrite decide_True by by left.
    rewrite filter_cons_False by naive_solver. rewrite filter_all; [done|]. intros x Hx ->. done.
Qed.

Lemma own_in_asset res ow busy log k :
  own_ok res ow busy log -> k ∈ Owned_Outstanding ow -> in_asset bs (zlen A) k.
Proof. intros [_ [_ Hf] _ _ _ _]. rewrite Forall_forall in Hf. apply Hf. Qed.

Lemma wp_load_block k (s : S) :
  pinv s -> k ∈ Owned_Outstanding (y_owned s) ->
  wp (load_block env im rp k)
    (fun _ s' => pinv s' /\ forall k', k' ∈ Owned_Outstanding (y_owned s) -> k' <> k ->
                   k' ∈ Owned_Outstanding (y_owned s'))
    exit_ok blocked_ok s.
Proof.
  intros Hp Hk. pose proof Hp as [[Hw Hloc] Hown]. pose proof (own_in_asset _ _ _ _ k Hown Hk) as Hin.
  pose proof (oo_span _ _ _ _ Hown k Hk) as (i & -> & Hres & Hnb).
  assert (i < c)%nat as Hi by (rewrite <-(lo_res _ _ _ Hloc); by eapply lookup_lt_Some).
  unfold load_block. mwp. apply wp_on_disk; [done|]. intros st d r (W1 & W2 & W3 & W4 & W5).
  destruct (Load d (b_identity b) (bk i) (be_length (extent rp (bk i)))) as [loaded d'] eqn:El. cbn [fst snd].
  destruct (tc_load (Dinv := Dinv) (A := A) d (bk i) _ loaded d' W4 El) as [Hd' Hdata].
  rewrite Hid in Hdata.
  destruct loaded as [data|]; [|mwp; split; [split; [split; [by split_and!|done]|done]|done]].
  destruct (Hdata data eq_refl) as [Hz Heq]. rewrite extent_in in Hz by done. cbn [be_length] in Hz.
  specialize (Heq Hin Hz). subst data. mwp.
  apply wp_on_store; [by split_and!|]. intros st2 d2 r2 Hw2. unfold count. mwp.
  apply wp_copy_block; [done|apply Hloc|]. intros dst' Hpt. mwp. rewrite index_of_bk by done.
  pose proof (ascending_NoDup _ (oo_asc _ _ _ _ Hown)) as Hn.
  destruct (Owned_Settle_spec (y_owned s) (bk i) (oo_wf _ _ _ _ Hown) Hn Hk) as [_ Es].
  split.
  - eapply (pinv_resolve s); try done; simpl.
    + rewrite Es. intros [? _]%list_elem_of_filter. done.
    + by apply publish_winv.
    + by apply own_ok_settle.
  - intros k' Hk' Hne. simpl. rewrite Es. by apply list_elem_of_filter.
Qed.

(** ** Fetching a run *)

Lemma ascending_app_inv k1 k2 :
  ascending bs (zlen A) (k1 ++ k2) ->
  ascending bs (zlen A) k1 /\ ascending bs (zlen A) k2 /\ forall x y, x ∈ k1 -> y ∈ k2 -> x < y.
Proof.
  intros [Hs Hf]. apply Forall_app in Hf as [Hf1 Hf2]. split; [|split].
  - split; [by eapply StronglySorted_app_1_l|done].
  - split; [by eapply StronglySorted_app_1_r|done].
  - intros x y Hx Hy. by eapply StronglySorted_app_1_elem_of.
Qed.

Lemma group_bounds G k : ascending bs (zlen A) G -> k ∈ G -> first_of G <= k <= last_of G.
Proof.
  intros Hasc Hk. apply list_elem_of_split in Hk as (l1 & l2 & ->). split.
  - destruct l1 as [|x l1]; [done|]. apply ascending_app_inv in Hasc as (_ & _ & Hlt).
    cbn. apply Z.lt_le_incl, Hlt; set_solver.
  - rewrite (cons_middle k l1 l2), app_assoc in Hasc |- *. destruct l2 as [|x l2 _] using rev_ind.
    { rewrite app_nil_r, last_of_snoc. done. }
    rewrite app_assoc, last_of_snoc. apply ascending_app_inv in Hasc as (_ & _ & Hlt).
    apply Z.lt_le_incl, Hlt; set_solver.
Qed.

Lemma first_last_elem G : G <> [] -> first_of G ∈ G /\ last_of G ∈ G.
Proof. destruct G as [|x G]; [done|]. split; [by left|apply last_of_elem]. Qed.

(** The transfer of a group, cut back into its blocks. *)
Lemma transfer_block G k transfer :
  ascending bs (zlen A) G -> k ∈ G ->
  transfer = slice A (first_of G * bs) (block_end bs (zlen A) (last_of G) - first_of G * bs) ->
  slice transfer (k * bs - first_of G * bs) (zlen (blk k)) = blk k.
Proof.
  intros Hasc Hk ->. pose proof (group_bounds G k Hasc Hk) as [H1 H2].
  destruct (first_last_elem G) as [Hf Hla]; [by intros ->; apply not_elem_of_nil in Hk|].
  assert (in_asset bs (zlen A) k /\ in_asset bs (zlen A) (first_of G)) as [Hik Hif].
  { destruct Hasc as [_ Hall]. rewrite Forall_forall in Hall. auto. }
  rewrite zlen_block_of by (done || lia). pose proof (block_end_mono bs (zlen A) ltac:(lia) k (last_of G) H2).
  pose proof (block_end_gt bs (zlen A) ltac:(lia) k Hik). destruct Hik, Hif.
  rewrite slice_slice; [unfold block_of; f_equal; lia|nia|nia|lia|lia].
Qed.

Lemma run_last G :
  ascending bs (zlen A) G -> G <> [] ->
  u64 (fr_firstBlock (run_of bs (zlen A) G) + fr_blockCount (run_of bs (zlen A) G) - 1) = last_of G.
Proof.
  intros Hasc Hne. destruct (first_last_elem G Hne) as [_ Hla]. unfold run_of, run_spec. simpl.
  replace (first_of G + (last_of G - first_of G + 1) - 1) with (last_of G) by lia.
  apply u64_small, in_asset_u64. destruct Hasc as [_ Hf]. rewrite Forall_forall in Hf. by apply Hf.
Qed.

(** The end of a turn: the block that was published is copied out. *)
Lemma wp_publish_copy (s : S) i o' ks taken (s3 : S) :
  pinv s -> (i < c)%nat -> y_resolved s !! i = Some false -> i ∉ y_busy s ->
  Owned_Outstanding (y_owned s) = bk i :: ks -> Owned_Outstanding o' = bk i :: ks ->
  own_ok (y_resolved s) o' (y_busy s) (y_log s) ->
  winv (w_of s3) -> y_dst s3 = y_dst s -> y_resolved s3 = y_resolved s ->
  y_served s3 = y_served s -> y_owned s3 = Owned_MarkPublished o' -> y_busy s3 = y_busy s ->
  y_log s3 = y_log s ++ [Published (bk i)] ->
  wp (copy_block rp (extent rp (bk i)) (blk (bk i)))
    (fun copied => wp (bind (modify (set_resolved (index_of rp (bk i)))) (fun _ =>
         ret (Some (u64 (taken + copied)))))
      (fun next s' => pinv s' /\ y_busy s' = y_busy s /\
         (exists t, next = Some t) /\ Owned_Outstanding (y_owned s') = ks)
      exit_ok blocked_ok)
    exit_ok blocked_ok s3.
Proof.
  intros Hp Hi Hres Hnb Eks Eno Hown1 W3 E1 E2 E3 E4 E5 E6. pose proof Hp as [[Hw Hloc] Hown].
  destruct (Owned_MarkPublished_spec o' (bk i) ks (oo_wf _ _ _ _ Hown1) Eno) as (_ & Em & _).
  apply wp_copy_block; [by apply bk_in_asset|rewrite E1; apply Hloc|].
  intros dst' Hpt. mwp. rewrite index_of_bk by done. simpl. rewrite E4, E5. split; [|eauto].
  pose proof (ascending_NoDup _ (oo_asc _ _ _ _ Hown)) as Hnd. rewrite Eks in Hnd. apply NoDup_cons in Hnd as [Hnd _].
  eapply (pinv_resolve s _ i dst'); try done; simpl; rewrite ?E1, ?E2, ?E3, ?E4, ?E5, ?E6; try done.
  - by rewrite <-E1.
  - by rewrite Em.
  - by apply (own_ok_mark _ _ _ _ _ ks).
Qed.

(** One turn of the publishing loop on the group [G], of which [g] is left. *)
Lemma wp_publish_turn G g rest transfer taken (s : S) :
  pinv s -> Owned_Outstanding (y_owned s) = g ++ rest -> ascending bs (zlen A) (G ++ rest) ->
  G <> [] -> (forall k, k ∈ g -> k ∈ G) ->
  transfer = slice A (first_of G * bs) (block_end bs (zlen A) (last_of G) - first_of G * bs) ->
  wp (publish_turn env im rp (run_of bs (zlen A) G) transfer taken)
    (fun next s' => pinv s' /\ y_busy s' = y_busy s /\
       match g with
       | [] => next = None /\ Owned_Outstanding (y_owned s') = rest
       | _ :: g' => (exists t, next = Some t) /\ Owned_Outstanding (y_owned s') = g' ++ rest
       end)
    exit_ok blocked_ok s.
Proof.
  intros Hp Hout Hasc HG Hsub Htr. pose proof Hp as [[Hw Hloc] Hown].
  destruct (ascending_app_inv _ _ Hasc) as (HascG & _ & Hlt). unfold publish_turn. mwp.
  rewrite Owned_Empty_spec by apply Hown. case_bool_decide as Hemp.
  { mwp. split; [done|]. split; [done|]. rewrite Hout in Hemp. apply app_nil in Hemp as [-> ->].
    by rewrite Hout. }
  mwp. destruct (Owned_Outstanding (y_owned s)) as [|k ks] eqn:Eks; [done|].
  destruct (Owned_Next_spec (y_owned s) k ks (oo_wf _ _ _ _ Hown) Eks) as (En & Hnw & Eno & _).
  destruct (Owned_Next (y_owned s)) as [n o'] eqn:Enext. simpl in En, Hnw, Eno. subst n. rewrite Eks in Eno. cbn [fst snd].
  assert (pinv (set_owned (fun _ => o') s)) as Hp1.
  { split; [done|]. simpl. destruct Hown as [O1 O2 O3 O4 O5 O6]. rewrite Eks in *. split; simpl; rewrite ?Eno; done. }
  rewrite run_last by done. destruct (Z.leb_spec k (last_of G)) as [Hle|Hgt]; cbn [negb].
  2:{ mwp. split; [done|]. split; [done|]. destruct g as [|k' g'].
      { simpl. by rewrite Eno. }
      simpl in Hout. injection Hout as -> ->. exfalso.
      pose proof (group_bounds G k' HascG ltac:(apply Hsub; by left)). lia. }
  destruct g as [|k' g'].
  { exfalso. simpl in Hout. subst rest. destruct (first_last_elem G HG) as [_ Hla].
    specialize (Hlt _ k Hla ltac:(by left)). lia. }
  simpl in Hout. injection Hout as <- ->.
  pose proof (own_in_asset _ _ _ _ k Hown ltac:(rewrite Eks; by left)) as Hin.
  destruct (oo_span _ _ _ _ Hown k ltac:(rewrite Eks; by left)) as (i & -> & Hres & Hnb).
  assert (i < c)%nat as Hi by (rewrite <-(lo_res _ _ _ Hloc); by eapply lookup_lt_Some).
  rewrite extent_in by done. cbn [be_offset be_length].
  change (fr_offset (run_of bs (zlen A) G)) with (first_of G * bs).
  rewrite (transfer_block G) by (done || (apply Hsub; by left)). rewrite <-(extent_in (bk i)) by done.
  mwp. apply wp_on_store; [apply Hp1|]. intros st d r Hw2. unfold count. mwp.
  pose proof (fun s3 => wp_publish_copy s i o' (g' ++ rest) taken s3 Hp Hi Hres Hnb Eks Eno (proj2 Hp1)) as Hcopy.
  destruct (im_persistentEnabled im).
  - mwp. apply wp_on_disk; [by apply publish_winv|]. intros st3 d3 r3 Hw3.
    destruct (Store_ d3 (b_identity b) (bk i) (im_persistable im) (blk (bk i))) as [wrote d4] eqn:Est. cbn [fst snd].
    assert (winv (st3, d4, r3)) as Hw4.
    { destruct Hw3 as (? & ? & ? & Hd3 & ?). split_and!; try done. rewrite <-Hid in Est, Hin.
      by apply (tc_store (A := A) _ _ _ _ _ Hd3 Hin Est). }
    apply wp_when; intros _; mwp; by apply Hcopy.
  - mwp. apply Hcopy; try done. by apply publish_winv.
Qed.

Lemma wp_publish_run fuel G g rest transfer taken (s : S) :
  (length g < fuel)%nat ->
  pinv s -> Owned_Outstanding (y_owned s) = g ++ rest -> ascending bs (zlen A) (G ++ rest) ->
  G <> [] -> (forall k, k ∈ g -> k ∈ G) ->
  transfer = slice A (first_of G * bs) (block_end bs (zlen A) (last_of G) - first_of G * bs) ->
  wp (publish_run env im rp fuel (run_of bs (zlen A) G) transfer taken)
    (fun _ s' => pinv s' /\ y_busy s' = y_busy s /\ Owned_Outstanding (y_owned s') = rest)
    exit_ok blocked_ok s.
Proof.
  revert g taken s. induction fuel as [|f IH]; intros g taken s Hf Hp Hout Hasc HG Hsub Htr; [lia|].
  cbn [publish_run]. mwp. eapply wp_mono; [by apply (wp_publish_turn G g rest)|..]; [|done..].
  intros next s' (Hp' & Hb' & Hg). destruct g as [|k g'].
  - destruct Hg as [-> Ho']. mwp. done.
  - destruct Hg as [[t ->] Ho']. eapply wp_mono; [apply (IH g')|..]; try done.
    + simpl in Hf. lia.
    + intros k' Hk'. apply Hsub. by right.
    + intros a s2 (J1 & J2 & J3). by rewrite J2.
Qed.

Lemma unsettled_length ow : (length (Owned_Outstanding ow) <= length (ob_blocks ow))%nat.
Proof. unfold Owned_Outstanding. rewrite length_map. apply length_filter. Qed.

(** A failed fetch: everything owned is handed back before the return. *)
Lemma abandon_exit (s : S) e :
  pinv s -> IsOk (rr_status e) = false -> inner_failed -> rr_bytesRead e = 0 ->
  exit_ok e (AbandonAll env b s).
Proof.
  intros [[Hw Hloc] Hown] He Hfail Hb. pose proof (ascending_NoDup _ (oo_asc _ _ _ _ Hown)) as Hn.
  destruct (AbandonAll_spec s Hw Hn (oo_log _ _ _ _ Hown)) as (A1 & (_ & L1 & _) & A3 & A4).
  unfold exit_ok. rewrite A3, L1. split_and!; try done; [apply Hloc|constructor].
Qed.

Lemma wp_fetch_run G rest (s : S) :
  pinv s -> Owned_Outstanding (y_owned s) = G ++ rest -> G <> [] ->
  wp (fetch_run env im rp (run_of bs (zlen A) G))
    (fun _ s' => pinv s' /\ y_busy s' = y_busy s /\ Owned_Outstanding (y_owned s') = rest)
    exit_ok blocked_ok s.
Proof.
  intros Hp Hout HG. pose proof Hp as [[Hw Hloc] Hown].
  assert (ascending bs (zlen A) (G ++ rest)) as Hasc by (rewrite <-Hout; apply Hown).
  destruct (ascending_app_inv _ _ Hasc) as (HascG & _ & _). destruct (first_last_elem G HG) as [Hf Hla].
  assert (in_asset bs (zlen A) (first_of G) /\ in_asset bs (zlen A) (last_of G)) as [Hif Hil].
  { destruct HascG as [_ Hall]. rewrite Forall_forall in Hall. auto. }
  pose proof (group_bounds G _ HascG Hla) as [Hle _]. pose proof (block_end_mono bs (zlen A) ltac:(lia) _ _ Hle).
  pose proof (block_end_gt bs (zlen A) ltac:(lia) _ Hif). pose proof asset_u64 as Hu.
  assert (block_end bs (zlen A) (last_of G) <= zlen A) by (unfold block_end; lia).
  set (off := first_of G * bs) in *. set (len := block_end bs (zlen A) (last_of G) - off).
  assert (0 <= off) by (destruct Hif; unfold off; nia).
  unfold fetch_run. change (fr_offset (run_of bs (zlen A) G)) with off.
  change (fr_length (run_of bs (zlen A) G)) with len.
  mwp. apply wp_inner_read; [done|unfold is_u64 in *; lia..| |unfold is_u64 in *; lia|].
  { unfold zlen. rewrite length_replicate. lia. }
  intros st d r res buf Hw' [P1 P2 P3 P4] Hfail.
  assert (pinv (set_shared (st, d, r) s)) as Hp1 by (split; [by split|done]).
  destruct (IsOk (rr_status res)) eqn:Eok; cbn [negb orb].
  2:{ mwp. apply abandon_exit; auto. }
  destruct (P4 eq_refl) as [Hcount Htake].
  assert (available off len (zlen A) = len) as Ea by (unfold available; lia). rewrite Ea in Hcount.
  rewrite Hcount in *. rewrite Z.eqb_refl. cbn [negb orb]. mwp.
  eapply wp_mono; [apply (wp_publish_run _ G G rest); try done|..]; [| | |done..].
  - simpl. pose proof (unsettled_length (y_owned s)) as Hlen. rewrite Hout, length_app in Hlen. lia.
  - rewrite take_ge in Htake by (rewrite P1, length_replicate; lia). done.
  - intros taken s' Hs'. unfold count. mwp. done.
Qed.

(** ** Waiting *)

(** Between blocks of the waiting pass: nothing is owned. *)
Definition ready (s : S) : Prop :=
  inv s /\ ob_wf (y_owned s) /\ Owned_Outstanding (y_owned s) = [] /\ obligations (y_log s) = Some [].

Lemma wp_await fuel k (Q : option bytes -> S -> Prop) (X : ReadResult -> S -> Prop) (s : S) :
  in_asset bs (zlen A) k -> ready s ->
  (forall s' x, winv (w_of s') -> same_locals s s' -> y_owned s' = y_owned s -> y_log s' = y_log s ->
     (forall data, x = Some data -> zlen data = zlen (blk k) -> data = blk k) -> Q x s') ->
  wp (await env im fuel k) Q X (fun s' => ready s' /\ stuck fuel k (y_tick s) (w_of s)) s.
Proof.
  intros Hk. revert s. induction fuel as [|f IH]; intros s Hr HQ; cbn [await].
  { by apply wp_block. }
  mwp. cbn [stuck]. pose proof (Hrely (y_tick s) (w_of s)) as Hw. unfold on_store. apply wp_act. unfold shared.
  destruct (env (y_tick s) (w_of s)) as [[st d] r]. specialize (Hw ltac:(apply Hr)).
  destruct (await_winv k st d r Hw Hk) as [Hw' Hd].
  destruct (Await b k st) as [[x|] st'] eqn:E; cbn [fst snd] in *.
  - mwp. apply HQ; try done. intros data ->. by apply Hd.
  - eapply wp_mono; [apply IH|done..|].
    + destruct Hr as ([_ Hloc] & ? & ? & ?). by split_and!.
    + intros s' x W1 W2 W3 W4 W5. by apply HQ.
    + intros s' [H1 H2]. by split_and!.
Qed.

Lemma wp_await_block i (s : S) :
  (i < c)%nat -> ready s -> y_resolved s !! i = Some false ->
  wp (await_block env patience im rp i)
    (fun _ s' => ready s' /\ forall j, j <> i -> y_resolved s' !! j = y_resolved s !! j)
    exit_ok blocked_ok s.
Proof.
  intros Hi Hr Hres. pose proof (bk_in_asset i Hi) as Hk. pose proof Hr as ([Hw Hloc] & Hwf & Ho' & Hlog).
  unfold await_block. rewrite block_at_bk by done. mwp.
  assert (obligations (y_log s ++ [Awaiting (bk i)]) = Some []) as Hlog'.
  { rewrite obligations_snoc, Hlog. done. }
  eapply (wp_mono _ _ _ exit_ok exit_ok); [apply wp_await; [done|by split_and!|]|intros a s' Ha; exact Ha|done|].
  2:{ intros s' [([Hw' Hloc'] & _ & Ho2 & Hlog2) Hst]. split_and!; [done|apply Hloc'|done|done|].
      exists i, (y_tick s), (w_of s). done. }
  intros s' x W1 (_ & L1 & L2 & L3 & _) W3 W4 W5.
  cbn [note y_dst y_resolved y_served y_owned y_log] in *.
  assert (ready s') as Hr'.
  { split; [split; [done|by rewrite L1, L2, L3]|]. rewrite W3, W4. by split_and!. }
  destruct (x ≫= _) as [data|] eqn:Ex.
  2:{ mwp. split; [done|]. intros j _. by rewrite L2. }
  assert (data = blk (bk i)) as ->.
  { destruct x as [y|]; [|done]. simpl in Ex. rewrite extent_in in Ex by done. simpl in Ex.
    destruct (Z.eqb_spec (zlen y) (zlen (blk (bk i)))) as [Ez|]; [|done]. injection Ex as <-. by apply W5. }
  mwp. apply wp_copy_block; [done|rewrite L1; apply Hloc|]. intros dst' Hpt. unfold count. mwp. split.
  - split; [split; [done|]|by destruct Hr' as (_ & ?)]. simpl. rewrite L2, L3.
    apply (local_ok_resolve (y_dst s)); [done..|]. by rewrite <-L1.
  - intros j Hj. simpl. rewrite L2. by rewrite list_lookup_insert_ne.
Qed.

(** ** A pass *)

Definition pass_end (s : S) : Prop :=
  inv s /\ NoDup (Owned_Outstanding (y_owned s)) /\
  obligations (y_log s) = Some (Owned_Outstanding (y_owned s)).

Lemma pinv_pass_end s : pinv s -> pass_end s.
Proof. intros [Hi Hown]. split; [done|]. split; [apply ascending_NoDup, Hown|apply Hown]. Qed.

Lemma seq_split n seen i rest : seq 0 n = seen ++ i :: rest -> i = length seen /\ (i < n)%nat.
Proof.
  intros E. assert (seq 0 n !! length seen = Some i) as Hlk by (rewrite E; by apply list_lookup_middle).
  apply lookup_seq in Hlk. lia.
Qed.

Lemma wp_acquire_loop (Q : unit -> S -> Prop) (s : S) :
  pinv s -> Owned_Outstanding (y_owned s) = [] -> y_busy s = [] ->
  (forall s', pinv s' -> Q tt s') ->
  wp (mfor (seq 0 c) (acquire_block env im rp)) Q exit_ok blocked_ok s.
Proof.
  intros Hp Ho' Hb HQ. apply wp_mfor with (I := fun seen s' => acq_inv (length seen) s').
  - split; [done|]. rewrite Ho', Hb. split; intros ? ?%not_elem_of_nil; done.
  - intros seen i rest s' E Hs'. destruct (seq_split _ _ _ _ E) as [-> Hlt].
    eapply wp_mono; [by apply wp_acquire_block|..]; [|done..].
    intros [] s2 H2. rewrite length_app. simpl. by rewrite Nat.add_1_r.
  - intros s' (Hp' & _). by apply HQ.
Qed.

Lemma wp_load_loop (Q : unit -> S -> Prop) (s : S) :
  pinv s -> (forall s', pinv s' -> Q tt s') ->
  wp (mfor (Owned_Outstanding (y_owned s)) (load_block env im rp)) Q exit_ok blocked_ok s.
Proof.
  intros Hp HQ. pose proof Hp as [_ Hown]. pose proof (ascending_NoDup _ (oo_asc _ _ _ _ Hown)) as Hn.
  apply wp_mfor with (I := fun seen s' => pinv s' /\
    forall k, k ∈ Owned_Outstanding (y_owned s) -> k ∉ seen -> k ∈ Owned_Outstanding (y_owned s')).
  - done.
  - intros seen k rest s' E (Hp' & Hleft). rewrite E in Hn.
    assert (k ∉ seen) by (apply NoDup_app in Hn; set_solver).
    eapply wp_mono; [apply (wp_load_block k s'); [done|]|..].
    { apply Hleft; [rewrite E; set_solver|done]. }
    2-3: done.
    + intros [] s2 (H2 & H3). split; [done|]. intros k' Hk' Hns. apply not_elem_of_app in Hns as [Hn1 Hn2].
      apply H3; [by apply Hleft|]. intros ->. apply Hn2. by left.
  - intros s' (Hp' & _). by apply HQ.
Qed.

Lemma wp_fetch_loop (Q : unit -> S -> Prop) (s : S) :
  pinv s ->
  (forall s', pinv s' -> y_busy s' = y_busy s -> Owned_Outstanding (y_owned s') = [] -> Q tt s') ->
  wp (mfor (PlanRuns (Owned_Outstanding (y_owned s)) bs (zlen A) (co_coalesceGapBlocks (im_options im))
              (co_maxRequestBytes (im_options im))) (fetch_run env im rp)) Q exit_ok blocked_ok s.
Proof.
  intros Hp HQ. pose proof Hp as [_ Hown].
  destruct (PlanRuns_groups bs (zlen A) ltac:(lia) asset_u64 (co_coalesceGapBlocks (im_options im))
    (co_maxRequestBytes (im_options im)) (Owned_Outstanding (y_owned s)) Hgap (oo_asc _ _ _ _ Hown))
    as (groups & Hcat & -> & Hok & _).
  apply wp_mfor with (I := fun seen s' => pinv s' /\ y_busy s' = y_busy s /\ exists g1 g2,
    groups = g1 ++ g2 /\ seen = map (run_of bs (zlen A)) g1 /\ Owned_Outstanding (y_owned s') = concat g2).
  - split; [done|]. split; [done|]. by exists [], groups.
  - intros seen run rest s' E (Hp' & Hb' & g1 & g2 & -> & -> & Ho').
    rewrite map_app in E. apply app_inv_head in E. destruct g2 as [|G g2]; [done|].
    simpl in E. injection E as <- <-. apply Forall_app in Hok as [_ Hok]. apply Forall_cons in Hok as [[HG _ _] _].
    eapply wp_mono; [by apply (wp_fetch_run G (concat g2))|..]; [|done..].
    intros [] s2 (H2 & H3 & H4). split; [done|]. split; [congruence|]. exists (g1 ++ [G]), g2.
    rewrite <-app_assoc, map_app. done.
  - intros s' (Hp' & Hb' & g1 & g2 & -> & E & Ho'). apply HQ; [done..|]. rewrite Ho'.
    rewrite map_app in E. destruct g2; [done|]. exfalso. apply (f_equal length) in E.
    rewrite length_app, !length_map in E. simpl in E. lia.
Qed.

Lemma wp_await_loop (Q : unit -> S -> Prop) (s : S) :
  pinv s -> Owned_Outstanding (y_owned s) = [] -> (forall s', ready s' -> Q tt s') ->
  wp (mfor (y_busy s) (await_block env patience im rp)) Q exit_ok blocked_ok s.
Proof.
  intros [Hi [O1 O2 O3 O4 O5 O6]] Ho' HQ. rewrite Ho' in O6.
  apply wp_mfor with (I := fun seen s' => ready s' /\
    forall i, i ∈ y_busy s -> i ∉ seen -> y_resolved s' !! i = Some false).
  - split; [by split_and!|]. intros i Hin _. by apply O5.
  - intros seen i rest s' E (Hr & Hleft). rewrite E in O4.
    assert (i ∉ seen) as Hns by (apply NoDup_app in O4; set_solver).
    assert (i ∈ y_busy s) as Hin by (rewrite E; set_solver).
    assert (i < c)%nat as Hlt.
    { specialize (O5 i Hin). destruct Hi as [_ Hloc]. rewrite <-(lo_res _ _ _ Hloc). by eapply lookup_lt_Some. }
    eapply wp_mono; [apply (wp_await_block i s'); [done..|by apply Hleft]|..]; [|done..].
    intros [] s2 (H2 & H3). split; [done|]. intros j Hj Hnj. apply not_elem_of_app in Hnj as [Hn1 Hn2].
    rewrite H3; [by apply Hleft|]. intros ->. apply Hn2. by left.
  - intros s' (Hr & _). by apply HQ.
Qed.

Lemma ready_pass_end s : ready s -> pass_end s.
Proof. intros (Hi & _ & Ho' & Hlog). unfold pass_end. rewrite Ho'. split; [done|]. split; [constructor|done]. Qed.

Lemma wp_fetch_and_wait (s : S) :
  pinv s -> wp (fetch_and_wait env patience im rp) (fun _ => pass_end) exit_ok blocked_ok s.
Proof.
  intros Hp. unfold fetch_and_wait. mwp.
  destruct (Owned_Empty (y_owned s) && bool_decide (y_busy s = [])); [mwp; by apply pinv_pass_end|]. mwp.
  - unfold count. mwp. set (s3 := set_metrics _ s). assert (pinv s3) as Hp3 by done.
    apply (wp_fetch_loop _ s3 Hp3). intros s4 Hp4 _ Ho4. mwp.
    apply wp_await_loop; [done..|]. intros s5 Hr. mwp. by apply ready_pass_end.
  - pose proof Hp as [_ Hown]. apply wp_await_loop; [done| |].
    + rewrite Owned_Empty_spec in * by apply Hown. by case_bool_decide.
    + intros s5 Hr. mwp. by apply ready_pass_end.
Qed.

Lemma wp_pass_body (s : S) :
  pinv s -> Owned_Outstanding (y_owned s) = [] -> y_busy s = [] ->
  wp (pass_body env patience im rp) (fun _ => pass_end) exit_ok blocked_ok s.
Proof.
  intros Hp Ho' Hb. unfold pass_body. mwp. apply wp_acquire_loop; [done..|]. intros s1 Hp1. mwp.
  - apply wp_load_loop; [done|]. intros s2 Hp2. by apply wp_fetch_and_wait.
  - by apply wp_fetch_and_wait.
Qed.

(** Between passes. *)
Definition between (s : S) : Prop :=
  inv s /\ y_owned s = OwnedBlocks_new /\ obligations (y_log s) = Some [].

(** What a return that is not success leaves behind. *)
Definition failed (e : ReadResult) (s : S) : Prop :=
  winv (w_of s) /\ length (y_dst s) = N /\ (IsOk (rr_status e) = false /\ inner_failed) /\
  rr_bytesRead e = 0 /\ obligations (y_log s) = Some [].

(** What a call that is still waiting has done so far. *)
Definition waiting (s : S) : Prop :=
  winv (w_of s) /\ length (y_dst s) = N /\ obligations (y_log s) = Some [] /\ starved.

Lemma wp_pass (s : S) :
  between s -> wp (pass env patience im rp) (fun _ => between) failed waiting s.
Proof.
  intros (Hi & Ho' & Hlog). unfold pass. mwp.
  set (s1 := set_busy (fun _ => []) (set_owned (fun _ => OwnedBlocks_new) s)).
  assert (pinv s1) as Hp1.
  { split; [done|]. simpl. apply own_ok_new; [constructor|intros i Hin; by apply not_elem_of_nil in Hin|done]. }
  eapply wp_mono; [by apply (wp_pass_body s1 Hp1)|..].
  - intros broke s2 ([Hw Hloc] & Hn & Hlog2). destruct (AbandonAll_spec s2 Hw Hn Hlog2) as (A1 & A2 & A3 & A4).
    destruct A2 as (_ & L1 & L2 & L3 & _). split; [split; [done|by rewrite L1, L2, L3]|done].
  - intros e s2 (Hw & Hd & He & Hb & Hn & Hlog2). destruct (AbandonAll_spec s2 Hw Hn Hlog2) as (A1 & A2 & A3 & A4).
    destruct A2 as (_ & L1 & _). unfold failed. rewrite L1. done.
  - intros s2 (Hw & Hd & Ho2 & Hlog2 & Hst). rewrite <-Ho2 in Hlog2.
    destruct (AbandonAll_spec s2 Hw ltac:(rewrite Ho2; constructor) Hlog2) as (A1 & A2 & A3 & A4).
    destruct A2 as (_ & L1 & _). unfold waiting. rewrite L1. done.
Qed.

Lemma wp_passes n (Q : unit -> S -> Prop) (s : S) :
  between s -> (forall s', between s' -> Q tt s') ->
  wp (passes env patience im rp n) Q failed waiting s.
Proof.
  revert s. induction n as [|n IH]; intros s Hs HQ; cbn [passes]; [mwp; by apply HQ|].
  mwp. eapply wp_mono; [by apply wp_pass|..]; [|done..].
  intros [] s' Hs'; [mwp; by apply HQ|by apply IH].
Qed.

Lemma wp_finish_loop (Q : unit -> S -> Prop) (s : S) :
  between s ->
  (forall s', between s' -> (forall i, (i < c)%nat -> y_resolved s' !! i = Some true) -> Q tt s') ->
  wp (mfor (seq 0 c) (finish_block env rp)) Q failed waiting s.
Proof.
  intros Hs HQ. apply wp_mfor with (I := fun seen s' => between s' /\
    forall i, (i < length seen)%nat -> y_resolved s' !! i = Some true).
  - split; [done|]. simpl. lia.
  - intros seen i rest s' E ((Hi & Ho' & Hlog) & Hall). destruct (seq_split _ _ _ _ E) as [-> Hlt].
    unfold finish_block. mwp. rewrite length_app. simpl. rewrite Nat.add_1_r.
    destruct (default false (y_resolved s' !! length seen)) eqn:Eres.
    + mwp. split; [done|]. intros j Hj. destruct (decide (j = length seen)) as [->|]; [|apply Hall; lia].
      destruct (y_resolved s' !! length seen) as [[]|]; done.
    + pose proof Hi as [Hw Hloc]. apply resolved_false in Eres; [|apply Hloc|done].
      rewrite block_at_bk by done.
      apply wp_direct_block; [done..| |].
      { intros e s2 ? ? ? ? ? Eo El. unfold failed. by rewrite El. }
      intros s2 Hi2 Er Eo Eb El. unfold between. rewrite Eo, El. split; [done|]. intros j Hj. rewrite Er.
      destruct (decide (j = length seen)) as [->|Hne].
      * apply list_lookup_insert_eq. by rewrite (lo_res _ _ _ Hloc).
      * rewrite list_lookup_insert_ne by done. apply Hall. lia.
  - intros s' (Hb & Hall). rewrite length_seq in Hall. by apply HQ.
Qed.

(** What [ReadCached] has done when it returns. *)
Definition finished (e : ReadResult) (s : S) : Prop :=
  winv (w_of s) /\ length (y_dst s) = N /\ obligations (y_log s) = Some [] /\
  if IsOk (rr_status e) then rr_bytesRead e = l /\ take (Z.to_nat l) (y_dst s) = slice A o l
  else rr_bytesRead e = 0 /\ inner_failed.

Lemma failed_finished e s : failed e s -> finished e s.
Proof. intros (H1 & H2 & (H3 & H4) & H5 & H6). unfold finished. rewrite H3. done. Qed.

Lemma wp_conclude (s : S) :
  between s -> (forall i, (i < c)%nat -> y_resolved s !! i = Some true) ->
  wp (conclude env rp) finished failed waiting s.
Proof.
  intros ([Hw Hloc] & Ho' & Hlog) Hall. unfold conclude. mwp. apply wp_on_store; [done|].
  intros st d r Hw'. unfold count. mwp. cbn [y_served set_metrics set_shared fst snd].
  destruct (local_ok_complete _ _ _ Hloc Hall) as [Es Et]. rewrite Es.
  change (rr_length (p_range rp)) with l. rewrite Z.eqb_refl. cbn [negb]. mwp.
  split_and!; try done. apply Hloc.
Qed.

Lemma wp_ReadCached_body (s : S) :
  between s -> wp (ReadCached_body env patience im rp) finished finished waiting s.
Proof.
  intros Hs. eapply wp_mono with (Q := finished) (X := failed) (B := waiting);
    [|done|intros; by apply failed_finished|done].
  unfold ReadCached_body. mwp. apply wp_passes; [done|]. intros s1 Hs1. mwp.
  apply wp_finish_loop; [done|]. intros s2 Hs2 Hall. mwp. unfold count.
  destruct (_ =? _); mwp; by apply wp_conclude.
Qed.

End proof.

(** ** The theorems *)

(** A cached reader of the asset [A] among others: its options are normal, its
    binding was made with its block size, and the other readers keep the shared
    invariant. *)
Record deployed {R D} (env : nat -> BlockCache.Store * D * R -> BlockCache.Store * D * R) (im : Impl)
    (A : bytes) (Rinv : R -> Prop) (Dinv : D -> Prop) : Prop := {
  dp_block : 0 < co_blockSize (im_options im) <= kMaxBlockSize;
  dp_identity : ai_blockSize (b_identity (im_binding im)) = co_blockSize (im_options im);
  dp_gap : 0 <= co_coalesceGapBlocks (im_options im);
  dp_rely : forall t w, winv im A Rinv Dinv w -> winv im A Rinv Dinv (env t w) }.

Section theorems.
Context {R D : Type} `{AssetReader R} `{PersistentTier D}.
Context (env : nat -> BlockCache.Store * D * R -> BlockCache.Store * D * R) (patience : nat).
Context (im : Impl) (A : bytes) (Rinv : R -> Prop) (Dinv : D -> Prop).
Context `{!ReaderContract R Rinv A} `{!TierContract D Dinv (b_identity (im_binding im)) A}.
Context (Hdep : deployed env im A Rinv Dinv).

Definition cwinv (c : csys (R := R) (D := D)) : Prop :=
  winv im A Rinv Dinv (c_store c, c_disk c, c_inner c).

(** [ReadCached] on a resolved range, by the rules above. *)
Lemma ReadCached_spec offset length dst (c : csys) :
  cwinv c -> 0 <= offset -> 0 < length -> offset + length <= zlen A -> length <= zlen dst ->
  match ReadCached env patience im (mkReadRange Transfer offset length) dst c with
  | (Some e, s) => finished im A Rinv Dinv offset length (List.length dst) e s
  | (None, s) => waiting env patience im A Rinv Dinv offset length (List.length dst) s
  end.
Proof.
  intros Hw Ho Hl Hf Hd. destruct Hdep as [D1 D2 D3 D4].
  assert (am_size (Metadata (c_inner c)) = zlen A) as Es by (apply (rc_size (Inv := Rinv)); apply Hw).
  unfold ReadCached. rewrite Es. fold (rp im A offset length). apply run_wp.
  apply wp_ReadCached_body; try done. split; [split; [done|]|done]. split; simpl.
  - done.
  - apply length_replicate.
  - by intros i [? _]%lookup_replicate.
  - unfold served_of. symmetry. apply zsum_zero. intros i _. unfold share.
    destruct (replicate _ _ !! i) as [x|] eqn:E; [|done]. by apply lookup_replicate in E as [-> _].
Qed.

(** Whatever else happens, a read settles what it owned and waits owning
    nothing. *)
Lemma ReadCached_settles offset length dst (c : csys) :
  cwinv c -> 0 <= offset -> 0 < length -> offset + length <= zlen A -> length <= zlen dst ->
  obligations (y_log (snd (ReadCached env patience im (mkReadRange Transfer offset length) dst c))) = Some [].
Proof.
  intros Hw Ho Hl Hf Hd. pose proof (ReadCached_spec offset length dst c Hw Ho Hl Hf Hd) as Hs.
  destruct (ReadCached _ _ _ _ _ _) as [[e|] s]; [apply Hs|]. destruct Hs as (_ & _ & Hs & _). done.
Qed.

(** The cases of a call. *)
Lemma Cached_Read_cases start end_ offset dst size (c : csys) :
  cwinv c -> is_u64 offset -> is_u64 size -> zlen dst = size ->
  let '(res, dst', c') := Cached_Read env patience im start end_ offset (Some dst) size c in
  cwinv c' /\ exists d, dst' = Some d /\ length d = length dst /\
  match res with
  | Some r => read_post A offset size dst r d /\
      (IsOk (rr_status r) = false -> offset + size < 2 ^ 64 -> inner_failed Rinv)
  | None => 0 < available offset size (zlen A) /\
      starved env patience im A Rinv Dinv offset (available offset size (zlen A))
  end.
Proof.
  intros Hw Ho Hs Hd. assert (am_size (Metadata (c_inner c)) = zlen A) as Es by (apply (rc_size (Inv := Rinv)); apply Hw).
  pose proof (rc_u64 (R := R) (Inv := Rinv) (A := A)) as Hu.
  unfold Cached_Read, Cached_Read_untimed. cbn [c_store c_disk c_inner c_tick c_metrics]. rewrite Es.
  destruct (ResolveReadRange_cases offset size (zlen A) Ho Hs Hu) as [Eoff Hcase].
  set (range := ResolveReadRange offset size (zlen A)) in *. unfold is_u64 in Ho, Hs.
  destruct Hcase as [(Hov & Eo & El)|[(Hov & Ha & Eo & El)|(Hov & Ha & Eo & El & Hin)]]; rewrite Eo.
  - split; [done|]. exists dst. split_and!; try done; [|simpl; lia].
    apply read_post_fail; done || lia.
  - rewrite bool_decide_true by done. split; [done|]. exists dst. split_and!; try done.
    apply read_post_empty; lia.
  - rewrite bool_decide_false by done. destruct (Z.geb_spec (rr_length range) (co_bypassThresholdBytes (im_options im))).
    + pose proof (dp_rely _ _ _ _ _ Hdep (c_tick c) _ Hw) as Hw'.
      destruct (env _ _) as [[st d] r]. destruct (Read r offset (Some dst) size) as [[res dst'] r'] eqn:E.
      destruct Hw' as (W1 & W2 & W3 & W4 & W5).
      destruct (rc_read (Inv := Rinv) r offset dst size r' res dst') as (Hi & x & -> & Hp); [done..|].
      split; [by split_and!|]. exists x. split_and!; try done; [apply Hp|].
      intros Hf _. exists r, offset, dst, size. rewrite E. by split_and!.
    + assert (range = mkReadRange Transfer offset (available offset size (zlen A))) as ->.
      { destruct range; simpl in *; congruence. }
      rewrite El in Hin. pose proof (available_range offset size (zlen A)) as Har.
      set (len := available offset size (zlen A)) in *. set (c1 := mkCsys _ _ _ _ _).
      pose proof (ReadCached_spec offset len dst c1 Hw ltac:(lia) ltac:(lia) Hin ltac:(lia)) as Hr.
      destruct (ReadCached _ _ _ _ _ _) as [[e|] s].
      * destruct Hr as (R1 & R2 & R3 & R4). split; [done|]. exists (y_dst s). split_and!; try done.
        -- destruct (IsOk (rr_status e)) eqn:Ek; [destruct R4 as [Hb Ht]|destruct R4 as [Hb _]];
             (split; [done|lia|lia|rewrite Ek; [try done]]).
           intros _. rewrite Hb. done.
        -- intros Hf _. rewrite Hf in R4. apply R4.
      * destruct Hr as (R1 & R2 & R3 & R4). split; [done|]. by exists (y_dst s).
Qed.

End theorems.

(** ** A new reader starts with the invariant *)

(** A key under an identity that no binding had yet shows nothing. *)
Lemma fresh_invisible st id i :
  store_wf st -> s_nextIdentityId st <= id -> visible st (mkShardKey id i) = None.
Proof.
  intros Hw Hid. unfold visible, lookup_entry.
  destruct (s_shards st !! ShardFor st (mkShardKey id i)) as [sh|] eqn:E; [|done]. simpl.
  destruct (sh_entries sh !! mkShardKey id i) as [e|] eqn:Ee; [|done].
  destruct (sw_shards _ Hw _ _ E) as [_ Hk]. destruct (Hk _ _ Ee) as [_ Hlt]. simpl in Hlt. lia.
Qed.

(** The key of an asset in the store and on the disk. *)
Lemma Impl_new_identity {R D} `{AssetReader R} `{PersistentTier D} (inner : R) requested st (d : D) im_metrics im metrics im2 st' :
  Impl_new inner requested st d im_metrics = (im, metrics, im2, st') ->
  b_identity (im_binding im) = mkAssetIdentity (am_resolvedIdentifier (Metadata inner))
    (v_value (am_validator (Metadata inner))) (co_blockSize (CacheOptions.Normalized requested)).
Proof.
  unfold Impl_new, Bind. destruct (negb _); [by intros [= <- _ _ _]|].
  destruct (s_identities st !! _); by intros [= <- _ _ _].
Qed.

(** What the store holds of an asset already: every block resident under its
    identity at its right length is the asset's.  So it is in a store that has not
    seen the asset, and in one that earlier readers of it have used. *)
Definition store_holds (A : bytes) (identity : AssetIdentity) (st : BlockCache.Store) : Prop :=
  forall iid i d, s_identities st !! identity = Some iid -> in_asset (ai_blockSize identity) (zlen A) i ->
    visible st (mkShardKey iid i) = Some (Some d) -> zlen d = zlen (block_of A (ai_blockSize identity) i) ->
    d = block_of A (ai_blockSize identity) i.

Lemma store_holds_new A identity st : s_identities st !! identity = None -> store_holds A identity st.
Proof. intros E iid i d. congruence. Qed.

(** The constructor establishes [deployed] and the invariant when the identity
    is private, or what the store holds of it is the asset's. *)
Lemma Impl_new_ok {R D} `{AssetReader R} `{PersistentTier D} env (inner : R) requested st (d : D) im_metrics
    (A : bytes) (Rinv : R -> Prop) (Dinv : D -> Prop) :
  options_typed requested -> store_wf st -> 0 <= s_nextIdentityId st < 2 ^ 64 - 1 ->
  Rinv inner -> Dinv d ->
  let '(im, _, _, st') := Impl_new inner requested st d im_metrics in
  (b_isPrivate (im_binding im) = true \/ store_holds A (b_identity (im_binding im)) st) ->
  (forall t w, winv im A Rinv Dinv w -> winv im A Rinv Dinv (env t w)) ->
  deployed env im A Rinv Dinv /\ winv im A Rinv Dinv (st', d, inner).
Proof.
  intros Ht Hw Hn Hr Hd. unfold Impl_new.
  pose proof (Bind_spec (am_resolvedIdentifier (Metadata inner)) (am_validator (Metadata inner))
    (co_blockSize (CacheOptions.Normalized requested)) st Hw Hn) as Hb.
  destruct (Bind _ _ _ _) as [b st'].
  destruct Hb as (Hw' & Hv & _ & _ & Hid & _ & Hlt & Hkeep & Hcase). intros Hheld Hrely. simpl in Hheld.
  split.
  - pose proof (Normalized_normal _ Ht) as Hnorm. pose proof (Normalized_typed _ Ht) as Htyp.
    destruct (no_power _ Hnorm) as (k & Hk & E). split; simpl in *.
    + rewrite E. split; [apply Z.pow_pos_nonneg; lia|]. change kMaxBlockSize with (2 ^ 26).
      apply Z.pow_le_mono_r; lia.
    + by rewrite Hid.
    + apply (ot_gap _ Htyp).
    + done.
  - split_and!; try done. intros i x Hin Hx. rewrite Hv in Hx. unfold key_of in Hx. simpl in *.
    destruct (decide (b_identityId b = s_nextIdentityId st)) as [Enew|Enew].
    { rewrite fresh_invisible in Hx; [done|done|]. lia. }
    destruct (b_isPrivate b); [by destruct Hcase|]. destruct Hheld as [|Hheld]; [done|].
    destruct Hcase as [Hnew Hfresh]. destruct (s_identities st !! b_identity b) as [iid|] eqn:Eid; [|by destruct Enew; apply Hfresh].
    rewrite (Hkeep _ _ Eid) in Hnew. injection Hnew as ->.
    unfold store_holds in Hheld. rewrite Hid in Hheld, Eid. by eapply Hheld.
Qed.

Section claims.
Context {R D : Type} `{AssetReader R} `{PersistentTier D}.

(** C2: a cached read keeps the reader contract, in every interleaving with other
    readers.  Between any two steps of the read the environment may change the
    shared store, the disk tier and the reader underneath in any way that keeps
    the shared invariant; the call returns exactly the bytes the asset has when
    it reports success, reports an overflowing request as an invalid argument,
    never writes outside the caller's buffer and keeps the shared invariant for
    the others, whatever it returns. *)
Theorem Cached_Read_contract env patience im A Rinv Dinv
    `{!ReaderContract R Rinv A} `{!TierContract D Dinv (b_identity (im_binding im)) A}
    start end_ offset dst size (c : csys (R := R) (D := D)) :
  deployed env im A Rinv Dinv -> cwinv im A Rinv Dinv c ->
  is_u64 offset -> is_u64 size -> zlen dst = size ->
  let '(res, dst', c') := Cached_Read env patience im start end_ offset (Some dst) size c in
  cwinv im A Rinv Dinv c' /\
  exists d, dst' = Some d /\ length d = length dst /\
    forall r, res = Some r -> read_post A offset size dst r d.
Proof.
  intros Hdep Hw Ho Hs Hd.
  pose proof (Cached_Read_cases env patience im A Rinv Dinv Hdep start end_ offset dst size c Hw Ho Hs Hd) as Hc.
  destruct (Cached_Read _ _ _ _ _ _ _ _ _) as [[res dst'] c']. destruct Hc as (Hw' & d & -> & Hl & Hr).
  split; [done|]. exists d. split_and!; [done..|]. intros r ->. apply Hr.
Qed.

(** C12: a cached read returns, and with success: when the reader underneath does
    not fail and no other reader leaves a block pending for as long as this one
    is prepared to wait, the call terminates with the bytes asked for, all of
    those the asset has. *)
Theorem Cached_Read_total env patience im A Rinv Dinv
    `{!ReaderContract R Rinv A} `{!TierContract D Dinv (b_identity (im_binding im)) A}
    start end_ offset dst size (c : csys (R := R) (D := D)) :
  deployed env im A Rinv Dinv -> cwinv im A Rinv Dinv c ->
  is_u64 offset -> is_u64 size -> zlen dst = size -> offset + size < 2 ^ 64 ->
  never_fails Rinv ->
  (forall k tick w, winv im A Rinv Dinv w -> in_asset (co_blockSize (im_options im)) (zlen A) k ->
     stuck env im patience k tick w -> False) ->
  exists r d c', Cached_Read env patience im start end_ offset (Some dst) size c = (Some r, Some d, c') /\
    IsOk (rr_status r) = true /\ rr_bytesRead r = available offset size (zlen A) /\
    take (Z.to_nat (rr_bytesRead r)) d = slice A offset (rr_bytesRead r).
Proof.
  intros Hdep Hw Ho Hs Hd Hov Hnever Hfair.
  pose proof (Cached_Read_cases env patience im A Rinv Dinv Hdep start end_ offset dst size c Hw Ho Hs Hd) as Hc.
  destruct (Cached_Read _ _ _ _ _ _ _ _ _) as [[res dst'] c']. destruct Hc as (Hw' & d & -> & Hl & Hr).
  destruct res as [r|].
  - destruct Hr as [[P1 P2 P3 P4] Hf]. destruct (IsOk (rr_status r)) eqn:Ek.
    + exists r, d, c'. destruct (P4 eq_refl). by split_and!.
    + exfalso. destruct (Hf eq_refl Hov) as (r0 & o0 & b0 & s0 & ? & ? & ? & ? & ? & Hf0).
      by rewrite (Hnever r0 o0 b0 s0) in Hf0.
  - exfalso. destruct Hr as (Hpos & i & tick & w & Hi & Hw0 & Hst).
    eapply (Hfair _ tick w); [done| |exact Hst]. destruct Hdep as [D1 _ _ _]. destruct Ho as [Ho _].
    pose proof (available_in_asset offset size (zlen A) Ho).
    apply bk_in_asset with (Rinv := Rinv) (l := available offset size (zlen A)); (done || lia).
Qed.

(** C13: the single-flight obligations of a read: on every path, early returns and
    failures included, each block the read was told to own is published or
    abandoned exactly once before it returns, no block is settled that it does
    not own, and it never waits for another reader while it owns a block. *)
Theorem ReadCached_obligations env patience im A Rinv Dinv
    `{!ReaderContract R Rinv A} `{!TierContract D Dinv (b_identity (im_binding im)) A}
    offset length dst (c : csys (R := R) (D := D)) :
  deployed env im A Rinv Dinv -> cwinv im A Rinv Dinv c ->
  0 <= offset -> 0 < length -> offset + length <= zlen A -> length <= zlen dst ->
  obligations (y_log (snd (ReadCached env patience im (mkReadRange Transfer offset length) dst c))) = Some [].
Proof. intros. by apply (ReadCached_settles env patience im A Rinv Dinv). Qed.

End claims.
