(* ===== verification/Sha256.v ===== *)
(** * Sha256: the digest that names and proves a persisted block

    libs/usd-asset-cache/src/Sha256.h.  The class is the record [Sha256] of its
    four members; [Update] and [Finish] are its streaming interface and
    [Compress] the block function.  The reference is the one-shot definition:
    pad the message, cut it into blocks of 64 bytes, fold the block function. *)

From S2P Require Import Prelude.

Definition kDigestBytes : nat := 32.

Definition Rotr (value bits : Z) : Z :=
  u32 (Z.lor (Z.shiftr value bits) (u32 (Z.shiftl value (32 - bits)))).

(** The round constants [k], in decimal. *)
Definition K256 : list Z :=
  [1116352408; 1899447441; 3049323471; 3921009573; 961987163; 1508970993; 2453635748; 2870763221;
   3624381080; 310598401; 607225278; 1426881987; 1925078388; 2162078206; 2614888103; 3248222580;
   3835390401; 4022224774; 264347078; 604807628; 770255983; 1249150122; 1555081692; 1996064986;
   2554220882; 2821834349; 2952996808; 3210313671; 3336571891; 3584528711; 113926993; 338241895;
   666307205; 773529912; 1294757372; 1396182291; 1695183700; 1986661051; 2177026350; 2456956037;
   2730485921; 2820302411; 3259730800; 3345764771; 3516065817; 3600352804; 4094571909; 275423344;
   430227734; 506948616; 659060556; 883997877; 958139571; 1322822218; 1537002063; 1747873779;
   1955562222; 2024104815; 2227730452; 2361852424; 2428436474; 2756734187; 3204031479; 3329325298].

Definition at_ (l : list Z) (i : nat) : Z := default 0 (l !! i).

(** Word [i] of a block, big endian. *)
Definition block_word (block : bytes) (i : nat) : Z :=
  let byte j := code (default zero (block !! (4 * i + j)%nat)) in
  Z.lor (Z.lor (Z.lor (Z.shiftl (byte 0%nat) 24) (Z.shiftl (byte 1%nat) 16))
           (Z.shiftl (byte 2%nat) 8)) (byte 3%nat).

(** The loop [for (i = 16; i < 64; ++i) w\[i\] = ...], growing [w]. *)
Definition schedule_step (w : list Z) (i : nat) : list Z :=
  let s0 := Z.lxor (Z.lxor (Rotr (at_ w (i - 15)) 7) (Rotr (at_ w (i - 15)) 18))
              (Z.shiftr (at_ w (i - 15)) 3) in
  let s1 := Z.lxor (Z.lxor (Rotr (at_ w (i - 2)) 17) (Rotr (at_ w (i - 2)) 19))
              (Z.shiftr (at_ w (i - 2)) 10) in
  w ++ [u32 (at_ w (i - 16) + s0 + at_ w (i - 7) + s1)].

Definition schedule (block : bytes) : list Z :=
  fold_left schedule_step (seq 16 48) (map (block_word block) (seq 0 16)).

(** One of the 64 rounds on the eight working variables. *)
Definition round (kw : Z * Z) (v : list Z) : list Z :=
  match v with
  | [a; b; c; d; e; f; g; h] =>
      let s1 := Z.lxor (Z.lxor (Rotr e 6) (Rotr e 11)) (Rotr e 25) in
      let ch := Z.lxor (Z.land e f) (Z.land (Z.lxor e 0xFFFFFFFF) g) in
      let t1 := u32 (h + s1 + ch + fst kw + snd kw) in
      let s0 := Z.lxor (Z.lxor (Rotr a 2) (Rotr a 13)) (Rotr a 22) in
      let maj := Z.lxor (Z.lxor (Z.land a b) (Z.land a c)) (Z.land b c) in
      let t2 := u32 (s0 + maj) in
      [u32 (t1 + t2); a; b; c; u32 (d + t1); e; f; g]
  | _ => v
  end.

Definition Compress (block : bytes) (state : list Z) : list Z :=
  zip_with (fun x y => u32 (x + y)) state
    (fold_left (fun v kw => round kw v) (zip K256 (schedule block)) state).

Record Sha256 : Type := mkSha256 {
  sha_state : list Z;
  sha_buffer : bytes;
  sha_pending : nat;
  sha_length : Z }.

Definition initial_state : list Z :=
  [0x6a09e667; 0xbb67ae85; 0x3c6ef372; 0xa54ff53a; 0x510e527f; 0x9b05688c; 0x1f83d9ab; 0x5be0cd19].

Definition Sha256_new : Sha256 := mkSha256 initial_state (replicate 64 zero) 0 0.

(** The loop body of [Update]: one byte. *)
Definition update_byte (s : Sha256) (byte : ascii) : Sha256 :=
  let buffer := <[sha_pending s := byte]> (sha_buffer s) in
  if (sha_pending s + 1 =? 64)%nat
  then mkSha256 (Compress buffer (sha_state s)) buffer 0 (sha_length s)
  else mkSha256 (sha_state s) buffer (sha_pending s + 1) (sha_length s).

Definition Update (data : bytes) (s : Sha256) : Sha256 :=
  let s := fold_left update_byte data s in
  mkSha256 (sha_state s) (sha_buffer s) (sha_pending s) (u64 (sha_length s + u64 (zlen data * 8))).

(** [while (_pending != 56) Update(&zero, 1)]: at most 63 turns. *)
Fixpoint pad_zeros (fuel : nat) (s : Sha256) : Sha256 :=
  match fuel with
  | O => s
  | S f => if (sha_pending s =? 56)%nat then s else pad_zeros f (Update [zero] s)
  end.

(** [_buffer\[_pending++\] = byte] for the eight length bytes. *)
Definition put_byte (s : Sha256) (byte : ascii) : Sha256 :=
  mkSha256 (sha_state s) (<[sha_pending s := byte]> (sha_buffer s)) (sha_pending s + 1) (sha_length s).

Definition length_bytes (bits : Z) : bytes :=
  map (fun i => chr (Z.land (Z.shiftr bits (8 * Z.of_nat i)) 0xFF)) (rev (seq 0 8)).

Definition word_bytes (w : Z) : bytes :=
  [chr (Z.land (Z.shiftr w 24) 0xFF); chr (Z.land (Z.shiftr w 16) 0xFF);
   chr (Z.land (Z.shiftr w 8) 0xFF); chr (Z.land w 0xFF)].

Definition Finish (s : Sha256) : bytes :=
  let bits := sha_length s in
  let s := Update [chr 0x80] s in
  let s := pad_zeros 64 s in
  let s := fold_left put_byte (length_bytes bits) s in
  concat (map word_bytes (Compress (sha_buffer s) (sha_state s))).

(** The digest of a whole message, as its one caller computes it. *)
Definition sha256 (message : bytes) : bytes := Finish (Update message Sha256_new).

(** ** The reference definition *)

(** Zero bytes between the 0x80 and the length, so that the total is a multiple
    of 64. *)
Definition pad_count (n : nat) : nat := ((119 - n mod 64) mod 64)%nat.

Definition padded (message : bytes) : bytes :=
  message ++ [chr 0x80] ++ replicate (pad_count (length message)) zero ++
  length_bytes (u64 (zlen message * 8)).

(** Fold the block function over the 64-byte blocks of [l]. *)
Fixpoint compress_blocks (fuel : nat) (l : bytes) (state : list Z) : list Z :=
  match fuel with
  | O => state
  | S f => if (length l <? 64)%nat then state
           else compress_blocks f (drop 64 l) (Compress (take 64 l) state)
  end.

Definition sha256_spec (message : bytes) : bytes :=
  concat (map word_bytes (compress_blocks (S (length (padded message))) (padded message) initial_state)).

(** ** The stream computes the reference *)

Lemma cb_fuel f1 f2 l st :
  (length l < 64 * f1)%nat -> (length l < 64 * f2)%nat -> compress_blocks f1 l st = compress_blocks f2 l st.
Proof.
  revert f2 l st. induction f1 as [|f1 IH]; intros [|f2] l st H1 H2; try lia. cbn [compress_blocks].
  destruct (Nat.ltb_spec (length l) 64); [done|]. apply IH; rewrite length_drop; lia.
Qed.

Lemma cb_app n f l1 l2 st :
  length l1 = (64 * n)%nat ->
  compress_blocks (n + f) (l1 ++ l2) st = compress_blocks f l2 (compress_blocks (S n) l1 st).
Proof.
  revert l1 st. induction n as [|n IH]; intros l1 st Hl.
  { destruct l1; [|simpl in Hl; lia]. done. }
  cbn [Nat.add compress_blocks]. rewrite length_app.
  destruct (Nat.ltb_spec (length l1 + length l2) 64), (Nat.ltb_spec (length l1) 64); try lia.
  rewrite drop_app_le, take_app_le by lia. rewrite IH by (rewrite length_drop; lia). done.
Qed.

(** [s] is the state after the bytes [l]: whole blocks compressed, the rest in
    the buffer. *)
Record streamed (s : Sha256) (l : bytes) : Prop := {
  sm_pending : sha_pending s = (length l mod 64)%nat;
  sm_buffer : length (sha_buffer s) = 64%nat;
  sm_split : exists full n, l = full ++ take (sha_pending s) (sha_buffer s) /\
    length full = (64 * n)%nat /\ sha_state s = compress_blocks (S n) full initial_state }.

Lemma streamed_new : streamed Sha256_new [].
Proof. split; [done|done|]. exists [], 0%nat. done. Qed.

Lemma pending_lt s l : streamed s l -> (sha_pending s < 64)%nat.
Proof. intros [-> _ _]. apply Nat.mod_upper_bound. lia. Qed.

Lemma take_insert_snoc {A} (l : list A) i x :
  (i < length l)%nat -> take (i + 1) (<[i := x]> l) = take i l ++ [x].
Proof.
  intros Hi. rewrite Nat.add_1_r. rewrite (take_S_r _ _ x) by by apply list_lookup_insert_eq.
  f_equal. by rewrite take_insert_ge.
Qed.

Lemma streamed_byte s l b : streamed s l -> streamed (update_byte s b) (l ++ [b]).
Proof.
  intros Hs. pose proof (pending_lt s l Hs) as Hlt. destruct Hs as [Hp Hb (full & n & El & Hf & Est)].
  pose proof (take_insert_snoc (sha_buffer s) (sha_pending s) b ltac:(lia)) as Et.
  assert (length (l ++ [b]) = length l + 1)%nat as Elen by (rewrite length_app; done).
  assert (length l = 64 * n + sha_pending s)%nat as Hlen.
  { rewrite El, length_app, length_take, Hf. lia. }
  unfold update_byte. destruct (Nat.eqb_spec (sha_pending s + 1) 64) as [E|E].
  - split; cbn [sha_pending sha_buffer sha_state]; [rewrite Elen; symmetry; apply Nat.Div0.mod_divides; exists (S n); lia|by rewrite length_insert|].
    rewrite E, take_ge in Et by (rewrite length_insert; lia).
    exists (full ++ <[sha_pending s:=b]> (sha_buffer s)), (S n). split; [|split].
    + rewrite take_0, app_nil_r, Et, El at 1. by rewrite <-app_assoc.
    + rewrite length_app, length_insert. lia.
    + replace (S (S n)) with (n + 2)%nat by lia. rewrite cb_app by done. rewrite <-Est.
      cbn [compress_blocks]. rewrite length_insert, Hb. simpl.
      rewrite take_ge, drop_ge by (rewrite length_insert; lia). done.
  - split; cbn [sha_pending sha_buffer sha_state]; [|by rewrite length_insert|].
    + rewrite Elen. apply (Nat.mod_unique _ _ n); lia.
    + exists full, n. split; [|done]. rewrite Et, El at 1. by rewrite <-app_assoc.
Qed.

Lemma streamed_length s l k : streamed s l ->
  streamed (mkSha256 (sha_state s) (sha_buffer s) (sha_pending s) k) l.
Proof. intros [H1 H2 H3]. by split. Qed.

Lemma streamed_update s l data : streamed s l -> streamed (Update data s) (l ++ data).
Proof.
  intros Hs. unfold Update. apply streamed_length. revert s l Hs.
  induction data as [|b data IH]; intros s l Hs; simpl; [by rewrite app_nil_r|].
  rewrite cons_middle, app_assoc. by apply IH, streamed_byte.
Qed.

Lemma streamed_pad fuel s l k :
  streamed s l -> k = ((120 - sha_pending s) mod 64)%nat -> (k <= fuel)%nat ->
  streamed (pad_zeros fuel s) (l ++ replicate k zero) /\ sha_pending (pad_zeros fuel s) = 56%nat.
Proof.
  revert s l k. induction fuel as [|f IH]; intros s l k Hs Hk Hf; pose proof (pending_lt s l Hs) as Hlt.
  - assert (k = 0%nat) by lia. subst k. assert (sha_pending s = 56%nat).
    { assert ((120 - sha_pending s) mod 64 = 0)%nat as Hm by lia. apply Nat.Div0.mod_divides in Hm as [x Hx].
      assert (x = 1 \/ x = 0 \/ x > 1)%nat by lia. lia. }
    cbn [pad_zeros]. rewrite H, app_nil_r. done.
  - cbn [pad_zeros]. destruct (Nat.eqb_spec (sha_pending s) 56) as [E|E].
    + rewrite E in Hk. simpl in Hk. subst k. rewrite app_nil_r. done.
    + pose proof (streamed_update s l [zero] Hs) as Hs'.
      assert (sha_pending (Update [zero] s) = (sha_pending s + 1) mod 64)%nat as Ep.
      { rewrite (sm_pending _ _ Hs'), length_app, (sm_pending _ _ Hs). change (length [zero]) with 1%nat.
        by rewrite Nat.Div0.add_mod_idemp_l. }
      assert (k <> 0)%nat as Hk0.
      { intros ->. symmetry in Hk. apply Nat.Div0.mod_divides in Hk as [x Hx]. assert (x = 1 \/ x = 0 \/ x > 1)%nat by lia. lia. }
      assert (k - 1 = (120 - sha_pending (Update [zero] s)) mod 64)%nat as Hk'.
      { rewrite Ep. destruct (decide (sha_pending s = 63%nat)) as [E63|].
        - rewrite E63 in *. simpl in *. lia.
        - rewrite (Nat.mod_small (sha_pending s + 1)) by lia.
          destruct (decide (sha_pending s < 56)%nat).
          + assert (k = 56 - sha_pending s)%nat as ->.
            { rewrite Hk. symmetry. apply (Nat.mod_unique _ _ 1); lia. }
            apply (Nat.mod_unique _ _ 1); lia.
          + rewrite !Nat.mod_small in * by lia. lia. }
      destruct (IH _ (l ++ [zero]) (k - 1)%nat Hs' Hk') as [H1 H2]; [lia|]. split; [|done].
      rewrite <-app_assoc in H1. change ([zero] ++ replicate (k - 1) zero) with (replicate (S (k - 1)) zero) in H1.
      by replace (S (k - 1))%nat with k in H1 by lia.
Qed.

Lemma put_bytes_spec data s :
  (sha_pending s + length data <= length (sha_buffer s))%nat ->
  let s' := fold_left put_byte data s in
  sha_state s' = sha_state s /\ length (sha_buffer s') = length (sha_buffer s) /\
  sha_pending s' = (sha_pending s + length data)%nat /\
  take (sha_pending s') (sha_buffer s') = take (sha_pending s) (sha_buffer s) ++ data.
Proof.
  revert s. induction data as [|b data IH]; intros s Hl; simpl.
  { rewrite Nat.add_0_r, app_nil_r. done. }
  simpl in Hl. destruct (IH (put_byte s b)) as (H1 & H2 & H3 & H4).
  { simpl. rewrite length_insert. lia. }
  cbn [put_byte sha_state sha_buffer sha_pending] in *. rewrite length_insert in H2.
  split_and!; [done|done|lia|]. rewrite H4, take_insert_snoc by lia. by rewrite <-app_assoc.
Qed.

Lemma pad_count_lt n : (pad_count n < 64)%nat.
Proof. apply Nat.mod_upper_bound. lia. Qed.

Lemma update_sha_length data s : sha_length (Update data s) = u64 (sha_length s + u64 (zlen data * 8)).
Proof.
  unfold Update. simpl. f_equal. f_equal. revert s. induction data as [|b data IH]; intros s; [done|].
  simpl. rewrite IH. unfold update_byte. by destruct (_ =? _)%nat.
Qed.

Lemma length_bytes_length bits : length (length_bytes bits) = 8%nat.
Proof. done. Qed.

Lemma Finish_reference s message :
  streamed s message -> sha_length s = u64 (zlen message * 8) -> Finish s = sha256_spec message.
Proof.
  intros H0 Elen. unfold sha256_spec, Finish. f_equal. f_equal.
  pose proof (streamed_update _ _ [chr 0x80] H0) as H1. set (s1 := Update [chr 0x80] s) in *.
  assert (pad_count (length message) = ((120 - sha_pending s1) mod 64)%nat) as Hk.
  { rewrite (sm_pending _ _ H1), length_app. change (length [chr 0x80]) with 1%nat. unfold pad_count.
    pose proof (Nat.mod_upper_bound (length message) 64).
    destruct (decide (length message mod 64 = 63)%nat) as [E|E].
    - rewrite <-Nat.Div0.add_mod_idemp_l, E. done.
    - rewrite <-(Nat.Div0.add_mod_idemp_l (length message)), (Nat.mod_small (length message mod 64 + 1)) by lia.
      f_equal. lia. }
  pose proof (pad_count_lt (length message)).
  destruct (streamed_pad 64 s1 _ _ H1 Hk) as [H2 Hp]; [lia|]. set (s2 := pad_zeros 64 s1) in *.
  rewrite Elen. set (lb := length_bytes (u64 (zlen message * 8))).
  destruct H2 as [_ Hb (full & n & El & Hf & Est)].
  destruct (put_bytes_spec lb s2) as (P1 & P2 & P3 & P4).
  { rewrite Hp, Hb. unfold lb. rewrite length_bytes_length. lia. }
  rewrite P1, Est. assert (sha_buffer (fold_left put_byte lb s2) = take (sha_pending s2) (sha_buffer s2) ++ lb) as ->.
  { rewrite <-P4, take_ge; [done|]. rewrite P2, P3, Hb, Hp. unfold lb. rewrite length_bytes_length. lia. }
  assert (padded message = full ++ (take (sha_pending s2) (sha_buffer s2) ++ lb)) as ->.
  { unfold padded. fold lb. rewrite !app_assoc. f_equal. rewrite <-El. done. }
  set (lastb := take (sha_pending s2) (sha_buffer s2) ++ lb).
  assert (length lastb = 64%nat) as Hlast.
  { unfold lastb. rewrite length_app, length_take, Hb, Hp. unfold lb. by rewrite length_bytes_length. }
  rewrite (cb_fuel _ (n + 2) (full ++ lastb)) by (rewrite length_app; lia).
  rewrite cb_app by done. cbn [compress_blocks]. rewrite Hlast. cbn [Nat.ltb Nat.leb].
  rewrite (drop_ge lastb) by lia. rewrite (take_ge lastb) by lia. done.
Qed.

Lemma sha256_reference message : sha256 message = sha256_spec message.
Proof.
  apply Finish_reference; [apply (streamed_update _ [] message streamed_new)|].
  rewrite update_sha_length. simpl. apply u64_small, u64_is_u64.
Qed.

Lemma Finish_chunks a b : Finish (Update b (Update a Sha256_new)) = sha256_spec (a ++ b).
Proof.
  apply Finish_reference; [apply streamed_update, (streamed_update _ [] a streamed_new)|].
  rewrite !update_sha_length, zlen_app. cbn [Sha256_new sha_length].
  rewrite Z.add_0_l. repeat (rewrite u64_add_l || rewrite u64_add_r).
  f_equal. lia.
Qed.

Lemma zip_with_length_state block state :
  length state = 8%nat -> length (Compress block state) = 8%nat.
Proof.
  intros Hl. unfold Compress. rewrite length_zip_with.
  assert (forall kws v, length v = 8%nat -> length (fold_left (fun v kw => round kw v) kws v) = 8%nat) as Hr.
  { induction kws as [|kw kws IH]; intros v Hv; [done|]. simpl. apply IH.
    do 8 (destruct v as [|? v]; [done|]). destruct v; [done|]. simpl in Hv. lia. }
  rewrite Hr by done. lia.
Qed.

Lemma sha256_length message : length (sha256 message) = kDigestBytes.
Proof.
  rewrite sha256_reference. unfold sha256_spec.
  assert (forall f l st, length st = 8%nat -> length (compress_blocks f l st) = 8%nat) as Hc.
  { induction f as [|f IH]; intros l st Hs; [done|]. cbn [compress_blocks]. destruct (_ <? _)%nat; [done|].
    apply IH. by apply zip_with_length_state. }
  specialize (Hc (S (length (padded message))) (padded message) initial_state eq_refl).
  destruct (compress_blocks _ _ _) as [|w0 ws]; [done|].
  do 7 (destruct ws as [|? ws]; [done|]). destruct ws; done.
Qed.

(** The streaming digest is SHA-256 as its standard defines it on a whole
    message (pad, cut into 64-byte blocks, fold the block function), however the
    message is cut between two calls of [Update], with the length taken modulo
    2^64 as the code's counter takes it; it has 32 bytes and the published test
    vector. *)
Theorem sha256_streaming a b message :
  sha256 message = sha256_spec message /\
  Finish (Update b (Update a Sha256_new)) = sha256_spec (a ++ b) /\
  length (sha256 message) = kDigestBytes /\
  sha256 (lit "abc") = map chr
    [0xba; 0x78; 0x16; 0xbf; 0x8f; 0x01; 0xcf; 0xea; 0x41; 0x41; 0x40; 0xde; 0x5d; 0xae; 0x22; 0x23;
     0xb0; 0x03; 0x61; 0xa3; 0x96; 0x17; 0x7a; 0x9c; 0xb4; 0x10; 0xff; 0x61; 0xf2; 0x00; 0x15; 0xad].
Proof.
  split; [apply sha256_reference|]. split; [apply Finish_chunks|].
  split; [apply sha256_length|by vm_compute].
Qed.

(** Conversion unfolds a digest last. *)
#[global] Strategy 1000 [sha256].
