(* ===== verification/DiskFormat.v ===== *)
(** * DiskFormat: the entries of the persistent tier

    libs/usd-asset-cache/src/DiskBlockStore.cpp, the codec half: the checksum,
    the little-endian integers, the image of a key and its digest, the file name
    it is stored under, and the encoding and decoding of one entry. *)

From S2P Require Import Prelude CacheOptions CacheKey Sha256.

Definition kHeaderBytes : Z := 88.

Definition kFormatVersion : Z := 1.

Definition kMagic : bytes := lit "USDBLK" ++ [zero; "1"%char].

Definition kMaxEntryPayload : Z := kMaxBlockSize.

Definition kFnvOffsetBasis : Z := 0xCBF29CE484222325.

Definition kFnvPrime : Z := 0x00000100000001B3.

Definition fnv_step (hash : Z) (byte : ascii) : Z := u64 (Z.lxor hash (code byte) * kFnvPrime).

Definition Fnv1a (data : bytes) (seed : Z) : Z := fold_left fnv_step data seed.

(** The loop of [AppendLittleEndian64] and [AppendLittleEndian32]. *)
Definition le_bytes (n : nat) (value : Z) : bytes :=
  map (fun i => chr (Z.land (Z.shiftr value (8 * Z.of_nat i)) 0xFF)) (seq 0 n).

Definition AppendLittleEndian64 (out : bytes) (value : Z) : bytes := out ++ le_bytes 8 value.

Definition AppendLittleEndian32 (out : bytes) (value : Z) : bytes := out ++ le_bytes 4 value.

(** The loop of [ReadLittleEndian64] and [ReadLittleEndian32]. *)
Definition read_le (n : nat) (l : bytes) : Z :=
  fold_left (fun value i => Z.lor value (Z.shiftl (code (default zero (l !! i))) (8 * Z.of_nat i)))
    (seq 0 n) 0.

Definition ReadLittleEndian64 (l : bytes) : Z := read_le 8 l.

Definition ReadLittleEndian32 (l : bytes) : Z := read_le 4 l.

Definition KeyImage (identity : AssetIdentity) (blockIndex : Z) : bytes :=
  let image := AppendLittleEndian64 [] (zlen (ai_resolvedIdentifier identity)) in
  let image := image ++ ai_resolvedIdentifier identity in
  let image := AppendLittleEndian64 image (zlen (ai_validator identity)) in
  let image := image ++ ai_validator identity in
  let image := AppendLittleEndian64 image (ai_blockSize identity) in
  AppendLittleEndian64 image blockIndex.

Definition DigestOf (identity : AssetIdentity) (blockIndex : Z) : bytes :=
  sha256 (KeyImage identity blockIndex).

Definition kHex : str := lit "0123456789abcdef".

Definition hex_digit (z : Z) : ascii := default zero (kHex !! Z.to_nat (Z.land z 0xF)).

Definition NameFor (digest : bytes) : str :=
  concat (map (fun i => let b := code (default zero (digest !! i)) in
                        [hex_digit (Z.shiftr b 4); hex_digit b]) (seq 0 16)).

Definition HexOf (value : Z) : str :=
  map (fun i => hex_digit (Z.shiftr value (60 - 4 * Z.of_nat i))) (seq 0 16).

Definition EncodeEntry (identity : AssetIdentity) (digest : bytes) (blockIndex : Z)
    (data : bytes) : bytes :=
  let entry := kMagic in
  let entry := AppendLittleEndian32 entry kFormatVersion in
  let entry := AppendLittleEndian32 entry 0 in
  let entry := AppendLittleEndian64 entry (ai_blockSize identity) in
  let entry := AppendLittleEndian64 entry blockIndex in
  let entry := AppendLittleEndian64 entry (zlen data) in
  let entry := entry ++ digest in
  let entry := AppendLittleEndian64 entry (Fnv1a data kFnvOffsetBasis) in
  let entry := AppendLittleEndian64 entry (Fnv1a entry kFnvOffsetBasis) in
  entry ++ data.

Inductive DecodeOutcome : Type := DecodeOk | Corrupt | OtherKey | WrongShape.

#[export] Instance DecodeOutcome_eq_dec : EqDecision DecodeOutcome.
Proof. solve_decision. Defined.

(** The outcome, and what [out] was assigned. *)
Definition DecodeEntry (raw : bytes) (identity : AssetIdentity) (digest : bytes)
    (blockIndex expectedLength : Z) : DecodeOutcome * option bytes :=
  if zlen raw <? kHeaderBytes then (Corrupt, None)
  else if negb (str_eqb (slice raw 0 8) kMagic) then (Corrupt, None)
  else if negb (Fnv1a (slice raw 0 (kHeaderBytes - 8)) kFnvOffsetBasis =?
                ReadLittleEndian64 (slice raw 80 8)) then (Corrupt, None)
  else if negb (ReadLittleEndian32 (slice raw 8 4) =? kFormatVersion) then (Corrupt, None)
  else
    let payloadLength := ReadLittleEndian64 (slice raw 32 8) in
    if kMaxEntryPayload <? payloadLength then (Corrupt, None)
    else if negb (zlen raw =? kHeaderBytes + payloadLength) then (Corrupt, None)
    else
      let payload := slice raw kHeaderBytes payloadLength in
      if negb (Fnv1a payload kFnvOffsetBasis =? ReadLittleEndian64 (slice raw 72 8))
      then (Corrupt, None)
      else if negb (str_eqb (slice raw 40 32) digest) then (OtherKey, None)
      else if negb (ReadLittleEndian64 (slice raw 16 8) =? ai_blockSize identity) ||
              negb (ReadLittleEndian64 (slice raw 24 8) =? blockIndex)
      then (WrongShape, None)
      else if negb (payloadLength =? expectedLength) then (WrongShape, None)
      else (DecodeOk, Some payload).

(** ** Little-endian integers *)

(** The value a list of bytes spells, least significant first. *)
Fixpoint le_val (l : bytes) : Z :=
  match l with [] => 0 | b :: l' => code b + 256 * le_val l' end.

Lemma le_val_bound l : 0 <= le_val l < 256 ^ zlen l.
Proof.
  unfold zlen. induction l as [|b l IH]; [done|]. cbn [le_val length].
  rewrite Nat2Z.inj_succ, Z.pow_succ_r by lia. pose proof (code_range b). nia.
Qed.

Lemma le_val_app a b : le_val (a ++ b) = le_val a + 256 ^ zlen a * le_val b.
Proof.
  unfold zlen. induction a as [|c a IH]; [simpl; lia|]. cbn [le_val app length].
  rewrite IH, Nat2Z.inj_succ, Z.pow_succ_r by lia. lia.
Qed.

Lemma read_le_val n l : (n <= length l)%nat -> read_le n l = le_val (take n l).
Proof.
  intros Hn. unfold read_le. induction n as [|n IH]; [by rewrite take_0|].
  rewrite seq_S, fold_left_app, IH by lia. cbn [fold_left].
  destruct (lookup_lt_is_Some_2 l n) as [c Hc]; [lia|]. simpl. rewrite Hc. cbn [default].
  rewrite (take_S_r _ _ c Hc), le_val_app. pose proof (le_val_bound (take n l)) as Hb.
  unfold zlen in *. rewrite length_take_le in * by lia.
  assert (2 ^ (8 * Z.of_nat n) = 256 ^ Z.of_nat n) as E.
  { change 256 with (2 ^ 8). rewrite <-Z.pow_mul_r by lia. done. }
  rewrite lor_disjoint by lia. rewrite E. simpl. lia.
Qed.

Lemma le_bytes_S n v : le_bytes (S n) v = chr v :: le_bytes n (Z.shiftr v 8).
Proof.
  unfold le_bytes. cbn [seq map]. f_equal.
  - rewrite Z.mul_0_r, Z.shiftr_0_r. apply code_inj. rewrite !code_chr.
    change 255 with (Z.ones 8). rewrite Z.land_ones by lia. apply Zmod_mod.
  - rewrite <-seq_shift, map_map. apply map_ext. intros i. do 2 f_equal.
    rewrite Z.shiftr_shiftr by lia. f_equal. lia.
Qed.

Lemma length_le_bytes n v : length (le_bytes n v) = n.
Proof. unfold le_bytes. by rewrite length_map, length_seq. Qed.

Lemma le_val_le_bytes n v : 0 <= v < 256 ^ Z.of_nat n -> le_val (le_bytes n v) = v.
Proof.
  revert v. induction n as [|n IH]; intros v Hv; [cbn in *; lia|].
  rewrite le_bytes_S. cbn [le_val]. rewrite Nat2Z.inj_succ, Z.pow_succ_r in Hv by lia.
  rewrite code_chr, Z.shiftr_div_pow2 by lia. change (2 ^ 8) with 256.
  rewrite IH; [pose proof (Z.div_mod v 256); lia|].
  split; [apply Z.div_pos; lia|]. apply Z.div_lt_upper_bound; lia.
Qed.

Lemma le_val_inj a b : length a = length b -> le_val a = le_val b -> a = b.
Proof.
  revert b. induction a as [|x a IH]; intros [|y b] Hl Hv; try done. simpl in Hl, Hv.
  pose proof (code_range x). pose proof (code_range y).
  assert (le_val a = le_val b) by lia. f_equal; [apply code_inj; lia|]. apply IH; [lia|done].
Qed.

(** Reading back what was written, and writing back what was read. *)
Lemma read_le_bytes n v : 0 <= v < 256 ^ Z.of_nat n -> read_le n (le_bytes n v) = v.
Proof.
  intros Hv. rewrite read_le_val by (rewrite length_le_bytes; done).
  rewrite take_ge by (rewrite length_le_bytes; done). by apply le_val_le_bytes.
Qed.

Lemma le_bytes_read n l : length l = n -> le_bytes n (read_le n l) = l.
Proof.
  intros Hl. apply le_val_inj; [by rewrite length_le_bytes|].
  rewrite read_le_val, take_ge by lia. apply le_val_le_bytes.
  pose proof (le_val_bound l). unfold zlen in *. by rewrite Hl in *.
Qed.

Lemma read_le_range n l : length l = n -> 0 <= read_le n l < 256 ^ Z.of_nat n.
Proof.
  intros Hl. rewrite read_le_val, take_ge by lia. pose proof (le_val_bound l). unfold zlen in *. by rewrite Hl in *.
Qed.

Lemma le_bytes_inj n a b :
  0 <= a < 256 ^ Z.of_nat n -> 0 <= b < 256 ^ Z.of_nat n -> le_bytes n a = le_bytes n b -> a = b.
Proof. intros Ha Hb E. by rewrite <-(read_le_bytes n a), E, read_le_bytes. Qed.

(** ** The image of a key *)

Definition key_typed (identity : AssetIdentity) (blockIndex : Z) : Prop :=
  is_u64 (zlen (ai_resolvedIdentifier identity)) /\ is_u64 (zlen (ai_validator identity)) /\
  is_u64 (ai_blockSize identity) /\ is_u64 blockIndex.

Lemma u64_le8 z : is_u64 z -> 0 <= z < 256 ^ Z.of_nat 8.
Proof. done. Qed.

Lemma KeyImage_unfold identity i :
  KeyImage identity i =
    le_bytes 8 (zlen (ai_resolvedIdentifier identity)) ++ ai_resolvedIdentifier identity ++
    le_bytes 8 (zlen (ai_validator identity)) ++ ai_validator identity ++
    le_bytes 8 (ai_blockSize identity) ++ le_bytes 8 i.
Proof. unfold KeyImage, AppendLittleEndian64. cbn [app]. by rewrite <-!app_assoc. Qed.

(** A length and the text it counts split off the front of an image. *)
Lemma counted_inj (s s' t t' : str) :
  is_u64 (zlen s) -> is_u64 (zlen s') ->
  le_bytes 8 (zlen s) ++ s ++ t = le_bytes 8 (zlen s') ++ s' ++ t' -> s = s' /\ t = t'.
Proof.
  intros Hs Hs' E. apply app_inj_1 in E as [E1 E2]; [|by rewrite !length_le_bytes].
  apply le_bytes_inj in E1; [|by apply u64_le8..].
  apply app_inj_1 in E2; [done|]. unfold zlen in E1. lia.
Qed.

Lemma KeyImage_inj identity i identity' i' :
  key_typed identity i -> key_typed identity' i' ->
  KeyImage identity i = KeyImage identity' i' -> identity = identity' /\ i = i'.
Proof.
  intros (H1 & H2 & H3 & H4) (K1 & K2 & K3 & K4). rewrite !KeyImage_unfold. intros E.
  apply counted_inj in E as [E1 E]; [|done..]. apply counted_inj in E as [E2 E]; [|done..].
  apply app_inj_1 in E as [E3 E4]; [|by rewrite !length_le_bytes].
  apply le_bytes_inj in E3; [|by apply u64_le8..]. apply le_bytes_inj in E4; [|by apply u64_le8..].
  split; [|done]. destruct identity, identity'; simpl in *. congruence.
Qed.

(** ** The checksum *)

Lemma lxor_u64 a b : is_u64 a -> is_u64 b -> is_u64 (Z.lxor a b).
Proof.
  intros Ha Hb. enough (Z.lxor a b = Z.lxor a b mod 2 ^ 64) as -> by apply u64_is_u64.
  apply Z.bits_inj'. intros k Hk. destruct (Z.ltb_spec k 64) as [?|?].
  - by rewrite Z.mod_pow2_bits_low.
  - rewrite Z.mod_pow2_bits_high by lia. rewrite Z.lxor_spec.
    rewrite <-(u64_small a), <-(u64_small b) by done. unfold u64. by rewrite !Z.mod_pow2_bits_high by lia.
Qed.

(** The FNV prime is odd, so multiplying by it loses nothing modulo 2^64. *)
Lemma fnv_mul_inj a b : is_u64 a -> is_u64 b -> u64 (a * kFnvPrime) = u64 (b * kFnvPrime) -> a = b.
Proof.
  intros Ha Hb E. unfold u64 in E.
  assert (forall x, is_u64 x -> (x * kFnvPrime mod 2 ^ 64) * 14886173955864302971 mod 2 ^ 64 = x) as H.
  { intros x Hx. rewrite Zmult_mod_idemp_l, <-Z.mul_assoc.
    change (kFnvPrime * 14886173955864302971) with (1 + 887285111055 * 2 ^ 64).
    rewrite Z.mul_add_distr_l, Z.mul_assoc, Z_mod_plus_full, Z.mul_1_r. by apply Z.mod_small. }
  by rewrite <-(H a), <-(H b), E.
Qed.

Lemma code_u64 c : is_u64 (code c).
Proof. pose proof (code_range c). unfold is_u64. lia. Qed.

#[export] Hint Resolve code_u64 lxor_u64 : wf.

Lemma fnv_step_inj h h' c c' :
  is_u64 h -> is_u64 h' -> fnv_step h c = fnv_step h' c' -> Z.lxor h (code c) = Z.lxor h' (code c').
Proof. intros ??. apply fnv_mul_inj; eauto with wf. Qed.

Lemma Fnv1a_u64 l s : is_u64 s -> is_u64 (Fnv1a l s).
Proof. revert s. induction l as [|c l IH]; intros s Hs; [done|]. apply IH, u64_is_u64. Qed.

Lemma Fnv1a_app a b s : Fnv1a (a ++ b) s = Fnv1a b (Fnv1a a s).
Proof. apply fold_left_app. Qed.

Lemma Fnv1a_seed_inj l s s' : is_u64 s -> is_u64 s' -> Fnv1a l s = Fnv1a l s' -> s = s'.
Proof.
  revert s s'. induction l as [|c l IH]; intros s s' Hs Hs' E; [done|].
  apply IH in E; [|apply u64_is_u64..]. apply fnv_step_inj in E; [|done..].
  rewrite <-(Z.lxor_0_r s), <-(Z.lxor_0_r s'), <-(Z.lxor_nilpotent (code c)).
  by rewrite <-!Z.lxor_assoc, E.
Qed.

(** Changing one byte always changes the checksum. *)
Lemma Fnv1a_insert l k x y s :
  is_u64 s -> l !! k = Some x -> Fnv1a (<[k := y]> l) s = Fnv1a l s -> y = x.
Proof.
  intros Hs Hx. pose proof (lookup_lt_Some _ _ _ Hx).
  rewrite insert_take_drop by done. rewrite <-(take_drop_middle l k x Hx) at 3.
  rewrite !Fnv1a_app. intros E. apply (Fnv1a_seed_inj (drop (S k) l) (fnv_step _ _) (fnv_step _ _)) in E;
    [|apply u64_is_u64..].
  apply fnv_step_inj in E; [|by apply Fnv1a_u64..]. apply code_inj.
  rewrite <-(Z.lxor_0_l (code y)), <-(Z.lxor_0_l (code x)).
  rewrite <-(Z.lxor_nilpotent (Fnv1a (take k l) s)). by rewrite !Z.lxor_assoc, E.
Qed.

Lemma basis_u64 : is_u64 kFnvOffsetBasis.
Proof. done. Qed.

(** ** The layout of an entry *)

Lemma slice_at {A} (l pre mid post : list A) off len :
  l = pre ++ mid ++ post -> off = zlen pre -> len = zlen mid -> slice l off len = mid.
Proof.
  intros -> -> ->. unfold slice, zlen. rewrite !Nat2Z.id.
  rewrite drop_app_length, take_app_length. done.
Qed.

Lemma slice_cover {A} (l : list A) off len :
  0 <= off -> 0 <= len -> off + len <= zlen l ->
  slice l off (zlen l - off) = slice l off len ++ slice l (off + len) (zlen l - (off + len)).
Proof.
  intros. replace (zlen l - off) with (len + (zlen l - (off + len))) by lia. apply slice_app; lia.
Qed.

(** The bytes of the header before its checksum. *)
Definition header_image (version reserved size index len digest hash : bytes) : bytes :=
  kMagic ++ version ++ reserved ++ size ++ index ++ len ++ digest ++ hash.

(** An entry with any reserved field: what [EncodeEntry] builds with zeros. *)
Definition EncodeWith (reserved : bytes) (identity : AssetIdentity) (digest : bytes)
    (blockIndex : Z) (data : bytes) : bytes :=
  let header := header_image (le_bytes 4 kFormatVersion) reserved (le_bytes 8 (ai_blockSize identity))
    (le_bytes 8 blockIndex) (le_bytes 8 (zlen data)) digest
    (le_bytes 8 (Fnv1a data kFnvOffsetBasis)) in
  header ++ le_bytes 8 (Fnv1a header kFnvOffsetBasis) ++ data.

Lemma EncodeEntry_with identity digest i data :
  EncodeEntry identity digest i data = EncodeWith (le_bytes 4 0) identity digest i data.
Proof.
  unfold EncodeEntry, EncodeWith, header_image, AppendLittleEndian64, AppendLittleEndian32.
  by rewrite <-!app_assoc.
Qed.

(** What every structural test of [DecodeEntry] establishes. *)
Record intact (raw : bytes) : Prop := {
  in_length : kHeaderBytes <= zlen raw;
  in_magic : slice raw 0 8 = kMagic;
  in_header : Fnv1a (slice raw 0 80) kFnvOffsetBasis = ReadLittleEndian64 (slice raw 80 8);
  in_version : ReadLittleEndian32 (slice raw 8 4) = kFormatVersion;
  in_bound : ReadLittleEndian64 (slice raw 32 8) <= kMaxEntryPayload;
  in_size : zlen raw = kHeaderBytes + ReadLittleEndian64 (slice raw 32 8);
  in_payload : Fnv1a (slice raw 88 (ReadLittleEndian64 (slice raw 32 8))) kFnvOffsetBasis =
               ReadLittleEndian64 (slice raw 72 8) }.

(** The tests on the identity, made on an entry that is intact. *)
Definition match_entry (raw : bytes) (identity : AssetIdentity) (digest : bytes)
    (blockIndex expectedLength : Z) : DecodeOutcome * option bytes :=
  let payloadLength := ReadLittleEndian64 (slice raw 32 8) in
  if negb (str_eqb (slice raw 40 32) digest) then (OtherKey, None)
  else if negb (ReadLittleEndian64 (slice raw 16 8) =? ai_blockSize identity) ||
          negb (ReadLittleEndian64 (slice raw 24 8) =? blockIndex)
  then (WrongShape, None)
  else if negb (payloadLength =? expectedLength) then (WrongShape, None)
  else (DecodeOk, Some (slice raw kHeaderBytes payloadLength)).

Lemma DecodeEntry_cases raw identity digest i len :
  DecodeEntry raw identity digest i len = (Corrupt, None) /\ ~ intact raw \/
  DecodeEntry raw identity digest i len = match_entry raw identity digest i len /\ intact raw.
Proof.
  unfold DecodeEntry.
  destruct (Z.ltb_spec (zlen raw) kHeaderBytes); [left; split; [done|intros []; lia]|].
  destruct (str_eqb (slice raw 0 8) kMagic) eqn:E1; cbn [negb];
    [apply str_eqb_eq in E1|left; split; [done|]; intros []; by rewrite (proj2 (str_eqb_eq _ _)) in E1].
  destruct (Z.eqb_spec (Fnv1a (slice raw 0 (kHeaderBytes - 8)) kFnvOffsetBasis)
    (ReadLittleEndian64 (slice raw 80 8))); cbn [negb]; [|left; split; [done|intros []; done]].
  destruct (Z.eqb_spec (ReadLittleEndian32 (slice raw 8 4)) kFormatVersion); cbn [negb];
    [|left; split; [done|intros []; done]].
  cbv zeta. destruct (Z.ltb_spec kMaxEntryPayload (ReadLittleEndian64 (slice raw 32 8)));
    [left; split; [done|intros []; lia]|].
  destruct (Z.eqb_spec (zlen raw) (kHeaderBytes + ReadLittleEndian64 (slice raw 32 8))); cbn [negb];
    [|left; split; [done|intros []; lia]].
  destruct (Z.eqb_spec (Fnv1a (slice raw kHeaderBytes (ReadLittleEndian64 (slice raw 32 8))) kFnvOffsetBasis)
    (ReadLittleEndian64 (slice raw 72 8))); cbn [negb]; [|left; split; [done|intros []; done]].
  right. done.
Qed.

Lemma DecodeEntry_corrupt raw identity digest i len :
  fst (DecodeEntry raw identity digest i len) = Corrupt <-> ~ intact raw.
Proof.
  destruct (DecodeEntry_cases raw identity digest i len) as [[-> ?]|[-> ?]]; [done|].
  split; [|done]. unfold match_entry. repeat case_match; done.
Qed.

Lemma DecodeEntry_intact raw identity digest i len :
  intact raw -> DecodeEntry raw identity digest i len = match_entry raw identity digest i len.
Proof. intros H. by destruct (DecodeEntry_cases raw identity digest i len) as [[_ ?]|[-> ?]]. Qed.

(** The fields of a laid-out entry. *)
Lemma layout_slices v r bs ix ln dg ph hh p raw :
  length v = 4%nat -> length r = 4%nat -> length bs = 8%nat -> length ix = 8%nat ->
  length ln = 8%nat -> length dg = 32%nat -> length ph = 8%nat -> length hh = 8%nat ->
  raw = header_image v r bs ix ln dg ph ++ hh ++ p ->
  zlen raw = 88 + zlen p /\ slice raw 0 8 = kMagic /\ slice raw 8 4 = v /\ slice raw 16 8 = bs /\
  slice raw 24 8 = ix /\ slice raw 32 8 = ln /\ slice raw 40 32 = dg /\ slice raw 72 8 = ph /\
  slice raw 80 8 = hh /\ slice raw 0 80 = header_image v r bs ix ln dg ph /\
  slice raw 88 (zlen p) = p.
Proof.
  intros Hv Hr Hbs Hix Hln Hdg Hph Hhh ->.
  assert (length kMagic = 8%nat) as Hm by done.
  pose proof (fun pre mid post => @slice_at ascii (header_image v r bs ix ln dg ph ++ hh ++ p) pre mid post) as S.
  unfold header_image, zlen in *. split_and!.
  - rewrite !length_app. lia.
  - apply (S [] _ (v ++ r ++ bs ++ ix ++ ln ++ dg ++ ph ++ hh ++ p)); [by rewrite <-!app_assoc|simpl; lia..].
  - apply (S kMagic _ (r ++ bs ++ ix ++ ln ++ dg ++ ph ++ hh ++ p)); [by rewrite <-!app_assoc|rewrite ?length_app; lia..].
  - apply (S (kMagic ++ v ++ r) _ (ix ++ ln ++ dg ++ ph ++ hh ++ p)); [by rewrite <-!app_assoc|rewrite ?length_app; lia..].
  - apply (S (kMagic ++ v ++ r ++ bs) _ (ln ++ dg ++ ph ++ hh ++ p)); [by rewrite <-!app_assoc|rewrite ?length_app; lia..].
  - apply (S (kMagic ++ v ++ r ++ bs ++ ix) _ (dg ++ ph ++ hh ++ p)); [by rewrite <-!app_assoc|rewrite ?length_app; lia..].
  - apply (S (kMagic ++ v ++ r ++ bs ++ ix ++ ln) _ (ph ++ hh ++ p)); [by rewrite <-!app_assoc|rewrite ?length_app; lia..].
  - apply (S (kMagic ++ v ++ r ++ bs ++ ix ++ ln ++ dg) _ (hh ++ p)); [by rewrite <-!app_assoc|rewrite ?length_app; lia..].
  - apply (S (kMagic ++ v ++ r ++ bs ++ ix ++ ln ++ dg ++ ph) _ p); [by rewrite <-!app_assoc|rewrite ?length_app; lia..].
  - apply (S [] _ (hh ++ p)); [by rewrite <-!app_assoc|simpl; rewrite ?length_app; lia..].
  - apply (S (kMagic ++ v ++ r ++ bs ++ ix ++ ln ++ dg ++ ph ++ hh) _ []); [by rewrite <-!app_assoc, app_nil_r|rewrite ?length_app; lia..].
Qed.

(** Any file of at least a header is laid out. *)
Lemma layout_split raw :
  88 <= zlen raw -> slice raw 0 8 = kMagic ->
  raw = header_image (slice raw 8 4) (slice raw 12 4) (slice raw 16 8) (slice raw 24 8)
          (slice raw 32 8) (slice raw 40 32) (slice raw 72 8) ++ slice raw 80 8 ++
        slice raw 88 (zlen raw - 88).
Proof.
  intros Hl Hm. unfold header_image. rewrite <-Hm, <-!app_assoc.
  pose proof (slice_full raw) as E. rewrite <-(Z.sub_0_r (zlen raw)) in E. rewrite <-E at 1.
  rewrite (slice_cover raw 0 8), (slice_cover raw (0 + 8) 4), (slice_cover raw (0 + 8 + 4) 4),
    (slice_cover raw (0 + 8 + 4 + 4) 8), (slice_cover raw (0 + 8 + 4 + 4 + 8) 8),
    (slice_cover raw (0 + 8 + 4 + 4 + 8 + 8) 8), (slice_cover raw (0 + 8 + 4 + 4 + 8 + 8 + 8) 32),
    (slice_cover raw (0 + 8 + 4 + 4 + 8 + 8 + 8 + 32) 8),
    (slice_cover raw (0 + 8 + 4 + 4 + 8 + 8 + 8 + 32 + 8) 8) by lia.
  done.
Qed.

Lemma length_slice {A} (l : list A) off len :
  0 <= off -> 0 <= len -> off + len <= zlen l -> length (slice l off len) = Z.to_nat len.
Proof. intros ? ? ?. pose proof (zlen_slice l off len). unfold zlen in *. lia. Qed.

(** ** What decodes *)

Lemma kMaxEntryPayload_u64 z : 0 <= z <= kMaxEntryPayload -> is_u64 z.
Proof. unfold kMaxEntryPayload, kMaxBlockSize, is_u64. lia. Qed.

Lemma EncodeWith_fields reserved identity digest i data raw :
  length reserved = 4%nat -> length digest = 32%nat -> is_u64 (ai_blockSize identity) -> is_u64 i ->
  zlen data <= kMaxEntryPayload -> raw = EncodeWith reserved identity digest i data ->
  intact raw /\ slice raw 40 32 = digest /\
  ReadLittleEndian64 (slice raw 16 8) = ai_blockSize identity /\
  ReadLittleEndian64 (slice raw 24 8) = i /\
  ReadLittleEndian64 (slice raw 32 8) = zlen data /\ slice raw 88 (zlen data) = data.
Proof.
  intros Hr Hd Hb Hi Hl E. pose proof (zlen_nonneg data).
  assert (is_u64 (zlen data)) as Hz by (apply kMaxEntryPayload_u64; lia).
  unfold EncodeWith in E. set (hh := le_bytes 8 (Fnv1a (header_image _ _ _ _ _ _ _) _)) in E.
  destruct (layout_slices (le_bytes 4 kFormatVersion) reserved (le_bytes 8 (ai_blockSize identity))
    (le_bytes 8 i) (le_bytes 8 (zlen data)) digest (le_bytes 8 (Fnv1a data kFnvOffsetBasis)) hh data raw)
    as (E0 & E1 & E2 & E3 & E4 & E5 & E6 & E7 & E8 & E9 & E10); [try by rewrite ?length_le_bytes..|done|].
  assert (ReadLittleEndian64 (slice raw 32 8) = zlen data) as El.
  { rewrite E5. apply read_le_bytes. by apply u64_le8. }
  split; [|split_and!; [done|rewrite E3; apply read_le_bytes; by apply u64_le8|
    rewrite E4; apply read_le_bytes; by apply u64_le8|done|done]].
  split; unfold kHeaderBytes in *; rewrite ?El; try done.
  - lia.
  - rewrite E9, E8. unfold hh. symmetry. apply read_le_bytes, Fnv1a_u64, basis_u64.
  - rewrite E2. by apply read_le_bytes.
  - rewrite E10, E7. symmetry. apply read_le_bytes, Fnv1a_u64, basis_u64.
Qed.

(** An intact file is the encoding of what its fields say. *)
Lemma intact_encode raw identity i :
  intact raw ->
  ReadLittleEndian64 (slice raw 16 8) = ai_blockSize identity ->
  ReadLittleEndian64 (slice raw 24 8) = i ->
  raw = EncodeWith (slice raw 12 4) identity (slice raw 40 32) i
          (slice raw 88 (ReadLittleEndian64 (slice raw 32 8))).
Proof.
  intros [H1 H2 H3 H4 H5 H6 H7] Hb Hi. unfold kHeaderBytes in *.
  pose proof (layout_split raw H1 H2) as E.
  assert (forall o n, 0 <= o -> 0 <= n -> o + n <= 88 -> length (slice raw o n) = Z.to_nat n) as L
    by (intros; apply length_slice; lia).
  assert (Hrange : 0 <= ReadLittleEndian64 (slice raw 32 8)) by (apply read_le_range; by apply L).
  destruct (layout_slices (slice raw 8 4) (slice raw 12 4) (slice raw 16 8) (slice raw 24 8)
    (slice raw 32 8) (slice raw 40 32) (slice raw 72 8) (slice raw 80 8) (slice raw 88 (zlen raw - 88)) raw)
    as (_ & _ & _ & _ & _ & _ & _ & _ & _ & E9 & _); [by apply L..|done|].
  rewrite E9 in H3. unfold EncodeWith. rewrite H7, zlen_slice by lia. rewrite <-Hi, <-Hb, <-H4.
  unfold ReadLittleEndian32, ReadLittleEndian64 in *. rewrite !le_bytes_read by (by apply L).
  rewrite H3, le_bytes_read by (by apply L). rewrite E at 1. do 3 f_equal. lia.
Qed.

Lemma DecodeEntry_ok_iff raw identity digest i len data :
  length digest = 32%nat -> is_u64 (ai_blockSize identity) -> is_u64 i ->
  DecodeEntry raw identity digest i len = (DecodeOk, Some data) <->
  zlen data = len /\ len <= kMaxEntryPayload /\
  exists reserved, length reserved = 4%nat /\ raw = EncodeWith reserved identity digest i data.
Proof.
  intros Hd Hb Hi. split.
  - destruct (DecodeEntry_cases raw identity digest i len) as [[-> ?]|[-> Hin]]; [done|].
    unfold match_entry. destruct (str_eqb _ digest) eqn:E1; [|done]. apply str_eqb_eq in E1. cbn [negb].
    destruct (Z.eqb_spec (ReadLittleEndian64 (slice raw 16 8)) (ai_blockSize identity)) as [E2|]; [|done].
    destruct (Z.eqb_spec (ReadLittleEndian64 (slice raw 24 8)) i) as [E3|]; [|done]. cbn [negb orb].
    destruct (Z.eqb_spec (ReadLittleEndian64 (slice raw 32 8)) len) as [E4|]; [|done]. intros [= <-].
    pose proof (intact_encode raw identity i Hin E2 E3) as E. rewrite E1 in E.
    destruct Hin as [H1 _ _ _ H5 H6 _]. unfold kHeaderBytes in *.
    assert (0 <= ReadLittleEndian64 (slice raw 32 8)) by (apply read_le_range, length_slice; lia).
    rewrite zlen_slice by lia. split_and!; [done|lia|]. exists (slice raw 12 4). split; [|done].
    apply length_slice; lia.
  - intros (<- & Hl & reserved & Hr & E).
    destruct (EncodeWith_fields _ _ _ _ _ raw Hr Hd Hb Hi Hl E) as (Hin & F1 & F2 & F3 & F4 & F5).
    rewrite DecodeEntry_intact by done. unfold match_entry.
    rewrite F1, F2, F3, F4, !Z.eqb_refl, (proj2 (str_eqb_eq _ _) eq_refl).
    unfold kHeaderBytes. cbn [negb orb]. by rewrite F5.
Qed.

Lemma sha256_length32 m : length (sha256 m) = 32%nat.
Proof. apply sha256_length. Qed.

(** ** What does not *)

Lemma slice_insert_out {A} (l : list A) k y off len :
  0 <= off -> (Z.of_nat k < off \/ off + len <= Z.of_nat k) -> slice (<[k := y]> l) off len = slice l off len.
Proof.
  intros Ho Hk. apply list_eq. intros j. destruct (decide (j < Z.to_nat len)%nat).
  - rewrite !slice_lookup by done. rewrite list_lookup_insert_ne by lia. done.
  - by rewrite !slice_lookup_ge by lia.
Qed.

Lemma slice_insert_in {A} (l : list A) k y off len :
  0 <= off -> off <= Z.of_nat k < off + len ->
  slice (<[k := y]> l) off len = <[(k - Z.to_nat off)%nat := y]> (slice l off len).
Proof.
  intros Ho Hk. unfold slice. rewrite <-take_insert_lt by lia. f_equal.
  apply list_eq. intros j. rewrite lookup_drop. destruct (decide (k = Z.to_nat off + j)%nat) as [->|].
  - replace (Z.to_nat off + j - Z.to_nat off)%nat with j by lia.
    destruct (decide (Z.to_nat off + j < length l)%nat).
    + rewrite !list_lookup_insert_eq by (rewrite ?length_drop; lia). done.
    + rewrite !list_insert_ge, lookup_drop by (rewrite ?length_drop; lia). done.
  - rewrite !list_lookup_insert_ne, lookup_drop by lia. done.
Qed.

Lemma insert_same {A} (l : list A) k x y : l !! k = Some x -> <[k := y]> l = l -> y = x.
Proof.
  intros Hx E. assert (<[k := y]> l !! k = Some y) as H.
  { apply list_lookup_insert_eq. by eapply lookup_lt_Some. }
  rewrite E, Hx in H. congruence.
Qed.

(** No change of a single byte turns an intact file into an intact file. *)
Lemma intact_one_byte raw k x y :
  intact raw -> raw !! k = Some x -> intact (<[k := y]> raw) -> y = x.
Proof.
  intros [H1 H2 H3 H4 H5 H6 H7] Hx [K1 K2 K3 K4 K5 K6 K7]. unfold kHeaderBytes in *.
  pose proof (lookup_lt_Some _ _ _ Hx) as Hk. unfold zlen in H1, H6.
  assert (forall off len, 0 <= off -> off <= Z.of_nat k < off + len ->
    slice raw off len !! (k - Z.to_nat off)%nat = Some x) as Hin.
  { intros off len Ho Hr. rewrite slice_lookup by lia. rewrite <-Hx. f_equal. lia. }
  destruct (decide (k < 8)%nat) as [C|C].
  { rewrite slice_insert_in, <-H2 in K2 by lia. by eapply insert_same; [apply (Hin 0 8); lia|]. }
  destruct (decide (k < 80)%nat) as [C2|C2].
  { rewrite slice_insert_in, (slice_insert_out _ _ _ 80), <-H3 in K3 by lia.
    eapply Fnv1a_insert; [apply basis_u64|apply (Hin 0 80); lia|done]. }
  destruct (decide (k < 88)%nat) as [C3|C3].
  { rewrite slice_insert_out, (slice_insert_in _ _ _ 80), H3 in K3 by lia.
    assert (forall l m, length l = 8%nat -> length m = 8%nat -> ReadLittleEndian64 l = ReadLittleEndian64 m -> l = m) as Hinj.
    { intros l m Hl Hm E. rewrite <-(le_bytes_read 8 l), <-(le_bytes_read 8 m) by done. unfold ReadLittleEndian64 in E. by rewrite E. }
    symmetry in K3. apply Hinj in K3; [|rewrite ?length_insert; apply length_slice; unfold zlen; lia..].
    eapply insert_same; [apply (Hin 80 8); lia|done]. }
  rewrite (slice_insert_out _ _ _ 32), (slice_insert_out _ _ _ 72), <-H7 in K7 by lia.
  rewrite slice_insert_in in K7 by lia.
  eapply Fnv1a_insert; [apply basis_u64|apply (Hin 88 (ReadLittleEndian64 (slice raw 32 8))); lia|done].
Qed.

(** Two intact files with the same header have the same length. *)
Lemma intact_same_header raw raw' :
  intact raw -> intact raw' -> slice raw 32 8 = slice raw' 32 8 -> zlen raw = zlen raw'.
Proof. intros [_ _ _ _ _ H _] [_ _ _ _ _ H' _] E. by rewrite H, H', E. Qed.

Lemma intact_truncated raw n : intact raw -> intact (take n raw) -> take n raw = raw.
Proof.
  intros H H'. apply take_ge. pose proof (in_length _ H') as L. unfold kHeaderBytes, zlen in L.
  rewrite length_take in L. assert (zlen raw = zlen (take n raw)) as E.
  { apply intact_same_header; [done..|]. unfold slice. rewrite skipn_firstn_comm, take_take. f_equal. lia. }
  unfold zlen in E. rewrite length_take in E. lia.
Qed.

Lemma intact_extended raw more : intact raw -> intact (raw ++ more) -> more = [].
Proof.
  intros H H'. pose proof (in_length _ H) as L. unfold kHeaderBytes, zlen in L.
  assert (zlen raw = zlen (raw ++ more)) as E.
  { apply intact_same_header; [done..|]. unfold slice. rewrite drop_app_le by lia.
    rewrite take_app_le; [done|]. rewrite length_drop. lia. }
  unfold zlen in E. rewrite length_app in E. destruct more; [done|]. simpl in E. lia.
Qed.

Lemma EncodeEntry_fields identity i data :
  key_typed identity i -> zlen data <= kMaxEntryPayload ->
  let raw := EncodeEntry identity (DigestOf identity i) i data in
  intact raw /\ slice raw 40 32 = DigestOf identity i /\
  ReadLittleEndian64 (slice raw 16 8) = ai_blockSize identity /\
  ReadLittleEndian64 (slice raw 24 8) = i /\
  ReadLittleEndian64 (slice raw 32 8) = zlen data /\ slice raw 88 (zlen data) = data.
Proof.
  intros (_ & _ & Hb & Hi) Hl raw. apply (EncodeWith_fields (le_bytes 4 0)); try done.
  - apply sha256_length.
  - apply EncodeEntry_with.
Qed.

Lemma zlen_EncodeEntry identity i data :
  key_typed identity i -> zlen data <= kMaxEntryPayload ->
  zlen (EncodeEntry identity (DigestOf identity i) i data) = kHeaderBytes + zlen data.
Proof.
  intros Hk Hl. destruct (EncodeEntry_fields identity i data Hk Hl) as ([] & _ & _ & _ & E & _). congruence.
Qed.

(** ** The codec's theorems *)

(** The image a key is digested from determines the key: no byte can be moved
    between the identifier, the validator, the block size and the index. *)
Theorem KeyImage_injective identity i identity' i' :
  key_typed identity i -> key_typed identity' i' ->
  KeyImage identity i = KeyImage identity' i' -> identity = identity' /\ i = i'.
Proof. apply KeyImage_inj. Qed.

(** C34: decoding accepts exactly the encodings: [DecodeEntry] returns bytes when
    and only when the file is the encoding of those bytes under this identity,
    digest and index (with any value in the reserved field), of the expected
    length and within the payload ceiling. *)
Theorem DecodeEntry_exact raw identity i len data :
  key_typed identity i ->
  DecodeEntry raw identity (DigestOf identity i) i len = (DecodeOk, Some data) <->
  zlen data = len /\ len <= kMaxEntryPayload /\
  exists reserved, length reserved = 4%nat /\
    raw = EncodeWith reserved identity (DigestOf identity i) i data.
Proof. intros (_ & _ & Hb & Hi). apply DecodeEntry_ok_iff; [apply sha256_length|done..]. Qed.

(** An entry written under one key, looked up under any key: the same key
    gets the payload back, or [WrongShape] when it expects another length; a
    different key gets [OtherKey], unless the two key images are a SHA-256
    collision. *)
Theorem DecodeEntry_roundtrip identity i data identity' i' len :
  key_typed identity i -> key_typed identity' i' -> zlen data <= kMaxEntryPayload ->
  let raw := EncodeEntry identity (DigestOf identity i) i data in
  let decoded := DecodeEntry raw identity' (DigestOf identity' i') i' len in
  (identity = identity' /\ i = i' ->
   decoded = if zlen data =? len then (DecodeOk, Some data) else (WrongShape, None)) /\
  (identity <> identity' \/ i <> i' ->
   decoded = (OtherKey, None) \/
   KeyImage identity i <> KeyImage identity' i' /\
   sha256 (KeyImage identity i) = sha256 (KeyImage identity' i')).
Proof.
  intros Hk Hk' Hl raw decoded.
  destruct (EncodeEntry_fields identity i data Hk Hl) as (Hin & F1 & F2 & F3 & F4 & F5). fold raw in Hin, F1, F2, F3, F4, F5.
  unfold decoded. rewrite DecodeEntry_intact by done. unfold match_entry. rewrite F1, F2, F3, F4. split.
  - intros [<- <-]. rewrite (proj2 (str_eqb_eq _ _) eq_refl), !Z.eqb_refl. cbn [negb orb].
    unfold kHeaderBytes. rewrite F5. by destruct (zlen data =? len).
  - intros Hne. destruct (str_eqb (DigestOf identity i) _) eqn:E; [|by left]. right.
    apply str_eqb_eq in E. unfold DigestOf in E. split; [|exact E]. intros H. apply KeyImage_inj in H as [-> ->]; [|exact Hk|exact Hk']. tauto.
Qed.

(** C35: damage to an entry is always noticed: a file that differs from an encoded
    entry in one byte, is a proper prefix of it or a proper extension of it is
    [Corrupt], whatever key it is looked up under. *)
Theorem DecodeEntry_damage identity i data raw :
  key_typed identity i -> zlen data <= kMaxEntryPayload ->
  raw = EncodeEntry identity (DigestOf identity i) i data ->
  forall identity' digest' i' len,
  (forall k x y, raw !! k = Some x -> y <> x ->
     fst (DecodeEntry (<[k := y]> raw) identity' digest' i' len) = Corrupt) /\
  (forall n, (n < length raw)%nat -> fst (DecodeEntry (take n raw) identity' digest' i' len) = Corrupt) /\
  (forall more, more <> [] -> fst (DecodeEntry (raw ++ more) identity' digest' i' len) = Corrupt).
Proof.
  intros Hk Hl -> identity' digest' i' len.
  destruct (EncodeEntry_fields identity i data Hk Hl) as (Hin & _).
  split_and!; intros *; rewrite DecodeEntry_corrupt.
  - intros Hx Hy H. by apply Hy, (intact_one_byte _ _ _ _ Hin Hx).
  - intros Hn H. apply intact_truncated in H; [|done].
    apply (f_equal length) in H. rewrite length_take in H. lia.
  - intros Hm H. by apply Hm, (intact_extended _ _ Hin).
Qed.

(** ** File names *)

Lemma hex_digit_in z : hex_digit z ∈ kHex.
Proof.
  unfold hex_digit. assert (0 <= Z.land z 15 < 16) as H.
  { change 15 with (Z.ones 4). rewrite Z.land_ones by lia. apply Z.mod_pos_bound. lia. }
  destruct (lookup_lt_is_Some_2 kHex (Z.to_nat (Z.land z 15))) as [c Hc]; [change (length kHex) with 16%nat; lia|].
  rewrite Hc. by eapply list_elem_of_lookup_2.
Qed.

Lemma Forall_concat_map {A B} (P : B -> Prop) (f : A -> list B) l :
  (forall x, Forall P (f x)) -> Forall P (concat (map f l)).
Proof. intros H. induction l; simpl; [done|]. by apply Forall_app. Qed.

Lemma length_concat_map {A B} (f : A -> list B) n l :
  (forall x, length (f x) = n) -> length (concat (map f l)) = (n * length l)%nat.
Proof. intros H. induction l as [|x l IH]; simpl; [lia|]. rewrite length_app, H, IH. lia. Qed.

Lemma NameFor_shape digest : length (NameFor digest) = 32%nat /\ Forall (fun c => c ∈ kHex) (NameFor digest).
Proof.
  unfold NameFor. split; [by rewrite (length_concat_map _ 2)|].
  apply Forall_concat_map. intros i. cbv zeta. constructor; [apply hex_digit_in|].
  constructor; [apply hex_digit_in|constructor].
Qed.
