(* ===== verification/DiskStore.v ===== *)
(** * DiskStore: the directory of the persistent tier

    libs/usd-asset-cache/src/DiskBlockStore.cpp, the store half: configuration,
    lookups, publishing by rename, and the sweep that trims the directory to its
    budget.  [std::filesystem] and the streams are the class [FileSystem]; what
    the store relies on of them is [FileSystemLaws].  Every call the store makes
    may fail, and the laws say what a failed call leaves behind. *)

From S2P Require Import Prelude CacheOptions CacheKey Validator BlockPlan Sha256 DiskFormat PersistentTier.

(** A path, as its components. *)
Abbreviation path := (list str).

(** What one step of [fs::recursive_directory_iterator] shows: a failed query of
    the entry is [None]. *)
Record dirent : Type := mkDirent {
  de_path : path;
  de_regular : bool;
  de_size : option Z;
  de_written : option Z }.

(** The calls, with [true] for success where the call reports an error code:
    [fs_read] opens a stream and reads up to a count ([None]: it would not
    open); [fs_remove] is [fs::remove(p, e) && !e]; [fs_walk] lists what the
    iteration visits before its end or its first error ([None]: the directory
    would not open); [fs_now] is the file clock, in nanoseconds. *)
Class FileSystem (F : Type) : Type := {
  fs_create_directories : F -> path -> bool * F;
  fs_is_directory : F -> path -> bool;
  fs_permissions : F -> path -> F;
  fs_file_size : F -> path -> option Z;
  fs_read : F -> path -> Z -> option bytes;
  fs_open_trunc : F -> path -> bool * F;
  fs_write : F -> path -> bytes -> bool * F;
  fs_remove : F -> path -> bool * F;
  fs_rename : F -> path -> path -> bool * F;
  fs_exists : F -> path -> bool;
  fs_remove_all : F -> path -> F;
  fs_walk : F -> path -> option (list dirent);
  fs_now : F -> Z }.

(** What the store relies on: an operation changes only the files it names, a
    write that failed leaves a prefix of what it was given, a rename moves the
    whole file or nothing. *)
Class FileSystemLaws (F : Type) `{FileSystem F} : Type := {
  contents : F -> path -> option bytes;
  law_create : forall f p q, contents (snd (fs_create_directories f p)) q = contents f q;
  law_permissions : forall f p q, contents (fs_permissions f p) q = contents f q;
  law_read : forall f p n data, fs_read f p n = Some data ->
    exists c, contents f p = Some c /\ data = take (Z.to_nat n) c;
  law_size : forall f p n c, fs_file_size f p = Some n -> contents f p = Some c -> n = zlen c;
  law_open : forall f p,
    (fst (fs_open_trunc f p) = true -> contents (snd (fs_open_trunc f p)) p = Some []) /\
    (fst (fs_open_trunc f p) = false -> contents (snd (fs_open_trunc f p)) p = contents f p) /\
    forall q, q <> p -> contents (snd (fs_open_trunc f p)) q = contents f q;
  law_write : forall f p data,
    (fst (fs_write f p data) = true -> contents (snd (fs_write f p data)) p = Some data) /\
    (exists n, contents (snd (fs_write f p data)) p = Some (take n data) \/
               contents (snd (fs_write f p data)) p = contents f p) /\
    forall q, q <> p -> contents (snd (fs_write f p data)) q = contents f q;
  law_remove : forall f p,
    (fst (fs_remove f p) = true -> contents (snd (fs_remove f p)) p = None) /\
    (contents (snd (fs_remove f p)) p = None \/ contents (snd (fs_remove f p)) p = contents f p) /\
    forall q, q <> p -> contents (snd (fs_remove f p)) q = contents f q;
  law_rename : forall f p q, p <> q ->
    (fst (fs_rename f p q) = true ->
       contents (snd (fs_rename f p q)) q = contents f p /\
       contents (snd (fs_rename f p q)) p = None /\
       forall r, r <> p -> r <> q -> contents (snd (fs_rename f p q)) r = contents f r) /\
    (fst (fs_rename f p q) = false -> forall r, contents (snd (fs_rename f p q)) r = contents f r);
  law_remove_all : forall f p q,
    contents (fs_remove_all f p) q = None \/ contents (fs_remove_all f p) q = contents f q }.

(** ** Options *)

Definition kDefaultPersistentBudgetBytes : Z := 1024 * 1024 * 1024.

Definition kMinPersistentBudgetBytes : Z := 1024 * 1024.

Definition kMinBudgetEntries : Z := 4.

Definition kEntryRoot : str := lit "blocks-v1".

Definition kEntrySuffix : str := lit ".blk".

Definition kTempSuffix : str := lit ".tmp".

Record DiskCacheOptions : Type := mkDiskCacheOptions {
  dc_directory : str;
  dc_budgetBytes : Z }.

Definition Disk_Normalized (o : DiskCacheOptions) : DiskCacheOptions :=
  mkDiskCacheOptions (dc_directory o) (Z.max (dc_budgetBytes o) kMinPersistentBudgetBytes).

(** ** The store *)

Inductive DiskStat : Type :=
| hits | misses | writes | writeFailures | rejected | discarded | collisions | bytesRead
| bytesWritten | sweeps | trimmed | trimmedBytes | residentBytes.

#[export] Instance DiskStat_eq_dec : EqDecision DiskStat.
Proof. solve_decision. Defined.

Definition DiskStats : Type := DiskStat -> Z.

Definition stat_add (k : DiskStat) (n : Z) (s : DiskStats) : DiskStats :=
  fun j => if bool_decide (j = k) then u64 (s j + n) else s j.

Record DiskBlockStore (F : Type) : Type := mkDisk {
  db_fs : F;
  db_options : DiskCacheOptions;
  db_root : path;
  db_enabled : bool;
  db_swept : bool;
  db_knownBytes : Z;
  db_bytesSinceSweep : Z;
  db_largestEntryBytes : Z;
  db_epoch : Z;
  db_sweeping : bool;
  db_tempCounter : Z;
  db_stats : DiskStats }.

Arguments mkDisk {F}.
Arguments db_fs {F}.
Arguments db_options {F}.
Arguments db_root {F}.
Arguments db_enabled {F}.
Arguments db_swept {F}.
Arguments db_knownBytes {F}.
Arguments db_bytesSinceSweep {F}.
Arguments db_largestEntryBytes {F}.
Arguments db_epoch {F}.
Arguments db_sweeping {F}.
Arguments db_tempCounter {F}.
Arguments db_stats {F}.

Record SweepPlan : Type := mkSweepPlan {
  sp_root : path;
  sp_budget : Z;
  sp_epoch : Z }.

Record Candidate : Type := mkCandidate {
  c_path : path;
  c_size : Z;
  c_written : Z }.

#[export] Instance Candidate_eq_dec : EqDecision Candidate.
Proof. solve_decision. Defined.

Definition written_le (a b : Candidate) : Prop := c_written a <= c_written b.

#[export] Instance written_le_dec : RelDecision written_le.
Proof. intros a b. unfold written_le. apply _. Defined.

#[export] Instance written_le_total : Total written_le.
Proof. intros a b. unfold written_le. lia. Qed.

#[export] Instance written_le_trans : Transitive written_le.
Proof. intros a b c. unfold written_le. lia. Qed.

Section store.
Context {F : Type} `{FileSystem F}.

(** [ProcessNonce()], drawn once. *)
Context (nonce : Z).

Abbreviation Disk := (DiskBlockStore F).

Definition with_fs (f : F) (d : Disk) : Disk :=
  mkDisk f (db_options d) (db_root d) (db_enabled d) (db_swept d) (db_knownBytes d)
    (db_bytesSinceSweep d) (db_largestEntryBytes d) (db_epoch d) (db_sweeping d)
    (db_tempCounter d) (db_stats d).

Definition with_stat (k : DiskStat) (n : Z) (d : Disk) : Disk :=
  mkDisk (db_fs d) (db_options d) (db_root d) (db_enabled d) (db_swept d) (db_knownBytes d)
    (db_bytesSinceSweep d) (db_largestEntryBytes d) (db_epoch d) (db_sweeping d)
    (db_tempCounter d) (stat_add k n (db_stats d)).

Definition ReadWholeFile (f : F) (p : path) : option bytes :=
  match fs_file_size f p with
  | None => None
  | Some size =>
      if kHeaderBytes + kMaxEntryPayload <? size then None
      else match fs_read f p size with
           | None => None
           | Some data => if zlen data =? size then Some data else None
           end
  end.

Definition Configure (requested : DiskCacheOptions) (d : Disk) : bool * Disk :=
  let options := Disk_Normalized requested in
  let off f := mkDisk f options [] false false 0 0 0 (u64 (db_epoch d + 1)) (db_sweeping d)
                 (db_tempCounter d) (db_stats d) in
  if bool_decide (dc_directory options = []) then (false, off (db_fs d))
  else
    let candidate := [dc_directory options; kEntryRoot] in
    let '(created, f) := fs_create_directories (db_fs d) candidate in
    if negb created || negb (fs_is_directory f candidate) then (false, off f)
    else
      (true, mkDisk (fs_permissions f candidate) options candidate true false 0 0 0
               (u64 (db_epoch d + 1)) (db_sweeping d) (db_tempCounter d) (db_stats d)).

(** A store over a filesystem, as its constructor builds it. *)
Definition DiskBlockStore_new (requested : DiskCacheOptions) (f : F) : Disk :=
  snd (Configure requested (mkDisk f requested [] false false 0 0 0 0 false 0 (fun _ => 0))).

Definition PathFor (d : Disk) (name : str) : path :=
  db_root d ++ [take 2 name; name ++ kEntrySuffix].

Definition EffectiveBudgetLocked (d : Disk) : Z :=
  Z.max (dc_budgetBytes (db_options d)) (u64 (db_largestEntryBytes d * kMinBudgetEntries)).

Definition SweepIntervalLocked (d : Disk) : Z :=
  Z.max (EffectiveBudgetLocked d / 8) kMinPersistentBudgetBytes.

Definition BeginSweepLocked (d : Disk) : option SweepPlan * Disk :=
  if db_sweeping d || negb (db_enabled d) then (None, d)
  else
    (Some (mkSweepPlan (db_root d) (EffectiveBudgetLocked d) (db_epoch d)),
     mkDisk (db_fs d) (db_options d) (db_root d) (db_enabled d) true (db_knownBytes d) 0
       (db_largestEntryBytes d) (db_epoch d) true (db_tempCounter d)
       (stat_add sweeps 1 (db_stats d))).

Definition isTemporary (p : path) : bool :=
  let filename := default [] (last p) in
  (4 <? zlen filename) && str_eqb (drop (length filename - 4) filename) kTempSuffix.

(** One hour of the file clock. *)
Definition hour : Z := 3600 * 1000000000.

(** The walk: what it leaves of the directory, the candidates and their total. *)
Fixpoint sweep_walk (l : list dirent) (f : F) (entries : list Candidate) (total : Z)
    : F * list Candidate * Z :=
  match l with
  | [] => (f, entries, total)
  | e :: l' =>
      if negb (de_regular e) then sweep_walk l' f entries total
      else match de_size e, de_written e with
           | Some size, Some written =>
               if isTemporary (de_path e) && (hour <? fs_now f - written)
               then sweep_walk l' (snd (fs_remove f (de_path e))) entries total
               else sweep_walk l' f (entries ++ [mkCandidate (de_path e) size written])
                      (u64 (total + size))
           | _, _ => sweep_walk l' f entries total
           end
  end.

(** The deletes: the filesystem, the total left, how many and how many bytes. *)
Fixpoint sweep_trim (target : Z) (l : list Candidate) (f : F) (total count freed : Z)
    : F * Z * Z * Z :=
  match l with
  | [] => (f, total, count, freed)
  | c :: l' =>
      if total <=? target then (f, total, count, freed)
      else
        let '(removed, f') := fs_remove f (c_path c) in
        if removed
        then sweep_trim target l' f' (u64 (total - c_size c)) (u64 (count + 1)) (u64 (freed + c_size c))
        else sweep_trim target l' f' total count freed
  end.

Definition sweep_target (budget : Z) : Z := budget - budget / 8.

(** The walk is the listing of one moment; [std::sort] is a sort that keeps the
    order of entries written at the same time, which the source leaves open. *)
Definition RunSweep (plan : SweepPlan) (d : Disk) : Disk :=
  let '(f, entries, total) :=
    match fs_walk (db_fs d) (sp_root plan) with
    | None => (db_fs d, [], 0)
    | Some l => sweep_walk l (db_fs d) [] 0
    end in
  let '(f, total, count, freed) :=
    if sp_budget plan <? total
    then sweep_trim (sweep_target (sp_budget plan)) (merge_sort written_le entries) f total 0 0
    else (f, total, 0, 0) in
  mkDisk f (db_options d) (db_root d) (db_enabled d) (db_swept d)
    (if db_epoch d =? sp_epoch plan then total else db_knownBytes d)
    (db_bytesSinceSweep d) (db_largestEntryBytes d) (db_epoch d) false (db_tempCounter d)
    (stat_add trimmedBytes freed (stat_add trimmed count (db_stats d))).

Definition Disk_Snapshot (d : Disk) : bool * DiskStats :=
  (db_enabled d,
   fun k => if bool_decide (k = residentBytes) then u64 (db_knownBytes d + db_bytesSinceSweep d)
            else db_stats d k).

Definition Disk_Load (d : Disk) (identity : AssetIdentity) (blockIndex expectedLength : Z)
    : option bytes * Disk :=
  if (expectedLength =? 0) || (kMaxEntryPayload <? expectedLength) then (None, d)
  else
    let digest := DigestOf identity blockIndex in
    if negb (db_enabled d) then (None, d)
    else
      let p := PathFor d (NameFor digest) in
      let '(outcome, out, d) :=
        match ReadWholeFile (db_fs d) p with
        | None => (Corrupt, None, d)
        | Some raw =>
            let '(outcome, out) := DecodeEntry raw identity digest blockIndex expectedLength in
            if bool_decide (outcome = Corrupt)
            then (outcome, out, with_stat discarded 1 (with_fs (snd (fs_remove (db_fs d) p)) d))
            else (outcome, out, d)
        end in
      match outcome with
      | DecodeOk => (out, with_stat bytesRead expectedLength (with_stat hits 1 d))
      | OtherKey => (None, with_stat misses 1 (with_stat collisions 1 d))
      | _ => (None, with_stat misses 1 d)
      end.

(** The temporary's path: [path += "." + nonce + "." + counter + ".tmp"]. *)
Definition temporary_for (p : path) (counter : Z) : path :=
  match p with
  | [] => []
  | _ => removelast p ++
         [default [] (last p) ++ lit "." ++ HexOf nonce ++ lit "." ++ HexOf counter ++ kTempSuffix]
  end.

Definition take_counter (d : Disk) : Z * Disk :=
  (db_tempCounter d,
   mkDisk (db_fs d) (db_options d) (db_root d) (db_enabled d) (db_swept d) (db_knownBytes d)
     (db_bytesSinceSweep d) (db_largestEntryBytes d) (db_epoch d) (db_sweeping d)
     (u64 (db_tempCounter d + 1)) (db_stats d)).

(** The bookkeeping of a published entry of [n] bytes. *)
Definition published (n : Z) (d : Disk) : Disk :=
  mkDisk (db_fs d) (db_options d) (db_root d) (db_enabled d) (db_swept d) (db_knownBytes d)
    (u64 (db_bytesSinceSweep d + n)) (Z.max (db_largestEntryBytes d) n) (db_epoch d) (db_sweeping d)
    (db_tempCounter d) (stat_add bytesWritten n (stat_add writes 1 (db_stats d))).

(** [Store], up to the point where the entry is in place: [None] for a failure. *)
Definition publish_entry (d : Disk) (p : path) (encoded : bytes) : bool * Disk :=
  let '(created, f) := fs_create_directories (db_fs d) (removelast p) in
  let d := with_fs f d in
  if negb created then (false, with_stat writeFailures 1 d)
  else
    let '(counter, d) := take_counter d in
    let temporary := temporary_for p counter in
    let '(opened, f) := fs_open_trunc (db_fs d) temporary in
    let d := with_fs f d in
    if negb opened then (false, with_stat writeFailures 1 d)
    else
      let '(written, f) := fs_write (db_fs d) temporary encoded in
      let d := with_fs f d in
      if negb written
      then (false, with_stat writeFailures 1 (with_fs (snd (fs_remove (db_fs d) temporary)) d))
      else
        let '(renamed, f) := fs_rename (db_fs d) temporary p in
        let d := with_fs f d in
        if negb renamed then
          let d := with_fs (snd (fs_remove (db_fs d) temporary)) d in
          if fs_exists (db_fs d) p then (false, d) else (false, with_stat writeFailures 1 d)
        else (true, d).

Definition Disk_Store (d : Disk) (identity : AssetIdentity) (blockIndex : Z) (persistable : bool)
    (data : bytes) : bool * Disk :=
  if (zlen data =? 0) || (kMaxEntryPayload <? zlen data) then (false, d)
  else
    let digest := DigestOf identity blockIndex in
    if negb (db_enabled d) then (false, d)
    else if negb persistable then (false, with_stat rejected 1 d)
    else
      let p := PathFor d (NameFor digest) in
      let encoded := EncodeEntry identity digest blockIndex data in
      let '(ok, d) := publish_entry d p encoded in
      if negb ok then (false, d)
      else
        let d := published (zlen encoded) d in
        let '(plan, d) :=
          if negb (db_swept d) || (SweepIntervalLocked d <=? db_bytesSinceSweep d)
          then BeginSweepLocked d else (None, d) in
        match plan with
        | None => (true, d)
        | Some plan => (true, RunSweep plan d)
        end.

Definition Disk_Clear (d : Disk) : Disk :=
  if negb (db_enabled d) then d
  else
    let f := fs_remove_all (db_fs d) (db_root d) in
    let f := snd (fs_create_directories f (db_root d)) in
    mkDisk f (db_options d) (db_root d) (db_enabled d) false 0 0 0 (u64 (db_epoch d + 1))
      (db_sweeping d) (db_tempCounter d) (db_stats d).

#[export] Instance Disk_tier : PersistentTier Disk := {
  IsEnabled := db_enabled;
  Load := Disk_Load;
  Store_ := Disk_Store }.
End store.

(** ** What the store keeps true of the files under it *)

Section files.
Context {F : Type} `{FileSystemLaws F}.
Context (nonce : Z).
Implicit Types (f : F) (d : DiskBlockStore F) (P : bytes -> Prop).

(** Every file's bytes satisfy [P]. *)
Definition files_ok P f : Prop := forall p raw, contents f p = Some raw -> P raw.

(** The files of [f'] are files of [f]. *)
Definition shrinks f f' : Prop :=
  forall p, contents f' p = None \/ contents f' p = contents f p.

#[export] Instance shrinks_preorder : PreOrder shrinks.
Proof.
  split; [by right|]. intros f g h H1 H2 p. specialize (H1 p). specialize (H2 p).
  destruct H2 as [H2|H2]; [by left|]. rewrite H2. done.
Qed.

Lemma shrinks_ok P f f' : shrinks f f' -> files_ok P f -> files_ok P f'.
Proof. intros Hs Hf p raw Hp. destruct (Hs p) as [E|E]; rewrite E in Hp; [done|]. by eapply Hf. Qed.

Lemma shrinks_create f p : shrinks f (snd (fs_create_directories f p)).
Proof. intros q. right. apply law_create. Qed.

Lemma shrinks_permissions f p : shrinks f (fs_permissions f p).
Proof. intros q. right. apply law_permissions. Qed.

Lemma shrinks_remove f p : shrinks f (snd (fs_remove f p)).
Proof.
  intros q. destruct (law_remove f p) as (_ & Hp & Hq). destruct (decide (q = p)) as [->|]; [done|].
  right. by apply Hq.
Qed.

Lemma shrinks_remove_all f p : shrinks f (fs_remove_all f p).
Proof. intros q. apply law_remove_all. Qed.

Hint Resolve shrinks_create shrinks_permissions shrinks_remove shrinks_remove_all : wf.

Lemma shrinks_walk l f entries total : shrinks f (sweep_walk l f entries total).1.1.
Proof.
  revert f entries total. induction l as [|e l IH]; intros f entries total; [done|].
  cbn [sweep_walk]. destruct (negb _); [apply IH|].
  destruct (de_size e), (de_written e); try apply IH. destruct (_ && _); [|apply IH].
  etransitivity; [apply shrinks_remove|apply IH].
Qed.

Lemma shrinks_trim target l f total count freed :
  shrinks f (sweep_trim target l f total count freed).1.1.1.
Proof.
  revert f total count freed. induction l as [|c l IH]; intros f total count freed; [done|].
  cbn [sweep_trim]. destruct (_ <=? _); [done|].
  pose proof (shrinks_remove f (c_path c)) as Hs. destruct (fs_remove f (c_path c)) as [[] f'];
    (etransitivity; [exact Hs|apply IH]).
Qed.

Lemma shrinks_RunSweep plan d : shrinks (db_fs d) (db_fs (RunSweep plan d)).
Proof.
  unfold RunSweep.
  assert (shrinks (db_fs d) (match fs_walk (db_fs d) (sp_root plan) with
    | None => (db_fs d, [], 0) | Some l => sweep_walk l (db_fs d) [] 0 end).1.1) as H1.
  { destruct (fs_walk _ _); [apply shrinks_walk|done]. }
  destruct (match fs_walk _ _ with None => _ | Some l => _ end) as [[f entries] total]. cbn [fst] in H1.
  destruct (sp_budget plan <? total).
  - pose proof (shrinks_trim (sweep_target (sp_budget plan)) (merge_sort written_le entries) f total 0 0) as H2.
    destruct (sweep_trim _ _ _ _ _ _) as [[[f' t] c] n]. cbn [db_fs]. by etransitivity.
  - done.
Qed.

Lemma db_fs_with_stat k n d : db_fs (with_stat k n d) = db_fs d.
Proof. done. Qed.

Lemma shrinks_Load d identity i len : shrinks (db_fs d) (db_fs (snd (Disk_Load d identity i len))).
Proof.
  unfold Disk_Load. destruct (_ || _); [done|]. destruct (negb _); [done|].
  destruct (ReadWholeFile _ _) as [raw|]; [|done].
  destruct (DecodeEntry _ _ _ _ _) as [o out]. case_bool_decide; destruct o; try done; apply shrinks_remove.
Qed.

Lemma shrinks_Configure requested d : shrinks (db_fs d) (db_fs (snd (Configure requested d))).
Proof.
  unfold Configure. case_bool_decide; [done|].
  pose proof (shrinks_create (db_fs d) [dc_directory (Disk_Normalized requested); kEntryRoot]) as Hs.
  destruct (fs_create_directories _ _) as [b f]. destruct (_ || _); [done|]. cbn [snd db_fs] in *.
  etransitivity; [exact Hs|apply shrinks_permissions].
Qed.

Lemma shrinks_Clear d : shrinks (db_fs d) (db_fs (Disk_Clear d)).
Proof.
  unfold Disk_Clear. destruct (negb _); [done|]. cbn [db_fs].
  etransitivity; [apply shrinks_remove_all|apply shrinks_create].
Qed.

(** ** Publishing *)

Lemma temporary_ne p n : p <> [] -> temporary_for nonce p n <> p.
Proof.
  intros Hp E. destruct p as [|c p'] using rev_ind; [done|]. unfold temporary_for in E.
  rewrite last_snoc in E. destruct (p' ++ [c]) as [|x y] eqn:Ep; [done|]. rewrite <-Ep in E.
  rewrite removelast_last in E. apply app_inv_head in E. injection E as E.
  apply (f_equal length) in E. cbn [default] in E. rewrite !length_app in E. simpl in E. lia.
Qed.

(** What [publish_entry] leaves: a file is as before, is the entry at its path,
    or is a prefix of the entry. *)
Lemma publish_entry_files d p encoded :
  p <> [] -> let '(ok, d') := publish_entry nonce d p encoded in
  (ok = true -> contents (db_fs d') p = Some encoded) /\
  (forall q, contents (db_fs d') q = None \/ contents (db_fs d') q = contents (db_fs d) q \/
             exists n, contents (db_fs d') q = Some (take n encoded)) /\
  db_root d' = db_root d /\ db_enabled d' = db_enabled d.
Proof.
  intros Hp. unfold publish_entry.
  pose proof (law_create (db_fs d) (removelast p)) as Hc.
  destruct (fs_create_directories (db_fs d) (removelast p)) as [created f1]. cbn [snd] in Hc.
  destruct created; cbn [negb]; [|split_and!; [done|intros q; right; left; apply Hc|done..]].
  cbn [take_counter]. cbn [with_fs db_fs db_tempCounter]. set (t := temporary_for nonce p (db_tempCounter d)).
  assert (t <> p) as Ht by by apply temporary_ne.
  pose proof (law_open f1 t) as (Ho1 & Ho2 & Ho3).
  destruct (fs_open_trunc f1 t) as [opened f2]. cbn [fst snd] in *.
  assert (forall q, contents f2 q = contents (db_fs d) q \/ contents f2 q = Some (take 0 encoded)) as H2.
  { intros q. destruct (decide (q = t)) as [->|]; [|left; by rewrite Ho3, Hc].
    destruct opened; [right; by apply Ho1|left; by rewrite Ho2, Hc]. }
  destruct opened; cbn [negb]; [|split_and!; [done|intros q; right; destruct (H2 q); eauto|done..]].
  pose proof (law_write f2 t encoded) as (Hw1 & (n & Hw2) & Hw3).
  destruct (fs_write f2 t encoded) as [written f3]. cbn [fst snd] in *.
  assert (forall q, contents f3 q = contents (db_fs d) q \/ exists n, contents f3 q = Some (take n encoded)) as H3.
  { intros q. destruct (decide (q = t)) as [->|].
    - destruct Hw2 as [->| ->]; [eauto|]. destruct (H2 t); eauto.
    - rewrite Hw3 by done. destruct (H2 q); eauto. }
  destruct written; cbn [negb].
  2:{ split_and!; [done| |done..]. intros q. cbn [with_stat with_fs db_fs].
      destruct (shrinks_remove f3 t q) as [->| ->]; [by left|right; apply H3]. }
  pose proof (law_rename f3 t p Ht) as (Hr1 & Hr2).
  destruct (fs_rename f3 t p) as [renamed f4]. cbn [fst snd] in *.
  destruct renamed; cbn [negb].
  - destruct (Hr1 eq_refl) as (R1 & R2 & R3). split_and!; cbn [with_fs db_fs]; [|intros q|done..].
    + intros _. by rewrite R1, Hw1.
    + destruct (decide (q = t)) as [->|]; [by left|]. right. destruct (decide (q = p)) as [->|].
      * right. exists (length encoded). by rewrite R1, Hw1, firstn_all.
      * rewrite R3 by done. apply H3.
  - cbn [with_fs db_fs]. specialize (Hr2 eq_refl).
    assert (forall q, contents (snd (fs_remove f4 t)) q = None \/ contents (snd (fs_remove f4 t)) q = contents (db_fs d) q \/
      exists n, contents (snd (fs_remove f4 t)) q = Some (take n encoded)) as H4.
    { intros q. destruct (shrinks_remove f4 t q) as [->| ->]; [by left|]. right. rewrite Hr2. apply H3. }
    destruct (fs_exists _ _); split_and!; done.
Qed.

Lemma publish_entry_ok P d p encoded :
  p <> [] -> (forall n, P (take n encoded)) -> files_ok P (db_fs d) ->
  files_ok P (db_fs (snd (publish_entry nonce d p encoded))).
Proof.
  intros Hp HP Hd. pose proof (publish_entry_files d p encoded Hp) as Hf.
  destruct (publish_entry nonce d p encoded) as [ok d']. destruct Hf as (_ & Hq & _ & _).
  intros q raw E. cbn [snd] in E. destruct (Hq q) as [E'|[E'|[n E']]]; rewrite E' in E; [done|by eapply Hd|].
  injection E as <-. apply HP.
Qed.

Lemma PathFor_nonempty d name : PathFor d name <> [].
Proof. unfold PathFor. intros E. by apply app_eq_nil in E as [_ ?]. Qed.

Lemma Disk_Store_ok P d identity i persistable data :
  (zlen data <= kMaxEntryPayload -> forall n, P (take n (EncodeEntry identity (DigestOf identity i) i data))) ->
  files_ok P (db_fs d) -> files_ok P (db_fs (snd (Disk_Store nonce d identity i persistable data))).
Proof.
  intros HP Hd. unfold Disk_Store. destruct (Z.eqb_spec (zlen data) 0), (Z.ltb_spec kMaxEntryPayload (zlen data)); try done.
  cbn [orb]. destruct (negb _); [done|].
  destruct persistable; cbn [negb]; [|done]. cbv zeta.
  pose proof (publish_entry_ok P d _ _ (PathFor_nonempty d (NameFor (DigestOf identity i))) (HP ltac:(done)) Hd) as Hp.
  destruct (publish_entry _ _ _ _) as [ok d']. cbn [snd] in Hp. destruct ok; cbn [negb]; [|done].
  destruct (_ || _); [|done]. unfold BeginSweepLocked. destruct (_ || _); [done|]. cbn [snd].
  eapply shrinks_ok; [apply shrinks_RunSweep|]. done.
Qed.

Lemma ReadWholeFile_Some f p raw : ReadWholeFile f p = Some raw -> contents f p = Some raw.
Proof.
  unfold ReadWholeFile. destruct (fs_file_size f p) as [size|] eqn:Es; [|done].
  destruct (_ <? _); [done|]. destruct (fs_read f p size) as [data|] eqn:Er; [|done].
  destruct (Z.eqb_spec (zlen data) size) as [El|]; [|done]. intros [= ->].
  destruct (law_read _ _ _ _ Er) as (c & Hc & Ed). rewrite Hc. f_equal.
  pose proof (law_size _ _ _ _ Es Hc) as Ez. rewrite Ed. symmetry. apply take_ge. unfold zlen in Ez. lia.
Qed.

(** What a lookup returns was decoded from the file at the key's path. *)
Lemma Disk_Load_Some d identity i len data d' :
  Disk_Load d identity i len = (Some data, d') ->
  len <> 0 /\ len <= kMaxEntryPayload /\ db_enabled d = true /\
  exists raw, contents (db_fs d) (PathFor d (NameFor (DigestOf identity i))) = Some raw /\
    DecodeEntry raw identity (DigestOf identity i) i len = (DecodeOk, Some data).
Proof.
  unfold Disk_Load. destruct (Z.eqb_spec len 0), (Z.ltb_spec kMaxEntryPayload len); cbn [orb]; try done.
  destruct (db_enabled d); [|done]. cbn [negb].
  destruct (ReadWholeFile (db_fs d) (PathFor d (NameFor (DigestOf identity i)))) as [raw|] eqn:Er; [|done].
  apply ReadWholeFile_Some in Er.
  destruct (DecodeEntry _ _ _ _ _) as [o out] eqn:Ed. case_bool_decide as Hc; [by subst o|].
  destruct o; try done. intros [= -> _]. split_and!; [lia|lia|done|]. eauto.
Qed.
End files.

#[export] Hint Resolve shrinks_create shrinks_permissions shrinks_remove shrinks_remove_all : wf.

(** ** The store as the tier a reader is given *)

Lemma DecodeEntry_ok_length raw identity digest i len data :
  DecodeEntry raw identity digest i len = (DecodeOk, Some data) -> zlen data = len.
Proof.
  destruct (DecodeEntry_cases raw identity digest i len) as [[-> ?]|[-> Hin]]; [done|].
  unfold match_entry. destruct (negb _); [done|]. destruct (_ || _); [done|].
  destruct (Z.eqb_spec (ReadLittleEndian64 (slice raw 32 8)) len) as [E|]; [|done]. intros [= <-].
  destruct Hin as [H1 _ _ _ _ H6 _]. unfold kHeaderBytes in *. rewrite E in *.
  assert (0 <= ReadLittleEndian64 (slice raw 32 8)) by (apply read_le_range, length_slice; lia).
  apply zlen_slice; lia.
Qed.

Section tier.
Context (identity : AssetIdentity) (A : bytes).
Context (Htyped : key_typed identity 0) (Hblock : 0 < ai_blockSize identity) (HA : is_u64 (zlen A)).

(** No file gives a reader of [A] wrong bytes for one of its blocks. *)
Definition entry_ok (raw : bytes) : Prop :=
  forall i len data, in_asset (ai_blockSize identity) (zlen A) i ->
    DecodeEntry raw identity (DigestOf identity i) i len = (DecodeOk, Some data) ->
    zlen data = zlen (block_of A (ai_blockSize identity) i) ->
    data = block_of A (ai_blockSize identity) i.

Lemma in_asset_typed i : in_asset (ai_blockSize identity) (zlen A) i -> key_typed identity i.
Proof.
  intros [Hi Hl]. destruct Htyped as (H1 & H2 & H3 & _). split_and!; try done.
  unfold is_u64 in *. nia.
Qed.

Lemma entry_ok_corrupt raw : ~ intact raw -> entry_ok raw.
Proof.
  intros Hn i len data _ E. exfalso. apply (DecodeEntry_corrupt raw identity (DigestOf identity i) i len) in Hn.
  by rewrite E in Hn.
Qed.

Lemma entry_ok_prefix i n :
  in_asset (ai_blockSize identity) (zlen A) i ->
  zlen (block_of A (ai_blockSize identity) i) <= kMaxEntryPayload ->
  entry_ok (take n (EncodeEntry identity (DigestOf identity i) i (block_of A (ai_blockSize identity) i))).
Proof.
  intros Hi Hl. set (raw := EncodeEntry _ _ _ _).
  destruct (EncodeEntry_fields identity i _ (in_asset_typed i Hi) Hl) as (Hin & _ & _ & F3 & F4 & F5).
  fold raw in Hin, F3, F4, F5.
  destruct (decide (n < length raw)%nat) as [Hn|Hn].
  - apply entry_ok_corrupt. intros H. apply intact_truncated in H; [|done].
    apply (f_equal length) in H. rewrite length_take in H. lia.
  - rewrite take_ge by lia. intros j len data Hj E _. rewrite DecodeEntry_intact in E by done.
    unfold match_entry in E. destruct (negb _) in E; [done|].
    destruct (Z.eqb_spec (ReadLittleEndian64 (slice raw 24 8)) j) as [Ej|]; [|by rewrite orb_true_r in E].
    destruct (_ || _) in E; [done|]. destruct (negb _) in E; [done|]. injection E as <-.
    rewrite F4. unfold kHeaderBytes. rewrite F5. by rewrite <-Ej, F3.
Qed.

Context {F : Type} `{FileSystemLaws F} (nonce : Z).

Definition tier_ok (d : DiskBlockStore F) : Prop := files_ok entry_ok (db_fs d).

Lemma Disk_TierContract :
  @TierContract (DiskBlockStore F) (Disk_tier nonce) tier_ok identity A.
Proof.
  split.
  - intros d i len r d' Hd E. change (Disk_Load d identity i len = (r, d')) in E. split.
    + pose proof (shrinks_Load d identity i len) as Hs. rewrite E in Hs. by eapply shrinks_ok.
    + intros data ->. destruct (Disk_Load_Some _ _ _ _ _ _ E) as (_ & _ & _ & raw & Hraw & Hdec).
      split; [by eapply DecodeEntry_ok_length|]. intros Hi Hl. by eapply (Hd _ raw Hraw i len).
  - intros d i persistable r d' Hd Hi E.
    pose proof (Disk_Store_ok nonce entry_ok d identity i persistable (block_of A (ai_blockSize identity) i)) as Hs.
    change (Disk_Store nonce d identity i persistable (block_of A (ai_blockSize identity) i) = (r, d')) in E.
    rewrite E in Hs. apply Hs; [|done]. intros Hl n. by apply entry_ok_prefix.
Qed.
End tier.

(** ** The sweep *)

Section sweep.
Context {F : Type} `{FileSystemLaws F}.
Implicit Types (f : F) (c : Candidate) (l : list Candidate).

(** A file that is there can be removed. *)
Definition removable : Prop := forall f p, contents f p <> None -> fst (fs_remove f p) = true.

Definition total_size l : Z := zsum c_size l.

(** The candidates are distinct files of [f], and their sizes add up in 64 bits. *)
Record listing f l : Prop := {
  li_nodup : NoDup (c_path <$> l);
  li_exists : forall c, c ∈ l -> contents f (c_path c) <> None;
  li_sizes : forall c, c ∈ l -> 0 <= c_size c;
  li_total : total_size l < 2 ^ 64 }.

Lemma total_size_cons c l : total_size (c :: l) = c_size c + total_size l.
Proof. done. Qed.

Lemma listing_tail f c l :
  removable -> listing f (c :: l) -> listing (snd (fs_remove f (c_path c))) l.
Proof.
  intros Hr [H1 H2 H3 H4]. rewrite fmap_cons in H1. apply NoDup_cons in H1 as [Hc H1]. split; [done| | |].
  - intros x Hx. rewrite (proj2 (proj2 (law_remove f (c_path c)))); [apply H2; by right|].
    intros E. apply Hc. rewrite <-E. by apply list_elem_of_fmap_2.
  - intros x Hx. apply H3. by right.
  - rewrite total_size_cons in H4. pose proof (H3 c ltac:(by left)). lia.
Qed.

(** The loop deletes the shortest prefix that brings the total to the target. *)
Lemma sweep_trim_spec target l f rest count freed :
  removable -> listing f l -> 0 <= rest -> rest <= target -> rest + total_size l < 2 ^ 64 ->
  0 <= count -> count + zlen l < 2 ^ 64 -> 0 <= freed -> freed + total_size l < 2 ^ 64 ->
  exists pre post f', l = pre ++ post /\
    sweep_trim target l f (rest + total_size l) count freed =
      (f', rest + total_size post, count + zlen pre, freed + total_size pre) /\
    rest + total_size post <= target /\
    (forall init c, pre = init ++ [c] -> target < rest + total_size post + c_size c) /\
    (forall p, p ∈ (c_path <$> pre) -> contents f' p = None) /\
    (forall p, p ∉ (c_path <$> pre) -> contents f' p = contents f p).
Proof.
  intros Hr Hl Hrest Hle. revert f count freed Hl. induction l as [|c l IH]; intros f count freed Hl Hb Hc0 Hc Hf0 Hf.
  { exists [], [], f. cbn [sweep_trim]. change (total_size []) with 0 in *. change (@zlen Candidate []) with 0.
    rewrite !Z.add_0_r.
    split_and!; try done; [by intros [] ? ?|]. by intros p ?%elem_of_nil. }
  cbn [sweep_trim]. destruct (Z.leb_spec (rest + total_size (c :: l)) target) as [Ht|Ht].
  { exists [], (c :: l), f. change (@zlen Candidate []) with 0. change (total_size []) with 0. rewrite !Z.add_0_r.
    split_and!; try done; [by intros [] ? ?|]. by intros p ?%elem_of_nil. }
  pose proof (listing_tail f c l Hr Hl) as Hl'. pose proof (law_remove f (c_path c)) as (R1 & R2 & R3).
  assert (fst (fs_remove f (c_path c)) = true) as E by (apply Hr; eapply li_exists; [done|by left]).
  destruct (fs_remove f (c_path c)) as [b f1]. cbn [fst snd] in *. subst b.
  pose proof (li_sizes _ _ Hl c ltac:(by left)) as Hs. rewrite total_size_cons in *.
  assert (0 <= total_size l) as Hts by (apply zsum_nonneg; intros x Hx; by eapply li_sizes; [apply Hl'|]).
  assert (zlen (c :: l) = 1 + zlen l) as Hz by (unfold zlen; simpl; lia). pose proof (zlen_nonneg l).
  rewrite !u64_small by (unfold is_u64; lia).
  replace (rest + (c_size c + total_size l) - c_size c) with (rest + total_size l) by lia.
  destruct (IH f1 (count + 1) (freed + c_size c) Hl') as (pre & post & f' & -> & Eq & Hp & Hmin & Hin & Hout); try lia.
  exists (c :: pre), post, f'. rewrite Eq. split_and!; [done| |done| | |].
  - rewrite total_size_cons. unfold zlen. cbn [length]. rewrite Nat2Z.inj_succ.
    apply f_equal2; [apply f_equal; lia|lia].
  - intros init x Ex. destruct init as [|y init].
    + injection Ex as -> ->. unfold total_size in *. simpl in *. lia.
    + injection Ex as -> Ex. by eapply Hmin.
  - intros p. rewrite fmap_cons, elem_of_cons. destruct (decide (p ∈ (c_path <$> pre))) as [Hi|Hi]; [by intros _; apply Hin|].
    intros [->|?]; [|done]. rewrite Hout by done. by apply R1.
  - intros p. rewrite fmap_cons, not_elem_of_cons. intros [Hne Hni]. rewrite Hout by done. by apply R3.
Qed.

Lemma sweep_target_ge budget largest size :
  0 <= size <= largest -> largest * 4 <= budget -> size <= sweep_target budget.
Proof.
  intros Hc Hb. unfold sweep_target.
  assert (budget / 8 * 8 <= budget) by (rewrite Z.mul_comm; apply Z.mul_div_le; lia). lia.
Qed.

Lemma merge_sort_split l pre post a b :
  merge_sort written_le l = pre ++ post -> a ∈ pre -> b ∈ post -> c_written a <= c_written b.
Proof.
  intros E Ha Hb. assert (StronglySorted written_le (pre ++ post)) as Hs.
  { rewrite <-E. apply (StronglySorted_merge_sort written_le). }
  clear E. induction pre as [|x pre IH]; [by apply elem_of_nil in Ha|].
  cbn [app] in Hs. apply StronglySorted_inv in Hs as [Hs HF]. apply elem_of_cons in Ha as [->|Ha]; [|by apply IH].
  rewrite Forall_forall in HF. apply HF, elem_of_app. by right.
Qed.
(** The strictly newest file is deleted last. *)
Lemma newest_last f l pre post c :
  listing f (merge_sort written_le l) -> merge_sort written_le l = pre ++ post -> c ∈ pre ->
  (forall x, x ∈ merge_sort written_le l -> x <> c -> c_written x < c_written c) ->
  exists init, pre = init ++ [c] /\ post = [].
Proof.
  intros Hls Es Hc Hnew. apply list_elem_of_split in Hc as (init & rest & ->).
  assert (forall x, x ∈ rest ++ post -> x = c) as Hall.
  { intros x Hx. destruct (decide (x = c)) as [|Hxc]; [done|]. exfalso.
    assert (c_written x < c_written c) by (apply Hnew; [rewrite Es, <-app_assoc; set_solver|done]).
    assert (c_written c <= c_written x); [|lia].
    apply (merge_sort_split l (init ++ [c]) (rest ++ post)); [|set_solver|done].
    rewrite Es. by rewrite <-!app_assoc. }
  pose proof (li_nodup _ _ Hls) as Hnd. rewrite Es, <-app_assoc, fmap_app, <-app_comm_cons, fmap_cons in Hnd.
  apply NoDup_app in Hnd as (_ & _ & Hnd). apply NoDup_cons in Hnd as [Hnd _].
  destruct (rest ++ post) as [|x xs] eqn:Erp; [|exfalso; apply Hnd; rewrite (Hall x ltac:(by left)); left].
  apply app_eq_nil in Erp as [-> ->]. by exists init.
Qed.

Lemma listing_perm f l l' : l ≡ₚ l' -> listing f l -> listing f l'.
Proof.
  intros Hp [H1 H2 H3 H4]. split; [by rewrite <-Hp|intros c Hc; apply H2; by rewrite Hp|
    intros c Hc; apply H3; by rewrite Hp|]. unfold total_size. by rewrite <-(zsum_permutation _ _ _ Hp).
Qed.
End sweep.

(** ** The theorems of the store *)

Section theorems.
Context {F : Type} `{FileSystemLaws F} (nonce : Z).
Implicit Types (d : DiskBlockStore F).

(** C24: the store keeps its promise to the reader over any filesystem that obeys
    the laws, failures included: when no file gives wrong bytes for a block of
    the asset, a lookup returns only the block's bytes, and lookups and writes
    keep it so, whichever of their filesystem calls fail and whatever a failed
    write leaves behind. *)
Theorem Disk_tier_contract (identity : AssetIdentity) (A : bytes) :
  key_typed identity 0 -> 0 < ai_blockSize identity -> is_u64 (zlen A) ->
  @TierContract (DiskBlockStore F) (Disk_tier nonce) (tier_ok identity A) identity A.
Proof. intros. by apply Disk_TierContract. Qed.

Lemma entry_ok_other identity A identity' i' data' n :
  key_typed identity 0 -> 0 < ai_blockSize identity -> is_u64 (zlen A) ->
  key_typed identity' i' -> identity' <> identity -> zlen data' <= kMaxEntryPayload ->
  (forall i, in_asset (ai_blockSize identity) (zlen A) i -> DigestOf identity' i' <> DigestOf identity i) ->
  entry_ok identity A (take n (EncodeEntry identity' (DigestOf identity' i') i' data')).
Proof.
  intros Ht Hb HA Ht' Hne Hl Hcol. set (raw := EncodeEntry _ _ _ _).
  destruct (EncodeEntry_fields identity' i' data' Ht' Hl) as (Hin & F1 & _). fold raw in Hin, F1.
  destruct (decide (n < length raw)%nat) as [Hn|Hn].
  - apply entry_ok_corrupt. intros Hi. apply intact_truncated in Hi; [|done].
    apply (f_equal length) in Hi. rewrite length_take in Hi. lia.
  - rewrite take_ge by lia. intros j len data Hj E _. rewrite DecodeEntry_intact in E by done.
    unfold match_entry in E. rewrite F1 in E.
    destruct (str_eqb (DigestOf identity' i') (DigestOf identity j)) eqn:Es; [|done].
    apply str_eqb_eq in Es. by destruct (Hcol j Hj).
Qed.

(** C25: one directory serves every asset: configuring, clearing and sweeping the
    store, and writing any block of any other asset, keep every file safe for
    the readers of [A], unless the block written is under a SHA-256 collision
    with a key of [A]. *)
Theorem Disk_store_shared identity A d :
  key_typed identity 0 -> 0 < ai_blockSize identity -> is_u64 (zlen A) -> tier_ok identity A d ->
  (forall requested, tier_ok identity A (snd (Configure requested d))) /\
  tier_ok identity A (Disk_Clear d) /\
  (forall plan, tier_ok identity A (RunSweep plan d)) /\
  (forall identity' i' persistable data, key_typed identity' i' -> identity' <> identity ->
     (forall i, in_asset (ai_blockSize identity) (zlen A) i ->
        sha256 (KeyImage identity' i') = sha256 (KeyImage identity i) ->
        KeyImage identity' i' = KeyImage identity i) ->
     tier_ok identity A (snd (Disk_Store nonce d identity' i' persistable data))).
Proof.
  intros Ht Hb HA Hd. split_and!.
  - intros r. eapply shrinks_ok; [apply shrinks_Configure|done].
  - eapply shrinks_ok; [apply shrinks_Clear|done].
  - intros plan. eapply shrinks_ok; [apply shrinks_RunSweep|done].
  - intros identity' i' persistable data Ht' Hne Hcol. apply Disk_Store_ok; [|done]. intros Hl n.
    apply entry_ok_other; try done. intros i Hi E. unfold DigestOf in E.
    apply Hcol in E; [|done]. apply KeyImage_inj in E as [? ?]; [done|done|].
    by apply (in_asset_typed identity A).
Qed.

Lemma publish_entry_sweeps d p encoded ok d' :
  publish_entry nonce d p encoded = (ok, d') -> db_stats d' sweeps = db_stats d sweeps.
Proof.
  unfold publish_entry, take_counter. intros E. repeat (case_match; simplify_eq/=; try done).
Qed.

Lemma RunSweep_sweeps plan d : db_stats (RunSweep plan d) sweeps = db_stats d sweeps.
Proof.
  unfold RunSweep. destruct (match fs_walk _ _ with None => _ | Some _ => _ end) as [[f es] t].
  destruct (if _ <? _ then _ else _) as [[[f' t'] c'] n']. done.
Qed.

Lemma u64_succ_ne z : u64 (z + 1) <> z.
Proof.
  unfold u64. intros E. pose proof (Z.mod_pos_bound (z + 1) (2 ^ 64) ltac:(lia)).
  destruct (decide (z = 2 ^ 64 - 1)) as [->|]; [done|]. rewrite Z.mod_small in E; lia.
Qed.

(** C36: a write that reports success put the whole entry at the key's path, and
    until a sweep a lookup of the key with that length returns the bytes, unless
    the file cannot be read; the same write refused by the strength rule is
    counted and changes nothing else. *)
Theorem Disk_Store_Load d identity i data d' :
  key_typed identity i ->
  Disk_Store nonce d identity i true data = (true, d') ->
  db_stats d' sweeps = db_stats d sweeps ->
  let p := PathFor d (NameFor (DigestOf identity i)) in
  contents (db_fs d') p = Some (EncodeEntry identity (DigestOf identity i) i data) /\
  (fst (Disk_Load d' identity i (zlen data)) = Some data \/ ReadWholeFile (db_fs d') p = None) /\
  Disk_Store nonce d identity i false data = (false, with_stat rejected 1 d).
Proof.
  intros Ht E Hs p. unfold Disk_Store in E.
  destruct (Z.eqb_spec (zlen data) 0), (Z.ltb_spec kMaxEntryPayload (zlen data)); try done. cbn [orb] in E.
  destruct (db_enabled d) eqn:Een; [|done]. cbn [negb] in E. cbv zeta in E. fold p in E.
  set (encoded := EncodeEntry identity (DigestOf identity i) i data) in *.
  pose proof (publish_entry_files nonce d p encoded (PathFor_nonempty _ _)) as Hpub.
  destruct (publish_entry nonce d p encoded) as [ok d1] eqn:Epub. destruct Hpub as (Hc & _ & Hroot & Hen).
  destruct ok; [|done]. cbn [negb] in E. specialize (Hc eq_refl).
  assert (d' = published (zlen encoded) d1) as ->.
  { apply publish_entry_sweeps in Epub. destruct (_ || _) in E; [|congruence].
    unfold BeginSweepLocked in E. destruct (_ || _) in E; [congruence|]. injection E as <-.
    rewrite RunSweep_sweeps in Hs. change (u64 (db_stats d1 sweeps + 1) = db_stats d sweeps) in Hs.
    rewrite Epub in Hs. exfalso. by eapply u64_succ_ne. }
  split; [done|]. split.
  - unfold Disk_Load. destruct (Z.eqb_spec (zlen data) 0), (Z.ltb_spec kMaxEntryPayload (zlen data)); try lia.
    cbn [orb]. change (db_enabled (published (zlen encoded) d1)) with (db_enabled d1).
    change (db_fs (published (zlen encoded) d1)) with (db_fs d1). rewrite Hen, Een. cbn [negb].
    assert (PathFor (published (zlen encoded) d1) (NameFor (DigestOf identity i)) = p) as ->
      by (unfold PathFor, p; cbn [published db_root]; by rewrite Hroot).
    destruct (ReadWholeFile (db_fs d1) p) as [raw|] eqn:Er; [|by right]. left.
    apply ReadWholeFile_Some in Er. rewrite Hc in Er. injection Er as <-.
    destruct (EncodeEntry_fields identity i data Ht ltac:(lia)) as (Hin & F1 & F2 & F3 & F4 & F5).
    fold encoded in Hin, F1, F2, F3, F4, F5. rewrite DecodeEntry_intact by done. unfold match_entry.
    rewrite F1, F2, F3, F4, !Z.eqb_refl, (proj2 (str_eqb_eq _ _) eq_refl). cbn [negb orb].
    unfold kHeaderBytes. rewrite F5. done.
  - unfold Disk_Store. destruct (Z.eqb_spec (zlen data) 0), (Z.ltb_spec kMaxEntryPayload (zlen data)); try lia.
    rewrite Een. done.
Qed.

(** C37: a sweep that finds the directory over its budget deletes oldest first and
    no more than it must: what it deletes is no newer than what it keeps, what
    it keeps is within seven eighths of the budget and would not be with one
    file more, no other file changes, the count it records is what it kept, and
    the newest entry survives when the store wrote nothing larger, which is what
    the floor of four entries in the effective budget is for.  The filesystem
    is one that removes a file it has. *)
Theorem RunSweep_trims d l f entries total plan :
  removable (F := F) ->
  fs_walk (db_fs d) (sp_root plan) = Some l ->
  sweep_walk l (db_fs d) [] 0 = (f, entries, total) -> total = total_size entries ->
  listing f entries -> zlen entries < 2 ^ 64 ->
  0 <= sp_budget plan < total -> sp_epoch plan = db_epoch d ->
  exists deleted kept,
    entries ≡ₚ deleted ++ kept /\
    (forall a b, a ∈ deleted -> b ∈ kept -> c_written a <= c_written b) /\
    (forall p, p ∈ (c_path <$> deleted) -> contents (db_fs (RunSweep plan d)) p = None) /\
    (forall p, p ∉ (c_path <$> deleted) -> contents (db_fs (RunSweep plan d)) p = contents f p) /\
    total_size kept <= sweep_target (sp_budget plan) /\
    (forall init c, deleted = init ++ [c] -> sweep_target (sp_budget plan) < total_size (c :: kept)) /\
    db_knownBytes (RunSweep plan d) = total_size kept /\
    (forall c, c ∈ entries -> (forall x, x ∈ entries -> x <> c -> c_written x < c_written c) ->
       c_size c <= db_largestEntryBytes d -> is_u64 (db_largestEntryBytes d * kMinBudgetEntries) ->
       EffectiveBudgetLocked d <= sp_budget plan -> c ∈ kept).
Proof.
  intros Hr Hw Hwalk -> Hl Hn Hb He. set (sorted := merge_sort written_le entries).
  assert (sorted ≡ₚ entries) as Hperm by apply merge_sort_Permutation.
  assert (listing f sorted) as Hls by by apply (listing_perm f entries).
  assert (total_size sorted = total_size entries) as Hts by apply (zsum_permutation _ _ _ Hperm).
  assert (zlen sorted = zlen entries) as Hzs by (unfold zlen; by rewrite Hperm).
  assert (0 <= sweep_target (sp_budget plan)) as Htg.
  { unfold sweep_target. assert (sp_budget plan / 8 <= sp_budget plan); [|lia].
    apply Z.div_le_upper_bound; lia. }
  destruct (sweep_trim_spec (sweep_target (sp_budget plan)) sorted f 0 0 0 Hr Hls)
    as (pre & post & f' & Es & Eq & Hp & Hmin & Hin & Hout); try lia; [by destruct Hls|by destruct Hls|].
  rewrite Z.add_0_l in *.
  assert (RunSweep plan d = mkDisk f' (db_options d) (db_root d) (db_enabled d) (db_swept d) (total_size post)
    (db_bytesSinceSweep d) (db_largestEntryBytes d) (db_epoch d) false (db_tempCounter d)
    (stat_add trimmedBytes (total_size pre) (stat_add trimmed (zlen pre) (db_stats d)))) as ->.
  { unfold RunSweep. rewrite Hw, Hwalk. destruct (Z.ltb_spec (sp_budget plan) (total_size entries)); [|lia].
    fold sorted. rewrite <-Hts, Eq, He, Z.eqb_refl, !Z.add_0_l. done. }
  exists pre, post. cbn [db_fs db_knownBytes]. split_and!; try done.
  - by rewrite <-Es.
  - intros a b. by apply (merge_sort_split entries).
  - intros init c Hi. rewrite total_size_cons. specialize (Hmin init c Hi). lia.
  - intros c Hc Hnew Hsz Hu Heff. rewrite <-Hperm, Es, elem_of_app in Hc. destruct Hc as [Hc|Hc]; [|done].
    exfalso. destruct (newest_last f entries pre post c Hls Es Hc) as (init & -> & ->).
    { intros x Hx. apply Hnew. by rewrite <-Hperm. }
    specialize (Hmin init c eq_refl). change (total_size []) with 0 in Hmin.
    pose proof (li_sizes _ _ Hls c ltac:(rewrite Es; set_solver)).
    pose proof (sweep_target_ge (sp_budget plan) (db_largestEntryBytes d) (c_size c)) as Hge.
    unfold EffectiveBudgetLocked in Heff. rewrite (u64_small (_ * _) Hu) in Heff. unfold kMinBudgetEntries in *. lia.
Qed.

(** No part of an identifier reaches the filesystem: every entry lives in a
    directory named by two hexadecimal characters, in a file named by thirty-two
    and the suffix. *)
Theorem PathFor_hex d identity i :
  exists name, PathFor d (NameFor (DigestOf identity i)) = db_root d ++ [take 2 name; name ++ kEntrySuffix] /\
    length name = 32%nat /\ Forall (fun c => c ∈ kHex) name.
Proof. eexists. split; [reflexivity|]. apply NameFor_shape. Qed.
End theorems.
