(* ===== verification/MemoryFs.v ===== *)
(** * MemoryFs: a filesystem in memory

    An instance of [FileSystem] that satisfies [FileSystemLaws], so that the
    theorems of the disk store are about something that exists and the store can
    be run on concrete inputs. *)

From S2P Require Import Prelude DiskFormat DiskStore.

Record MemFs : Type := mkMemFs {
  mf_files : gmap path (bytes * Z);
  mf_now : Z }.

Definition mf_put (p : path) (data : bytes) (f : MemFs) : MemFs :=
  mkMemFs (<[p := (data, mf_now f)]> (mf_files f)) (mf_now f).

Definition mf_dirent (e : path * (bytes * Z)) : dirent :=
  mkDirent (fst e) true (Some (zlen (fst (snd e)))) (Some (snd (snd e))).

#[export] Instance MemFs_fs : FileSystem MemFs := {
  fs_create_directories f p := (true, f);
  fs_is_directory f p := true;
  fs_permissions f p := f;
  fs_file_size f p := (fun e => zlen (fst e)) <$> mf_files f !! p;
  fs_read f p n := (fun e => take (Z.to_nat n) (fst e)) <$> mf_files f !! p;
  fs_open_trunc f p := (true, mf_put p [] f);
  fs_write f p data := (true, mf_put p data f);
  fs_remove f p :=
    (bool_decide (is_Some (mf_files f !! p)), mkMemFs (delete p (mf_files f)) (mf_now f));
  fs_rename f p q :=
    match mf_files f !! p with
    | None => (false, f)
    | Some e => (true, mkMemFs (<[q := e]> (delete p (mf_files f))) (mf_now f))
    end;
  fs_exists f p := bool_decide (is_Some (mf_files f !! p));
  fs_remove_all f p :=
    mkMemFs (filter (fun e => take (length p) e.1 <> p) (mf_files f)) (mf_now f);
  fs_walk f p :=
    Some (mf_dirent <$> filter (fun e => take (length p) e.1 = p) (map_to_list (mf_files f)));
  fs_now f := mf_now f }.

Definition mf_contents (f : MemFs) (p : path) : option bytes := fst <$> mf_files f !! p.

Lemma mf_contents_put p q data f :
  mf_contents (mf_put p data f) q = if bool_decide (q = p) then Some data else mf_contents f q.
Proof.
  unfold mf_contents, mf_put. cbn [mf_files]. case_bool_decide as E.
  - subst. by rewrite lookup_insert_eq.
  - by rewrite lookup_insert_ne.
Qed.

Lemma mf_contents_delete p q f n :
  mf_contents (mkMemFs (delete p (mf_files f)) n) q =
    if bool_decide (q = p) then None else mf_contents f q.
Proof.
  unfold mf_contents. cbn [mf_files]. case_bool_decide as E.
  - subst. by rewrite lookup_delete_eq.
  - by rewrite lookup_delete_ne.
Qed.

#[export] Instance MemFs_laws : FileSystemLaws MemFs.
Proof.
  refine {| contents := mf_contents |}; cbn [fs_create_directories fs_permissions fs_read fs_file_size
    fs_open_trunc fs_write fs_remove fs_rename fs_remove_all MemFs_fs fst snd]; try done.
  - intros f p n data. unfold mf_contents. destruct (mf_files f !! p) as [[c t]|]; [|done].
    intros [= <-]. by exists c.
  - intros f p n c. unfold mf_contents. destruct (mf_files f !! p) as [[c' t]|]; [|done].
    by intros [= <-] [= <-].
  - intros f p. split_and!; [|done|]; intros *; rewrite mf_contents_put; case_bool_decide; naive_solver.
  - intros f p data. split_and!; [|exists (length data); left|];
      intros *; rewrite mf_contents_put; case_bool_decide; try naive_solver. by rewrite firstn_all.
  - intros f p. split_and!; [intros _|left|intros q Hq]; rewrite mf_contents_delete.
    + by rewrite bool_decide_true.
    + by rewrite bool_decide_true.
    + by rewrite bool_decide_false.
  - intros f p q Hpq. destruct (mf_files f !! p) as [e|] eqn:E; [|done]. cbn [fst snd]. split; [|done].
    intros _. unfold mf_contents. cbn [mf_files]. split_and!.
    + by rewrite lookup_insert_eq, E.
    + by rewrite lookup_insert_ne, lookup_delete_eq.
    + intros r Hr Hq. by rewrite lookup_insert_ne, lookup_delete_ne.
  - intros f p q. unfold mf_contents. cbn [mf_files].
    destruct (decide (take (length p) q = p)) as [E|E].
    + left. rewrite map_lookup_filter. destruct (mf_files f !! q); [|done]. simpl.
      rewrite option_guard_False; naive_solver.
    + right. rewrite map_lookup_filter. destruct (mf_files f !! q); [|done]. simpl.
      rewrite option_guard_True; naive_solver.
Defined.

Lemma MemFs_removable : removable (F := MemFs).
Proof.
  intros f p Hp. change (mf_contents f p <> None) in Hp. cbn. apply bool_decide_eq_true.
  unfold mf_contents in Hp. by destruct (mf_files f !! p).
Qed.
