(* ===== verification/PlatformFile.v ===== *)
(** * PlatformFile: files, on POSIX and on Windows

    libs/usd-asset-local: src/PlatformFile.h and src/PlatformFile.cpp, both
    branches (the first with the Linux time fields).  [Platform] is what the
    local reader calls and [PlatformLaws] what it relies on; the branches are two
    instances, over the system calls of [Posix] and of [Win32].  The state of a
    system changes from call to call because other processes write the file
    too. *)

From S2P Require Import Prelude Diagnostics.

Record FileIdentity : Type := mkFileIdentity {
  fi_size : Z;
  fi_deviceId : Z;
  fi_fileId : Z;
  fi_modifiedTicks : Z }.

#[export] Instance FileIdentity_eq_dec : EqDecision FileIdentity.
Proof. solve_decision. Defined.

Definition FileIdentity_eqb (lhs rhs : FileIdentity) : bool :=
  (fi_size lhs =? fi_size rhs) && (fi_deviceId lhs =? fi_deviceId rhs) &&
  (fi_fileId lhs =? fi_fileId rhs) && (fi_modifiedTicks lhs =? fi_modifiedTicks rhs).

Definition FormatIdentity (i : FileIdentity) : str :=
  to_string (fi_deviceId i) ++ lit ":" ++ to_string (fi_fileId i) ++ lit ":" ++
  to_string (fi_size i) ++ lit ":" ++ to_string (fi_modifiedTicks i).

Definition WithPath (what : string) (p : str) : str := lit what ++ lit ": " ++ ElideSecrets p.

(** ** The interface

    What the reader calls of either branch: [OpenForRead], [Close], [Stat],
    [PositionalRead], and the clock of its timers. *)
Class Platform (OS : Type) : Type := {
  pf_OpenForRead : str -> OS -> (Status + Z) * OS;
  pf_Close : Z -> OS -> OS;
  pf_Stat : Z -> OS -> (Status + FileIdentity) * OS;
  pf_PositionalRead : Z -> Z -> Z -> OS -> Status * bytes * OS;
  pf_clock : OS -> Z }.

(** What it relies on of the calls: those of a handle see one file through time.
    [os_le] orders the moments of the system; [file_at] and
    [identity_at] are the file behind a handle at a moment.  A byte that is
    delivered is the file's at some moment of the call, so a concurrent rewrite
    may tear it. *)
Class PlatformLaws (OS : Type) `{Platform OS} : Type := {
  os_le : OS -> OS -> Prop;
  file_at : OS -> Z -> bytes;
  identity_at : OS -> Z -> FileIdentity;
  law_order : PreOrder os_le;
  law_open : forall p os,
    match pf_OpenForRead p os with (inl st, _) => IsOk st = false | (inr _, os') => os_le os os' end;
  law_stat : forall fd os, os_le os (snd (pf_Stat fd os)) /\
    match fst (pf_Stat fd os) with
    | inl st => IsOk st = false
    | inr identity => exists t, os_le os t /\ os_le t (snd (pf_Stat fd os)) /\ identity = identity_at t fd
    end;
  law_read : forall fd n off os, 0 <= n -> is_u64 off ->
    let '(st, data, os') := pf_PositionalRead fd n off os in
    os_le os os' /\ zlen data <= n /\
    forall j b, data !! j = Some b ->
      exists t, os_le os t /\ os_le t os' /\ file_at t fd !! (Z.to_nat off + j)%nat = Some b;
  law_size : forall t fd, fi_size (identity_at t fd) = zlen (file_at t fd) /\ is_u64 (zlen (file_at t fd)) }.

#[export] Existing Instance law_order.

(** What the reader's revision check assumes besides: an identity (size, device,
    file and modification time) that comes back unchanged means that the bytes
    were not changed in between.  Neither system says so.  It fails where a
    rewrite of the same size restores the timestamp or falls within its
    granularity, and where a file is changed and changed back between two checks
    (libs/usd-asset-local/README.md, Known limitations); theorems that need it
    have it as a hypothesis. *)
Definition identity_tells (OS : Type) `{PlatformLaws OS} : Prop := forall t1 t2 t3 fd,
  os_le t1 t2 -> os_le t2 t3 -> identity_at t1 fd = identity_at t3 fd -> file_at t2 fd = file_at t1 fd.

(** ** POSIX *)

(** The errors [MapErrno] tells apart. *)
Inductive errno : Type :=
| ENOENT | ENOTDIR | ENAMETOOLONG | EACCES | EPERM | EISDIR | EINTR | Eother (code : Z).

Section errors.
(** The numbers of the named errors are the platform's. *)
Context (errno_code : errno -> Z).

Definition MapErrno (error : errno) (p : str) : Status :=
  match error with
  | ENOENT | ENOTDIR | ENAMETOOLONG => Status_Error NotFound (WithPath "no such asset" p)
  | EACCES | EPERM => Status_Error AccessDenied (WithPath "asset is not readable by this process" p)
  | EISDIR => Status_Error InvalidArgument (WithPath "asset identifier names a directory" p)
  | _ => WithTransportStatus (Status_Error NetworkError (WithPath "filesystem error opening asset" p))
           (errno_code error)
  end.
End errors.

(** The fields of [struct stat] the source reads. *)
Record stat : Type := mkStat {
  st_size : Z;
  st_dev : Z;
  st_ino : Z;
  st_mtim_sec : Z;
  st_mtim_nsec : Z;
  st_isdir : bool }.

(** The system calls: a result or an [errno], and the system after the call.
    [sys_clock] is the monotonic clock, in nanoseconds. *)
Class Posix (OS : Type) : Type := {
  sys_open : OS -> str -> (errno + Z) * OS;
  sys_fstat : OS -> Z -> (errno + stat) * OS;
  sys_pread : OS -> Z -> Z -> Z -> (errno + bytes) * OS;
  sys_close : OS -> Z -> OS;
  sys_clock : OS -> Z;
  errno_code : errno -> Z }.

Section platform.
Context {OS : Type} `{Posix OS}.

(** How often a call may be interrupted before the model gives up on it: the
    loops [do ... while (errno == EINTR)] of the source have no bound. *)
Context (interrupts : nat).

Fixpoint open_loop (n : nat) (p : str) (os : OS) : (errno + Z) * OS :=
  match sys_open os p with
  | (inl EINTR, os') => match n with O => (inl EINTR, os') | S n' => open_loop n' p os' end
  | r => r
  end.

Definition OpenForRead (p : str) (os : OS) : (Status + Z) * OS :=
  match open_loop interrupts p os with
  | (inl e, os) => (inl (MapErrno errno_code e p), os)
  | (inr fd, os) =>
      match sys_fstat os fd with
      | (inr info, os) =>
          if st_isdir info
          then (inl (Status_Error InvalidArgument (WithPath "asset identifier names a directory" p)),
                sys_close os fd)
          else (inr fd, os)
      | (inl _, os) => (inr fd, os)
      end
  end.

Definition Close (handle : Z) (os : OS) : OS := if 0 <=? handle then sys_close os handle else os.

Definition identity_of (info : stat) : FileIdentity :=
  mkFileIdentity (u64 (st_size info)) (u64 (st_dev info)) (u64 (st_ino info))
    (u64 (u64 (u64 (st_mtim_sec info) * 1000000000) + u64 (st_mtim_nsec info))).

Definition Stat (handle : Z) (os : OS) : (Status + FileIdentity) * OS :=
  match sys_fstat os handle with
  | (inl e, os) =>
      (inl (WithTransportStatus (Status_Error NetworkError (lit "filesystem error reading asset metadata"))
              (errno_code e)), os)
  | (inr info, os) => (inr (identity_of info), os)
  end.

Fixpoint pread_loop (n : nat) (handle size offset : Z) (os : OS) : (errno + bytes) * OS :=
  match sys_pread os handle size offset with
  | (inl EINTR, os') =>
      match n with O => (inl EINTR, os') | S n' => pread_loop n' handle size offset os' end
  | r => r
  end.

(** The status, and the bytes delivered at the front of the destination. *)
Definition PositionalRead (handle size offset : Z) (os : OS) : Status * bytes * OS :=
  match pread_loop interrupts handle size offset os with
  | (inl e, os) =>
      (WithTransportStatus
         (WithRange (Status_Error NetworkError (lit "filesystem error reading asset")) offset size)
         (errno_code e), [], os)
  | (inr data, os) => (Status_Ok, data, os)
  end.

Definition Posix_platform : Platform OS := {|
  pf_OpenForRead := OpenForRead;
  pf_Close := Close;
  pf_Stat := Stat;
  pf_PositionalRead := PositionalRead;
  pf_clock := sys_clock |}.
End platform.

(** What POSIX says of the calls: [px_le] orders the moments of the system. *)
Class PosixLaws (OS : Type) `{Posix OS} : Type := {
  px_le : OS -> OS -> Prop;
  px_file : OS -> Z -> bytes;
  px_stat : OS -> Z -> stat;
  px_law_order : PreOrder px_le;
  px_law_open_le : forall os p, px_le os (snd (sys_open os p));
  px_law_fstat : forall os fd, px_le os (snd (sys_fstat os fd)) /\
    forall info, fst (sys_fstat os fd) = inr info ->
      exists t, px_le os t /\ px_le t (snd (sys_fstat os fd)) /\ info = px_stat t fd;
  px_law_pread : forall os fd n off, 0 <= n -> px_le os (snd (sys_pread os fd n off)) /\
    forall data, fst (sys_pread os fd n off) = inr data -> zlen data <= n /\
      forall j b, data !! j = Some b ->
        exists t, px_le os t /\ px_le t (snd (sys_pread os fd n off)) /\
          px_file t fd !! (Z.to_nat off + j)%nat = Some b;
  px_law_stat_size : forall t fd, st_size (px_stat t fd) = zlen (px_file t fd) /\
    is_u64 (zlen (px_file t fd)) }.

#[export] Existing Instance px_law_order.

Section posix_laws.
Context {OS : Type} `{PosixLaws OS} (interrupts : nat).

Lemma open_loop_spec n p os : px_le os (snd (open_loop n p os)).
Proof.
  revert os. induction n as [|n IH]; intros os; cbn [open_loop]; pose proof (px_law_open_le os p) as Hl;
    destruct (sys_open os p) as [[e|fd] os']; cbn [snd] in *; try done; destruct e; try done.
  by etransitivity.
Qed.

Lemma OpenForRead_spec p os :
  match OpenForRead interrupts p os with
  | (inl st, _) => IsOk st = false
  | (inr _, os') => px_le os os'
  end.
Proof.
  unfold OpenForRead. pose proof (open_loop_spec interrupts p os) as Hl.
  destruct (open_loop interrupts p os) as [[e|fd] os1]; cbn [snd] in Hl; [by destruct e|].
  pose proof (px_law_fstat os1 fd) as [Hf _]. destruct (sys_fstat os1 fd) as [[e|info] os2]; cbn [snd] in Hf.
  - by etransitivity.
  - destruct (st_isdir info); [done|]. by etransitivity.
Qed.

Lemma Stat_spec fd os :
  px_le os (snd (Stat fd os)) /\
  match fst (Stat fd os) with
  | inl st => IsOk st = false
  | inr identity => exists t, px_le os t /\ px_le t (snd (Stat fd os)) /\ identity = identity_of (px_stat t fd)
  end.
Proof.
  destruct (px_law_fstat os fd) as [Hle Ht]. unfold Stat. destruct (sys_fstat os fd) as [[e|info] os']; cbn [fst snd] in *.
  - done.
  - split; [done|]. destruct (Ht info eq_refl) as (t & T1 & T2 & ->). by exists t.
Qed.

Lemma pread_loop_spec n fd size off os :
  0 <= size -> let '(res, os') := pread_loop n fd size off os in
  px_le os os' /\ forall data, res = inr data -> zlen data <= size /\
    forall j b, data !! j = Some b -> exists t, px_le os t /\ px_le t os' /\ px_file t fd !! (Z.to_nat off + j)%nat = Some b.
Proof.
  intros Hsz. revert os. induction n as [|n IH]; intros os; cbn [pread_loop];
    pose proof (px_law_pread os fd size off Hsz) as [Hle Hd];
    destruct (sys_pread os fd size off) as [[e|data] os'] eqn:E; cbn [fst snd] in *.
  - destruct e; by split.
  - split; [done|]. intros d [= <-]. by apply Hd.
  - destruct e; try by split. specialize (IH os'). destruct (pread_loop n fd size off os') as [res os2].
    destruct IH as [Hle2 Hd2]. split; [by etransitivity|]. intros d ->. destruct (Hd2 d eq_refl) as [Hl Hs].
    split; [done|]. intros j b Hj. destruct (Hs j b Hj) as (t & T1 & T2 & T3). exists t. split_and!; [by etransitivity|done|done].
  - split; [done|]. intros d [= <-]. by apply Hd.
Qed.

Definition Posix_laws : @PlatformLaws OS (Posix_platform interrupts).
Proof.
  refine (@Build_PlatformLaws OS (Posix_platform interrupts) px_le px_file (fun t fd => identity_of (px_stat t fd)) _ _ _ _ _).
  - intros p os. apply OpenForRead_spec.
  - intros fd os. apply Stat_spec.
  - intros fd n off os Hn _. cbn. unfold PositionalRead. pose proof (pread_loop_spec interrupts fd n off os Hn) as Hp.
    destruct (pread_loop interrupts fd n off os) as [[e|data] os']; destruct Hp as [Hle Hd].
    + split_and!; [done|done|]. by intros j b Hj.
    + destruct (Hd data eq_refl). done.
  - intros t fd. destruct (px_law_stat_size t fd) as [Es Hu]. cbn. by rewrite Es, u64_small.
Defined.
End posix_laws.

(** ** Windows *)

(** The last errors the source tells apart; the numbers are Win32's. *)
Definition ERROR_FILE_NOT_FOUND : Z := 2.
Definition ERROR_PATH_NOT_FOUND : Z := 3.
Definition ERROR_ACCESS_DENIED : Z := 5.
Definition ERROR_SHARING_VIOLATION : Z := 32.
Definition ERROR_HANDLE_EOF : Z := 38.
Definition ERROR_BAD_NETPATH : Z := 53.
Definition ERROR_INVALID_NAME : Z := 123.
Definition ERROR_BAD_PATHNAME : Z := 161.
Definition FILE_ATTRIBUTE_DIRECTORY : Z := 0x10.

(** The fields of [BY_HANDLE_FILE_INFORMATION] the source reads, each a [DWORD]. *)
Record FileInformation : Type := mkFileInformation {
  nFileSizeHigh : Z;
  nFileSizeLow : Z;
  dwVolumeSerialNumber : Z;
  nFileIndexHigh : Z;
  nFileIndexLow : Z;
  ftLastWriteTimeHigh : Z;
  ftLastWriteTimeLow : Z }.

(** The calls: a result or the last error, and the system after the call.
    [win_MultiByteToWideChar] gives nothing where the call fails, and
    [win_GetFileAttributesW] [None] for [INVALID_FILE_ATTRIBUTES]. *)
Class Win32 (OS : Type) : Type := {
  win_MultiByteToWideChar : OS -> str -> list Z;
  win_GetFileAttributesW : OS -> list Z -> option Z * OS;
  win_CreateFileW : OS -> list Z -> (Z + Z) * OS;
  win_GetFileInformationByHandle : OS -> Z -> (Z + FileInformation) * OS;
  win_ReadFile : OS -> Z -> Z -> Z -> Z -> (Z + bytes) * OS;
  win_CloseHandle : OS -> Z -> OS;
  win_clock : OS -> Z }.

Section windows.
Context {OS : Type} `{Win32 OS}.

Definition WidenUtf8 (text : str) (os : OS) : list Z :=
  if bool_decide (text = []) then [] else win_MultiByteToWideChar os text.

Definition MapOpenError (error : Z) (p : str) (os : OS) : Status * OS :=
  if (error =? ERROR_FILE_NOT_FOUND) || (error =? ERROR_PATH_NOT_FOUND) || (error =? ERROR_INVALID_NAME) ||
     (error =? ERROR_BAD_NETPATH) || (error =? ERROR_BAD_PATHNAME)
  then (Status_Error NotFound (WithPath "no such asset" p), os)
  else if (error =? ERROR_ACCESS_DENIED) || (error =? ERROR_SHARING_VIOLATION) then
    let '(attributes, os) := win_GetFileAttributesW os (WidenUtf8 p os) in
    let directory := match attributes with
                     | Some attributes => negb (Z.land attributes FILE_ATTRIBUTE_DIRECTORY =? 0)
                     | None => false
                     end in
    (if directory then Status_Error InvalidArgument (WithPath "asset identifier names a directory" p)
     else Status_Error AccessDenied (WithPath "asset is not readable by this process" p), os)
  else
    (WithTransportStatus (Status_Error NetworkError (WithPath "filesystem error opening asset" p)) (i32 error), os).

(** [INVALID_HANDLE_VALUE] is -1. *)
Definition Win_IsValidHandle (handle : Z) : bool := negb (handle =? -1) && negb (handle =? 0).

Definition Win_OpenForRead (p : str) (os : OS) : (Status + Z) * OS :=
  let wide := WidenUtf8 p os in
  if bool_decide (wide = []) && negb (bool_decide (p = [])) then
    (inl (Status_Error InvalidArgument (WithPath "asset identifier is not valid UTF-8" p)), os)
  else
    match win_CreateFileW os wide with
    | (inl error, os) => let '(status, os) := MapOpenError error p os in (inl status, os)
    | (inr handle, os) => (inr handle, os)
    end.

Definition Win_Close (handle : Z) (os : OS) : OS :=
  if Win_IsValidHandle handle then win_CloseHandle os handle else os.

(** Two [DWORD]s of a [std::uint64_t]. *)
Definition dwords (high low : Z) : Z := Z.lor (u64 (Z.shiftl high 32)) low.

Definition identity_of_information (info : FileInformation) : FileIdentity :=
  mkFileIdentity (dwords (nFileSizeHigh info) (nFileSizeLow info)) (dwVolumeSerialNumber info)
    (dwords (nFileIndexHigh info) (nFileIndexLow info))
    (dwords (ftLastWriteTimeHigh info) (ftLastWriteTimeLow info)).

Definition Win_Stat (handle : Z) (os : OS) : (Status + FileIdentity) * OS :=
  match win_GetFileInformationByHandle os handle with
  | (inl error, os) =>
      (inl (WithTransportStatus (Status_Error NetworkError (lit "filesystem error reading asset metadata"))
              (i32 error)), os)
  | (inr info, os) => (inr (identity_of_information info), os)
  end.

Definition Win_PositionalRead (handle size offset : Z) (os : OS) : Status * bytes * OS :=
  let chunk := u32 (Z.min size (Z.shiftl 1 30)) in
  match win_ReadFile os handle chunk (u32 (Z.land offset 0xFFFFFFFF)) (u32 (Z.shiftr offset 32)) with
  | (inl error, os) =>
      if error =? ERROR_HANDLE_EOF then (Status_Ok, [], os)
      else
        (WithTransportStatus
           (WithRange (Status_Error NetworkError (lit "filesystem error reading asset")) offset size)
           (i32 error), [], os)
  | (inr data, os) => (Status_Ok, data, os)
  end.

Definition Win32_platform : Platform OS := {|
  pf_OpenForRead := Win_OpenForRead;
  pf_Close := Win_Close;
  pf_Stat := Win_Stat;
  pf_PositionalRead := Win_PositionalRead;
  pf_clock := win_clock |}.
End windows.

(** What Win32 says of the calls; [ReadFile] reads at the offset its two halves
    make. *)
Class Win32Laws (OS : Type) `{Win32 OS} : Type := {
  wn_le : OS -> OS -> Prop;
  wn_file : OS -> Z -> bytes;
  wn_info : OS -> Z -> FileInformation;
  wn_law_order : PreOrder wn_le;
  wn_law_create : forall os wide, wn_le os (snd (win_CreateFileW os wide));
  wn_law_info : forall os h, wn_le os (snd (win_GetFileInformationByHandle os h)) /\
    forall info, fst (win_GetFileInformationByHandle os h) = inr info ->
      exists t, wn_le os t /\ wn_le t (snd (win_GetFileInformationByHandle os h)) /\ info = wn_info t h;
  wn_law_read : forall os h n low high, 0 <= n < 2 ^ 32 -> 0 <= low < 2 ^ 32 -> 0 <= high < 2 ^ 32 ->
    wn_le os (snd (win_ReadFile os h n low high)) /\
    forall data, fst (win_ReadFile os h n low high) = inr data -> zlen data <= n /\
      forall j b, data !! j = Some b ->
        exists t, wn_le os t /\ wn_le t (snd (win_ReadFile os h n low high)) /\
          wn_file t h !! (Z.to_nat (high * 2 ^ 32 + low) + j)%nat = Some b;
  wn_law_size : forall t h, let info := wn_info t h in
    0 <= nFileSizeHigh info < 2 ^ 32 /\ 0 <= nFileSizeLow info < 2 ^ 32 /\
    nFileSizeHigh info * 2 ^ 32 + nFileSizeLow info = zlen (wn_file t h) }.

#[export] Existing Instance wn_law_order.

Lemma dwords_value high low : 0 <= high < 2 ^ 32 -> 0 <= low < 2 ^ 32 -> dwords high low = high * 2 ^ 32 + low.
Proof.
  intros Hh Hl. unfold dwords. rewrite u64_small by (rewrite Z.shiftl_mul_pow2 by lia; unfold is_u64; lia).
  rewrite Z.lor_comm, lor_disjoint by lia. lia.
Qed.

Section windows_laws.
Context {OS : Type} `{Win32Laws OS}.

Lemma MapOpenError_fails error p (os : OS) : IsOk (fst (MapOpenError error p os)) = false.
Proof.
  unfold MapOpenError. destruct (_ || _ || _ || _ || _); [done|]. destruct (_ || _); [|done].
  destruct (win_GetFileAttributesW _ _) as [attributes os']. cbn [fst]. by destruct (match attributes with Some _ => _ | None => _ end).
Qed.

(** The chunk and the halves of the offset. *)
Lemma read_split size offset :
  0 <= size -> is_u64 offset ->
  let chunk := u32 (Z.min size (Z.shiftl 1 30)) in
  let low := u32 (Z.land offset 0xFFFFFFFF) in
  let high := u32 (Z.shiftr offset 32) in
  0 <= chunk < 2 ^ 32 /\ chunk <= size /\ 0 <= low < 2 ^ 32 /\ 0 <= high < 2 ^ 32 /\ high * 2 ^ 32 + low = offset.
Proof.
  intros Hs Ho chunk low high. unfold is_u64 in Ho. unfold chunk, low, high, u32.
  change (Z.shiftl 1 30) with (2 ^ 30). change 0xFFFFFFFF with (Z.ones 32).
  rewrite Z.land_ones, Z.shiftr_div_pow2 by lia. rewrite Z.mod_mod by lia.
  assert (0 <= offset / 2 ^ 32 < 2 ^ 32) as Hd.
  { split; [apply Z.div_pos; lia|]. apply Z.div_lt_upper_bound; lia. }
  rewrite (Z.mod_small (offset / 2 ^ 32)) by lia. rewrite (Z.mod_small (Z.min _ _)) by lia.
  pose proof (Z.mod_pos_bound offset (2 ^ 32) ltac:(lia)). pose proof (Z.div_mod offset (2 ^ 32) ltac:(lia)).
  split_and!; lia.
Qed.

Definition Win32_laws : @PlatformLaws OS Win32_platform.
Proof.
  refine (@Build_PlatformLaws OS Win32_platform wn_le wn_file (fun t h => identity_of_information (wn_info t h)) _ _ _ _ _).
  - intros p os. cbn. unfold Win_OpenForRead. destruct (_ && _); [done|].
    pose proof (wn_law_create os (WidenUtf8 p os)) as Hl. destruct (win_CreateFileW os _) as [[error|h] os']; [|done].
    pose proof (MapOpenError_fails error p os') as Hf. by destruct (MapOpenError error p os').
  - intros h os. cbn. destruct (wn_law_info os h) as [Hle Ht]. unfold Win_Stat.
    destruct (win_GetFileInformationByHandle os h) as [[error|info] os']; cbn [fst snd] in *; [done|].
    split; [done|]. destruct (Ht info eq_refl) as (t & T1 & T2 & ->). by exists t.
  - intros h n off os Hn Ho. cbn. destruct (read_split n off Hn Ho) as (S1 & S2 & S3 & S4 & S5). unfold Win_PositionalRead.
    destruct (wn_law_read os h _ _ _ S1 S3 S4) as [Hle Hd]. rewrite S5 in Hd. clear S5.
    destruct (win_ReadFile os h _ _ _) as [[error|data] os']; cbn [fst snd] in *.
    + destruct (error =? ERROR_HANDLE_EOF); split_and!; try done; by intros j b Hj.
    + destruct (Hd data eq_refl) as [Hz Hb]. split_and!; [done|lia|done].
  - intros t h. destruct (wn_law_size t h) as (Hh & Hl & Hz). cbn. rewrite dwords_value by done. unfold is_u64. split; [done|]. lia.
Defined.
End windows_laws.
