(* ===== verification/LocalReader.v ===== *)
(** * LocalReader: the backend over an open file

    libs/usd-asset-local: src/LocalAssetReader.cpp, over the interface of
    [PlatformFile]. *)

From S2P Require Import Prelude Diagnostics Validator RangeMath AssetReader Metrics PlatformFile.

Section local.
Context {OS : Type} `{Platform OS}.

(** ** The reader *)

(** [LocalAssetReader::Impl], with the system it calls. *)
Record LocalAssetReader : Type := mkLocal {
  lr_handle : Z;
  lr_metadata : AssetMetadata;
  lr_openIdentity : FileIdentity;
  lr_fault : option (Z -> Z -> Z);
  lr_metrics : ReaderMetrics;
  lr_os : OS }.

Definition with_os (os : OS) (r : LocalAssetReader) : LocalAssetReader :=
  mkLocal (lr_handle r) (lr_metadata r) (lr_openIdentity r) (lr_fault r) (lr_metrics r) os.

Definition with_metrics (f : ReaderMetrics -> ReaderMetrics) (r : LocalAssetReader) : LocalAssetReader :=
  mkLocal (lr_handle r) (lr_metadata r) (lr_openIdentity r) (lr_fault r) (f (lr_metrics r)) (lr_os r).

(** The transfer loop.  A turn that goes on has delivered a byte, so the length
    of the range is fuel enough. *)
Fixpoint transfer_loop (fuel : nat) (length offset done : Z) (out : bytes) (r : LocalAssetReader)
    : Status * Z * bytes * LocalAssetReader :=
  match fuel with
  | O => (Status_Ok, done, out, r)
  | S fuel' =>
      if negb (done <? length) then (Status_Ok, done, out, r)
      else
        let want := u64 (length - done) in
        let want := match lr_fault r with
                    | Some fault => Z.min want (fault (u64 (offset + done)) want)
                    | None => want
                    end in
        if want =? 0 then (Status_Ok, done, out, r)
        else
          let start := pf_clock (lr_os r) in
          let r := with_metrics (AddRequest 1) r in
          let '(transport, data, os) := pf_PositionalRead (lr_handle r) want (u64 (offset + done)) (lr_os r) in
          let r := with_metrics (on_requestLatency (ScopedLatency_end start (pf_clock os))) (with_os os r) in
          let r := with_metrics (AddBytesTransferred (zlen data)) r in
          let out := write_at out done data in
          let done := u64 (done + zlen data) in
          if negb (IsOk transport) then (transport, done, out, r)
          else if zlen data =? 0 then (transport, done, out, r)
          else transfer_loop fuel' length offset done out r
  end.

Definition changed_status (r : LocalAssetReader) (offset size : Z) : Status :=
  WithRange
    (Status_Error AssetChanged
       (lit "asset was republished while it was open (" ++
        ElideSecrets (am_resolvedIdentifier (lr_metadata r)) ++ lit ")"))
    offset size.

(** [Read] without its latency timer. *)
Definition Local_Read_untimed (r : LocalAssetReader) (offset : Z) (dst : option bytes) (size : Z)
    : ReadResult * option bytes * LocalAssetReader :=
  let r := with_metrics (AddBytesRequested size) r in
  let range := ResolveReadRange offset size (am_size (lr_metadata r)) in
  if bool_decide (rr_outcome range = Overflow)
  then (mkReadResult 0 (OverflowStatus offset size), dst, r)
  else
    match dst with
    | None =>
        if 0 <? size
        then (mkReadResult 0
                (WithRange (Status_Error InvalidArgument (lit "read destination buffer is null"))
                   offset size), dst, r)
        else (mkReadResult 0 Status_Ok, dst, r)
    | Some out =>
        if bool_decide (rr_outcome range = Empty) then (mkReadResult 0 Status_Ok, dst, r)
        else
          let '(transport, done, out, r) :=
            transfer_loop (Z.to_nat (rr_length range)) (rr_length range) offset 0 out r in
          let '(current, os) := pf_Stat (lr_handle r) (lr_os r) in
          let r := with_metrics (AddMetadataRequest 1) (with_os os r) in
          let changed := match current with
                         | inr current => negb (FileIdentity_eqb current (lr_openIdentity r))
                         | inl _ => false
                         end in
          if changed then (mkReadResult 0 (changed_status r offset size), Some out, r)
          else if negb (IsOk transport) then (mkReadResult done transport, Some out, r)
          else if done <? rr_length range
          then (mkReadResult done
                  (ShortReadStatus offset (rr_length range) done
                     (am_resolvedIdentifier (lr_metadata r))), Some out, r)
          else (mkReadResult done Status_Ok, Some out, r)
    end.

Definition Local_Read (r : LocalAssetReader) (offset : Z) (dst : option bytes) (size : Z)
    : ReadResult * option bytes * LocalAssetReader :=
  let start := pf_clock (lr_os r) in
  let '(res, dst, r) := Local_Read_untimed r offset dst size in
  (res, dst, with_metrics (on_readLatency (ScopedLatency_end start (pf_clock (lr_os r)))) r).

#[export] Instance Local_AssetReader : AssetReader LocalAssetReader := {
  Metadata := lr_metadata;
  Read := Local_Read }.

(** [LocalReaderFactory::Open]. *)
Definition Local_Open (p : str) (fault : option (Z -> Z -> Z)) (os : OS)
    : OpenResult LocalAssetReader * OS :=
  let started := pf_clock os in
  match pf_OpenForRead p os with
  | (inl status, os) => (mkOpenResult None status, os)
  | (inr handle, os) =>
      match pf_Stat handle os with
      | (inl status, os) => (mkOpenResult None status, pf_Close handle os)
      | (inr ident, os) =>
          let validator := mkValidator (FormatIdentity ident) Derived Strong in
          let metadata := mkAssetMetadata p (fi_size ident) true validator (ClassifyStability validator) [] in
          let metrics := SetAssetSize (am_size metadata) (ReaderMetrics_new p) in
          let metrics := AddMetadataRequest 1 metrics in
          let metrics := on_openLatency (Record_ (u64 ((pf_clock os - started) / 1000))) metrics in
          (mkOpenResult (Some (mkLocal handle metadata ident fault metrics os)) Status_Ok, os)
      end
  end.

(** The destructor. *)
Definition Local_close (r : LocalAssetReader) : OS := pf_Close (lr_handle r) (lr_os r).
End local.

Section reader.
Context {OS : Type} `{PlatformLaws OS}.
Implicit Types (os t : OS) (r : LocalAssetReader (OS := OS)).

(** The revision check can be made: [Stat] answers on an open handle. *)
Definition stat_reliable : Prop := forall os fd, exists identity, fst (pf_Stat fd os) = inr identity.

(** The reader is bound to a moment of its file, which is the asset. *)
Record local_inv (A : bytes) r : Prop := {
  lv_bound : exists t, os_le t (lr_os r) /\ file_at t (lr_handle r) = A /\
    identity_at t (lr_handle r) = lr_openIdentity r;
  lv_size : am_size (lr_metadata r) = zlen A;
  lv_fault : forall fault, lr_fault r = Some fault -> forall o n, 0 <= fault o n }.

(** What no call changes. *)
Definition same_reader r r' : Prop :=
  lr_handle r' = lr_handle r /\ lr_metadata r' = lr_metadata r /\
  lr_openIdentity r' = lr_openIdentity r /\ lr_fault r' = lr_fault r /\ os_le (lr_os r) (lr_os r').

#[export] Instance same_reader_preorder : PreOrder same_reader.
Proof.
  split; [intros r; by split_and!|]. intros r1 r2 r3 (A1 & A2 & A3 & A4 & A5) (B1 & B2 & B3 & B4 & B5).
  split_and!; try congruence. by etransitivity.
Qed.

Lemma same_reader_inv A r r' : same_reader r r' -> local_inv A r -> local_inv A r'.
Proof.
  intros (E1 & E2 & E3 & E4 & E5) [(t & H1 & H2 & H3) H4 H5].
  split; rewrite ?E1, ?E2, ?E3, ?E4; try done. exists t. split_and!; try done. by etransitivity.
Qed.

Lemma FileIdentity_eqb_eq a b : FileIdentity_eqb a b = true <-> a = b.
Proof.
  unfold FileIdentity_eqb. rewrite !andb_true_iff, !Z.eqb_eq. destruct a, b; simpl. naive_solver.
Qed.

(** The bytes [data] are the file's bytes at [off], each at a moment between
    [os] and [os']. *)
Definition seen os os' (fd off : Z) (data : bytes) : Prop :=
  forall j b, data !! j = Some b -> exists t, os_le os t /\ os_le t os' /\
    file_at t fd !! (Z.to_nat off + j)%nat = Some b.

Lemma seen_mono os0 os1 os2 os3 fd off data :
  os_le os0 os1 -> os_le os2 os3 -> seen os1 os2 fd off data -> seen os0 os3 fd off data.
Proof.
  intros H1 H2 Hs j b Hj. destruct (Hs j b Hj) as (t & T1 & T2 & T3).
  exists t. split_and!; [by etransitivity..|done].
Qed.

(** The front of the buffer holds bytes of the file, and the rest is as it was. *)
Definition filled os os' (fd offset : Z) (done : Z) (out : bytes) : Prop :=
  seen os os' fd offset (take (Z.to_nat done) out).

Lemma filled_write os os1 os2 fd offset got out data :
  0 <= offset -> 0 <= got -> got + zlen data <= zlen out -> os_le os os1 -> os_le os1 os2 ->
  filled os os1 fd offset got out -> seen os1 os2 fd (offset + got) data ->
  filled os os2 fd offset (got + zlen data) (write_at out got data).
Proof.
  intros Ho Hd Hl L1 L2 Hf Hs j b Hj. pose proof (zlen_nonneg data).
  rewrite lookup_take in Hj. case_decide as Hlt; [|done].
  rewrite lookup_write_at in Hj by done. case_bool_decide as Hin.
  - destruct (Hs _ _ Hj) as (t & T1 & T2 & T3). exists t. split_and!; [by etransitivity|done|].
    rewrite <-T3. f_equal. unfold zlen in *. lia.
  - unfold zlen in *. destruct (Hf j b) as (t & T1 & T2 & T3).
    + rewrite lookup_take. rewrite decide_True by lia. done.
    + exists t. split_and!; [done|by etransitivity|done].
Qed.

(** The loop: what it delivered it read from the file since it began, and it
    stops short only on a failure, on an injected stall or at the file's end. *)
Lemma transfer_loop_spec fuel length offset got out r os0 :
  is_u64 offset -> 0 <= got <= length -> offset + length < 2 ^ 64 -> length <= zlen out ->
  (forall fault, lr_fault r = Some fault -> forall o n, 0 <= fault o n) ->
  length - got <= Z.of_nat fuel ->
  os_le os0 (lr_os r) -> filled os0 (lr_os r) (lr_handle r) offset got out ->
  let '(st, got', out', r') := transfer_loop fuel length offset got out r in
  got <= got' <= length /\ List.length out' = List.length out /\ same_reader r r' /\
  filled os0 (lr_os r') (lr_handle r') offset got' out'.
Proof.
  intros Ho. revert got out r.
  induction fuel as [|fuel IH]; intros got out r Hd Hlen Hout Hf Hfuel Hle Hfill; cbn [transfer_loop];
    [split_and!; [lia|lia|done|reflexivity|done]|].
  destruct (Z.ltb_spec got length) as [Hlt|Hge]; cbn [negb]; [|split_and!; [lia|lia|done|reflexivity|done]].
  unfold is_u64 in Ho. rewrite (u64_small (length - got)), (u64_small (offset + got)) by (unfold is_u64; lia).
  set (want := match lr_fault r with Some fault => _ | None => _ end).
  assert (0 <= want <= length - got) as Hw.
  { unfold want. destruct (lr_fault r) as [fault|] eqn:Ef; [specialize (Hf _ eq_refl (offset + got) (length - got))|]; lia. }
  destruct (Z.eqb_spec want 0); [split_and!; [lia|lia|done|reflexivity|done]|].
  cbn [with_metrics lr_handle lr_os].
  pose proof (law_read (lr_handle r) want (offset + got) (lr_os r) ltac:(lia) ltac:(unfold is_u64; lia)) as Hp.
  destruct (pf_PositionalRead (lr_handle r) want (offset + got) (lr_os r)) as [[st data] os'].
  destruct Hp as (P1 & P2 & P3). cbn [with_os with_metrics lr_handle lr_os lr_metadata lr_openIdentity lr_fault lr_metrics].
  pose proof (zlen_nonneg data). rewrite u64_small by (unfold is_u64; lia).
  assert (List.length (write_at out got data) = List.length out) as Hwl by (apply length_write_at; lia).
  assert (filled os0 os' (lr_handle r) offset (got + zlen data) (write_at out got data)) as Hfill'
    by (apply (filled_write _ (lr_os r)); done || lia).
  set (r1 := with_metrics (AddBytesTransferred (zlen data)) _).
  assert (same_reader r r1) as Hs by by split_and!.
  destruct (negb (IsOk st)); [split_and!; [lia|lia|done|exact Hs|done]|].
  destruct (Z.eqb_spec (zlen data) 0); [split_and!; [lia|lia|done|exact Hs|done]|].
  specialize (IH (got + zlen data) (write_at out got data) r1).
  destruct (transfer_loop _ _ _ _ _ r1) as [[[st' got'] out'] r'].
  destruct IH as (I1 & I2 & I3 & I4); try done; try lia.
  - unfold zlen in *. lia.
  - by etransitivity.
  - split_and!; [lia|lia|congruence| |done]. by etransitivity.
Qed.

(** The final check: the file did not change while the bytes were read. *)
Lemma filled_asset os0 t os' fd offset n out A :
  identity_tells OS -> os_le t os0 -> file_at t fd = A ->
  identity_at t fd = identity_at os' fd ->
  0 <= offset -> 0 <= n -> n <= zlen out -> offset + n <= zlen A ->
  filled os0 os' fd offset n out -> take (Z.to_nat n) out = slice A offset n.
Proof.
  intros Htell H1 HA Hi Ho Hn Hout Hfit Hf. unfold zlen in *.
  apply list_eq_slice; [lia|lia|unfold zlen; lia|rewrite length_take; lia|]. intros j Hj.
  destruct (lookup_lt_is_Some_2 (take (Z.to_nat n) out) j) as [b Hb]; [rewrite length_take; lia|].
  destruct (Hf j b Hb) as (t' & T1 & T2 & T3). rewrite Hb, <-T3. f_equal. rewrite <-HA.
  apply (Htell t t' os'); [by etransitivity|done|done].
Qed.

Lemma Stat_reliable fd os :
  stat_reliable -> exists t, os_le os t /\ os_le t (snd (pf_Stat fd os)) /\ fst (pf_Stat fd os) = inr (identity_at t fd).
Proof.
  intros Hr. destruct (Hr os fd) as [identity Hi]. destruct (law_stat fd os) as [_ Ht]. rewrite Hi in Ht.
  destruct Ht as (t & T1 & T2 & ->). by exists t.
Qed.

Lemma filled_later os0 os1 os2 fd offset n out :
  os_le os1 os2 -> filled os0 os1 fd offset n out -> filled os0 os2 fd offset n out.
Proof. intros Hl Hf. by apply (seen_mono os0 os0 os1 os2). Qed.

(** What a read promises whatever other processes do to the file: the buffer keeps
    its length, an overflow is refused, and a success delivers all the bytes of the
    range that the asset has, each of them one the file had at that place at some
    moment of the call, followed by a moment at which the file had the identity of
    the open. *)
Record read_seen r r' (offset size : Z) (dst : bytes) (res : ReadResult) (d : bytes) : Prop := {
  sn_length : length d = length dst;
  sn_count : 0 <= rr_bytesRead res <= size;
  sn_overflow : 2 ^ 64 <= offset + size ->
    st_code (rr_status res) = InvalidArgument /\ rr_bytesRead res = 0 /\ d = dst;
  sn_ok : IsOk (rr_status res) = true ->
    rr_bytesRead res = available offset size (am_size (lr_metadata r)) /\
    exists t, os_le (lr_os r) t /\ os_le t (lr_os r') /\
      seen (lr_os r) t (lr_handle r) offset (take (Z.to_nat (rr_bytesRead res)) d) /\
      (0 < rr_bytesRead res -> identity_at t (lr_handle r) = lr_openIdentity r) }.

Lemma seen_nothing r r' offset size dst res :
  0 <= size -> offset + size < 2 ^ 64 -> available offset size (am_size (lr_metadata r)) = 0 -> os_le (lr_os r) (lr_os r') ->
  rr_bytesRead res = 0 -> read_seen r r' offset size dst res dst.
Proof.
  intros Hs Ho Ha Hle E. split; rewrite ?E; [done|lia|lia|]. intros _. split; [done|].
  exists (lr_os r). split_and!; [reflexivity|done|by intros j b Hj|lia].
Qed.

Lemma seen_failed r r' offset size dst res d :
  length d = length dst -> 0 <= rr_bytesRead res <= size -> offset + size < 2 ^ 64 -> IsOk (rr_status res) = false ->
  read_seen r r' offset size dst res d.
Proof. intros Hl Hc Ho Hf. split; [done|done|lia|congruence]. Qed.

Lemma Local_Read_seen r offset dst size :
  stat_reliable -> (forall fault, lr_fault r = Some fault -> forall o n, 0 <= fault o n) ->
  is_u64 (am_size (lr_metadata r)) -> is_u64 offset -> is_u64 size -> zlen dst = size ->
  let '(res, dst', r') := Local_Read r offset (Some dst) size in
  same_reader r r' /\ exists d, dst' = Some d /\ read_seen r r' offset size dst res d.
Proof.
  intros Hrel Hf HA Ho Hs Hdst. unfold Local_Read, Local_Read_untimed. cbn [with_metrics lr_metadata].
  destruct (ResolveReadRange_cases offset size (am_size (lr_metadata r)) Ho Hs HA) as [_ Hcase].
  set (range := ResolveReadRange offset size (am_size (lr_metadata r))) in *. unfold is_u64 in Ho, Hs.
  destruct Hcase as [(Hov & -> & _)|[(Hov & Ha & -> & _)|(Hov & Ha & -> & -> & Hin)]].
  - rewrite bool_decide_true by done. split; [by split_and!|]. exists dst. split; [done|]. split; simpl; done || lia.
  - rewrite bool_decide_false, bool_decide_true by done. split; [by split_and!|]. exists dst. split; [done|].
    apply seen_nothing; [lia|done|done|reflexivity|done].
  - rewrite !bool_decide_false by done. set (len := available offset size (am_size (lr_metadata r))) in *.
    pose proof (available_range offset size (am_size (lr_metadata r)) ltac:(lia)) as Hlen. fold len in Hlen.
    set (r0 := with_metrics (AddBytesRequested size) r).
    assert (same_reader r r0) as S0 by by split_and!.
    unfold is_u64 in HA. pose proof (transfer_loop_spec (Z.to_nat len) len offset 0 dst r0 (lr_os r0)) as Hl.
    destruct (transfer_loop _ _ _ _ _ r0) as [[[st n] out] r1].
    destruct Hl as (L1 & L2 & L3 & L4); [done|lia|lia|lia|done|lia|reflexivity|by intros j b Hj|].
    destruct (Stat_reliable (lr_handle r1) (lr_os r1) Hrel) as (t & T1 & T2 & T3).
    destruct (pf_Stat (lr_handle r1) (lr_os r1)) as [cur os2]. cbn [fst snd] in *. subst cur.
    cbn [with_os with_metrics lr_handle lr_os lr_metadata lr_openIdentity lr_fault lr_metrics].
    assert (same_reader r (mkLocal (lr_handle r1) (lr_metadata r1) (lr_openIdentity r1) (lr_fault r1) (lr_metrics r1) os2)) as S2.
    { etransitivity; [exact S0|]. etransitivity; [exact L3|]. split_and!; try done. by etransitivity. }
    destruct (FileIdentity_eqb _ _) eqn:Ei; cbn [negb];
      [|split; [exact S2|]; exists out; split; [done|]; apply seen_failed; done || simpl; lia].
    apply FileIdentity_eqb_eq in Ei.
    destruct (IsOk st) eqn:Ek; cbn [negb]; [|split; [exact S2|]; exists out; split; [done|]; apply seen_failed; done || simpl; lia].
    destruct (Z.ltb_spec n len); [split; [exact S2|]; exists out; split; [done|]; apply seen_failed; done || simpl; lia|].
    split; [exact S2|]. exists out. split; [done|]. split; simpl; [done|lia|lia|]. intros _. split; [lia|].
    destruct L3 as (E1 & _ & E3 & _ & E5). exists t. cbn [r0 with_metrics lr_os lr_handle lr_openIdentity] in *.
    rewrite E1 in *. split_and!; [by etransitivity|done|by eapply filled_later|]. intros _. by rewrite Ei, E3.
Qed.

(** Every read of a reader whose injected fault, if any, is a length. *)
Definition local_reads : Prop := forall r offset dst size,
  (forall fault, lr_fault r = Some fault -> forall o n, 0 <= fault o n) ->
  is_u64 (am_size (lr_metadata r)) -> is_u64 offset -> is_u64 size -> zlen dst = size ->
  let '(res, dst', r') := Local_Read r offset (Some dst) size in
  same_reader r r' /\ exists d, dst' = Some d /\ read_seen r r' offset size dst res d.

(** Where an unchanged identity means unchanged bytes, those are the asset's. *)
Lemma Local_Read_post A r offset dst size :
  stat_reliable -> identity_tells OS -> local_inv A r -> is_u64 (zlen A) -> is_u64 offset -> is_u64 size -> zlen dst = size ->
  let '(res, dst', r') := Local_Read r offset (Some dst) size in
  same_reader r r' /\ exists d, dst' = Some d /\ read_post A offset size dst res d.
Proof.
  intros Hrel Htell [(t0 & B1 & B2 & B3) Hsz Hf] HA Ho Hs Hdst. rewrite <-Hsz in HA.
  pose proof (Local_Read_seen r offset dst size Hrel Hf HA Ho Hs Hdst) as Hp.
  destruct (Local_Read r offset (Some dst) size) as [[res dst'] r']. destruct Hp as (S1 & d & -> & [P1 P2 P3 P4]).
  split; [done|]. exists d. split; [done|]. rewrite Hsz in P4. split; try done.
  intros Hok. destruct (P4 Hok) as (En & t & T1 & T2 & T3 & T4). split; [done|].
  destruct (decide (rr_bytesRead res = 0)) as [-> |Hne]; [by rewrite slice_zero|].
  assert (0 < rr_bytesRead res) as Hpos by lia.
  apply (filled_asset (lr_os r) t0 t (lr_handle r)); try done; try lia.
  - by rewrite B3, T4.
  - apply Ho.
  - unfold zlen in *. lia.
  - unfold available in En. unfold is_u64 in Ho. lia.
Qed.

Lemma transfer_loop_metadata fuel len offset n out r :
  lr_metadata (snd (transfer_loop fuel len offset n out r)) = lr_metadata r.
Proof.
  revert n out r. induction fuel as [|fuel IH]; intros n out r; [done|]. cbn [transfer_loop].
  destruct (negb _); [done|]. destruct (_ =? 0); [done|].
  destruct (pf_PositionalRead _ _ _ _) as [[st data] os']. destruct (negb _); [done|].
  destruct (_ =? 0); [done|]. by rewrite IH.
Qed.

Lemma Local_Read_metadata r offset dst size :
  lr_metadata (snd (Local_Read r offset dst size)) = lr_metadata r.
Proof.
  unfold Local_Read, Local_Read_untimed. case_bool_decide; [done|]. destruct dst as [out|]; [|by destruct (_ <? _)].
  case_bool_decide; [done|]. set (r0 := with_metrics (AddBytesRequested size) r).
  pose proof (transfer_loop_metadata (Z.to_nat (rr_length (ResolveReadRange offset size (am_size (lr_metadata r0)))))
    (rr_length (ResolveReadRange offset size (am_size (lr_metadata r0)))) offset 0 out r0) as Hm.
  destruct (transfer_loop _ _ _ _ _ _) as [[[st n] out'] r1]. cbn [snd] in Hm.
  destruct (pf_Stat _ _) as [cur os].
  repeat match goal with |- context [if ?b then _ else _] => destruct b end; exact Hm.
Qed.

Lemma Local_ReaderContract A :
  stat_reliable -> identity_tells OS -> is_u64 (zlen A) ->
  @ReaderContract LocalAssetReader Local_AssetReader (local_inv A) A.
Proof.
  intros Hrel Htell HA. split; [by intros r []|done| |].
  - intros r offset dst size Hinv. change (lr_metadata (snd (Local_Read r offset dst size)) = lr_metadata r).
    by apply Local_Read_metadata.
  - intros r offset dst size r' res dst' Hinv Ho Hs Hd E. change (Local_Read r offset (Some dst) size = (res, dst', r')) in E.
    pose proof (Local_Read_post A r offset dst size Hrel Htell Hinv HA Ho Hs Hd) as Hp. rewrite E in Hp.
    destruct Hp as [Hsame Hp]. split; [by eapply same_reader_inv|done].
Qed.

(** An open binds the reader to a moment of the file. *)
Lemma Local_Open_spec p os :
  match fst (Local_Open p None os) with
  | mkOpenResult (Some r) st => st = Status_Ok /\
      (exists t, os_le os t /\ os_le t (lr_os r) /\ local_inv (file_at t (lr_handle r)) r) /\
      am_resolvedIdentifier (lr_metadata r) = p /\ am_supportsRandomAccess (lr_metadata r) = true /\
      am_stability (lr_metadata r) = Stable /\ v_kind (am_validator (lr_metadata r)) = Derived
  | mkOpenResult None st => IsOk st = false
  end.
Proof.
  unfold Local_Open. pose proof (law_open p os) as Ho.
  destruct (pf_OpenForRead p os) as [[st|fd] os1]; [exact Ho|].
  pose proof (law_stat fd os1) as [Hle Ht].
  destruct (pf_Stat fd os1) as [[st|identity] os2]; [exact Ht|]. cbn [fst snd] in *.
  destruct Ht as (t & T1 & T2 & ->). destruct (law_size t fd) as [Es Hu].
  split; [done|]. cbn [lr_os lr_handle lr_metadata am_resolvedIdentifier am_supportsRandomAccess am_stability am_validator v_kind].
  split_and!; try done. exists t. split_and!; [by etransitivity|done|]. split; try done.
  - exists t. done.
Qed.

(** Opening a file binds the reader to a moment of it: an open that succeeds
    gives a reader whose asset is the whole file at some moment of the call,
    whose size is the file's, whose identity is stable and whose validator is
    never one the persistent tier may keep; an open that fails gives none. *)
Theorem Local_Open_binds p os :
  match fst (Local_Open p None os) with
  | mkOpenResult (Some r) st => st = Status_Ok /\
      (exists t, os_le os t /\ os_le t (lr_os r) /\ local_inv (file_at t (lr_handle r)) r) /\
      am_resolvedIdentifier (lr_metadata r) = p /\ am_supportsRandomAccess (lr_metadata r) = true /\
      am_stability (lr_metadata r) = Stable /\ v_kind (am_validator (lr_metadata r)) = Derived
  | mkOpenResult None st => IsOk st = false
  end.
Proof. apply Local_Open_spec. Qed.
End reader.

(** ** The two systems *)

Section systems.
Context {PX : Type} `{PosixLaws PX} {WN : Type} `{Win32Laws WN} (interrupts : nat).

(** C26: the local backend, on POSIX and on Windows, while other processes rewrite
    the file.  Every read that succeeds delivers all the bytes the asset has of the
    range, each of them one the file had at its place at some moment of the call,
    and afterwards the file had the size, device, file number and modification time
    of the open; no byte outside the range is written.  Under one further
    hypothesis it is the reader contract: a successful read returns exactly the
    bytes the file had when it was opened.  The hypothesis, [identity_tells], is
    that an unchanged identity means unchanged bytes, which neither system
    promises; the backend's README lists where it fails (coarse or restored
    timestamps, a change that is undone).  The revision check's [Stat] is taken to
    answer; faults, short and interrupted calls are covered. *)
Theorem Local_reader_contract A :
  is_u64 (zlen A) ->
  (@stat_reliable PX (Posix_platform interrupts) ->
   @local_reads PX _ (Posix_laws interrupts) /\
   (@identity_tells PX _ (Posix_laws interrupts) ->
    @ReaderContract LocalAssetReader (@Local_AssetReader PX (Posix_platform interrupts))
      (@local_inv PX _ (Posix_laws interrupts) A) A)) /\
  (@stat_reliable WN Win32_platform ->
   @local_reads WN _ Win32_laws /\
   (@identity_tells WN _ Win32_laws ->
    @ReaderContract LocalAssetReader (@Local_AssetReader WN Win32_platform) (@local_inv WN _ Win32_laws A) A)).
Proof.
  intros HA. split; intros Hrel; (split; [intros r offset dst size; by apply Local_Read_seen|intros Htell; by apply Local_ReaderContract]).
Qed.
End systems.

(** The validator of a local file is a faithful rendering of its identity:
    equal texts mean equal size, device, file and time. *)
Theorem FormatIdentity_injective a b :
  0 <= fi_deviceId a -> 0 <= fi_fileId a -> 0 <= fi_size a -> 0 <= fi_modifiedTicks a ->
  0 <= fi_deviceId b -> 0 <= fi_fileId b -> 0 <= fi_size b -> 0 <= fi_modifiedTicks b ->
  FormatIdentity a = FormatIdentity b -> a = b.
Proof.
  intros A1 A2 A3 A4 B1 B2 B3 B4. unfold FormatIdentity. intros E.
  apply (sep_inj ":"%char) in E as [E1 E]; [|by apply to_string_no_char..].
  apply (sep_inj ":"%char) in E as [E2 E]; [|by apply to_string_no_char..].
  apply (sep_inj ":"%char) in E as [E3 E]; [|by apply to_string_no_char..].
  apply to_string_inj in E1; [|done..]. apply to_string_inj in E2; [|done..]. apply to_string_inj in E3; [|done..].
  apply to_string_inj in E; [|done..]. destruct a, b; simpl in *; congruence.
Qed.
