(* ===== verification/Uri.v ===== *)
(** * Uri: the URIs of the HTTP backend

    libs/usd-asset-http: src/Uri.h and src/Uri.cpp.  A function that fills an
    out-parameter and returns [false] with a reason is one that returns
    [inl reason], or [inr] of what it filled. *)

From S2P Require Import Prelude Diagnostics.

Record Uri : Type := mkUri {
  u_scheme : str;
  u_userinfo : str;
  u_host : str;
  u_port : Z;
  u_path : str;
  u_query : str;
  u_hasQuery : bool }.

#[export] Instance Uri_eq_dec : EqDecision Uri.
Proof. solve_decision. Defined.

Definition IsSecure (u : Uri) : bool := str_eqb (u_scheme u) (lit "https").

Definition DefaultPort (u : Uri) : Z := if IsSecure u then 443 else 80.

Definition LowerAscii (text : str) : str := lower_str text.

Definition StripFragment (text : str) : str :=
  match find "#" text with Some hash => take hash text | None => text end.

(** The digits of a port. *)
Fixpoint port_loop (text : str) (port : Z) : str + Z :=
  match text with
  | [] => inr port
  | c :: text' =>
      if negb (is_digit c) then inl (lit "URI port is not a number")
      else
        let port := port * 10 + (code c - 48) in
        if 65535 <? port then inl (lit "URI port is out of range") else port_loop text' port
  end.

(** Where the colon before the port is. *)
Definition port_colon (hostPort : str) : str + option nat :=
  if char_eqb (default " "%char (hostPort !! 0%nat)) "[" then
    match find "]" hostPort with
    | None => inl (lit "URI has an unterminated IPv6 literal")
    | Some close =>
        match hostPort !! S close with
        | Some c => if negb (char_eqb c ":") then inl (lit "URI has trailing junk after an IPv6 literal")
                    else inr (Some (S close))
        | None => inr None
        end
    end
  else inr (find ":" hostPort).

Definition ParseAuthority (scheme authority : str) : str + Uri :=
  let '(userinfo, hostPort) :=
    match rfind "@" authority with
    | Some at_ => (take at_ authority, drop (S at_) authority)
    | None => ([], authority)
    end in
  let out host port := mkUri scheme userinfo host port [] [] false in
  if bool_decide (hostPort = []) then inl (lit "URI has no host")
  else
    match port_colon hostPort with
    | inl e => inl e
    | inr None => inr (out (LowerAscii hostPort) 0)
    | inr (Some colon) =>
        let host := LowerAscii (take colon hostPort) in
        let portText := drop (S colon) hostPort in
        if bool_decide (portText = []) then inr (out host 0)
        else
          match port_loop portText 0 with
          | inl e => inl e
          | inr port => if port =? 0 then inl (lit "URI port is out of range") else inr (out host port)
          end
    end.

Definition with_path_query (path query : str) (hasQuery : bool) (u : Uri) : Uri :=
  mkUri (u_scheme u) (u_userinfo u) (u_host u) (u_port u) path query hasQuery.

Definition SplitPathAndQuery (rest : str) (out : Uri) : Uri :=
  match find "?" rest with
  | None => with_path_query (if bool_decide (rest = []) then lit "/" else rest) [] false out
  | Some question =>
      let path := take question rest in
      with_path_query (if bool_decide (path = []) then lit "/" else path) (drop (S question) rest) true out
  end.

Definition port_suffix (u : Uri) : str :=
  if negb (u_port u =? 0) && negb (u_port u =? DefaultPort u) then lit ":" ++ to_string (u_port u)
  else [].

Definition Compose (u : Uri) (includeUserinfo : bool) : str :=
  u_scheme u ++ lit "://" ++
  (if includeUserinfo && negb (bool_decide (u_userinfo u = [])) then u_userinfo u ++ lit "@" else []) ++
  u_host u ++ port_suffix u ++ u_path u ++ (if u_hasQuery u then lit "?" ++ u_query u else []).

Definition Authority (u : Uri) : str := u_host u ++ port_suffix u.

Definition ToString (u : Uri) : str := Compose u true.

Definition ToIdentity (u : Uri) : str := Compose u false.

(** The loop over the segments; [rest] is the text from [i] on.  Every turn but
    the last consumes a slash, so the length of the text and one more is fuel
    enough. *)
Fixpoint segment_loop (fuel : nat) (rest : str) (segments : list str) (ended : bool)
    : list str * bool :=
  match fuel with
  | O => (segments, ended)
  | S fuel' =>
      let end_ := find "/" rest in
      let segment := match end_ with None => rest | Some e => take e rest end in
      let '(segments, ended) :=
        if str_eqb segment (lit ".") then (segments, true)
        else if str_eqb segment (lit "..") then (removelast segments, true)
        else (segments ++ [segment], false) in
      match end_ with
      | None => (segments, ended)
      | Some e => segment_loop fuel' (drop (S e) rest) segments ended
      end
  end.

(** The output: a slash before every segment but, in a relative path, the
    first. *)
Fixpoint join_segments (absolute : bool) (segments : list str) : str :=
  match segments with
  | [] => []
  | s :: segments' => (if absolute then lit "/" else []) ++ s ++ join_segments true segments'
  end.

Definition RemoveDotSegments (path : str) : str :=
  let absolute := starts_with (lit "/") path in
  let text := if absolute then drop 1 path else path in
  let '(segments, endedWithDotSegment) := segment_loop (S (length text)) text [] false in
  let segments := if endedWithDotSegment then segments ++ [[]] else segments in
  let output := join_segments absolute segments in
  if bool_decide (output = []) then (if absolute then lit "/" else []) else output.

Definition ParseUri (text : str) : str + Uri :=
  let text := StripFragment text in
  match find ":" text with
  | None => inl (lit "identifier is not an absolute URI")
  | Some colon =>
      let scheme := LowerAscii (take colon text) in
      if negb (str_eqb scheme (lit "http")) && negb (str_eqb scheme (lit "https"))
      then inl (lit "unsupported URI scheme '" ++ scheme ++ lit "'")
      else
        let rest := drop (S colon) text in
        if negb (starts_with (lit "//") rest) then inl (lit "URI has no authority")
        else
          let rest := drop 2 rest in
          let '(authority, rest) :=
            match find_first_of (lit "/?") rest with
            | Some e => (take e rest, drop e rest)
            | None => (rest, [])
            end in
          match ParseAuthority scheme authority with
          | inl e => inl e
          | inr u =>
              let u := SplitPathAndQuery rest u in
              inr (with_path_query (RemoveDotSegments (u_path u)) (u_query u) (u_hasQuery u) u)
          end
  end.

(** [out->path.insert(0, "/")] when it has none. *)
Definition rooted (path : str) : str :=
  if starts_with (lit "/") path then path else lit "/" ++ path.

Definition ResolveReference (base : Uri) (reference : str) : str + Uri :=
  let reference := StripFragment reference in
  if bool_decide (reference = []) then inl (lit "redirect Location is empty")
  else
    let absolute :=
      match find ":" reference, find_first_of (lit "/?#") reference with
      | Some colon, Some firstDelimiter => (colon <? firstDelimiter)%nat
      | Some _, None => true
      | None, _ => false
      end in
    if absolute then ParseUri reference
    else if starts_with (lit "//") reference then ParseUri (u_scheme base ++ lit ":" ++ reference)
    else if starts_with (lit "?") reference then inr (with_path_query (u_path base) (drop 1 reference) true base)
    else
      let '(referencePath, query, hasQuery) :=
        match find "?" reference with
        | Some question => (take question reference, drop (S question) reference, true)
        | None => (reference, [], false)
        end in
      let path :=
        if starts_with (lit "/") referencePath then RemoveDotSegments referencePath
        else
          let merged := match rfind "/" (u_path base) with
                        | Some slash => take (S slash) (u_path base)
                        | None => []
                        end in
          RemoveDotSegments (merged ++ referencePath) in
      inr (with_path_query (rooted path) query hasQuery base).

Definition IsSchemeDowngrade (base target : Uri) : bool := IsSecure base && negb (IsSecure target).

(** ** Dot segments against RFC 3986 *)

(** The output buffer without its last segment and the slash before it. *)
Definition rfc_drop_last (output : str) : str :=
  match rfind "/" output with Some i => take i output | None => [] end.

(** One turn of section 5.2.4, step 2, on the input and output buffers. *)
Definition rfc_step (input output : str) : str * str :=
  if starts_with (lit "../") input then (drop 3 input, output)
  else if starts_with (lit "./") input then (drop 2 input, output)
  else if starts_with (lit "/./") input then (drop 2 input, output)
  else if str_eqb input (lit "/.") then (lit "/", output)
  else if starts_with (lit "/../") input then (drop 3 input, rfc_drop_last output)
  else if str_eqb input (lit "/..") then (lit "/", rfc_drop_last output)
  else if str_eqb input (lit ".") || str_eqb input (lit "..") then ([], output)
  else
    let e := default (length input) (find_from "/" input 1) in
    (drop e input, output ++ take e input).

Fixpoint rfc_loop (fuel : nat) (input output : str) : str :=
  match fuel with
  | O => output
  | S fuel' =>
      if bool_decide (input = []) then output
      else let '(input, output) := rfc_step input output in rfc_loop fuel' input output
  end.

(** Every turn shortens the input, so its length is fuel enough. *)
Definition rfc_remove_dot_segments (path : str) : str := rfc_loop (length path) path [].

Abbreviation slash := "/"%char.

(** A text is its first segment and what follows it. *)
Lemma segment_split rest :
  exists seg t, rest = seg ++ t /\ slash ∉ seg /\ (t = [] \/ exists r, t = slash :: r).
Proof.
  destruct (find slash rest) as [e|] eqn:E.
  - apply find_split in E as [E1 E2]. exists (take e rest), (slash :: drop (S e) rest). eauto.
  - apply find_None in E. exists rest, []. rewrite app_nil_r. eauto.
Qed.

(** One turn of the loop of [RemoveDotSegments]. *)
Definition push_segment (segments : list str) (seg : str) : list str * bool :=
  if str_eqb seg (lit ".") then (segments, true)
  else if str_eqb seg (lit "..") then (removelast segments, true)
  else (segments ++ [seg], false).

Lemma segment_loop_last fuel seg segments ended :
  slash ∉ seg -> segment_loop (S fuel) seg segments ended = push_segment segments seg.
Proof.
  intros H%find_None. cbn [segment_loop]. rewrite H. unfold push_segment.
  destruct (str_eqb seg (lit ".")); [done|]. by destruct (str_eqb seg (lit "..")).
Qed.

Lemma segment_loop_next fuel seg r segments ended :
  slash ∉ seg ->
  segment_loop (S fuel) (seg ++ slash :: r) segments ended =
  segment_loop fuel r (push_segment segments seg).1 (push_segment segments seg).2.
Proof.
  intros H. cbn [segment_loop]. rewrite find_app by done. rewrite take_app_length.
  rewrite drop_app_ge by lia. replace (S (length seg) - length seg)%nat with 1%nat by lia.
  unfold push_segment. destruct (str_eqb seg (lit ".")); [done|]. by destruct (str_eqb seg (lit "..")).
Qed.

Lemma join_true_app a b : join_segments true (a ++ b) = join_segments true a ++ join_segments true b.
Proof. induction a as [|s a IH]; simpl; [done|]. rewrite IH. by rewrite <-app_assoc. Qed.

Lemma rfc_drop_last_join segments :
  Forall (fun s => slash ∉ s) segments ->
  rfc_drop_last (join_segments true segments) = join_segments true (removelast segments).
Proof.
  intros H. destruct (decide (segments = [])) as [->|Hne]; [done|].
  rewrite (app_removelast_last [] Hne) at 1.
  rewrite (app_removelast_last [] Hne) in H. apply Forall_app in H as [_ H].
  apply Forall_cons in H as [H _]. rewrite join_true_app. cbn [join_segments]. rewrite app_nil_r.
  unfold rfc_drop_last. cbn [app lit list_ascii_of_string]. rewrite rfind_app by done. by rewrite take_app_length.
Qed.

Lemma starts_with_cons c p s : starts_with (c :: p) (c :: s) = starts_with p s.
Proof. simpl. by rewrite char_eqb_refl. Qed.

Lemma starts_with_segment d seg t :
  slash ∉ seg -> slash ∉ d -> (t = [] \/ exists r, t = slash :: r) -> seg <> d ->
  starts_with (d ++ [slash]) (seg ++ t) = false.
Proof.
  intros Hs Hd Ht Hne. destruct (starts_with _ _) eqn:E; [|done]. exfalso.
  apply starts_with_true in E. rewrite <-app_assoc in E. simpl in E.
  destruct Ht as [->|(r & ->)].
  - rewrite app_nil_r in E. apply Hs. rewrite E. set_solver.
  - apply sep_inj in E as [-> _]; done.
Qed.

(** One turn of the RFC's loop on a rooted input. *)
Lemma rfc_step_segment seg t output :
  slash ∉ seg -> (t = [] \/ exists r, t = slash :: r) ->
  rfc_step (slash :: seg ++ t) output =
  if str_eqb seg (lit ".") then (match t with [] => [slash] | _ => t end, output)
  else if str_eqb seg (lit "..") then (match t with [] => [slash] | _ => t end, rfc_drop_last output)
  else (t, output ++ slash :: seg).
Proof.
  intros Hs Ht. unfold rfc_step. cbn [lit list_ascii_of_string].
  rewrite !starts_with_cons.
  change (starts_with ["."; "."; slash]%char (slash :: _)) with false.
  change (starts_with ["."; slash]%char (slash :: _)) with false. cbv iota.
  assert (forall d, str_eqb (slash :: seg ++ t) (slash :: d) = true <-> seg ++ t = d) as Heq.
  { intros d. rewrite str_eqb_eq. split; [by intros [=]|by intros ->]. }
  assert (forall d, slash ∉ d -> str_eqb (slash :: seg ++ t) (slash :: d) = true -> t = [] /\ seg = d) as Hend.
  { intros d Hd E%Heq. destruct Ht as [->|(r & ->)]; [by rewrite app_nil_r in E|].
    exfalso. apply Hd. rewrite <-E. set_solver. }
  destruct (decide (seg = ["."%char])) as [->|N1].
  { destruct Ht as [->|(r & ->)]; [|done]. by vm_compute. }
  pose proof (starts_with_segment ["."%char] seg t) as Hsw. cbn [app] in Hsw.
  rewrite Hsw by (done || by apply (bool_decide_unpack _)). clear Hsw.
  destruct (str_eqb _ [slash; "."]%char) eqn:E; [apply Hend in E as [_ ->]; [done|]; by apply (bool_decide_unpack _)|].
  clear E. destruct (decide (seg = ["."; "."]%char)) as [->|N2].
  { destruct Ht as [->|(r & ->)]; done. }
  pose proof (starts_with_segment ["."; "."]%char seg t) as Hsw. cbn [app] in Hsw.
  rewrite Hsw by (done || by apply (bool_decide_unpack _)). clear Hsw.
  destruct (str_eqb _ [slash; "."; "."]%char) eqn:E; [apply Hend in E as [_ ->]; [done|]; by apply (bool_decide_unpack _)|].
  clear E. unfold str_eqb. rewrite !(bool_decide_eq_false_2 (seg = _)) by done.
  rewrite !bool_decide_eq_false_2 by done. cbn [orb].
  assert (default (length (slash :: seg ++ t)) (find_from slash (slash :: seg ++ t) 1) = length (slash :: seg)) as ->.
  { unfold find_from. change (drop 1 (slash :: ?x)) with x. destruct Ht as [->|(r & ->)].
    - rewrite app_nil_r. apply find_None in Hs. by rewrite Hs.
    - rewrite find_app by done. done. }
  change (slash :: seg ++ t) with ((slash :: seg) ++ t). by rewrite drop_app_length, take_app_length.
Qed.

(** What [RemoveDotSegments] makes of the segments of a rooted path. *)
Definition rooted_output (r : list str * bool) : str :=
  join_segments true (if r.2 then r.1 ++ [[]] else r.1).

Lemma rfc_loop_nil fuel output : rfc_loop fuel [] output = output.
Proof. by destruct fuel. Qed.

Lemma push_segment_no_slash segments seg :
  slash ∉ seg -> Forall (fun s => slash ∉ s) segments ->
  Forall (fun s => slash ∉ s) (push_segment segments seg).1.
Proof.
  intros Hs HF. unfold push_segment. destruct (str_eqb seg (lit ".")); [done|].
  destruct (str_eqb seg (lit "..")); simpl.
  - destruct (decide (segments = [])) as [->|Hne]; [done|].
    rewrite (app_removelast_last [] Hne) in HF. by apply Forall_app in HF as [? _].
  - apply Forall_app. eauto.
Qed.

Lemma rfc_step_push seg t segments :
  slash ∉ seg -> (t = [] \/ exists r, t = slash :: r) -> Forall (fun s => slash ∉ s) segments ->
  rfc_step (slash :: seg ++ t) (join_segments true segments) =
  (match t with [] => if (push_segment segments seg).2 then [slash] else [] | _ => t end,
   join_segments true (push_segment segments seg).1).
Proof.
  intros Hs Ht HF. rewrite rfc_step_segment by done. unfold push_segment.
  destruct (str_eqb seg (lit ".")); [done|]. destruct (str_eqb seg (lit "..")); simpl.
  - by rewrite rfc_drop_last_join.
  - rewrite join_true_app. simpl. rewrite app_nil_r. by destruct t.
Qed.

Lemma rfc_loop_rooted n rest fuel fuel' segments ended :
  (length rest <= n)%nat -> (length rest < fuel)%nat -> (length rest < fuel')%nat ->
  Forall (fun s => slash ∉ s) segments ->
  rfc_loop fuel' (slash :: rest) (join_segments true segments) =
  rooted_output (segment_loop fuel rest segments ended).
Proof.
  revert rest fuel fuel' segments ended. induction n as [n IH] using lt_wf_ind.
  intros rest fuel fuel' segments ended Hn Hf Hf' HF.
  destruct fuel as [|fuel]; [lia|]. destruct fuel' as [|fuel']; [lia|].
  destruct (segment_split rest) as (seg & t & -> & Hs & Ht).
  cbn [rfc_loop]. rewrite bool_decide_eq_false_2 by done. rewrite rfc_step_push by done.
  rewrite length_app in *. destruct Ht as [->|(r & ->)].
  - rewrite app_nil_r, segment_loop_last by done. unfold rooted_output.
    destruct (push_segment segments seg) as [segs []] eqn:E; simpl.
    + assert (1 <= length seg)%nat by (destruct seg; [by unfold push_segment in E|simpl; lia]).
      destruct fuel' as [|fuel']; [simpl in *; lia|]. cbn [rfc_loop].
      rewrite bool_decide_eq_false_2 by done. change (rfc_step [slash] (join_segments true segs)) with (@nil ascii, join_segments true segs ++ [slash]).
      cbv beta iota. rewrite rfc_loop_nil, join_true_app. done.
    + by rewrite rfc_loop_nil.
  - rewrite segment_loop_next by done. simpl in Hn, Hf, Hf'.
    apply (IH (length r)); [lia|lia|lia|lia|]. by apply push_segment_no_slash.
Qed.

Lemma join_snoc segments seg : join_segments true (segments ++ [seg]) <> [].
Proof. rewrite join_true_app. by intros [_ ?]%app_nil. Qed.

Lemma push_segment_output segments seg : rooted_output (push_segment segments seg) <> [].
Proof.
  unfold rooted_output, push_segment.
  destruct (str_eqb seg (lit ".")); [|destruct (str_eqb seg (lit ".."))]; apply join_snoc.
Qed.

Lemma segment_loop_output fuel rest segments ended :
  (length rest < fuel)%nat -> rooted_output (segment_loop fuel rest segments ended) <> [].
Proof.
  revert rest segments ended. induction fuel as [|fuel IH]; intros rest segments ended Hf; [lia|].
  destruct (segment_split rest) as (seg & t & -> & Hs & [->|(r & ->)]).
  - rewrite app_nil_r, segment_loop_last by done. apply push_segment_output.
  - rewrite segment_loop_next by done. apply IH. rewrite length_app in Hf. simpl in Hf. lia.
Qed.

Lemma RemoveDotSegments_rooted rest :
  RemoveDotSegments (slash :: rest) = rooted_output (segment_loop (S (length rest)) rest [] false).
Proof.
  unfold RemoveDotSegments. change (starts_with (lit "/") (slash :: rest)) with true.
  change (drop 1 (slash :: rest)) with rest. cbv iota. pose proof (segment_loop_output (S (length rest)) rest [] false ltac:(lia)) as Hne.
  unfold rooted_output in Hne. destruct (segment_loop _ _ _ _) as [segs e]. cbn [fst snd] in Hne.
  by rewrite bool_decide_eq_false_2.
Qed.

Lemma RemoveDotSegments_rfc_eq rest :
  RemoveDotSegments (slash :: rest) = rfc_remove_dot_segments (slash :: rest).
Proof.
  rewrite RemoveDotSegments_rooted. unfold rfc_remove_dot_segments. symmetry.
  change (@nil ascii) with (join_segments true []) at 1.
  apply (rfc_loop_rooted (length rest)); simpl; auto; lia.
Qed.

(** ** Clean paths *)

Definition plain_segment (s : str) : Prop := slash ∉ s /\ s <> lit "." /\ s <> lit "..".

(** A rooted path none of whose segments is a dot segment. *)
Definition clean_path (p : str) : Prop :=
  exists segments, segments <> [] /\ Forall plain_segment segments /\ p = join_segments true segments.

Lemma push_segment_plain segments seg :
  slash ∉ seg -> Forall plain_segment segments -> Forall plain_segment (push_segment segments seg).1.
Proof.
  intros Hs HF. unfold push_segment, str_eqb. case_bool_decide; [done|]. case_bool_decide; simpl.
  - destruct (decide (segments = [])) as [->|Hne]; [done|].
    rewrite (app_removelast_last [] Hne) in HF. by apply Forall_app in HF as [? _].
  - apply Forall_app. split; [done|]. by repeat constructor.
Qed.

Lemma segment_loop_plain fuel rest segments ended :
  (length rest < fuel)%nat -> Forall plain_segment segments ->
  Forall plain_segment (segment_loop fuel rest segments ended).1.
Proof.
  revert rest segments ended. induction fuel as [|fuel IH]; intros rest segments ended Hf HF; [done|].
  destruct (segment_split rest) as (seg & t & -> & Hs & [->|(r & ->)]).
  - rewrite app_nil_r, segment_loop_last by done. by apply push_segment_plain.
  - rewrite segment_loop_next by done. apply IH; [|by apply push_segment_plain].
    rewrite length_app in Hf. simpl in Hf. lia.
Qed.

Lemma plain_nil : plain_segment [].
Proof. split_and!; [apply not_elem_of_nil|done..]. Qed.

Lemma RemoveDotSegments_clean rest : clean_path (RemoveDotSegments (slash :: rest)).
Proof.
  rewrite RemoveDotSegments_rooted. unfold rooted_output.
  pose proof (segment_loop_plain (S (length rest)) rest [] false ltac:(lia) ltac:(constructor)) as HF.
  pose proof (segment_loop_output (S (length rest)) rest [] false ltac:(lia)) as Hne.
  unfold rooted_output in Hne. destruct (segment_loop _ _ _ _) as [segs e]. simpl in *.
  exists (if e then segs ++ [[]] else segs). split_and!; [| |done].
  - intros E. by rewrite E in Hne.
  - destruct e; [|done]. apply Forall_app. split; [done|]. constructor; [apply plain_nil|constructor].
Qed.

Lemma push_plain segments seg : plain_segment seg -> push_segment segments seg = (segments ++ [seg], false).
Proof. intros (_ & H1 & H2). unfold push_segment, str_eqb. by rewrite !bool_decide_eq_false_2. Qed.

Lemma segment_loop_join fuel s l segments ended :
  Forall plain_segment (s :: l) -> (length (s ++ join_segments true l) < fuel)%nat ->
  segment_loop fuel (s ++ join_segments true l) segments ended = (segments ++ s :: l, false).
Proof.
  revert fuel s segments ended. induction l as [|x l IH]; intros fuel s segments ended HF Hf;
    (destruct fuel as [|fuel]; [lia|]); apply Forall_cons in HF as [Hs HF]; pose proof Hs as [Hns _].
  - simpl. rewrite app_nil_r. change (segment_loop (S fuel) s segments ended = (segments ++ [s], false)).
    by rewrite segment_loop_last, push_plain.
  - change (join_segments true (x :: l)) with (slash :: x ++ join_segments true l) in *.
    rewrite segment_loop_next, push_plain by done. rewrite length_app in Hf. simpl in Hf.
    cbn [fst snd]. rewrite IH; [by rewrite <-app_assoc|done|lia].
Qed.

Lemma RemoveDotSegments_id p : clean_path p -> RemoveDotSegments p = p.
Proof.
  intros ([|s l] & Hne & HF & ->); [done|].
  change (join_segments true (s :: l)) with (slash :: s ++ join_segments true l).
  rewrite RemoveDotSegments_rooted, segment_loop_join by (done || lia). done.
Qed.

Lemma clean_path_rooted p : clean_path p -> exists rest, p = slash :: rest.
Proof. intros ([|s l] & Hne & HF & ->); [done|]. by eexists. Qed.

Lemma join_In c absolute segments :
  c ∈ join_segments absolute segments -> c = slash \/ exists s, s ∈ segments /\ c ∈ s.
Proof.
  revert absolute. induction segments as [|s l IH]; intros absolute; simpl; [by intros ?%not_elem_of_nil|].
  rewrite !elem_of_app. intros [H|[H|H]].
  - left. destruct absolute; [by apply list_elem_of_singleton in H|by apply not_elem_of_nil in H].
  - right. exists s. set_solver.
  - destruct (IH true H) as [->|(x & ? & ?)]; [by left|]. right. exists x. set_solver.
Qed.

Lemma removelast_In {A} (x : A) l : x ∈ removelast l -> x ∈ l.
Proof.
  destruct (decide (l = [])) as [->|Hne]; [done|]. rewrite (app_removelast_last x Hne) at 2. set_solver.
Qed.

Lemma segment_loop_In c fuel rest segments ended s :
  s ∈ (segment_loop fuel rest segments ended).1 -> c ∈ s ->
  c ∈ rest \/ exists s', s' ∈ segments /\ c ∈ s'.
Proof.
  revert rest segments ended. induction fuel as [|fuel IH]; intros rest segments ended Hin Hc; [by eauto|].
  destruct (segment_split rest) as (seg & t & -> & Hs & Ht).
  assert (forall s', s' ∈ (push_segment segments seg).1 -> s' ∈ segments \/ s' = seg) as Hpush.
  { intros s'. unfold push_segment. destruct (str_eqb seg (lit ".")); [by left|].
    destruct (str_eqb seg (lit "..")); simpl; [|set_solver]. intros H%removelast_In. by left. }
  destruct Ht as [->|(r & ->)].
  - rewrite app_nil_r in *. rewrite segment_loop_last in Hin by done. apply Hpush in Hin as [?| ->]; eauto.
  - rewrite segment_loop_next in Hin by done. destruct (IH _ _ _ Hin Hc) as [?|(s' & Hs' & ?)]; [set_solver|].
    apply Hpush in Hs' as [?| ->]; [eauto|]. left. set_solver.
Qed.

(** The output has no characters the input has not. *)
Lemma RemoveDotSegments_In c rest : c ∈ RemoveDotSegments (slash :: rest) -> c ∈ slash :: rest.
Proof.
  rewrite RemoveDotSegments_rooted. unfold rooted_output. intros [->|(s & Hs & Hc)]%join_In; [set_solver|].
  assert (s ∈ (segment_loop (S (length rest)) rest [] false).1) as Hs'.
  { destruct (_.2); [|done]. apply elem_of_app in Hs as [?|Hs]; [done|].
    apply list_elem_of_singleton in Hs as ->. by apply not_elem_of_nil in Hc. }
  apply (segment_loop_In c) in Hs' as [?|(s' & Hs' & _)]; [set_solver|set_solver|done].
Qed.

(** ** Well-formed URIs *)

(** A host as the parser leaves it: lower-cased, free of delimiters, and either
    a bracketed literal or free of colons. *)
Record host_ok (h : str) : Prop := {
  ho_lower : lower_str h = h;
  ho_chars : Forall (fun c => authority_char c = true) h;
  ho_at : "@"%char ∉ h;
  ho_shape : (exists l, h = "["%char :: l ++ lit "]" /\ "]"%char ∉ l) \/
             (h !! 0%nat <> Some "["%char /\ ":"%char ∉ h) }.

Record uri_wf (u : Uri) : Prop := {
  uw_scheme : u_scheme u = lit "http" \/ u_scheme u = lit "https";
  uw_userinfo : Forall (fun c => authority_char c = true) (u_userinfo u);
  uw_host : host_ok (u_host u);
  uw_port : 0 <= u_port u <= 65535;
  uw_clean : clean_path (u_path u);
  uw_path : "?"%char ∉ u_path u /\ "#"%char ∉ u_path u;
  uw_query : "#"%char ∉ u_query u;
  uw_hasQuery : u_hasQuery u = false -> u_query u = [] }.

(** The spelling the printer chooses: the scheme's default port is left out. *)
Definition canonical (u : Uri) : Uri :=
  mkUri (u_scheme u) (u_userinfo u) (u_host u)
    (if u_port u =? DefaultPort u then 0 else u_port u) (u_path u) (u_query u) (u_hasQuery u).

Definition without_userinfo (u : Uri) : Uri :=
  mkUri (u_scheme u) [] (u_host u) (u_port u) (u_path u) (u_query u) (u_hasQuery u).

Lemma authority_char_spec c :
  authority_char c = true <-> c <> slash /\ c <> "?"%char /\ c <> "#"%char.
Proof.
  unfold authority_char. rewrite negb_true_iff, bool_decide_eq_false. cbn [lit list_ascii_of_string].
  rewrite !not_elem_of_cons. set_solver.
Qed.

Lemma lower_special c d :
  is_alpha d = false -> lower c = d <-> c = d.
Proof.
  intros Hd. enough (bool_decide (lower c = d) = bool_decide (c = d)) as E.
  { rewrite <-(bool_decide_eq_true (lower c = d)), E. apply bool_decide_eq_true. }
  revert c. assert (forall d c, implb (negb (is_alpha d)) (eqb (bool_decide (lower c = d)) (bool_decide (c = d))) = true) as H.
  { intros d' c. revert c. apply char_forall. revert d'.
    apply (char_forall (fun d' => forallb (fun c => implb (negb (is_alpha d')) (eqb (bool_decide (lower c = d')) (bool_decide (c = d')))) all_chars)).
    by vm_compute. }
  intros c. specialize (H d c). rewrite Hd in H. by apply eqb_prop in H.
Qed.

Lemma lower_In s d : is_alpha d = false -> d ∈ lower_str s <-> d ∈ s.
Proof.
  intros Hd. change (lower_str s) with (lower <$> s). rewrite list_elem_of_fmap. split.
  - intros (c & E & Hc). symmetry in E. apply lower_special in E as ->; done.
  - intros Hin. exists d. split; [|done]. symmetry. by apply lower_special.
Qed.

(** ** The authority *)

Lemma port_loop_value s v :
  Forall (fun c => is_digit c = true) s -> 0 <= v -> fold_left decimal_step s v <= 65535 ->
  port_loop s v = inr (fold_left decimal_step s v).
Proof.
  intros HF. revert v. induction HF as [|c s Hc HF IH]; intros v Hv Hle; [done|].
  cbn [port_loop fold_left] in *. rewrite Hc. simpl. apply is_digit_code in Hc.
  change (v * 10 + (code c - 48)) with (decimal_step v c).
  assert (0 <= decimal_step v c) by (unfold decimal_step; lia).
  pose proof (decimal_fold_ge s (decimal_step v c) HF ltac:(done)). destruct (Z.ltb_spec 65535 (decimal_step v c)); [lia|].
  by apply IH.
Qed.

Lemma port_loop_range s v p : 0 <= v <= 65535 -> port_loop s v = inr p -> 0 <= p <= 65535.
Proof.
  revert v. induction s as [|c s IH]; intros v Hv; cbn [port_loop]; [congruence|].
  destruct (is_digit c) eqn:Hc; [|done]. simpl. apply is_digit_code in Hc.
  destruct (Z.ltb_spec 65535 (v * 10 + (code c - 48))); [done|]. apply IH. lia.
Qed.

(** The colon found is the one the printer wrote. *)
Lemma port_colon_host h b :
  host_ok h -> h ++ b <> [] -> (b = [] \/ exists r, b = ":"%char :: r) ->
  port_colon (h ++ b) = inr (match b with [] => None | _ => Some (length h) end).
Proof.
  intros [_ _ _ Hs] Hne Hb. unfold port_colon.
  destruct Hs as [(l & -> & Hl)|[H0 Hc]].
  - rewrite lookup_0_app by done. change (char_eqb _ "[") with true. cbv iota.
    replace (("["%char :: l ++ lit "]") ++ b) with (("["%char :: l) ++ "]"%char :: b)
      by (simpl; by rewrite <-app_assoc).
    rewrite find_app by set_solver. rewrite lookup_app_r by lia.
    replace (S (length ("["%char :: l)) - length ("["%char :: l))%nat with 1%nat by lia.
    destruct Hb as [->|(r & ->)]; cbn [lookup list_lookup]; [done|].
    change (char_eqb ":" ":") with true. cbn [negb length]. rewrite length_app. simpl. do 2 f_equal. lia.
  - rewrite char_eqb_ne. 2:{ destruct h as [|c h]; [by destruct Hb as [->|(r & ->)]|]. simpl in *. congruence. }
    destruct Hb as [->|(r & ->)].
    + rewrite app_nil_r. apply find_None in Hc. by rewrite Hc.
    + by rewrite find_app.
Qed.

Lemma port_suffix_cases u :
  0 <= u_port u <= 65535 ->
  (port_suffix u = [] /\ u_port (canonical u) = 0) \/
  (port_suffix u = ":"%char :: to_string (u_port u) /\ u_port (canonical u) = u_port u /\ u_port u <> 0).
Proof.
  intros Hp. unfold port_suffix, canonical. simpl.
  destruct (Z.eqb_spec (u_port u) 0) as [E|E]; simpl.
  - left. rewrite E. by destruct (_ =? _).
  - destruct (Z.eqb_spec (u_port u) (DefaultPort u)); simpl; [by left|by right].
Qed.

(** The authority the printer writes is read back. *)
Lemma ParseAuthority_print u info :
  host_ok (u_host u) -> Authority u <> [] -> 0 <= u_port u <= 65535 ->
  (info = [] \/ info = u_userinfo u ++ lit "@") ->
  ParseAuthority (u_scheme u) (info ++ u_host u ++ port_suffix u) =
  inr (mkUri (u_scheme u) (if bool_decide (info = []) then [] else u_userinfo u) (u_host u)
         (u_port (canonical u)) [] [] false).
Proof.
  intros Hh Hne Hp Hi. pose proof (ho_at _ Hh) as Hat.
  assert ("@"%char ∉ u_host u ++ port_suffix u) as Hat2.
  { destruct (port_suffix_cases u Hp) as [[-> _]|[-> _]]; [by rewrite app_nil_r|].
    rewrite not_elem_of_app, not_elem_of_cons. split_and!; [done|done|]. apply to_string_no_char; [lia|done]. }
  unfold ParseAuthority.
  assert (match rfind "@" (info ++ u_host u ++ port_suffix u) with
          | Some at_ => (take at_ (info ++ u_host u ++ port_suffix u), drop (S at_) (info ++ u_host u ++ port_suffix u))
          | None => ([], info ++ u_host u ++ port_suffix u) end
          = (if bool_decide (info = []) then [] else u_userinfo u, u_host u ++ port_suffix u)) as ->.
  { destruct Hi as [->|E]; [simpl; apply rfind_None in Hat2; by rewrite Hat2|].
    rewrite bool_decide_eq_false_2 by (rewrite E; by intros [_ ?]%app_nil). subst info.
    rewrite <-app_assoc. cbn [app lit list_ascii_of_string]. rewrite rfind_app by done. rewrite take_app_length.
    rewrite drop_app_ge by lia. by replace (S (length (u_userinfo u)) - length (u_userinfo u))%nat with 1%nat by lia. }
  rewrite bool_decide_eq_false_2 by done.
  rewrite port_colon_host; [|done|done|destruct (port_suffix_cases u Hp) as [[-> _]|[-> _]]; eauto].
  destruct (port_suffix_cases u Hp) as [[-> ->]|(-> & -> & Hp0)].
  - unfold LowerAscii. rewrite app_nil_r. by rewrite ho_lower.
  - rewrite take_app_length. unfold LowerAscii. rewrite ho_lower by done.
    rewrite drop_app_ge by lia. replace (S (length (u_host u)) - length (u_host u))%nat with 1%nat by lia.
    change (drop 1 (":"%char :: ?x)) with x.
    rewrite bool_decide_eq_false_2 by apply to_string_nonempty.
    assert (fold_left decimal_step (to_string (u_port u)) 0 = u_port u) as Hv
      by (apply decimal_value_to_string; lia).
    rewrite port_loop_value; [|apply to_string_digits; lia|done|lia]. rewrite Hv.
    by destruct (Z.eqb_spec (u_port u) 0).
Qed.

(** Without a host and a port there is nothing to read. *)
Lemma ParseAuthority_no_host u info :
  Authority u = [] -> (info = [] \/ info = u_userinfo u ++ lit "@") ->
  ParseAuthority (u_scheme u) (info ++ u_host u ++ port_suffix u) = inl (lit "URI has no host").
Proof.
  intros E Hi. change (u_host u ++ port_suffix u) with (Authority u). rewrite E, app_nil_r. unfold ParseAuthority.
  destruct Hi as [-> | ->]; [done|]. cbn [app lit list_ascii_of_string]. rewrite rfind_app by apply not_elem_of_nil.
  rewrite drop_app_ge by lia. by replace (S (length (u_userinfo u)) - length (u_userinfo u))%nat with 1%nat by lia.
Qed.

(** ** Reading back what is printed *)

Definition is_scheme (s : str) : Prop := s = lit "http" \/ s = lit "https".

(** What [ParseUri] does after the authority. *)
Definition finish_uri (rest : str) (r : str + Uri) : str + Uri :=
  match r with
  | inl e => inl e
  | inr u =>
      let u := SplitPathAndQuery rest u in
      inr (with_path_query (RemoveDotSegments (u_path u)) (u_query u) (u_hasQuery u) u)
  end.

Definition ends_auth (rest : str) : Prop :=
  rest = [] \/ exists c r, rest = c :: r /\ (c = slash \/ c = "?"%char).

Lemma StripFragment_id s : "#"%char ∉ s -> StripFragment s = s.
Proof. intros H%find_None. unfold StripFragment. by rewrite H. Qed.

Lemma StripFragment_In s : "#"%char ∉ StripFragment s /\ (forall c, c ∈ StripFragment s -> c ∈ s).
Proof.
  unfold StripFragment. destruct (find "#" s) as [i|] eqn:E.
  - apply find_split in E as [E1 E2]. split; [done|]. intros c Hc. rewrite E1. set_solver.
  - apply find_None in E. done.
Qed.

Lemma scheme_facts s : is_scheme s ->
  ":"%char ∉ s /\ "#"%char ∉ s /\ LowerAscii s = s /\
  negb (str_eqb s (lit "http")) && negb (str_eqb s (lit "https")) = false.
Proof.
  intros [-> | ->]; split_and!; try done; apply (bool_decide_unpack _); by vm_compute.
Qed.

Lemma find_first_of_end a rest :
  Forall (fun c => authority_char c = true) a -> ends_auth rest ->
  match find_first_of (lit "/?") (a ++ rest) with
  | Some e => (take e (a ++ rest), drop e (a ++ rest))
  | None => (a ++ rest, [])
  end = (a, rest).
Proof.
  intros Ha Hr. assert (Forall (fun c => bool_decide (c ∈ lit "/?") = false) a) as Ha'.
  { eapply Forall_impl; [exact Ha|]. intros c (H1 & H2 & _)%authority_char_spec.
    apply bool_decide_eq_false. cbn [lit list_ascii_of_string]. rewrite !not_elem_of_cons.
    split_and!; [done..|apply not_elem_of_nil]. }
  unfold find_first_of. destruct Hr as [->|(c & r & -> & Hc)].
  - rewrite app_nil_r. apply find_if_None in Ha'. by rewrite Ha'.
  - rewrite find_if_app; [by rewrite take_app_length, drop_app_length|done|].
    apply bool_decide_eq_true. cbn [lit list_ascii_of_string]. set_solver.
Qed.

Lemma ParseUri_split scheme auth rest :
  is_scheme scheme -> Forall (fun c => authority_char c = true) auth -> ends_auth rest -> "#"%char ∉ rest ->
  ParseUri (scheme ++ lit "://" ++ auth ++ rest) = finish_uri rest (ParseAuthority scheme auth).
Proof.
  intros Hs Ha Hr Hh. destruct (scheme_facts _ Hs) as (S1 & S2 & S3 & S4).
  unfold ParseUri. rewrite StripFragment_id.
  2:{ rewrite !not_elem_of_app. split_and!; [done| |intros Hin|done].
      - apply (bool_decide_unpack _). by vm_compute.
      - rewrite Forall_forall in Ha. apply Ha, authority_char_spec in Hin. naive_solver. }
  change (lit "://" ++ auth ++ rest) with (":"%char :: slash :: slash :: auth ++ rest).
  rewrite find_app by done. rewrite take_app_length, S3, S4.
  rewrite drop_app_ge by lia. replace (S (length scheme) - length scheme)%nat with 1%nat by lia.
  change (drop 1 (":"%char :: ?x)) with x. change (starts_with (lit "//") (slash :: slash :: _)) with true.
  change (drop 2 (slash :: slash :: ?x)) with x. cbn [negb]. by rewrite find_first_of_end.
Qed.

(** ... and every URI it accepts is of that form. *)
Lemma ParseUri_inv text u :
  ParseUri text = inr u ->
  exists scheme auth rest, is_scheme scheme /\ Forall (fun c => authority_char c = true) auth /\
    ends_auth rest /\ "#"%char ∉ rest /\ (forall c, c ∈ auth \/ c ∈ rest -> c ∈ text) /\
    finish_uri rest (ParseAuthority scheme auth) = inr u.
Proof.
  unfold ParseUri. destruct (StripFragment_In text) as [Hh Hin]. set (t := StripFragment text) in *.
  destruct (find ":" t) as [colon|] eqn:Ec; [|done]. set (scheme := LowerAscii _).
  destruct (_ && _) eqn:Es; [done|]. destruct (starts_with _ _) eqn:Esl; [|done]. cbn [negb].
  apply find_split in Ec as [Et _]. apply starts_with_true in Esl. cbn [lit list_ascii_of_string length] in Esl.
  set (r2 := drop 2 (drop (S colon) t)) in *.
  assert (forall c, c ∈ r2 -> c ∈ t) as Hr2.
  { intros c Hc. rewrite Et, Esl. set_solver. }
  assert (is_scheme scheme) as Hsch.
  { unfold is_scheme. rewrite <-!str_eqb_eq. destruct (str_eqb scheme (lit "http")); [by left|].
    destruct (str_eqb scheme (lit "https")); [by right|done]. }
  intros Hp. destruct (find_first_of (lit "/?") r2) as [e|] eqn:Ef.
  - unfold find_first_of in Ef. apply find_if_split in Ef as (c & E & Hc & HF).
    assert (r2 = take e r2 ++ drop e r2) as E2 by by rewrite take_drop.
    exists scheme, (take e r2), (drop e r2). split_and!; try done.
    + rewrite Forall_forall in HF. apply Forall_forall. intros x Hx. apply authority_char_spec.
      pose proof (HF x Hx) as Hx2. apply bool_decide_eq_false in Hx2. cbn [lit list_ascii_of_string] in Hx2.
      split_and!; [set_solver|set_solver|]. intros ->. apply Hh, Hr2. rewrite E2. set_solver.
    + right. exists c, (drop (S e) r2). apply bool_decide_eq_true in Hc.
      cbn [lit list_ascii_of_string] in Hc. split; [|set_solver].
      apply (app_inv_head (take e r2)). rewrite take_drop. exact E.
    + intros Hx. apply Hh, Hr2. rewrite E2. set_solver.
    + intros x Hx. apply Hin, Hr2. rewrite E2. set_solver.
  - exists scheme, r2, []. unfold find_first_of in Ef. apply find_if_None in Ef. split_and!; try done.
    + rewrite Forall_forall in Ef. apply Forall_forall. intros x Hx. apply authority_char_spec.
      pose proof (Ef x Hx) as Hx2. apply bool_decide_eq_false in Hx2. cbn [lit list_ascii_of_string] in Hx2.
      split_and!; [set_solver|set_solver|]. intros ->. by apply Hh, Hr2.
    + by left.
    + apply not_elem_of_nil.
    + intros x [Hx|Hx]; [by apply Hin, Hr2|by apply not_elem_of_nil in Hx].
Qed.

(** ** What the parser establishes *)

Lemma port_colon_inv hostPort o :
  port_colon hostPort = inr o ->
  let h := match o with Some colon => take colon hostPort | None => hostPort end in
  (exists l, h = "["%char :: l ++ lit "]" /\ "]"%char ∉ l) \/
  (h !! 0%nat <> Some "["%char /\ ":"%char ∉ h).
Proof.
  unfold port_colon. destruct (char_eqb _ "[") eqn:E0.
  - apply char_eqb_eq in E0. destruct (find "]" hostPort) as [close|] eqn:Ef; [|done].
    pose proof (find_lt _ _ _ Ef) as Hlt. apply find_split in Ef as [Eh Hn].
    destruct hostPort as [|c rest]; [done|]. simpl in E0. subst c.
    destruct close as [|close]; [done|]. simpl in Eh, Hn. injection Eh as Eh.
    rewrite not_elem_of_cons in Hn. destruct Hn as [_ Hn].
    assert (close < length rest)%nat by (simpl in Hlt; lia).
    assert (take (S close) rest = take close rest ++ lit "]") as Et.
    { rewrite Eh at 1. rewrite take_app_ge, length_take by (rewrite length_take; lia).
      by replace (S close - close `min` length rest)%nat with 1%nat by lia. }
    destruct (("["%char :: rest) !! S (S close)) as [c|] eqn:El.
    + destruct (char_eqb c ":"); [|done]. intros [= <-]. left. exists (take close rest).
      split; [|done]. cbn [take]. by rewrite Et.
    + intros [= <-]. left. exists (take close rest). split; [|done].
      apply lookup_ge_None in El. simpl in El. rewrite <-Et. f_equal. symmetry. apply take_ge. lia.
  - intros [= <-]. right. split.
    + destruct (find ":" hostPort) as [colon|] eqn:Ef.
      * destruct hostPort as [|c rest]; [done|]. destruct colon; [done|]. simpl in *. intros [= ->].
        by rewrite char_eqb_refl in E0.
      * destruct hostPort as [|c rest]; [done|]. simpl in *. intros [= ->]. by rewrite char_eqb_refl in E0.
    + destruct (find ":" hostPort) as [colon|] eqn:Ef; [by apply find_split in Ef as [_ ?]|by apply find_None].
Qed.

Lemma lower_str_app a b : lower_str (a ++ b) = lower_str a ++ lower_str b.
Proof. apply map_app. Qed.

Lemma host_ok_lower h :
  Forall (fun c => authority_char c = true) h -> "@"%char ∉ h ->
  ((exists l, h = "["%char :: l ++ lit "]" /\ "]"%char ∉ l) \/
   (h !! 0%nat <> Some "["%char /\ ":"%char ∉ h)) -> host_ok (lower_str h).
Proof.
  intros Hc Hat Hs. split.
  - apply lower_str_idem.
  - rewrite Forall_forall in Hc. apply Forall_forall. intros c Hin. apply authority_char_spec.
    split_and!; intros ->; rewrite lower_In in Hin by done; apply Hc in Hin; done.
  - by rewrite lower_In.
  - destruct Hs as [(l & -> & Hl)|[H0 Hc2]].
    + left. exists (lower_str l). split; [|by rewrite lower_In].
      change ("["%char :: l ++ lit "]") with (lit "[" ++ l ++ lit "]"). by rewrite !lower_str_app.
    + right. split; [|by rewrite lower_In]. destruct h as [|c h]; [done|]. simpl in *.
      intros [= E]. apply H0. rewrite lower_special in E by done. by rewrite E.
Qed.

Lemma ParseAuthority_inv scheme auth u :
  ParseAuthority scheme auth = inr u -> Forall (fun c => authority_char c = true) auth ->
  u_scheme u = scheme /\ Forall (fun c => authority_char c = true) (u_userinfo u) /\
  host_ok (u_host u) /\ 0 <= u_port u <= 65535.
Proof.
  intros Hp Ha. unfold ParseAuthority in Hp.
  assert (exists ui hp, match rfind "@" auth with
    | Some at_ => (take at_ auth, drop (S at_) auth) | None => ([], auth) end = (ui, hp) /\
    Forall (fun c => authority_char c = true) ui /\ Forall (fun c => authority_char c = true) hp /\ "@"%char ∉ hp)
    as (ui & hp & E & Hui & Hhp & Hat).
  { destruct (rfind "@" auth) as [i|] eqn:E.
    - apply rfind_split in E as [_ E]. eexists _, _. split_and!; [done| | |done].
      + by apply Forall_take.
      + by apply Forall_drop.
    - apply rfind_None in E. eexists _, _. by split_and!. }
  rewrite E in Hp. destruct (bool_decide (hp = [])); [done|].
  destruct (port_colon hp) as [|[colon|]] eqn:Ec; [done| |].
  - pose proof (port_colon_inv _ _ Ec) as Hs. cbv zeta iota beta in Hs.
    assert (host_ok (LowerAscii (take colon hp))) as Hh.
    { apply host_ok_lower; [by apply Forall_take| |done]. intros Hin. apply Hat.
      rewrite <-(take_drop colon hp). set_solver. }
    destruct (bool_decide _); [injection Hp as <-; split_and!; simpl; (done || lia)|].
    destruct (port_loop _ 0) as [|port] eqn:El; [done|]. apply port_loop_range in El; [|lia].
    destruct (port =? 0); [done|]. injection Hp as <-. split_and!; simpl; (done || lia).
  - pose proof (port_colon_inv _ _ Ec) as Hs. cbv zeta iota beta in Hs. injection Hp as <-.
    split_and!; simpl; (done || lia || by apply host_ok_lower).
Qed.

(** A rooted path and a query, from what follows an authority. *)
Lemma SplitPathAndQuery_spec rest u :
  ends_auth rest -> "#"%char ∉ rest ->
  exists r, u_path (SplitPathAndQuery rest u) = slash :: r /\
    "?"%char ∉ slash :: r /\ "#"%char ∉ slash :: r /\ "#"%char ∉ u_query (SplitPathAndQuery rest u) /\
    (u_hasQuery (SplitPathAndQuery rest u) = false -> u_query (SplitPathAndQuery rest u) = []).
Proof.
  intros He Hh. unfold SplitPathAndQuery. destruct (find "?" rest) as [i|] eqn:Ef.
  - apply find_split in Ef as [E Hn]. assert ("#"%char ∉ drop (S i) rest) as Hq.
    { intros Hin. apply Hh. rewrite E. set_solver. }
    assert ("#"%char ∉ take i rest) as Hp. { intros Hin. apply Hh. rewrite E. set_solver. }
    destruct He as [->|(c & r & -> & [-> | ->])]; [by destruct i| |].
    + destruct i as [|i]; [simpl in E; congruence|]. simpl in *. exists (take i r). by split_and!.
    + destruct i as [|i]; [|by simpl in Hn; set_solver]. simpl. exists []. split_and!; try done; set_solver.
  - apply find_None in Ef. destruct He as [->|(c & r & -> & [-> | ->])]; simpl.
    + exists []. split_and!; try done; set_solver.
    + exists r. split_and!; try done. apply not_elem_of_nil.
    + set_solver.
Qed.

(** Parsing establishes the invariant the reader relies on: an http scheme in
    lower case, a host free of credentials and delimiters, a port of 16 bits, a
    rooted path without dot segments, and no fragment anywhere. *)
Lemma ParseUri_wf text u : ParseUri text = inr u -> uri_wf u.
Proof.
  intros (scheme & auth & rest & Hs & Ha & He & Hh & _ & Hp)%ParseUri_inv.
  unfold finish_uri in Hp. destruct (ParseAuthority scheme auth) as [|v] eqn:Ep; [done|]. injection Hp as <-.
  destruct (ParseAuthority_inv _ _ _ Ep Ha) as (E1 & E2 & E3 & E4).
  destruct (SplitPathAndQuery_spec rest v He Hh) as (r & F1 & F2 & F3 & F4 & F5).
  assert (forall w, u_scheme (SplitPathAndQuery rest w) = u_scheme w /\ u_userinfo (SplitPathAndQuery rest w) = u_userinfo w /\
    u_host (SplitPathAndQuery rest w) = u_host w /\ u_port (SplitPathAndQuery rest w) = u_port w) as Hk.
  { intros w. unfold SplitPathAndQuery. by destruct (find _ _). }
  destruct (Hk v) as (K1 & K2 & K3 & K4). split; simpl; try rewrite ?K1, ?K2, ?K3, ?K4, ?F1; try done.
  - by rewrite E1.
  - apply RemoveDotSegments_clean.
  - split; intros Hin%RemoveDotSegments_In; done.
Qed.

(** ** Round trip *)

(** Parsing the text printed for [u]: [v], unless there is neither a host nor a
    port to print. *)
Definition read_back (u v : Uri) : str + Uri :=
  if bool_decide (Authority u = []) then inl (lit "URI has no host") else inr v.

Lemma Compose_parse u info :
  uri_wf u ->
  (info = [] \/ info = u_userinfo u ++ lit "@") ->
  ParseUri (u_scheme u ++ lit "://" ++ (info ++ u_host u ++ port_suffix u) ++
            u_path u ++ (if u_hasQuery u then lit "?" ++ u_query u else [])) =
  read_back u (canonical (if bool_decide (info = []) then without_userinfo u else u)).
Proof.
  intros [W1 W2 W3 W4 W5 [W6 W7] W8 W9] Hi.
  assert (Forall (fun c => authority_char c = true) (port_suffix u)) as Hps.
  { destruct (port_suffix_cases u W4) as [[-> _]|[-> _]]; [constructor|]. constructor; [done|].
    apply Forall_digits_impl; [by vm_compute|]. apply to_string_digits. lia. }
  set (rest := u_path u ++ _).
  assert (ends_auth rest) as He.
  { destruct (clean_path_rooted _ W5) as (r & E). right. unfold rest. rewrite E. simpl. eauto. }
  rewrite ParseUri_split; [|done| |done|].
  2:{ rewrite !Forall_app. split_and!; [|apply W3|done]. destruct Hi as [->| ->]; [constructor|].
      apply Forall_app. split; [done|]. by repeat constructor. }
  2:{ unfold rest. rewrite not_elem_of_app. split; [done|]. destruct (u_hasQuery u); [|apply not_elem_of_nil].
      cbn [app lit list_ascii_of_string]. rewrite not_elem_of_cons. done. }
  unfold read_back. destruct (bool_decide_reflect (Authority u = [])) as [Eau|Eau]; [by rewrite ParseAuthority_no_host|].
  rewrite ParseAuthority_print by done. cbn [finish_uri].
  assert (forall v, SplitPathAndQuery rest v = with_path_query (u_path u) (u_query u) (u_hasQuery u) v) as Hsp.
  { intros v. unfold SplitPathAndQuery, rest. destruct (clean_path_rooted _ W5) as (r & E).
    destruct (u_hasQuery u) eqn:Eq.
    - cbn [app lit list_ascii_of_string]. rewrite find_app by done. rewrite take_app_length.
      rewrite drop_app_ge by lia. replace (S (length (u_path u)) - length (u_path u))%nat with 1%nat by lia.
      rewrite bool_decide_eq_false_2; [done|]. by rewrite E.
    - rewrite app_nil_r. apply find_None in W6. rewrite W6, W9 by done.
      rewrite bool_decide_eq_false_2; [done|]. by rewrite E. }
  rewrite Hsp. cbn [u_path u_query u_hasQuery with_path_query]. rewrite RemoveDotSegments_id by done.
  f_equal. unfold canonical, without_userinfo, with_path_query, DefaultPort, IsSecure. simpl.
  by destruct (bool_decide (info = [])).
Qed.

Lemma Compose_eq u b :
  Compose u b = u_scheme u ++ lit "://" ++
    ((if b && negb (bool_decide (u_userinfo u = [])) then u_userinfo u ++ lit "@" else []) ++
     u_host u ++ port_suffix u) ++ u_path u ++ (if u_hasQuery u then lit "?" ++ u_query u else []).
Proof. unfold Compose. by rewrite <-!app_assoc. Qed.

Lemma port_suffix_canonical u : port_suffix (canonical u) = port_suffix u.
Proof.
  unfold port_suffix. change (DefaultPort (canonical u)) with (DefaultPort u). unfold canonical. simpl.
  destruct (Z.eqb_spec (u_port u) (DefaultPort u)) as [E|E]; simpl; [by rewrite andb_false_r|].
  by destruct (Z.eqb_spec (u_port u) (DefaultPort u)).
Qed.

(** The identity text names the same resource, without its credentials. *)
Lemma ToIdentity_parse u :
  uri_wf u -> ParseUri (ToIdentity u) = read_back u (canonical (without_userinfo u)).
Proof. intros Hw. unfold ToIdentity. rewrite Compose_eq. rewrite Compose_parse; [done|done|by left]. Qed.

Lemma ToString_parse u : uri_wf u -> ParseUri (ToString u) = read_back u (canonical u).
Proof.
  intros Hw. unfold ToString. rewrite Compose_eq, Compose_parse; [|done|].
  - destruct (bool_decide_reflect (u_userinfo u = [])) as [E|E]; simpl.
    + unfold canonical, without_userinfo. by rewrite E.
    + rewrite bool_decide_eq_false_2; [done|]. by intros [_ ?]%app_nil.
  - destruct (bool_decide _); [by left|by right].
Qed.

(** C31: a URI the parser accepts is printed to text that parses back to it, up to
    the explicit spelling of the scheme's default port; the identity text parses
    back to the same URI without its credentials, and so names the same origin,
    path and query.  This holds of every accepted URI that has a host or a port
    other than its scheme's default, and of no other: the parser accepts
    [http://:80/a], and refuses the text printed for it, which has no host. *)
Theorem ParseUri_roundtrip text u :
  ParseUri text = inr u ->
  ParseUri (ToString u) = read_back u (canonical u) /\
  ParseUri (ToIdentity u) = read_back u (canonical (without_userinfo u)) /\
  ToString (canonical u) = ToString u.
Proof.
  intros Hp%ParseUri_wf. split_and!; [by apply ToString_parse|by apply ToIdentity_parse|].
  unfold ToString. rewrite !Compose_eq. by rewrite port_suffix_canonical.
Qed.

(** ** References *)

Lemma merged_rooted base p :
  uri_wf base -> exists r, match rfind slash (u_path base) with
                           | Some i => take (S i) (u_path base) | None => [] end ++ p = slash :: r /\
    (forall c, c ∈ slash :: r -> c ∈ u_path base \/ c ∈ p).
Proof.
  intros Hw. destruct (clean_path_rooted _ (uw_clean _ Hw)) as (b & E). rewrite E.
  destruct (rfind slash (slash :: b)) as [i|] eqn:Er.
  - exists (take i b ++ p). split; [done|]. intros c. rewrite elem_of_cons, elem_of_app.
    intros [->|[H|H]]; [set_solver| |by right]. left. right. rewrite <-(take_drop i b). set_solver.
  - apply rfind_None in Er. set_solver.
Qed.

Lemma rooted_id r : rooted (slash :: r) = slash :: r.
Proof. done. Qed.

Lemma wf_with_path base r query hasQuery :
  uri_wf base -> "?"%char ∉ slash :: r -> "#"%char ∉ slash :: r -> "#"%char ∉ query ->
  (hasQuery = false -> query = []) ->
  uri_wf (with_path_query (rooted (RemoveDotSegments (slash :: r))) query hasQuery base).
Proof.
  intros [] H1 H2 H3 H4. pose proof (RemoveDotSegments_clean r) as Hc.
  assert (rooted (RemoveDotSegments (slash :: r)) = RemoveDotSegments (slash :: r)) as ->.
  { destruct (clean_path_rooted _ Hc) as (x & ->). apply rooted_id. }
  split; simpl; try done. split; intros Hin%RemoveDotSegments_In; done.
Qed.

Lemma starts_with_slash s : starts_with (lit "/") s = true -> exists r, s = slash :: r.
Proof. intros E%starts_with_true. exists (drop 1 s). exact E. Qed.

(** Resolution keeps the invariant of the URIs the reader works with. *)
Lemma ResolveReference_wf base reference u :
  uri_wf base -> ResolveReference base reference = inr u -> uri_wf u.
Proof.
  intros Hb. unfold ResolveReference. destruct (StripFragment_In reference) as [Hh _].
  set (ref := StripFragment reference) in *. destruct (bool_decide _); [done|].
  destruct (match find ":" ref with Some _ => _ | None => _ end); [apply ParseUri_wf|].
  destruct (starts_with (lit "//") ref); [apply ParseUri_wf|].
  destruct (starts_with (lit "?") ref) eqn:Eq.
  { intros [= <-]. apply starts_with_true in Eq. cbn [lit list_ascii_of_string length] in Eq.
    destruct Hb. split; simpl; try done. intros Hin. apply Hh. rewrite Eq. set_solver. }
  assert (exists p q h, match find "?" ref with
    | Some question => (take question ref, drop (S question) ref, true) | None => (ref, [], false) end = (p, q, h) /\
    "?"%char ∉ p /\ "#"%char ∉ p /\ "#"%char ∉ q /\ (h = false -> q = [])) as (p & q & h & -> & P1 & P2 & P3 & P4).
  { destruct (find "?" ref) as [i|] eqn:Ef.
    - apply find_split in Ef as [E Hn]. eexists _, _, _. split_and!; [done|done| | |done];
        intros Hin; apply Hh; rewrite E; set_solver.
    - apply find_None in Ef. eexists _, _, _. split_and!; try done. apply not_elem_of_nil. }
  intros <-%inr_inj. destruct (starts_with (lit "/") p) eqn:Es.
  - apply starts_with_slash in Es as (r & ->). by apply wf_with_path.
  - destruct (merged_rooted base p Hb) as (r & E & Hr). rewrite E.
    destruct (uw_path _ Hb). apply wf_with_path; try done; intros Hin%Hr; naive_solver.
Qed.

(** What section 5.2.2 makes of a reference with neither scheme nor authority:
    [p] is its path, [q] its query if it has one. *)
Definition rfc_merge (base : Uri) (p : str) : str :=
  match rfind slash (u_path base) with Some i => take (S i) (u_path base) | None => lit "/" end ++ p.

Definition rfc_transform (base : Uri) (p : str) (q : option str) : Uri :=
  with_path_query
    (if bool_decide (p = []) then u_path base
     else rfc_remove_dot_segments (if starts_with (lit "/") p then p else rfc_merge base p))
    (default [] q) (bool_decide (is_Some q)) base.

Definition print_reference (p : str) (q : option str) : str :=
  p ++ match q with Some q => "?"%char :: q | None => [] end.

(** No colon in the first segment: the text has no scheme. *)
Definition scheme_free (p : str) : Prop :=
  forall i, find ":" p = Some i -> exists j, find slash p = Some j /\ (j < i)%nat.

Lemma find_app_l c a b i : find c (a ++ b) = Some i -> (i < length a)%nat -> find c a = Some i.
Proof.
  unfold find. rewrite !find_if_Some. intros (d & Hd & Pd & HF) Hi. exists d.
  rewrite lookup_app_l in Hd by done. by rewrite take_app_le in HF by lia.
Qed.

Lemma scheme_free_relative p q :
  scheme_free p -> "?"%char ∉ p ->
  match find ":" (print_reference p q), find_first_of (lit "/?#") (print_reference p q) with
  | Some colon, Some firstDelimiter => (colon <? firstDelimiter)%nat
  | Some _, None => true
  | None, _ => false
  end = false.
Proof.
  intros Hsf Hq. destruct (find ":" _) as [colon|] eqn:Ec; [|done].
  assert (forall j, find slash p = Some j -> exists d, find_first_of (lit "/?#") (print_reference p q) = Some d /\ (d <= j)%nat) as Hj.
  { intros j Hj. unfold find_first_of. destruct (find_if _ _) as [d|] eqn:Ed.
    - exists d. split; [done|]. apply find_if_Some in Ed as (x & _ & _ & HF).
      destruct (decide (d <= j)%nat) as [|Hn]; [done|]. exfalso. unfold find in Hj.
      apply find_if_Some in Hj as (s & Hs & Es%char_eqb_eq & _). subst s.
      rewrite Forall_lookup in HF. specialize (HF j slash).
      rewrite lookup_take_lt in HF by lia. unfold print_reference in HF.
      rewrite lookup_app_l in HF by by eapply lookup_lt_Some. specialize (HF Hs). done.
    - exfalso. apply find_if_None in Ed. rewrite Forall_forall in Ed.
      apply find_split in Hj as [E _]. specialize (Ed slash). unfold print_reference in Ed.
      rewrite E in Ed. ospecialize (Ed _); [set_solver|done]. }
  destruct (decide (colon < length p)%nat) as [Hlt|Hge].
  - destruct (Hsf colon (find_app_l _ _ _ _ Ec Hlt)) as (j & Ej & Hjc).
    destruct (Hj j Ej) as (d & -> & Hd). apply Nat.ltb_ge. lia.
  - destruct q as [q|].
    2:{ unfold print_reference in Ec. rewrite app_nil_r in Ec. apply find_lt in Ec. lia. }
    unfold find_first_of. destruct (find_if _ _) as [d|] eqn:Ed.
    + apply Nat.ltb_ge. apply find_if_Some in Ed as (x & _ & _ & HF).
      destruct (decide (d <= length p)%nat) as [|Hn]; [lia|]. exfalso.
      rewrite Forall_lookup in HF. specialize (HF (length p) "?"%char).
      rewrite lookup_take_lt in HF by lia. unfold print_reference in HF.
      rewrite list_lookup_middle in HF by done. by specialize (HF eq_refl).
    + exfalso. apply find_if_None in Ed. rewrite Forall_forall in Ed. specialize (Ed "?"%char).
      unfold print_reference in Ed. ospecialize (Ed _); [set_solver|done].
Qed.

(** C32: a redirect to a relative reference is resolved as RFC 3986 prescribes: the
    path of the reference, merged with the base's where it is relative, with the
    dot segments removed by the RFC's own rewriting, under the authority of the
    base; and the result is again a well-formed URI. *)
Theorem ResolveReference_rfc base p q :
  uri_wf base -> scheme_free p -> starts_with (lit "//") p = false ->
  "?"%char ∉ p -> "#"%char ∉ p -> (forall s, q = Some s -> "#"%char ∉ s) ->
  print_reference p q <> [] ->
  ResolveReference base (print_reference p q) = inr (rfc_transform base p q) /\
  uri_wf (rfc_transform base p q).
Proof.
  intros Hb Hsf Hss Hq Hh Hqh Hne.
  enough (ResolveReference base (print_reference p q) = inr (rfc_transform base p q)) as E.
  { split; [done|]. by eapply ResolveReference_wf. }
  unfold ResolveReference. rewrite StripFragment_id.
  2:{ unfold print_reference. rewrite not_elem_of_app. split; [done|].
      destruct q as [s|]; [|apply not_elem_of_nil]. rewrite not_elem_of_cons. split; [done|]. by apply Hqh. }
  rewrite bool_decide_eq_false_2 by done. rewrite scheme_free_relative by done.
  assert (starts_with (lit "//") (print_reference p q) = false) as ->.
  { unfold print_reference. destruct p as [|a [|b p]]; [by destruct q| |done].
    simpl. destruct q; [|done]. by rewrite andb_false_r. }
  unfold rfc_transform. destruct p as [|a p].
  { destruct q as [s|]; [|done]. simpl. by rewrite drop_0. }
  assert (starts_with (lit "?") (print_reference (a :: p) q) = false) as ->.
  { simpl. rewrite char_eqb_ne; [done|]. set_solver. }
  assert (match find "?" (print_reference (a :: p) q) with
    | Some question => (take question (print_reference (a :: p) q), drop (S question) (print_reference (a :: p) q), true)
    | None => (print_reference (a :: p) q, [], false) end = (a :: p, default [] q, bool_decide (is_Some q))) as ->.
  { unfold print_reference. destruct q as [s|].
    - rewrite find_app by done. rewrite take_app_length, drop_app_ge by lia.
      replace (S (length (a :: p)) - length (a :: p))%nat with 1%nat by lia.
      by rewrite bool_decide_eq_true_2.
    - rewrite app_nil_r. apply find_None in Hq. rewrite Hq. rewrite bool_decide_eq_false_2; [done|]. by intros [? ?]. }
  rewrite (bool_decide_eq_false_2 (a :: p = [])) by done. do 2 f_equal.
  assert (forall r, rooted (RemoveDotSegments (slash :: r)) = rfc_remove_dot_segments (slash :: r)) as Hr.
  { intros r. rewrite <-RemoveDotSegments_rfc_eq. destruct (clean_path_rooted _ (RemoveDotSegments_clean r)) as (x & ->). done. }
  destruct (starts_with (lit "/") (a :: p)) eqn:Es.
  - apply starts_with_slash in Es as (r & ->). apply Hr.
  - unfold rfc_merge. destruct (merged_rooted base (a :: p) Hb) as (r & E & _).
    destruct (clean_path_rooted _ (uw_clean _ Hb)) as (b & Eb).
    destruct (rfind slash (u_path base)) as [i|] eqn:Er; [by rewrite E|].
    exfalso. apply rfind_None in Er. rewrite Eb in Er. set_solver.
Qed.

(** The segment stack of the implementation computes the RFC's string
    rewriting on every rooted path; the result has no dot segment left and is
    a fixed point. *)
Theorem RemoveDotSegments_rfc rest :
  let p := RemoveDotSegments (slash :: rest) in
  p = rfc_remove_dot_segments (slash :: rest) /\ clean_path p /\ RemoveDotSegments p = p.
Proof.
  intros p. split_and!; [apply RemoveDotSegments_rfc_eq|apply RemoveDotSegments_clean|].
  apply RemoveDotSegments_id, RemoveDotSegments_clean.
Qed.

(** An authority that is only a port is accepted, with an empty host, and the
    text printed for it is not a URI. *)
Example empty_host :
  (match ParseUri (lit "http://:80/a") with inr u => inr (u_host u) | inl e => inl e end) = inr [] /\
  (match ParseUri (lit "http://:80/a") with inr u => ParseUri (ToString u) | e => e end)
    = inl (lit "URI has no host").
Proof. by vm_compute. Qed.
