(* ===== verification/Identifier.v ===== *)
(** * Identifier: the resolver's identifiers

    plugins/http-resolver: src/Identifier.h and src/Identifier.cpp.  A function
    that fills an out-parameter and returns [false] returns [None]; an
    identifier that is refused is the empty string, as in the source. *)

From S2P Require Import Prelude Diagnostics Uri.

Record Parts : Type := mkParts {
  pt_scheme : str;
  pt_hasAuthority : bool;
  pt_authority : str;
  pt_path : str;
  pt_query : str;
  pt_hasQuery : bool }.

#[export] Instance Parts_eq_dec : EqDecision Parts.
Proof. solve_decision. Defined.

Definition IsHex (c : ascii) : bool := is_digit c || in_range "a" "f" c || in_range "A" "F" c.

Definition HexValue (c : ascii) : Z :=
  if is_digit c then code c - 48
  else if in_range "a" "f" c then code c - 97 + 10
  else code c - 65 + 10.

Definition IsUnreserved (c : ascii) : bool :=
  is_alpha c || is_digit c || char_eqb c "-" || char_eqb c "." || char_eqb c "_" || char_eqb c "~".

Definition IsPathSafe (c : ascii) : bool :=
  IsUnreserved c || bool_decide (c ∈ lit "!$&'()*+,;=:@/").

Definition IsHostSafe (c : ascii) : bool := char_eqb c "[" || char_eqb c "]" || char_eqb c ":".

Definition kHex : str := lit "0123456789ABCDEF".

(** What [AppendPercent] appends. *)
Definition AppendPercent (c : ascii) : str :=
  ["%"%char; nth (Z.to_nat (Z.shiftr (code c) 4)) kHex "0"%char;
   nth (Z.to_nat (Z.land (code c) 15)) kHex "0"%char].

(** The byte an escape stands for. *)
Definition escape_value (h1 h2 : ascii) : ascii :=
  chr (Z.lor (Z.shiftl (HexValue h1) 4) (HexValue h2)).

Definition NormalizeEscape (value : ascii) : str :=
  if IsUnreserved value then [value] else AppendPercent value.

Definition NormalizeLiteral (hostSafe : bool) (c : ascii) : str :=
  if IsPathSafe c || (hostSafe && IsHostSafe c) then [c] else AppendPercent c.

(** The loop over the text, which skips the two digits of an escape. *)
Fixpoint NormalizePercentEncoding (hostSafe : bool) (text : str) : str :=
  match text with
  | [] => []
  | c :: rest =>
      match rest with
      | h1 :: h2 :: rest' =>
          if char_eqb c "%" && IsHex h1 && IsHex h2
          then NormalizeEscape (escape_value h1 h2) ++ NormalizePercentEncoding hostSafe rest'
          else NormalizeLiteral hostSafe c ++ NormalizePercentEncoding hostSafe rest
      | _ => NormalizeLiteral hostSafe c ++ NormalizePercentEncoding hostSafe rest
      end
  end.

(** [out.erase] from the last slash on, or of everything. *)
Definition erase_last (out : str) : str :=
  take (default 0%nat (rfind "/" out)) out.

(** One turn of the loop of [RemoveDotSegments]: the new [in] and [out]. *)
Definition dot_step (input out : str) : str * str :=
  if starts_with (lit "../") input then (drop 3 input, out)
  else if starts_with (lit "./") input then (drop 2 input, out)
  else if starts_with (lit "/./") input then (lit "/" ++ drop 3 input, out)
  else if str_eqb input (lit "/.") then (lit "/", out)
  else if starts_with (lit "/../") input then (lit "/" ++ drop 4 input, erase_last out)
  else if str_eqb input (lit "/..") then (lit "/", erase_last out)
  else if str_eqb input (lit ".") || str_eqb input (lit "..") then ([], out)
  else
    let start := if starts_with (lit "/") input then 1%nat else 0%nat in
    let next := default (length input) (find_from "/" input start) in
    (drop next input, out ++ take next input).

(** Every turn shortens [in]. *)
Fixpoint dot_loop (fuel : nat) (input out : str) : str :=
  match fuel with
  | O => out
  | S fuel' =>
      if bool_decide (input = []) then out
      else let '(input, out) := dot_step input out in dot_loop fuel' input out
  end.

Definition RemoveDotSegments (path : str) : str := dot_loop (length path) path [].

Definition Compose (scheme authority path query : str) (hasQuery : bool) : str :=
  scheme ++ lit "://" ++ authority ++ path ++ (if hasQuery then lit "?" ++ query else []).

(** Where the scheme ends, if the text has one: the first character that is not
    one of a scheme's is a colon. *)
Definition scheme_end (text : str) : option nat :=
  match text with
  | [] => None
  | c :: rest =>
      if is_alpha c then
        match find_if (fun d => negb (scheme_char d)) rest with
        | Some i => if char_eqb (default " "%char (rest !! i)) ":" then Some (S i) else None
        | None => None
        end
      else None
  end.

Definition SplitUriReference (text : str) : option Parts :=
  if bool_decide (text = []) then None
  else
    let text := match find "#" text with Some hash => take hash text | None => text end in
    let '(query, hasQuery, text) :=
      match find "?" text with
      | Some question => (drop (S question) text, true, take question text)
      | None => ([], false, text)
      end in
    let '(scheme, text) :=
      match scheme_end text with
      | Some i => (lower_str (take i text), drop (S i) text)
      | None => ([], text)
      end in
    let '(hasAuthority, authority, text) :=
      if starts_with (lit "//") text then
        let text := drop 2 text in
        match find "/" text with
        | None => (true, text, [])
        | Some at_slash => (true, take at_slash text, drop at_slash text)
        end
      else (false, [], text) in
    Some (mkParts scheme hasAuthority authority text query hasQuery).

(** The digits of the port: [None] where the source returns [false]. *)
Fixpoint port_digits (port : str) (value : Z) : option Z :=
  match port with
  | [] => Some value
  | c :: port' =>
      if negb (is_digit c) then None
      else
        let value := value * 10 + (code c - 48) in
        if 65535 <? value then None else port_digits port' value
  end.

(** The host and the port of an authority without userinfo. *)
Definition SplitHostPort (authority : str) : option (str * str) :=
  if starts_with (lit "[") authority then
    match find "]" authority with
    | None => None
    | Some close =>
        let host := take (S close) authority in
        let rest := drop (S close) authority in
        match rest with
        | [] => Some (host, [])
        | c :: port => if char_eqb c ":" then Some (host, port) else None
        end
    end
  else
    match rfind ":" authority with
    | Some colon => Some (take colon authority, drop (S colon) authority)
    | None => Some (authority, [])
    end.

Definition DropUserinfo (authority : str) : str :=
  match rfind "@" authority with Some at_ => drop (S at_) authority | None => authority end.

Definition NormalizePort (port : str) (secure : bool) : option str :=
  if bool_decide (port = []) then Some []
  else
    match port_digits port 0 with
    | None => None
    | Some value => Some (if value =? (if secure then 443 else 80) then [] else lit ":" ++ to_string value)
    end.

Definition NormalizeHost (host : str) : str := lower_str (NormalizePercentEncoding true host).

Definition NormalizeAuthority (authority : str) (secure : bool) : option str :=
  match SplitHostPort (DropUserinfo authority) with
  | None => None
  | Some (host, port) =>
      if bool_decide (host = []) then None
      else
        match NormalizePort port secure with
        | None => None
        | Some normalizedPort => Some (NormalizeHost host ++ normalizedPort)
        end
  end.

Definition IsClaimed (scheme : str) : bool := str_eqb scheme (lit "http") || str_eqb scheme (lit "https").

Definition NormalizeAbsolute (parts : Parts) : str :=
  if negb (IsClaimed (pt_scheme parts)) || negb (pt_hasAuthority parts) then []
  else
    match NormalizeAuthority (pt_authority parts) (str_eqb (pt_scheme parts) (lit "https")) with
    | None => []
    | Some authority =>
        let path := RemoveDotSegments (NormalizePercentEncoding false (pt_path parts)) in
        let path := if bool_decide (path = []) then lit "/" else path in
        if negb (starts_with (lit "/") path) then []
        else Compose (pt_scheme parts) authority path (pt_query parts) (pt_hasQuery parts)
    end.

Definition MergePath (base : Parts) (reference : str) : str :=
  if bool_decide (pt_path base = []) then lit "/" ++ reference
  else match rfind "/" (pt_path base) with
       | None => lit "/" ++ reference
       | Some at_slash => take (S at_slash) (pt_path base) ++ reference
       end.

Definition IsClaimedScheme (assetPath : str) : bool :=
  match SplitUriReference assetPath with
  | None => false
  | Some parts => IsClaimed (pt_scheme parts)
  end.

(** The [target] of a relative reference. *)
Definition ResolveTarget (base reference : Parts) : Parts :=
  if pt_hasAuthority reference then
    mkParts (pt_scheme base) true (pt_authority reference) (pt_path reference)
      (pt_query reference) (pt_hasQuery reference)
  else if bool_decide (pt_path reference = []) then
    if pt_hasQuery reference then
      mkParts (pt_scheme base) true (pt_authority base) (pt_path base) (pt_query reference) true
    else
      mkParts (pt_scheme base) true (pt_authority base) (pt_path base) (pt_query base) (pt_hasQuery base)
  else
    mkParts (pt_scheme base) true (pt_authority base)
      (if starts_with (lit "/") (pt_path reference) then pt_path reference
       else MergePath base (pt_path reference))
      (pt_query reference) (pt_hasQuery reference).

(** The parts [CreateIdentifier] normalizes, [None] where it returns before
    that. *)
Definition IdentifierTarget (assetPath anchorAssetPath : str) : option Parts :=
  match SplitUriReference assetPath with
  | None => None
  | Some reference =>
      if negb (bool_decide (pt_scheme reference = [])) then Some reference
      else if bool_decide (anchorAssetPath = []) then None
      else
        match SplitUriReference anchorAssetPath with
        | None => None
        | Some base =>
            if negb (IsClaimed (pt_scheme base)) || negb (pt_hasAuthority base) then None
            else Some (ResolveTarget base reference)
        end
  end.

Definition CreateIdentifier (assetPath anchorAssetPath : str) : str :=
  match IdentifierTarget assetPath anchorAssetPath with
  | None => []
  | Some target => NormalizeAbsolute target
  end.

Definition ExtensionOf (assetPath : str) : str :=
  match SplitUriReference assetPath with
  | None => []
  | Some parts =>
      let segment :=
        match rfind "/" (pt_path parts) with
        | None => pt_path parts
        | Some at_slash => drop (S at_slash) (pt_path parts)
        end in
      match rfind "." segment with
      | None | Some 0%nat => []
      | Some dot => drop (S dot) segment
      end
  end.

(** ** Percent-encoding *)

Definition safe (hostSafe : bool) (c : ascii) : bool := IsPathSafe c || (hostSafe && IsHostSafe c).

Lemma AppendPercent_spec c :
  exists h1 h2, AppendPercent c = ["%"%char; h1; h2] /\ IsHex h1 = true /\ IsHex h2 = true /\
    escape_value h1 h2 = c /\ IsHex (lower h1) = true /\ IsHex (lower h2) = true /\
    escape_value (lower h1) (lower h2) = c /\ IsUnreserved h1 = true /\ IsUnreserved h2 = true.
Proof.
  unfold AppendPercent. eexists _, _. split; [done|].
  match goal with |- ?h1 /\ ?h2 /\ ?h3 /\ ?h4 /\ ?h5 /\ ?h6 /\ ?h7 /\ ?h8 =>
    enough (bool_decide (h1 /\ h2 /\ h3 /\ h4 /\ h5 /\ h6 /\ h7 /\ h8) = true) as E by by apply bool_decide_eq_true in E end.
  revert c. apply char_forall. by vm_compute.
Qed.

(** A fact about one character, as a check of all of them. *)
Lemma char_impl (P Q : ascii -> bool) c :
  forallb (fun c => implb (P c) (Q c)) all_chars = true -> P c = true -> Q c = true.
Proof. intros H Hp. pose proof (char_forall _ H c) as Hi. simpl in Hi. by rewrite Hp in Hi. Qed.

Lemma safe_not_percent hs c : safe hs c = true -> char_eqb c "%" = false.
Proof.
  intros H. apply negb_true_iff. revert H.
  apply (char_impl (safe hs) (fun c => negb (char_eqb c "%"))). by destruct hs; vm_compute.
Qed.

Lemma unreserved_safe hs c : IsUnreserved c = true -> safe hs c = true.
Proof. intros H. unfold safe, IsPathSafe. by rewrite H. Qed.

Lemma Npe_escape hs h1 h2 rest :
  IsHex h1 = true -> IsHex h2 = true ->
  NormalizePercentEncoding hs ("%"%char :: h1 :: h2 :: rest) =
  NormalizeEscape (escape_value h1 h2) ++ NormalizePercentEncoding hs rest.
Proof. intros H1 H2. cbn [NormalizePercentEncoding]. by rewrite char_eqb_refl, H1, H2. Qed.

Lemma Npe_literal hs c rest :
  safe hs c = true ->
  NormalizePercentEncoding hs (c :: rest) = c :: NormalizePercentEncoding hs rest.
Proof.
  intros H. pose proof (safe_not_percent hs c H) as Hp. cbn [NormalizePercentEncoding]. rewrite Hp. cbn [andb].
  unfold NormalizeLiteral. fold (safe hs c). rewrite H. by destruct rest as [|? [|? ?]].
Qed.

(** The two cases of a turn. *)
Lemma Npe_cases hs c rest :
  (exists h1 h2 rest', c = "%"%char /\ rest = h1 :: h2 :: rest' /\ IsHex h1 = true /\ IsHex h2 = true) \/
  NormalizePercentEncoding hs (c :: rest) = NormalizeLiteral hs c ++ NormalizePercentEncoding hs rest.
Proof.
  cbn [NormalizePercentEncoding]. destruct rest as [|h1 [|h2 rest']]; [by right|by right|].
  destruct (char_eqb c "%" && IsHex h1 && IsHex h2) eqn:E; [|by right]. left.
  rewrite !andb_true_iff, char_eqb_eq in E. destruct E as [[-> ?] ?]. eauto 10.
Qed.

(** Normal text: safe characters and escapes of characters that need one. *)
Inductive normal (hs : bool) : str -> Prop :=
| normal_nil : normal hs []
| normal_lit c s : safe hs c = true -> normal hs s -> normal hs (c :: s)
| normal_esc c s : IsUnreserved c = false -> normal hs s -> normal hs (AppendPercent c ++ s).

Lemma Npe_normal hs text : normal hs (NormalizePercentEncoding hs text).
Proof.
  remember (length text) as n eqn:E. revert text E. induction n as [n IH] using lt_wf_ind.
  intros [|c rest] ->; [constructor|]. cbn [length] in IH.
  destruct (Npe_cases hs c rest) as [(h1 & h2 & r & -> & -> & H1 & H2)| ->].
  - rewrite Npe_escape by done. unfold NormalizeEscape. assert (normal hs (NormalizePercentEncoding hs r)) as Hr
      by (eapply IH; [|done]; simpl; lia).
    destruct (IsUnreserved _) eqn:Eu; [|by apply normal_esc].
    simpl. apply normal_lit; [by apply unreserved_safe|done].
  - assert (normal hs (NormalizePercentEncoding hs rest)) as Hr by (eapply IH; [|done]; simpl; lia).
    unfold NormalizeLiteral. fold (safe hs c). destruct (safe hs c) eqn:Es; [by apply normal_lit|].
    apply normal_esc; [|done]. apply not_true_is_false. intros Hu%(unreserved_safe hs). congruence.
Qed.

Lemma normal_id hs s : normal hs s -> NormalizePercentEncoding hs s = s.
Proof.
  induction 1 as [|c s Hc Hs IH|c s Hc Hs IH]; [done|by rewrite Npe_literal, IH|].
  destruct (AppendPercent_spec c) as (h1 & h2 & E & H1 & H2 & Ev & _). rewrite E. cbn [app].
  rewrite Npe_escape, IH, Ev by done. unfold NormalizeEscape. by rewrite Hc, E.
Qed.

Lemma Npe_idem hs s :
  NormalizePercentEncoding hs (NormalizePercentEncoding hs s) = NormalizePercentEncoding hs s.
Proof. apply normal_id, Npe_normal. Qed.

Lemma Npe_char hs s c : c ∈ NormalizePercentEncoding hs s -> safe hs c = true \/ c = "%"%char.
Proof.
  generalize (Npe_normal hs s). generalize (NormalizePercentEncoding hs s). clear s.
  induction 1 as [|d s Hd Hs IH|d s Hd Hs IH]; [by intros ?%not_elem_of_nil| |].
  - rewrite elem_of_cons. intros [->|?]; [by left|auto].
  - destruct (AppendPercent_spec d) as (h1 & h2 & E & _ & _ & _ & _ & _ & _ & H1 & H2). rewrite E. cbn [app].
    rewrite !elem_of_cons. intros [->|[->|[->|?]]]; [by right|left; by apply unreserved_safe..|auto].
Qed.

(** A reserved character of the output was in the input. *)
Lemma Npe_In hs s c :
  c <> "%"%char -> IsUnreserved c = false -> c ∈ NormalizePercentEncoding hs s -> c ∈ s.
Proof.
  intros Hp Hu. assert (forall d, c ∉ AppendPercent d) as Ha.
  { intros d. destruct (AppendPercent_spec d) as (h1 & h2 & E & _ & _ & _ & _ & _ & _ & H1 & H2).
    rewrite E, !not_elem_of_cons. split_and!; [done| | |apply not_elem_of_nil]; congruence. }
  remember (length s) as n eqn:E. revert s E. induction n as [n IH] using lt_wf_ind.
  intros [|d rest] -> Hin; [done|].
  destruct (Npe_cases hs d rest) as [(h1 & h2 & r & -> & -> & H1 & H2)|E].
  - rewrite Npe_escape in Hin by done. apply elem_of_app in Hin as [Hin|Hin].
    + unfold NormalizeEscape in Hin. destruct (IsUnreserved (escape_value h1 h2)) eqn:Ee; [|by apply Ha in Hin].
      apply list_elem_of_singleton in Hin. congruence.
    + apply (IH (length r)) in Hin; [set_solver|simpl; lia|done].
  - rewrite E in Hin. apply elem_of_app in Hin as [Hin|Hin].
    + unfold NormalizeLiteral in Hin. destruct (_ || _); [set_solver|by apply Ha in Hin].
    + apply (IH (length rest)) in Hin; [set_solver|simpl; lia|done].
Qed.

(** Normalization does not reach across a character that no escape holds. *)
Lemma Npe_app hs a c b :
  IsHex c = false ->
  NormalizePercentEncoding hs (a ++ c :: b) =
  NormalizePercentEncoding hs a ++ NormalizePercentEncoding hs (c :: b).
Proof.
  intros Hc. remember (length a) as n eqn:E. revert a E. induction n as [n IH] using lt_wf_ind.
  intros [|x a] ->; [done|]. cbn [length] in IH. cbn [app].
  destruct (Npe_cases hs x a) as [(h1 & h2 & r & -> & -> & H1 & H2)|E].
  - cbn [app]. rewrite !Npe_escape by done.
    rewrite (IH (length r)) by (simpl; lia || done). by rewrite app_assoc.
  - destruct (Npe_cases hs x (a ++ c :: b)) as [(h1 & h2 & r & -> & E2 & H1 & H2)|E2].
    + destruct a as [|y [|z a]]; simpl in E2; injection E2; intros; subst; [congruence|congruence|].
      cbn [app]. rewrite !Npe_escape by done. rewrite (IH (length a)) by (simpl; lia || done). by rewrite app_assoc.
    + rewrite E, E2, (IH (length a)) by (lia || done). by rewrite app_assoc.
Qed.

Lemma lower_safe hs c : safe hs c = true -> safe hs (lower c) = true.
Proof. apply (char_impl (safe hs) (fun c => safe hs (lower c))). by destruct hs; vm_compute. Qed.

(** The host: lower case on top of the normal form, which is what a second
    normalization gives again. *)
Lemma NormalizeHost_idem h : NormalizeHost (NormalizeHost h) = NormalizeHost h.
Proof.
  unfold NormalizeHost. generalize (Npe_normal true h). generalize (NormalizePercentEncoding true h). clear h.
  induction 1 as [|c s Hc Hs IH|c s Hc Hs IH]; [done| |].
  - change (lower_str (c :: s)) with (lower c :: lower_str s). rewrite Npe_literal by by apply lower_safe.
    change (lower_str (lower c :: ?t)) with (lower (lower c) :: lower_str t). by rewrite IH, lower_idem.
  - destruct (AppendPercent_spec c) as (h1 & h2 & E & H1 & H2 & Ev & L1 & L2 & Lv & _). rewrite E.
    change (lower_str ([?p; h1; h2]%char ++ s)) with ("%"%char :: lower h1 :: lower h2 :: lower_str s).
    rewrite Npe_escape, Lv by done. unfold NormalizeEscape. rewrite Hc, E.
    change (lower_str ([?p; h1; h2]%char ++ ?t)) with ("%"%char :: lower h1 :: lower h2 :: lower_str t). by rewrite IH.
Qed.

(** ** Dot segments *)

Lemma starts_with_drop p s n : starts_with p s = true -> (n < length p)%nat ->
  forall c, p !! n = Some c -> drop n s = c :: drop (S n) s.
Proof.
  intros E Hn c Hc. apply starts_with_true in E. rewrite E.
  apply drop_S. by rewrite lookup_app_l.
Qed.

Lemma dot_step_rfc input out : input <> [] -> dot_step input out = rfc_step input out.
Proof.
  intros Hne. unfold dot_step, rfc_step. destruct (starts_with (lit "../") input); [done|].
  destruct (starts_with (lit "./") input); [done|].
  destruct (starts_with (lit "/./") input) eqn:E1.
  { f_equal. symmetry. by apply (starts_with_drop _ _ 2 E1 ltac:(simpl; lia)). }
  destruct (str_eqb input (lit "/.")); [done|].
  assert (erase_last out = rfc_drop_last out) as ->.
  { unfold erase_last, rfc_drop_last. by destruct (rfind slash out). }
  destruct (starts_with (lit "/../") input) eqn:E2.
  { f_equal. symmetry. by apply (starts_with_drop _ _ 3 E2 ltac:(simpl; lia)). }
  destruct (str_eqb input (lit "/..")); [done|]. destruct (_ || _); [done|].
  assert (find_from slash input (if starts_with (lit "/") input then 1%nat else 0%nat) = find_from slash input 1) as ->;
    [|done].
  destruct (starts_with (lit "/") input) eqn:E3; [done|]. destruct input as [|c input]; [done|].
  cbn [lit list_ascii_of_string starts_with] in E3. rewrite andb_true_r in E3.
  unfold find_from, find. cbn [drop find_if]. rewrite E3, drop_0. by destruct (find_if _ input).
Qed.

Lemma dot_loop_rfc fuel input out : dot_loop fuel input out = rfc_loop fuel input out.
Proof.
  revert input out. induction fuel as [|fuel IH]; intros input out; [done|]. cbn [dot_loop rfc_loop].
  destruct (bool_decide_reflect (input = [])); [done|]. rewrite dot_step_rfc by done.
  destruct (rfc_step input out). apply IH.
Qed.

(** The plugin's string rewriting and the backend's segment stack agree. *)
Lemma RemoveDotSegments_Uri rest :
  RemoveDotSegments (slash :: rest) = Uri.RemoveDotSegments (slash :: rest).
Proof. rewrite RemoveDotSegments_rfc_eq. apply dot_loop_rfc. Qed.

Abbreviation is_normal := (fun s => NormalizePercentEncoding false s = s).

Lemma Npe_slash a b :
  NormalizePercentEncoding false (a ++ slash :: b) =
  NormalizePercentEncoding false a ++ slash :: NormalizePercentEncoding false b.
Proof. rewrite Npe_app by done. by rewrite Npe_literal. Qed.

Lemma normal_split a b : slash ∉ a -> is_normal (a ++ slash :: b) -> is_normal a /\ is_normal b.
Proof.
  simpl. intros Ha. rewrite Npe_slash. intros E. apply sep_inj in E; [done| |done].
  by intros ?%Npe_In.
Qed.

Lemma segment_loop_normal fuel rest segments ended :
  is_normal rest -> Forall is_normal segments -> Forall is_normal (segment_loop fuel rest segments ended).1.
Proof.
  revert rest segments ended. induction fuel as [|fuel IH]; intros rest segments ended Hr HF; [done|].
  destruct (segment_split rest) as (seg & t & -> & Hs & Ht).
  assert (is_normal seg -> Forall is_normal (push_segment segments seg).1) as Hp.
  { intros Hn. unfold push_segment. destruct (str_eqb seg (lit ".")); [done|].
    destruct (str_eqb seg (lit "..")); cbn [fst]; [|apply Forall_app; eauto].
    apply Forall_forall. intros x Hx%removelast_In. by eapply Forall_forall in HF. }
  destruct Ht as [->|(r & ->)].
  - rewrite app_nil_r in *. rewrite segment_loop_last by done. by apply Hp.
  - rewrite segment_loop_next by done. apply normal_split in Hr as [Hr1 Hr2]; [|done]. by apply IH, Hp.
Qed.

Lemma join_normal segments : Forall is_normal segments -> is_normal (join_segments true segments).
Proof.
  simpl. induction 1 as [|s l Hs HF IH]; [done|].
  change (join_segments true (s :: l)) with (slash :: s ++ join_segments true l).
  rewrite Npe_literal by done. f_equal. destruct l as [|x l]; [by rewrite !app_nil_r|].
  change (join_segments true (x :: l)) with (slash :: x ++ join_segments true l) in *.
  rewrite Npe_app by done. by rewrite Hs, IH.
Qed.

(** What the path becomes: normal, clean and of the input's delimiters. *)
Lemma normal_path_spec p :
  (p = [] \/ starts_with (lit "/") p = true) ->
  let path := RemoveDotSegments (NormalizePercentEncoding false p) in
  let path := if bool_decide (path = []) then lit "/" else path in
  is_normal path /\ clean_path path /\ RemoveDotSegments path = path /\ "?"%char ∉ path /\ "#"%char ∉ path.
Proof.
  assert (forall r, is_normal (slash :: r) -> let path := RemoveDotSegments (slash :: r) in
    is_normal path /\ clean_path path /\ RemoveDotSegments path = path /\ "?"%char ∉ path /\ "#"%char ∉ path) as H.
  { intros r Hr path. assert (clean_path path) as Hc by (unfold path; rewrite RemoveDotSegments_Uri; apply RemoveDotSegments_clean).
    assert (is_normal path) as Hn.
    { unfold path. rewrite RemoveDotSegments_Uri, RemoveDotSegments_rooted. unfold rooted_output. apply join_normal.
      pose proof (segment_loop_normal (S (length r)) r [] false) as Hl. rewrite Npe_literal in Hr by done.
      injection Hr as Hr. specialize (Hl Hr ltac:(constructor)). destruct (_.2); [|done].
      apply Forall_app. split; [done|]. by repeat constructor. }
    split_and!; [done|done| | |].
    - destruct (clean_path_rooted _ Hc) as (x & Ex). rewrite Ex, RemoveDotSegments_Uri, <-Ex. by apply RemoveDotSegments_id.
    - intros Hin. rewrite <-Hn in Hin. apply Npe_char in Hin as [?|?]; done.
    - intros Hin. rewrite <-Hn in Hin. apply Npe_char in Hin as [?|?]; done. }
  intros [->|E].
  - apply (H []). done.
  - apply starts_with_slash in E as (r & ->). intros path0 path.
    assert (path0 = RemoveDotSegments (slash :: NormalizePercentEncoding false r)) as E0
      by (unfold path0; by rewrite Npe_literal).
    specialize (H (NormalizePercentEncoding false r)). rewrite <-E0 in H.
    assert (path0 <> []) as Hne.
    { ospecialize (H _); [rewrite Npe_literal by done; by rewrite Npe_idem|].
      destruct H as (_ & Hc & _). apply clean_path_rooted in Hc as (x & ->). done. }
    unfold path. rewrite bool_decide_eq_false_2 by done. apply H. rewrite Npe_literal by done. by rewrite Npe_idem.
Qed.

(** ** Authorities *)

(** No colon but the one before the port, unless the host is bracketed. *)
Definition single_colon (authority : str) : bool :=
  let a := DropUserinfo authority in
  starts_with (lit "[") a ||
  match rfind ":" a with Some i => bool_decide (":"%char ∉ take i a) | None => true end.

Lemma DropUserinfo_In authority :
  "@"%char ∉ DropUserinfo authority /\ (forall c, c ∈ DropUserinfo authority -> c ∈ authority).
Proof.
  unfold DropUserinfo. destruct (rfind "@" authority) as [i|] eqn:E.
  - apply rfind_split in E as [E1 E2]. split; [done|]. intros c Hc. rewrite E1. set_solver.
  - apply rfind_None in E. done.
Qed.

Lemma port_digits_spec port v value :
  port_digits port v = Some value -> 0 <= v <= 65535 ->
  0 <= value <= 65535 /\ value = fold_left decimal_step port v.
Proof.
  revert v. induction port as [|c port IH]; intros v; cbn [port_digits fold_left]; [intros [= ->]; done|].
  destruct (is_digit c) eqn:Hc; [|done]. cbn [negb]. apply is_digit_code in Hc. unfold decimal_step at 2.
  destruct (Z.ltb_spec 65535 (v * 10 + (code c - 48))); [done|]. intros H1 Hv. apply IH; [done|]. lia.
Qed.

Lemma port_digits_value s v :
  Forall (fun c => is_digit c = true) s -> 0 <= v -> fold_left decimal_step s v <= 65535 ->
  port_digits s v = Some (fold_left decimal_step s v).
Proof.
  intros HF Hv Hle. pose proof (port_loop_value s v HF Hv Hle) as H. revert v Hv Hle H.
  induction HF as [|c s Hc HF IH]; intros v Hv Hle; cbn [port_loop port_digits fold_left] in *; [done|].
  rewrite Hc. cbn [negb]. apply is_digit_code in Hc. destruct (65535 <? _); [done|]. intros H. apply IH; try done.
  unfold decimal_step. lia.
Qed.

(** The normalized port is the empty text or the decimal of a port that is not
    the scheme's default. *)
Definition port_text (secure : bool) (port : str) : Prop :=
  port = [] \/ exists v, port = ":"%char :: to_string v /\ 0 <= v <= 65535 /\ v <> (if secure then 443 else 80).

Lemma NormalizePort_text port secure normalizedPort :
  NormalizePort port secure = Some normalizedPort -> port_text secure normalizedPort.
Proof.
  unfold NormalizePort. case_bool_decide; [intros [= <-]; by left|].
  destruct (port_digits port 0) as [v|] eqn:E; [|done]. apply port_digits_spec in E as [Hv _]; [|lia].
  destruct (Z.eqb_spec v (if secure then 443 else 80)); intros [= <-]; [by left|right; by exists v].
Qed.

Lemma NormalizePort_id v (secure : bool) :
  0 <= v <= 65535 -> v <> (if secure then 443 else 80) ->
  NormalizePort (to_string v) secure = Some (":"%char :: to_string v).
Proof.
  intros Hv Hd. unfold NormalizePort. rewrite bool_decide_eq_false_2 by apply to_string_nonempty.
  assert (fold_left decimal_step (to_string v) 0 = v) as Ev by (apply decimal_value_to_string; lia).
  rewrite port_digits_value; [|apply to_string_digits; lia|lia|lia]. rewrite Ev.
  by destruct (Z.eqb_spec v (if secure then 443 else 80)).
Qed.

(** A normalized host. *)
Record host_normal (h : str) : Prop := {
  hn_ne : h <> [];
  hn_fix : NormalizeHost h = h;
  hn_at : "@"%char ∉ h;
  hn_shape : (exists l, h = "["%char :: l ++ lit "]" /\ "]"%char ∉ l) \/
             (starts_with (lit "[") h = false /\ ":"%char ∉ h) }.

Lemma NormalizeHost_In h c :
  c <> "%"%char -> is_alpha c = false -> IsUnreserved c = false -> c ∈ NormalizeHost h -> c ∈ h.
Proof. unfold NormalizeHost. intros Hp Ha Hu. rewrite lower_In by done. by apply Npe_In. Qed.

Lemma NormalizeHost_literal c h :
  safe true c = true -> NormalizeHost (c :: h) = lower c :: NormalizeHost h.
Proof. intros Hc. unfold NormalizeHost. by rewrite Npe_literal. Qed.

Lemma NormalizeHost_ne h : h <> [] -> NormalizeHost h <> [].
Proof.
  destruct h as [|c h]; [done|]. intros _. unfold NormalizeHost, lower_str.
  destruct (Npe_cases true c h) as [(h1 & h2 & r & -> & -> & H1 & H2)| ->].
  - rewrite Npe_escape by done. unfold NormalizeEscape. by destruct (IsUnreserved _).
  - unfold NormalizeLiteral. by destruct (_ || _).
Qed.

(** A bracket at the front of a normalized host was there before. *)
Lemma NormalizeHost_bracket h :
  starts_with (lit "[") h = false -> starts_with (lit "[") (NormalizeHost h) = false.
Proof.
  intros Hh. destruct (starts_with (lit "[") (NormalizeHost h)) eqn:E; [|done]. exfalso.
  apply starts_with_true in E. cbn [lit list_ascii_of_string length] in E. unfold NormalizeHost in E.
  destruct h as [|c h]; [done|].
  assert (forall d, lower_str (AppendPercent d ++ NormalizePercentEncoding true h) <> "["%char :: drop 1 (lower_str (AppendPercent d ++ NormalizePercentEncoding true h))) as Hno by done.
  destruct (Npe_cases true c h) as [(h1 & h2 & r & -> & -> & H1 & H2)|E2].
  - rewrite Npe_escape in E by done. unfold NormalizeEscape in E. destruct (IsUnreserved _) eqn:Eu; [|done].
    cbn [app lower_str map] in E. injection E as E. apply (proj1 (lower_special _ "[" eq_refl)) in E. by rewrite E in Eu.
  - rewrite E2 in E. unfold NormalizeLiteral in E. destruct (_ || _); [|done].
    cbn [app lower_str map] in E. injection E as E. apply (proj1 (lower_special _ "[" eq_refl)) in E. subst c. done.
Qed.

Lemma SplitHostPort_shape a host port :
  SplitHostPort a = Some (host, port) -> "@"%char ∉ a ->
  (starts_with (lit "[") a || match rfind ":" a with Some i => bool_decide (":"%char ∉ take i a) | None => true end) = true ->
  "@"%char ∉ host /\ (forall c, c ∈ host -> c ∈ a) /\
  ((exists l, host = "["%char :: l ++ lit "]" /\ "]"%char ∉ l) \/
   (starts_with (lit "[") host = false /\ ":"%char ∉ host)).
Proof.
  unfold SplitHostPort. intros H Hat Hs.
  assert ((forall c, c ∈ host -> c ∈ a) /\ ((exists l, host = "["%char :: l ++ lit "]" /\ "]"%char ∉ l) \/
   (starts_with (lit "[") host = false /\ ":"%char ∉ host))) as [H1 H2]; [|split; [|done]; intros ?%H1; done].
  destruct (starts_with (lit "[") a) eqn:Eb.
  - apply starts_with_true in Eb. cbn [lit list_ascii_of_string length app] in Eb.
    destruct (find "]" a) as [close|] eqn:Ef; [|done]. pose proof (find_lt _ _ _ Ef) as Hl. apply find_split in Ef as [E Hn].
    assert (host = take (S close) a) as -> by (destruct (drop (S close) a); [|destruct (char_eqb _ _)]; congruence).
    split. { intros c Hc. rewrite <-(take_drop (S close) a). set_solver. }
    left. destruct close as [|close]; [rewrite take_0 in E; rewrite Eb in E; discriminate E|].
    exists (take close (drop 1 a)). assert (take (S close) a = "["%char :: take close (drop 1 a)) as Et by (rewrite Eb at 1; done).
    rewrite Et in Hn. split; [|set_solver].
    assert (a !! S close = Some "]"%char) as Hx.
    { rewrite E, lookup_app_r by (rewrite length_take; lia). rewrite length_take, Nat.min_l by lia.
      replace (S close - S close)%nat with 0%nat by lia. done. }
    rewrite (take_S_r _ _ _ Hx), Et. done.
  - cbn [orb] in Hs. destruct (rfind ":" a) as [i|] eqn:Er.
    + injection H as <- <-. apply bool_decide_eq_true in Hs. split.
      { intros c Hc. rewrite <-(take_drop i a). set_solver. }
      right. split; [|done]. destruct a as [|c a]; [done|]. by destruct i.
    + injection H as <- <-. split; [done|]. right. split; [done|]. by apply rfind_None.
Qed.

Lemma NormalizeHost_normal host :
  host <> [] -> "@"%char ∉ host ->
  ((exists l, host = "["%char :: l ++ lit "]" /\ "]"%char ∉ l) \/
   (starts_with (lit "[") host = false /\ ":"%char ∉ host)) ->
  host_normal (NormalizeHost host).
Proof.
  intros Hne Hat Hs. split; [by apply NormalizeHost_ne|apply NormalizeHost_idem|by intros ?%NormalizeHost_In|].
  destruct Hs as [(l & -> & Hl)|[H1 H2]].
  - left. exists (NormalizeHost l). split; [|by intros ?%NormalizeHost_In].
    rewrite NormalizeHost_literal by done. unfold NormalizeHost. cbn [lit list_ascii_of_string].
    rewrite Npe_app by done. unfold lower_str. by rewrite map_app.
  - right. split; [by apply NormalizeHost_bracket|by intros ?%NormalizeHost_In].
Qed.

Lemma NormalizeAuthority_shape a secure o :
  NormalizeAuthority a secure = Some o -> single_colon a = true ->
  exists host port, o = host ++ port /\ host_normal host /\ port_text secure port /\
    (slash ∉ a -> slash ∉ host).
Proof.
  unfold NormalizeAuthority, single_colon. destruct (DropUserinfo_In a) as [Hat Hin].
  destruct (SplitHostPort _) as [[host port]|] eqn:E; [|done]. case_bool_decide as Hne; [done|].
  destruct (NormalizePort port secure) as [np|] eqn:Ep; [|done]. intros [= <-] Hs.
  apply SplitHostPort_shape in E as (Ha & Hi & Hsh); [|done|done].
  exists (NormalizeHost host), np. split_and!; [done|by apply NormalizeHost_normal|by eapply NormalizePort_text|].
  intros Hsl Hc. apply Hsl, Hin, Hi. by apply NormalizeHost_In in Hc.
Qed.

Lemma port_text_In secure port c :
  port_text secure port -> c <> ":"%char -> is_digit c = false -> c ∉ port.
Proof.
  intros [->|(v & -> & Hv & _)] Hc Hd; [apply not_elem_of_nil|]. rewrite not_elem_of_cons.
  split; [done|]. apply to_string_no_char; [lia|done].
Qed.

(** A normalized authority is split where the printer joined it. *)
Lemma SplitHostPort_join secure host port :
  host_normal host -> port_text secure port ->
  SplitHostPort (host ++ port) = Some (host, drop 1 port).
Proof.
  intros [Hne _ _ Hs] Hp. unfold SplitHostPort. destruct Hs as [(l & -> & Hl)|[H1 H2]].
  - change (starts_with (lit "[") _) with true. cbv iota.
    replace (("["%char :: l ++ lit "]") ++ port) with (("["%char :: l) ++ "]"%char :: port) by (simpl; by rewrite <-app_assoc).
    rewrite find_app by set_solver. 
    replace (("["%char :: l) ++ "]"%char :: port) with (("["%char :: l ++ lit "]") ++ port) by (simpl; by rewrite <-app_assoc).
    replace (S (length ("["%char :: l))) with (length ("["%char :: l ++ lit "]")) by (simpl; rewrite length_app; simpl; lia).
    rewrite take_app_length, drop_app_length. destruct Hp as [->|(v & -> & _)]; done.
  - assert (starts_with (lit "[") (host ++ port) = false) as ->.
    { destruct host as [|c host]; [done|]. done. }
    destruct Hp as [->|(v & -> & Hv & _)].
    + rewrite app_nil_r. apply rfind_None in H2. by rewrite H2.
    + rewrite rfind_app by (apply to_string_no_char; [lia|done]). rewrite take_app_length.
      rewrite drop_app_ge by lia. by replace (S (length host) - length host)%nat with 1%nat by lia.
Qed.

Lemma DropUserinfo_id a : "@"%char ∉ a -> DropUserinfo a = a.
Proof. intros H%rfind_None. unfold DropUserinfo. by rewrite H. Qed.

Lemma NormalizeAuthority_id secure host port :
  host_normal host -> port_text secure port ->
  NormalizeAuthority (host ++ port) secure = Some (host ++ port).
Proof.
  intros Hh Hp. unfold NormalizeAuthority. rewrite DropUserinfo_id.
  2:{ rewrite not_elem_of_app. split; [apply Hh|]. by eapply port_text_In. }
  erewrite SplitHostPort_join by done. rewrite bool_decide_eq_false_2 by apply Hh. rewrite hn_fix by done.
  destruct Hp as [->|(v & -> & Hv & Hd)]; [done|].
  change (drop 1 (":"%char :: ?x)) with x. by rewrite NormalizePort_id.
Qed.

(** ** Splitting *)

Lemma scheme_end_claimed scheme rest :
  is_scheme scheme -> scheme_end (scheme ++ ":"%char :: rest) = Some (length scheme).
Proof. by intros [-> | ->]. Qed.

(** An absolute text of a claimed scheme is taken apart where it was joined. *)
Lemma Split_Compose scheme authority path query hasQuery :
  is_scheme scheme -> Forall (fun c => authority_char c = true) authority ->
  (path = [] \/ starts_with (lit "/") path = true) -> "?"%char ∉ path -> "#"%char ∉ path ->
  "#"%char ∉ query -> (hasQuery = false -> query = []) ->
  SplitUriReference (Compose scheme authority path query hasQuery) =
  Some (mkParts scheme true authority path query hasQuery).
Proof.
  intros Hs Ha Hp Hp1 Hp2 Hq Hh. unfold SplitUriReference, Compose.
  pose proof (scheme_facts scheme Hs) as (S1 & S2 & S3 & _).
  assert ("?"%char ∉ scheme) as S4 by (destruct Hs as [-> | ->]; by apply (bool_decide_unpack _)).
  assert (forall d, authority_char d = false -> d ∉ authority) as Hd.
  { intros d Hd Hin. rewrite Forall_forall in Ha. specialize (Ha d Hin). congruence. }
  rewrite bool_decide_eq_false_2 by (intros [E _]%app_nil; subst scheme; by destruct Hs).
  set (front := scheme ++ lit "://" ++ authority ++ path).
  replace (scheme ++ lit "://" ++ authority ++ path ++ (if hasQuery then lit "?" ++ query else []))
    with (front ++ (if hasQuery then lit "?" ++ query else [])) by (unfold front; by rewrite <-!app_assoc).
  assert (forall d, d ∉ scheme -> d ∉ lit "://" -> d ∉ authority -> d ∉ path -> d ∉ front) as Hf.
  { intros d ????. unfold front. rewrite !not_elem_of_app. done. }
  assert ("#"%char ∉ front) as F1 by (apply Hf; [done|by apply (bool_decide_unpack _)|by apply Hd|done]).
  assert ("?"%char ∉ front) as F2 by (apply Hf; [done|by apply (bool_decide_unpack _)|by apply Hd|done]).
  assert (find "#" (front ++ (if hasQuery then lit "?" ++ query else [])) = None) as ->.
  { apply find_None. rewrite not_elem_of_app. split; [done|]. destruct hasQuery; [|apply not_elem_of_nil].
    cbn [app lit list_ascii_of_string]. rewrite not_elem_of_cons. done. }
  assert (match find "?" (front ++ (if hasQuery then lit "?" ++ query else [])) with
      | Some question => (drop (S question) (front ++ (if hasQuery then lit "?" ++ query else [])), true,
                          take question (front ++ (if hasQuery then lit "?" ++ query else [])))
      | None => ([], false, front ++ (if hasQuery then lit "?" ++ query else [])) end = (query, hasQuery, front)) as ->.
  { destruct hasQuery.
    - cbn [app lit list_ascii_of_string]. rewrite find_app by done. rewrite take_app_length, drop_app_ge by lia.
      by replace (S (length front) - length front)%nat with 1%nat by lia.
    - rewrite app_nil_r. apply find_None in F2. rewrite F2. by rewrite Hh. }
  unfold front. cbn [app lit list_ascii_of_string]. rewrite scheme_end_claimed by done.
  rewrite take_app_length, drop_app_ge by lia. replace (S (length scheme) - length scheme)%nat with 1%nat by lia.
  change (drop 1 (":"%char :: ?x)) with x. change (starts_with ["/"; "/"]%char (slash :: slash :: ?x)) with true.
  cbv iota. change (drop 2 (slash :: slash :: ?x)) with x. change (LowerAscii scheme) with (lower_str scheme) in S3. rewrite S3.
  destruct Hp as [->|Hp].
  - rewrite app_nil_r. assert (find slash authority = None) as -> by (by apply find_None, Hd). done.
  - apply starts_with_slash in Hp as (r & ->). rewrite find_app by by apply Hd.
    by rewrite take_app_length, drop_app_length.
Qed.

(** What the splitter guarantees of its parts. *)
Record parts_ok (p : Parts) : Prop := {
  po_authority : Forall (fun c => authority_char c = true) (pt_authority p);
  po_path : "?"%char ∉ pt_path p /\ "#"%char ∉ pt_path p;
  po_rooted : pt_hasAuthority p = true -> pt_path p = [] \/ starts_with (lit "/") (pt_path p) = true;
  po_query : "#"%char ∉ pt_query p;
  po_hasQuery : pt_hasQuery p = false -> pt_query p = [] }.

Lemma SplitUriReference_ok text p : SplitUriReference text = Some p -> parts_ok p.
Proof.
  unfold SplitUriReference. case_bool_decide; [done|].
  assert ("#"%char ∉ match find "#" text with Some hash => take hash text | None => text end) as Hh
    by apply (StripFragment_In text).
  set (t := match find "#" text with Some hash => take hash text | None => text end) in *.
  assert (exists q h r, match find "?" t with Some question => (drop (S question) t, true, take question t)
      | None => ([], false, t) end = (q, h, r) /\ "#"%char ∉ q /\ (h = false -> q = []) /\ "?"%char ∉ r /\ "#"%char ∉ r)
    as (q & h & r & -> & Q1 & Q2 & R1 & R2).
  { destruct (find "?" t) as [i|] eqn:E.
    - apply find_split in E as [E1 E2]. eexists _, _, _. rewrite E1 in Hh. split_and!; [done| |done|done|]; set_solver.
    - apply find_None in E. eexists _, _, _. split_and!; try done. apply not_elem_of_nil. }
  assert (exists s r', match scheme_end r with Some i => (lower_str (take i r), drop (S i) r) | None => ([], r) end = (s, r')
      /\ "?"%char ∉ r' /\ "#"%char ∉ r') as (s & r' & -> & P1 & P2).
  { destruct (scheme_end r) as [i|]; eexists _, _; (split; [done|]); [|done].
    rewrite <-(take_drop (S i) r), !not_elem_of_app in R1, R2. tauto. }
  clear R1 R2. destruct (starts_with (lit "//") r') eqn:Es.
  - assert ("?"%char ∉ drop 2 r' /\ "#"%char ∉ drop 2 r') as [D1 D2].
    { rewrite <-(take_drop 2 r'), !not_elem_of_app in P1, P2. tauto. }
    destruct (find slash (drop 2 r')) as [i|] eqn:Ef; intros [= <-].
    + pose proof Ef as Ef'. apply find_split in Ef as [E1 E2]. split; cbn [pt_authority pt_path pt_query pt_hasQuery]; try done.
      * apply Forall_forall. intros c Hc. apply authority_char_spec. rewrite E1 in D1, D2. set_solver.
      * rewrite E1 in D1, D2. rewrite !not_elem_of_app in D1, D2. split.
        -- intros Hin. apply D1. rewrite E1 in Hin. apply find_lt in Ef'.
           rewrite drop_app_length' in Hin by (rewrite length_take; lia). done.
        -- intros Hin. apply D2. rewrite E1 in Hin. apply find_lt in Ef'.
           rewrite drop_app_length' in Hin by (rewrite length_take; lia). done.
      * intros _. right. rewrite E1. apply find_lt in Ef'. by rewrite drop_app_length' by (rewrite length_take; lia).
    + apply find_None in Ef. split; cbn [pt_authority pt_path pt_query pt_hasQuery]; try done; [| |by left].
      * apply Forall_forall. intros c Hc. apply authority_char_spec. set_solver.
      * split; apply not_elem_of_nil.
  - intros [= <-]. split; cbn [pt_authority pt_path pt_query pt_hasQuery]; try done.
Qed.

Lemma MergePath_rooted base reference :
  (pt_path base = [] \/ starts_with (lit "/") (pt_path base) = true) ->
  exists r, MergePath base reference = slash :: r /\
    (forall c, c ∈ slash :: r -> c = slash \/ c ∈ pt_path base \/ c ∈ reference).
Proof.
  intros Hp. unfold MergePath. case_bool_decide as E0.
  { exists reference. split; [done|]. intros c. rewrite elem_of_cons. tauto. }
  destruct (rfind slash (pt_path base)) as [i|] eqn:E.
  - destruct Hp as [?|Hp]; [done|]. apply starts_with_slash in Hp as (r & Er). rewrite Er.
    exists (take i r ++ reference). split; [done|]. intros c. rewrite elem_of_cons, elem_of_app.
    intros [->|[H|H]]; [by left| |by right; right]. right. left. rewrite <-(take_drop i r). set_solver.
  - exists reference. split; [done|]. intros c. rewrite elem_of_cons. tauto.
Qed.

Lemma ResolveTarget_ok base reference :
  parts_ok base -> pt_hasAuthority base = true -> parts_ok reference ->
  parts_ok (ResolveTarget base reference) /\ pt_hasAuthority (ResolveTarget base reference) = true.
Proof.
  intros [B1 [B2 B2'] B3 B4 B5] HB [R1 [R2 R2'] R3 R4 R5]. unfold ResolveTarget.
  destruct (pt_hasAuthority reference) eqn:Ea.
  { split; [|done]. split; cbn [pt_authority pt_path pt_query pt_hasQuery]; auto. }
  case_bool_decide as Ep.
  { destruct (pt_hasQuery reference); (split; [|done]); split; cbn [pt_authority pt_path pt_query pt_hasQuery]; auto. }
  split; [|done]. destruct (starts_with (lit "/") (pt_path reference)) eqn:Es.
  { split; cbn [pt_authority pt_path pt_query pt_hasQuery]; auto. }
  destruct (MergePath_rooted base (pt_path reference) (B3 HB)) as (r & E & Hr). rewrite E.
  split; cbn [pt_authority pt_path pt_query pt_hasQuery]; auto.
  split; intros [?|[?|?]]%Hr; done.
Qed.

Lemma IdentifierTarget_ok a b target : IdentifierTarget a b = Some target -> parts_ok target.
Proof.
  unfold IdentifierTarget. destruct (SplitUriReference a) as [r|] eqn:Er; [|done].
  apply SplitUriReference_ok in Er. destruct (negb _); [by intros [= <-]|].
  case_bool_decide; [done|]. destruct (SplitUriReference b) as [base|] eqn:Eb; [|done].
  apply SplitUriReference_ok in Eb. destruct (_ || _) eqn:E; [done|]. intros [= <-].
  apply orb_false_iff in E as [_ E%negb_false_iff]. by apply ResolveTarget_ok.
Qed.

(** An identifier in normal form, by its parts. *)
Record identifier_parts (scheme host port path query : str) (hasQuery : bool) : Prop := {
  ip_scheme : is_scheme scheme;
  ip_host : host_normal host;
  ip_slash : slash ∉ host;
  ip_port : port_text (str_eqb scheme (lit "https")) port;
  ip_normal : is_normal path;
  ip_clean : clean_path path;
  ip_fix : RemoveDotSegments path = path;
  ip_path : "?"%char ∉ path /\ "#"%char ∉ path;
  ip_query : "#"%char ∉ query;
  ip_hasQuery : hasQuery = false -> query = [] }.

Lemma IsClaimed_scheme s : IsClaimed s = true <-> is_scheme s.
Proof. unfold IsClaimed, is_scheme. by rewrite orb_true_iff, !str_eqb_eq. Qed.

Lemma NormalizeAbsolute_parts p :
  parts_ok p -> NormalizeAbsolute p <> [] -> single_colon (pt_authority p) = true ->
  exists host port path, NormalizeAbsolute p = Compose (pt_scheme p) (host ++ port) path (pt_query p) (pt_hasQuery p) /\
    identifier_parts (pt_scheme p) host port path (pt_query p) (pt_hasQuery p).
Proof.
  intros [P1 P2 P3 P4 P5]. unfold NormalizeAbsolute. destruct (_ || _) eqn:E; [done|].
  apply orb_false_iff in E as [E1%negb_false_iff E2%negb_false_iff]. apply IsClaimed_scheme in E1.
  destruct (NormalizeAuthority _ _) as [o|] eqn:Eo; [|done]. intros Hne Hs.
  apply NormalizeAuthority_shape in Eo as (host & port & -> & Hh & Hp & Hsl); [|done].
  pose proof (normal_path_spec (pt_path p) (P3 E2)) as (N1 & N2 & N3 & N4 & N5).
  set (path := if bool_decide _ then _ else _) in *. exists host, port, path.
  destruct (negb _) eqn:Er; [done|]. split; [done|]. split; try done.
  apply Hsl. intros Hin. rewrite Forall_forall in P1. by specialize (P1 slash Hin).
Qed.

Lemma host_authority_char host : host_normal host -> slash ∉ host -> Forall (fun c => authority_char c = true) host.
Proof.
  intros Hh Hs. apply Forall_forall. intros c Hc. apply authority_char_spec.
  split; [by intros ->|]. rewrite <-(hn_fix _ Hh) in Hc. unfold NormalizeHost in Hc.
  split; intros ->; rewrite lower_In in Hc by done; apply Npe_char in Hc as [?|?]; done.
Qed.

Lemma port_authority_char secure port : port_text secure port -> Forall (fun c => authority_char c = true) port.
Proof.
  intros [->|(v & -> & Hv & _)]; [constructor|]. constructor; [done|].
  apply Forall_digits_impl; [by vm_compute|]. apply to_string_digits. lia.
Qed.

(** A text in normal form is an absolute reference to itself. *)
Lemma CreateIdentifier_id scheme host port path query hasQuery anchor :
  identifier_parts scheme host port path query hasQuery ->
  CreateIdentifier (Compose scheme (host ++ port) path query hasQuery) anchor =
  Compose scheme (host ++ port) path query hasQuery.
Proof.
  intros [I1 I2 I3 I4 I5 I6 I7 [I8 I9] I10 I11]. unfold CreateIdentifier, IdentifierTarget.
  destruct (clean_path_rooted _ I6) as (r & Er).
  rewrite Split_Compose; [|done| |by right; rewrite Er|done..].
  2:{ apply Forall_app. split; [by apply host_authority_char|by eapply port_authority_char]. }
  cbn [pt_scheme]. rewrite bool_decide_eq_false_2 by (intros ->; by destruct I1). cbn [negb].
  unfold NormalizeAbsolute. cbn [pt_scheme pt_hasAuthority pt_authority pt_path pt_query pt_hasQuery].
  rewrite (proj2 (IsClaimed_scheme scheme)) by done. cbn [negb orb].
  rewrite NormalizeAuthority_id by done. rewrite I5, I7.
  rewrite bool_decide_eq_false_2 by by rewrite Er. by rewrite Er.
Qed.

(** ** Agreement with the backend *)

Lemma host_normal_ok host : host_normal host -> slash ∉ host -> host_ok host.
Proof.
  intros Hh Hs. split; [|by apply host_authority_char|apply Hh|].
  - rewrite <-(hn_fix _ Hh). apply lower_str_idem.
  - destruct (hn_shape _ Hh) as [?|[H1 H2]]; [by left|right]. split; [|done].
    destruct host as [|c host]; [done|]. intros [= ->]. done.
Qed.

Lemma identifier_uri scheme host port path query hasQuery :
  identifier_parts scheme host port path query hasQuery ->
  let id := Compose scheme (host ++ port) path query hasQuery in
  (exists u, ParseUri id = inr u /\ uri_wf u /\ u_userinfo u = [] /\ ToString u = id /\ ToIdentity u = id) \/
  (port = lit ":0" /\ ParseUri id = inl (lit "URI port is out of range")).
Proof.
  intros [I1 I2 I3 I4 I5 I6 I7 I8 I9 I10] id. pose proof (host_normal_ok _ I2 I3) as Hok.
  pose proof (hn_ne _ I2) as Hne.
  assert (forall v, 0 <= v <= 65535 -> let u := mkUri scheme [] host v path query hasQuery in port = port_suffix u ->
    v <> DefaultPort u -> ParseUri id = inr u /\ uri_wf u /\ u_userinfo u = [] /\ ToString u = id /\ ToIdentity u = id) as Huri.
  { intros v Hv u Ep Hd. assert (uri_wf u) as Hw by (split; try done; constructor).
    assert (ToIdentity u = id) as Ei by (unfold ToIdentity; rewrite Compose_eq; unfold id, Compose; by rewrite Ep, <-!app_assoc).
    split_and!; try done. rewrite <-Ei, ToIdentity_parse by done. unfold read_back, canonical.
    rewrite bool_decide_eq_false_2 by by intros [? _]%app_nil.
    destruct (Z.eqb_spec (u_port (without_userinfo u)) (DefaultPort (without_userinfo u))) as [E|E]; [|done].
    by destruct (Hd E). }
  destruct I4 as [->|(v & -> & Hv & Hd)].
  - left. exists (mkUri scheme [] host 0 path query hasQuery). apply Huri; [done|done|].
    unfold DefaultPort. by destruct (IsSecure _).
  - destruct (decide (v = 0)) as [->|Hv0].
    + right. split; [done|]. unfold id, Compose. destruct (clean_path_rooted _ I6) as (r & Er).
      rewrite ParseUri_split; [|done| |right; rewrite Er; eexists _, _; split; [done|by left]|].
      2:{ apply Forall_app. split; [by apply host_authority_char|by repeat constructor]. }
      2:{ rewrite not_elem_of_app. split; [apply I8|]. destruct hasQuery; [|apply not_elem_of_nil].
          cbn [app lit list_ascii_of_string]. by rewrite not_elem_of_cons. }
      unfold ParseAuthority. assert (rfind "@" (host ++ ":"%char :: to_string 0) = None) as ->.
      { apply rfind_None. rewrite not_elem_of_app. split; [apply I2|by apply (bool_decide_unpack _)]. }
      rewrite bool_decide_eq_false_2 by by intros [? _]%app_nil.
      rewrite port_colon_host; [|done|by intros [? _]%app_nil|eauto]. rewrite drop_app_ge by lia.
      by replace (S (length host) - length host)%nat with 1%nat by lia.
    + left. exists (mkUri scheme [] host v path query hasQuery).
      apply Huri; [done| |done]. unfold port_suffix. cbn [u_port].
      rewrite (proj2 (Z.eqb_neq v 0)) by done. rewrite (proj2 (Z.eqb_neq v _)); [done|]. done.
Qed.

(** An identifier is its own identifier. *)
Lemma CreateIdentifier_fixed a b target anchor :
  IdentifierTarget a b = Some target -> single_colon (pt_authority target) = true -> CreateIdentifier a b <> [] ->
  CreateIdentifier (CreateIdentifier a b) anchor = CreateIdentifier a b.
Proof.
  intros Ht Hs Hne. assert (CreateIdentifier a b = NormalizeAbsolute target) as E by (unfold CreateIdentifier; by rewrite Ht).
  rewrite E in *. destruct (NormalizeAbsolute_parts target) as (host & port & path & -> & I); [by eapply IdentifierTarget_ok|done..|].
  by apply CreateIdentifier_id.
Qed.

(** C10: every identifier the resolver makes is in normal form: it has no userinfo
    and no fragment, its path has no dot segment, its query is the target's as
    written, and making an identifier of it again, under any anchor, gives it
    back.  The authority must not hold more colons than the one before its port:
    the second of two ports survives the first pass only. *)
Theorem CreateIdentifier_canonical a b target :
  IdentifierTarget a b = Some target -> single_colon (pt_authority target) = true ->
  CreateIdentifier a b <> [] ->
  let id := CreateIdentifier a b in
  (forall anchor, CreateIdentifier id anchor = id) /\ IsClaimedScheme id = true /\ "#"%char ∉ id /\
  exists authority path,
    id = Compose (pt_scheme target) authority path (pt_query target) (pt_hasQuery target) /\
    "@"%char ∉ authority /\ clean_path path.
Proof.
  intros Ht Hs Hne id. assert (id = NormalizeAbsolute target) as Eid by (unfold id, CreateIdentifier; by rewrite Ht).
  change (id <> []) in Hne. clearbody id. subst id.
  destruct (NormalizeAbsolute_parts target) as (host & port & path & E & I); [by eapply IdentifierTarget_ok|done..|].
  rewrite E. pose proof I as [I1 I2 I3 I4 I5 I6 I7 [I8 I9] I10 I11]. destruct (clean_path_rooted _ I6) as (r & Er).
  assert (Forall (fun c => authority_char c = true) (host ++ port)) as Hac.
  { apply Forall_app. split; [by apply host_authority_char|by eapply port_authority_char]. }
  split_and!.
  - intros anchor. by apply CreateIdentifier_id.
  - unfold IsClaimedScheme. rewrite Split_Compose; [by apply IsClaimed_scheme|done|done|by right; rewrite Er|done..].
  - unfold Compose. rewrite !not_elem_of_app. split_and!.
    + by apply (scheme_facts _ I1).
    + by apply (bool_decide_unpack _).
    + apply host_authority_char in I2; [|done]. rewrite Forall_forall in I2. by intros ?%I2.
    + by eapply port_text_In.
    + done.
    + destruct (pt_hasQuery target); [|apply not_elem_of_nil]. cbn [app lit list_ascii_of_string]. by rewrite not_elem_of_cons.
  - exists (host ++ port), path. split_and!; [done| |done]. rewrite not_elem_of_app.
    split; [apply I2|by eapply port_text_In].
Qed.

(** C21: the backend reads an identifier the way the resolver wrote it: when the
    authority of the target has no colon beside the one before its port, the
    identifier parses to a well-formed URI without userinfo that prints back to the
    same text, so the two halves of the program name the asset in one way.  Port
    zero is the exception: the resolver lets it through and the backend refuses it.
    The condition on colons is needed: [http://a:80:80/x] becomes the identifier
    [http://a:80/x], which the backend prints as [http://a/x] ([two_ports]). *)
Theorem CreateIdentifier_uri a b target :
  IdentifierTarget a b = Some target -> single_colon (pt_authority target) = true ->
  CreateIdentifier a b <> [] ->
  let id := CreateIdentifier a b in
  (exists u, ParseUri id = inr u /\ uri_wf u /\ u_userinfo u = [] /\ ToString u = id /\ ToIdentity u = id) \/
  (exists host path, id = Compose (pt_scheme target) (host ++ lit ":0") path (pt_query target) (pt_hasQuery target) /\
     ParseUri id = inl (lit "URI port is out of range")).
Proof.
  intros Ht Hs Hne id. assert (id = NormalizeAbsolute target) as Eid by (unfold id, CreateIdentifier; by rewrite Ht).
  change (id <> []) in Hne. clearbody id. subst id.
  destruct (NormalizeAbsolute_parts target) as (host & port & path & E & I); [by eapply IdentifierTarget_ok|done..|].
  rewrite E. destruct (identifier_uri _ _ _ _ _ _ I) as [?|[-> ?]]; [by left|right; eauto].
Qed.

(** A second port in the authority is what makes a second pass, and the backend's
    own spelling, differ. *)
Example two_ports :
  CreateIdentifier (lit "http://a:80:80/x") [] = lit "http://a:80/x" /\
  CreateIdentifier (lit "http://a:80/x") [] = lit "http://a/x" /\
  (match ParseUri (lit "http://a:80/x") with inr u => ToString u | inl e => e end) = lit "http://a/x".
Proof. by vm_compute. Qed.

(** A query is kept as it is written, line breaks included. *)
Example query_newline :
  CreateIdentifier (lit "http://a/x?" ++ ["010"%char]) [] = lit "http://a/x?" ++ ["010"%char].
Proof. by vm_compute. Qed.

Lemma CreateIdentifier_canonical_witness :
  let a := lit "../b%7e/./c d.usd?x=%2f#frag" in
  let b := lit "HTTPS://user:pw@Example.ORG:443/s/t/root.usda" in
  CreateIdentifier a b = lit "https://example.org/s/b~/c%20d.usd?x=%2f" /\
  forall anchor, CreateIdentifier (CreateIdentifier a b) anchor = CreateIdentifier a b.
Proof.
  intros a b. split; [vm_compute; reflexivity|].
  apply (CreateIdentifier_canonical a b
    (mkParts (lit "https") true (lit "user:pw@Example.ORG:443") (lit "/s/t/../b%7e/./c d.usd") (lit "x=%2f") true));
    [vm_compute; reflexivity|vm_compute; reflexivity|vm_compute; discriminate].
Defined.

Lemma CreateIdentifier_uri_witness :
  let a := lit "http://[::1]:8080/%7Ea/../b" in
  let id := CreateIdentifier a [] in
  id = lit "http://[::1]:8080/b" /\
  ((exists u, ParseUri id = inr u /\ uri_wf u /\ u_userinfo u = [] /\ ToString u = id /\ ToIdentity u = id) \/
   (exists host path, id = Compose (lit "http") (host ++ lit ":0") path [] false /\
     ParseUri id = inl (lit "URI port is out of range"))).
Proof.
  intros a id. split; [vm_compute; reflexivity|].
  apply (CreateIdentifier_uri a [] (mkParts (lit "http") true (lit "[::1]:8080") (lit "/%7Ea/../b") [] false));
    [vm_compute; reflexivity|vm_compute; reflexivity|vm_compute; discriminate].
Defined.
