(* ===== verification/Framing.v ===== *)
(** * Framing: header tables and the response headers a range reader reads

    libs/usd-asset-http: the header table of src/Transport.h and
    src/Transport.cpp, and src/Framing.h with src/Framing.cpp.  Every value
    here comes from a remote server. *)

From S2P Require Import Prelude Validator.

(** ** Header tables *)

Definition HeaderTable : Type := list (str * str).

Fixpoint same_letters (a b : str) : bool :=
  match a, b with
  | x :: a', y :: b' => if negb (char_eqb (lower x) (lower y)) then false else same_letters a' b'
  | _, _ => true
  end.

Definition EqualsIgnoringCase (a b : str) : bool :=
  if negb (length a =? length b)%nat then false else same_letters a b.

Definition Add (name value : str) (t : HeaderTable) : HeaderTable := t ++ [(name, value)].

(** The last match wins. *)
Fixpoint find_loop (name : str) (entries : HeaderTable) (found : option str) : option str :=
  match entries with
  | [] => found
  | (n, v) :: entries' => find_loop name entries' (if EqualsIgnoringCase n name then Some v else found)
  end.

Definition Find (name : str) (t : HeaderTable) : option str := find_loop name t None.

Fixpoint conflict_loop (name : str) (entries : HeaderTable) (first : option str) : bool :=
  match entries with
  | [] => false
  | (n, v) :: entries' =>
      if negb (EqualsIgnoringCase n name) then conflict_loop name entries' first
      else match first with
           | None => conflict_loop name entries' (Some v)
           | Some f => if negb (str_eqb f v) then true else conflict_loop name entries' first
           end
  end.

Definition HasConflictingDuplicate (name : str) (t : HeaderTable) : bool := conflict_loop name t None.

Definition Get (name : str) (t : HeaderTable) : str := default [] (Find name t).

Definition Has (name : str) (t : HeaderTable) : bool := bool_decide (is_Some (Find name t)).

(** ** Tokens and numbers *)

Definition IsSpace (c : ascii) : bool := char_eqb c " " || char_eqb c (chr 9).

Fixpoint trim_front (s : str) : str :=
  match s with c :: s' => if IsSpace c then trim_front s' else s | [] => [] end.

Definition Trim (s : str) : str := rev (trim_front (rev (trim_front s))).

Fixpoint unsigned_loop (text : str) (value : Z) : option Z :=
  match text with
  | [] => Some value
  | c :: text' =>
      if negb (is_digit c) then None
      else
        let digit := code c - 48 in
        if value >? (u64_max - digit) / 10 then None else unsigned_loop text' (value * 10 + digit)
  end.

Definition ParseUnsigned (text : str) : option Z :=
  if bool_decide (text = []) then None else unsigned_loop text 0.

(** The loop over the items of a list; [rest] is the text from [start] on. *)
Fixpoint token_loop (fuel : nat) (rest token : str) : bool :=
  match fuel with
  | O => false
  | S fuel' =>
      let comma := find "," rest in
      let item := Trim (match comma with None => rest | Some i => take i rest end) in
      if (length item =? length token)%nat && same_letters item token then true
      else match comma with None => false | Some i => token_loop fuel' (drop (S i) rest) token end
  end.

Definition ListContainsToken (list token : str) : bool := token_loop (S (length list)) list token.

(** ** [Content-Range] *)

Record ContentRange : Type := mkContentRange {
  cr_unsatisfied : bool;
  cr_first : Z;
  cr_last : Z;
  cr_hasCompleteLength : bool;
  cr_completeLength : Z }.

Definition Length (c : ContentRange) : Z := u64 (cr_last c - cr_first c + 1).

(** The part after the unit: [spec "/" complete]. *)
Definition parse_complete (complete : str) : option (bool * Z) :=
  if str_eqb complete (lit "*") then Some (false, 0)
  else match ParseUnsigned complete with Some n => Some (true, n) | None => None end.

Definition parse_spec (spec : str) (has : bool) (n : Z) : option ContentRange :=
  if str_eqb spec (lit "*") then
    if negb has then None else Some (mkContentRange true 0 0 has n)
  else
    match find "-" spec with
    | None => None
    | Some dash =>
        match ParseUnsigned (take dash spec), ParseUnsigned (drop (S dash) spec) with
        | Some first, Some last =>
            if last <? first then None
            else if has && (n <=? last) then None
            else Some (mkContentRange false first last has n)
        | _, _ => None
        end
    end.

Definition ParseContentRange (value : str) : option ContentRange :=
  let value := Trim value in
  let kUnit := lit "bytes" in
  if (length value <=? length kUnit)%nat then None
  else if negb (str_eqb (take (length kUnit) value) kUnit) then None
  else if negb (IsSpace (default " "%char (value !! length kUnit))) then None
  else
    let value := Trim (drop (length kUnit) value) in
    match find "/" value with
    | None => None
    | Some i =>
        let spec := Trim (take i value) in
        match parse_complete (Trim (drop (S i) value)) with
        | None => None
        | Some (has, n) => parse_spec spec has n
        end
    end.

Definition ParseContentLength (value : str) : option Z := ParseUnsigned (Trim value).

Definition AdvertisesByteRanges (headers : HeaderTable) : bool :=
  match Find (lit "Accept-Ranges") headers with
  | None => false
  | Some value => ListContainsToken value (lit "bytes")
  end.

(** ** Validators *)

Record CapturedValidator : Type := mkCaptured {
  cv_validator : Validator;
  cv_ifRangeValue : str }.

Definition CaptureValidator (headers : HeaderTable) : CapturedValidator :=
  let etag := Trim (default [] (Find (lit "ETag") headers)) in
  let modified := Trim (default [] (Find (lit "Last-Modified") headers)) in
  if negb (bool_decide (etag = [])) then
    let weak := starts_with (lit "W/") etag in
    mkCaptured (mkValidator etag EntityTag (if weak then Weak else Strong)) (if weak then [] else etag)
  else if negb (bool_decide (modified = [])) then
    mkCaptured (mkValidator modified HttpDate Weak) modified
  else mkCaptured Validator_none [].

Definition ContradictsCapturedValidator (headers : HeaderTable) (captured : Validator) : bool :=
  if negb (IsUsable captured) then false
  else match v_kind captured with
       | EntityTag =>
           match Find (lit "ETag") headers with
           | None => false
           | Some etag => negb (str_eqb (Trim etag) (v_value captured))
           end
       | HttpDate =>
           match Find (lit "Last-Modified") headers with
           | None => false
           | Some modified => negb (str_eqb (Trim modified) (v_value captured))
           end
       | _ => false
       end.

Definition FormatByteRange (offset length : Z) : str :=
  lit "bytes=" ++ to_string offset ++ lit "-" ++ to_string (u64 (offset + length - 1)).

(** ** Numbers *)

(** The decimal numerals a 64-bit field can hold, and nothing else. *)
Lemma unsigned_loop_spec text v :
  0 <= v <= u64_max ->
  unsigned_loop text v =
  if forallb is_digit text && (fold_left decimal_step text v <=? u64_max)
  then Some (fold_left decimal_step text v) else None.
Proof.
  revert v. induction text as [|c text IH]; intros v Hv; simpl.
  { by destruct (Z.leb_spec v u64_max); [|lia]. }
  destruct (is_digit c) eqn:Hc; [|done]. cbn [negb andb]. apply is_digit_code in Hc.
  change (v * 10 + (code c - 48)) with (decimal_step v c). unfold u64_max in *.
  rewrite Z.gtb_ltb. destruct (Z.ltb_spec ((2 ^ 64 - 1 - (code c - 48)) / 10) v) as [Hlt|Hle].
  - assert (2 ^ 64 - 1 < decimal_step v c) as Hbig.
    { unfold decimal_step. pose proof (Z.mul_succ_div_gt (2 ^ 64 - 1 - (code c - 48)) 10 ltac:(lia)). lia. }
    destruct (forallb is_digit text) eqn:Ef; [|done]. simpl.
    assert (Forall (fun c => is_digit c = true) text) as HF.
    { apply Forall_forall. rewrite forallb_forall in Ef. intros x Hx. by apply Ef, list_elem_of_In. }
    pose proof (decimal_fold_ge text (decimal_step v c) HF ltac:(lia)). by rewrite (proj2 (Z.leb_gt _ _)) by lia.
  - apply IH. unfold decimal_step. pose proof (Z.mul_div_le (2 ^ 64 - 1 - (code c - 48)) 10 ltac:(lia)). lia.
Qed.

Lemma ParseUnsigned_spec text :
  ParseUnsigned text =
  if negb (bool_decide (text = [])) && forallb is_digit text && (decimal_value text <=? u64_max)
  then Some (decimal_value text) else None.
Proof. unfold ParseUnsigned. case_bool_decide; [done|]. by rewrite unsigned_loop_spec. Qed.

Lemma ParseUnsigned_Some text v :
  ParseUnsigned text = Some v <->
  text <> [] /\ Forall (fun c => is_digit c = true) text /\ decimal_value text = v /\ is_u64 v.
Proof.
  rewrite ParseUnsigned_spec. unfold is_u64, u64_max. rewrite Forall_forall.
  assert (forallb is_digit text = true <-> forall x, x ∈ text -> is_digit x = true) as Hf.
  { rewrite forallb_forall. split; intros H x Hx; apply H; by apply list_elem_of_In. }
  split.
  - destruct (_ && _) eqn:E; [|done]. intros [= <-].
    rewrite !andb_true_iff, negb_true_iff, bool_decide_eq_false, Hf, Z.leb_le in E.
    destruct E as [[E1 E2] E3]. split_and!; [done|done|done| |lia].
    apply decimal_fold_ge; [by apply Forall_forall|done].
  - intros (H1 & H2 & <- & H3). rewrite bool_decide_eq_false_2 by done.
    rewrite (proj2 Hf) by done. simpl. by destruct (Z.leb_spec (decimal_value text) (2 ^ 64 - 1)); [|lia].
Qed.

Lemma ParseUnsigned_to_string n : is_u64 n -> ParseUnsigned (to_string n) = Some n.
Proof.
  intros Hn. apply ParseUnsigned_Some. unfold is_u64 in *.
  split_and!; [apply to_string_nonempty|apply to_string_digits; lia|apply decimal_value_to_string; lia|lia|lia].
Qed.

Lemma ParseUnsigned_u64 text v : ParseUnsigned text = Some v -> is_u64 v.
Proof. by intros (_ & _ & _ & ?)%ParseUnsigned_Some. Qed.

(** ** Trimming *)

Definition no_space_ends (s : str) : Prop :=
  (forall c, s !! 0%nat = Some c -> IsSpace c = false) /\ (forall c, last s = Some c -> IsSpace c = false).

Lemma trim_front_id s : (forall c, s !! 0%nat = Some c -> IsSpace c = false) -> trim_front s = s.
Proof. destruct s as [|c s]; intros H; simpl; [done|]. by rewrite H. Qed.

Lemma Trim_id s : no_space_ends s -> Trim s = s.
Proof.
  intros [H1 H2]. unfold Trim. rewrite (trim_front_id s) by done. rewrite trim_front_id.
  - by rewrite rev_involutive.
  - intros c Hc. apply H2. rewrite last_lookup. destruct s as [|d s _] using rev_ind; [by simpl in Hc|].
    rewrite rev_app_distr in Hc. simpl in Hc. injection Hc as ->. rewrite length_app. simpl.
    rewrite lookup_app_r by lia. by replace (pred (length s + 1) - length s)%nat with 0%nat by lia.
Qed.

Lemma digits_no_space_ends s : Forall (fun c => is_digit c = true) s -> no_space_ends s.
Proof.
  intros HF. assert (Forall (fun c => negb (IsSpace c) = true) s) as H.
  { revert HF. apply Forall_digits_impl. by vm_compute. }
  rewrite Forall_lookup in H. split; intros c Hc.
  - apply negb_true_iff. by eapply H.
  - rewrite last_lookup in Hc. apply negb_true_iff. by eapply H.
Qed.

Lemma no_space_ends_app a b : a <> [] -> b <> [] -> no_space_ends a -> no_space_ends b -> no_space_ends (a ++ b).
Proof.
  intros Ha Hb [A1 _] [_ B2]. split; intros c.
  - destruct a; [done|]. apply A1.
  - rewrite last_app. destruct (last b) as [x|] eqn:E; [by intros [= ->]; apply B2|]. by apply last_None in E.
Qed.

Lemma no_space_ends_mid a m b : a <> [] -> b <> [] -> no_space_ends a -> no_space_ends b -> no_space_ends (a ++ m ++ b).
Proof.
  intros Ha Hb [A1 _] [_ B2]. split; intros c.
  - destruct a; [done|]. apply A1.
  - rewrite !last_app. destruct (last b) as [x|] eqn:E; [by intros [= ->]; apply B2|]. by apply last_None in E.
Qed.

(** ** [Content-Range] read back *)

Record range_wf (c : ContentRange) : Prop := {
  rw_complete : is_u64 (cr_completeLength c) /\ (cr_hasCompleteLength c = false -> cr_completeLength c = 0);
  rw_first : 0 <= cr_first c <= cr_last c;
  rw_last : cr_last c < 2 ^ 64 /\ (cr_unsatisfied c = false -> cr_hasCompleteLength c = true -> cr_last c < cr_completeLength c);
  rw_unsatisfied : cr_unsatisfied c = true -> cr_hasCompleteLength c = true /\ cr_first c = 0 /\ cr_last c = 0 }.

Definition print_complete (c : ContentRange) : str :=
  if cr_hasCompleteLength c then to_string (cr_completeLength c) else lit "*".

Definition print_spec (c : ContentRange) : str :=
  if cr_unsatisfied c then lit "*" else to_string (cr_first c) ++ lit "-" ++ to_string (cr_last c).

(** The header as RFC 9110 writes it. *)
Definition print_range (c : ContentRange) : str :=
  lit "bytes " ++ print_spec c ++ lit "/" ++ print_complete c.

Lemma number_not_star n : 0 <= n -> str_eqb (to_string n) (lit "*") = false.
Proof.
  intros Hn. apply bool_decide_eq_false. intros E. pose proof (to_string_digits n Hn) as HF.
  rewrite E in HF. by apply Forall_cons in HF as [? _].
Qed.

Lemma parse_complete_print c :
  range_wf c -> parse_complete (print_complete c) = Some (cr_hasCompleteLength c, cr_completeLength c).
Proof.
  intros [[H1 H2] _ _ _]. unfold parse_complete, print_complete. destruct (cr_hasCompleteLength c).
  - rewrite number_not_star by apply H1. by rewrite ParseUnsigned_to_string.
  - rewrite H2 by done. done.
Qed.

Lemma parse_spec_print c :
  range_wf c -> parse_spec (print_spec c) (cr_hasCompleteLength c) (cr_completeLength c) = Some c.
Proof.
  intros [_ H1 [H2 H3] H4]. unfold parse_spec, print_spec. destruct c as [u f l h n].
  cbn [cr_unsatisfied cr_first cr_last cr_hasCompleteLength cr_completeLength] in *.
  destruct u; cbv iota; change (lit "-" ++ ?x) with ("-"%char :: x).
  - destruct (H4 eq_refl) as (-> & -> & ->). done.
  - assert (str_eqb (to_string f ++ "-"%char :: to_string l) (lit "*") = false) as ->.
    { apply bool_decide_eq_false. intros E. assert ("-"%char ∈ lit "*") as Hin by (rewrite <-E; set_solver).
      revert Hin. apply (bool_decide_unpack _). by vm_compute. }
    rewrite find_app by (apply to_string_no_char; [lia|done]). rewrite take_app_length.
    rewrite drop_app_ge by lia. replace (S (length (to_string f)) - length (to_string f))%nat with 1%nat by lia.
    change (drop 1 (?c :: ?x)) with x. rewrite !ParseUnsigned_to_string by (unfold is_u64; lia).
    destruct (Z.ltb_spec l f); [lia|]. destruct h; [|done]. simpl.
    destruct (Z.leb_spec n l); [|done]. specialize (H3 eq_refl eq_refl). lia.
Qed.

Lemma digits_ends n : 0 <= n -> to_string n <> [] /\ no_space_ends (to_string n) /\ "/"%char ∉ to_string n.
Proof.
  intros Hn. split_and!; [apply to_string_nonempty| |by apply to_string_no_char].
  by apply digits_no_space_ends, to_string_digits.
Qed.

Lemma print_spec_ends c :
  range_wf c -> print_spec c <> [] /\ no_space_ends (print_spec c) /\ "/"%char ∉ print_spec c.
Proof.
  intros [_ H1 _ _]. unfold print_spec. destruct (cr_unsatisfied c).
  - split_and!; [done| |by apply (bool_decide_unpack _)]. split; by intros ? [= <-].
  - destruct (digits_ends (cr_first c)) as (A1 & A2 & A3); [lia|].
    destruct (digits_ends (cr_last c)) as (B1 & B2 & B3); [lia|].
    split_and!; [by intros [? _]%app_nil|by apply no_space_ends_mid|].
    rewrite !not_elem_of_app. split_and!; [done|by apply (bool_decide_unpack _)|done].
Qed.

Lemma print_complete_ends c : range_wf c -> print_complete c <> [] /\ no_space_ends (print_complete c).
Proof.
  intros [[H1 _] _ _ _]. unfold print_complete. destruct (cr_hasCompleteLength c).
  - destruct (digits_ends (cr_completeLength c)) as (? & ? & _); [apply H1|done].
  - split; [done|]. split; by intros ? [= <-].
Qed.

Lemma ParseContentRange_print c : range_wf c -> ParseContentRange (print_range c) = Some c.
Proof.
  intros Hw. destruct (print_spec_ends c Hw) as (S1 & S2 & S3). destruct (print_complete_ends c Hw) as (C1 & C2).
  assert (no_space_ends (print_spec c ++ lit "/" ++ print_complete c)) as Hr by by apply no_space_ends_mid.
  assert (no_space_ends (print_range c)) as Hp.
  { unfold print_range. split; [by intros ? [= <-]|]. intros x. rewrite last_app.
    destruct (last (print_spec c ++ lit "/" ++ print_complete c)) as [y|] eqn:E.
    - intros [= ->]. by apply Hr.
    - apply last_None, app_nil in E. naive_solver. }
  unfold ParseContentRange. rewrite Trim_id by done. unfold print_range.
  set (r := print_spec c ++ lit "/" ++ print_complete c) in *.
  change (lit "bytes " ++ r) with (lit "bytes" ++ " "%char :: r).
  replace (_ <=? _)%nat with false by (symmetry; apply Nat.leb_gt; rewrite length_app; simpl; lia).
  rewrite take_app_length, drop_app_length. change (str_eqb (lit "bytes") (lit "bytes")) with true.
  rewrite list_lookup_middle by done. cbn [negb default from_option]. change (IsSpace " ") with true. cbn [negb].
  assert (Trim (" "%char :: r) = r) as ->. { transitivity (Trim r); [done|by apply Trim_id]. }
  unfold r. change (lit "/" ++ ?x) with ("/"%char :: x). rewrite find_app by done. rewrite take_app_length.
  rewrite drop_app_ge by lia. replace (S (length (print_spec c)) - length (print_spec c))%nat with 1%nat by lia.
  change (drop 1 (?c :: ?x)) with x. rewrite !Trim_id by done.
  rewrite parse_complete_print by done. by apply parse_spec_print.
Qed.

Lemma ParseContentRange_wf v c : ParseContentRange v = Some c -> range_wf c.
Proof.
  unfold ParseContentRange. destruct (_ <=? _)%nat; [done|]. destruct (negb _); [done|]. destruct (negb _); [done|].
  destruct (find _ _) as [i|]; [|done]. destruct (parse_complete _) as [[has n]|] eqn:Ec; [|done].
  assert (is_u64 n /\ (has = false -> n = 0)) as [Hn Hh].
  { unfold parse_complete in Ec. destruct (str_eqb _ _); [by injection Ec as <- <-|].
    destruct (ParseUnsigned _) eqn:E; [|done]. injection Ec as <- <-. split; [by eapply ParseUnsigned_u64|done]. }
  unfold parse_spec. destruct (str_eqb _ _).
  - destruct has; [|done]. intros [= <-]. split; simpl; try done; lia.
  - destruct (find _ _) as [j|]; [|done]. destruct (ParseUnsigned _) as [f|] eqn:Ef; [|done].
    destruct (ParseUnsigned (drop _ _)) as [l|] eqn:El; [|done].
    apply ParseUnsigned_u64 in Ef, El. unfold is_u64 in *.
    destruct (Z.ltb_spec l f); [done|]. destruct (has && (n <=? l)) eqn:Eb; [done|]. intros [= <-].
    split; simpl; try done; try lia. split; [lia|]. intros _ ->. simpl in Eb. apply Z.leb_gt in Eb. lia.
Qed.

(** C33: a [Content-Range] header that is accepted describes a range of the
    representation: first and last in order and inside the complete length where
    there is one, and its length is that of the range.  The one exception is
    [bytes 0-18446744073709551615] with an unknown complete length, whose length
    does not fit in 64 bits and wraps to zero.  Every such range, the unsatisfied
    form included, is read back from its RFC 9110 spelling. *)
Theorem ParseContentRange_spec :
  (forall v c, ParseContentRange v = Some c -> range_wf c /\
     (cr_unsatisfied c = false ->
      Length c = cr_last c - cr_first c + 1 \/
      cr_first c = 0 /\ cr_last c = u64_max /\ cr_hasCompleteLength c = false /\ Length c = 0)) /\
  (forall c, range_wf c -> ParseContentRange (print_range c) = Some c).
Proof.
  split; [|apply ParseContentRange_print]. intros v c Hw%ParseContentRange_wf. split; [done|].
  intros Hu. destruct Hw as [[H0 _] H1 [H2 H3] _]. unfold Length, u64_max, is_u64 in *.
  destruct (decide (cr_last c - cr_first c + 1 < 2 ^ 64)); [left; apply u64_small; unfold is_u64; lia|right].
  assert (cr_first c = 0 /\ cr_last c = 2 ^ 64 - 1) as [-> ->] by lia. split_and!; try done.
  destruct (cr_hasCompleteLength c); [|done]. specialize (H3 Hu eq_refl). lia.
Qed.

(** The exception. *)
Example whole_range_wraps :
  (Length <$> ParseContentRange (lit "bytes 0-18446744073709551615/*")) = Some 0.
Proof. by vm_compute. Qed.

(** ** Header tables and validators *)

Lemma find_loop_last name t found :
  find_loop name t found =
  match last (filter (fun e => EqualsIgnoringCase (fst e) name = true) t) with
  | Some e => Some (snd e)
  | None => found
  end.
Proof.
  revert found. induction t as [|[n v] t IH]; intros found; cbn [find_loop]; [done|].
  rewrite IH. cbn [fst]. destruct (EqualsIgnoringCase n name) eqn:E.
  - rewrite (filter_cons_True _ (n, v)) by done. rewrite last_cons. by destruct (last _).
  - rewrite (filter_cons_False _ (n, v)); [done|]. simpl. congruence.
Qed.

Lemma conflict_loop_same name t f :
  conflict_loop name t (Some f) = false ->
  forall n v, (n, v) ∈ t -> EqualsIgnoringCase n name = true -> v = f.
Proof.
  induction t as [|[n v] t IH]; intros H n' v' Hin Heq; [by apply not_elem_of_nil in Hin|]. simpl in H.
  apply elem_of_cons in Hin as [[= -> ->]|Hin].
  - rewrite Heq in H. simpl in H. destruct (str_eqb f v) eqn:E; [|done]. by apply str_eqb_eq in E.
  - destruct (EqualsIgnoringCase n name); simpl in H; [|by eapply IH].
    destruct (str_eqb f v); [|done]. by eapply IH.
Qed.

(** A header without conflicting duplicates means one thing, whichever line an
    intermediary believes. *)
Lemma HasConflictingDuplicate_unique name t n v :
  HasConflictingDuplicate name t = false -> (n, v) ∈ t -> EqualsIgnoringCase n name = true ->
  Find name t = Some v.
Proof.
  unfold HasConflictingDuplicate, Find. intros Hc Hin Heq.
  assert (forall t, conflict_loop name t None = false -> forall x y, x ∈ t -> y ∈ t ->
    EqualsIgnoringCase (fst x) name = true -> EqualsIgnoringCase (fst y) name = true -> snd x = snd y) as Hall.
  { clear. induction t as [|[n v] t IH]; intros H x y Hx Hy Ex Ey; [by apply not_elem_of_nil in Hx|].
    simpl in H. destruct (EqualsIgnoringCase n name) eqn:E; simpl in H.
    - pose proof (conflict_loop_same _ _ _ H) as Hs. destruct x as [xn xv], y as [yn yv]. simpl in *.
      assert (xv = v) as ->; [|assert (yv = v) as ->; [|done]].
      + apply elem_of_cons in Hx as [[= -> ->]|Hx]; [done|by eapply Hs].
      + apply elem_of_cons in Hy as [[= -> ->]|Hy]; [done|by eapply Hs].
    - apply elem_of_cons in Hx as [->|Hx]; [by simpl in Ex; congruence|].
      apply elem_of_cons in Hy as [->|Hy]; [by simpl in Ey; congruence|]. by eapply IH. }
  rewrite find_loop_last. destruct (last _) as [e|] eqn:El.
  - apply last_Some in El as (l & El). assert (e ∈ filter (fun e => EqualsIgnoringCase (fst e) name = true) t) as He
      by (rewrite El; set_solver).
    apply list_elem_of_filter in He as [E1 E2]. f_equal. by apply (Hall t Hc e (n, v)).
  - apply last_None in El. exfalso. apply (not_elem_of_nil (n, v)). rewrite <-El. by apply list_elem_of_filter.
Qed.

(** A strong entity tag that is captured is the one offered to [If-Range]. *)
Lemma CaptureValidator_strong h :
  let c := CaptureValidator h in
  v_kind (cv_validator c) = EntityTag -> v_strength (cv_validator c) = Strong ->
  cv_ifRangeValue c = v_value (cv_validator c).
Proof. unfold CaptureValidator. cbv zeta. repeat case_of; try done. Qed.

(** What is captured is not contradicted by the response it came from, and only
    a strong entity tag or a date is offered to [If-Range]. *)
Lemma CaptureValidator_spec h :
  let c := CaptureValidator h in
  ContradictsCapturedValidator h (cv_validator c) = false /\
  (cv_ifRangeValue c <> [] -> cv_ifRangeValue c = v_value (cv_validator c) /\
     (v_kind (cv_validator c) = HttpDate \/ v_strength (cv_validator c) = Strong)).
Proof.
  unfold CaptureValidator, ContradictsCapturedValidator, IsUsable.
  generalize (Find (lit "ETag") h) (Find (lit "Last-Modified") h). clear h. intros oe om.
  destruct (bool_decide_reflect (Trim (default [] oe) = [])) as [E|E]; cbn [negb].
  - destruct (bool_decide_reflect (Trim (default [] om) = [])) as [F|F]; cbn [negb].
    + split; [done|]. by simpl.
    + split; [|simpl; eauto]. simpl. destruct om; [|done]. simpl. apply negb_false_iff. by apply str_eqb_eq.
  - split.
    + simpl. destruct oe; [|done]. apply negb_false_iff. by apply str_eqb_eq.
    + cbn [cv_ifRangeValue cv_validator v_strength v_value v_kind]. destruct (starts_with _ _); [done|]. eauto.
Qed.
