(* ===== verification/Destination.v ===== *)
(** * Destination: address classes and the destination policy

    libs/usd-asset-http: src/Destination.h and src/Destination.cpp, with
    [AddressClass] and [DestinationPolicy] of include/usdAssetHttp/HttpAssetReader.h.
    An address is the list of its bytes, 4 or 16 of them. *)

From S2P Require Import Prelude.

Inductive AddressClass : Type := Public | Private | Loopback | LinkLocal | Metadata_.

#[export] Instance AddressClass_eq_dec : EqDecision AddressClass.
Proof. solve_decision. Defined.

Definition AddressClassName (c : AddressClass) : str :=
  match c with
  | Public => lit "public"
  | Private => lit "private"
  | Loopback => lit "loopback"
  | LinkLocal => lit "link-local"
  | Metadata_ => lit "metadata"
  end.

Record DestinationPolicy : Type := mkPolicy {
  dp_publicAddresses : bool;
  dp_privateNetworks : bool;
  dp_loopback : bool;
  dp_linkLocal : bool;
  dp_metadata : bool }.

#[export] Instance DestinationPolicy_eq_dec : EqDecision DestinationPolicy.
Proof. solve_decision. Defined.

Definition DestinationPolicy_default : DestinationPolicy := mkPolicy true true true false false.

Definition Permits (p : DestinationPolicy) (c : AddressClass) : bool :=
  match c with
  | Public => dp_publicAddresses p
  | Private => dp_privateNetworks p
  | Loopback => dp_loopback p
  | LinkLocal => dp_linkLocal p
  | Metadata_ => dp_metadata p
  end.

Definition Covers (p other : DestinationPolicy) : bool :=
  (dp_publicAddresses p || negb (dp_publicAddresses other)) &&
  (dp_privateNetworks p || negb (dp_privateNetworks other)) &&
  (dp_loopback p || negb (dp_loopback other)) && (dp_linkLocal p || negb (dp_linkLocal other)) &&
  (dp_metadata p || negb (dp_metadata other)).

(** Byte [i] of an address. *)
Definition byte_at (a : list Z) (i : nat) : Z := default 0 (a !! i).

Definition HexValue (c : ascii) : Z :=
  if is_digit c then code c - 48
  else if in_range "a" "f" c then code c - 97 + 10
  else if in_range "A" "F" c then code c - 65 + 10
  else -1.

(** ** IPv4 text *)

(** The digits of one part: its value, how many there were, and the rest. *)
Fixpoint quad_digits (text : str) (value : Z) (digits : nat) : option (Z * nat * str) :=
  match text with
  | c :: text' =>
      if is_digit c then
        let value := value * 10 + (code c - 48) in
        if 255 <? value then None else quad_digits text' value (S digits)
      else Some (value, digits, text)
  | [] => Some (value, digits, [])
  end.

Definition quad_part (text : str) : option (Z * str) :=
  match quad_digits text 0 0 with
  | None => None
  | Some (value, digits, rest) =>
      if (digits =? 0)%nat || (3 <? digits)%nat then None
      else if (1 <? digits)%nat && starts_with (lit "0") text then None
      else Some (value, rest)
  end.

(** [parts] more parts, each but the first of all after a dot. *)
Fixpoint quad_loop (parts : nat) (first : bool) (text : str) (bytes_ : list Z) : option (list Z * str) :=
  match parts with
  | O => Some (bytes_, text)
  | S parts' =>
      let text := if first then Some text
                  else match text with
                       | c :: text' => if char_eqb c "." then Some text' else None
                       | [] => None
                       end in
      match text with
      | None => None
      | Some text =>
          match quad_part text with
          | None => None
          | Some (value, rest) => quad_loop parts' false rest (bytes_ ++ [value])
          end
      end
  end.

Definition ParseIPv4 (text : str) : option (list Z) :=
  match quad_loop 4 true text [] with
  | Some (b, []) => Some b
  | _ => None
  end.

(** ** IPv6 text *)

Fixpoint hex_loop (part : str) (value : Z) : option Z :=
  match part with
  | [] => Some value
  | c :: part' => if HexValue c <? 0 then None else hex_loop part' (value * 16 + HexValue c)
  end.

(** The loop over the parts; [rest] is the text from [at] on, [groups] what has
    been written.  Every turn but the last consumes a colon. *)
Fixpoint groups_loop (fuel : nat) (rest : str) (groups : list Z) (capacity : Z) (allowTrailingIPv4 : bool)
    : option (list Z) :=
  match fuel with
  | O => None
  | S fuel' =>
      let colon := find ":" rest in
      let part := match colon with None => rest | Some i => take i rest end in
      match find "." part with
      | Some _ =>
          if negb allowTrailingIPv4 || bool_decide (is_Some colon) then None
          else match ParseIPv4 part with
               | None => None
               | Some v4 =>
                   if zlen groups + 2 >? capacity then None
                   else Some (groups ++
                     [Z.lor (Z.shiftl (byte_at v4 0) 8) (byte_at v4 1);
                      Z.lor (Z.shiftl (byte_at v4 2) 8) (byte_at v4 3)])
               end
      | None =>
          if bool_decide (part = []) || (4 <? length part)%nat || (zlen groups + 1 >? capacity) then None
          else match hex_loop part 0 with
               | None => None
               | Some value =>
                   let groups := groups ++ [value mod 2 ^ 16] in
                   match colon with
                   | None => Some groups
                   | Some i => groups_loop fuel' (drop (S i) rest) groups capacity allowTrailingIPv4
                   end
               end
      end
  end.

Definition ParseGroups (text : str) (capacity : Z) (allowTrailingIPv4 : bool) : option (list Z) :=
  if bool_decide (text = []) then Some []
  else groups_loop (S (length text)) text [] capacity allowTrailingIPv4.

Definition group_bytes (groups : list Z) : list Z :=
  flat_map (fun g => [Z.shiftr g 8; Z.land g 255]) groups.

Definition ParseIPv6 (text : str) : option (list Z) :=
  match find_sub (lit "::") text with
  | None =>
      match ParseGroups text 8 true with
      | Some head => if negb (zlen head =? 8) then None else Some (group_bytes head)
      | None => None
      end
  | Some gap =>
      match find_sub (lit "::") (drop (S gap) text) with
      | Some _ => None
      | None =>
          match ParseGroups (take gap text) 8 false, ParseGroups (drop (gap + 2) text) 8 true with
          | Some head, Some tail =>
              if zlen head + zlen tail >? 7 then None
              else Some (group_bytes
                     (head ++ replicate (8 - length head - length tail) 0 ++ tail))
          | _, _ => None
          end
      end
  end.

(** ** Classification *)

Definition TrailingIPv4 (a : list Z) : list Z := [byte_at a 12; byte_at a 13; byte_at a 14; byte_at a 15].

Definition AllZero (a : list Z) (first last : nat) : bool :=
  forallb (fun i => byte_at a i =? 0) (seq first (last - first)).

Definition kKnown : list (list Z) :=
  [[169; 254; 169; 254]; [169; 254; 170; 2]; [169; 254; 170; 23]; [169; 254; 0; 23];
   [100; 100; 100; 200]; [168; 63; 129; 16]].

Definition IsMetadataIPv4 (a : list Z) : bool :=
  existsb (fun known =>
    (byte_at a 0 =? byte_at known 0) && (byte_at a 1 =? byte_at known 1) &&
    (byte_at a 2 =? byte_at known 2) && (byte_at a 3 =? byte_at known 3)) kKnown.

Definition IsMetadataIPv6 (a : list Z) : bool :=
  if negb (byte_at a 0 =? 0xfd) || negb (byte_at a 1 =? 0x00) || negb (byte_at a 2 =? 0x0e) ||
     negb (byte_at a 3 =? 0xc2) || negb (AllZero a 4 14) then false
  else ((byte_at a 14 =? 0x02) && (byte_at a 15 =? 0x54)) ||
       ((byte_at a 14 =? 0x00) && (byte_at a 15 =? 0x23)).

Definition ClassifyIPv4 (a : list Z) : AddressClass :=
  if IsMetadataIPv4 a then Metadata_
  else if (byte_at a 0 =? 127) || (byte_at a 0 =? 0) then Loopback
  else if (byte_at a 0 =? 169) && (byte_at a 1 =? 254) then LinkLocal
  else if byte_at a 0 =? 10 then Private
  else if (byte_at a 0 =? 172) && (Z.land (byte_at a 1) 0xf0 =? 0x10) then Private
  else if (byte_at a 0 =? 192) && (byte_at a 1 =? 168) then Private
  else if (byte_at a 0 =? 100) && (Z.land (byte_at a 1) 0xc0 =? 0x40) then Private
  else Public.

Definition ClassifyIPv6 (a : list Z) : AddressClass :=
  if AllZero a 0 12 then
    if (byte_at a 12 =? 0) && (byte_at a 13 =? 0) && (byte_at a 14 =? 0) &&
       ((byte_at a 15 =? 0) || (byte_at a 15 =? 1)) then Loopback
    else ClassifyIPv4 (TrailingIPv4 a)
  else if AllZero a 0 10 && (byte_at a 10 =? 0xff) && (byte_at a 11 =? 0xff) then ClassifyIPv4 (TrailingIPv4 a)
  else if (byte_at a 0 =? 0x00) && (byte_at a 1 =? 0x64) && (byte_at a 2 =? 0xff) &&
          (byte_at a 3 =? 0x9b) && AllZero a 4 12 then ClassifyIPv4 (TrailingIPv4 a)
  else if IsMetadataIPv6 a then Metadata_
  else if (byte_at a 0 =? 0xfe) && (Z.land (byte_at a 1) 0xc0 =? 0x80) then LinkLocal
  else if (byte_at a 0 =? 0xfe) && (Z.land (byte_at a 1) 0xc0 =? 0xc0) then Private
  else if Z.land (byte_at a 0) 0xfe =? 0xfc then Private
  else Public.

Definition ClassifyHostLiteral (host : str) : option AddressClass :=
  if starts_with (lit "[") host then
    if (length host <? 2)%nat || negb (bool_decide (last host = Some "]"%char)) then None
    else
      let inner := take (length host - 2) (drop 1 host) in
      let inner := match find "%" inner with Some zone => take zone inner | None => inner end in
      ClassifyIPv6 <$> ParseIPv6 inner
  else
    let quad := if bool_decide (last host = Some "."%char) then removelast host else host in
    ClassifyIPv4 <$> ParseIPv4 quad.

(** ** Dotted quads *)

Definition is_byte (z : Z) : Prop := 0 <= z < 256.

Definition print_quad (a b c d : Z) : str :=
  to_string a ++ "."%char :: to_string b ++ "."%char :: to_string c ++ "."%char :: to_string d.

(** Text that does not go on with a digit. *)
Definition no_digit (s : str) : Prop := forall c, s !! 0%nat = Some c -> is_digit c = false.

Lemma quad_digits_inv text v n v' n' rest :
  quad_digits text v n = Some (v', n', rest) ->
  exists ds, text = ds ++ rest /\ Forall (fun c => is_digit c = true) ds /\
    v' = fold_left decimal_step ds v /\ n' = (n + length ds)%nat /\ no_digit rest /\
    (ds <> [] -> v' <= 255).
Proof.
  revert v n. induction text as [|c text IH]; intros v n; simpl.
  { intros [= <- <- <-]. exists []. split_and!; try done; simpl; lia. }
  destruct (is_digit c) eqn:Hc.
  - destruct (Z.ltb_spec 255 (v * 10 + (code c - 48))) as [|Hle]; [done|].
    intros (ds & -> & HF & -> & -> & Hn & Hb)%IH. exists (c :: ds). split_and!; try done.
    + by constructor.
    + simpl. lia.
    + intros _. destruct ds; [done|]. by apply Hb.
  - intros [= <- <- <-]. exists []. split_and!; try done; try (simpl; lia). by intros d [= <-].
Qed.

Lemma quad_digits_app ds v n rest :
  Forall (fun c => is_digit c = true) ds -> 0 <= v -> fold_left decimal_step ds v <= 255 -> no_digit rest ->
  quad_digits (ds ++ rest) v n = Some (fold_left decimal_step ds v, (n + length ds)%nat, rest).
Proof.
  intros HF. revert v n. induction HF as [|c ds Hc HF IH]; intros v n Hv Hle Hr; simpl in *.
  - rewrite Nat.add_0_r. destruct rest as [|d rest]; simpl; [done|]. by rewrite (Hr d eq_refl).
  - rewrite Hc. apply is_digit_code in Hc. change (v * 10 + (code c - 48)) with (decimal_step v c).
    assert (0 <= decimal_step v c) as H0 by (unfold decimal_step; lia). pose proof (decimal_fold_ge ds _ HF H0).
    destruct (Z.ltb_spec 255 (decimal_step v c)); [lia|]. rewrite IH by done.
    by replace (S n + length ds)%nat with (n + S (length ds))%nat by lia.
Qed.

Definition digit_chars : list ascii := map (fun i => ascii_of_nat (48 + i)) (seq 0 10).

Lemma digit_chars_complete c : is_digit c = true -> c ∈ digit_chars.
Proof.
  intros Hc. pose proof (char_forall (fun c => implb (is_digit c) (existsb (char_eqb c) digit_chars)) ltac:(by vm_compute) c) as H.
  cbv beta in H. rewrite Hc in H. apply existsb_exists in H as (d & Hd & ->%char_eqb_eq). by apply list_elem_of_In.
Qed.

(** A numeral of at most three digits without a leading zero is the one
    [std::to_string] writes. *)
Lemma short_numeral ds :
  Forall (fun c => is_digit c = true) ds -> (0 < length ds <= 3)%nat ->
  (1 <? length ds)%nat && starts_with (lit "0") ds = false -> to_string (decimal_value ds) = ds.
Proof.
  intros HF Hl Hz.
  set (ok := fun ds => implb (negb ((1 <? length ds)%nat && starts_with (lit "0") ds))
                         (str_eqb (to_string (decimal_value ds)) ds)).
  assert (forall l, Forall (fun c => c ∈ digit_chars) l -> (0 < length l <= 3)%nat -> ok l = true) as H.
  { assert (forallb (fun a => ok [a] && forallb (fun b => ok [a; b] && forallb (fun c => ok [a; b; c]) digit_chars) digit_chars) digit_chars = true) as Hall by by vm_compute.
    rewrite forallb_forall in Hall. intros l HFl Hll.
    destruct l as [|a l]; [simpl in Hll; lia|]. apply Forall_cons in HFl as [Ha HFl].
    apply list_elem_of_In, Hall, andb_true_iff in Ha as [Ha Hall2]. destruct l as [|b l]; [done|].
    rewrite forallb_forall in Hall2. apply Forall_cons in HFl as [Hb HFl].
    apply list_elem_of_In, Hall2, andb_true_iff in Hb as [Hb Hall3]. destruct l as [|c l]; [done|].
    rewrite forallb_forall in Hall3. apply Forall_cons in HFl as [Hc HFl].
    apply list_elem_of_In, Hall3 in Hc. destruct l; [done|]. simpl in Hll. lia. }
  specialize (H ds). unfold ok in H. rewrite Hz in H. apply str_eqb_eq, H; [|done].
  eapply Forall_impl; [exact HF|]. apply digit_chars_complete.
Qed.

Lemma byte_numeral v :
  is_byte v -> (0 < length (to_string v) <= 3)%nat /\
  (1 <? length (to_string v))%nat && starts_with (lit "0") (to_string v) = false.
Proof.
  intros Hv. set (ok := fun i => let t := to_string (Z.of_nat i) in
    (0 <? length t)%nat && (length t <=? 3)%nat && negb ((1 <? length t)%nat && starts_with (lit "0") t)).
  assert (forallb ok (seq 0 256) = true) as H by by vm_compute. rewrite forallb_forall in H.
  unfold is_byte in Hv. specialize (H (Z.to_nat v)). unfold ok in H. rewrite Z2Nat.id in H by lia.
  rewrite in_seq, !andb_true_iff, negb_true_iff, Nat.ltb_lt, Nat.leb_le in H.
  destruct H as [[? ?] ?]; [lia|]. split; [lia|done].
Qed.

Lemma quad_part_iff text v rest :
  quad_part text = Some (v, rest) <-> is_byte v /\ text = to_string v ++ rest /\ no_digit rest.
Proof.
  unfold quad_part. split.
  - destruct (quad_digits text 0 0) as [[[w n] r]|] eqn:E; [|done].
    apply quad_digits_inv in E as (ds & -> & HF & -> & -> & Hn & Hb). cbn [Nat.add].
    destruct (Nat.eqb_spec (length ds) 0) as [|Hnz]; [done|]. cbn [orb].
    destruct (Nat.ltb_spec 3 (length ds)) as [|H3]; [done|].
    assert (starts_with (lit "0") (ds ++ r) = starts_with (lit "0") ds) as ->.
    { destruct ds; [simpl in Hnz; lia|]. done. }
    destruct (_ && _) eqn:Ez; [done|]. intros [= <- <-].
    change (fold_left decimal_step ds 0) with (decimal_value ds) in *.
    rewrite short_numeral by (done || lia). split_and!; [|done|done]. unfold is_byte.
    assert (ds <> []) by (intros ->; done). specialize (Hb ltac:(done)). split; [|lia].
    by apply decimal_fold_ge.
  - intros (Hv & -> & Hr). destruct (byte_numeral v Hv) as [Hl Hz]. unfold is_byte in Hv.
    assert (fold_left decimal_step (to_string v) 0 = v) as Hval by (apply decimal_value_to_string; lia).
    rewrite quad_digits_app; [|apply to_string_digits; lia|done|lia|done]. rewrite Hval. cbn [Nat.add].
    destruct (Nat.eqb_spec (length (to_string v)) 0); [lia|]. destruct (Nat.ltb_spec 3 (length (to_string v))); [lia|].
    cbn [orb]. assert (starts_with (lit "0") (to_string v ++ rest) = starts_with (lit "0") (to_string v)) as ->.
    { destruct (to_string v); [simpl in Hl; lia|]. done. }
    by rewrite Hz.
Qed.

Lemma no_digit_dot s : no_digit ("."%char :: s).
Proof. by intros c [= <-]. Qed.

Lemma no_digit_nil : no_digit [].
Proof. by intros c. Qed.

(** The quads accepted are exactly the canonical ones. *)
Lemma ParseIPv4_iff text l :
  ParseIPv4 text = Some l <->
  exists a b c d, is_byte a /\ is_byte b /\ is_byte c /\ is_byte d /\ l = [a; b; c; d] /\ text = print_quad a b c d.
Proof.
  unfold ParseIPv4. cbn [quad_loop app]. split.
  - destruct (quad_part text) as [[a r1]|] eqn:E1; [|done]. apply quad_part_iff in E1 as (Ha & -> & _).
    destruct r1 as [|x r1]; [done|]. destruct (char_eqb x ".") eqn:Ex; [|done]. apply char_eqb_eq in Ex as ->.
    destruct (quad_part r1) as [[b r2]|] eqn:E2; [|done]. apply quad_part_iff in E2 as (Hb & -> & _).
    destruct r2 as [|x r2]; [done|]. destruct (char_eqb x ".") eqn:Ex; [|done]. apply char_eqb_eq in Ex as ->.
    destruct (quad_part r2) as [[c r3]|] eqn:E3; [|done]. apply quad_part_iff in E3 as (Hc & -> & _).
    destruct r3 as [|x r3]; [done|]. destruct (char_eqb x ".") eqn:Ex; [|done]. apply char_eqb_eq in Ex as ->.
    destruct (quad_part r3) as [[d r4]|] eqn:E4; [|done]. apply quad_part_iff in E4 as (Hd & -> & _).
    destruct r4; [|done]. intros [= <-]. exists a, b, c, d. split_and!; try apply Ha; try apply Hb; try apply Hc; try apply Hd; [done|].
    unfold print_quad. by rewrite app_nil_r.
  - intros (a & b & c & d & Ha & Hb & Hc & Hd & -> & ->). unfold print_quad.
    rewrite (proj2 (quad_part_iff _ a _)) by eauto using no_digit_dot.
    cbv beta iota zeta. change (char_eqb "." ".") with true. cbv beta iota zeta.
    rewrite (proj2 (quad_part_iff _ b _)) by eauto using no_digit_dot.
    cbv beta iota zeta. change (char_eqb "." ".") with true. cbv beta iota zeta.
    rewrite (proj2 (quad_part_iff _ c _)) by eauto using no_digit_dot.
    cbv beta iota zeta. change (char_eqb "." ".") with true. cbv beta iota zeta.
    by rewrite (proj2 (quad_part_iff _ d [])) by (rewrite app_nil_r; eauto using no_digit_nil).
Qed.

Lemma print_quad_chars a b c d :
  is_byte a -> is_byte b -> is_byte c -> is_byte d ->
  ":"%char ∉ print_quad a b c d /\ "%"%char ∉ print_quad a b c d /\ "["%char ∉ print_quad a b c d /\
  "."%char ∈ print_quad a b c d /\ print_quad a b c d <> [] /\ last (print_quad a b c d) <> Some "."%char.
Proof.
  intros [Ha _] [Hb _] [Hc _] [Hd _]. unfold print_quad.
  assert (forall x n, 0 <= n -> is_digit x = false -> x ∉ to_string n) as Hno by (intros; by apply to_string_no_char).
  assert (forall x, is_digit x = false -> x <> "."%char ->
    x ∉ to_string a ++ "."%char :: to_string b ++ "."%char :: to_string c ++ "."%char :: to_string d) as Hx.
  { intros x H1 H2. repeat (rewrite not_elem_of_app || rewrite not_elem_of_cons). split_and!; try done; by apply Hno. }
  split_and!; try (by apply Hx).
  - set_solver.
  - by intros [_ ?]%app_nil.
  - assert (exists x, last (to_string d) = Some x /\ is_digit x = true) as (x & Hl & Hdig).
    { destruct (last (to_string d)) as [x|] eqn:E; [|by apply last_None in E; apply to_string_nonempty in E].
      exists x. split; [done|]. pose proof (to_string_digits d Hd) as HF. rewrite Forall_lookup in HF.
      rewrite last_lookup in E. by eapply HF. }
    repeat (rewrite last_app || rewrite last_cons). rewrite Hl. by intros [= ->].
Qed.

(** The two groups a trailing quad is stored as, taken apart again. *)
Lemma group_bytes_pair a b :
  is_byte a -> is_byte b ->
  Z.shiftr (Z.lor (Z.shiftl a 8) b) 8 = a /\ Z.land (Z.lor (Z.shiftl a 8) b) 255 = b.
Proof.
  intros [Ha1 Ha2] [Hb1 Hb2].
  rewrite Z.lor_comm, lor_disjoint by lia. change 255 with (Z.ones 8). rewrite Z.land_ones, Z.shiftr_div_pow2 by lia.
  split; [rewrite Z.div_add, Z.div_small by lia; lia|rewrite Z.mod_add, Z.mod_small by lia; done].
Qed.

(** What the parser makes of a prefix of groups and a trailing quad. *)
Lemma groups_loop_quad fuel a b c d groups :
  is_byte a -> is_byte b -> is_byte c -> is_byte d -> zlen groups + 2 <= 8 ->
  groups_loop (S fuel) (print_quad a b c d) groups 8 true =
  Some (groups ++ [Z.lor (Z.shiftl a 8) b; Z.lor (Z.shiftl c 8) d]).
Proof.
  intros Ha Hb Hc Hd Hl. destruct (print_quad_chars a b c d Ha Hb Hc Hd) as (H1 & _ & _ & H2 & _ & _).
  cbn [groups_loop]. apply find_None in H1. rewrite H1.
  destruct (find "." (print_quad a b c d)) as [i|] eqn:E; [|by apply find_None in E].
  rewrite (bool_decide_eq_false_2 (is_Some None)) by (by intros [? ?]). cbn [negb orb].
  rewrite (proj2 (ParseIPv4_iff _ [a; b; c; d])) by eauto 10. rewrite Z.gtb_ltb.
  by destruct (Z.ltb_spec 8 (zlen groups + 2)); [lia|].
Qed.

Lemma find_sub_absent c rest : c ∉ rest -> find_sub [c; c] rest = None.
Proof.
  induction rest as [|x rest IH]; intros H; [done|]. rewrite not_elem_of_cons in H. destruct H as [H1 H2].
  cbn [find_sub starts_with]. rewrite char_eqb_ne by done. cbn [andb]. by rewrite IH.
Qed.

Lemma find_sub_one c rest : c ∉ rest -> find_sub [c; c] (c :: rest) = None.
Proof.
  intros H. cbn [find_sub starts_with]. rewrite char_eqb_refl. cbn [andb].
  destruct rest as [|x r]; [done|]. rewrite char_eqb_ne by set_solver. cbn [andb].
  by rewrite find_sub_absent.
Qed.

Lemma find_sub_skip c s rest :
  c ∉ s -> find_sub [c; c] (s ++ rest) = (fun i => (length s + i)%nat) <$> find_sub [c; c] rest.
Proof.
  induction s as [|x s IH]; intros H; [simpl; by destruct (find_sub _ _)|].
  rewrite not_elem_of_cons in H. destruct H as [H1 H2]. cbn [find_sub starts_with app].
  rewrite char_eqb_ne by done. cbn [andb]. rewrite IH by done. by destruct (find_sub _ rest).
Qed.

(** One group before a colon. *)
Lemma groups_loop_hex fuel part rest groups allow v :
  ":"%char ∉ part -> "."%char ∉ part -> hex_loop part 0 = Some v ->
  bool_decide (part = []) || (4 <? length part)%nat || (zlen groups + 1 >? 8) = false ->
  groups_loop (S fuel) (part ++ ":"%char :: rest) groups 8 allow =
  groups_loop fuel rest (groups ++ [v mod 2 ^ 16]) 8 allow.
Proof.
  intros H1 H2 H3 H4. cbn [groups_loop]. rewrite find_app by done. rewrite take_app_length.
  apply find_None in H2. rewrite H2, H4, H3. rewrite drop_app_ge by lia.
  by replace (S (length part) - length part)%nat with 1%nat by lia.
Qed.

Lemma group_bytes_app g h : group_bytes (g ++ h) = group_bytes g ++ group_bytes h.
Proof. apply flat_map_app. Qed.

(** ** The text forms of an IPv6 address (RFC 4291, 2.2) *)

(** One to four hexadecimal digits, of either case. *)
Definition hex_numeral (part : str) (v : Z) : Prop :=
  (0 < length part <= 4)%nat /\ Forall (fun c => 0 <= HexValue c) part /\
  v = fold_left (fun acc c => acc * 16 + HexValue c) part 0.

(** Groups between single colons; the last two may be a dotted quad where [quad]
    allows it. *)
Inductive group_text (quad : bool) : list Z -> str -> Prop :=
| gt_one part v : hex_numeral part v -> group_text quad [v] part
| gt_quad a b c d : quad = true -> is_byte a -> is_byte b -> is_byte c -> is_byte d ->
    group_text quad [Z.lor (Z.shiftl a 8) b; Z.lor (Z.shiftl c 8) d] (print_quad a b c d)
| gt_cons part v groups text : hex_numeral part v -> group_text quad groups text ->
    group_text quad (v :: groups) (part ++ ":"%char :: text).

Definition half_text (quad : bool) (groups : list Z) (text : str) : Prop :=
  groups = [] /\ text = [] \/ group_text quad groups text.

(** All eight groups, or what is before and after a run of one or more zero ones
    that is written [::]. *)
Inductive ipv6_text : list Z -> str -> Prop :=
| it_full groups text : group_text true groups text -> length groups = 8%nat -> ipv6_text groups text
| it_gap head tail left_ right_ : half_text false head left_ -> half_text true tail right_ ->
    (length head + length tail <= 7)%nat ->
    ipv6_text (head ++ replicate (8 - length head - length tail) 0 ++ tail) (left_ ++ lit "::" ++ right_).

Lemma HexValue_range c : HexValue c <= 15 /\ (0 <= HexValue c -> c <> ":"%char /\ c <> "."%char /\ c <> "%"%char).
Proof.
  pose proof (char_forall (fun c => (HexValue c <=? 15) && implb (0 <=? HexValue c)
    (negb (char_eqb c ":") && negb (char_eqb c ".") && negb (char_eqb c "%"))) ltac:(by vm_compute) c) as H.
  cbv beta in H. apply andb_true_iff in H as [H1 H2]. split; [by apply Z.leb_le|]. intros Hc. apply Z.leb_le in Hc. rewrite Hc in H2.
  cbn [implb] in H2. rewrite !andb_true_iff, !negb_true_iff in H2. destruct H2 as [[H2 H3] H4].
  split_and!; intros ->; done.
Qed.

Lemma hex_numeral_spec part v :
  hex_numeral part v -> hex_loop part 0 = Some v /\ 0 <= v < 2 ^ 16 /\
  ":"%char ∉ part /\ "."%char ∉ part /\ "%"%char ∉ part /\
  bool_decide (part = []) = false /\ (4 <? length part)%nat = false.
Proof.
  intros (Hl & HF & ->).
  assert (forall l acc, Forall (fun c => 0 <= HexValue c) l -> 0 <= acc ->
    hex_loop l acc = Some (fold_left (fun acc c => acc * 16 + HexValue c) l acc) /\
    0 <= fold_left (fun acc c => acc * 16 + HexValue c) l acc < (acc + 1) * 16 ^ Z.of_nat (length l)) as Hfold.
  { intros l. induction l as [|c l IH]; intros acc HFl Ha; cbn [hex_loop fold_left length].
    - split; [done|]. rewrite Z.pow_0_r. lia.
    - apply Forall_cons in HFl as [Hc HFl]. destruct (HexValue_range c) as [Hc15 _].
      destruct (Z.ltb_spec (HexValue c) 0); [lia|]. destruct (IH (acc * 16 + HexValue c) HFl ltac:(lia)) as [-> Hb].
      split; [done|]. rewrite Nat2Z.inj_succ, Z.pow_succ_r by lia. nia. }
  destruct (Hfold part 0 HF ltac:(lia)) as [H1 H2].
  assert (16 ^ Z.of_nat (length part) <= 2 ^ 16) as Hp.
  { change (2 ^ 16) with (16 ^ 4). apply Z.pow_le_mono_r; lia. }
  assert (forall x, (0 <= HexValue x -> False) -> x ∉ part) as Hno by (intros x Hx Hin; rewrite Forall_forall in HF; eauto).
  split_and!; try done; try lia.
  - apply Hno. intros H%HexValue_range. naive_solver.
  - apply Hno. intros H%HexValue_range. naive_solver.
  - apply Hno. intros H%HexValue_range. naive_solver.
  - apply bool_decide_eq_false. intros ->. cbn in Hl. lia.
  - apply Nat.ltb_ge. lia.
Qed.

Lemma groups_loop_text quad groups text :
  group_text quad groups text -> forall fuel acc, (length text < fuel)%nat -> zlen acc + zlen groups <= 8 ->
  groups_loop fuel text acc 8 quad = Some (acc ++ groups).
Proof.
  induction 1 as [part v Hn|a b c d -> Ha Hb Hc Hd|part v groups text Hn Ht IH]; intros fuel acc Hf Hl;
    (destruct fuel as [|fuel]; [lia|]).
  - destruct (hex_numeral_spec _ _ Hn) as (E1 & E2 & E3 & E4 & _ & E5 & E6). cbn [groups_loop].
    apply find_None in E3, E4. rewrite E3, E4, E5, E6. cbn [orb]. rewrite Z.gtb_ltb.
    destruct (Z.ltb_spec 8 (zlen acc + 1)); [unfold zlen at 2 in Hl; cbn in Hl; lia|]. by rewrite E1, Z.mod_small.
  - apply groups_loop_quad; try done.
  - destruct (hex_numeral_spec _ _ Hn) as (E1 & E2 & E3 & E4 & _ & E5 & E6).
    unfold zlen at 2 in Hl. cbn [length] in Hl. rewrite length_app in Hf. cbn [length] in Hf.
    rewrite (groups_loop_hex _ _ _ _ _ v) by (try done; rewrite E5, E6; cbn [orb]; rewrite Z.gtb_ltb; apply Z.ltb_ge; lia).
    rewrite Z.mod_small by done. rewrite IH; [by rewrite <-app_assoc|lia|]. unfold zlen in *. rewrite length_app. cbn [length]. lia.
Qed.

(** The colons of a half are single, and inside it. *)
Lemma group_text_colons quad groups text :
  group_text quad groups text ->
  find_sub [":"; ":"]%char text = None /\ text <> [] /\ text !! 0%nat <> Some ":"%char /\ last text <> Some ":"%char /\ "%"%char ∉ text.
Proof.
  assert (forall s : str, ":"%char ∉ s -> s <> [] -> s !! 0%nat <> Some ":"%char /\ last s <> Some ":"%char) as Hends.
  { intros s Hs _. split; [intros H%list_elem_of_lookup_2; done|]. rewrite last_lookup. intros H%list_elem_of_lookup_2. done. }
  induction 1 as [part v Hn|a b c d _ Ha Hb Hc Hd|part v groups text Hn Ht (I1 & I2 & I3 & I4 & I5)].
  - destruct (hex_numeral_spec _ _ Hn) as (_ & _ & E3 & _ & E4 & E5%bool_decide_eq_false & _). split_and!; try done; [by apply find_sub_absent|by apply Hends..].
  - destruct (print_quad_chars a b c d Ha Hb Hc Hd) as (H1 & H2 & _ & _ & H5 & _). split_and!; try done; [by apply find_sub_absent|by apply Hends..].
  - destruct (hex_numeral_spec _ _ Hn) as (_ & _ & E3 & _ & E4 & E5%bool_decide_eq_false & _).
    destruct (Hends part E3 E5) as [E6 _]. split_and!.
    + rewrite find_sub_skip by done. cbn [find_sub starts_with]. rewrite char_eqb_refl. cbn [andb].
      destruct text as [|x text]; [done|]. rewrite char_eqb_ne by (cbn in I3; congruence). cbn [andb]. by rewrite I1.
    + by intros [? _]%app_nil.
    + by rewrite lookup_0_app.
    + rewrite last_app, last_cons. destruct (last text) as [x|] eqn:El; [done|]. by apply last_None in El.
    + rewrite not_elem_of_app, not_elem_of_cons. done.
Qed.

(** The double colon is found where it was written. *)
Lemma find_sub_gap c s r :
  find_sub [c; c] s = None -> last s <> Some c -> find_sub [c; c] (s ++ c :: c :: r) = Some (length s).
Proof.
  induction s as [|x s IH]; intros Hf Hl; [cbn; by rewrite !char_eqb_refl|].
  cbn [app find_sub starts_with] in *. destruct s as [|y s].
  - cbn [app starts_with]. rewrite char_eqb_ne by (cbn in Hl; congruence). cbn [andb]. cbn [find_sub starts_with]. by rewrite !char_eqb_refl.
  - cbn [app starts_with] in *. destruct (char_eqb c x && (char_eqb c y && true)) eqn:E; [done|].
    destruct (find_sub [c; c] (y :: s)) eqn:Ef; [done|]. rewrite IH; [done|done|]. by rewrite last_cons in Hl; destruct (last (y :: s)).
Qed.

Lemma ParseGroups_half quad groups text :
  half_text quad groups text -> (length groups <= 8)%nat -> ParseGroups text 8 quad = Some groups.
Proof.
  intros [[-> ->]|Ht] Hl; [done|]. unfold ParseGroups. destruct (group_text_colons _ _ _ Ht) as (_ & Hne & _).
  rewrite bool_decide_eq_false_2 by done. rewrite (groups_loop_text _ _ _ Ht); [done|lia|unfold zlen; cbn; lia].
Qed.

(** Every text form of an address is read as that address. *)
Lemma ParseIPv6_text groups text : ipv6_text groups text -> ParseIPv6 text = Some (group_bytes groups).
Proof.
  intros [gs t Ht Hl|head tail left_ right_ Hh Ht Hl]; unfold ParseIPv6; change (lit "::") with [":"; ":"]%char.
  - destruct (group_text_colons _ _ _ Ht) as (-> & _). rewrite (ParseGroups_half true gs t); [|by right|lia].
    unfold zlen. rewrite Hl. done.
  - assert (find_sub [":"; ":"]%char left_ = None /\ last left_ <> Some ":"%char) as [L1 L2].
    { destruct Hh as [[_ ->]|Hh]; [done|]. destruct (group_text_colons _ _ _ Hh) as (? & _ & _ & ? & _). done. }
    assert (find_sub [":"; ":"]%char (":"%char :: right_) = None) as R1.
    { destruct Ht as [[_ ->]|Ht]; [done|]. destruct (group_text_colons _ _ _ Ht) as (E & _ & E2 & _).
      cbn [find_sub starts_with]. rewrite char_eqb_refl. cbn [andb]. destruct right_ as [|x r]; [done|].
      rewrite char_eqb_ne by (cbn in E2; congruence). cbn [andb]. by rewrite E. }
    cbn [app]. rewrite find_sub_gap by done.
    assert (drop (S (length left_)) (left_ ++ ":"%char :: ":"%char :: right_) = ":"%char :: right_) as ->.
    { rewrite drop_app_ge by lia. by replace (S (length left_) - length left_)%nat with 1%nat by lia. }
    rewrite R1, take_app_length.
    assert (drop (length left_ + 2) (left_ ++ ":"%char :: ":"%char :: right_) = right_) as ->.
    { rewrite drop_app_ge by lia. by replace (length left_ + 2 - length left_)%nat with 2%nat by lia. }
    rewrite (ParseGroups_half false head), (ParseGroups_half true tail) by (done || lia). rewrite Z.gtb_ltb.
    destruct (Z.ltb_spec 7 (zlen head + zlen tail)); [unfold zlen in *; lia|done].
Qed.

Lemma ipv6_text_zone groups text : ipv6_text groups text -> "%"%char ∉ text.
Proof.
  assert (forall quad gs t, half_text quad gs t -> "%"%char ∉ t) as Hh.
  { intros quad gs t [[_ ->]|Ht]; [apply not_elem_of_nil|]. by apply (group_text_colons _ _ _ Ht). }
  intros [gs t Ht _|head tail l r H1 H2 _]; [eapply Hh; by right|]. rewrite !not_elem_of_app. split_and!; [by eapply Hh| |by eapply Hh].
  apply (bool_decide_unpack _). by vm_compute.
Qed.

(** The three embeddings of an IPv4 address into an IPv6 one. *)
Inductive embedding : Type := Compatible | Mapped | Nat64.

Definition embedded (e : embedding) (a b c d : Z) : list Z :=
  match e with
  | Compatible => [0; 0; 0; 0; 0; 0]
  | Mapped => [0; 0; 0; 0; 0; 0xffff]
  | Nat64 => [0x64; 0xff9b; 0; 0; 0; 0]
  end ++ [a * 256 + b; c * 256 + d].

Lemma embedded_bytes e a b c d :
  is_byte a -> is_byte b -> is_byte c -> is_byte d ->
  group_bytes (embedded e a b c d) =
    match e with
    | Compatible => replicate 12 0
    | Mapped => replicate 10 0 ++ [255; 255]
    | Nat64 => [0; 100; 255; 155] ++ replicate 8 0
    end ++ [a; b; c; d].
Proof.
  intros Ha Hb Hc Hd. unfold embedded. rewrite group_bytes_app.
  assert (forall x y, is_byte x -> is_byte y -> x * 256 + y = Z.lor (Z.shiftl x 8) y) as Hlor.
  { intros x y [? ?] [? ?]. rewrite Z.lor_comm, lor_disjoint by lia. lia. }
  rewrite (Hlor a b), (Hlor c d) by done.
  destruct (group_bytes_pair a b Ha Hb) as [P1 P2]. destruct (group_bytes_pair c d Hc Hd) as [P3 P4].
  assert (group_bytes [Z.lor (Z.shiftl a 8) b; Z.lor (Z.shiftl c 8) d] = [a; b; c; d]) as ->
    by (unfold group_bytes; cbn [flat_map app]; by rewrite P1, P2, P3, P4).
  by destruct e.
Qed.

Lemma classify_embedded e v4 :
  length v4 = 4%nat ->
  ClassifyIPv6 (match e with
                | Compatible => replicate 12 0
                | Mapped => replicate 10 0 ++ [255; 255]
                | Nat64 => [0; 100; 255; 155] ++ replicate 8 0
                end ++ v4) = ClassifyIPv4 v4.
Proof.
  intros Hl. destruct v4 as [|a [|b [|c [|d [|? ?]]]]]; try done. destruct e; [|done..].
  change (ClassifyIPv6 _) with
    (if (a =? 0) && (b =? 0) && (c =? 0) && ((d =? 0) || (d =? 1)) then Loopback else ClassifyIPv4 [a; b; c; d]).
  destruct (_ && _) eqn:E; [|done]. rewrite !andb_true_iff, orb_true_iff, !Z.eqb_eq in E.
  destruct E as [[[-> ->] ->] [-> | ->]]; done.
Qed.

(** Where a bracketed literal ends, a zone included. *)
Lemma ClassifyHostLiteral_bracket inner zone :
  "%"%char ∉ inner -> (zone = [] \/ exists z, zone = "%"%char :: z) ->
  ClassifyHostLiteral (lit "[" ++ inner ++ zone ++ lit "]") = ClassifyIPv6 <$> ParseIPv6 inner.
Proof.
  intros Hi Hz. unfold ClassifyHostLiteral. change (starts_with (lit "[") (lit "[" ++ _)) with true. cbv iota.
  set (h := lit "[" ++ inner ++ zone ++ lit "]").
  assert (length h = S (S (length (inner ++ zone)))) as Hl.
  { unfold h. rewrite !length_app. simpl. lia. }
  assert (last h = Some "]"%char) as Hlast by (unfold h; change (lit "]") with ["]"%char]; by rewrite !app_assoc, last_snoc).
  rewrite Hlast, bool_decide_eq_true_2 by done.
  destruct (Nat.ltb_spec (length h) 2); [lia|]. cbn [negb orb].
  assert (take (length h - 2) (drop 1 h) = inner ++ zone) as ->.
  { rewrite Hl. replace (S (S (length (inner ++ zone))) - 2)%nat with (length (inner ++ zone)) by lia.
    unfold h. change (drop 1 (lit "[" ++ ?x)) with x. rewrite app_assoc. apply take_app_length. }
  destruct Hz as [->|(z & ->)].
  - rewrite app_nil_r. apply find_None in Hi. by rewrite Hi.
  - rewrite find_app by done. by rewrite take_app_length.
Qed.

(** An unbracketed host is a literal exactly when it is a dotted quad. *)
Lemma ClassifyHostLiteral_quad host class :
  starts_with (lit "[") host = false ->
  ClassifyHostLiteral host = Some class <->
  exists a b c d, is_byte a /\ is_byte b /\ is_byte c /\ is_byte d /\
    (host = print_quad a b c d \/ host = print_quad a b c d ++ lit ".") /\ class = ClassifyIPv4 [a; b; c; d].
Proof.
  intros Hs. unfold ClassifyHostLiteral. rewrite Hs. change (lit ".") with ["."%char]. split.
  - destruct (bool_decide_reflect (last host = Some "."%char)) as [Hl|Hl].
    + apply last_Some in Hl as [h ->]. rewrite removelast_last. destruct (ParseIPv4 h) as [l|] eqn:E; [|done].
      apply ParseIPv4_iff in E as (a & b & c & d & Ha & Hb & Hc & Hd & -> & ->). intros [= <-]. exists a, b, c, d. split_and!; try done. by right.
    + destruct (ParseIPv4 host) as [l|] eqn:E; [|done].
      apply ParseIPv4_iff in E as (a & b & c & d & Ha & Hb & Hc & Hd & -> & ->). intros [= <-]. exists a, b, c, d. split_and!; try done. by left.
  - intros (a & b & c & d & Ha & Hb & Hc & Hd & Hh & ->). destruct (print_quad_chars a b c d Ha Hb Hc Hd) as (_ & _ & _ & _ & _ & H6).
    assert (ParseIPv4 (print_quad a b c d) = Some [a; b; c; d]) as Hp by (apply ParseIPv4_iff; eauto 10).
    destruct Hh as [-> | ->]; [rewrite bool_decide_eq_false_2 by done|rewrite last_snoc, bool_decide_eq_true_2, removelast_last by done]; by rewrite Hp.
Qed.

(** C30: the literals that carry an IPv4 address have its class.  A bracketed host in
    any of the text forms of RFC 4291 (groups of one to four hexadecimal digits of
    either case, a run of zero groups as [::], the last two groups as a dotted
    quad, with or without a zone) whose address is IPv4-compatible, IPv4-mapped or
    NAT64 has the class of the IPv4 address in it.  An unbracketed host is a
    literal exactly when it is a canonical dotted quad, with or without the root
    dot, and has that address's class.  Other numeric spellings, [127.1],
    [0x7f.0.0.1] or [2130706433], are not literals: they are names, whose addresses
    are judged when they are connected to. *)
Theorem ClassifyHostLiteral_ipv4 :
  (forall host class, starts_with (lit "[") host = false ->
     ClassifyHostLiteral host = Some class <->
     exists a b c d, is_byte a /\ is_byte b /\ is_byte c /\ is_byte d /\
       (host = print_quad a b c d \/ host = print_quad a b c d ++ lit ".") /\ class = ClassifyIPv4 [a; b; c; d]) /\
  (forall e a b c d text zone, is_byte a -> is_byte b -> is_byte c -> is_byte d ->
     ipv6_text (embedded e a b c d) text -> zone = [] \/ (exists z, zone = "%"%char :: z) ->
     ClassifyHostLiteral (lit "[" ++ text ++ zone ++ lit "]") = Some (ClassifyIPv4 [a; b; c; d])).
Proof.
  split; [apply ClassifyHostLiteral_quad|]. intros e a b c d text zone Ha Hb Hc Hd Ht Hz.
  rewrite ClassifyHostLiteral_bracket; [|by eapply ipv6_text_zone|done]. rewrite (ParseIPv6_text _ _ Ht). simpl fmap. f_equal.
  rewrite embedded_bytes by done. by apply classify_embedded.
Qed.

(** ** The IPv4 classes as address blocks *)

Definition ipv4_value (l : list Z) : Z :=
  byte_at l 0 * 2 ^ 24 + byte_at l 1 * 2 ^ 16 + byte_at l 2 * 2 ^ 8 + byte_at l 3.

(** [base/len] in CIDR notation. *)
Definition in_block (v : Z) (base : list Z) (len : Z) : bool :=
  v / 2 ^ (32 - len) =? ipv4_value base / 2 ^ (32 - len).

Definition ipv4_blocks : list (list Z * Z * AddressClass) :=
  map (fun known => (known, 32, Metadata_)) kKnown ++
  [([127; 0; 0; 0], 8, Loopback); ([0; 0; 0; 0], 8, Loopback);
   ([169; 254; 0; 0], 16, LinkLocal); ([10; 0; 0; 0], 8, Private);
   ([172; 16; 0; 0], 12, Private); ([192; 168; 0; 0], 16, Private);
   ([100; 64; 0; 0], 10, Private)].

Fixpoint first_block (blocks : list (list Z * Z * AddressClass)) (v : Z) : AddressClass :=
  match blocks with
  | [] => Public
  | (base, len, c) :: blocks' => if in_block v base len then c else first_block blocks' v
  end.

(** The bit tests of the source, as quotients. *)
Lemma mask_f0 b : is_byte b -> Z.land b 0xf0 = 16 * (b / 16).
Proof.
  intros Hb. set (ok := fun i => let b := Z.of_nat i in Z.land b 0xf0 =? 16 * (b / 16)).
  assert (forallb ok (seq 0 256) = true) as H by by vm_compute. rewrite forallb_forall in H.
  unfold is_byte in Hb. specialize (H (Z.to_nat b)). unfold ok in H. rewrite in_seq, Z2Nat.id, Z.eqb_eq in H by lia.
  apply H. lia.
Qed.

Lemma mask_c0 b : is_byte b -> Z.land b 0xc0 = 64 * (b / 64).
Proof.
  intros Hb. set (ok := fun i => let b := Z.of_nat i in Z.land b 0xc0 =? 64 * (b / 64)).
  assert (forallb ok (seq 0 256) = true) as H by by vm_compute. rewrite forallb_forall in H.
  unfold is_byte in Hb. specialize (H (Z.to_nat b)). unfold ok in H. rewrite in_seq, Z2Nat.id, Z.eqb_eq in H by lia.
  apply H. lia.
Qed.

(** A block of each of the lengths the table has. *)
Lemma in_block_cases a b c d w x y z :
  is_byte a -> is_byte b -> is_byte c -> is_byte d -> is_byte w -> is_byte x -> is_byte y -> is_byte z ->
  in_block (ipv4_value [a; b; c; d]) [w; x; y; z] 32 = (a =? w) && (b =? x) && (c =? y) && (d =? z) /\
  in_block (ipv4_value [a; b; c; d]) [w; x; y; z] 16 = (a =? w) && (b =? x) /\
  in_block (ipv4_value [a; b; c; d]) [w; x; y; z] 12 = (a =? w) && (b / 16 =? x / 16) /\
  in_block (ipv4_value [a; b; c; d]) [w; x; y; z] 10 = (a =? w) && (b / 64 =? x / 64) /\
  in_block (ipv4_value [a; b; c; d]) [w; x; y; z] 8 = (a =? w).
Proof.
  unfold is_byte, in_block, ipv4_value. intros Ha Hb Hc Hd Hw Hx Hy Hz.
  change (byte_at [?p; ?q; ?r; ?s] 0) with p. change (byte_at [?p; ?q; ?r; ?s] 1) with q.
  change (byte_at [?p; ?q; ?r; ?s] 2) with r. change (byte_at [?p; ?q; ?r; ?s] 3) with s.
  split_and!; apply eq_true_iff_eq; rewrite ?andb_true_iff, !Z.eqb_eq; cbn [Z.sub];
    Z.to_euclidean_division_equations; lia.
Qed.

(** The byte and mask tests classify an IPv4 address as the table of address
    blocks does: the known metadata endpoints first, by value, then the loopback,
    link-local and private blocks in CIDR notation, and the rest public. *)
Theorem ClassifyIPv4_blocks a b c d :
  is_byte a -> is_byte b -> is_byte c -> is_byte d ->
  ClassifyIPv4 [a; b; c; d] = first_block ipv4_blocks (ipv4_value [a; b; c; d]).
Proof.
  intros Ha Hb Hc Hd. unfold ipv4_blocks, kKnown. cbn [map app first_block].
  assert (forall w x y z, is_byte w -> is_byte x -> is_byte y -> is_byte z -> _) as Hblk
    by exact (fun w x y z => in_block_cases a b c d w x y z Ha Hb Hc Hd).
  repeat match goal with
  | |- context [in_block _ [?w; ?x; ?y; ?z] ?len] =>
      let H := fresh in
      pose proof (Hblk w x y z ltac:(unfold is_byte; lia) ltac:(unfold is_byte; lia) ltac:(unfold is_byte; lia)
                    ltac:(unfold is_byte; lia)) as H;
      destruct H as (E32 & E16 & E12 & E10 & E8); rewrite ?E32, ?E16, ?E12, ?E10, ?E8; clear E32 E16 E12 E10 E8
  end.
  unfold ClassifyIPv4, IsMetadataIPv4, kKnown. cbn [existsb].
  change (byte_at [?p; ?q; ?r; ?s] 0) with p. change (byte_at [?p; ?q; ?r; ?s] 1) with q.
  change (byte_at [?p; ?q; ?r; ?s] 2) with r. change (byte_at [?p; ?q; ?r; ?s] 3) with s.
  rewrite mask_f0, mask_c0 by done.
  change (16 / 16) with 1. change (64 / 64) with 1.
  replace (16 * (b / 16) =? 0x10) with (b / 16 =? 1) by (apply eq_true_iff_eq; rewrite !Z.eqb_eq; lia).
  replace (64 * (b / 64) =? 0x40) with (b / 64 =? 1) by (apply eq_true_iff_eq; rewrite !Z.eqb_eq; lia).
  repeat (match goal with |- context [if (?x || ?y) then _ else _] => destruct x; cbn [orb]; [done|] end).
  done.
Qed.
