(* ===== verification/HttpReader.v ===== *)
(** * HttpReader: the HTTP backend

    libs/usd-asset-http: include/usdAssetHttp/HttpAssetReader.h,
    src/HttpAssetReader.cpp and the seam of src/Transport.h.  The HTTP client,
    the request interceptor and the clock are a world [W] with the operations
    of [HttpWorld]; everything above that line is here.  A retry budget is the
    [int] of the source, which is never below zero; [attempts] and
    [exchange_loop] are structural on what is left of the two budgets. *)

From S2P Require Import Prelude Diagnostics Validator RangeMath AssetReader Metrics Uri Framing Destination.

(** ** The seam *)

Inductive TransportError : Type :=
| NoError | ConnectFailed | ConnectTimeout | ResponseTimeout | TransferTimeout | ConnectionLost
| IncompleteBody | Malformed | HeadersTooLarge | DestinationRefused | Internal.

#[export] Instance TransportError_eq_dec : EqDecision TransportError.
Proof. solve_decision. Defined.

Definition TransportErrorName (e : TransportError) : str :=
  match e with
  | NoError => lit "None"
  | ConnectFailed => lit "ConnectFailed"
  | ConnectTimeout => lit "ConnectTimeout"
  | ResponseTimeout => lit "ResponseTimeout"
  | TransferTimeout => lit "TransferTimeout"
  | ConnectionLost => lit "ConnectionLost"
  | IncompleteBody => lit "IncompleteBody"
  | Malformed => lit "Malformed"
  | HeadersTooLarge => lit "HeadersTooLarge"
  | DestinationRefused => lit "DestinationRefused"
  | Internal => lit "Internal"
  end.

Definition kMaxResponseHeaderBytes : Z := 64 * 1024.

Inductive Method : Type := MethodGet | MethodHead.

#[export] Instance Method_eq_dec : EqDecision Method.
Proof. solve_decision. Defined.

Record Timeouts : Type := mkTimeouts {
  to_connectMs : Z;
  to_responseMs : Z;
  to_transferMs : Z }.

Record RequestHeader : Type := mkRequestHeader {
  rh_name : str;
  rh_value : str }.

Record TransportRequest : Type := mkRequest {
  rq_url : str;
  rq_method : Method;
  rq_range : str;
  rq_ifRange : str;
  rq_userAgent : str;
  rq_headers : list RequestHeader;
  rq_timeouts : Timeouts;
  rq_destinations : DestinationPolicy;
  rq_bodyCapacity : Z }.

(** [rs_body] is what was written through [TransportRequest::body]; its length
    is [bodyBytes]. *)
Record TransportResponse : Type := mkResponse {
  rs_status : Z;
  rs_headers : HeaderTable;
  rs_body : bytes;
  rs_bodyOverflowed : bool;
  rs_error : TransportError;
  rs_connected : bool;
  rs_refusedClass : option AddressClass }.

Definition TransportResponse_new : TransportResponse := mkResponse 0 [] [] false NoError false None.

Definition rs_bodyBytes (r : TransportResponse) : Z := zlen (rs_body r).

Record InterceptedRequest : Type := mkIntercepted {
  ir_method : str;
  ir_url : str;
  ir_scheme : str;
  ir_host : str;
  ir_port : Z;
  ir_redirectHop : Z;
  ir_attempt : Z }.

(** The transport, the interceptor and the steady clock.  [CallInterceptor] is
    [None] when the call throws. *)
Class HttpWorld (W : Type) : Type := {
  Perform : TransportRequest -> W -> TransportResponse * W;
  CallInterceptor : InterceptedRequest -> W -> option (bool * list RequestHeader) * W;
  steady_clock : W -> Z }.

Record HttpOptions : Type := mkHttpOptions {
  ho_connectTimeoutMs : Z;
  ho_responseTimeoutMs : Z;
  ho_transferTimeoutMs : Z;
  ho_maxRedirects : Z;
  ho_maxAttempts : Z;
  ho_destinations : DestinationPolicy;
  ho_userAgent : str;
  ho_interceptor : bool }.

Definition HttpOptions_new : HttpOptions :=
  mkHttpOptions 10000 30000 300000 5 3 DestinationPolicy_default [] false.

Definition kMaxInterceptedHeaderBytes : Z := 16 * 1024.

Definition kDefaultUserAgent : str := lit "usd-http-resolver/0.2.0".

(** ** Where a request's counters go *)

Class RequestSink (S : Type) : Type := {
  sink_Request : bool -> Z -> Z -> S -> S;
  sink_Retry : S -> S;
  sink_Redirect : S -> S }.

Record PendingSink : Type := mkPendingSink {
  ps_requests : Z;
  ps_metadataRequests : Z;
  ps_retries : Z;
  ps_redirects : Z;
  ps_bytesTransferred : Z;
  ps_latencies : list Z }.

Definition PendingSink_new : PendingSink := mkPendingSink 0 0 0 0 0 [].

#[export] Instance PendingSink_sink : RequestSink PendingSink := {
  sink_Request metadata b microseconds s :=
    mkPendingSink (u64 (ps_requests s + 1))
      (if metadata then u64 (ps_metadataRequests s + 1) else ps_metadataRequests s) (ps_retries s)
      (ps_redirects s) (u64 (ps_bytesTransferred s + b)) (ps_latencies s ++ [microseconds]);
  sink_Retry s :=
    mkPendingSink (ps_requests s) (ps_metadataRequests s) (u64 (ps_retries s + 1)) (ps_redirects s)
      (ps_bytesTransferred s) (ps_latencies s);
  sink_Redirect s :=
    mkPendingSink (ps_requests s) (ps_metadataRequests s) (ps_retries s) (u64 (ps_redirects s + 1))
      (ps_bytesTransferred s) (ps_latencies s) }.

Definition ReplayInto (s : PendingSink) (m : ReaderMetrics) : ReaderMetrics :=
  let m := AddRequest (u64 (ps_requests s - ps_metadataRequests s)) m in
  let m := AddMetadataRequest (ps_metadataRequests s) m in
  let m := AddRetry (ps_retries s) m in
  let m := AddRedirect (ps_redirects s) m in
  let m := AddBytesTransferred (ps_bytesTransferred s) m in
  fold_left (fun m sample => on_requestLatency (Record_ sample) m) (ps_latencies s) m.

(** [ReaderSink]. *)
#[export] Instance ReaderMetrics_sink : RequestSink ReaderMetrics := {
  sink_Request metadata b microseconds m :=
    let m := if metadata then AddMetadataRequest 1 m else AddRequest 1 m in
    on_requestLatency (Record_ microseconds) (AddBytesTransferred b m);
  sink_Retry := AddRetry 1;
  sink_Redirect := AddRedirect 1 }.

(** ** Projection onto the status vocabulary *)

Definition Where (u : Uri) : str := lit " (" ++ ElideSecrets (ToIdentity u) ++ lit ")".

Definition DestinationRefusedStatus (refused : option AddressClass) (u : Uri) : Status :=
  let what := match refused with
              | Some c => AddressClassName c ++ lit " addresses"
              | None => lit "an address it cannot classify"
              end in
  Status_Error AccessDenied
    (lit "the destination policy does not permit connecting to " ++ what ++ Where u).

Definition ProjectTransportError (error : TransportError) (u : Uri) : Status :=
  match error with
  | ConnectFailed => Status_Error NetworkError (lit "could not connect to the server" ++ Where u)
  | ConnectionLost => Status_Error NetworkError (lit "the server closed the connection" ++ Where u)
  | ConnectTimeout => Status_Error Timeout (lit "the connect deadline elapsed" ++ Where u)
  | ResponseTimeout =>
      Status_Error Timeout
        (lit "the response deadline elapsed before the server sent a status line" ++ Where u)
  | TransferTimeout =>
      Status_Error Timeout
        (lit "the transfer deadline elapsed while the body was still arriving" ++ Where u)
  | IncompleteBody =>
      Status_Error InvalidResponse
        (lit "the response body ended before the length it declared" ++ Where u)
  | Malformed => Status_Error InvalidResponse (lit "the response could not be parsed as HTTP" ++ Where u)
  | HeadersTooLarge =>
      Status_Error InvalidResponse
        (lit "the response header block exceeded " ++ to_string kMaxResponseHeaderBytes ++
         lit " bytes" ++ Where u)
  | DestinationRefused => DestinationRefusedStatus None u
  | Internal =>
      Status_Error NetworkError (lit "the HTTP client could not issue the request" ++ Where u)
  | NoError => Status_Ok
  end.

Definition ProjectHttpStatus (status : Z) (u : Uri) : Status :=
  if (status =? 404) || (status =? 410) then
    WithTransportStatus (Status_Error NotFound (lit "the asset does not exist" ++ Where u)) status
  else if (status =? 401) || (status =? 403) then
    WithTransportStatus
      (Status_Error AccessDenied (lit "the server refused access to the asset" ++ Where u)) status
  else if (status =? 405) || (status =? 501) then
    WithTransportStatus
      (Status_Error Unsupported
         (lit "the server does not support the metadata request this backend issues (HEAD)" ++ Where u))
      status
  else if status >=? 500 then
    WithTransportStatus
      (Status_Error NetworkError
         (lit "the server reported an error and did not recover within the retry budget" ++ Where u))
      status
  else if status =? 429 then
    WithTransportStatus
      (Status_Error NetworkError
         (lit "the server is rate limiting and did not recover within the retry budget" ++ Where u))
      status
  else
    WithTransportStatus
      (Status_Error InvalidResponse (lit "the server answered with an unusable status" ++ Where u))
      status.

Definition AssetChangedStatus (u : Uri) (how : str) : Status :=
  Status_Error AssetChanged (lit "the asset changed while it was open: " ++ how ++ Where u).

Definition IsRedirect (status : Z) : bool :=
  (status =? 301) || (status =? 302) || (status =? 307) || (status =? 308).

Definition IsRetryableStatus (status : Z) : bool :=
  (status =? 429) || (status =? 502) || (status =? 503) || (status =? 504).

Definition IsRetryableTransportError (error : TransportError) : bool :=
  bool_decide (error = ConnectFailed) || bool_decide (error = ConnectionLost).

Definition IsResumable (error : TransportError) : bool :=
  bool_decide (error = IncompleteBody) || bool_decide (error = ConnectionLost).

(** ** Interception *)

Definition IsTokenChar (c : ascii) : bool :=
  is_lower c || is_upper c || is_digit c || bool_decide (c ∈ lit "!#$%&'*+-.^_`|~").

Definition IsToken (text : str) : bool :=
  if bool_decide (text = []) then false else forallb IsTokenChar text.

Definition kReserved : list str :=
  map lit ["accept-encoding"; "connection"; "content-encoding"; "content-length"; "expect"; "host";
           "if-match"; "if-modified-since"; "if-none-match"; "if-range"; "if-unmodified-since";
           "keep-alive"; "proxy-connection"; "range"; "te"; "trailer"; "transfer-encoding"; "upgrade";
           "user-agent"]%string.

Definition IsReservedHeader (name : str) : bool := existsb (str_eqb (lower_str name)) kReserved.

Definition IsSafeFieldValue (value : str) : bool :=
  if bool_decide (value = []) then false
  else forallb (fun c => negb (((code c <? 0x20) && negb (code c =? 9)) || (code c =? 0x7f))) value.

Definition IsInterceptableHeader (name value : str) : bool :=
  IsToken name && negb (IsReservedHeader name) && IsSafeFieldValue value.

Definition effective_port (u : Uri) : Z := if negb (u_port u =? 0) then u_port u else DefaultPort u.

Definition SameOrigin (a b : Uri) : bool :=
  str_eqb (u_scheme a) (u_scheme b) && str_eqb (u_host a) (u_host b) &&
  (effective_port a =? effective_port b).

(** The loop over the headers an interceptor returned: [None] when all are
    admitted, otherwise the failure. *)
Fixpoint admit_loop (u : Uri) (headers : list RequestHeader) (total : Z) (seen : list str) : option Status :=
  match headers with
  | [] => None
  | h :: headers' =>
      if negb (IsInterceptableHeader (rh_name h) (rh_value h)) then
        let what :=
          if IsToken (rh_name h) && IsReservedHeader (rh_name h)
          then lit "the request interceptor tried to set " ++ lower_str (rh_name h) ++
               lit ", which this backend sends itself"
          else lit "the request interceptor supplied a header that cannot be sent: a name that is not a token, or an empty value or one with a control character" in
        Some (Status_Error InvalidArgument (what ++ Where u))
      else
        let lower := lower_str (rh_name h) in
        if existsb (str_eqb lower) seen then
          Some (Status_Error InvalidArgument
                  (lit "the request interceptor supplied the same header more than once" ++ Where u))
        else
          let total := total + (zlen (rh_name h) + 2 + zlen (rh_value h) + 2) in
          if total >? kMaxInterceptedHeaderBytes then
            Some (Status_Error InvalidArgument
                    (lit "the request interceptor added more than " ++
                     to_string kMaxInterceptedHeaderBytes ++ lit " bytes of header" ++ Where u))
          else admit_loop u headers' total (seen ++ [lower])
  end.

Section reader.
Context {W : Type} `{HttpWorld W}.

Definition Intercept (method : Method) (u : Uri) (redirectHop attempt : Z) (w : W)
    : (Status + list RequestHeader) * W :=
  let view := mkIntercepted (if bool_decide (method = MethodHead) then lit "HEAD" else lit "GET")
                (ToIdentity u) (u_scheme u) (u_host u) (effective_port u) redirectHop attempt in
  let '(answer, w) := CallInterceptor view w in
  match answer with
  | Some (true, headers) =>
      match admit_loop u headers 0 [] with
      | Some failure => (inl failure, w)
      | None => (inr headers, w)
      end
  | _ =>
      (inl (Status_Error AccessDenied
              (lit "the request interceptor declined the request" ++ Where u)), w)
  end.

(** ** One logical exchange *)

Record ExchangeResult : Type := mkExchange {
  xr_response : TransportResponse;
  xr_status : Status;
  xr_finalUri : Uri }.

Section exchange.
Context {S : Type} `{RequestSink S}.

(** What an exchange changes: the world, the counters, the shared retry budget
    and the caller's buffer. *)
Record XState : Type := mkX {
  x_world : W;
  x_sink : S;
  x_retries : nat;
  x_body : bytes }.

Definition x_with_world (w : W) (s : XState) : XState := mkX w (x_sink s) (x_retries s) (x_body s).
Definition x_count (f : S -> S) (s : XState) : XState := mkX (x_world s) (f (x_sink s)) (x_retries s) (x_body s).

Context (options : HttpOptions) (origin : Uri) (method : Method) (range ifRange : str) (capacity : Z).

Definition make_request (current : Uri) (headers : list RequestHeader) : TransportRequest :=
  mkRequest (ToString current) method range ifRange
    (if bool_decide (ho_userAgent options = []) then kDefaultUserAgent else ho_userAgent options)
    headers
    (mkTimeouts (ho_connectTimeoutMs options) (ho_responseTimeoutMs options) (ho_transferTimeoutMs options))
    (ho_destinations options) capacity.

Definition retryable (r : TransportResponse) : bool :=
  if bool_decide (rs_error r = HeadersTooLarge) then false
  else if rs_status r =? 0 then IsRetryableTransportError (rs_error r)
  else IsRetryableStatus (rs_status r).

(** The headers of one attempt. *)
Definition attempt_headers (current : Uri) (redirects attempt : Z) (s : XState)
    : (Status + list RequestHeader) * XState :=
  if ho_interceptor options && SameOrigin current origin then
    let '(r, w) := Intercept method current redirects attempt (x_world s) in (r, x_with_world w s)
  else (inr [], s).

(** Issue the request: the response, the counters, and the body written through
    the caller's pointer. *)
Definition issue (request : TransportRequest) (s : XState) : TransportResponse * XState :=
  let started := steady_clock (x_world s) in
  let '(response, w) := Perform request (x_world s) in
  let elapsed := u64 (Z.quot (steady_clock w - started) 1000) in
  (response,
   mkX w (sink_Request (bool_decide (method = MethodHead)) (rs_bodyBytes response) elapsed (x_sink s))
     (x_retries s) (write_at (x_body s) 0 (rs_body response))).

(** The inner loop: one hop, with what is left of the retry budget. *)
Fixpoint attempts (budget : nat) (current : Uri) (redirects attempt : Z) (s : XState)
    : (Status + TransportResponse) * XState :=
  let attempt := attempt + 1 in
  match attempt_headers current redirects attempt s with
  | (inl refused, s) => (inl refused, s)
  | (inr headers, s) =>
      let '(response, s) := issue (make_request current headers) s in
      match budget with
      | O => (inr response, s)
      | Datatypes.S budget' =>
          if negb (retryable response) then (inr response, s)
          else
            let s := mkX (x_world s) (sink_Retry (x_sink s)) budget' (x_body s) in
            attempts budget' current redirects attempt s
      end
  end.

(** The outer loop: [hops] more redirects may be followed. *)
Fixpoint exchange_loop (hops : nat) (current : Uri) (redirects : Z) (s : XState)
    : ExchangeResult * XState :=
  let refused := match ClassifyHostLiteral (u_host current) with
                 | Some literal => if negb (Permits (ho_destinations options) literal) then Some literal else None
                 | None => None
                 end in
  match refused with
  | Some literal =>
      (mkExchange TransportResponse_new (DestinationRefusedStatus (Some literal) current) current, s)
  | None =>
      match attempts (x_retries s) current redirects 0 s with
      | (inl refused, s) => (mkExchange TransportResponse_new refused current, s)
      | (inr response, s) =>
          let fail status := (mkExchange response status current, s) in
          let invalid what :=
            fail (WithTransportStatus (Status_Error InvalidResponse (what ++ Where current)) (rs_status response)) in
          if bool_decide (rs_error response = DestinationRefused) then
            fail (DestinationRefusedStatus (rs_refusedClass response) current)
          else if bool_decide (rs_error response = HeadersTooLarge) then
            let status := ProjectTransportError (rs_error response) current in
            fail (if negb (rs_status response =? 0) then WithTransportStatus status (rs_status response) else status)
          else if rs_status response =? 0 then fail (ProjectTransportError (rs_error response) current)
          else if negb (IsRedirect (rs_status response)) then fail Status_Ok
          else
            match Find (lit "Location") (rs_headers response) with
            | None | Some [] => invalid (lit "the server redirected without a Location")
            | Some location =>
                match hops with
                | O => invalid (lit "the redirect chain exceeded " ++ to_string (ho_maxRedirects options) ++ lit " hops")
                | Datatypes.S hops' =>
                    match ResolveReference current location with
                    | inl error => invalid (lit "the server redirected to an unusable location: " ++ error)
                    | inr target =>
                        if IsSchemeDowngrade current target then
                          invalid (lit "the server redirected from https to http, which would drop transport security")
                        else exchange_loop hops' target (redirects + 1) (x_count sink_Redirect s)
                    end
                end
            end
      end
  end.

Definition PerformExchange (start : Uri) (s : XState) : ExchangeResult * XState :=
  exchange_loop (Z.to_nat (ho_maxRedirects options)) start 0 s.

End exchange.

(** ** The reader *)

Record HttpAssetReader : Type := mkHttp {
  hr_world : W;
  hr_options : HttpOptions;
  hr_origin : Uri;
  hr_uri : Uri;
  hr_metadata : AssetMetadata;
  hr_ifRangeValue : str;
  hr_metrics : ReaderMetrics }.

(** [Impl]'s constructor. *)
Definition Http_new (w : W) (options : HttpOptions) (origin uri : Uri) (metadata : AssetMetadata)
    (ifRangeValue : str) : HttpAssetReader :=
  mkHttp w options origin uri metadata ifRangeValue
    (SetAssetSize (am_size metadata) (ReaderMetrics_new (am_resolvedIdentifier metadata))).

Definition with_hmetrics (f : ReaderMetrics -> ReaderMetrics) (r : HttpAssetReader) : HttpAssetReader :=
  mkHttp (hr_world r) (hr_options r) (hr_origin r) (hr_uri r) (hr_metadata r) (hr_ifRangeValue r)
    (f (hr_metrics r)).

Definition initial_retries (options : HttpOptions) : nat :=
  if ho_maxAttempts options >? 0 then Z.to_nat (ho_maxAttempts options - 1) else 0%nat.

(** What the loop of [Read] changes. *)
Record RState : Type := mkR {
  rs_reader : HttpAssetReader;
  rs_retries : nat;
  rs_dst : bytes;
  rs_done : Z }.

Section read.
Context (offset size length_ : Z).

(** The exchange of one turn, into the buffer from [done] on. *)
Definition read_exchange (s : RState) : ExchangeResult * RState :=
  let r := rs_reader s in
  let at_ := u64 (offset + rs_done s) in
  let remaining := u64 (length_ - rs_done s) in
  let '(x, xs) :=
    PerformExchange (hr_options r) (hr_origin r) MethodGet (FormatByteRange at_ remaining)
      (hr_ifRangeValue r) remaining (hr_uri r)
      (mkX (hr_world r) (hr_metrics r) (rs_retries s) (slice (rs_dst s) (rs_done s) remaining)) in
  (x, mkR (mkHttp (x_world xs) (hr_options r) (hr_origin r) (hr_uri r) (hr_metadata r) (hr_ifRangeValue r)
             (x_sink xs))
        (x_retries xs) (write_at (rs_dst s) (rs_done s) (x_body xs)) (rs_done s)).

(** The answer to a range request that came back whole. *)
Definition judge_whole (metadata : AssetMetadata) (headers : HeaderTable) (u : Uri) (done_ : Z) : ReadResult :=
  let changed how := mkReadResult 0 (WithRange (AssetChangedStatus u how) offset size) in
  if ContradictsCapturedValidator headers (am_validator metadata) then
    changed (lit "a range request was answered with a whole representation carrying a different validator")
  else
    match Find (lit "Content-Length") headers ≫= ParseContentLength with
    | Some whole =>
        if negb (whole =? am_size metadata) then
          changed (lit "a range request was answered with a whole representation of a different length")
        else
          mkReadResult done_
            (WithRange (WithTransportStatus
               (Status_Error RangeNotSupported
                  (lit "the server answered a range request with the whole representation" ++ Where u)) 200)
               offset size)
    | None =>
        mkReadResult done_
          (WithRange (WithTransportStatus
             (Status_Error RangeNotSupported
                (lit "the server answered a range request with the whole representation" ++ Where u)) 200)
             offset size)
    end.

(** A [416], which is usually true. *)
Definition judge_unsatisfiable (metadata : AssetMetadata) (headers : HeaderTable) (u : Uri) (done_ : Z)
    : ReadResult :=
  let changed how := mkReadResult 0 (WithRange (AssetChangedStatus u how) offset size) in
  let shrunk := match Find (lit "Content-Range") headers ≫= ParseContentRange with
                | Some c => cr_unsatisfied c && negb (cr_completeLength c =? am_size metadata)
                | None => false
                end in
  if ContradictsCapturedValidator headers (am_validator metadata) then
    changed (lit "a range this reader had already sized was refused, with a different validator")
  else if shrunk then
    changed (lit "the representation is now a different length, and no longer contains the range this reader asked for")
  else
    mkReadResult done_
      (WithRange (WithTransportStatus
         (Status_Error InvalidResponse
            (lit "the server refused a range that lies inside the size it reported at open" ++ Where u)) 416)
         offset size).

(** A [206]: [inl] is the failure it is refused with, [inr tt] that its body is
    the range asked for. *)
Definition judge_partial (metadata : AssetMetadata) (response : TransportResponse) (u : Uri)
    (at_ remaining done_ : Z) : ReadResult + unit :=
  let headers := rs_headers response in
  let changed how := inl (mkReadResult 0 (WithRange (AssetChangedStatus u how) offset size)) in
  let invalid what :=
    inl (mkReadResult done_
      (WithRange (WithTransportStatus (Status_Error InvalidResponse (what ++ Where u)) 206) offset size)) in
  if ContradictsCapturedValidator headers (am_validator metadata) then
    changed (lit "the response carried a different validator")
  else if HasConflictingDuplicate (lit "Content-Range") headers ||
          HasConflictingDuplicate (lit "Content-Length") headers then
    invalid (lit "the partial response had no usable Content-Range")
  else
    match Find (lit "Content-Range") headers ≫= ParseContentRange with
    | None => invalid (lit "the partial response had no usable Content-Range")
    | Some c =>
        if cr_unsatisfied c then invalid (lit "the partial response had no usable Content-Range")
        else if cr_hasCompleteLength c && negb (cr_completeLength c =? am_size metadata) then
          changed (lit "the representation's length differs from the size captured at open")
        else if negb (cr_first c =? at_) || negb (Length c =? remaining) then
          invalid (lit "the partial response did not cover the requested range (requested bytes " ++
                   to_string at_ ++ lit "-" ++ to_string (u64 (at_ + remaining - 1)) ++
                   lit ", server returned " ++ to_string (cr_first c) ++ lit "-" ++
                   to_string (cr_last c) ++ lit ")")
        else if rs_bodyOverflowed response then
          invalid (lit "the server sent more body than its own framing declared")
        else inr tt
    end.

(** After a sound [206]: the bytes count, and the turn fails, is cut short or is
    resumed by how the transfer ended. *)
Definition advance (response : TransportResponse) (u : Uri) (s : RState) : (ReadResult + TransportError) * RState :=
  let metadata := hr_metadata (rs_reader s) in
  let s := mkR (rs_reader s) (rs_retries s) (rs_dst s) (u64 (rs_done s + rs_bodyBytes response)) in
  if negb (bool_decide (rs_error response = NoError)) && negb (IsResumable (rs_error response)) then
    (inl (mkReadResult (rs_done s)
            (WithRange (ProjectTransportError (rs_error response) u) offset size)), s)
  else if (rs_bodyBytes response =? 0) && bool_decide (rs_error response = NoError) then
    (inl (mkReadResult (rs_done s)
            (ShortReadStatus offset length_ (rs_done s) (am_resolvedIdentifier metadata))), s)
  else (inr (rs_error response), s).

(** One turn of the loop after its budget check: [inl] returns, [inr] goes
    round again with the last transport error. *)
Definition read_turn (s : RState) : (ReadResult + TransportError) * RState :=
  let at_ := u64 (offset + rs_done s) in
  let remaining := u64 (length_ - rs_done s) in
  let '(x, s) := read_exchange s in
  let metadata := hr_metadata (rs_reader s) in
  if negb (IsOk (xr_status x)) then
    (inl (mkReadResult (rs_done s) (WithRange (xr_status x) offset size)), s)
  else
    let response := xr_response x in
    let u := xr_finalUri x in
    if rs_status response =? 200 then
      (inl (judge_whole metadata (rs_headers response) u (rs_done s)), s)
    else if negb (rs_status response =? 206) then
      if rs_status response =? 416 then
        (inl (judge_unsatisfiable metadata (rs_headers response) u (rs_done s)), s)
      else
        (inl (mkReadResult (rs_done s) (WithRange (ProjectHttpStatus (rs_status response) u) offset size)), s)
    else
      match judge_partial metadata response u at_ remaining (rs_done s) with
      | inl failure => (inl failure, s)
      | inr _ => advance response u s
      end.

(** The budget is spent and the range is still short. *)
Definition spent (lastError : TransportError) (s : RState) : ReadResult :=
  if bool_decide (lastError = ConnectionLost) then
    mkReadResult (rs_done s)
      (WithRange (ProjectTransportError lastError (hr_uri (rs_reader s))) offset size)
  else
    mkReadResult (rs_done s)
      (ShortReadStatus offset length_ (rs_done s) (am_resolvedIdentifier (hr_metadata (rs_reader s)))).

(** The turns after the first.  Every one of them takes a retry, so [fuel]
    retries at the first of them are enough: with none left the branch for a
    spent budget is the one the source takes. *)
Fixpoint resume_loop (fuel : nat) (lastError : TransportError) (s : RState) : ReadResult * RState :=
  if negb (rs_done s <? length_) then (mkReadResult (rs_done s) Status_Ok, s)
  else
    match fuel, rs_retries s with
    | O, _ | _, O => (spent lastError s, s)
    | Datatypes.S fuel', Datatypes.S left_ =>
        let s := mkR (with_hmetrics sink_Retry (rs_reader s)) left_ (rs_dst s) (rs_done s) in
        match read_turn s with
        | (inl result, s) => (result, s)
        | (inr lastError, s) => resume_loop fuel' lastError s
        end
    end.

Definition read_loop (s : RState) : ReadResult * RState :=
  if negb (rs_done s <? length_) then (mkReadResult (rs_done s) Status_Ok, s)
  else
    match read_turn s with
    | (inl result, s) => (result, s)
    | (inr lastError, s) => resume_loop (rs_retries s) lastError s
    end.
End read.

(** [Read] without its latency timer. *)
Definition Http_Read_untimed (r : HttpAssetReader) (offset : Z) (dst : option bytes) (size : Z)
    : ReadResult * option bytes * HttpAssetReader :=
  let r := with_hmetrics (AddBytesRequested size) r in
  let range := ResolveReadRange offset size (am_size (hr_metadata r)) in
  if bool_decide (rr_outcome range = Overflow)
  then (mkReadResult 0 (OverflowStatus offset size), dst, r)
  else
    match dst with
    | None =>
        if 0 <? size
        then (mkReadResult 0
                (WithRange (Status_Error InvalidArgument (lit "read destination buffer is null"))
                   offset size), dst, r)
        else (mkReadResult 0 Status_Ok, dst, r)
    | Some out =>
        if bool_decide (rr_outcome range = Empty) then (mkReadResult 0 Status_Ok, dst, r)
        else
          let '(result, s) :=
            read_loop offset size (rr_length range) (mkR r (initial_retries (hr_options r)) out 0) in
          (result, Some (rs_dst s), rs_reader s)
    end.

Definition Http_Read (r : HttpAssetReader) (offset : Z) (dst : option bytes) (size : Z)
    : ReadResult * option bytes * HttpAssetReader :=
  let start := steady_clock (hr_world r) in
  let '(res, dst, r) := Http_Read_untimed r offset dst size in
  (res, dst, with_hmetrics (on_readLatency (ScopedLatency_end start (steady_clock (hr_world r)))) r).

#[export] Instance Http_AssetReader : AssetReader HttpAssetReader := {
  Metadata := hr_metadata;
  Read := Http_Read }.

(** ** Open *)

Definition Http_Open (url : str) (options : HttpOptions) (w : option W)
    : OpenResult HttpAssetReader * option W :=
  match ParseUri url with
  | inl error =>
      (mkOpenResult None (Status_Error InvalidArgument (error ++ lit " (" ++ ElideSecrets url ++ lit ")")), w)
  | inr uri =>
      match w with
      | None => (mkOpenResult None (ProjectTransportError Internal uri), w)
      | Some w =>
          let started := steady_clock w in
          let '(x, xs) :=
            PerformExchange options uri MethodHead [] [] 0 uri
              (mkX w PendingSink_new (initial_retries options) []) in
          let fail status := (mkOpenResult None status, Some (x_world xs)) in
          let headers := rs_headers (xr_response x) in
          if negb (IsOk (xr_status x)) then fail (xr_status x)
          else if negb (rs_status (xr_response x) =? 200) then
            fail (ProjectHttpStatus (rs_status (xr_response x)) (xr_finalUri x))
          else
            match (if HasConflictingDuplicate (lit "Content-Length") headers then None
                   else Find (lit "Content-Length") headers ≫= ParseContentLength) with
            | None =>
                fail (WithTransportStatus
                  (Status_Error InvalidResponse
                     (lit "the server did not state a usable Content-Length, so the asset's size is unknown" ++
                      Where (xr_finalUri x))) 200)
            | Some size =>
                if negb (AdvertisesByteRanges headers) then
                  fail (WithTransportStatus
                    (Status_Error RangeNotSupported
                       (lit "the server does not advertise byte ranges" ++ Where (xr_finalUri x))) 200)
                else
                  let captured := CaptureValidator headers in
                  let metadata :=
                    mkAssetMetadata (ToIdentity (xr_finalUri x)) size true (cv_validator captured)
                      (ClassifyStability (cv_validator captured)) (Get (lit "Content-Type") headers) in
                  let r := Http_new (x_world xs) options uri (xr_finalUri x) metadata (cv_ifRangeValue captured) in
                  let r := with_hmetrics (ReplayInto (x_sink xs)) r in
                  let elapsed := u64 (Z.quot (steady_clock (x_world xs) - started) 1000) in
                  (mkOpenResult (Some (with_hmetrics (on_openLatency (Record_ elapsed)) r)) Status_Ok,
                   Some (x_world xs))
            end
      end
  end.

End reader.
