(* ===== verification/HttpReaderSpec.v ===== *)
(** * HttpReaderSpec: what the HTTP backend sends and what it returns

    [evolves P n w w'] is the run of the world from [w] to [w'] in which the
    backend issued [n] requests, all of them satisfying [P], and called the
    interceptor any number of times.  The first part bounds and constrains the
    requests without any assumption on the server; the second proves the reader
    contract for an origin that answers a range request as RFC 9110 says. *)

From S2P Require Import Prelude Diagnostics Validator RangeMath AssetReader Metrics Uri Framing Destination HttpReader.

Section evolution.
Context {W : Type} `{HttpWorld W}.

Inductive evolves (P : TransportRequest -> Prop) : nat -> W -> W -> Prop :=
| ev_refl w : evolves P 0 w w
| ev_perform n w w1 rq : evolves P n w w1 -> P rq -> evolves P (S n) w (snd (Perform rq w1))
| ev_intercept n w w1 view : evolves P n w w1 -> evolves P n w (snd (CallInterceptor view w1)).

Lemma evolves_trans P n m a b c : evolves P n a b -> evolves P m b c -> evolves P (n + m) a c.
Proof.
  intros Hab Hbc. induction Hbc as [|m b c rq Hbc IH HP|m b c view Hbc IH].
  - by rewrite Nat.add_0_r.
  - rewrite Nat.add_succ_r. constructor; [by apply IH|done].
  - constructor. by apply IH.
Qed.

Lemma evolves_mono (P Q : TransportRequest -> Prop) n a b :
  (forall rq, P rq -> Q rq) -> evolves P n a b -> evolves Q n a b.
Proof. intros HPQ. induction 1; constructor; auto. Qed.

Lemma evolves_inv P (Inv : W -> Prop) n a b :
  (forall rq w, Inv w -> Inv (snd (Perform rq w))) ->
  (forall view w, Inv w -> Inv (snd (CallInterceptor view w))) ->
  evolves P n a b -> Inv a -> Inv b.
Proof. intros H1 H2. induction 1; auto. Qed.

Lemma evolves_zero P w w' n : n = 0%nat -> w = w' -> evolves P n w w'.
Proof. intros -> ->. constructor. Qed.
End evolution.

(** ** Admitted headers *)

(** What the admission loop has let through. *)
Record admitted (headers : list RequestHeader) : Prop := {
  ad_sendable : Forall (fun h => IsInterceptableHeader (rh_name h) (rh_value h) = true) headers;
  ad_unique : NoDup (map (fun h => lower_str (rh_name h)) headers);
  ad_bytes : zsum (fun h => zlen (rh_name h) + 2 + zlen (rh_value h) + 2) headers <= kMaxInterceptedHeaderBytes }.

Lemma admit_loop_admitted u headers total seen :
  admit_loop u headers total seen = None -> NoDup seen -> total <= kMaxInterceptedHeaderBytes ->
  Forall (fun h => IsInterceptableHeader (rh_name h) (rh_value h) = true) headers /\
  NoDup (seen ++ map (fun h => lower_str (rh_name h)) headers) /\
  total + zsum (fun h => zlen (rh_name h) + 2 + zlen (rh_value h) + 2) headers <= kMaxInterceptedHeaderBytes.
Proof.
  revert total seen. induction headers as [|h headers IH]; intros total seen; cbn [admit_loop map].
  { intros _ Hs Ht. split_and!; [constructor|by rewrite app_nil_r|simpl; lia]. }
  destruct (IsInterceptableHeader _ _) eqn:Ei; [|done]. cbn [negb].
  destruct (existsb _ seen) eqn:Es; [done|]. destruct (_ >? _) eqn:Et; [done|].
  intros Hl Hs _. rewrite Z.gtb_ltb, Z.ltb_ge in Et. apply IH in Hl as (H1 & H2 & H3); [| |done].
  - split_and!; [by constructor|by rewrite <-app_assoc in H2|]. unfold zsum in *. simpl. lia.
  - apply NoDup_app. split_and!; [done| |apply NoDup_singleton].
    intros x Hx ->%list_elem_of_singleton. apply not_true_iff_false in Es. apply Es.
    apply existsb_exists. exists (lower_str (rh_name h)). split; [by apply list_elem_of_In|by apply str_eqb_eq].
Qed.

Lemma admit_ok u headers : admit_loop u headers 0 [] = None -> admitted headers.
Proof.
  intros H. apply admit_loop_admitted in H as (H1 & H2 & H3); [|constructor|done].
  split; [done|done|lia].
Qed.

(** ** The requests of an exchange *)

Section requests.
Context {W : Type} `{HttpWorld W} {S : Type} `{RequestSink S}.
Context (options : HttpOptions) (origin : Uri) (method : Method) (range ifRange : str) (capacity : Z).

Abbreviation X := (XState (W := W) (S := S)).

(** The policy permits the host as the URL spells it. *)
Definition permitted (u : Uri) : Prop :=
  forall literal, ClassifyHostLiteral (u_host u) = Some literal -> Permits (ho_destinations options) literal = true.

(** What every request of an exchange that starts at [start] is like. *)
Definition request_ok (start : Uri) (rq : TransportRequest) : Prop :=
  exists u headers, rq = make_request options method range ifRange capacity u headers /\
    uri_wf u /\ permitted u /\ (IsSecure start = true -> IsSecure u = true) /\
    (headers <> [] -> ho_interceptor options = true /\ SameOrigin u origin = true /\ admitted headers).

(** The attempts at one hop. *)
Definition hop_ok (u : Uri) (rq : TransportRequest) : Prop :=
  exists headers, rq = make_request options method range ifRange capacity u headers /\
    (headers <> [] -> ho_interceptor options = true /\ SameOrigin u origin = true /\ admitted headers).

Lemma attempt_headers_spec u redirects attempt (s : X) r s' :
  attempt_headers options origin method u redirects attempt s = (r, s') ->
  x_retries s' = x_retries s /\ x_body s' = x_body s /\ x_sink s' = x_sink s /\
  (x_world s' = x_world s \/ exists view, x_world s' = snd (CallInterceptor view (x_world s))) /\
  (forall hs, r = inr hs -> hs <> [] -> ho_interceptor options = true /\ SameOrigin u origin = true /\ admitted hs).
Proof.
  unfold attempt_headers. destruct (ho_interceptor options && SameOrigin u origin) eqn:E.
  - apply andb_true_iff in E as [E1 E2]. unfold Intercept. set (view := mkIntercepted _ _ _ _ _ _ _).
    destruct (CallInterceptor view (x_world s)) as [answer w] eqn:Ec.
    assert (x_world (x_with_world w s) = snd (CallInterceptor view (x_world s))) as Hw by by rewrite Ec.
    destruct answer as [[[] headers]|].
    + destruct (admit_loop u headers 0 []) eqn:Ea; intros [= <- <-]; split_and!; try done; eauto.
      intros hs [= <-] _. split_and!; [done|done|by eapply admit_ok].
    + intros [= <- <-]. split_and!; try done; eauto.
    + intros [= <- <-]. split_and!; try done; eauto.
  - intros [= <- <-]. split_and!; try done; [by left|]. by intros hs [= <-].
Qed.

(** The world after the headers of one attempt. *)
Lemma evolves_headers P u redirects attempt (s : X) r s' w n :
  attempt_headers options origin method u redirects attempt s = (r, s') ->
  evolves P n w (x_world s) -> evolves P n w (x_world s').
Proof.
  intros (_ & _ & _ & Hw & _)%attempt_headers_spec Hev.
  destruct Hw as [->|(view & ->)]; [done|by constructor].
Qed.

Lemma attempts_requests budget u redirects attempt (s : X) r s' :
  x_retries s = budget ->
  attempts options origin method range ifRange capacity budget u redirects attempt s = (r, s') ->
  exists n, evolves (hop_ok u) n (x_world s) (x_world s') /\ (n + x_retries s' <= 1 + budget)%nat /\
    (forall response, r = inr response -> exists w rq, hop_ok u rq /\ Perform rq w = (response, x_world s')).
Proof.
  revert attempt s. induction budget as [|budget IH]; intros attempt s Hb; cbn [attempts];
    destruct (attempt_headers _ _ _ _ _ _ _) as [[refused|headers] s1] eqn:Eh;
    pose proof (attempt_headers_spec _ _ _ _ _ _ Eh) as (R1 & _ & _ & _ & R2);
    pose proof (evolves_headers (hop_ok u) _ _ _ _ _ _ _ _ Eh (ev_refl _ _)) as Hev.
  1, 3: intros [= <- <-]; exists 0%nat; split_and!; [done|lia|done].
  all: unfold issue; destruct (Perform _ (x_world s1)) as [response w] eqn:Ep;
    assert (hop_ok u (make_request options method range ifRange capacity u headers)) as Hok
      by (exists headers; split; [done|by apply R2]);
    pose proof (ev_perform _ _ _ _ _ Hev Hok) as Hev1; rewrite Ep in Hev1; cbn [snd] in Hev1.
  - intros [= <- <-]. exists 1%nat. cbn [x_retries]. split_and!; [done|lia|]. intros ? [= <-]. eauto.
  - destruct (retryable response); cbn [negb].
    + intros (n & Hn & Hle & Hr)%IH; [|done]. exists (1 + n)%nat. split_and!; [by eapply evolves_trans|lia|done].
    + intros [= <- <-]. exists 1%nat. cbn [x_retries]. split_and!; [done|lia|]. intros ? [= <-]. eauto.
Qed.

Lemma hop_request_ok start u rq :
  hop_ok u rq -> uri_wf u -> permitted u -> (IsSecure start = true -> IsSecure u = true) -> request_ok start rq.
Proof. intros (hs & -> & Hh) Hw Hp Hs. exists u, hs. done. Qed.

Lemma IsSchemeDowngrade_secure a b : IsSchemeDowngrade a b = false -> IsSecure a = true -> IsSecure b = true.
Proof. unfold IsSchemeDowngrade. intros E Ha. rewrite Ha in E. by destruct (IsSecure b). Qed.

Lemma refused_permitted u :
  match ClassifyHostLiteral (u_host u) with
  | Some literal => if negb (Permits (ho_destinations options) literal) then Some literal else None
  | None => None
  end = None -> permitted u.
Proof.
  unfold permitted. destruct (ClassifyHostLiteral _) as [c|]; [|done]. intros Hc literal [= <-].
  by destruct (Permits _ c).
Qed.

(** The requests of the whole exchange: each is well formed, goes where the
    policy permits, never drops TLS, and carries the interceptor's headers to
    the opened origin only. *)
Lemma exchange_requests start hops u redirects (s : X) x s' :
  uri_wf u -> (IsSecure start = true -> IsSecure u = true) ->
  exchange_loop options origin method range ifRange capacity hops u redirects s = (x, s') ->
  exists n, evolves (request_ok start) n (x_world s) (x_world s') /\
    (n + x_retries s' <= hops + 1 + x_retries s)%nat /\ uri_wf (xr_finalUri x) /\
    (IsSecure start = true -> IsSecure (xr_finalUri x) = true) /\
    (rs_status (xr_response x) <> 0 ->
     exists w rq, request_ok start rq /\ Perform rq w = (xr_response x, x_world s')).
Proof.
  revert u redirects s. induction hops as [|hops IH]; intros u redirects s Hw Hs; cbn [exchange_loop].
  all: destruct (match ClassifyHostLiteral (u_host u) with Some _ => _ | None => _ end) eqn:Er;
    [intros [= <- <-]; exists 0%nat; repeat apply conj; (apply ev_refl || done || lia)|apply refused_permitted in Er].
  all: destruct (attempts _ _ _ _ _ _ _ _ _ _ _) as [[refused|response] s1] eqn:Ea;
    (apply attempts_requests in Ea as (n & Hev & Hn & Hp); [|done]);
    (apply (evolves_mono _ (request_ok start)) in Hev; [|intros rq Hrq; by eapply hop_request_ok]).
  1, 3: intros [= <- <-]; exists n; repeat apply conj; (done || lia).
  all: (assert (exists w rq, request_ok start rq /\ Perform rq w = (response, x_world s1)) as Hperf
    by (destruct (Hp response eq_refl) as (w & rq & Hrq & Hpr); exists w, rq; split; [by eapply hop_request_ok|done])).
  all: destruct (bool_decide _); [intros [= <- <-]; exists n; repeat apply conj; (done || lia)|].
  all: destruct (bool_decide _); [intros [= <- <-]; exists n; repeat apply conj; (done || lia)|].
  all: destruct (rs_status response =? 0); [intros [= <- <-]; exists n; repeat apply conj; (done || lia)|].
  all: destruct (negb _); [intros [= <- <-]; exists n; repeat apply conj; (done || lia)|].
  all: destruct (Find _ _) as [[|c location]|]; try (intros [= <- <-]; exists n; repeat apply conj; (done || lia)).
  destruct (ResolveReference u (c :: location)) as [error|target] eqn:Et;
    [intros [= <- <-]; exists n; repeat apply conj; (done || lia)|].
  destruct (IsSchemeDowngrade u target) eqn:Ed; [intros [= <- <-]; exists n; repeat apply conj; (done || lia)|].
  intros (m & Hev2 & Hm & Hf1 & Hf2 & Hf3)%IH.
  - exists (n + m)%nat. cbn [x_retries x_count] in Hm. repeat apply conj; (by eapply evolves_trans) || done || lia.
  - by eapply ResolveReference_wf.
  - intros Hsec. eapply IsSchemeDowngrade_secure; [done|]. by apply Hs.
Qed.
End requests.

(** ** The budget only shrinks *)

Section budget.
Context {W : Type} `{HttpWorld W} {S : Type} `{RequestSink S}.
Context (options : HttpOptions) (origin : Uri) (method : Method) (range ifRange : str) (capacity : Z).

Lemma attempts_retries budget u redirects attempt (s : XState (W := W) (S := S)) :
  x_retries s = budget ->
  (x_retries (snd (attempts options origin method range ifRange capacity budget u redirects attempt s)) <= budget)%nat.
Proof.
  revert attempt s. induction budget as [|budget IH]; intros attempt s Hb; cbn [attempts];
    destruct (attempt_headers _ _ _ _ _ _ _) as [[refused|headers] s1] eqn:Eh;
    apply attempt_headers_spec in Eh as (R1 & _); cbn [snd]; try lia;
    unfold issue; destruct (Perform _ (x_world s1)) as [response w]; cbn [snd x_retries]; [lia|].
  destruct (retryable response); cbn [negb snd x_retries]; [|lia]. rewrite IH by done. lia.
Qed.

Lemma exchange_retries hops u redirects (s : XState (W := W) (S := S)) :
  (x_retries (snd (exchange_loop options origin method range ifRange capacity hops u redirects s)) <= x_retries s)%nat.
Proof.
  revert u redirects s. induction hops as [|hops IH]; intros u redirects s; cbn [exchange_loop];
    destruct (match ClassifyHostLiteral (u_host u) with Some _ => _ | None => _ end); try (cbn [snd]; lia);
    pose proof (attempts_retries (x_retries s) u redirects 0 s eq_refl) as Ha;
    destruct (attempts _ _ _ _ _ _ _ _ _ _ _) as [[refused|response] s1]; cbn [snd] in *; try lia;
    repeat (case_of; cbn [snd]; try lia).
  etrans; [apply IH|]. done.
Qed.
End budget.

Section turns.
Context {W : Type} `{HttpWorld W} (offset size length_ : Z).

Lemma read_exchange_frame (s : RState (W := W)) x s' :
  read_exchange offset length_ s = (x, s') ->
  hr_options (rs_reader s') = hr_options (rs_reader s) /\ hr_origin (rs_reader s') = hr_origin (rs_reader s) /\
  hr_uri (rs_reader s') = hr_uri (rs_reader s) /\ hr_metadata (rs_reader s') = hr_metadata (rs_reader s) /\
  hr_ifRangeValue (rs_reader s') = hr_ifRangeValue (rs_reader s) /\ rs_done s' = rs_done s /\
  (rs_retries s' <= rs_retries s)%nat.
Proof.
  unfold read_exchange, PerformExchange. set (x0 := mkX _ _ _ _).
  match goal with |- context [exchange_loop ?a ?b ?c ?d ?e ?f ?g ?h ?i x0] =>
    pose proof (exchange_retries a b c d e f g h i x0) as Hr; destruct (exchange_loop a b c d e f g h i x0) as [x1 s1]
  end.
  intros [= <- <-]. by split_and!.
Qed.

(** A turn is its exchange, and a judgement that leaves everything but [done]
    alone. *)
Lemma read_turn_frame (s : RState (W := W)) r s' :
  read_turn offset size length_ s = (r, s') ->
  exists x s1, read_exchange offset length_ s = (x, s1) /\ rs_reader s' = rs_reader s1 /\
    rs_retries s' = rs_retries s1 /\ rs_dst s' = rs_dst s1.
Proof.
  unfold read_turn, advance. destruct (read_exchange offset length_ s) as [x s1]. intros E. exists x, s1. split; [done|].
  revert E. repeat case_of; intros [= <- <-]; done.
Qed.

Lemma read_turn_retries (s : RState (W := W)) r s' :
  read_turn offset size length_ s = (r, s') -> (rs_retries s' <= rs_retries s)%nat.
Proof.
  intros (x & s1 & Ex & _ & -> & _)%read_turn_frame. apply read_exchange_frame in Ex. naive_solver.
Qed.

(** The retries at the first resumption are fuel enough: more changes nothing,
    so the end of the fuel is the source's branch for a spent budget. *)
Lemma resume_loop_fuel fuel lastError (s : RState (W := W)) :
  (rs_retries s <= fuel)%nat ->
  resume_loop offset size length_ fuel lastError s = resume_loop offset size length_ (rs_retries s) lastError s.
Proof.
  enough (forall f g lastError (s : RState (W := W)), (rs_retries s <= f)%nat -> (rs_retries s <= g)%nat ->
    resume_loop offset size length_ f lastError s = resume_loop offset size length_ g lastError s) as Hfg
    by (intros; by apply Hfg).
  clear. induction f as [|f IH]; intros g lastError s Hf Hg.
  - assert (rs_retries s = 0%nat) as E by lia. destruct g; cbn [resume_loop]; rewrite ?E; done.
  - destruct g as [|g]; cbn [resume_loop].
    + assert (rs_retries s = 0%nat) as -> by lia. done.
    + destruct (negb _); [done|]. destruct (rs_retries s) as [|left_]; [done|].
      destruct (read_turn _ _ _ _) as [[result|e] s2] eqn:Et; [done|].
      apply read_turn_retries in Et. cbn [rs_retries] in Et. apply IH; lia.
Qed.
End turns.

(** ** The requests of a read *)

Section read_requests.
Context {W : Type} `{HttpWorld W} (offset size length_ : Z).

(** A range request of the reader [r] for what is left of the range of
    [length_] bytes from [offset]: all of it from some byte on, with room for that
    many, and the validator of the open in [If-Range]. *)
Definition read_request_ok (r : HttpAssetReader (W := W)) (rq : TransportRequest) : Prop :=
  exists done_, 0 <= done_ < length_ /\
    request_ok (hr_options r) (hr_origin r) MethodGet (FormatByteRange (offset + done_) (length_ - done_))
      (hr_ifRangeValue r) (length_ - done_) (hr_uri r) rq.

Definition same_http (a b : HttpAssetReader (W := W)) : Prop :=
  hr_options a = hr_options b /\ hr_origin a = hr_origin b /\ hr_uri a = hr_uri b /\
  hr_metadata a = hr_metadata b /\ hr_ifRangeValue a = hr_ifRangeValue b.

Lemma same_http_trans a b c : same_http a b -> same_http b c -> same_http a c.
Proof. unfold same_http. naive_solver congruence. Qed.

Lemma read_request_ok_same a b rq : same_http a b -> read_request_ok a rq -> read_request_ok b rq.
Proof. unfold read_request_ok. by intros (-> & -> & -> & _ & ->). Qed.

Lemma read_turn_done (s : RState (W := W)) r s' :
  0 <= rs_done s -> read_turn offset size length_ s = (r, s') -> 0 <= rs_done s'.
Proof.
  intros Hd. unfold read_turn, advance. destruct (read_exchange offset length_ s) as [x s1] eqn:Ex.
  apply read_exchange_frame in Ex as (_ & _ & _ & _ & _ & Ed & _). rewrite <-Ed in Hd.
  repeat case_of; intros [= <- <-]; cbn [rs_done]; try done; apply u64_is_u64.
Qed.

Lemma read_turn_same (s : RState (W := W)) r s' :
  read_turn offset size length_ s = (r, s') -> same_http (rs_reader s') (rs_reader s).
Proof.
  intros (x & s1 & Ex & -> & _ & _)%read_turn_frame. apply read_exchange_frame in Ex.
  unfold same_http. naive_solver.
Qed.

Lemma resume_loop_same fuel lastError (s : RState (W := W)) res s' :
  resume_loop offset size length_ fuel lastError s = (res, s') -> same_http (rs_reader s') (rs_reader s).
Proof.
  revert lastError s. induction fuel as [|fuel IH]; intros lastError s; cbn [resume_loop];
    (destruct (negb _); [by intros [= <- <-]|]); [by intros [= <- <-]|].
  destruct (rs_retries s) as [|left_]; [by intros [= <- <-]|].
  destruct (read_turn _ _ _ _) as [[result|e] s2] eqn:Et; apply read_turn_same in Et.
  - by intros [= <- <-].
  - intros E%IH. by eapply same_http_trans.
Qed.

Lemma read_loop_same (s : RState (W := W)) res s' :
  read_loop offset size length_ s = (res, s') -> same_http (rs_reader s') (rs_reader s).
Proof.
  unfold read_loop. destruct (negb _); [by intros [= <- <-]|].
  destruct (read_turn _ _ _ _) as [[result|e] s2] eqn:Et; apply read_turn_same in Et.
  - by intros [= <- <-].
  - intros E%resume_loop_same. by eapply same_http_trans.
Qed.

Abbreviation hops r := (Z.to_nat (ho_maxRedirects (hr_options r))).

Context (Ho : 0 <= offset) (Hol : offset + length_ < 2 ^ 64).

Lemma read_turn_requests (s : RState (W := W)) r s' :
  uri_wf (hr_uri (rs_reader s)) -> 0 <= rs_done s < length_ -> read_turn offset size length_ s = (r, s') ->
  exists n, evolves (read_request_ok (rs_reader s)) n (hr_world (rs_reader s)) (hr_world (rs_reader s')) /\
    (n + rs_retries s' <= hops (rs_reader s) + 1 + rs_retries s)%nat.
Proof.
  intros Hw Hd (x & s1 & Ex & -> & -> & _)%read_turn_frame. unfold read_exchange, PerformExchange in Ex.
  rewrite (u64_small (offset + _)), (u64_small (length_ - _)) in Ex by (unfold is_u64; lia).
  destruct (exchange_loop _ _ _ _ _ _ _ _ _ _) as [x1 xs] eqn:El. injection Ex as <- <-.
  apply (exchange_requests _ _ _ _ _ _ (hr_uri (rs_reader s))) in El as (n & Hev & Hn & _); [|done|done].
  exists n. split; [|done]. cbn [rs_reader hr_world]. eapply evolves_mono; [|exact Hev].
  intros rq Hrq. by exists (rs_done s).
Qed.

Lemma resume_loop_requests fuel lastError (s : RState (W := W)) res s' :
  uri_wf (hr_uri (rs_reader s)) -> 0 <= rs_done s -> resume_loop offset size length_ fuel lastError s = (res, s') ->
  same_http (rs_reader s') (rs_reader s) /\
  exists n, evolves (read_request_ok (rs_reader s)) n (hr_world (rs_reader s)) (hr_world (rs_reader s')) /\
    (n <= rs_retries s * (hops (rs_reader s) + 1))%nat.
Proof.
  revert lastError s. induction fuel as [|fuel IH]; intros lastError s Hw Hd; cbn [resume_loop];
    (destruct (Z.ltb_spec (rs_done s) length_); cbn [negb];
      [|intros [= <- <-]; split; [done|]; exists 0%nat; split; [constructor|lia]]).
  - intros [= <- <-]. split; [done|]. exists 0%nat. split; [constructor|lia].
  - destruct (rs_retries s) as [|left_] eqn:Er.
    { intros [= <- <-]. split; [done|]. exists 0%nat. split; [constructor|lia]. }
    destruct (read_turn _ _ _ _) as [r s2] eqn:Et.
    pose proof Et as Et2. apply read_turn_requests in Et2 as (n & Hev & Hn); [|exact Hw|done].
    assert (0 <= rs_done s2) as Hd2 by (by eapply read_turn_done; [|exact Et]).
    pose proof (read_turn_retries _ _ _ _ _ _ Et) as Hret. pose proof (read_turn_same _ _ _ Et) as Hsame.
    cbn [rs_reader rs_retries hr_world hr_options with_hmetrics] in *.
    assert (same_http (rs_reader s2) (rs_reader s)) as Hs2 by exact Hsame.
    assert (evolves (read_request_ok (rs_reader s)) n (hr_world (rs_reader s)) (hr_world (rs_reader s2))) as Hev' by exact Hev.
    destruct r as [result|e].
    + intros [= <- <-]. split; [done|]. exists n. split; [done|]. nia.
    + intros E. apply IH in E as (Hs3 & m & Hev2 & Hm); [|by destruct Hs2 as (_ & _ & -> & _)|done].
      split; [by eapply same_http_trans|]. exists (n + m)%nat. split.
      * eapply evolves_trans; [done|]. eapply evolves_mono; [|exact Hev2]. intros rq. by apply read_request_ok_same.
      * destruct Hs2 as (E1 & _). rewrite E1 in Hm. nia.
Qed.

Lemma read_loop_requests (s : RState (W := W)) res s' :
  uri_wf (hr_uri (rs_reader s)) -> 0 <= rs_done s -> read_loop offset size length_ s = (res, s') ->
  same_http (rs_reader s') (rs_reader s) /\
  exists n, evolves (read_request_ok (rs_reader s)) n (hr_world (rs_reader s)) (hr_world (rs_reader s')) /\
    (n <= (rs_retries s + 1) * (hops (rs_reader s) + 1))%nat.
Proof.
  intros Hw Hd. unfold read_loop. destruct (Z.ltb_spec (rs_done s) length_); cbn [negb];
    [|intros [= <- <-]; split; [done|]; exists 0%nat; split; [constructor|lia]].
  destruct (read_turn _ _ _ _) as [r s2] eqn:Et. pose proof (read_turn_done _ _ _ Hd Et) as Hd2.
  pose proof (read_turn_requests _ _ _ Hw ltac:(lia) Et) as (n & Hev & Hn). pose proof (read_turn_same _ _ _ Et) as Hs2.
  pose proof (read_turn_retries _ _ _ _ _ _ Et) as Hret. destruct r as [result|e].
  - intros [= <- <-]. split; [done|]. exists n. split; [done|]. nia.
  - intros E. apply resume_loop_requests in E as (Hs3 & m & Hev2 & Hm); [|by destruct Hs2 as (_ & _ & -> & _)|done].
    split; [by eapply same_http_trans|]. exists (n + m)%nat. split.
    + eapply evolves_trans; [done|]. eapply evolves_mono; [|exact Hev2]. intros rq. by apply read_request_ok_same.
    + destruct Hs2 as (E1 & _). rewrite E1 in Hm. nia.
Qed.
End read_requests.

Section request_claims.
Context {W : Type} `{HttpWorld W}.

(** C4: what one exchange may put on the wire, whatever the server answers: every
    request goes to a well-formed URL whose host the destination policy permits,
    none leaves TLS once the exchange started with it, the interceptor's headers
    are admitted ones and go to the opened origin only; and there are at most the
    redirects allowed, one, and the retries spent, of them. *)
Theorem PerformExchange_requests {S} `{RequestSink S} options origin method range ifRange capacity start
    (s : XState (W := W) (S := S)) x s' :
  uri_wf start ->
  PerformExchange options origin method range ifRange capacity start s = (x, s') ->
  exists n, evolves (request_ok options origin method range ifRange capacity start) n (x_world s) (x_world s') /\
    (n + x_retries s' <= Z.to_nat (ho_maxRedirects options) + 1 + x_retries s)%nat /\
    uri_wf (xr_finalUri x) /\ (IsSecure start = true -> IsSecure (xr_finalUri x) = true).
Proof.
  intros Hw E. eapply (exchange_requests _ _ _ _ _ _ start) in E as (n & ? & ? & ? & ? & _); [|done|done].
  by exists n.
Qed.

(** C29: what a read asks for.  Let [r] be a reader with a well-formed URL, as every
    open leaves it, and let [n] be the bytes its asset has of the range read.
    Whatever the server answers and however often the transfer is resumed, every
    request the read sends obeys the rules of an exchange, carries the validator of
    the open in [If-Range], and asks for exactly the end of that range from some
    byte of it on, with room for no more; and there are at most
    [max 1 maxAttempts * (max 0 maxRedirects + 1)] requests. *)
Theorem Http_Read_requests (r : HttpAssetReader (W := W)) offset dst size res dst' r' :
  uri_wf (hr_uri r) -> is_u64 offset -> is_u64 size -> is_u64 (am_size (hr_metadata r)) ->
  Http_Read r offset dst size = (res, dst', r') ->
  exists n, evolves (read_request_ok offset (available offset size (am_size (hr_metadata r))) r) n (hr_world r) (hr_world r') /\
    Z.of_nat n <= Z.max 1 (ho_maxAttempts (hr_options r)) * (Z.max 0 (ho_maxRedirects (hr_options r)) + 1).
Proof.
  intros Hw Ho Hsz HA. unfold Http_Read, Http_Read_untimed.
  assert (forall w : W, hr_world r = w ->
    exists n, evolves (read_request_ok offset (available offset size (am_size (hr_metadata r))) r) n (hr_world r) w /\
    Z.of_nat n <= Z.max 1 (ho_maxAttempts (hr_options r)) * (Z.max 0 (ho_maxRedirects (hr_options r)) + 1)) as Hnone.
  { intros w <-. exists 0%nat. split; [constructor|]. nia. }
  cbn [with_hmetrics hr_metadata hr_options].
  destruct (ResolveReadRange_cases offset size (am_size (hr_metadata r)) Ho Hsz HA) as [Eo Hc].
  destruct (bool_decide_reflect (rr_outcome (ResolveReadRange offset size (am_size (hr_metadata r))) = Overflow)) as [Ev|Ev];
    [intros [= <- <- <-]; by apply Hnone|].
  destruct dst as [out|]; [|destruct (0 <? size); intros [= <- <- <-]; by apply Hnone].
  destruct (bool_decide_reflect (rr_outcome (ResolveReadRange offset size (am_size (hr_metadata r))) = Empty)) as [Ee|Ee];
    [intros [= <- <- <-]; by apply Hnone|].
  destruct (read_loop _ _ _ _) as [result s] eqn:El. intros [= <- <- <-].
  destruct Hc as [(_ & Hc & _)|[(_ & _ & Hc & _)|(Hlt & Hpos & _ & Elen & _)]]; [congruence..|].
  pose proof (available_range offset size (am_size (hr_metadata r)) ltac:(apply Hsz)) as Hav.
  rewrite Elen in El. apply read_loop_requests in El as (_ & n & Hev & Hn); [|apply Ho|lia|done|done].
  exists n. split; [exact Hev|]. cbn [rs_retries rs_reader with_hmetrics hr_options] in Hn.
  unfold initial_retries in Hn. rewrite Z.gtb_ltb in Hn.
  destruct (Z.ltb_spec 0 (ho_maxAttempts (hr_options r))); nia.
Qed.
End request_claims.

(** ** The origin

    What the reader contract rests on.  [A] is published under the strong entity
    tag [v] at the URLs [Here], and redirects from one of them lead to another.
    A range request that carries [v] in [If-Range] is answered with a [206] only
    for [A] (RFC 9110, 13.1.5), unless the [206] names another entity tag or
    another length; then, and in every other response, the body may be anything.
    Nothing is said of a request without that [If-Range], of a weak or missing
    validator, of a date, or of another URL. *)

Class Origin (W : Type) `{HttpWorld W} (Inv : W -> Prop) (Here : Uri -> Prop) (v : Validator) (A : bytes) : Prop := {
  og_strong : v_kind v = EntityTag /\ v_strength v = Strong /\ v_value v <> [];
  og_perform : forall rq w, Inv w -> Inv (snd (Perform rq w));
  og_intercept : forall view w, Inv w -> Inv (snd (CallInterceptor view w));
  og_fits : forall rq w, Inv w -> 0 <= rq_bodyCapacity rq ->
    zlen (rs_body (fst (Perform rq w))) <= rq_bodyCapacity rq;
  og_redirect : forall rq w u location target, Inv w -> Here u -> rq_url rq = ToString u ->
    let r := fst (Perform rq w) in
    IsRedirect (rs_status r) = true -> Find (lit "Location") (rs_headers r) = Some location ->
    ResolveReference u location = inr target -> Here target;
  og_partial : forall rq w u c, Inv w -> Here u -> rq_url rq = ToString u ->
    rq_method rq = MethodGet -> rq_ifRange rq = v_value v ->
    let r := fst (Perform rq w) in
    rs_status r = 206 -> ContradictsCapturedValidator (rs_headers r) v = false ->
    Find (lit "Content-Range") (rs_headers r) ≫= ParseContentRange = Some c -> cr_unsatisfied c = false ->
    (cr_hasCompleteLength c = true -> cr_completeLength c = zlen A) -> rs_bodyOverflowed r = false ->
    rs_body r = slice A (cr_first c) (zlen (rs_body r)) }.

Section contract.
Context {W : Type} `{HttpWorld W} (Inv : W -> Prop) (Here : Uri -> Prop) (v : Validator) (A : bytes) `{!Origin W Inv Here v A}.

(** The last response of an exchange, and the buffer it was written to. *)
Definition answered {S} (method : Method) (ifRange : str) (capacity : Z) (u : Uri) (response : TransportResponse)
    (s : XState (W := W) (S := S)) : Prop :=
  exists w rq b, Inv w /\ rq_method rq = method /\ rq_ifRange rq = ifRange /\ rq_url rq = ToString u /\
    response = fst (Perform rq w) /\ zlen b = capacity /\ zlen (rs_body response) <= capacity /\ x_body s = write_at b 0 (rs_body response).

Lemma zlen_write_at (buf src : bytes) : zlen src <= zlen buf -> zlen (write_at buf 0 src) = zlen buf.
Proof. intros. unfold zlen. rewrite length_write_at; [done|done|lia]. Qed.

Lemma attempts_answered {S} `{RequestSink S} options origin method range ifRange capacity budget u redirects attempt
    (s : XState (W := W) (S := S)) r s' :
  Inv (x_world s) -> zlen (x_body s) = capacity ->
  attempts options origin method range ifRange capacity budget u redirects attempt s = (r, s') ->
  Inv (x_world s') /\ zlen (x_body s') = capacity /\
  (forall response, r = inr response -> answered method ifRange capacity u response s').
Proof.
  revert attempt s. induction budget as [|budget IH]; intros attempt s Hi Hb; cbn [attempts];
    destruct (attempt_headers _ _ _ _ _ _ _) as [[refused|headers] s1] eqn:Eh;
    apply attempt_headers_spec in Eh as (_ & R1 & _ & R2 & _);
    (assert (Inv (x_world s1)) as Hi1 by (destruct R2 as [->|(view & ->)]; [done|by apply og_intercept])).
  1, 3: intros [= <- <-]; rewrite R1; split_and!; done.
  all: unfold issue; set (rq := make_request _ _ _ _ _ _ _);
    assert (0 <= rq_bodyCapacity rq) as Hc by (cbn; rewrite <-Hb; apply zlen_nonneg);
    pose proof (og_fits rq _ Hi1 Hc) as Hf; pose proof (og_perform rq _ Hi1) as Hi2; cbn [rq_bodyCapacity rq] in Hf;
    (assert (answered method ifRange capacity u (fst (Perform rq (x_world s1)))
       (mkX (snd (Perform rq (x_world s1))) (x_sink s) 0 (write_at (x_body s1) 0 (rs_body (fst (Perform rq (x_world s1))))))) as Ha
       by (exists (x_world s1), rq, (x_body s1); rewrite R1; split_and!; done));
    destruct (Perform rq (x_world s1)) as [response w]; cbn [fst snd] in *;
    assert (zlen (write_at (x_body s1) 0 (rs_body response)) = capacity) as Hl
      by (rewrite R1, zlen_write_at; [done|rewrite Hb; exact Hf]).
  - intros [= <- <-]. cbn [x_world x_body]. split_and!; [done|done|]. by intros ? [= <-].
  - destruct (retryable response); cbn [negb].
    + intros E. eapply IH; [| |exact E]; done.
    + intros [= <- <-]. cbn [x_world x_body]. split_and!; [done|done|]. by intros ? [= <-].
Qed.

Lemma exchange_answered {S} `{RequestSink S} options origin method range ifRange capacity hops u redirects
    (s : XState (W := W) (S := S)) x s' :
  Inv (x_world s) -> Here u -> zlen (x_body s) = capacity ->
  exchange_loop options origin method range ifRange capacity hops u redirects s = (x, s') ->
  Inv (x_world s') /\ zlen (x_body s') = capacity /\ Here (xr_finalUri x) /\
  (rs_status (xr_response x) <> 0 -> answered method ifRange capacity (xr_finalUri x) (xr_response x) s').
Proof.
  revert u redirects s. induction hops as [|hops IH]; intros u redirects s Hi Hu Hb; cbn [exchange_loop].
  all: destruct (match ClassifyHostLiteral (u_host u) with Some _ => _ | None => _ end);
    [by intros [= <- <-]|].
  all: destruct (attempts _ _ _ _ _ _ _ _ _ _ _) as [[refused|response] s1] eqn:Ea;
    (apply attempts_answered in Ea as (A1 & A2 & A3); [|done|done]); [by intros [= <- <-]|specialize (A3 _ eq_refl)].
  all: destruct (bool_decide _); [by intros [= <- <-]|].
  all: destruct (bool_decide _); [by intros [= <- <-]|].
  all: destruct (rs_status response =? 0); [by intros [= <- <-]|].
  all: destruct (IsRedirect _) eqn:Ei; cbn [negb]; [|by intros [= <- <-]].
  all: destruct (Find _ _) as [[|c location]|] eqn:Ef; try (by intros [= <- <-]).
  destruct (ResolveReference u (c :: location)) as [error|target] eqn:Et; [by intros [= <- <-]|].
  destruct (IsSchemeDowngrade u target); [by intros [= <- <-]|]. apply IH; [done| |done].
  destruct A3 as (w & rq & b & B1 & _ & _ & B2 & -> & _). by eapply og_redirect.
Qed.

(** ** One turn *)

Context (offset size length_ : Z) (Ho : 0 <= offset) (Hl : 0 <= length_ <= size) (Hin : offset + length_ <= zlen A)
        (HA : zlen A < 2 ^ 64).

(** What the loop keeps: the reader is bound to [A], the buffer has its length,
    and its first [done] bytes are the asset's. *)
Record turn_inv (n : Z) (s : RState (W := W)) : Prop := {
  ti_world : Inv (hr_world (rs_reader s));
  ti_size : am_size (hr_metadata (rs_reader s)) = zlen A;
  ti_validator : am_validator (hr_metadata (rs_reader s)) = v;
  ti_ifRange : hr_ifRangeValue (rs_reader s) = v_value v;
  ti_here : Here (hr_uri (rs_reader s));
  ti_dst : zlen (rs_dst s) = n;
  ti_done : 0 <= rs_done s <= length_;
  ti_bytes : take (Z.to_nat (rs_done s)) (rs_dst s) = slice A offset (rs_done s) }.

(** A failure: no success is reported, and the count stays in the range. *)
Definition read_failed (r : ReadResult) : Prop :=
  IsOk (rr_status r) = false /\ 0 <= rr_bytesRead r <= length_.

Lemma ProjectHttpStatus_fails status u : IsOk (ProjectHttpStatus status u) = false.
Proof. unfold ProjectHttpStatus. by repeat case_of. Qed.

Lemma ProjectTransportError_fails e u : e <> NoError -> IsOk (ProjectTransportError e u) = false.
Proof. by destruct e. Qed.

Lemma judge_whole_fails metadata headers u d :
  0 <= d <= length_ -> read_failed (judge_whole offset size metadata headers u d).
Proof. intros Hd. unfold judge_whole. repeat case_of; split; (done || simpl; lia). Qed.

Lemma judge_unsatisfiable_fails metadata headers u d :
  0 <= d <= length_ -> read_failed (judge_unsatisfiable offset size metadata headers u d).
Proof.
  intros Hd. unfold judge_unsatisfiable. destruct (ContradictsCapturedValidator _ _); [split; (done || simpl; lia)|].
  destruct (match _ with Some _ => _ | None => _ end); split; (done || simpl; lia).
Qed.

(** A [206] passes only when its validator does not contradict, its length
    agrees, and its range is the one asked for. *)
Lemma judge_partial_spec metadata response u at_ remaining d :
  0 <= d <= length_ ->
  match judge_partial offset size metadata response u at_ remaining d with
  | inl failure => read_failed failure
  | inr _ =>
      ContradictsCapturedValidator (rs_headers response) (am_validator metadata) = false /\
      rs_bodyOverflowed response = false /\
      exists c, Find (lit "Content-Range") (rs_headers response) ≫= ParseContentRange = Some c /\
        cr_unsatisfied c = false /\ (cr_hasCompleteLength c = true -> cr_completeLength c = am_size metadata) /\
        cr_first c = at_ /\ Length c = remaining
  end.
Proof.
  intros Hd. unfold judge_partial. destruct (ContradictsCapturedValidator _ _); [split; (done || simpl; lia)|].
  destruct (_ || _); [split; (done || simpl; lia)|].
  destruct (Find _ _ ≫= ParseContentRange) as [c|]; [|split; (done || simpl; lia)].
  destruct (cr_unsatisfied c) eqn:Eu; [split; (done || simpl; lia)|].
  destruct (cr_hasCompleteLength c && _) eqn:Ec; [split; (done || simpl; lia)|].
  destruct (negb (cr_first c =? at_) || _) eqn:Ef; [split; (done || simpl; lia)|].
  destruct (rs_bodyOverflowed response); [split; (done || simpl; lia)|].
  split_and!; try done. exists c. apply orb_false_iff in Ef as [E1 E2].
  rewrite !negb_false_iff, !Z.eqb_eq in E1, E2. split_and!; try done.
  intros Hh. rewrite Hh in Ec. simpl in Ec. by apply negb_false_iff, Z.eqb_eq in Ec.
Qed.

(** The exchange of a turn keeps the first [done] bytes of the buffer, and a
    response that came back is written right after them. *)
Lemma read_exchange_inv n (s : RState (W := W)) x s' :
  length_ <= n -> turn_inv n s -> rs_done s < length_ -> read_exchange offset length_ s = (x, s') ->
  turn_inv n s' /\ rs_done s' = rs_done s /\
  (rs_status (xr_response x) <> 0 -> exists w rq u, Inv w /\ Here u /\ rq_url rq = ToString u /\
     rq_method rq = MethodGet /\ rq_ifRange rq = v_value v /\
     xr_response x = fst (Perform rq w) /\ zlen (rs_body (xr_response x)) <= length_ - rs_done s /\
     take (Z.to_nat (rs_done s + zlen (rs_body (xr_response x)))) (rs_dst s') =
     slice A offset (rs_done s) ++ rs_body (xr_response x)).
Proof.
  intros Hn [T1 T2 T3 Ti Th T4 T5 T6] Hd E. unfold read_exchange, PerformExchange in E.
  rewrite (u64_small (length_ - rs_done s)) in E by (unfold is_u64; lia).
  destruct (exchange_loop _ _ _ _ _ _ _ _ _ _) as [x1 xs] eqn:El. injection E as <- <-.
  apply exchange_answered in El as (X1 & X2 & X0 & X3); [|done|done|cbn [x_body]; rewrite zlen_slice; lia].
  set (r := length_ - rs_done s) in *.
  assert (zlen (write_at (rs_dst s) (rs_done s) (x_body xs)) = n) as Hw.
  { rewrite <-T4. unfold zlen. rewrite length_write_at; [done|lia|unfold r in *; lia]. }
  assert (length (take (Z.to_nat (rs_done s)) (rs_dst s)) = Z.to_nat (rs_done s)) as Ht.
  { rewrite length_take. unfold zlen in T4. lia. }
  split_and!; [split; cbn; try done| |].
  - unfold write_at. rewrite <-T6. rewrite <-Ht at 1. apply take_app_length.
  - done.
  - intros (w & rq & b & B1 & B2 & Bi & Bu & B3 & B4 & B5 & B6)%X3. exists w, rq, (xr_finalUri x1).
    split_and!; try done; [congruence|]. cbn [rs_dst].
    rewrite B6, <-T6. unfold write_at at 1. rewrite Z2Nat.inj_add by (apply zlen_nonneg || lia).
    unfold zlen at 1. rewrite Nat2Z.id, <-Ht at 1. rewrite take_app_add. f_equal.
    unfold write_at.
    change (take (Z.to_nat 0) b) with (@nil ascii). rewrite app_nil_l, <-app_assoc. by rewrite take_app_length.
Qed.

Lemma slice_extend d (b : bytes) :
  0 <= d -> b = slice A (offset + d) (zlen b) -> slice A offset d ++ b = slice A offset (d + zlen b).
Proof. intros Hd E. rewrite slice_app by (apply zlen_nonneg || lia). by rewrite E at 1. Qed.

Lemma read_turn_inv n (s : RState (W := W)) r s' :
  length_ <= n -> turn_inv n s -> rs_done s < length_ -> read_turn offset size length_ s = (r, s') ->
  turn_inv n s' /\ match r with inl failure => read_failed failure | inr _ => True end.
Proof.
  intros Hn Hs Hd. pose proof (ti_done _ _ Hs) as Hds. unfold read_turn, advance.
  destruct (read_exchange offset length_ s) as [x s1] eqn:Ex.
  destruct (read_exchange_inv n s x s1 Hn Hs Hd Ex) as (Hs1 & Ed & Hr).
  rewrite !(u64_small (_ + rs_done s)), (u64_small (length_ - rs_done s)) by (unfold is_u64; lia).
  rewrite !Ed. destruct (IsOk (xr_status x)) eqn:Eok; cbn [negb].
  2:{ intros [= <- <-]. split; [done|]. split; [exact Eok|simpl; lia]. }
  destruct (Z.eqb_spec (rs_status (xr_response x)) 200).
  { intros [= <- <-]. split; [done|]. apply judge_whole_fails. lia. }
  destruct (Z.eqb_spec (rs_status (xr_response x)) 206) as [E206|]; cbn [negb].
  2:{ destruct (_ =? 416); intros [= <- <-]; (split; [done|]).
      - apply judge_unsatisfiable_fails. lia.
      - split; [apply (ProjectHttpStatus_fails (rs_status (xr_response x)) (xr_finalUri x))|simpl; lia]. }
  destruct Hr as (w & rq & u0 & B1 & Bh & Bu & B2 & Bi & B3 & B4 & B5); [lia|].
  pose proof (judge_partial_spec (hr_metadata (rs_reader s1)) (xr_response x) (xr_finalUri x) (offset + rs_done s)
    (length_ - rs_done s) (rs_done s) ltac:(lia)) as Hj.
  destruct (judge_partial _ _ _ _ _ _ _ _) as [failure|u]; [intros [= <- <-]; done|].
  destruct Hj as (J1 & J2 & c & J3 & J4 & J5 & J6 & J7). destruct Hs1 as [T1 T2 T3 Ti Th T4 T5 T6].
  rewrite T3 in J1. rewrite T2 in J5.
  assert (rs_body (xr_response x) = slice A (offset + rs_done s) (zlen (rs_body (xr_response x)))) as Hbody.
  { rewrite <-J6. rewrite B3 in *. by eapply og_partial. }
  pose proof (zlen_nonneg (rs_body (xr_response x))) as Hnn. unfold rs_bodyBytes.
  rewrite u64_small by (unfold is_u64; lia).
  assert (turn_inv n (mkR (rs_reader s1) (rs_retries s1) (rs_dst s1) (rs_done s + zlen (rs_body (xr_response x))))) as Hs2.
  { split; cbn [rs_reader rs_dst rs_done]; try done; [lia|]. rewrite B5. apply slice_extend; [lia|exact Hbody]. }
  cbn [rs_done]. destruct (bool_decide_reflect (rs_error (xr_response x) = NoError)) as [E0|E0]; cbn [negb andb].
  - destruct (_ =? 0); intros [= <- <-]; (split; [done|]); [|done]. split; [done|simpl; lia].
  - destruct (IsResumable _); cbn [negb].
    + rewrite andb_false_r. by intros [= <- <-].
    + intros [= <- <-]. split; [done|]. split; [|simpl; lia].
      apply (ProjectTransportError_fails (rs_error (xr_response x)) (xr_finalUri x) E0).
Qed.

(** A result the loop may return. *)
Definition read_result (r : ReadResult) (dst : bytes) : Prop :=
  read_failed r \/ (r = mkReadResult length_ Status_Ok /\ take (Z.to_nat length_) dst = slice A offset length_).

Lemma spent_fails lastError (s : RState (W := W)) :
  0 <= rs_done s <= length_ -> read_failed (spent offset size length_ lastError s).
Proof. intros Hd. unfold spent. case_bool_decide as E; [rewrite E|]; split; (done || simpl; lia). Qed.

Lemma done_result n (s : RState (W := W)) :
  turn_inv n s -> (rs_done s <? length_) = false -> read_result (mkReadResult (rs_done s) Status_Ok) (rs_dst s).
Proof.
  intros [_ _ _ _ _ _ T5 T6] E%Z.ltb_ge. assert (rs_done s = length_) as Ed by lia. right. rewrite Ed in *. done.
Qed.

Lemma resume_loop_inv n fuel lastError (s : RState (W := W)) res s' :
  length_ <= n -> turn_inv n s -> resume_loop offset size length_ fuel lastError s = (res, s') ->
  turn_inv n s' /\ read_result res (rs_dst s').
Proof.
  intros Hn. revert lastError s. induction fuel as [|fuel IH]; intros lastError s Hs; cbn [resume_loop];
    (destruct (rs_done s <? length_) eqn:Ed; cbn [negb]; [|intros [= <- <-]; split; [done|by eapply done_result]]).
  - intros [= <- <-]. split; [done|]. left. apply spent_fails, Hs.
  - destruct (rs_retries s) as [|left_]; [intros [= <- <-]; split; [done|]; left; apply spent_fails, Hs|].
    destruct (read_turn _ _ _ _) as [r s2] eqn:Et.
    apply (read_turn_inv n) in Et as [Hs2 Hr]; [|done|by destruct Hs|cbn; by apply Z.ltb_lt].
    destruct r as [failure|e]; [intros [= <- <-]; split; [done|by left]|]. by apply IH.
Qed.

Lemma read_loop_inv n (s : RState (W := W)) res s' :
  length_ <= n -> turn_inv n s -> read_loop offset size length_ s = (res, s') ->
  turn_inv n s' /\ read_result res (rs_dst s').
Proof.
  intros Hn Hs. unfold read_loop.
  destruct (rs_done s <? length_) eqn:Ed; cbn [negb]; [|intros [= <- <-]; split; [done|by eapply done_result]].
  destruct (read_turn _ _ _ _) as [r s2] eqn:Et.
  apply (read_turn_inv n) in Et as [Hs2 Hr]; [|done|done|by apply Z.ltb_lt].
  destruct r as [failure|e]; [intros [= <- <-]; split; [done|by left]|]. by apply resume_loop_inv.
Qed.
End contract.

(** ** The reader contract *)

Section http_contract.
Context {W : Type} `{HttpWorld W} (Inv : W -> Prop) (Here : Uri -> Prop) (v : Validator) (A : bytes) `{!Origin W Inv Here v A} (HA : is_u64 (zlen A)).

(** A reader bound to the representation [A] of the validator [v], which it sends
    in [If-Range] to a URL where [A] is published. *)
Definition http_inv (r : HttpAssetReader (W := W)) : Prop :=
  Inv (hr_world r) /\ am_size (hr_metadata r) = zlen A /\ am_validator (hr_metadata r) = v /\
  hr_ifRangeValue r = v_value v /\ Here (hr_uri r).

Lemma Http_Read_post (r : HttpAssetReader (W := W)) offset dst size res dst' r' :
  http_inv r -> is_u64 offset -> is_u64 size -> zlen dst = size ->
  Http_Read r offset (Some dst) size = (res, dst', r') ->
  http_inv r' /\ exists d, dst' = Some d /\ read_post A offset size dst res d.
Proof.
  intros (I1 & I2 & I3 & I4 & I5) Ho Hs Hz. unfold Http_Read, Http_Read_untimed.
  cbn [with_hmetrics hr_metadata hr_options hr_world]. rewrite I2.
  destruct (ResolveReadRange_cases offset size (zlen A) Ho Hs HA) as [Eo Hc].
  set (range := ResolveReadRange offset size (zlen A)) in *. unfold is_u64 in *.
  destruct Hc as [(Hc & -> & _)|[(Hc & Ha & -> & _)|(Hc & Ha & -> & El & Hle)]].
  - rewrite bool_decide_eq_true_2 by done. intros [= <- <- <-]. split; [by split_and!|]. exists dst. split; [done|].
    apply read_post_fail; done || lia.
  - rewrite bool_decide_eq_false_2, bool_decide_eq_true_2 by done. intros [= <- <- <-].
    split; [by split_and!|]. exists dst. split; [done|]. apply read_post_empty; (lia || done).
  - rewrite !bool_decide_eq_false_2 by done. pose proof (available_range offset size (zlen A)) as Hav.
    destruct (read_loop _ _ _ _) as [result s] eqn:Er. intros [= <- <- <-].
    apply (read_loop_inv Inv Here v A offset size (rr_length range)) with (n := size) in Er as [Hs' Hr]; try lia.
    2:{ split; cbn [rs_reader rs_dst rs_done hr_world hr_metadata]; (done || lia || by rewrite slice_zero). }
    pose proof (ti_dst _ _ _ _ _ _ _ _ Hs') as Hd. split; [split_and!; apply Hs'|].
    exists (rs_dst s). split; [done|]. assert (length (rs_dst s) = length dst) as Hlen by (unfold zlen in *; lia).
    destruct Hr as [[Hf Hb]|[-> Hb]].
    + split; [done|lia|lia|congruence].
    + split; cbn [rr_bytesRead rr_status]; [done|lia|lia|]. intros _. by rewrite <-El.
Qed.

Lemma Http_Read_metadata (r : HttpAssetReader (W := W)) offset dst size :
  hr_metadata (snd (Http_Read r offset dst size)) = hr_metadata r.
Proof.
  unfold Http_Read, Http_Read_untimed. cbn [with_hmetrics hr_metadata hr_options].
  destruct (bool_decide _); [done|]. destruct dst as [out|]; [|by destruct (0 <? size)].
  destruct (bool_decide _); [done|]. destruct (read_loop _ _ _ _) as [result s] eqn:Er.
  apply read_loop_same in Er as (_ & _ & _ & E & _). exact E.
Qed.

#[export] Instance Http_ReaderContract : ReaderContract HttpAssetReader http_inv A.
Proof.
  split.
  - by intros r (_ & ? & _).
  - exact HA.
  - intros r offset dst size _. apply Http_Read_metadata.
  - intros r offset dst size r' res dst' Hi Ho Hs Hd E. by eapply Http_Read_post.
Qed.
End http_contract.

(** C3: the HTTP backend keeps the reader contract, for a reader bound to the
    representation [A] by a strong entity tag [v], which it sends in [If-Range].
    The origin is assumed to honour it (RFC 9110, 13.1.5): [A] is published under
    [v] at the URLs [Here], redirects from them stay among them, and a range
    request there with that [If-Range] is answered with [206] only for the bytes
    of [A] that its [Content-Range] names, unless the [206] names another entity
    tag or another length.  Otherwise it may answer anything, replace the asset,
    cut connections and redirect.  A read that succeeds then returns exactly the
    bytes of [A], all of those asked for that it has, and any other read reports a
    failure.  Nothing is claimed of a reader without a strong entity tag: a weak
    tag, a date or no validator does not tell representations apart. *)
Theorem Http_reader_contract {W} `{HttpWorld W} Inv Here v A `{!Origin W Inv Here v A} (r : HttpAssetReader (W := W))
    offset dst size res dst' r' :
  is_u64 (zlen A) -> http_inv Inv Here v A r -> is_u64 offset -> is_u64 size -> zlen dst = size ->
  Http_Read r offset (Some dst) size = (res, dst', r') ->
  http_inv Inv Here v A r' /\ hr_metadata r' = hr_metadata r /\
  exists d, dst' = Some d /\ read_post A offset size dst res d.
Proof.
  intros HA Hi Ho Hs Hd E. pose proof (Http_Read_metadata r offset (Some dst) size) as Hm. rewrite E in Hm.
  apply (Http_Read_post Inv Here v A HA) in E as [Hi' Hp]; [|done..]. done.
Qed.

(** ** An origin that serves *)

(** Every range request inside the asset that is sent to [u] with [v] in
    [If-Range] is answered in full. *)
Definition serves {W} `{HttpWorld W} (Inv : W -> Prop) (u : Uri) (v : Validator) (A : bytes) : Prop :=
  forall rq w at_ n, Inv w -> rq_url rq = ToString u -> rq_method rq = MethodGet ->
    rq_range rq = FormatByteRange at_ n -> rq_ifRange rq = v_value v -> rq_bodyCapacity rq = n -> 0 <= at_ -> 0 < n -> at_ + n <= zlen A ->
    let r := fst (Perform rq w) in
    rs_status r = 206 /\ rs_error r = NoError /\ rs_bodyOverflowed r = false /\
    ContradictsCapturedValidator (rs_headers r) v = false /\
    HasConflictingDuplicate (lit "Content-Range") (rs_headers r) = false /\
    HasConflictingDuplicate (lit "Content-Length") (rs_headers r) = false /\
    Find (lit "Content-Range") (rs_headers r) ≫= ParseContentRange =
      Some (mkContentRange false at_ (at_ + n - 1) true (zlen A)) /\
    rs_body r = slice A at_ n.

(** The host's interceptor, where there is one, lets the requests to [u] go and
    adds headers that are admitted. *)
Definition interceptor_admits {W} `{HttpWorld W} (Inv : W -> Prop) (options : HttpOptions) (u : Uri) : Prop :=
  ho_interceptor options = true -> forall redirects attempt w, Inv w ->
    exists headers w', Intercept MethodGet u redirects attempt w = (inr headers, w').

Section liveness.
Context {W : Type} `{HttpWorld W} (Inv : W -> Prop) (Here : Uri -> Prop) (v : Validator) (A : bytes) `{!Origin W Inv Here v A}.
Context (HA : is_u64 (zlen A)) (u : Uri) (Hserves : serves Inv u v A).

(** The headers of an attempt that the interceptor admits. *)
Lemma attempt_headers_admits {S} options origin redirects attempt (s : XState (W := W) (S := S)) :
  Inv (x_world s) -> interceptor_admits Inv options u ->
  exists headers s1, attempt_headers options origin MethodGet u redirects attempt s = (inr headers, s1) /\ Inv (x_world s1).
Proof.
  intros Hi Hadm. unfold attempt_headers. destruct (ho_interceptor options) eqn:Eint; cbn [andb]; [|by eexists _, _].
  destruct (SameOrigin u origin); [|by eexists _, _].
  destruct (Hadm Eint redirects attempt (x_world s) Hi) as (headers & w' & E). rewrite E. eexists _, _. split; [done|].
  unfold Intercept in E. destruct (CallInterceptor _ (x_world s)) as [answer w1] eqn:Ec.
  assert (Inv w1) as Hw1 by (change w1 with (snd (answer, w1)); rewrite <-Ec; by apply og_intercept).
  destruct answer as [[[] hs]|]; [destruct (admit_loop _ _ _ _)|..]; by injection E as _ <-.
Qed.

(** The exchange of a range request goes out once and comes back. *)
Lemma exchange_serves {S} `{RequestSink S} options origin at_ n (s : XState (W := W) (S := S)) :
  Inv (x_world s) -> interceptor_admits Inv options u -> permitted options u ->
  0 <= at_ -> 0 < n -> at_ + n <= zlen A ->
  exists x s', PerformExchange options origin MethodGet (FormatByteRange at_ n) (v_value v) n u s = (x, s') /\
    IsOk (xr_status x) = true /\ exists rq w, Inv w /\ rq_url rq = ToString u /\ rq_method rq = MethodGet /\
      rq_range rq = FormatByteRange at_ n /\ rq_ifRange rq = v_value v /\
      rq_bodyCapacity rq = n /\ xr_response x = fst (Perform rq w).
Proof.
  intros Hi Hint Hperm Ha Hn Hle.
  destruct (attempt_headers_admits options origin 0 (0 + 1) s Hi Hint) as (headers & s1 & Eh & Hi1).
  set (rq := make_request options MethodGet (FormatByteRange at_ n) (v_value v) n u headers).
  destruct (Hserves rq (x_world s1) at_ n Hi1 eq_refl eq_refl eq_refl eq_refl eq_refl Ha Hn Hle) as (P1 & P2 & _).
  assert (attempts options origin MethodGet (FormatByteRange at_ n) (v_value v) n (x_retries s) u 0 0 s =
    (inr (fst (Perform rq (x_world s1))), snd (issue MethodGet rq s1))) as Ea.
  { assert (issue MethodGet rq s1 = (fst (Perform rq (x_world s1)), snd (issue MethodGet rq s1))) as Ei
      by (unfold issue; by destruct (Perform rq (x_world s1))).
    destruct (x_retries s); cbn [attempts]; rewrite Eh; fold rq; rewrite Ei; [done|].
    unfold retryable. rewrite P1, P2. done. }
  eexists _, _. split.
  { unfold PerformExchange. destruct (Z.to_nat (ho_maxRedirects options)); cbn [exchange_loop];
      (assert (match ClassifyHostLiteral (u_host u) with
        | Some literal => if negb (Permits (ho_destinations options) literal) then Some literal else None
        | None => None end = None) as ->
        by (destruct (ClassifyHostLiteral (u_host u)) as [c|] eqn:Ec; [by rewrite (Hperm c Ec)|done]));
      rewrite Ea; cbv zeta; rewrite P2, P1; reflexivity. }
  split; [done|]. by exists rq, (x_world s1).
Qed.

Lemma read_loop_serves (r : HttpAssetReader (W := W)) offset size l k dst :
  http_inv Inv Here v A r -> hr_uri r = u -> interceptor_admits Inv (hr_options r) u -> permitted (hr_options r) u ->
  0 <= offset -> 0 < l -> offset + l <= zlen A ->
  exists s', read_loop offset size l (mkR r k dst 0) = (mkReadResult l Status_Ok, s').
Proof.
  intros (I1 & I2 & I3 & I4 & _) Hu Hint Hperm Ho Hl Hle. unfold is_u64 in HA. unfold read_loop. cbn [rs_done].
  destruct (Z.ltb_spec 0 l); [|lia]. cbn [negb]. unfold read_turn, advance, read_exchange. cbn [rs_done rs_reader rs_retries rs_dst].
  rewrite !Z.add_0_r, !Z.sub_0_r, !(u64_small offset), !(u64_small l), I4, Hu by (unfold is_u64; lia).
  match goal with |- context [PerformExchange ?o ?g MethodGet ?rg ?ir l ?u ?x0] =>
    destruct (exchange_serves o g offset l x0) as (x & xs & -> & Eok & rq & w & Q0 & Q1 & Q2 & Q3 & Q4 & Q5 & Q6); [done..|]
  end.
  destruct (Hserves rq w offset l Q0 Q1 Q2 Q3 Q4 Q5 Ho Hl Hle) as (P1 & P2 & P3 & P4 & P5 & P6 & P7 & P8).
  rewrite <-Q6 in P1, P2, P3, P4, P5, P6, P7, P8. cbn [rs_reader rs_done rs_retries rs_dst hr_metadata].
  rewrite Eok, P1. cbn [negb Z.eqb Pos.eqb].
  assert (judge_partial offset size (hr_metadata r) (xr_response x) (xr_finalUri x) offset l 0 = inr tt) as ->.
  { unfold judge_partial. rewrite I3, P4, P5, P6, P7, P3, I2. cbn [orb cr_unsatisfied cr_hasCompleteLength cr_completeLength cr_first].
    rewrite !Z.eqb_refl. unfold Length. cbn [cr_first cr_last negb andb orb].
    replace (offset + l - 1 - offset + 1) with l by lia. rewrite u64_small by (unfold is_u64; lia).
    by rewrite Z.eqb_refl. }
  cbn [rs_done]. unfold rs_bodyBytes. rewrite P8, P2, zlen_slice by lia.
  change (bool_decide (NoError = NoError)) with true. cbn [negb andb Z.add].
  destruct (Z.eqb_spec l 0); [lia|]. cbn [andb]. rewrite u64_small by (unfold is_u64; lia). cbn [rs_retries].
  destruct (x_retries xs); cbn [resume_loop rs_done]; rewrite Z.ltb_irrefl; cbn [negb]; by eexists.
Qed.
End liveness.

(** C28: a read that the origin answers succeeds.  When the host of the reader's URL
    is permitted, the interceptor, if there is one, lets the requests to it go
    with headers that are admitted, and the origin answers in full every range it
    is asked for there with the strong entity tag of the open in [If-Range], every
    read that does not overflow returns success with all the bytes the asset has
    of the range. *)
Theorem Http_Read_succeeds {W} `{HttpWorld W} Inv Here v A `{!Origin W Inv Here v A} (r : HttpAssetReader (W := W))
    offset dst size :
  is_u64 (zlen A) -> serves Inv (hr_uri r) v A -> http_inv Inv Here v A r ->
  interceptor_admits Inv (hr_options r) (hr_uri r) -> permitted (hr_options r) (hr_uri r) ->
  is_u64 offset -> is_u64 size -> zlen dst = size -> offset + size < 2 ^ 64 ->
  exists res d r', Http_Read r offset (Some dst) size = (res, Some d, r') /\
    IsOk (rr_status res) = true /\ rr_bytesRead res = available offset size (zlen A) /\
    take (Z.to_nat (rr_bytesRead res)) d = slice A offset (rr_bytesRead res).
Proof.
  intros HA Hsv Hi Hint Hperm Ho Hs Hz Hov.
  destruct (Http_Read r offset (Some dst) size) as [[res dst'] r'] eqn:E.
  pose proof E as Ep. apply (Http_Read_post Inv Here v A HA) in Ep as (_ & d & -> & [P1 P2 P3 P4]); [|done..].
  assert (IsOk (rr_status res) = true) as Hok; [|exists res, d, r'; destruct (P4 Hok); by split_and!].
  revert E. unfold Http_Read, Http_Read_untimed. cbn [with_hmetrics hr_metadata hr_options hr_world].
  rewrite (proj1 (proj2 Hi)). destruct (ResolveReadRange_cases offset size (zlen A) Ho Hs HA) as [Eo Hc].
  set (range := ResolveReadRange offset size (zlen A)) in *. unfold is_u64 in *.
  destruct Hc as [(Hc & _)|[(Hc & Ha & -> & _)|(Hc & Ha & -> & El & Hle)]]; [lia| |].
  - rewrite bool_decide_eq_false_2, bool_decide_eq_true_2 by done. by intros [= <- <- <-].
  - rewrite !bool_decide_eq_false_2 by done.
    destruct (read_loop_serves Inv Here v A HA (hr_uri r) Hsv (with_hmetrics (AddBytesRequested size) r) offset size (rr_length range)
      (initial_retries (hr_options r)) dst) as (s' & Er); try done; try lia.
    cbn [with_hmetrics hr_options] in Er. rewrite Er. by intros [= <- <- <-].
Qed.

(** ** Open *)

(** C27: an open that succeeds binds the reader to what the server said of the
    asset at the URL the redirects ended at: the size is the one declared by the
    200 answer to a HEAD request, unambiguously, byte ranges are advertised, the
    validator is the captured one and is not contradicted by the same answer, and
    the identifier is that URL without its credentials.  The identifier parses
    back to that URL, unless the URL has neither a host nor a port to print, as
    [http://:80/a] has not: its identifier is then refused as having no host.  The
    requests sent obey the rules of every exchange. *)
Theorem Http_Open_binds {W} `{HttpWorld W} url options (w w' : W) r status :
  Http_Open url options (Some w) = (mkOpenResult (Some r) status, Some w') ->
  status = Status_Ok /\ hr_world r = w' /\
  exists u response n, ParseUri url = inr u /\ hr_origin r = u /\ uri_wf (hr_uri r) /\
    (IsSecure u = true -> IsSecure (hr_uri r) = true) /\
    evolves (request_ok options u MethodHead [] [] 0 u) n w w' /\
    (n <= Z.to_nat (ho_maxRedirects options) + 1 + initial_retries options)%nat /\
    (exists w1 rq, request_ok options u MethodHead [] [] 0 u rq /\ Perform rq w1 = (response, w')) /\
    rs_status response = 200 /\ HasConflictingDuplicate (lit "Content-Length") (rs_headers response) = false /\
    Find (lit "Content-Length") (rs_headers response) ≫= ParseContentLength = Some (am_size (hr_metadata r)) /\
    is_u64 (am_size (hr_metadata r)) /\ AdvertisesByteRanges (rs_headers response) = true /\
    am_validator (hr_metadata r) = cv_validator (CaptureValidator (rs_headers response)) /\
    ContradictsCapturedValidator (rs_headers response) (am_validator (hr_metadata r)) = false /\
    am_resolvedIdentifier (hr_metadata r) = ToIdentity (hr_uri r) /\
    ParseUri (am_resolvedIdentifier (hr_metadata r)) =
      read_back (hr_uri r) (canonical (without_userinfo (hr_uri r))).
Proof.
  unfold Http_Open. destruct (ParseUri url) as [error|u] eqn:Eu; [done|].
  destruct (PerformExchange _ _ _ _ _ _ _ _) as [x xs] eqn:Ex. unfold PerformExchange in Ex.
  apply (exchange_requests _ _ _ _ _ _ u) in Ex as (n & Hev & Hn & Hf1 & Hf2 & Hf3); [|by eapply ParseUri_wf|done].
  cbn [x_world x_retries] in *. destruct (IsOk (xr_status x)); cbn [negb]; [|done].
  destruct (Z.eqb_spec (rs_status (xr_response x)) 200) as [E200|]; cbn [negb]; [|done].
  destruct (HasConflictingDuplicate _ _) eqn:Ecd; [done|].
  destruct (Find (lit "Content-Length") _ ≫= ParseContentLength) as [sz|] eqn:El; [|done].
  destruct (AdvertisesByteRanges _) eqn:Eab; cbn [negb]; [|done].
  intros Heq. injection Heq as Hr Hs Hw'. subst status. rewrite <-Hr.
  cbn [with_hmetrics Http_new hr_world hr_origin hr_uri hr_metadata am_size am_validator am_resolvedIdentifier].
  split_and!; [done|done|]. exists u, (xr_response x), n. rewrite Hw' in *.
  destruct (CaptureValidator_spec (rs_headers (xr_response x))) as [Hcv _].
  repeat match goal with |- _ /\ _ => split end; try done.
  - lia.
  - apply Hf3. lia.
  - destruct (Find (lit "Content-Length") (rs_headers (xr_response x))); [|done]. by eapply ParseUnsigned_u64.
  - by apply ToIdentity_parse.
Qed.
