(* ===== verification/CurlTransport.v ===== *)
(** * CurlTransport: the transport over libcurl

    libs/usd-asset-http: src/CurlTransport.cpp.  The library is the class
    [LibCurl] over a world [C], which holds it, the network and the operating
    system.  A transfer is the tree of the callbacks the library makes, each with
    its continuation on what the callback returns ([CurlRun]); the callbacks are
    the source's, over the [Exchange] they share, and [run] is the transfer with
    those callbacks installed.  The pool of idle handles is the state of the
    transport; its mutex makes [Acquire_handle] and [Release_handle] one step each.

    The library delivers data in units of one byte, so [size * count] is the
    length of what is delivered.  The counters of addresses are C [int]s that one
    transfer cannot exhaust. *)

From S2P Require Import Prelude Uri Framing Destination HttpReader.

(** ** The library *)

(** The codes the source tells apart. *)
Inductive CURLcode : Type :=
| CURLE_OK | CURLE_COULDNT_RESOLVE_PROXY | CURLE_COULDNT_RESOLVE_HOST | CURLE_COULDNT_CONNECT
| CURLE_SSL_CONNECT_ERROR | CURLE_PEER_FAILED_VERIFICATION | CURLE_SSL_CIPHER | CURLE_OPERATION_TIMEDOUT
| CURLE_ABORTED_BY_CALLBACK | CURLE_PARTIAL_FILE | CURLE_RECV_ERROR | CURLE_SEND_ERROR | CURLE_GOT_NOTHING
| CURLE_UNSUPPORTED_PROTOCOL | CURLE_URL_MALFORMAT | CURLE_WEIRD_SERVER_REPLY | CURLE_TOO_LARGE
| CURLE_OUT_OF_MEMORY | CURLE_WRITE_ERROR | CURLE_OTHER (n : Z).

#[export] Instance CURLcode_eq_dec : EqDecision CURLcode.
Proof. solve_decision. Defined.

Inductive AddressFamily : Type := AF_INET | AF_INET6 | AF_OTHER.

Inductive SocketType : Type := CURLSOCKTYPE_IPCXN | CURLSOCKTYPE_ACCEPT.

(** [curl_sockaddr]; the bytes are those of [addr], [addrlen] of them valid. *)
Record SocketAddress : Type := mkSocketAddress {
  sa_family : AddressFamily;
  sa_addrlen : Z;
  sa_addr : list Z }.

(** What a transfer is told to do. *)
Record EasyOptions : Type := mkEasy {
  eo_url : str;
  eo_httpHeader : list str;
  eo_userAgent : str;
  eo_followLocation : bool;
  eo_protocols : list str;
  eo_nobody : bool;
  eo_connectTimeoutMs : Z;
  eo_timeoutMs : Z;
  eo_noSignal : bool }.

Abbreviation Handle := Z (only parsing).

(** One [curl_easy_perform].  The answer to [OpenSocket] is the address a socket
    was asked of the operating system for, [None] for [CURL_SOCKET_BAD]; whether
    the system then gave one is in the continuation.  [Progress] carries what
    [curl_easy_getinfo] answers at that moment, in microseconds, [None] where it
    fails.  [Done] carries the code, the response code and the pre-transfer time. *)
Inductive CurlRun (C : Type) : Type :=
| OpenSocket (purpose : SocketType) (address : option SocketAddress) (k : option SocketAddress -> CurlRun C)
| HeaderData (data : str) (k : Z -> CurlRun C)
| BodyData (data : bytes) (k : Z -> CurlRun C)
| Progress (totalUs pretransferUs : option Z) (k : Z -> CurlRun C)
| Done (code : CURLcode) (status pretransferUs : Z) (c : C).

Arguments OpenSocket {C}.
Arguments HeaderData {C}.
Arguments BodyData {C}.
Arguments Progress {C}.
Arguments Done {C}.

(** [curl_url_host url punycode] is what [curl_url_get] answers for the host of a
    URL that [curl_url_set] accepts; the allocations that may fail are asked
    first. *)
Class LibCurl (C : Type) : Type := {
  libcurl_version : Z;
  curl_url : C -> bool;
  curl_url_set : str -> C -> bool;
  curl_url_host : str -> bool -> C -> option str;
  curl_slist_append : list str -> str -> C -> bool;
  curl_easy_init : C -> option Handle * C;
  curl_easy_reset : Handle -> C -> C;
  curl_easy_cleanup : Handle -> C -> C;
  curl_easy_perform : Handle -> EasyOptions -> C -> CurlRun C }.

(** ** The callbacks *)

(** [ex_body] is what has been written through [body]; its length is [written]. *)
Record Exchange : Type := mkExchange {
  ex_headers : HeaderTable;
  ex_headersComplete : bool;
  ex_headerBytes : Z;
  ex_headersTooLarge : bool;
  ex_destinations : DestinationPolicy;
  ex_addressesRefused : Z;
  ex_addressesAdmitted : Z;
  ex_refusedClass : option AddressClass;
  ex_body : bytes;
  ex_capacity : Z;
  ex_overflowed : bool;
  ex_responseMs : Z;
  ex_transferMs : Z;
  ex_deadline : TransportError }.

Definition with_headers (headers : HeaderTable) (complete : bool) (e : Exchange) : Exchange :=
  mkExchange headers complete (ex_headerBytes e) (ex_headersTooLarge e) (ex_destinations e)
    (ex_addressesRefused e) (ex_addressesAdmitted e) (ex_refusedClass e) (ex_body e) (ex_capacity e)
    (ex_overflowed e) (ex_responseMs e) (ex_transferMs e) (ex_deadline e).

Definition with_headerBytes (n : Z) (tooLarge : bool) (e : Exchange) : Exchange :=
  mkExchange (ex_headers e) (ex_headersComplete e) n tooLarge (ex_destinations e)
    (ex_addressesRefused e) (ex_addressesAdmitted e) (ex_refusedClass e) (ex_body e) (ex_capacity e)
    (ex_overflowed e) (ex_responseMs e) (ex_transferMs e) (ex_deadline e).

Definition with_addresses (refused admitted : Z) (class : option AddressClass) (e : Exchange) : Exchange :=
  mkExchange (ex_headers e) (ex_headersComplete e) (ex_headerBytes e) (ex_headersTooLarge e) (ex_destinations e)
    refused admitted class (ex_body e) (ex_capacity e)
    (ex_overflowed e) (ex_responseMs e) (ex_transferMs e) (ex_deadline e).

Definition with_body (body : bytes) (overflowed : bool) (e : Exchange) : Exchange :=
  mkExchange (ex_headers e) (ex_headersComplete e) (ex_headerBytes e) (ex_headersTooLarge e) (ex_destinations e)
    (ex_addressesRefused e) (ex_addressesAdmitted e) (ex_refusedClass e) body (ex_capacity e)
    overflowed (ex_responseMs e) (ex_transferMs e) (ex_deadline e).

Definition with_deadline (deadline : TransportError) (e : Exchange) : Exchange :=
  mkExchange (ex_headers e) (ex_headersComplete e) (ex_headerBytes e) (ex_headersTooLarge e) (ex_destinations e)
    (ex_addressesRefused e) (ex_addressesAdmitted e) (ex_refusedClass e) (ex_body e) (ex_capacity e)
    (ex_overflowed e) (ex_responseMs e) (ex_transferMs e) deadline.

(** [while (line.back() is '\r' or '\n') pop_back], on the reversed line. *)
Fixpoint drop_breaks (s : str) : str :=
  match s with
  | c :: s' => if char_eqb c "013" || char_eqb c "010" then drop_breaks s' else s
  | [] => []
  end.

Definition strip_breaks (line : str) : str := rev (drop_breaks (rev line)).

(** The name and the value of a header line: [None] for a line without a colon. *)
Definition split_header (line : str) : option (str * str) :=
  match find ":" line with
  | None => None
  | Some colon => Some (take colon line, trim_front (drop (S colon) line))
  end.

(** A line that fits, once it is stripped. *)
Definition header_line (line : str) (e : Exchange) : Exchange :=
  if bool_decide (line = []) then with_headers (ex_headers e) true e
  else if starts_with (lit "HTTP/") line then with_headers [] false e
  else
    match split_header line with
    | None => e
    | Some (name, value) => with_headers (Add name value (ex_headers e)) (ex_headersComplete e) e
    end.

Definition OnHeader (data : str) (e : Exchange) : Z * Exchange :=
  let bytes := zlen data in
  if bytes >? u64 (kMaxResponseHeaderBytes - ex_headerBytes e)
  then (0, with_headerBytes (ex_headerBytes e) true e)
  else
    (bytes, header_line (strip_breaks data)
              (with_headerBytes (ex_headerBytes e + bytes) (ex_headersTooLarge e) e)).

Definition OnBody (data : bytes) (e : Exchange) : Z * Exchange :=
  let bytes := zlen data in
  let room := u64 (ex_capacity e - zlen (ex_body e)) in
  let take_ := if bytes <? room then bytes else room in
  let body := if take_ >? 0 then ex_body e ++ take (Z.to_nat take_) data else ex_body e in
  if take_ <? bytes then (take_, with_body body true e)
  else (bytes, with_body body (ex_overflowed e) e).

(** [sizeof] of the two socket addresses, and where the address is in them. *)
Definition sizeof_sockaddr_in : Z := 16.

Definition sizeof_sockaddr_in6 : Z := 28.

Definition ClassifySocketAddress (a : SocketAddress) : option AddressClass :=
  match sa_family a with
  | AF_INET =>
      if sizeof_sockaddr_in <=? sa_addrlen a then Some (ClassifyIPv4 (take 4 (drop 4 (sa_addr a)))) else None
  | AF_INET6 =>
      if sizeof_sockaddr_in6 <=? sa_addrlen a then Some (ClassifyIPv6 (take 16 (drop 8 (sa_addr a)))) else None
  | AF_OTHER => None
  end.

Definition OnOpenSocket (purpose : SocketType) (address : option SocketAddress) (e : Exchange)
    : option SocketAddress * Exchange :=
  let refuse class := (None, with_addresses (ex_addressesRefused e + 1) (ex_addressesAdmitted e) class e) in
  match purpose, address with
  | CURLSOCKTYPE_IPCXN, Some a =>
      match ClassifySocketAddress a with
      | Some class =>
          if negb (Permits (ex_destinations e) class) then refuse (Some class)
          else (Some a, with_addresses (ex_addressesRefused e) (ex_addressesAdmitted e + 1) (ex_refusedClass e) e)
      | None => refuse None
      end
  | _, _ => refuse None
  end.

Definition OnProgressWithClock (totalUs pretransferUs : option Z) (e : Exchange) : Z * Exchange :=
  match totalUs with
  | None => (0, e)
  | Some totalUs =>
      let totalMs := Z.quot totalUs 1000 in
      if (ex_transferMs e >? 0) && (totalMs >? ex_transferMs e) then
        (1, with_deadline (if ex_headersComplete e then TransferTimeout else ResponseTimeout) e)
      else if negb (ex_headersComplete e) && (ex_responseMs e >? 0) then
        match pretransferUs with
        | None => (0, e)
        | Some pretransferUs =>
            if (pretransferUs >? 0) && (Z.quot (totalUs - pretransferUs) 1000 >? ex_responseMs e)
            then (1, with_deadline ResponseTimeout e)
            else (0, e)
        end
      else (0, e)
  end.

(** What a transfer leaves: its code, what [curl_easy_getinfo] answers after it,
    the exchange and the world. *)
Record Outcome (C : Type) : Type := mkOutcome {
  oc_code : CURLcode;
  oc_status : Z;
  oc_pretransferUs : Z;
  oc_exchange : Exchange;
  oc_curl : C }.

Arguments mkOutcome {C}.
Arguments oc_code {C}.
Arguments oc_status {C}.
Arguments oc_pretransferUs {C}.
Arguments oc_exchange {C}.
Arguments oc_curl {C}.

(** [curl_easy_perform] with the callbacks installed. *)
Fixpoint run {C} (r : CurlRun C) (e : Exchange) : Outcome C :=
  match r with
  | OpenSocket purpose address k => let '(answer, e) := OnOpenSocket purpose address e in run (k answer) e
  | HeaderData data k => let '(answer, e) := OnHeader data e in run (k answer) e
  | BodyData data k => let '(answer, e) := OnBody data e in run (k answer) e
  | Progress total pretransfer k => let '(answer, e) := OnProgressWithClock total pretransfer e in run (k answer) e
  | Done code status pretransferUs c => mkOutcome code status pretransferUs e c
  end.

(** ** The request *)

(** A [std::string] handed over as a C string ends at its first NUL. *)
Definition c_str (s : str) : str := match find "000" s with Some i => take i s | None => s end.

Definition HasNonAscii (text : str) : bool := existsb (fun c => 128 <=? code c) text.

Section transport.
Context {C : Type} `{LibCurl C}.

(** The host as the client reads it, empty where it cannot. *)
Definition client_host (url : str) (c : C) : str :=
  if negb (curl_url_set (c_str url) c) then []
  else
    let host := default [] (curl_url_host (c_str url) false c) in
    if (0x075800 <=? libcurl_version) && HasNonAscii host
    then default host (curl_url_host (c_str url) true c)
    else host.

(** The class refused, if the policy refuses the host. *)
Definition PermittedByClient (url : str) (policy : DestinationPolicy) (c : C) : option AddressClass :=
  if negb (curl_url c) then None
  else
    let host := client_host url c in
    if bool_decide (host = []) then None
    else
      match ClassifyHostLiteral host with
      | Some class => if negb (Permits policy class) then Some class else None
      | None => None
      end.

Definition ClassifyCurlError (code : CURLcode) (e : Exchange) (connected : bool) : TransportError :=
  let unrecognized := if connected then ConnectionLost else ConnectFailed in
  match code with
  | CURLE_COULDNT_RESOLVE_PROXY | CURLE_COULDNT_RESOLVE_HOST | CURLE_COULDNT_CONNECT
  | CURLE_SSL_CONNECT_ERROR | CURLE_PEER_FAILED_VERIFICATION | CURLE_SSL_CIPHER => ConnectFailed
  | CURLE_OPERATION_TIMEDOUT =>
      if negb connected then ConnectTimeout
      else if ex_headersComplete e then TransferTimeout else ResponseTimeout
  | CURLE_ABORTED_BY_CALLBACK =>
      if bool_decide (ex_deadline e <> NoError) then ex_deadline e else ConnectionLost
  | CURLE_PARTIAL_FILE => IncompleteBody
  | CURLE_RECV_ERROR | CURLE_SEND_ERROR | CURLE_GOT_NOTHING => ConnectionLost
  | CURLE_UNSUPPORTED_PROTOCOL | CURLE_URL_MALFORMAT | CURLE_WEIRD_SERVER_REPLY => Malformed
  | CURLE_TOO_LARGE => if 0x080600 <=? libcurl_version then HeadersTooLarge else unrecognized
  | CURLE_OUT_OF_MEMORY => Internal
  | CURLE_OK | CURLE_WRITE_ERROR | CURLE_OTHER _ => unrecognized
  end.

(** *** The pool *)

Definition kMaxIdle : nat := 16.

(** The transport: the idle handles, the back of the vector last, and the world. *)
Record CurlTransport : Type := mkCurl {
  ct_idle : list Handle;
  ct_curl : C }.

Definition Acquire_handle (t : CurlTransport) : option Handle * CurlTransport :=
  match last (ct_idle t) with
  | Some handle => (Some handle, mkCurl (removelast (ct_idle t)) (curl_easy_reset handle (ct_curl t)))
  | None => let '(handle, c) := curl_easy_init (ct_curl t) in (handle, mkCurl (ct_idle t) c)
  end.

Definition Release_handle (handle : Handle) (t : CurlTransport) : CurlTransport :=
  if (kMaxIdle <=? length (ct_idle t))%nat
  then mkCurl (ct_idle t) (curl_easy_cleanup handle (ct_curl t))
  else mkCurl (ct_idle t ++ [handle]) (ct_curl t).

(** [~HandlePool]. *)
Definition HandlePool_close (t : CurlTransport) : C :=
  fold_left (fun c handle => curl_easy_cleanup handle c) (ct_idle t) (ct_curl t).

(** *** Perform *)

(** The lines of the request, in the order they are appended. *)
Definition request_lines (request : TransportRequest) : list str :=
  (if bool_decide (rq_range request = []) then [] else [lit "Range: " ++ rq_range request]) ++
  (if bool_decide (rq_ifRange request = []) then [] else [lit "If-Range: " ++ rq_ifRange request]) ++
  [lit "Accept-Encoding: identity"] ++
  map (fun added => rh_name added ++ lit ": " ++ rh_value added) (rq_headers request).

(** [appendHeader] on each: [None] once an append has failed. *)
Fixpoint append_headers (lines headers : list str) (c : C) : option (list str) :=
  match lines with
  | [] => Some headers
  | line :: lines' =>
      if curl_slist_append headers (c_str line) c then append_headers lines' (headers ++ [c_str line]) c else None
  end.

(** The capacity is a [std::size_t]. *)
Definition Exchange_new (request : TransportRequest) : Exchange :=
  mkExchange [] false 0 false (rq_destinations request) 0 0 None [] (u64 (rq_bodyCapacity request)) false
    (to_responseMs (rq_timeouts request)) (to_transferMs (rq_timeouts request)) NoError.

Definition easy_options (request : TransportRequest) (headers : list str) : EasyOptions :=
  mkEasy (c_str (rq_url request)) headers (c_str (rq_userAgent request)) false [lit "http"; lit "https"]
    (bool_decide (rq_method request = MethodHead)) (to_connectMs (rq_timeouts request))
    (to_transferMs (rq_timeouts request)) true.

(** The response of a transfer that ran. *)
Definition respond (o : Outcome C) : TransportResponse :=
  let code := oc_code o in
  let e := oc_exchange o in
  let connected := oc_pretransferUs o >? 0 in
  let answer headers error refused :=
    mkResponse (i32 (oc_status o)) headers (ex_body e) (ex_overflowed e) error connected refused in
  if negb (bool_decide (code = CURLE_OK)) && (ex_addressesRefused e >? 0) && (ex_addressesAdmitted e =? 0) then
    answer (ex_headers e) DestinationRefused (ex_refusedClass e)
  else if bool_decide (code = CURLE_WRITE_ERROR) && ex_headersTooLarge e then answer [] HeadersTooLarge None
  else if bool_decide (code = CURLE_WRITE_ERROR) && ex_overflowed e then answer (ex_headers e) NoError None
  else if negb (bool_decide (code = CURLE_OK)) then
    answer (ex_headers e) (ClassifyCurlError code e connected) None
  else answer (ex_headers e) NoError None.

Definition failed_response (error : TransportError) (refused : option AddressClass) : TransportResponse :=
  mkResponse 0 [] [] false error false refused.

Definition Curl_Perform (request : TransportRequest) (t : CurlTransport) : TransportResponse * CurlTransport :=
  match PermittedByClient (rq_url request) (rq_destinations request) (ct_curl t) with
  | Some class => (failed_response DestinationRefused (Some class), t)
  | None =>
      match Acquire_handle t with
      | (None, t) => (failed_response Internal None, t)
      | (Some handle, t) =>
          match append_headers (request_lines request) [] (ct_curl t) with
          | None => (failed_response Internal None, Release_handle handle t)
          | Some headers =>
              let o := run (curl_easy_perform handle (easy_options request headers) (ct_curl t)) (Exchange_new request) in
              (respond o, Release_handle handle (mkCurl (ct_idle t) (oc_curl o)))
          end
      end
  end.

End transport.

Arguments CurlTransport : clear implicits.
