(* ===== verification/CurlTransportSpec.v ===== *)
(** * CurlTransportSpec: what the transport bounds, refuses and reports

    [trace] lists the callbacks of a transfer with the answers given.  The first
    part holds whatever the library does; the second rests on [LibCurlLaws], what
    libcurl documents of the answers of its callbacks; the third is the interface
    the backend's contract is proved against: [Curl_Origin] gives [Origin] for the
    transport from what is true of the wire. *)

From S2P Require Import Prelude Validator Uri Framing Destination HttpReader HttpReaderSpec CurlTransport.

Inductive CurlEvent : Type :=
| EvSocket (purpose : SocketType) (address answer : option SocketAddress)
| EvHeader (data : str) (answer : Z)
| EvBody (data : bytes) (answer : Z)
| EvProgress (totalUs pretransferUs : option Z) (answer : Z).

Fixpoint trace {C} (r : CurlRun C) (e : Exchange) : list CurlEvent :=
  match r with
  | OpenSocket purpose address k =>
      let '(answer, e) := OnOpenSocket purpose address e in EvSocket purpose address answer :: trace (k answer) e
  | HeaderData data k => let '(answer, e) := OnHeader data e in EvHeader data answer :: trace (k answer) e
  | BodyData data k => let '(answer, e) := OnBody data e in EvBody data answer :: trace (k answer) e
  | Progress total pretransfer k =>
      let '(answer, e) := OnProgressWithClock total pretransfer e in
      EvProgress total pretransfer answer :: trace (k answer) e
  | Done _ _ _ _ => []
  end.

(** The sockets asked of the system, the bytes of the body delivered, and the
    header lines taken. *)
Definition sockets (tr : list CurlEvent) : list SocketAddress :=
  omap (fun ev => match ev with EvSocket _ _ answer => answer | _ => None end) tr.

Definition delivered (tr : list CurlEvent) : bytes :=
  concat (map (fun ev => match ev with EvBody data _ => data | _ => [] end) tr).

Definition lines_taken (tr : list CurlEvent) : list str :=
  omap (fun ev => match ev with
                  | EvHeader data answer => if answer =? zlen data then Some (strip_breaks data) else None
                  | _ => None
                  end) tr.

(** ** Whatever the library does *)

(** What the exchange holds at every callback. *)
Record exchange_ok (e : Exchange) : Prop := {
  eo_capacity : 0 <= ex_capacity e < 2 ^ 64;
  eo_body : zlen (ex_body e) <= ex_capacity e;
  eo_headerBytes : 0 <= ex_headerBytes e <= kMaxResponseHeaderBytes;
  eo_headers : zsum (fun '(name, value) => zlen name + 1 + zlen value) (ex_headers e) <= ex_headerBytes e;
  eo_counts : 0 <= ex_addressesRefused e /\ 0 <= ex_addressesAdmitted e }.

Lemma zlen_take_le {A} (n : nat) (l : list A) : zlen (take n l) <= zlen l.
Proof. unfold zlen. rewrite length_take. lia. Qed.

Lemma zlen_drop_breaks s : zlen (drop_breaks s) <= zlen s.
Proof. induction s as [|c s IH]; [done|]. cbn [drop_breaks]. destruct (_ || _); unfold zlen in *; simpl in *; lia. Qed.

Lemma zlen_strip_breaks s : zlen (strip_breaks s) <= zlen s.
Proof. unfold strip_breaks. pose proof (zlen_drop_breaks (rev s)) as H. unfold zlen in *. rewrite length_rev in *. lia. Qed.

Lemma zlen_trim_front s : zlen (trim_front s) <= zlen s.
Proof. induction s as [|c s IH]; [done|]. cbn [trim_front]. destruct (IsSpace c); unfold zlen in *; simpl in *; lia. Qed.

Lemma split_header_length line name value :
  split_header line = Some (name, value) -> zlen name + 1 + zlen value <= zlen line.
Proof.
  unfold split_header. destruct (find ":" line) as [colon|] eqn:E; [|done]. intros [= <- <-].
  apply find_lt in E. pose proof (zlen_trim_front (drop (S colon) line)) as Ht.
  unfold zlen in *. rewrite length_take, length_drop in *. lia.
Qed.

(** What [header_line] does to the table. *)
Lemma header_line_headers line e :
  ex_headers (header_line line e) =
    if starts_with (lit "HTTP/") line then [] else ex_headers e ++ omap split_header [line].
Proof.
  unfold header_line. destruct (bool_decide_reflect (line = [])) as [->|Hne]; [by rewrite app_nil_r|].
  destruct (starts_with _ line); [done|]. cbn [omap list_omap].
  destruct (split_header line) as [[name value]|]; [done|by rewrite app_nil_r].
Qed.

Lemma room_eq e : exchange_ok e -> u64 (ex_capacity e - zlen (ex_body e)) = ex_capacity e - zlen (ex_body e).
Proof. intros []. apply u64_small. unfold is_u64. pose proof (zlen_nonneg (ex_body e)). lia. Qed.

Lemma header_room_eq e :
  exchange_ok e -> u64 (kMaxResponseHeaderBytes - ex_headerBytes e) = kMaxResponseHeaderBytes - ex_headerBytes e.
Proof. intros []. apply u64_small. unfold is_u64, kMaxResponseHeaderBytes in *. lia. Qed.

(** *** The header callback *)

Lemma OnHeader_cases data e :
  exchange_ok e ->
  (OnHeader data e = (0, with_headerBytes (ex_headerBytes e) true e) /\
   kMaxResponseHeaderBytes - ex_headerBytes e < zlen data) \/
  (zlen data <= kMaxResponseHeaderBytes - ex_headerBytes e /\
   OnHeader data e = (zlen data, header_line (strip_breaks data)
                        (with_headerBytes (ex_headerBytes e + zlen data) (ex_headersTooLarge e) e))).
Proof.
  intros Hok. unfold OnHeader. rewrite header_room_eq by done. rewrite Z.gtb_ltb.
  destruct (Z.ltb_spec (kMaxResponseHeaderBytes - ex_headerBytes e) (zlen data)); [left|right]; split; try done; lia.
Qed.

(** The fields [header_line] leaves alone. *)
Lemma header_line_frame line e :
  let e' := header_line line e in
  ex_headerBytes e' = ex_headerBytes e /\ ex_headersTooLarge e' = ex_headersTooLarge e /\
  ex_destinations e' = ex_destinations e /\ ex_addressesRefused e' = ex_addressesRefused e /\
  ex_addressesAdmitted e' = ex_addressesAdmitted e /\ ex_refusedClass e' = ex_refusedClass e /\
  ex_body e' = ex_body e /\ ex_capacity e' = ex_capacity e /\ ex_overflowed e' = ex_overflowed e /\
  ex_responseMs e' = ex_responseMs e /\ ex_transferMs e' = ex_transferMs e /\ ex_deadline e' = ex_deadline e.
Proof.
  unfold header_line. destruct (bool_decide _); [done|]. destruct (starts_with _ _); [done|].
  by destruct (split_header line) as [[??]|].
Qed.

Lemma OnHeader_ok data e answer e' : exchange_ok e -> OnHeader data e = (answer, e') -> exchange_ok e'.
Proof.
  intros Hok. pose proof Hok as [H1 H2 H3 H4 H5]. destruct (OnHeader_cases data e Hok) as [[-> _]|[Hle ->]]; intros [= <- <-].
  { by split. }
  set (e1 := with_headerBytes _ _ e). pose proof (header_line_frame (strip_breaks data) e1) as F. cbv zeta in F.
  pose proof (header_line_headers (strip_breaks data) e1) as Hh. pose proof (zlen_nonneg data).
  set (e2 := header_line _ _) in *. destruct F as (F1 & _ & _ & F4 & F5 & _ & F7 & F8 & _).
  split; [rewrite F8; exact H1|rewrite F7, F8; exact H2|rewrite F1; cbn; lia| |rewrite F4, F5; exact H5].
  rewrite F1, Hh. cbn [e1 with_headerBytes ex_headers ex_headerBytes].
  destruct (starts_with _ _); [simpl; lia|]. rewrite zsum_app. cbn [omap list_omap].
  destruct (split_header (strip_breaks data)) as [[name value]|] eqn:Es; [|simpl; lia].
  apply split_header_length in Es. pose proof (zlen_strip_breaks data). unfold zsum at 2. simpl. lia.
Qed.

(** *** The body callback *)

Lemma take_take_app {A} (n : nat) (a b c : list A) : take n (take n (a ++ b) ++ c) = take n (a ++ b ++ c).
Proof.
  rewrite app_assoc. destruct (decide (length (a ++ b) <= n)%nat).
  - by rewrite (take_ge (a ++ b)) by done.
  - rewrite take_app_le by (rewrite length_take; lia). rewrite take_take, Nat.min_id.
    by rewrite (take_app_le (a ++ b)) by lia.
Qed.

Lemma OnBody_eq data e :
  exchange_ok e ->
  let total := zlen (ex_body e) + zlen data in
  OnBody data e =
    ((if ex_capacity e <? total then ex_capacity e - zlen (ex_body e) else zlen data),
     with_body (take (Z.to_nat (ex_capacity e)) (ex_body e ++ data))
       (ex_overflowed e || (ex_capacity e <? total)) e).
Proof.
  intros Hok total. pose proof (room_eq e Hok) as Hroom. destruct Hok as [H1 H2 _ _ _]. unfold OnBody. rewrite Hroom.
  pose proof (zlen_nonneg (ex_body e)). pose proof (zlen_nonneg data). set (room := ex_capacity e - zlen (ex_body e)).
  assert (forall n, 0 <= n -> n <= room -> n <= zlen data -> (n = room \/ n = zlen data) ->
    (if n >? 0 then ex_body e ++ take (Z.to_nat n) data else ex_body e) =
    take (Z.to_nat (ex_capacity e)) (ex_body e ++ data)) as Hbody.
  { intros n Hn Hr Hd Hor. rewrite take_app. rewrite (take_ge (ex_body e)) by (unfold zlen in *; lia).
    assert (take (Z.to_nat (ex_capacity e) - length (ex_body e)) data = take (Z.to_nat n) data) as ->.
    { destruct Hor as [->| ->]; unfold room, zlen in *; [f_equal; lia|]. rewrite !take_ge; [done|lia|lia]. }
    rewrite Z.gtb_ltb. destruct (Z.ltb_spec 0 n); [done|]. replace n with 0 by lia. by rewrite app_nil_r. }
  unfold total. destruct (Z.ltb_spec (zlen data) room).
  - rewrite Z.ltb_irrefl, Hbody by lia. destruct (Z.ltb_spec (ex_capacity e) (zlen (ex_body e) + zlen data)); [lia|].
    by rewrite orb_false_r.
  - rewrite Hbody by lia. destruct (Z.ltb_spec room (zlen data)).
    + destruct (Z.ltb_spec (ex_capacity e) (zlen (ex_body e) + zlen data)); [|lia]. by rewrite orb_true_r.
    + destruct (Z.ltb_spec (ex_capacity e) (zlen (ex_body e) + zlen data)); [lia|]. by rewrite orb_false_r.
Qed.

Lemma OnBody_ok data e answer e' : exchange_ok e -> OnBody data e = (answer, e') -> exchange_ok e'.
Proof.
  intros Hok. rewrite OnBody_eq by done. intros [= <- <-]. destruct Hok as [H1 H2 H3 H4 H5]. split; cbn; try done.
  unfold zlen. rewrite length_take. lia.
Qed.

(** *** The two others *)

Lemma OnOpenSocket_frame purpose address e answer e' :
  OnOpenSocket purpose address e = (answer, e') ->
  exists refused admitted class, e' = with_addresses refused admitted class e /\
    ex_addressesRefused e + ex_addressesAdmitted e + 1 = refused + admitted /\
    match answer with
    | Some a => admitted = ex_addressesAdmitted e + 1 /\ purpose = CURLSOCKTYPE_IPCXN /\ address = Some a /\
        exists c, ClassifySocketAddress a = Some c /\ Permits (ex_destinations e) c = true
    | None => refused = ex_addressesRefused e + 1
    end.
Proof.
  unfold OnOpenSocket. destruct purpose; [destruct address as [a|]|].
  1: destruct (ClassifySocketAddress a) as [class|] eqn:Ec; [destruct (Permits _ _) eqn:Ep|]; cbn [negb].
  all: intros [= <- <-]; do 3 eexists; (split; [reflexivity|]); split; try lia.
  split_and!; try done. by exists class.
Qed.

Lemma OnOpenSocket_ok purpose address e answer e' :
  exchange_ok e -> OnOpenSocket purpose address e = (answer, e') -> exchange_ok e'.
Proof.
  intros [H1 H2 H3 H4 H5] (r & a & c & -> & Hs & Hm)%OnOpenSocket_frame. split; cbn; try done.
  destruct answer; [destruct Hm as (-> & _)|subst]; lia.
Qed.

Lemma OnProgress_frame total pretransfer e answer e' :
  OnProgressWithClock total pretransfer e = (answer, e') ->
  (answer = 0 /\ e' = e) \/
  (answer = 1 /\ e' = with_deadline (if ex_headersComplete e then TransferTimeout else ResponseTimeout) e).
Proof.
  unfold OnProgressWithClock. destruct total as [total|]; [|intros [= <- <-]; by left].
  destruct (_ && _); [intros [= <- <-]; by right|]. destruct (ex_headersComplete e); cbn [negb andb]; [intros [= <- <-]; by left|].
  destruct (ex_responseMs e >? 0); [|intros [= <- <-]; by left].
  destruct pretransfer; [|intros [= <- <-]; by left]. destruct (_ && _); intros [= <- <-]; [by right|by left].
Qed.

Lemma OnProgress_ok total pretransfer e answer e' :
  exchange_ok e -> OnProgressWithClock total pretransfer e = (answer, e') -> exchange_ok e'.
Proof. intros [] [[_ ->]|[_ ->]]%OnProgress_frame; by split. Qed.

(** *** A transfer *)

Inductive callback (e : Exchange) : CurlEvent -> Exchange -> Prop :=
| cb_socket purpose address answer e' :
    OnOpenSocket purpose address e = (answer, e') -> callback e (EvSocket purpose address answer) e'
| cb_header data answer e' : OnHeader data e = (answer, e') -> callback e (EvHeader data answer) e'
| cb_body data answer e' : OnBody data e = (answer, e') -> callback e (EvBody data answer) e'
| cb_progress total pretransfer answer e' :
    OnProgressWithClock total pretransfer e = (answer, e') -> callback e (EvProgress total pretransfer answer) e'.

Inductive callbacks : Exchange -> list CurlEvent -> Exchange -> Prop :=
| cbs_nil e : callbacks e [] e
| cbs_cons e ev e1 tr e2 : callback e ev e1 -> callbacks e1 tr e2 -> callbacks e (ev :: tr) e2.

#[local] Hint Constructors callback callbacks : core.

Lemma run_callbacks {C} (r : CurlRun C) e : callbacks e (trace r e) (oc_exchange (run r e)).
Proof.
  revert e. induction r as [p a k IH|d k IH|d k IH|t p k IH|code s p c]; intros e; cbn [run trace]; [| | | |constructor].
  - destruct (OnOpenSocket p a e) as [answer e1] eqn:E. eauto.
  - destruct (OnHeader d e) as [answer e1] eqn:E. eauto.
  - destruct (OnBody d e) as [answer e1] eqn:E. eauto.
  - destruct (OnProgressWithClock t p e) as [answer e1] eqn:E. eauto.
Qed.

Lemma callback_ok e ev e' : exchange_ok e -> callback e ev e' -> exchange_ok e'.
Proof. destruct 2; eauto using OnOpenSocket_ok, OnHeader_ok, OnBody_ok, OnProgress_ok. Qed.

Lemma callbacks_ok e tr e' : exchange_ok e -> callbacks e tr e' -> exchange_ok e'.
Proof. intros Hok. induction 1; eauto using callback_ok. Qed.

(** The table a list of stripped lines leaves. *)
Definition table (headers : HeaderTable) (lines : list str) : HeaderTable :=
  fold_left (fun h line => if starts_with (lit "HTTP/") line then [] else h ++ omap split_header [line]) lines headers.

(** What one callback does to each part of the exchange. *)
Lemma callback_effect e ev e' :
  exchange_ok e -> callback e ev e' ->
  ex_capacity e' = ex_capacity e /\ ex_destinations e' = ex_destinations e /\
  ex_body e' = take (Z.to_nat (ex_capacity e)) (ex_body e ++ delivered [ev]) /\
  ex_overflowed e' = ex_overflowed e || (ex_capacity e <? zlen (ex_body e) + zlen (delivered [ev])) /\
  ex_headers e' = table (ex_headers e) (lines_taken [ev]) /\
  ex_addressesAdmitted e' = ex_addressesAdmitted e + zlen (sockets [ev]) /\
  Forall (fun a => exists c, ClassifySocketAddress a = Some c /\ Permits (ex_destinations e) c = true) (sockets [ev]).
Proof.
  intros Hok. assert (take (Z.to_nat (ex_capacity e)) (ex_body e ++ []) = ex_body e) as Ht.
  { destruct Hok as [H1 H2 _ _ _]. rewrite app_nil_r, take_ge; [done|unfold zlen in *; lia]. }
  assert (ex_overflowed e = ex_overflowed e || (ex_capacity e <? zlen (ex_body e) + 0)) as Hov.
  { destruct Hok as [_ H2 _ _ _]. destruct (Z.ltb_spec (ex_capacity e) (zlen (ex_body e) + 0)); [lia|by rewrite orb_false_r]. }
  destruct 1 as [p a answer e' E|d answer e' E|d answer e' E|t p answer e' E].
  - apply OnOpenSocket_frame in E as (r & ad & c & -> & Hs & Hm). cbn.
    destruct answer as [s|]; cbn [sockets omap list_omap].
    + destruct Hm as (-> & _ & _ & Hp). split_and!; try done; repeat constructor; done.
    + subst r. replace ad with (ex_addressesAdmitted e) by lia. split_and!; done || (symmetry; apply Z.add_0_r).
  - destruct (OnHeader_cases d e Hok) as [[E1 Hgt]|[Hle E1]]; rewrite E1 in E; injection E as <- <-.
    + pose proof (eo_headerBytes _ Hok). assert (0 =? zlen d = false) as Hz by (apply Z.eqb_neq; lia).
      unfold lines_taken. cbn [omap list_omap]. rewrite Hz. cbn. split_and!; done || (symmetry; apply Z.add_0_r).
    + pose proof (header_line_frame (strip_breaks d)
        (with_headerBytes (ex_headerBytes e + zlen d) (ex_headersTooLarge e) e)) as F. cbv zeta in F.
      pose proof (header_line_headers (strip_breaks d)
        (with_headerBytes (ex_headerBytes e + zlen d) (ex_headersTooLarge e) e)) as Hh.
      set (e2 := header_line _ _) in *. destruct F as (_ & _ & F3 & _ & F5 & _ & F7 & F8 & F9 & _).
      rewrite F3, F5, F7, F8, F9, Hh. unfold lines_taken. cbn [omap list_omap]. rewrite Z.eqb_refl.
      cbn. split_and!; done || (symmetry; apply Z.add_0_r).
  - rewrite OnBody_eq in E by done. injection E as <- <-. cbn. rewrite app_nil_r. split_and!; done || (symmetry; apply Z.add_0_r).
  - apply OnProgress_frame in E as [[-> ->] | [-> ->]]; cbn; split_and!; done || (symmetry; apply Z.add_0_r).
Qed.

Lemma delivered_cons ev tr : delivered (ev :: tr) = delivered [ev] ++ delivered tr.
Proof. unfold delivered. cbn [map concat]. by rewrite app_nil_r. Qed.

Lemma omap_cons_app {A B} (f : A -> option B) x l : omap f (x :: l) = omap f [x] ++ omap f l.
Proof. cbn. by destruct (f x). Qed.

Lemma table_app headers a b : table headers (a ++ b) = table (table headers a) b.
Proof. apply fold_left_app. Qed.

Lemma callbacks_effect e tr e' :
  exchange_ok e -> callbacks e tr e' ->
  ex_capacity e' = ex_capacity e /\ ex_destinations e' = ex_destinations e /\
  ex_body e' = take (Z.to_nat (ex_capacity e)) (ex_body e ++ delivered tr) /\
  ex_overflowed e' = ex_overflowed e || (ex_capacity e <? zlen (ex_body e) + zlen (delivered tr)) /\
  ex_headers e' = table (ex_headers e) (lines_taken tr) /\
  ex_addressesAdmitted e' = ex_addressesAdmitted e + zlen (sockets tr) /\
  Forall (fun a => exists c, ClassifySocketAddress a = Some c /\ Permits (ex_destinations e) c = true) (sockets tr).
Proof.
  intros Hok Htr. induction Htr as [e|e ev e1 tr e2 Hcb Htr IH].
  - pose proof Hok as [H1 H2 _ _ _]. cbn. rewrite app_nil_r, take_ge by (unfold zlen in *; lia).
    rewrite Z.add_0_r. destruct (Z.ltb_spec (ex_capacity e) (zlen (ex_body e))); [lia|].
    rewrite orb_false_r, Z.add_0_r. split_and!; done.
  - pose proof (callback_effect _ _ _ Hok Hcb) as (A1 & A2 & A3 & A4 & A5 & A6 & A7).
    destruct (IH (callback_ok _ _ _ Hok Hcb)) as (B1 & B2 & B3 & B4 & B5 & B6 & B7).
    rewrite A1 in *. rewrite A2 in *. rewrite delivered_cons. unfold sockets, lines_taken in *.
    rewrite omap_cons_app, (omap_cons_app _ ev tr), table_app, !zlen_app.
    split_and!; try done.
    + by rewrite B3, A3, take_take_app.
    + rewrite B4, A4, A3, <-orb_assoc. f_equal. destruct Hok as [H1 H2 _ _ _].
      pose proof (zlen_nonneg (delivered tr)). unfold zlen in *. rewrite length_take, length_app. zbool.
    + by rewrite B5, A5.
    + rewrite B6, A6. lia.
    + by apply Forall_app.
Qed.

(** The header block is what follows the last status line. *)
Abbreviation status_line := (fun line => starts_with (lit "HTTP/") line = true).

Lemma table_plain headers block :
  Forall (fun line => ~ status_line line) block -> table headers block = headers ++ omap split_header block.
Proof.
  revert headers. induction block as [|line block IH]; intros headers Hb; [by rewrite app_nil_r|].
  apply Forall_cons in Hb as [Hl Hb]. unfold table. cbn [fold_left]. apply not_true_is_false in Hl. rewrite Hl.
  fold (table (headers ++ omap split_header [line]) block). rewrite IH by done.
  by rewrite (omap_cons_app _ line block), app_assoc.
Qed.

Lemma table_block headers pre s block :
  status_line s -> Forall (fun line => ~ status_line line) block ->
  table headers (pre ++ s :: block) = omap split_header block.
Proof.
  intros Hs Hb. rewrite table_app. unfold table at 1. cbn [fold_left]. rewrite Hs.
  fold (table [] block). by rewrite table_plain.
Qed.

(** The policy permits connecting to the address. *)
Definition admissible (policy : DestinationPolicy) (a : SocketAddress) : Prop :=
  exists c, ClassifySocketAddress a = Some c /\ Permits policy c = true.

Section transport_spec.
Context {C : Type} `{LibCurl C}.

(** The callbacks of a request. *)
Definition Curl_trace (request : TransportRequest) (t : CurlTransport C) : list CurlEvent :=
  match PermittedByClient (rq_url request) (rq_destinations request) (ct_curl t) with
  | Some _ => []
  | None =>
      match Acquire_handle t with
      | (None, _) => []
      | (Some handle, t) =>
          match append_headers (request_lines request) [] (ct_curl t) with
          | None => []
          | Some headers =>
              trace (curl_easy_perform handle (easy_options request headers) (ct_curl t)) (Exchange_new request)
          end
      end
  end.

Lemma Exchange_new_ok request : exchange_ok (Exchange_new request).
Proof.
  pose proof (u64_is_u64 (rq_bodyCapacity request)) as Hc. unfold is_u64 in Hc.
  split; cbn; unfold zlen, kMaxResponseHeaderBytes; simpl; lia.
Qed.

(** A request is refused before a handle runs, or it is one transfer. *)
Lemma Curl_Perform_cases request t :
  (Curl_trace request t = [] /\
   exists error class, fst (Curl_Perform request t) = failed_response error class /\ error <> NoError /\
     error <> HeadersTooLarge /\ error <> ResponseTimeout /\ error <> TransferTimeout) \/
  (exists handle headers c,
     let r := curl_easy_perform handle (easy_options request headers) c in
     PermittedByClient (rq_url request) (rq_destinations request) (ct_curl t) = None /\
     append_headers (request_lines request) [] c = Some headers /\
     Curl_trace request t = trace r (Exchange_new request) /\
     fst (Curl_Perform request t) = respond (run r (Exchange_new request))).
Proof.
  unfold Curl_trace, Curl_Perform. destruct (PermittedByClient _ _ _) as [class|] eqn:Ep.
  { left. split; [done|]. by eexists _, _. }
  destruct (Acquire_handle t) as [[handle|] t1]; [|left; split; [done|]; by eexists _, _].
  destruct (append_headers _ _ _) as [headers|] eqn:Ea; [|left; split; [done|]; by eexists _, _].
  right. exists handle, headers, (ct_curl t1). done.
Qed.

Lemma respond_body (o : Outcome C) :
  rs_body (respond o) = ex_body (oc_exchange o) /\ rs_bodyOverflowed (respond o) = ex_overflowed (oc_exchange o) /\
  rs_status (respond o) = i32 (oc_status o) /\
  (rs_headers (respond o) = ex_headers (oc_exchange o) \/
   rs_error (respond o) = HeadersTooLarge /\ rs_headers (respond o) = []).
Proof. unfold respond. repeat match goal with |- context [if ?b then _ else _] => destruct b end; split_and!; auto. Qed.

Lemma Curl_Perform_bounds request t :
  let r := fst (Curl_Perform request t) in
  let tr := Curl_trace request t in
  let capacity := u64 (rq_bodyCapacity request) in
  rs_body r = take (Z.to_nat capacity) (delivered tr) /\
  (rs_bodyOverflowed r = true <-> capacity < zlen (delivered tr)) /\
  zsum (fun '(name, value) => zlen name + 1 + zlen value) (rs_headers r) <= kMaxResponseHeaderBytes /\
  (rs_headers r = table [] (lines_taken tr) \/ rs_error r = HeadersTooLarge /\ rs_headers r = []) /\
  Forall (admissible (rq_destinations request)) (sockets tr).
Proof.
  intros r tr capacity. unfold r, tr. pose proof (u64_is_u64 (rq_bodyCapacity request)) as Hc. fold capacity in Hc. unfold is_u64 in Hc.
  destruct (Curl_Perform_cases request t) as [(-> & error & class & -> & _)|(handle & headers & c & _ & _ & -> & ->)].
  { cbn. rewrite take_nil. split_and!; try done; [|by left]. change (zlen (@nil ascii)) with 0. split; [done|lia]. }
  set (run0 := curl_easy_perform _ _ _). pose proof (run_callbacks run0 (Exchange_new request)) as Hcb.
  pose proof (Exchange_new_ok request) as Hok. pose proof (callbacks_ok _ _ _ Hok Hcb) as [_ _ Hk1 Hk2 _].
  apply callbacks_effect in Hcb as (_ & _ & B3 & B4 & B5 & _ & B7); [|done].
  destruct (respond_body (run run0 (Exchange_new request))) as (R1 & R2 & _ & R4).
  rewrite R1, R2. cbn [Exchange_new ex_body ex_overflowed ex_capacity ex_headers ex_destinations app orb] in *. fold capacity in B3, B4.
  split_and!; [done| | | |exact B7].
  - rewrite B4, Z.ltb_lt. change (zlen (@nil ascii)) with 0. by rewrite Z.add_0_l.
  - destruct R4 as [->|[_ ->]]; [lia|]. unfold kMaxResponseHeaderBytes. simpl. lia.
  - by rewrite <-B5.
Qed.

(** C22: the transport is bounded and keeps to the policy whatever libcurl and the
    server do.  The body handed up is the first [bodyCapacity] bytes of what was
    delivered, and the flag says whether there was more; the names and values of
    the headers handed up fit in 64 KiB; they are those of the last header block
    only, or none at all; and every socket asked of the system is for an address
    whose class the request's policy permits. *)
Theorem Curl_Perform_bounded request t :
  is_u64 (rq_bodyCapacity request) ->
  let r := fst (Curl_Perform request t) in
  let tr := Curl_trace request t in
  rs_body r = take (Z.to_nat (rq_bodyCapacity request)) (delivered tr) /\
  (rs_bodyOverflowed r = true <-> rq_bodyCapacity request < zlen (delivered tr)) /\
  zsum (fun '(name, value) => zlen name + 1 + zlen value) (rs_headers r) <= kMaxResponseHeaderBytes /\
  (forall pre s block, lines_taken tr = pre ++ s :: block -> status_line s ->
     Forall (fun line => ~ status_line line) block ->
     rs_headers r = omap split_header block \/ rs_error r = HeadersTooLarge /\ rs_headers r = []) /\
  Forall (admissible (rq_destinations request)) (sockets tr).
Proof.
  intros Hc r tr. destruct (Curl_Perform_bounds request t) as (B1 & B2 & B3 & B4 & B5). rewrite u64_small in B1, B2 by done.
  split_and!; try done. intros pre s block Hl Hs Hb. destruct B4 as [B4|B4]; [left|by right]. fold tr r in B4.
  by rewrite B4, Hl, table_block.
Qed.
End transport_spec.

(** ** What libcurl documents of its callbacks *)

(** A transfer that has been aborted: it may still report progress, and it ends
    with [code]. *)
Inductive ends {C} (code : CURLcode) : CurlRun C -> Prop :=
| ends_done status pretransferUs c : ends code (Done code status pretransferUs c)
| ends_progress total pretransfer k : (forall n, ends code (k n)) -> ends code (Progress total pretransfer k).

(** Where the transfer stands with the addresses it has offered: none yet, none
    and data arrived (it reuses a connection), only refused ones, or one that was
    admitted. *)
Inductive Connection : Type := ConnUnasked | ConnReused | ConnRefused | ConnAdmitted.

Definition conn_after (conn : Connection) (answer : option SocketAddress) : Connection :=
  match answer, conn with
  | Some _, _ | None, ConnAdmitted => ConnAdmitted
  | None, _ => ConnRefused
  end.

Definition conn_data (conn : Connection) : Connection :=
  match conn with ConnUnasked => ConnReused | _ => conn end.

(** The answer of a data callback that asks for a pause. *)
Definition CURL_WRITEFUNC_PAUSE : Z := 0x10000001.

(** A data callback that does not take all it is given, and does not ask for a
    pause, ends the transfer with [CURLE_WRITE_ERROR]; it is given far less than
    the number that asks for one ([CURL_MAX_WRITE_SIZE]).  A progress callback
    that returns non-zero ends the transfer with [CURLE_ABORTED_BY_CALLBACK], and
    a transfer all of whose addresses were refused delivers nothing and fails.
    That a transfer which has received data on a connection it reuses opens no
    other is how libcurl behaves, and not in its documentation. *)
Inductive honours {C} : Connection -> CurlRun C -> Prop :=
| hn_socket conn purpose address k :
    conn <> ConnReused -> (forall answer, honours (conn_after conn answer) (k answer)) ->
    honours conn (OpenSocket purpose address k)
| hn_header conn data k :
    conn <> ConnRefused -> honours (conn_data conn) (k (zlen data)) ->
    (forall n, n <> zlen data -> n <> CURL_WRITEFUNC_PAUSE -> ends CURLE_WRITE_ERROR (k n)) -> honours conn (HeaderData data k)
| hn_body conn data k :
    conn <> ConnRefused -> zlen data < CURL_WRITEFUNC_PAUSE -> honours (conn_data conn) (k (zlen data)) ->
    (forall n, n <> zlen data -> n <> CURL_WRITEFUNC_PAUSE -> ends CURLE_WRITE_ERROR (k n)) -> honours conn (BodyData data k)
| hn_progress conn total pretransfer k :
    honours conn (k 0) -> (forall n, n <> 0 -> ends CURLE_ABORTED_BY_CALLBACK (k n)) ->
    honours conn (Progress total pretransfer k)
| hn_done conn code status pretransferUs c :
    (conn = ConnRefused -> code <> CURLE_OK) -> honours conn (Done code status pretransferUs c).

Class LibCurlLaws (C : Type) `{LibCurl C} : Prop := {
  curl_honours : forall handle options c, honours ConnUnasked (curl_easy_perform handle options c) }.

(** *** What the callbacks cut short *)

Definition header_cut (ev : CurlEvent) : bool :=
  match ev with EvHeader data n => negb (n =? zlen data) | _ => false end.

Definition body_cut (ev : CurlEvent) : bool :=
  match ev with EvBody data n => negb (n =? zlen data) | _ => false end.

Definition progress_cut (ev : CurlEvent) : bool :=
  match ev with EvProgress _ _ n => negb (n =? 0) | _ => false end.

Definition is_socket (ev : CurlEvent) : bool :=
  match ev with EvSocket _ _ _ => true | _ => false end.

(** Addresses were offered and none was admitted. *)
Definition all_refused (tr : list CurlEvent) : bool := existsb is_socket tr && bool_decide (sockets tr = []).

(** Whether the lines end the block they are of. *)
Definition block_ended (complete : bool) (lines : list str) : bool :=
  fold_left (fun complete line =>
    if bool_decide (line = []) then true else if starts_with (lit "HTTP/") line then false else complete) lines complete.

Lemma header_line_complete line e :
  ex_headersComplete (header_line line e) = block_ended (ex_headersComplete e) [line].
Proof.
  unfold header_line, block_ended. cbn [fold_left]. destruct (bool_decide _); [done|]. destruct (starts_with _ _); [done|].
  by destruct (split_header line) as [[??]|].
Qed.

Lemma callback_flags e ev e' :
  exchange_ok e -> callback e ev e' ->
  ex_headersTooLarge e' = ex_headersTooLarge e || header_cut ev /\
  ex_overflowed e' = ex_overflowed e || body_cut ev /\
  ex_headersComplete e' = block_ended (ex_headersComplete e) (lines_taken [ev]) /\
  ex_addressesRefused e' + ex_addressesAdmitted e' =
    ex_addressesRefused e + ex_addressesAdmitted e + Z.b2z (is_socket ev).
Proof.
  intros Hok. destruct 1 as [p a answer e' E|d answer e' E|d answer e' E|t p answer e' E].
  - apply OnOpenSocket_frame in E as (r & ad & c & -> & Hs & Hm). cbn. rewrite !orb_false_r. split_and!; done || lia.
  - destruct (OnHeader_cases d e Hok) as [[E1 Hgt]|[Hle E1]]; rewrite E1 in E; injection E as <- <-.
    + pose proof (eo_headerBytes _ Hok). assert ((0 =? zlen d) = false) as Hz by (apply Z.eqb_neq; lia).
      unfold lines_taken. cbn [omap list_omap header_cut body_cut is_socket]. rewrite Hz. cbn. rewrite orb_true_r, orb_false_r.
      split_and!; done || lia.
    + pose proof (header_line_complete (strip_breaks d)
        (with_headerBytes (ex_headerBytes e + zlen d) (ex_headersTooLarge e) e)) as Hc.
      pose proof (header_line_frame (strip_breaks d)
        (with_headerBytes (ex_headerBytes e + zlen d) (ex_headersTooLarge e) e)) as F. cbv zeta in F.
      set (e2 := header_line _ _) in *. destruct F as (_ & F2 & _ & F4 & F5 & _ & _ & _ & F9 & _).
      rewrite F2, F4, F5, F9, Hc. unfold lines_taken. cbn [omap list_omap header_cut body_cut is_socket]. rewrite Z.eqb_refl.
      cbn [negb]. rewrite !orb_false_r. split_and!; try done. cbn. lia.
  - rewrite OnBody_eq in E by done. injection E as <- <-. cbn [header_cut body_cut is_socket lines_taken omap list_omap].
    cbn [with_body ex_headersTooLarge ex_overflowed ex_headersComplete ex_addressesRefused ex_addressesAdmitted].
    rewrite orb_false_r. split_and!; try done; [|simpl; lia]. f_equal.
    destruct (Z.ltb_spec (ex_capacity e) (zlen (ex_body e) + zlen d)).
    + symmetry. apply negb_true_iff, Z.eqb_neq. lia.
    + by rewrite Z.eqb_refl.
  - apply OnProgress_frame in E as [[-> ->] | [-> ->]]; cbn; rewrite !orb_false_r; split_and!; done || lia.
Qed.

Lemma callbacks_flags e tr e' :
  exchange_ok e -> callbacks e tr e' ->
  ex_headersTooLarge e' = ex_headersTooLarge e || existsb header_cut tr /\
  ex_overflowed e' = ex_overflowed e || existsb body_cut tr /\
  ex_headersComplete e' = block_ended (ex_headersComplete e) (lines_taken tr) /\
  ((existsb is_socket tr = true -> ex_addressesRefused e + ex_addressesAdmitted e < ex_addressesRefused e' + ex_addressesAdmitted e') /\
   (existsb is_socket tr = false -> ex_addressesRefused e + ex_addressesAdmitted e = ex_addressesRefused e' + ex_addressesAdmitted e')).
Proof.
  intros Hok Htr. induction Htr as [e|e ev e1 tr e2 Hcb Htr IH].
  { cbn. rewrite !orb_false_r. split_and!; done. }
  destruct (callback_flags _ _ _ Hok Hcb) as (A1 & A2 & A3 & A4).
  destruct (IH (callback_ok _ _ _ Hok Hcb)) as (B1 & B2 & B3 & B4 & B5). cbn [existsb].
  unfold lines_taken in *. rewrite (omap_cons_app _ ev tr). unfold block_ended in *. rewrite fold_left_app, <-A3.
  rewrite B1, B2, A1, A2, !orb_assoc. split_and!; try done.
  - destruct (existsb is_socket tr); [specialize (B4 eq_refl)|specialize (B5 eq_refl)]; destruct (is_socket ev); simpl in *; try done; lia.
  - destruct (existsb is_socket tr); [by rewrite orb_true_r|]. specialize (B5 eq_refl). destruct (is_socket ev); [done|]. simpl in *. lia.
Qed.

(** *** Transfers of a library that honours its callbacks *)

Definition conn_ok (conn : Connection) (e : Exchange) : Prop :=
  match conn with
  | ConnUnasked | ConnReused => ex_addressesRefused e = 0 /\ ex_addressesAdmitted e = 0
  | ConnRefused => 0 < ex_addressesRefused e /\ ex_addressesAdmitted e = 0
  | ConnAdmitted => 0 < ex_addressesAdmitted e
  end.

(** The deadline a progress callback notes. *)
Definition deadline_of (e : Exchange) : TransportError :=
  if ex_headersComplete e then TransferTimeout else ResponseTimeout.

Lemma ends_run {C} code (r : CurlRun C) e :
  ends code r ->
  oc_code (run r e) = code /\
  (exists d, oc_exchange (run r e) = with_deadline d e /\ (d = ex_deadline e \/ d = deadline_of e)) /\
  existsb header_cut (trace r e) = false /\ existsb body_cut (trace r e) = false /\ existsb is_socket (trace r e) = false.
Proof.
  intros Hr. revert e. induction Hr as [s p c|t p k Hk IH]; intros e; cbn [run trace].
  { split_and!; try done. exists (ex_deadline e). split; [by destruct e|by left]. }
  destruct (OnProgressWithClock t p e) as [answer e1] eqn:E. cbn [existsb header_cut body_cut is_socket orb].
  destruct (IH answer e1) as (I1 & (d & I2 & I3) & I4). split_and!; try apply I4; [done|]. exists d. rewrite I2.
  apply OnProgress_frame in E as [[-> ->] | [-> ->]]; [done|]. split; [done|]. right. destruct I3 as [-> | ->]; done.
Qed.

(** The transfer after an aborting callback that left [e1]. *)
Record aborted {C} (code : CURLcode) (r : CurlRun C) (e1 : Exchange) : Prop := {
  ab_code : oc_code (run r e1) = code;
  ab_headers : existsb header_cut (trace r e1) = false;
  ab_body : existsb body_cut (trace r e1) = false;
  ab_counts : ex_addressesRefused (oc_exchange (run r e1)) = ex_addressesRefused e1 /\
              ex_addressesAdmitted (oc_exchange (run r e1)) = ex_addressesAdmitted e1;
  ab_deadline : ex_deadline e1 = deadline_of e1 ->
    ex_deadline (oc_exchange (run r e1)) = deadline_of (oc_exchange (run r e1)) }.

Lemma ends_aborted {C} code (r : CurlRun C) e : ends code r -> aborted code r e.
Proof.
  intros Hr. destruct (ends_run _ _ e Hr) as (H1 & (d & H2 & H3) & H4 & H5 & _).
  split; try done; rewrite H2; [done|]. cbn. intros Hd. destruct H3 as [-> | ->]; done.
Qed.

Lemma conn_ok_socket conn purpose address e answer e1 :
  exchange_ok e -> conn_ok conn e -> OnOpenSocket purpose address e = (answer, e1) -> conn_ok (conn_after conn answer) e1.
Proof.
  intros [_ _ _ _ [H1 H2]] Hc (r & a & class & -> & Hs & Hm)%OnOpenSocket_frame.
  destruct answer as [s|]; [destruct Hm as (-> & _)|subst r]; destruct conn; cbn in *; lia.
Qed.

Lemma conn_ok_frame conn e e1 :
  ex_addressesRefused e1 = ex_addressesRefused e -> ex_addressesAdmitted e1 = ex_addressesAdmitted e ->
  conn_ok conn e -> conn_ok conn e1.
Proof. intros E1 E2. destruct conn; cbn; by rewrite ?E1, ?E2. Qed.

Lemma data_counts e ev e1 :
  exchange_ok e -> callback e ev e1 -> is_socket ev = false ->
  ex_addressesRefused e1 = ex_addressesRefused e /\ ex_addressesAdmitted e1 = ex_addressesAdmitted e.
Proof.
  intros Hok Hcb Hs. pose proof (callback_effect _ _ _ Hok Hcb) as (_ & _ & _ & _ & _ & A & _).
  destruct (callback_flags _ _ _ Hok Hcb) as (_ & _ & _ & B). rewrite Hs in B. cbn in B.
  assert (sockets [ev] = []) as Hn by by destruct ev. rewrite Hn in A. change (zlen (@nil SocketAddress)) with 0 in A. lia.
Qed.

(** The connection of the exchange is one whose addresses were all refused. *)
Definition shut_out (e : Exchange) : bool := (ex_addressesRefused e >? 0) && (ex_addressesAdmitted e =? 0).

Lemma conn_not_shut conn e : conn <> ConnRefused -> exchange_ok e -> conn_ok conn e -> shut_out e = false.
Proof.
  intros Hn [_ _ _ _ [H1 H2]]. unfold shut_out. rewrite Z.gtb_ltb. destruct conn; cbn; [intros [-> ->]|intros [-> ->]|done|intros Ha].
  1, 2: done.
  - destruct (Z.eqb_spec (ex_addressesAdmitted e) 0); [lia|]. by rewrite andb_false_r.
Qed.

(** What the code and the exchange of a transfer say of its callbacks. *)
Record honest {C} (tr : list CurlEvent) (o : Outcome C) : Prop := {
  hs_header : existsb header_cut tr = true ->
    oc_code o = CURLE_WRITE_ERROR /\ existsb body_cut tr = false /\ shut_out (oc_exchange o) = false;
  hs_body : existsb body_cut tr = true ->
    oc_code o = CURLE_WRITE_ERROR /\ existsb header_cut tr = false /\ shut_out (oc_exchange o) = false;
  hs_progress : existsb progress_cut tr = true -> existsb header_cut tr = false -> existsb body_cut tr = false ->
    oc_code o = CURLE_ABORTED_BY_CALLBACK /\ ex_deadline (oc_exchange o) = deadline_of (oc_exchange o);
  hs_shut : shut_out (oc_exchange o) = true ->
    oc_code o <> CURLE_OK /\ lines_taken tr = [] /\ delivered tr = [] }.

Lemma lines_taken_cons ev tr : lines_taken (ev :: tr) = lines_taken [ev] ++ lines_taken tr.
Proof. apply omap_cons_app. Qed.

(** A callback that took everything. *)
Lemma honest_cons {C} ev tr (o : Outcome C) :
  header_cut ev = false -> body_cut ev = false -> progress_cut ev = false ->
  (shut_out (oc_exchange o) = true -> lines_taken [ev] = [] /\ delivered [ev] = []) ->
  honest tr o -> honest (ev :: tr) o.
Proof.
  intros H1 H2 H3 Hs [A1 A2 A3 A4]. split; cbn [existsb]; rewrite ?H1, ?H2, ?H3; try done.
  intros Hsh. rewrite lines_taken_cons, delivered_cons. destruct (A4 Hsh) as (? & -> & ->).
  destruct (Hs Hsh) as [-> ->]. done.
Qed.

(** One that did not. *)
Lemma honest_cut {C} ev code (r : CurlRun C) e1 :
  header_cut ev || body_cut ev = true -> header_cut ev && body_cut ev = false -> code = CURLE_WRITE_ERROR ->
  shut_out e1 = false -> aborted code r e1 -> honest (ev :: trace r e1) (run r e1).
Proof.
  intros Hor Hand -> Hsh [A1 A2 A3 [A4 A5] _].
  assert (shut_out (oc_exchange (run r e1)) = false) as Hs by (unfold shut_out in *; by rewrite A4, A5).
  split; cbn [existsb]; rewrite ?A2, ?A3, ?Hs, ?orb_false_r; [| | |done].
  all: destruct (header_cut ev), (body_cut ev); done.
Qed.

Lemma honest_stop {C} ev (r : CurlRun C) e1 :
  header_cut ev = false -> body_cut ev = false -> lines_taken [ev] = [] -> delivered [ev] = [] ->
  ex_deadline e1 = deadline_of e1 -> ends CURLE_ABORTED_BY_CALLBACK r -> honest (ev :: trace r e1) (run r e1).
Proof.
  intros H1 H2 H3 H4 Hd Hr. pose proof (ends_aborted _ _ e1 Hr) as [A1 A2 A3 _ A5].
  split; cbn [existsb]; rewrite ?H1, ?H2, ?A2, ?A3; try done.
  - intros _ _ _. split; [done|by apply A5].
  - intros _. rewrite A1. split; [done|]. rewrite lines_taken_cons, delivered_cons, H3, H4. cbn [app].
    clear -Hr. revert e1. induction Hr as [s p c|t p k Hk IH]; intros e1; [done|]. cbn [trace].
    destruct (OnProgressWithClock t p e1) as [answer e2]. rewrite lines_taken_cons, delivered_cons.
    destruct (IH answer e2) as [-> ->]. done.
Qed.

(** The two data callbacks. *)
Lemma honest_data {C} conn ev (d : str) answer (k : Z -> CurlRun C) e e1 :
  is_socket ev = false -> progress_cut ev = false -> header_cut ev || body_cut ev = negb (answer =? zlen d) ->
  header_cut ev && body_cut ev = false -> conn <> ConnRefused -> exchange_ok e -> conn_ok conn e -> callback e ev e1 ->
  (forall e, exchange_ok e -> conn_ok (conn_data conn) e ->
     honest (trace (k (zlen d)) e) (run (k (zlen d)) e) /\
     (conn_data conn = ConnReused \/ conn_data conn = ConnAdmitted -> shut_out (oc_exchange (run (k (zlen d)) e)) = false)) ->
  (answer <> zlen d -> ends CURLE_WRITE_ERROR (k answer)) ->
  honest (ev :: trace (k answer) e1) (run (k answer) e1) /\ shut_out (oc_exchange (run (k answer) e1)) = false.
Proof.
  intros Hsock Hprog Hor Hand Hn Hok Hc Hcb IH Hcut. pose proof (callback_ok _ _ _ Hok Hcb) as Hok1.
  destruct (data_counts _ _ _ Hok Hcb Hsock) as [D1 D2]. pose proof (conn_ok_frame conn _ _ D1 D2 Hc) as Hc1.
  destruct (Z.eqb_spec answer (zlen d)) as [-> |Hne]; cbn [negb] in Hor.
  - apply orb_false_iff in Hor as [H1 H2]. destruct (IH e1 Hok1) as [I1 I2]; [by destruct conn|].
    assert (shut_out (oc_exchange (run (k (zlen d)) e1)) = false) as Hs by (apply I2; destruct conn; cbn; auto; done).
    split; [|done]. apply honest_cons; try done. by rewrite Hs.
  - pose proof (ends_aborted _ _ e1 (Hcut Hne)) as Hab. assert (shut_out e1 = false) as Hs by by eapply conn_not_shut.
    split; [by eapply honest_cut|]. destruct Hab as [_ _ _ [A4 A5] _]. unfold shut_out in *. by rewrite A4, A5.
Qed.

Lemma honours_honest {C} conn (r : CurlRun C) :
  honours conn r -> forall e, exchange_ok e -> conn_ok conn e ->
  honest (trace r e) (run r e) /\
  (conn = ConnReused \/ conn = ConnAdmitted -> shut_out (oc_exchange (run r e)) = false).
Proof.
  induction 1 as [conn p a k Hn Hk IH|conn d k Hn Hk IH Hcut|conn d k Hn Hd Hk IH Hcut|conn t p k Hk IH Hcut|conn code s p c Hcode];
    intros e Hok Hc; cbn [run trace].
  - destruct (OnOpenSocket p a e) as [answer e1] eqn:E. pose proof (conn_ok_socket _ _ _ _ _ _ Hok Hc E) as Hc1.
    destruct (IH answer e1 (OnOpenSocket_ok _ _ _ _ _ Hok E) Hc1) as [I1 I2]. split; [by apply honest_cons|].
    intros [-> | ->]; [done|]. apply I2. right. by destruct answer.
  - destruct (OnHeader d e) as [answer e1] eqn:E.
    destruct (honest_data conn (EvHeader d answer) d answer k e e1) as [I1 I2]; try done; [by cbn; rewrite orb_false_r|by cbn; rewrite andb_false_r|by constructor|].
    intros Hne. apply Hcut; [done|]. destruct (OnHeader_cases d e Hok) as [[E1 _]|[_ E1]]; rewrite E1 in E; by injection E as <- <-.
  - destruct (OnBody d e) as [answer e1] eqn:E.
    destruct (honest_data conn (EvBody d answer) d answer k e e1) as [I1 I2]; try done; [by constructor|].
    intros Hne. apply Hcut; [done|]. rewrite OnBody_eq in E by done. injection E as <- <-.
    destruct (Z.ltb_spec (ex_capacity e) (zlen (ex_body e) + zlen d)); lia.
  - destruct (OnProgressWithClock t p e) as [answer e1] eqn:E. pose proof (cb_progress _ _ _ _ _ E) as Hcb.
    pose proof (callback_ok _ _ _ Hok Hcb) as Hok1. destruct (data_counts _ _ _ Hok Hcb eq_refl) as [D1 D2].
    pose proof (conn_ok_frame conn _ _ D1 D2 Hc) as Hc1. apply OnProgress_frame in E as [[-> ->] | [-> ->]].
    + destruct (IH e Hok Hc) as [I1 I2]. split; [|done]. by apply honest_cons.
    + assert (ends CURLE_ABORTED_BY_CALLBACK (k 1)) as He by by apply Hcut. split; [by apply honest_stop|].
      intros Hr. destruct (ends_aborted _ _ (with_deadline (if ex_headersComplete e then TransferTimeout else ResponseTimeout) e) He)
        as [_ _ _ [A4 A5] _]. unfold shut_out. rewrite A4, A5.
      eapply (conn_not_shut conn); [|exact Hok1|exact Hc1]. by destruct Hr as [-> | ->].
  - split; [|intros Hr; eapply (conn_not_shut conn); [by destruct Hr as [-> | ->]|done|done]].
    split; try done. cbn. intros Hs. split_and!; try done. apply Hcode. destruct conn; [| |done|];
      rewrite (fun H => conn_not_shut _ e H Hok Hc) in Hs; done.
Qed.

Lemma callbacks_deadline e tr e' :
  exchange_ok e -> callbacks e tr e' ->
  ex_deadline e' = ex_deadline e \/ ex_deadline e' = ResponseTimeout \/ ex_deadline e' = TransferTimeout.
Proof.
  intros Hok Htr. induction Htr as [e|e ev e1 tr e2 Hcb Htr IH]; [by left|].
  destruct (IH (callback_ok _ _ _ Hok Hcb)) as [-> |]; [|by right]. destruct Hcb as [p a answer e1 E|d answer e1 E|d answer e1 E|t p answer e1 E].
  - apply OnOpenSocket_frame in E as (? & ? & ? & -> & _). by left.
  - destruct (OnHeader_cases d e Hok) as [[E1 _]|[_ E1]]; rewrite E1 in E; injection E as <- <-; [by left|].
    left. destruct (header_line_frame (strip_breaks d) (with_headerBytes (ex_headerBytes e + zlen d) (ex_headersTooLarge e) e))
      as (_ & _ & _ & _ & _ & _ & _ & _ & _ & _ & _ & ->). done.
  - rewrite OnBody_eq in E by done. injection E as <- <-. by left.
  - apply OnProgress_frame in E as [[_ ->] | [_ ->]]; [by left|]. right. cbn. destruct (ex_headersComplete e); auto.
Qed.

Section transport_errors.
Context {C : Type} `{LibCurlLaws C}.

(** The exchange of a request after its transfer. *)
Lemma transfer_end request (r : CurlRun C) :
  let tr := trace r (Exchange_new request) in
  let e := oc_exchange (run r (Exchange_new request)) in
  ex_headersTooLarge e = existsb header_cut tr /\ ex_overflowed e = existsb body_cut tr /\
  ex_headersComplete e = block_ended false (lines_taken tr) /\ shut_out e = all_refused tr /\
  ex_addressesAdmitted e = zlen (sockets tr) /\
  (ex_deadline e = NoError \/ ex_deadline e = ResponseTimeout \/ ex_deadline e = TransferTimeout).
Proof.
  intros tr e. pose proof (Exchange_new_ok request) as Hok.
  pose proof (run_callbacks r (Exchange_new request)) as Hcb. pose proof (callbacks_deadline _ _ _ Hok Hcb) as Hd.
  pose proof (callbacks_ok _ _ _ Hok Hcb) as [_ _ _ _ [K1 K2]].
  destruct (callbacks_flags _ _ _ Hok Hcb) as (F1 & F2 & F3 & F4 & F5).
  apply callbacks_effect in Hcb as (_ & _ & _ & _ & _ & B6 & _); [|done]. fold tr in F1, F2, F3, F4, F5, B6.
  fold e in Hd, K1, K2, F1, F2, F3, F4, F5, B6.
  cbn in F1, F2, F3, F4, F5, B6. rewrite Z.add_0_l in B6. split_and!; try done. unfold shut_out, all_refused. rewrite Z.gtb_ltb, B6.
  assert (bool_decide (sockets tr = []) = (zlen (sockets tr) =? 0)) as ->.
  { destruct (sockets tr); [done|]. rewrite bool_decide_eq_false_2 by done. symmetry. apply Z.eqb_neq. unfold zlen. simpl. lia. }
  destruct (Z.eqb_spec (zlen (sockets tr)) 0) as [Hz|]; [|by rewrite !andb_false_r]. rewrite !andb_true_r.
  destruct (existsb is_socket tr); [specialize (F4 eq_refl); apply Z.ltb_lt|specialize (F5 eq_refl); apply Z.ltb_ge]; lia.
Qed.

Lemma ClassifyCurlError_reached code e connected :
  ex_deadline e = NoError \/ ex_deadline e = ResponseTimeout \/ ex_deadline e = TransferTimeout ->
  ClassifyCurlError code e connected <> DestinationRefused.
Proof.
  intros Hd. unfold ClassifyCurlError. destruct code; try done; repeat case_match; try done.
  destruct Hd as [-> | [-> | ->]]; done.
Qed.

Lemma Curl_Perform_reports request t :
  let r := fst (Curl_Perform request t) in
  let tr := Curl_trace request t in
  (existsb header_cut tr = true -> rs_error r = HeadersTooLarge /\ rs_headers r = []) /\
  (existsb body_cut tr = true -> rs_error r = NoError) /\
  (all_refused tr = true -> rs_error r = DestinationRefused /\ lines_taken tr = [] /\ delivered tr = []) /\
  (rs_error r = DestinationRefused -> sockets tr = []) /\
  (existsb progress_cut tr = true -> existsb header_cut tr = false -> existsb body_cut tr = false ->
   all_refused tr = false ->
   rs_error r = if block_ended false (lines_taken tr) then TransferTimeout else ResponseTimeout).
Proof.
  intros r tr. unfold r, tr.
  destruct (Curl_Perform_cases request t) as [(-> & error & class & -> & _)|(handle & headers & c & _ & _ & -> & ->)].
  { cbn. split_and!; done. }
  set (run0 := curl_easy_perform _ _ _). destruct (honours_honest ConnUnasked run0 (curl_honours _ _ _) _
    (Exchange_new_ok request) (conj eq_refl eq_refl)) as [[A1 A2 A3 A4] _].
  destruct (transfer_end request run0) as (T1 & T2 & T3 & T4 & T5 & T6). cbv zeta in *.
  set (o := run run0 _) in *. set (tr0 := trace run0 _) in *. unfold respond. fold (shut_out (oc_exchange o)).
  rewrite <-andb_assoc. fold (shut_out (oc_exchange o)). rewrite T1, T2, T4.
  split_and!.
  - intros Hh. destruct (A1 Hh) as (-> & _ & Hs). rewrite <-T4, Hs, Hh. done.
  - intros Hb. destruct (A2 Hb) as (-> & Hh & Hs). rewrite <-T4, Hs, Hh, Hb. done.
  - intros Hr. rewrite Hr. rewrite T4 in A4. destruct (A4 Hr) as (Hne & -> & ->). by rewrite bool_decide_eq_false_2.
  - destruct (negb _ && all_refused tr0) eqn:E.
    { apply andb_true_iff in E as [_ E]. unfold all_refused in E. apply andb_true_iff in E as [_ E].
      intros _. by apply bool_decide_eq_true in E. }
    destruct (_ && existsb header_cut tr0); [done|]. destruct (_ && existsb body_cut tr0); [done|].
    destruct (negb _); [|done]. cbn [rs_error]. by intros []%ClassifyCurlError_reached.
  - intros Hp Hh Hb Hr. destruct (A3 Hp Hh Hb) as [-> Hd]. rewrite Hr, Hh, Hb. cbn.
    rewrite Hd. unfold deadline_of. rewrite T3. by destruct (block_ended _ _).
Qed.
End transport_errors.

(** ** The transport behind the backend *)

(** The host's interceptor, and the steady clock. *)
Class CurlHost (C : Type) : Type := {
  host_intercept : InterceptedRequest -> C -> option (bool * list RequestHeader) * C;
  host_clock : C -> Z }.

#[export] Instance Curl_world {C} `{LibCurl C} `{CurlHost C} : HttpWorld (CurlTransport C) := {
  Perform := Curl_Perform;
  CallInterceptor view t := let '(answer, c) := host_intercept view (ct_curl t) in (answer, mkCurl (ct_idle t) c);
  steady_clock t := host_clock (ct_curl t) }.

(** ** The log of a library

    [Logged C] is the library [C] with a log of the callbacks it makes, whose
    answers it is given.  [Curl_Perform] runs on it as on any other, so what it
    leaves in the log is what the transport let the library do. *)

Definition Logged (C : Type) : Type := C * list CurlEvent.

Fixpoint logged {C} (r : CurlRun C) (log : list CurlEvent) : CurlRun (Logged C) :=
  match r with
  | OpenSocket purpose address k =>
      OpenSocket purpose address (fun answer => logged (k answer) (log ++ [EvSocket purpose address answer]))
  | HeaderData data k => HeaderData data (fun answer => logged (k answer) (log ++ [EvHeader data answer]))
  | BodyData data k => BodyData data (fun answer => logged (k answer) (log ++ [EvBody data answer]))
  | Progress total pretransfer k =>
      Progress total pretransfer (fun answer => logged (k answer) (log ++ [EvProgress total pretransfer answer]))
  | Done code status pretransferUs c => Done code status pretransferUs (c, log)
  end.

#[export] Instance Logged_lib {C} `{LibCurl C} : LibCurl (Logged C) := {
  libcurl_version := libcurl_version;
  curl_url c := curl_url (fst c);
  curl_url_set url c := curl_url_set url (fst c);
  curl_url_host url punycode c := curl_url_host url punycode (fst c);
  curl_slist_append headers line c := curl_slist_append headers line (fst c);
  curl_easy_init c := let '(handle, c0) := curl_easy_init (fst c) in (handle, (c0, snd c));
  curl_easy_reset handle c := (curl_easy_reset handle (fst c), snd c);
  curl_easy_cleanup handle c := (curl_easy_cleanup handle (fst c), snd c);
  curl_easy_perform handle options c := logged (curl_easy_perform handle options (fst c)) (snd c) }.

#[export] Instance Logged_host {C} `{CurlHost C} : CurlHost (Logged C) := {
  host_intercept view c := let '(answer, c0) := host_intercept view (fst c) in (answer, (c0, snd c));
  host_clock c := host_clock (fst c) }.

Lemma logged_trace {C} (r : CurlRun C) log e :
  trace (logged r log) e = trace r e /\ snd (oc_curl (run (logged r log) e)) = log ++ trace r e.
Proof.
  revert log e. induction r as [p a k IH|d k IH|d k IH|t p k IH|code s p c]; intros log e; cbn [logged run trace];
    [destruct (OnOpenSocket p a e) as [answer e1]|destruct (OnHeader d e) as [answer e1]|
     destruct (OnBody d e) as [answer e1]|destruct (OnProgressWithClock t p e) as [answer e1]|by rewrite app_nil_r].
  all: match goal with |- context [logged _ ?l] => destruct (IH answer l e1) as [-> ->] end; by rewrite <-app_assoc.
Qed.

Section exchanges.
Context {C : Type} `{LibCurl C} `{CurlHost C}.

Abbreviation log t := (snd (ct_curl t)).

Lemma Acquire_handle_log (t : CurlTransport (Logged C)) : log (snd (Acquire_handle t)) = log t.
Proof. unfold Acquire_handle. destruct (last _); [done|]. cbn. by destruct (curl_easy_init _). Qed.

Lemma Release_handle_log handle (t : CurlTransport (Logged C)) : log (Release_handle handle t) = log t.
Proof. unfold Release_handle. by destruct (_ <=? _)%nat. Qed.

(** What a request adds to the log is its trace. *)
Lemma Curl_Perform_log request (t : CurlTransport (Logged C)) :
  log (snd (Curl_Perform request t)) = log t ++ Curl_trace request t.
Proof.
  unfold Curl_Perform, Curl_trace. destruct (PermittedByClient _ _ _); [by rewrite app_nil_r|].
  pose proof (Acquire_handle_log t) as Ha. destruct (Acquire_handle t) as [[handle|] t1]; cbn [snd] in *; [|by rewrite Ha, app_nil_r].
  destruct (append_headers _ _ _) as [headers|]; cbn [snd]; rewrite Release_handle_log; [|by rewrite Ha, app_nil_r].
  cbn [ct_curl curl_easy_perform Logged_lib].
  destruct (logged_trace (curl_easy_perform handle (easy_options request headers) (fst (ct_curl t1))) (log t1) (Exchange_new request)) as [-> ->].
  by rewrite Ha.
Qed.

(** The requests of a policy, one after the other. *)
Lemma evolves_log P policy n (t t' : CurlTransport (Logged C)) :
  (forall rq, P rq -> rq_destinations rq = policy) -> evolves P n t t' ->
  exists events, log t' = log t ++ events /\ Forall (admissible policy) (sockets events).
Proof.
  intros HP. induction 1 as [|n w w' rq Hev IH Hrq|n w w' view Hev IH].
  - exists []. by rewrite app_nil_r.
  - destruct IH as (events & E & Hs). exists (events ++ Curl_trace rq w'). split.
    + cbn [Perform Curl_world]. by rewrite Curl_Perform_log, E, app_assoc.
    + unfold sockets. rewrite omap_app. apply Forall_app. split; [done|].
      destruct (Curl_Perform_bounds rq w') as (_ & _ & _ & _ & Hb). by rewrite (HP rq Hrq) in Hb.
  - destruct IH as (events & E & Hs). exists events. split; [|done]. rewrite <-E. cbn.
    by destruct (host_intercept view (fst (ct_curl w'))).
Qed.

(** C5: the destination policy holds for a whole exchange, redirects, retries and
    the interceptor's turns included.  Take any client library and let it log the
    callbacks it makes: whatever it does and wherever a name resolves to, every
    socket the exchange let it open is for an address whose class the policy
    permits.  Each request of the exchange satisfies the rules of the backend, and
    a request to a host that the client itself reads as an address of a refused
    class is answered with that refusal and touches neither the library nor the
    pool: no handle is taken and nothing is sent. *)
Theorem exchange_destinations {S} `{RequestSink S} options origin method range ifRange capacity start
    (s : XState (W := CurlTransport (Logged C)) (S := S)) x s' :
  uri_wf start ->
  PerformExchange options origin method range ifRange capacity start s = (x, s') ->
  (exists events, log (x_world s') = log (x_world s) ++ events /\
     Forall (admissible (ho_destinations options)) (sockets events)) /\
  exists n, evolves (fun rq => request_ok options origin method range ifRange capacity start rq /\
      forall (t : CurlTransport (Logged C)) class,
        PermittedByClient (rq_url rq) (ho_destinations options) (ct_curl t) = Some class ->
        Curl_Perform rq t = (failed_response DestinationRefused (Some class), t)) n (x_world s) (x_world s').
Proof.
  intros Hw E. eapply (exchange_requests _ _ _ _ _ _ start) in E as (n & Hev & _); [|done|done].
  assert (forall rq, request_ok options origin method range ifRange capacity start rq -> rq_destinations rq = ho_destinations options) as Hd
    by by intros rq (u & headers & -> & _).
  split; [by eapply evolves_log|]. exists n. eapply evolves_mono; [|exact Hev]. intros rq Hrq. split; [done|].
  intros t class Ec. unfold Curl_Perform. by rewrite (Hd rq Hrq), Ec.
Qed.
End exchanges.

(** What is true of the wire: [A] is published under the strong entity tag [v] at
    the URLs [Here], and redirects stay there; a transfer keeps the invariant; and
    the bytes it delivers with a [206] to a request at such a URL with [v] in
    [If-Range] are those of [A] its [Content-Range] names, unless its headers name
    another entity tag or length. *)
Class WireOrigin (C : Type) `{LibCurlLaws C} `{CurlHost C} (Inv : C -> Prop) (Here : Uri -> Prop) (v : Validator) (A : bytes)
    : Prop := {
  wo_strong : v_kind v = EntityTag /\ v_strength v = Strong /\ v_value v <> [];
  wo_init : forall c, Inv c -> Inv (snd (curl_easy_init c));
  wo_reset : forall handle c, Inv c -> Inv (curl_easy_reset handle c);
  wo_cleanup : forall handle c, Inv c -> Inv (curl_easy_cleanup handle c);
  wo_intercept : forall view c, Inv c -> Inv (snd (host_intercept view c));
  wo_transfer : forall handle options c e, Inv c -> exchange_ok e ->
    Inv (oc_curl (run (curl_easy_perform handle options c) e));
  wo_redirect : forall handle options c e u location target, Inv c -> exchange_ok e ->
    Here u -> eo_url options = c_str (ToString u) ->
    let r := curl_easy_perform handle options c in
    let headers := table [] (lines_taken (trace r e)) in
    IsRedirect (i32 (oc_status (run r e))) = true -> existsb header_cut (trace r e) = false ->
    Find (lit "Location") headers = Some location -> ResolveReference u location = inr target -> Here target;
  wo_partial : forall handle options c e u cr, Inv c -> exchange_ok e ->
    Here u -> eo_url options = c_str (ToString u) -> eo_nobody options = false ->
    c_str (lit "If-Range: " ++ v_value v) ∈ eo_httpHeader options ->
    let r := curl_easy_perform handle options c in
    let headers := table [] (lines_taken (trace r e)) in
    i32 (oc_status (run r e)) = 206 -> existsb header_cut (trace r e) = false ->
    ContradictsCapturedValidator headers v = false ->
    Find (lit "Content-Range") headers ≫= ParseContentRange = Some cr -> cr_unsatisfied cr = false ->
    (cr_hasCompleteLength cr = true -> cr_completeLength cr = zlen A) ->
    delivered (trace r e) = slice A (cr_first cr) (zlen (delivered (trace r e))) }.

Section origin.
Context {C : Type} `{LibCurlLaws C} `{CurlHost C} (Inv : C -> Prop) (Here : Uri -> Prop) (v : Validator) (A : bytes).
Context `{!WireOrigin C Inv Here v A}.

Definition transport_inv (t : CurlTransport C) : Prop := Inv (ct_curl t).

Lemma Acquire_handle_inv t : transport_inv t -> transport_inv (snd (Acquire_handle t)).
Proof.
  unfold transport_inv, Acquire_handle. intros Hi. destruct (last (ct_idle t)); [by apply wo_reset|].
  pose proof (wo_init _ Hi). by destruct (curl_easy_init _).
Qed.

Lemma Release_handle_inv handle t : transport_inv t -> transport_inv (Release_handle handle t).
Proof. unfold transport_inv, Release_handle. intros Hi. destruct (_ <=? _)%nat; [by apply wo_cleanup|done]. Qed.

Lemma Curl_Perform_inv request t : transport_inv t -> transport_inv (snd (Curl_Perform request t)).
Proof.
  intros Hi. unfold Curl_Perform. destruct (PermittedByClient _ _ _); [done|].
  pose proof (Acquire_handle_inv t Hi) as Ha. destruct (Acquire_handle t) as [[handle|] t1]; [|done].
  destruct (append_headers _ _ _); [|by apply Release_handle_inv]. apply Release_handle_inv.
  apply wo_transfer; [exact Ha|apply Exchange_new_ok].
Qed.

Lemma append_headers_eq lines headers (c : C) l :
  append_headers lines headers c = Some l -> l = headers ++ map c_str lines.
Proof.
  revert headers. induction lines as [|line lines IH]; intros headers; cbn [append_headers map].
  - intros [= <-]. by rewrite app_nil_r.
  - destruct (curl_slist_append _ _ _); [|done]. intros ->%IH. by rewrite <-app_assoc.
Qed.

(** A response with a header comes from one transfer, whose header block was not
    cut. *)
Lemma Curl_Perform_transfer request t name value :
  transport_inv t -> Find name (rs_headers (fst (Curl_Perform request t))) = Some value ->
  exists handle c, Inv c /\
    let r := curl_easy_perform handle (easy_options request (map c_str (request_lines request))) c in
    let tr := trace r (Exchange_new request) in
    Curl_trace request t = tr /\ existsb header_cut tr = false /\
    rs_headers (fst (Curl_Perform request t)) = table [] (lines_taken tr) /\
    rs_status (fst (Curl_Perform request t)) = i32 (oc_status (run r (Exchange_new request))).
Proof.
  intros Hi Hf. destruct (Curl_Perform_bounds request t) as (_ & _ & _ & B4 & _).
  destruct (Curl_Perform_reports request t) as (E1 & _).
  destruct B4 as [B4|[_ B4]]; [|by rewrite B4 in Hf].
  assert (existsb header_cut (Curl_trace request t) = false) as Hcut.
  { destruct (existsb header_cut _) eqn:E; [|done]. destruct (E1 eq_refl) as [_ En]. by rewrite En in Hf. }
  rewrite B4. clear B4 E1. unfold Curl_trace, Curl_Perform in *. destruct (PermittedByClient _ _ _); [done|].
  pose proof (Acquire_handle_inv t Hi) as Ha. destruct (Acquire_handle t) as [[handle|] t1]; [|done].
  destruct (append_headers _ _ _) as [headers|] eqn:Eh; [|done]. apply append_headers_eq in Eh as ->. cbn [app] in *.
  exists handle, (ct_curl t1). split_and!; try done. cbn [fst]. apply respond_body.
Qed.

Lemma Curl_Perform_partial request t u cr :
  transport_inv t -> Here u -> rq_url request = ToString u -> rq_method request = MethodGet -> rq_ifRange request = v_value v ->
  let r := fst (Curl_Perform request t) in
  rs_status r = 206 -> ContradictsCapturedValidator (rs_headers r) v = false ->
  Find (lit "Content-Range") (rs_headers r) ≫= ParseContentRange = Some cr -> cr_unsatisfied cr = false ->
  (cr_hasCompleteLength cr = true -> cr_completeLength cr = zlen A) -> rs_bodyOverflowed r = false ->
  rs_body r = slice A (cr_first cr) (zlen (rs_body r)).
Proof.
  intros Hi Hu Hurl Hm Hif r Hs Hv Hf Hus Hl Ho. destruct (Find (lit "Content-Range") (rs_headers r)) as [text|] eqn:Et; [|done].
  destruct (Curl_Perform_bounds request t) as (B1 & B2 & _).
  destruct (Curl_Perform_transfer request t _ _ Hi Et) as (handle & c & Hc & Etr & Hcut & Hh & Hst). cbv zeta in *. fold r in Hh, Hst.
  assert (rs_body r = delivered (Curl_trace request t)) as ->.
  { unfold r. rewrite B1. apply take_ge. assert (~ u64 (rq_bodyCapacity request) < zlen (delivered (Curl_trace request t))) as Hn
      by (rewrite <-B2; fold r; by rewrite Ho).
    pose proof (u64_is_u64 (rq_bodyCapacity request)) as Hc'. unfold is_u64, zlen in *. lia. }
  rewrite Etr. rewrite Hh in Hv, Et.
  eapply (wo_partial (WireOrigin := _) handle _ c (Exchange_new request) u); try done.
  - apply Exchange_new_ok.
  - cbn. by rewrite Hurl.
  - cbn. by rewrite Hm.
  - cbn [easy_options eo_httpHeader]. change (map c_str ?l) with (c_str <$> l).
    apply list_elem_of_fmap. exists (lit "If-Range: " ++ v_value v). split; [done|]. unfold request_lines.
    rewrite Hif, (bool_decide_eq_false_2 (v_value v = [])) by apply wo_strong. set_solver.
  - by rewrite <-Hst.
  - by rewrite Et.
Qed.

Lemma Curl_Perform_redirect request t u location target :
  transport_inv t -> Here u -> rq_url request = ToString u ->
  let r := fst (Curl_Perform request t) in
  IsRedirect (rs_status r) = true -> Find (lit "Location") (rs_headers r) = Some location ->
  ResolveReference u location = inr target -> Here target.
Proof.
  intros Hi Hu Hurl r Hs Hf Ht.
  destruct (Curl_Perform_transfer request t _ _ Hi Hf) as (handle & c & Hc & Etr & Hcut & Hh & Hst). cbv zeta in *. fold r in Hh, Hst.
  rewrite Hh in Hf. rewrite Hst in Hs.
  eapply (wo_redirect (WireOrigin := _) handle _ c (Exchange_new request) u); [done|apply Exchange_new_ok|done| |done..].
  cbn. by rewrite Hurl.
Qed.

(** C6: the transport meets the interface the backend's reader contract is proved
    against.  Over a wire whose transfers deliver what their [Content-Range] names
    when they are asked with the strong entity tag in [If-Range], and a library
    that treats its callbacks as [LibCurlLaws] says, the tag reaches the wire, the
    responses handed up never exceed the capacity asked for, and a complete
    partial response is the bytes of the asset it names: truncated header blocks,
    earlier header blocks and overlong bodies are never mistaken for one. *)
Theorem Curl_Origin : Origin (CurlTransport C) transport_inv Here v A.
Proof.
  split.
  - apply wo_strong.
  - intros rq t Hi. by apply Curl_Perform_inv.
  - intros view t Hi. cbn. unfold transport_inv in *. pose proof (wo_intercept view _ Hi) as Hh.
    by destruct (host_intercept view (ct_curl t)).
  - intros rq t _ Hc. cbn [Perform Curl_world]. destruct (Curl_Perform_bounds rq t) as (-> & _).
    pose proof (Z.mod_le (rq_bodyCapacity rq) (2 ^ 64) Hc ltac:(lia)). unfold u64, zlen. rewrite length_take. lia.
  - intros rq t u location target Hi Hu Hurl. apply (Curl_Perform_redirect rq t u); done.
  - intros rq t u cr Hi Hu Hurl Hm Hif. apply (Curl_Perform_partial rq t u); done.
Qed.
End origin.

(** ** The pool under concurrency *)

(** What libcurl documents of its handles: [curl_easy_init] gives a new one, and
    [curl_easy_cleanup] ends one. *)
Class HandleLaws (C : Type) `{LibCurl C} : Type := {
  live : C -> Handle -> Prop;
  live_init : forall c h c', curl_easy_init c = (Some h, c') -> ~ live c h /\ forall g, live c' g <-> g = h \/ live c g;
  live_init_none : forall c c', curl_easy_init c = (None, c') -> forall g, live c' g <-> live c g;
  live_reset : forall h c g, live (curl_easy_reset h c) g <-> live c g;
  live_cleanup : forall h c g, live (curl_easy_cleanup h c) g <-> live c g /\ g <> h }.

Section pool.
Context {C : Type} `{HandleLaws C}.

(** The transport, and the handles the threads in a request hold. *)
Record Pool : Type := mkPool {
  pl_transport : CurlTransport C;
  pl_out : list Handle }.

(** The steps of the threads: a checkout, a check-in, and the work of a request
    on the world, which neither makes nor ends a handle. *)
Inductive pool_step : Pool -> Pool -> Prop :=
| ps_acquire t out h t' : Acquire_handle t = (Some h, t') -> pool_step (mkPool t out) (mkPool t' (h :: out))
| ps_fail t out t' : Acquire_handle t = (None, t') -> pool_step (mkPool t out) (mkPool t' out)
| ps_release t out1 h out2 : pool_step (mkPool t (out1 ++ h :: out2)) (mkPool (Release_handle h t) (out1 ++ out2))
| ps_work t out c : (forall g, live c g <-> live (ct_curl t) g) -> pool_step (mkPool t out) (mkPool (mkCurl (ct_idle t) c) out).

Record pool_ok (p : Pool) : Prop := {
  po_bound : (length (ct_idle (pl_transport p)) <= kMaxIdle)%nat;
  po_distinct : NoDup (ct_idle (pl_transport p) ++ pl_out p);
  po_live : Forall (live (ct_curl (pl_transport p))) (ct_idle (pl_transport p) ++ pl_out p) }.

Lemma Forall_live c c' l : (forall g, live c' g <-> live c g) -> Forall (live c) l -> Forall (live c') l.
Proof. intros Hg Hl. eapply Forall_impl; [exact Hl|]. intros g. apply Hg. Qed.

Lemma pool_acquire t out h t' : pool_ok (mkPool t out) -> Acquire_handle t = (Some h, t') -> pool_ok (mkPool t' (h :: out)).
Proof.
  intros [Hb Hd Hl]. cbn in *. unfold Acquire_handle. destruct (last (ct_idle t)) as [g|] eqn:El.
  - intros [= <- <-]. apply last_Some in El as [idle Ei]. rewrite Ei in *. split; cbn; rewrite removelast_last.
    + rewrite length_app in Hb. lia.
    + by rewrite <-app_assoc in Hd.
    + rewrite <-app_assoc in Hl. eapply Forall_live; [|exact Hl]. apply live_reset.
  - destruct (curl_easy_init (ct_curl t)) as [[g|] c] eqn:Ei; [|done]. intros [= <- <-].
    apply live_init in Ei as [Hn Hg]. apply last_None in El. rewrite El in *. cbn in *. split; cbn; [lia| |].
    + constructor; [|done]. intros Hin. apply Hn. by eapply Forall_forall.
    + constructor; [apply Hg; by left|]. eapply Forall_impl; [exact Hl|]. intros x Hx. apply Hg. by right.
Qed.

Lemma pool_release t out1 h out2 : pool_ok (mkPool t (out1 ++ h :: out2)) -> pool_ok (mkPool (Release_handle h t) (out1 ++ out2)).
Proof.
  intros [Hb Hd Hl]. cbn in *. rewrite app_assoc in Hd, Hl. rewrite <-Permutation_middle in Hd. rewrite <-Permutation_middle in Hl.
  apply NoDup_cons in Hd as [Hn Hd]. apply Forall_cons in Hl as [Hh Hl]. rewrite <-app_assoc in *. unfold Release_handle.
  destruct (Nat.leb_spec kMaxIdle (length (ct_idle t))); split; cbn; try done.
  - apply Forall_forall. intros g Hg. apply live_cleanup. split; [by eapply Forall_forall|]. by intros ->.
  - rewrite length_app. cbn. lia.
  - rewrite <-app_assoc. cbn. rewrite <-Permutation_middle. by constructor.
  - rewrite <-app_assoc. cbn. rewrite <-Permutation_middle. by constructor.
Qed.

Lemma pool_step_ok p p' : pool_ok p -> pool_step p p' -> pool_ok p'.
Proof.
  intros Hp Hs. destruct Hs as [t out h t' E|t out t' E|t out1 h out2|t out c Hc].
  - by eapply pool_acquire.
  - destruct Hp as [Hb Hd Hl]. unfold Acquire_handle in E. destruct (last (ct_idle t)); [done|].
    destruct (curl_easy_init (ct_curl t)) as [[g|] c] eqn:Ei; [done|]. injection E as <-. split; cbn in *; try done.
    eapply Forall_live; [|exact Hl]. by eapply live_init_none.
  - by apply pool_release.
  - destruct Hp as [Hb Hd Hl]. split; cbn in *; try done. by eapply Forall_live.
Qed.

(** An easy handle is never used by two threads at once.  However the threads
    of one reader interleave their requests, the handles in the pool and those
    checked out are distinct and alive, and the pool holds sixteen at most. *)
Theorem pool_exclusive c p :
  rtc pool_step (mkPool (mkCurl [] c) []) p ->
  (length (ct_idle (pl_transport p)) <= kMaxIdle)%nat /\
  NoDup (ct_idle (pl_transport p) ++ pl_out p) /\
  Forall (live (ct_curl (pl_transport p))) (ct_idle (pl_transport p) ++ pl_out p).
Proof.
  intros Hr. assert (pool_ok (mkPool (mkCurl [] c) [])) as H0' by (split; cbn; [lia|constructor|constructor]).
  assert (pool_ok p) as []; [|done]. clear -Hr H0'. induction Hr; eauto using pool_step_ok.
Qed.
End pool.
