(* ===== verification/Configuration.v ===== *)
(** * Configuration: the environment and the resolver contexts

    plugins/http-resolver: src/Configuration.h and src/Configuration.cpp, with
    the canonical text of src/Context.cpp.  [EnvironmentLookup] is a function to
    [option]; a [std::map] of strings is a [gmap], iterated in the order of its
    keys.  The out-parameter [problemsOut] is the list threaded through: a caller
    that passes null ignores it, and no branch but the pushes looks at it. *)

From S2P Require Import Prelude Diagnostics CacheOptions DiskStore Uri Destination HttpReader.

Record ConfigurationProblem : Type := mkProblem {
  cp_variable : str;
  cp_value : str;
  cp_reason : str;
  cp_adjusted : bool;
  cp_fromContext : bool }.

#[export] Instance ConfigurationProblem_eq_dec : EqDecision ConfigurationProblem.
Proof. solve_decision. Defined.

Definition EnvironmentLookup : Type := str -> option str.

Abbreviation strmap := (gmap (list ascii) str).

Definition kConnectTimeout : str := lit "USD_HTTP_RESOLVER_CONNECT_TIMEOUT_MS".
Definition kReadTimeout : str := lit "USD_HTTP_RESOLVER_READ_TIMEOUT_MS".
Definition kTotalTimeout : str := lit "USD_HTTP_RESOLVER_TOTAL_TIMEOUT_MS".
Definition kMaxRetries : str := lit "USD_HTTP_RESOLVER_MAX_RETRIES".
Definition kMaxRedirects : str := lit "USD_HTTP_RESOLVER_MAX_REDIRECTS".
Definition kDestinations : str := lit "USD_HTTP_RESOLVER_DESTINATIONS".
Definition kBlockSize : str := lit "USD_HTTP_RESOLVER_BLOCK_SIZE".
Definition kCacheBudget : str := lit "USD_HTTP_RESOLVER_CACHE_BUDGET".
Definition kCoalesceGap : str := lit "USD_HTTP_RESOLVER_COALESCE_GAP".
Definition kMaxRequestBytes : str := lit "USD_HTTP_RESOLVER_MAX_REQUEST_BYTES".
Definition kPersistentDirectory : str := lit "USD_HTTP_RESOLVER_PERSISTENT_CACHE_DIR".
Definition kPersistentBudget : str := lit "USD_HTTP_RESOLVER_PERSISTENT_CACHE_BUDGET".

(** ** Numbers *)

Definition out_of_range (min max : Z) : str :=
  lit "out of range [" ++ to_string min ++ lit ", " ++ to_string max ++ lit "]".

Fixpoint count_loop (text : str) (min max value : Z) : str + Z :=
  match text with
  | [] => inr value
  | c :: text' =>
      if negb (is_digit c) then inl (lit "not a non-negative integer")
      else
        let value := value * 10 + (code c - 48) in
        if value >? max then inl (out_of_range min max) else count_loop text' min max value
  end.

Definition ParseCount (text : str) (min max : Z) : str + Z :=
  if bool_decide (text = []) then inl (lit "empty")
  else
    match count_loop text min max 0 with
    | inl reason => inl reason
    | inr value => if value <? min then inl (out_of_range min max) else inr value
    end.

Definition Adjusted (variable value reason : str) : ConfigurationProblem :=
  mkProblem variable value reason true false.

Definition Refused (variable value reason : str) : ConfigurationProblem :=
  mkProblem variable value reason false false.

(** [find_last_of] a set, and its complement. *)
Fixpoint rfind_if (p : ascii -> bool) (s : str) : option nat :=
  match s with
  | [] => None
  | d :: s' =>
      match rfind_if p s' with
      | Some i => Some (S i)
      | None => if p d then Some 0%nat else None
      end
  end.

Definition blanks : str := [" "; "009"; "013"; "010"]%char.

Definition nonblank (c : ascii) : bool := negb (bool_decide (c ∈ blanks)).

Definition Trim (text : str) : str :=
  match find_if nonblank text, rfind_if nonblank text with
  | Some first, Some last => take (last - first + 1) (drop first text)
  | _, _ => []
  end.

Definition Contains (names : list str) (name : str) : bool := bool_decide (name ∈ names).

Definition ReadInto (lookup : EnvironmentLookup) (name : str) (min max target : Z)
    (problems : list ConfigurationProblem) : Z * list ConfigurationProblem :=
  match lookup name with
  | None => (target, problems)
  | Some text =>
      match ParseCount text min max with
      | inl reason => (target, problems ++ [Refused name text reason])
      | inr value => (value, problems)
      end
  end.

(** The 64-bit form. *)
Definition ReadBytesInto (lookup : EnvironmentLookup) (name : str) (min max target : Z)
    (problems : list ConfigurationProblem) : Z * list ConfigurationProblem :=
  match lookup name with
  | None => (target, problems)
  | Some text =>
      match ParseCount text min max with
      | inl reason => (target, problems ++ [Refused name text reason])
      | inr value => (u64 value, problems)
      end
  end.

(** ** Destination sets *)

Definition kAddressClasses : list AddressClass := [Public; Private; Loopback; LinkLocal; Metadata_].

Definition DestinationsString (policy : DestinationPolicy) : str :=
  fold_left (fun text c =>
    if negb (Permits policy c) then text
    else (if bool_decide (text = []) then text else text ++ lit ",") ++ AddressClassName c)
    kAddressClasses [].

Definition permit (c : AddressClass) (p : DestinationPolicy) : DestinationPolicy :=
  match c with
  | Public => mkPolicy true (dp_privateNetworks p) (dp_loopback p) (dp_linkLocal p) (dp_metadata p)
  | Private => mkPolicy (dp_publicAddresses p) true (dp_loopback p) (dp_linkLocal p) (dp_metadata p)
  | Loopback => mkPolicy (dp_publicAddresses p) (dp_privateNetworks p) true (dp_linkLocal p) (dp_metadata p)
  | LinkLocal => mkPolicy (dp_publicAddresses p) (dp_privateNetworks p) (dp_loopback p) true (dp_metadata p)
  | Metadata_ => mkPolicy (dp_publicAddresses p) (dp_privateNetworks p) (dp_loopback p) (dp_linkLocal p) true
  end.

(** One name: the policy and whether the name is known. *)
Definition permit_name (name : str) (policy : DestinationPolicy) : DestinationPolicy * bool :=
  fold_left (fun '(policy, known) c =>
    if str_eqb name (AddressClassName c) then (permit c policy, true) else (policy, known))
    kAddressClasses (policy, false).

(** The loop over the list; [rest] is the text from [at] on. *)
Fixpoint destinations_loop (fuel : nat) (rest : str) (policy : DestinationPolicy) : str + DestinationPolicy :=
  match fuel with
  | O => inr policy
  | S fuel' =>
      let comma := find "," rest in
      let name := Trim (match comma with None => rest | Some e => take e rest end) in
      if bool_decide (name = []) then inl (lit "an empty entry in the list")
      else
        let '(policy, known) := permit_name name policy in
        if negb known then
          inl (lit "unknown address class '" ++ name ++
               lit "'; expected public, private, loopback, link-local, or metadata")
        else
          match comma with
          | None => inr policy
          | Some e => destinations_loop fuel' (drop (S e) rest) policy
          end
  end.

Definition ParseDestinations (text : str) : str + DestinationPolicy :=
  if bool_decide (text = []) then inl (lit "empty")
  else destinations_loop (S (length text)) text (mkPolicy false false false false false).

(** ** The options *)

Definition PersistenceOptionsFrom (lookup : EnvironmentLookup) (problems : list ConfigurationProblem)
    : DiskCacheOptions * list ConfigurationProblem :=
  let '(directory, problems) :=
    match lookup kPersistentDirectory with
    | None => ([], problems)
    | Some directory =>
        if bool_decide (directory = [])
        then ([], problems ++ [Refused kPersistentDirectory directory (lit "empty")])
        else (directory, problems)
    end in
  let '(budget, problems) :=
    ReadBytesInto lookup kPersistentBudget kMinPersistentBudgetBytes (1024 * 1024 * 1024 * 1024)
      kDefaultPersistentBudgetBytes problems in
  (mkDiskCacheOptions directory budget, problems).

(** A problem when normalization changed the field. *)
Definition report_adjusted (name : str) (from to : Z) (reason : str)
    (problems : list ConfigurationProblem) : list ConfigurationProblem :=
  if negb (to =? from) then problems ++ [Adjusted name (to_string from) reason] else problems.

Definition CacheOptionsFrom (lookup : EnvironmentLookup) (problems : list ConfigurationProblem)
    : CacheOptions * list ConfigurationProblem :=
  let options := CacheOptions_default in
  let '(blockSize, problems) :=
    ReadBytesInto lookup kBlockSize kMinBlockSize kMaxBlockSize (co_blockSize options) problems in
  let '(budgetBytes, problems) :=
    ReadBytesInto lookup kCacheBudget kMinBlockSize (64 * 1024 * 1024 * 1024) (co_budgetBytes options) problems in
  let '(gap, problems) :=
    ReadBytesInto lookup kCoalesceGap 0 1024 (co_coalesceGapBlocks options) problems in
  let '(maxRequestBytes, problems) :=
    ReadBytesInto lookup kMaxRequestBytes kMinBlockSize (4 * 1024 * 1024 * 1024)
      (co_maxRequestBytes options) problems in
  let options := mkCacheOptions blockSize budgetBytes (u32 gap) maxRequestBytes
                   (co_bypassThresholdBytes options) in
  let normalized := Normalized options in
  let problems := report_adjusted kBlockSize (co_blockSize options) (co_blockSize normalized)
    (lit "rounded down to the power of two " ++ to_string (co_blockSize normalized)) problems in
  let problems := report_adjusted kCoalesceGap (co_coalesceGapBlocks options) (co_coalesceGapBlocks normalized)
    (lit "capped at " ++ to_string (co_coalesceGapBlocks normalized) ++
     lit ", the widest gap that can fit under USD_HTTP_RESOLVER_MAX_REQUEST_BYTES") problems in
  let problems := report_adjusted kCacheBudget (co_budgetBytes options) (co_budgetBytes normalized)
    (lit "raised to " ++ to_string (co_budgetBytes normalized) ++
     lit ", one block: a budget that cannot hold a block does not cache nothing, it fetches a block and drops it")
    problems in
  let problems := report_adjusted kMaxRequestBytes (co_maxRequestBytes options) (co_maxRequestBytes normalized)
    (lit "raised to " ++ to_string (co_maxRequestBytes normalized) ++
     lit ", one block: a merged request that cannot carry a block cannot carry the block it was merging")
    problems in
  (options, problems).

Definition OptionsFrom (lookup : EnvironmentLookup) (problems : list ConfigurationProblem)
    : HttpOptions * list ConfigurationProblem :=
  let o := HttpOptions_new in
  let '(connect, problems) := ReadInto lookup kConnectTimeout 1 3600000 (ho_connectTimeoutMs o) problems in
  let '(response, problems) := ReadInto lookup kReadTimeout 1 3600000 (ho_responseTimeoutMs o) problems in
  let '(transfer, problems) := ReadInto lookup kTotalTimeout 1 3600000 (ho_transferTimeoutMs o) problems in
  let '(retries, problems) := ReadInto lookup kMaxRetries 0 100 (ho_maxAttempts o - 1) problems in
  let '(redirects, problems) := ReadInto lookup kMaxRedirects 0 100 (ho_maxRedirects o) problems in
  let '(destinations, problems) :=
    match lookup kDestinations with
    | None => (ho_destinations o, problems)
    | Some text =>
        match ParseDestinations text with
        | inl reason => (ho_destinations o, problems ++ [Refused kDestinations text reason])
        | inr policy => (policy, problems)
        end
    end in
  (mkHttpOptions connect response transfer redirects (retries + 1) destinations (ho_userAgent o)
     (ho_interceptor o), problems).

Record ResolverConfiguration : Type := mkConfiguration {
  rc_transport : HttpOptions;
  rc_cache : CacheOptions;
  rc_persistence : DiskCacheOptions }.

Definition ConfigurationFrom (lookup : EnvironmentLookup) (problems : list ConfigurationProblem)
    : ResolverConfiguration * list ConfigurationProblem :=
  let '(transport, problems) := OptionsFrom lookup problems in
  let '(cache, problems) := CacheOptionsFrom lookup problems in
  let '(persistence, problems) := PersistenceOptionsFrom lookup problems in
  (mkConfiguration transport cache persistence, problems).

Definition ConfiguredVariables : list str :=
  [kBlockSize; kCacheBudget; kCoalesceGap; kMaxRequestBytes; kPersistentDirectory; kPersistentBudget;
   kConnectTimeout; kReadTimeout; kTotalTimeout; kMaxRetries; kMaxRedirects; kDestinations].

Definition ContextVariables : list str :=
  [kCoalesceGap; kMaxRequestBytes; kConnectTimeout; kReadTimeout; kTotalTimeout; kMaxRetries;
   kMaxRedirects; kDestinations].

Definition LookupIn (values : strmap) : EnvironmentLookup := fun name => values !! name.

Definition Layered (overrides : strmap) (base : EnvironmentLookup) : EnvironmentLookup := fun name =>
  match overrides !! name with
  | Some value => Some value
  | None => base name
  end.

Definition Snapshot (lookup : EnvironmentLookup) : strmap :=
  fold_left (fun values name =>
    match lookup name with
    | Some value => match values !! name with Some _ => values | None => <[name := value]> values end
    | None => values
    end) ConfiguredVariables ∅.

(** ** Contexts *)

Definition from_context (p : ConfigurationProblem) : ConfigurationProblem :=
  mkProblem (cp_variable p) (cp_value p) (cp_reason p) (cp_adjusted p) true.

(** One entry of the context string, trimmed. *)
Definition admit_entry (entry : str) (entries : strmap) (problems : list ConfigurationProblem)
    : strmap * list ConfigurationProblem :=
  let refuse variable value reason := problems ++ [from_context (Refused variable value reason)] in
  if bool_decide (entry = []) then (entries, problems)
  else
    match find "=" entry with
    | None => (entries, refuse [] entry (lit "not a NAME=value entry"))
    | Some equals =>
        let name := Trim (take equals entry) in
        let value := Trim (drop (S equals) entry) in
        if negb (Contains ConfiguredVariables name) then
          (entries, refuse name value (lit "not a variable this resolver reads"))
        else if negb (Contains ContextVariables name) then
          (entries, refuse name value
             (lit "shared by every stage in the process, so it is read from the environment and not from a context"))
        else
          let problems :=
            match entries !! name with
            | Some _ =>
                problems ++ [from_context (Adjusted name value
                  (lit "set more than once in one context; only the last value is considered"))]
            | None => problems
            end in
          (<[name := value]> entries, problems)
    end.

Fixpoint entries_loop (fuel : nat) (rest : str) (entries : strmap) (problems : list ConfigurationProblem)
    : strmap * list ConfigurationProblem :=
  match fuel with
  | O => (entries, problems)
  | S fuel' =>
      let separator := find ";" rest in
      let entry := Trim (match separator with None => rest | Some e => take e rest end) in
      let '(entries, problems) := admit_entry entry entries problems in
      match separator with
      | None => (entries, problems)
      | Some e => entries_loop fuel' (drop (S e) rest) entries problems
      end
  end.

(** One problem of the values: a refused one takes its entry with it. *)
Definition judge_value (acc : strmap * list ConfigurationProblem) (problem : ConfigurationProblem)
    : strmap * list ConfigurationProblem :=
  let '(entries, problems) := acc in
  match entries !! cp_variable problem with
  | None => (entries, problems)
  | Some _ =>
      (if cp_adjusted problem then entries else delete (cp_variable problem) entries,
       problems ++ [from_context problem])
  end.

(** The value as the parser read it. *)
Definition canonical_value (applied : ResolverConfiguration) (name value : str) : str :=
  let transport := rc_transport applied in
  if str_eqb name kConnectTimeout then to_string (ho_connectTimeoutMs transport)
  else if str_eqb name kReadTimeout then to_string (ho_responseTimeoutMs transport)
  else if str_eqb name kTotalTimeout then to_string (ho_transferTimeoutMs transport)
  else if str_eqb name kMaxRetries then to_string (ho_maxAttempts transport - 1)
  else if str_eqb name kMaxRedirects then to_string (ho_maxRedirects transport)
  else if str_eqb name kDestinations then DestinationsString (ho_destinations transport)
  else if str_eqb name kCoalesceGap then to_string (co_coalesceGapBlocks (rc_cache applied))
  else if str_eqb name kMaxRequestBytes then to_string (co_maxRequestBytes (rc_cache applied))
  else value.

Definition OverridesFrom (text : str) (base : EnvironmentLookup) (problems : list ConfigurationProblem)
    : strmap * list ConfigurationProblem :=
  let '(entries, problems) := entries_loop (S (length text)) text ∅ problems in
  let '(applied, valueProblems) := ConfigurationFrom (Layered entries base) [] in
  let '(entries, problems) := fold_left judge_value valueProblems (entries, problems) in
  (map_imap (fun name value => Some (canonical_value applied name value)) entries, problems).

(** The order of [std::map]'s keys. *)
Fixpoint str_leb (a b : str) : bool :=
  match a, b with
  | [], _ => true
  | _, [] => false
  | c :: a', d :: b' => (code c <? code d) || ((code c =? code d) && str_leb a' b')
  end.

Definition key_le (a b : str * str) : Prop := str_leb (fst a) (fst b) = true.

#[export] Instance key_le_dec a b : Decision (key_le a b).
Proof. unfold key_le. apply _. Defined.

Definition CanonicalContextString (overrides : strmap) : str :=
  fold_left (fun text entry =>
    (if bool_decide (text = []) then text else text ++ lit ";") ++ fst entry ++ lit "=" ++ snd entry)
    (merge_sort key_le (map_to_list overrides)) [].

(** [address] is the interceptor's, where there is one. *)
Definition TransportFingerprint (address : Z) (options : HttpOptions) : str :=
  let reach := ho_destinations options in
  let flag (b : bool) (c : ascii) := if b then [c] else lit "-" in
  lit "connect=" ++ to_string (ho_connectTimeoutMs options) ++
  lit ";response=" ++ to_string (ho_responseTimeoutMs options) ++
  lit ";transfer=" ++ to_string (ho_transferTimeoutMs options) ++
  lit ";attempts=" ++ to_string (ho_maxAttempts options) ++
  lit ";redirects=" ++ to_string (ho_maxRedirects options) ++
  lit ";reach=" ++ flag (dp_publicAddresses reach) "P"%char ++ flag (dp_privateNetworks reach) "R"%char ++
  flag (dp_loopback reach) "L"%char ++ flag (dp_linkLocal reach) "K"%char ++ flag (dp_metadata reach) "M"%char ++
  lit ";agent=" ++ ho_userAgent options ++
  lit ";interceptor=" ++ (if ho_interceptor options then to_string address else lit "none").
