(* ===== verification/ConfigurationSpec.v ===== *)
(** * ConfigurationSpec: what a configuration can be

    The theorems on [Configuration]: the ranges every environment is read into,
    one variable at a time, and the canonical form of a context. *)

From S2P Require Import Prelude Diagnostics CacheOptions DiskStore Uri Destination HttpReader Configuration.

(** ** Numbers *)

Lemma count_loop_spec text min max v r :
  0 <= v -> count_loop text min max v = inr r <->
  Forall (fun c => is_digit c = true) text /\ r = fold_left decimal_step text v /\ (text = [] \/ r <= max).
Proof.
  revert v. induction text as [|c text IH]; intros v Hv; cbn [count_loop fold_left].
  { split; [intros [= ->]; split_and!; [constructor|done|by left]|]. intros (_ & -> & _). done. }
  destruct (is_digit c) eqn:Hc; cbn [negb].
  2:{ split; [done|]. intros (HF & _). apply Forall_cons in HF as [? _]. congruence. }
  change (v * 10 + (code c - 48)) with (decimal_step v c). pose proof Hc as Hc'. apply is_digit_code in Hc'.
  assert (0 <= decimal_step v c) as Hd by (unfold decimal_step; lia).
  rewrite Z.gtb_ltb. destruct (Z.ltb_spec max (decimal_step v c)).
  - split; [done|]. intros (HF & -> & [?|Hle]); [done|]. apply Forall_cons in HF as [_ HF].
    pose proof (decimal_fold_ge text _ HF Hd). lia.
  - rewrite IH by done. rewrite Forall_cons. split; intros (H1 & H2 & H3).
    + split_and!; [done|done|done|]. right. destruct H3 as [->|?]; [|done]. by rewrite H2.
    + destruct H1 as [_ H1]. destruct H3 as [?|H3]; [done|]. auto.
Qed.

Lemma ParseCount_spec text min max v :
  ParseCount text min max = inr v <->
  text <> [] /\ Forall (fun c => is_digit c = true) text /\ v = decimal_value text /\ min <= v <= max.
Proof.
  unfold ParseCount. case_bool_decide as E; [split; [done|]; intros [? _]; done|].
  destruct (count_loop text min max 0) as [|w] eqn:Ec.
  - split; [done|]. intros (_ & HF & -> & Hr). assert (count_loop text min max 0 = inr (decimal_value text)); [|congruence].
    apply count_loop_spec; [done|]. split_and!; [done|done|]. right. apply Hr.
  - apply count_loop_spec in Ec as (HF & -> & H3); [|done]. fold (decimal_value text).
    destruct H3 as [?|H3]; [done|]. fold (decimal_value text) in H3.
    destruct (Z.ltb_spec (decimal_value text) min); (split; [|intros (_ & _ & -> & ?)]); [done|lia| |done].
    intros [= <-]. done.
Qed.

Lemma ParseCount_to_string v min max : 0 <= v -> min <= v <= max -> ParseCount (to_string v) min max = inr v.
Proof.
  intros H0 Hv. apply ParseCount_spec. split_and!; [apply to_string_nonempty|by apply to_string_digits| |lia|lia].
  by rewrite decimal_value_to_string.
Qed.

(** ** Trimming *)

Lemma rfind_if_last p s c : p c = true -> rfind_if p (s ++ [c]) = Some (length s).
Proof. intros Hc. induction s as [|d s IH]; simpl; [by rewrite Hc|by rewrite IH]. Qed.

Lemma Trim_nonblank s : Forall (fun c => nonblank c = true) s -> Trim s = s.
Proof.
  intros HF. destruct (decide (s = [])) as [->|Hne]; [done|]. unfold Trim.
  destruct s as [|c s] using rev_ind; [done|]. clear IHs. rewrite rfind_if_last.
  2:{ apply Forall_app in HF as [_ HF]. by apply Forall_cons in HF as [? _]. }
  assert (find_if nonblank (s ++ [c]) = Some 0%nat) as ->.
  { destruct s as [|d s]; apply Forall_cons in HF as [Hd _]; simpl; by rewrite Hd. }
  rewrite drop_0, Nat.sub_0_r. apply take_ge. rewrite length_app. simpl. lia.
Qed.

(** ** Destination sets *)

Definition empty_policy : DestinationPolicy := mkPolicy false false false false false.

Lemma DestinationsString_parse p : p <> empty_policy -> ParseDestinations (DestinationsString p) = inr p.
Proof. destruct p as [[] [] [] [] []]; intros H; (done || by vm_compute). Qed.

Lemma permit_name_ne name p p' : permit_name name p = (p', true) -> p' <> empty_policy.
Proof.
  unfold permit_name, kAddressClasses. cbn [fold_left].
  repeat match goal with |- context [str_eqb name ?x] => destruct (str_eqb name x) end; by intros [= <-].
Qed.

Lemma destinations_loop_ne fuel rest p p' :
  (length rest < fuel)%nat -> destinations_loop fuel rest p = inr p' -> p' <> empty_policy.
Proof.
  revert rest p. induction fuel as [|fuel IH]; intros rest p Hf; [lia|]. cbn [destinations_loop].
  case_bool_decide; [done|]. destruct (permit_name _ p) as [q []] eqn:E; [|done]. apply permit_name_ne in E.
  cbn [negb]. destruct (find "," rest) as [e|] eqn:Ef; [|by intros [= <-]].
  apply IH. apply find_lt in Ef. rewrite length_drop. lia.
Qed.

Lemma ParseDestinations_ne text p : ParseDestinations text = inr p -> p <> empty_policy.
Proof. unfold ParseDestinations. case_bool_decide; [done|]. apply destinations_loop_ne. lia. Qed.

(** ** One variable *)

(** The bounds of the variables that are counts. *)
Definition count_ranges : list (str * (Z * Z)) :=
  [(kConnectTimeout, (1, 3600000)); (kReadTimeout, (1, 3600000)); (kTotalTimeout, (1, 3600000));
   (kMaxRetries, (0, 100)); (kMaxRedirects, (0, 100)); (kBlockSize, (kMinBlockSize, kMaxBlockSize));
   (kCacheBudget, (kMinBlockSize, 64 * 1024 * 1024 * 1024)); (kCoalesceGap, (0, 1024));
   (kMaxRequestBytes, (kMinBlockSize, 4 * 1024 * 1024 * 1024));
   (kPersistentBudget, (kMinPersistentBudgetBytes, 1024 * 1024 * 1024 * 1024))].

Fixpoint assoc {A} (name : str) (l : list (str * A)) : option A :=
  match l with
  | [] => None
  | (n, x) :: l' => if str_eqb name n then Some x else assoc name l'
  end.

(** What a text says as the value of a variable: the reason it is refused for,
    or the text in its canonical spelling. *)
Definition variable_parse (name text : str) : str + str :=
  if str_eqb name kDestinations then
    match ParseDestinations text with inl r => inl r | inr p => inr (DestinationsString p) end
  else if str_eqb name kPersistentDirectory then
    if bool_decide (text = []) then inl (lit "empty") else inr text
  else
    match assoc name count_ranges with
    | Some (min, max) => match ParseCount text min max with inl r => inl r | inr v => inr (to_string v) end
    | None => inr text
    end.

(** An environment in which every accepted value is spelled canonically and
    every refused one is unset. *)
Definition canonical_lookup (lookup : EnvironmentLookup) : EnvironmentLookup := fun name =>
  match lookup name with
  | Some text => match variable_parse name text with inr c => Some c | inl _ => None end
  | None => None
  end.

Lemma count_ranges_nonneg : Forall (fun e : str * (Z * Z) => 0 <= fst (snd e) /\ snd (snd e) < 2 ^ 63) count_ranges.
Proof. repeat constructor; vm_compute; done. Qed.

Lemma assoc_Forall {A} (P : str * A -> Prop) name l x : Forall P l -> assoc name l = Some x -> P (name, x).
Proof.
  induction 1 as [|[n y] l Hy HF IH]; simpl; [done|].
  destruct (str_eqb name n) eqn:E; [|done]. apply str_eqb_eq in E as ->. by intros [= ->].
Qed.

(** The canonical spelling is canonical. *)
Lemma variable_parse_idem name text c :
  variable_parse name text = inr c -> variable_parse name c = inr c.
Proof.
  unfold variable_parse. destruct (str_eqb name kDestinations).
  { destruct (ParseDestinations text) as [|p] eqn:E; [done|]. intros [= <-].
    by rewrite DestinationsString_parse by by eapply ParseDestinations_ne. }
  destruct (str_eqb name kPersistentDirectory); [by case_bool_decide as E; intros [= <-]; rewrite ?bool_decide_eq_false_2|].
  destruct (assoc name count_ranges) as [[min max]|] eqn:Ea; [|done].
  apply (assoc_Forall _ _ _ _ count_ranges_nonneg) in Ea. cbn [fst snd] in Ea.
  destruct (ParseCount text min max) as [|v] eqn:E; [done|]. intros [= <-].
  apply ParseCount_spec in E as (_ & _ & _ & Hv). by rewrite ParseCount_to_string by lia.
Qed.

(** A count and the problem it leaves. *)
Definition setting (lookup : EnvironmentLookup) (name : str) (min max target : Z) : Z :=
  match lookup name with
  | Some text => match ParseCount text min max with inr v => v | inl _ => target end
  | None => target
  end.

Definition refusal (lookup : EnvironmentLookup) (name : str) : list ConfigurationProblem :=
  match lookup name with
  | Some text => match variable_parse name text with inl r => [Refused name text r] | inr _ => [] end
  | None => []
  end.

Lemma ReadInto_eq lookup name min max target problems :
  assoc name count_ranges = Some (min, max) -> str_eqb name kDestinations = false ->
  str_eqb name kPersistentDirectory = false ->
  ReadInto lookup name min max target problems = (setting lookup name min max target, problems ++ refusal lookup name).
Proof.
  intros Ha H1 H2. unfold ReadInto, setting, refusal, variable_parse. rewrite Ha, H1, H2.
  destruct (lookup name) as [text|]; [|by rewrite app_nil_r].
  destruct (ParseCount text min max); [done|by rewrite app_nil_r].
Qed.

Lemma ReadBytesInto_eq lookup name min max target problems :
  assoc name count_ranges = Some (min, max) -> str_eqb name kDestinations = false ->
  str_eqb name kPersistentDirectory = false ->
  ReadBytesInto lookup name min max target problems = (setting lookup name min max target, problems ++ refusal lookup name).
Proof.
  intros Ha H1 H2. rewrite <-ReadInto_eq by done. unfold ReadBytesInto, ReadInto.
  destruct (lookup name) as [text|]; [|done]. destruct (ParseCount text min max) as [|v] eqn:E; [done|].
  apply ParseCount_spec in E as (_ & _ & _ & Hv). apply (assoc_Forall _ _ _ _ count_ranges_nonneg) in Ha.
  cbn [fst snd] in Ha. rewrite u64_small; [done|]. unfold is_u64. lia.
Qed.

Lemma setting_range lookup name min max target :
  min <= target <= max -> min <= setting lookup name min max target <= max.
Proof.
  intros Ht. unfold setting. destruct (lookup name) as [text|]; [|done].
  destruct (ParseCount text min max) as [|v] eqn:E; [done|]. by apply ParseCount_spec in E as (_ & _ & _ & ?).
Qed.

Lemma setting_canonical lookup name min max target :
  assoc name count_ranges = Some (min, max) -> str_eqb name kDestinations = false ->
  str_eqb name kPersistentDirectory = false ->
  setting (canonical_lookup lookup) name min max target = setting lookup name min max target.
Proof.
  intros Ha H1 H2. unfold setting, canonical_lookup, variable_parse. rewrite Ha, H1, H2.
  destruct (lookup name) as [text|]; [|done]. destruct (ParseCount text min max) as [|v] eqn:E; [done|].
  apply ParseCount_spec in E as (_ & _ & _ & Hv). apply (assoc_Forall _ _ _ _ count_ranges_nonneg) in Ha.
  cbn [fst snd] in Ha. by rewrite ParseCount_to_string by lia.
Qed.

(** ** The whole configuration *)

Definition destinations_setting (lookup : EnvironmentLookup) : DestinationPolicy :=
  match lookup kDestinations with
  | Some text => match ParseDestinations text with inr p => p | inl _ => DestinationPolicy_default end
  | None => DestinationPolicy_default
  end.

Definition transport_of (lookup : EnvironmentLookup) : HttpOptions :=
  mkHttpOptions (setting lookup kConnectTimeout 1 3600000 10000) (setting lookup kReadTimeout 1 3600000 30000)
    (setting lookup kTotalTimeout 1 3600000 300000) (setting lookup kMaxRedirects 0 100 5)
    (setting lookup kMaxRetries 0 100 2 + 1) (destinations_setting lookup) [] false.

Definition cache_of (lookup : EnvironmentLookup) : CacheOptions :=
  mkCacheOptions (setting lookup kBlockSize kMinBlockSize kMaxBlockSize kDefaultBlockSize)
    (setting lookup kCacheBudget kMinBlockSize (64 * 1024 * 1024 * 1024) kDefaultBudgetBytes)
    (setting lookup kCoalesceGap 0 1024 kDefaultCoalesceGapBlocks)
    (setting lookup kMaxRequestBytes kMinBlockSize (4 * 1024 * 1024 * 1024) kDefaultMaxRequestBytes)
    kDefaultBypassThresholdBytes.

Definition persistence_of (lookup : EnvironmentLookup) : DiskCacheOptions :=
  mkDiskCacheOptions (default [] (lookup kPersistentDirectory))
    (setting lookup kPersistentBudget kMinPersistentBudgetBytes (1024 * 1024 * 1024 * 1024) kDefaultPersistentBudgetBytes).

Definition configuration_of (lookup : EnvironmentLookup) : ResolverConfiguration :=
  mkConfiguration (transport_of lookup) (cache_of lookup) (persistence_of lookup).

(** The adjustments: one problem per field that normalization changes. *)
Definition is_adjustment (p : ConfigurationProblem) : Prop :=
  cp_adjusted p = true /\ cp_fromContext p = false /\
  cp_variable p ∈ [kBlockSize; kCoalesceGap; kCacheBudget; kMaxRequestBytes].

Lemma report_adjusted_app name from to reason problems :
  name ∈ [kBlockSize; kCoalesceGap; kCacheBudget; kMaxRequestBytes] ->
  exists ps, Forall is_adjustment ps /\ report_adjusted name from to reason problems = problems ++ ps.
Proof.
  intros Hn. unfold report_adjusted. destruct (to =? from); cbn [negb].
  - exists []. by rewrite app_nil_r.
  - exists [Adjusted name (to_string from) reason]. split; [|done]. apply Forall_singleton. by split_and!.
Qed.

Definition refusals (lookup : EnvironmentLookup) (names : list str) : list ConfigurationProblem :=
  concat (map (refusal lookup) names).

Lemma OptionsFrom_eq lookup problems :
  OptionsFrom lookup problems = (transport_of lookup, problems ++ refusals lookup
    [kConnectTimeout; kReadTimeout; kTotalTimeout; kMaxRetries; kMaxRedirects; kDestinations]).
Proof.
  assert (refusal lookup kDestinations = match lookup kDestinations with
    | Some text => match ParseDestinations text with inl r => [Refused kDestinations text r] | inr _ => [] end
    | None => [] end) as E.
  { unfold refusal. destruct (lookup kDestinations) as [text|]; [|done].
    change (variable_parse kDestinations text) with
      (match ParseDestinations text with inl r => @inl str str r | inr p => inr (DestinationsString p) end).
    by destruct (ParseDestinations text). }
  unfold OptionsFrom. rewrite !ReadInto_eq by by vm_compute. unfold refusals. cbn [map concat]. rewrite E.
  unfold transport_of, destinations_setting. rewrite !app_nil_r.
  destruct (lookup kDestinations) as [text|]; [destruct (ParseDestinations text)|];
    rewrite ?app_nil_r, <-?app_assoc; done.
Qed.

Lemma CacheOptionsFrom_eq lookup problems :
  exists ps, CacheOptionsFrom lookup problems =
    (cache_of lookup, problems ++ refusals lookup [kBlockSize; kCacheBudget; kCoalesceGap; kMaxRequestBytes] ++ ps) /\
  Forall is_adjustment ps.
Proof.
  unfold CacheOptionsFrom. rewrite !ReadBytesInto_eq by by vm_compute. rewrite u32_small.
  2:{ pose proof (setting_range lookup kCoalesceGap 0 1024 (co_coalesceGapBlocks CacheOptions_default) ltac:(vm_compute; done)).
      unfold is_u32. lia. }
  match goal with |- context [(?o, report_adjusted _ _ _ _ _)] => change o with (cache_of lookup) end.
  set (n := Normalized _).
  do 4 match goal with |- context [report_adjusted ?a ?b ?c ?d ?e] =>
    lazymatch e with context [report_adjusted] => fail | _ =>
      let ps := fresh "ps" in let H := fresh "H" in let E := fresh "E" in
      destruct (report_adjusted_app a b c d e) as (ps & H & E); [set_solver|]; rewrite E; clear E end end.
  exists (ps ++ ps0 ++ ps1 ++ ps2). split; [f_equal; unfold refusals; cbn [map concat]; rewrite app_nil_r, <-!app_assoc; reflexivity|].
  rewrite !Forall_app. done.
Qed.

Lemma PersistenceOptionsFrom_eq lookup problems :
  PersistenceOptionsFrom lookup problems =
    (persistence_of lookup, problems ++ refusals lookup [kPersistentDirectory; kPersistentBudget]).
Proof.
  unfold PersistenceOptionsFrom, refusals, persistence_of. cbn [map concat].
  unfold refusal at 1. change (variable_parse kPersistentDirectory) with
    (fun text => if bool_decide (text = []) then @inl str str (lit "empty") else inr text).
  destruct (lookup kPersistentDirectory) as [d|]; [destruct (bool_decide_reflect (d = [])) as [->|]|];
    rewrite ReadBytesInto_eq by (by vm_compute); rewrite ?app_nil_r, <-?app_assoc; done.
Qed.

(** Every configuration, and every problem, variable by variable. *)
Lemma ConfigurationFrom_eq lookup problems :
  exists ps, ConfigurationFrom lookup problems = (configuration_of lookup, problems ++ ps) /\
    (forall p, p ∈ ps -> is_adjustment p \/
       exists name text r, name ∈ ConfiguredVariables /\ lookup name = Some text /\
         variable_parse name text = inl r /\ p = Refused name text r) /\
    (forall name text r, name ∈ ConfiguredVariables -> lookup name = Some text ->
       variable_parse name text = inl r -> Refused name text r ∈ ps).
Proof.
  unfold ConfigurationFrom. rewrite OptionsFrom_eq. cbv beta iota.
  destruct (CacheOptionsFrom_eq lookup (problems ++ refusals lookup
    [kConnectTimeout; kReadTimeout; kTotalTimeout; kMaxRetries; kMaxRedirects; kDestinations])) as (adj & -> & Hadj).
  cbv beta iota. rewrite PersistenceOptionsFrom_eq. eexists. split; [rewrite <-!app_assoc; reflexivity|].
  assert (forall names p, p ∈ refusals lookup names <-> exists name, name ∈ names /\ p ∈ refusal lookup name) as Hr.
  { intros names p. unfold refusals. rewrite list_elem_of_In, in_concat. setoid_rewrite in_map_iff. split.
    - intros (l & (x & <- & Hx) & Hp). exists x. by rewrite !list_elem_of_In.
    - intros (x & Hx & Hp). rewrite list_elem_of_In in Hx. rewrite list_elem_of_In in Hp. eauto. }
  assert (forall name p, p ∈ refusal lookup name <-> exists text r, lookup name = Some text /\
    variable_parse name text = inl r /\ p = Refused name text r) as Hr1.
  { intros name p. unfold refusal. destruct (lookup name) as [text|].
    2:{ split; [by intros ?%not_elem_of_nil|]. intros (? & ? & ? & _). done. }
    destruct (variable_parse name text) as [r|] eqn:E.
    - rewrite list_elem_of_singleton. split; [eauto|]. intros (t & r' & [= <-] & E' & ->). congruence.
    - split; [by intros ?%not_elem_of_nil|]. intros (t & r' & [= <-] & E' & ->). congruence. }
  set (A := [kConnectTimeout; _; _; _; _; _]). set (B := [kBlockSize; _; _; _]). set (C := [kPersistentDirectory; _]).
  assert (Forall (fun n => n ∈ ConfiguredVariables) (A ++ B ++ C)) as Hsub by (by apply (bool_decide_unpack _); vm_compute).
  assert (Forall (fun n => n ∈ A ++ B ++ C) ConfiguredVariables) as Hsup by (by apply (bool_decide_unpack _); vm_compute).
  rewrite Forall_forall in Hsub. rewrite Forall_forall in Hsup. rewrite Forall_forall in Hadj. split.
  - intros p. rewrite !elem_of_app, !Hr.
    assert (forall n, n ∈ A ++ B ++ C -> p ∈ refusal lookup n -> exists name text r, name ∈ ConfiguredVariables /\
      lookup name = Some text /\ variable_parse name text = inl r /\ p = Refused name text r) as Hone.
    { intros n Hn%Hsub (text & r & H1 & H2 & ->)%Hr1. by exists n, text, r. }
    intros [(n & Hn & Hp)|[(n & Hn & Hp)|[Hp|(n & Hn & Hp)]]]; [right|right|left; by apply Hadj|right];
      (apply (Hone n); [|done]); rewrite !elem_of_app; tauto.
  - intros name text r Hn%Hsup Hl Hv. assert (Refused name text r ∈ refusal lookup name) as Hp by (apply Hr1; eauto).
    rewrite !elem_of_app, !Hr. rewrite !elem_of_app in Hn. destruct Hn as [?|[?|?]]; eauto 10.
Qed.

Lemma configuration_canonical lookup : configuration_of (canonical_lookup lookup) = configuration_of lookup.
Proof.
  unfold configuration_of, transport_of, cache_of, persistence_of.
  rewrite !setting_canonical by by vm_compute.
  assert (destinations_setting (canonical_lookup lookup) = destinations_setting lookup) as ->.
  { unfold destinations_setting, canonical_lookup. destruct (lookup kDestinations) as [text|]; [|done].
    change (variable_parse kDestinations text) with
      (match ParseDestinations text with inl r => @inl str str r | inr p => inr (DestinationsString p) end).
    destruct (ParseDestinations text) as [|p] eqn:E; [done|]. by rewrite DestinationsString_parse by by eapply ParseDestinations_ne. }
  assert (default [] (canonical_lookup lookup kPersistentDirectory) = default [] (lookup kPersistentDirectory)) as ->; [|done].
  unfold canonical_lookup. destruct (lookup kPersistentDirectory) as [d|]; [|done].
  change (variable_parse kPersistentDirectory d) with (if bool_decide (d = []) then @inl str str (lit "empty") else inr d).
  by case_bool_decide as E.
Qed.

(** ** Contexts *)

Lemma admit_entry_dom entry entries problems :
  (forall n, is_Some (entries !! n) -> n ∈ ContextVariables) ->
  forall n, is_Some (fst (admit_entry entry entries problems) !! n) -> n ∈ ContextVariables.
Proof.
  intros Hd n. unfold admit_entry. case_bool_decide; [apply Hd|]. destruct (find "=" entry) as [e|]; [|apply Hd].
  destruct (negb (Contains ConfiguredVariables _)); [apply Hd|].
  destruct (negb (Contains ContextVariables _)) eqn:E; [apply Hd|]. cbn [fst].
  apply negb_false_iff, bool_decide_eq_true in E.
  destruct (decide (Trim (take e entry) = n)) as [<-|Hne]; [done|]. rewrite lookup_insert_ne by done. apply Hd.
Qed.

Lemma entries_loop_dom fuel rest entries problems :
  (forall n, is_Some (entries !! n) -> n ∈ ContextVariables) ->
  forall n, is_Some (fst (entries_loop fuel rest entries problems) !! n) -> n ∈ ContextVariables.
Proof.
  revert rest entries problems. induction fuel as [|fuel IH]; intros rest entries problems Hd; [done|].
  cbn [entries_loop]. set (entry := Trim _). pose proof (admit_entry_dom entry entries problems Hd) as Ha.
  destruct (admit_entry entry entries problems) as [entries' problems']. destruct (find ";" rest); [by apply IH|done].
Qed.

Definition refuses (n : str) (p : ConfigurationProblem) : Prop := cp_variable p = n /\ cp_adjusted p = false.

#[export] Instance refuses_dec n p : Decision (refuses n p).
Proof. unfold refuses. apply _. Defined.

Lemma judge_values_lookup ps acc n :
  fst (fold_left judge_value ps acc) !! n =
  if bool_decide (Exists (refuses n) ps) then None else fst acc !! n.
Proof.
  revert acc. induction ps as [|p ps IH]; intros [entries problems]; cbn [fold_left].
  { rewrite bool_decide_eq_false_2; [done|]. by intros ?%Exists_nil. }
  rewrite IH. case_bool_decide as E1; [rewrite bool_decide_eq_true_2 by (by apply Exists_cons; right); done|].
  case_bool_decide as E2.
  - apply Exists_cons in E2 as [[Hv Ha]|?]; [|done]. cbn [judge_value fst]. rewrite Hv.
    destruct (entries !! n) eqn:En; [|done]. rewrite Ha. cbn [fst]. by apply lookup_delete_eq.
  - cbn [judge_value fst]. destruct (entries !! cp_variable p) eqn:Ev; [|done]. cbn [fst].
    destruct (cp_adjusted p) eqn:Ea; [done|]. apply lookup_delete_ne. intros Hv. apply E2, Exists_cons. by left.
Qed.

Ltac eval_names :=
  repeat match goal with |- context [str_eqb ?a ?b] =>
    let v := eval vm_compute in (str_eqb a b) in change (str_eqb a b) with v; cbv iota end.

Lemma setting_Some lookup name min max target text v :
  lookup name = Some text -> ParseCount text min max = inr v -> setting lookup name min max target = v.
Proof. unfold setting. by intros -> ->. Qed.

(** The canonical value is the parser's reading of the text that was looked up. *)
Lemma canonical_value_parse lookup name text c value :
  name ∈ ContextVariables -> lookup name = Some text -> variable_parse name text = inr c ->
  canonical_value (configuration_of lookup) name value = c.
Proof.
  intros Hn Hl Hp. assert (forall min max target, assoc name count_ranges = Some (min, max) ->
    str_eqb name kDestinations = false -> str_eqb name kPersistentDirectory = false ->
    to_string (setting lookup name min max target) = c) as Hc.
  { intros min max target Ha H1 H2. unfold variable_parse in Hp. rewrite Ha, H1, H2 in Hp.
    destruct (ParseCount text min max) as [|v] eqn:E; [done|]. by rewrite (setting_Some _ _ _ _ _ _ _ Hl E) in *; injection Hp. }
  unfold ContextVariables in Hn. rewrite !elem_of_cons in Hn. unfold canonical_value.
  destruct Hn as [->|[->|[->|[->|[->|[->|[->|[->|Hn]]]]]]]]; [..|by apply not_elem_of_nil in Hn]; eval_names;
    cbn [configuration_of rc_transport rc_cache transport_of cache_of ho_connectTimeoutMs ho_responseTimeoutMs
      ho_transferTimeoutMs ho_maxAttempts ho_maxRedirects ho_destinations co_coalesceGapBlocks co_maxRequestBytes];
    rewrite ?Z.add_simpl_r; try (by apply Hc).
  unfold destinations_setting. rewrite Hl.
  change (variable_parse kDestinations text) with
    (match ParseDestinations text with inl r => @inl str str r | inr p => inr (DestinationsString p) end) in Hp.
  destruct (ParseDestinations text); [done|]. by injection Hp.
Qed.

(** What a context carries: the entries whose value parses, spelled canonically,
    whatever environment it is layered on. *)
Lemma OverridesFrom_lookup text base problems name :
  fst (OverridesFrom text base problems) !! name =
  match fst (entries_loop (S (length text)) text ∅ problems) !! name with
  | Some t => match variable_parse name t with inr c => Some c | inl _ => None end
  | None => None
  end.
Proof.
  unfold OverridesFrom. pose proof (entries_loop_dom (S (length text)) text ∅ problems) as Hd.
  destruct (entries_loop _ _ _ _) as [entries problems']. cbn [fst] in *.
  destruct (ConfigurationFrom_eq (Layered entries base) []) as (ps & -> & P1 & P2). cbn [app].
  pose proof (judge_values_lookup ps (entries, problems') name) as Hj.
  destruct (fold_left judge_value ps (entries, problems')) as [entries' problems'']. cbn [fst] in *.
  rewrite map_lookup_imap, Hj. destruct (entries !! name) as [t|] eqn:En; [|by case_bool_decide].
  assert (name ∈ ContextVariables) as Hn by (apply Hd; [intros ? [? ?]; done|by rewrite En]).
  assert (Layered entries base name = Some t) as Hl by (unfold Layered; by rewrite En).
  destruct (variable_parse name t) as [r|c] eqn:Ep.
  - rewrite bool_decide_eq_true_2; [done|]. apply Exists_exists. exists (Refused name t r). split; [|done].
    apply P2; [|done|done]. assert (Forall (fun n => n ∈ ConfiguredVariables) ContextVariables) as HF
      by (by apply (bool_decide_unpack _); vm_compute). rewrite Forall_forall in HF. by apply HF.
  - rewrite bool_decide_eq_false_2; [cbn; f_equal; by eapply canonical_value_parse|].
    rewrite Exists_exists. intros (p & Hp & Hv & Ha). destruct (P1 p Hp) as [[? _]|(n & t' & r & _ & Hl' & Hr & ->)]; [congruence|].
    cbn [Refused cp_variable] in Hv. subst n. congruence.
Qed.

(** ** The canonical text *)

Definition plain (c : ascii) : bool := nonblank c && negb (char_eqb ";" c).

(** An entry that the scanner reads back as it is. *)
Record entry_plain (e : str * str) : Prop := {
  ep_name : fst e ∈ ContextVariables;
  ep_value : Forall (fun c => plain c = true) (snd e) }.

Lemma context_names n :
  n ∈ ContextVariables -> n <> [] /\ Forall (fun c => plain c = true) n /\ "="%char ∉ n /\ n ∈ ConfiguredVariables.
Proof.
  assert (Forall (fun n => n <> [] /\ Forall (fun c => plain c = true) n /\ "="%char ∉ n /\ n ∈ ConfiguredVariables)
    ContextVariables) as HF by (by apply (bool_decide_unpack _); vm_compute).
  rewrite Forall_forall in HF. apply HF.
Qed.

Lemma variable_parse_plain name text c :
  name ∈ ContextVariables -> variable_parse name text = inr c -> Forall (fun c => plain c = true) c.
Proof.
  intros Hn. unfold variable_parse. destruct (str_eqb name kDestinations) eqn:Ed.
  { destruct (ParseDestinations text) as [|[[] [] [] [] []]]; [done|intros [= <-]; by apply (bool_decide_unpack _); vm_compute..]. }
  destruct (str_eqb name kPersistentDirectory) eqn:E.
  { apply str_eqb_eq in E as ->. exfalso. revert Hn. by apply (bool_decide_unpack _); vm_compute. }
  assert (Forall (fun n => n <> kDestinations -> is_Some (assoc n count_ranges)) ContextVariables) as HF
    by (by apply (bool_decide_unpack _); vm_compute).
  destruct (assoc name count_ranges) as [[min max]|] eqn:Ea.
  - destruct (ParseCount text min max) as [|v] eqn:Ep; [done|]. intros [= <-].
    apply ParseCount_spec in Ep as (_ & _ & _ & Hv). apply (assoc_Forall _ _ _ _ count_ranges_nonneg) in Ea. cbn [fst snd] in Ea.
    apply Forall_digits_impl; [by vm_compute|]. apply to_string_digits. lia.
  - rewrite Forall_forall in HF. destruct (decide (name = kDestinations)) as [->|Hne]; [by vm_compute in Ed|].
    destruct (HF name Hn Hne). congruence.
Qed.

Definition entry_text (e : str * str) : str := fst e ++ "="%char :: snd e.

Definition tail_text (l : list (str * str)) : str := concat (map (fun e => ";"%char :: entry_text e) l).

Lemma canonical_fold l text :
  text <> [] ->
  fold_left (fun text entry => (if bool_decide (text = []) then text else text ++ lit ";") ++
    fst entry ++ lit "=" ++ snd entry) l text = text ++ tail_text l.
Proof.
  revert text. induction l as [|e l IH]; intros text Hne; [by rewrite app_nil_r|]. cbn [fold_left].
  rewrite bool_decide_eq_false_2 by done. rewrite IH by (intros E; apply app_nil in E as [E _]; by apply app_nil in E as [? _]).
  unfold tail_text, entry_text. cbn [map concat]. rewrite <-!app_assoc. cbn [app lit list_ascii_of_string]. rewrite <-!app_assoc. done.
Qed.

Lemma plain_no_semicolon s : Forall (fun c => plain c = true) s -> ";"%char ∉ s.
Proof. intros HF Hin. rewrite Forall_forall in HF. by specialize (HF _ Hin). Qed.

Lemma plain_nonblank s : Forall (fun c => plain c = true) s -> Forall (fun c => nonblank c = true) s.
Proof. intros HF. eapply Forall_impl; [exact HF|]. intros c Hc. unfold plain in Hc. by apply andb_true_iff in Hc as [? _]. Qed.

Lemma entry_text_plain e : entry_plain e -> Forall (fun c => plain c = true) (entry_text e).
Proof.
  intros [Hn Hv]. destruct (context_names _ Hn) as (_ & Hp & _). unfold entry_text.
  apply Forall_app. split; [done|]. by constructor.
Qed.

Lemma admit_entry_text e entries problems :
  entry_plain e -> entries !! fst e = None ->
  admit_entry (entry_text e) entries problems = (<[fst e := snd e]> entries, problems).
Proof.
  intros [Hn Hv] Hf. destruct (context_names _ Hn) as (Hne & Hp & Heq & Hc). unfold admit_entry, entry_text.
  rewrite bool_decide_eq_false_2 by (by intros [_ ?]%app_nil). rewrite find_app by done.
  rewrite take_app_length, drop_app_ge by lia. replace (S (length (fst e)) - length (fst e))%nat with 1%nat by lia.
  change (drop 1 ("="%char :: ?x)) with x. rewrite !Trim_nonblank by (by apply plain_nonblank). unfold Contains.
  rewrite !bool_decide_eq_true_2 by done. cbn [negb]. by rewrite Hf.
Qed.

Lemma entries_loop_text l : forall e fuel entries problems,
  Forall entry_plain (e :: l) -> NoDup (map fst (e :: l)) -> Forall (fun e => entries !! fst e = None) (e :: l) ->
  (length (entry_text e ++ tail_text l) < fuel)%nat ->
  entries_loop fuel (entry_text e ++ tail_text l) entries problems =
  (foldl (fun m e => <[fst e := snd e]> m) entries (e :: l), problems).
Proof.
  induction l as [|x l IH]; intros e fuel entries problems HF Hnd Hfr Hf; (destruct fuel as [|fuel]; [lia|]);
    apply Forall_cons in HF as [He HF]; apply Forall_cons in Hfr as [Hfe Hfr]; pose proof (entry_text_plain e He) as Hp;
    cbn [entries_loop foldl].
  - unfold tail_text. cbn [map concat]. rewrite app_nil_r. rewrite (proj2 (find_None _ _)) by by apply plain_no_semicolon.
    rewrite Trim_nonblank by by apply plain_nonblank. by rewrite admit_entry_text.
  - change (tail_text (x :: l)) with (";"%char :: entry_text x ++ tail_text l) in *.
    rewrite find_app by by apply plain_no_semicolon. rewrite take_app_length, Trim_nonblank by by apply plain_nonblank.
    rewrite admit_entry_text by done. rewrite drop_app_ge by lia.
    replace (S (length (entry_text e)) - length (entry_text e))%nat with 1%nat by lia.
    change (drop 1 (";"%char :: ?t)) with t. rewrite length_app in Hf. cbn [length] in Hf.
    apply NoDup_cons in Hnd as [Hni Hnd]. apply IH; [done|done| |lia].
    rewrite Forall_forall in Hfr. apply Forall_forall. intros y Hy. rewrite lookup_insert_ne; [by apply Hfr|].
    intros Hey. apply Hni. rewrite Hey. exact (list_elem_of_fmap_2 fst (x :: l) y Hy).
Qed.

Lemma foldl_insert (l : list (str * str)) (m : strmap) :
  NoDup (map fst l) -> foldl (fun m e => <[fst e := snd e]> m) m l = list_to_map l ∪ m.
Proof.
  revert m. induction l as [|[n v] l IH]; intros m Hnd; [symmetry; apply (left_id_L ∅ (∪))|].
  apply NoDup_cons in Hnd as [Hni Hnd]. cbn [foldl]. rewrite IH by done. cbn [list_to_map foldr fst snd].
  rewrite <-insert_union_l, <-insert_union_r; [done|]. by apply not_elem_of_list_to_map_1.
Qed.

(** A context's canonical text is read back entry by entry. *)
Lemma entries_canonical (o : strmap) problems :
  (forall n v, o !! n = Some v -> entry_plain (n, v)) ->
  entries_loop (S (length (CanonicalContextString o))) (CanonicalContextString o) ∅ problems = (o, problems).
Proof.
  intros Ho. unfold CanonicalContextString. set (l := merge_sort key_le (map_to_list o)).
  assert (l ≡ₚ map_to_list o) as Hperm by apply merge_sort_Permutation.
  assert (NoDup (map fst l)) as Hnd.
  { assert (map fst l ≡ₚ map fst (map_to_list o)) as -> by by apply Permutation_map. apply NoDup_fst_map_to_list. }
  assert (list_to_map l = o) as Hl.
  { rewrite <-(list_to_map_to_list o). by apply list_to_map_proper. }
  assert (Forall entry_plain l) as HF.
  { apply Forall_forall. intros [n v] Hin. apply Ho. apply elem_of_map_to_list. by rewrite <-Hperm. }
  destruct l as [|e l]; [rewrite <-Hl; done|]. cbn [fold_left]. rewrite (bool_decide_eq_true_2 (@nil ascii = [])) by done.
  change ([] ++ fst e ++ lit "=" ++ snd e) with (entry_text e).
  rewrite canonical_fold by (unfold entry_text; by intros [_ ?]%app_nil).
  rewrite entries_loop_text; [|done|done| |lia].
  - rewrite foldl_insert, Hl by done. f_equal. apply (right_id_L ∅ (∪)).
  - apply Forall_forall. intros y _. apply lookup_empty.
Qed.

(** ** Theorems *)

Lemma to_string_sep a b (x y : str) :
  0 <= a -> 0 <= b -> to_string a ++ ";"%char :: x = to_string b ++ ";"%char :: y -> a = b /\ x = y.
Proof.
  intros Ha Hb E. apply sep_inj in E as [E ->]; [|by apply to_string_no_char..]. split; [|done]. by apply to_string_inj.
Qed.

(** The five counts of the transport are what the parser bounds. *)
Record transport_counts (o : HttpOptions) : Prop := {
  tc_connect : 0 <= ho_connectTimeoutMs o;
  tc_response : 0 <= ho_responseTimeoutMs o;
  tc_transfer : 0 <= ho_transferTimeoutMs o;
  tc_attempts : 0 <= ho_maxAttempts o;
  tc_redirects : 0 <= ho_maxRedirects o }.

(** Equal fingerprints are equal options, and the same interceptor. *)
Lemma TransportFingerprint_inj a b o p :
  transport_counts o -> transport_counts p -> 0 <= a -> 0 <= b ->
  TransportFingerprint a o = TransportFingerprint b p -> o = p /\ (ho_interceptor o = true -> a = b).
Proof.
  intros [O1 O2 O3 O4 O5] [P1 P2 P3 P4 P5] Ha Hb. unfold TransportFingerprint.
  destruct o as [oc or ot ord oat od ou oi], p as [pc pr pt prd pat pd pu pi]. cbn [ho_connectTimeoutMs ho_responseTimeoutMs
    ho_transferTimeoutMs ho_maxAttempts ho_maxRedirects ho_destinations ho_userAgent ho_interceptor] in *.
  intros E. apply app_inv_head in E. cbn [lit list_ascii_of_string app] in E.
  do 5 (apply to_string_sep in E as [-> E]; [|done|done]; repeat (injection E as E)).
  assert (od = pd /\ ou ++ lit ";interceptor=" ++ (if oi then to_string a else lit "none") =
    pu ++ lit ";interceptor=" ++ (if pi then to_string b else lit "none")) as [-> E2].
  { destruct od as [[] [] [] [] []], pd as [[] [] [] [] []]; simpl in E; try discriminate E; by injection E. }
  cbn [lit list_ascii_of_string app] in E2.
  assert (forall (i : bool) z, 0 <= z -> ";"%char ∉ lit "interceptor=" ++ (if i then to_string z else lit "none")) as Hn.
  { intros i z Hz. rewrite not_elem_of_app. split; [by apply (bool_decide_unpack _); vm_compute|].
    destruct i; [by apply to_string_no_char|by apply (bool_decide_unpack _); vm_compute]. }
  apply sep_inj_r in E2 as [-> E2]; [|by apply Hn..].
  change (lit "interceptor=" ++ (if oi then to_string a else lit "none") = lit "interceptor=" ++ (if pi then to_string b else lit "none")) in E2.
  apply app_inv_head in E2. destruct oi, pi.
  - apply to_string_inj in E2; [|done|done]. by subst.
  - exfalso. pose proof (to_string_digits a Ha) as HF. rewrite E2 in HF. by apply Forall_cons in HF as [? _].
  - exfalso. pose proof (to_string_digits b Hb) as HF. rewrite <-E2 in HF. by apply Forall_cons in HF as [? _].
  - done.
Qed.

Lemma configuration_counts lookup : transport_counts (rc_transport (configuration_of lookup)).
Proof.
  pose proof (setting_range lookup kConnectTimeout 1 3600000 10000 ltac:(lia)).
  pose proof (setting_range lookup kReadTimeout 1 3600000 30000 ltac:(lia)).
  pose proof (setting_range lookup kTotalTimeout 1 3600000 300000 ltac:(lia)).
  pose proof (setting_range lookup kMaxRetries 0 100 2 ltac:(lia)).
  pose proof (setting_range lookup kMaxRedirects 0 100 5 ltac:(lia)).
  split; cbn [configuration_of rc_transport transport_of ho_connectTimeoutMs ho_responseTimeoutMs
    ho_transferTimeoutMs ho_maxAttempts ho_maxRedirects]; lia.
Qed.

Lemma configuration_cache_typed lookup : options_typed (rc_cache (configuration_of lookup)).
Proof.
  pose proof (setting_range lookup kBlockSize kMinBlockSize kMaxBlockSize kDefaultBlockSize ltac:(vm_compute; done)).
  pose proof (setting_range lookup kCacheBudget kMinBlockSize (64 * 1024 * 1024 * 1024) kDefaultBudgetBytes ltac:(vm_compute; done)).
  pose proof (setting_range lookup kCoalesceGap 0 1024 kDefaultCoalesceGapBlocks ltac:(vm_compute; done)).
  pose proof (setting_range lookup kMaxRequestBytes kMinBlockSize (4 * 1024 * 1024 * 1024) kDefaultMaxRequestBytes ltac:(vm_compute; done)).
  unfold kMinBlockSize, kMaxBlockSize in *.
  split; unfold is_u64, is_u32; cbn [configuration_of rc_cache cache_of co_blockSize co_budgetBytes co_coalesceGapBlocks
    co_maxRequestBytes co_bypassThresholdBytes]; unfold kMinBlockSize, kMaxBlockSize, kDefaultBypassThresholdBytes; lia.
Qed.

(** C20: whatever the environment holds, the configuration read from it is usable:
    every deadline is between a millisecond and an hour, the retries and the
    redirects are bounded, some destination is permitted, the cache numbers have
    their types and a normal form, and the disk budget is in its range.  Each
    variable is on its own: a value that does not parse leaves exactly its own
    variable unset, and is reported as refused, which no accepted value is. *)
Theorem ConfigurationFrom_range lookup :
  let c := fst (ConfigurationFrom lookup []) in
  let problems := snd (ConfigurationFrom lookup []) in
  let t := rc_transport c in
  (1 <= ho_connectTimeoutMs t <= 3600000 /\ 1 <= ho_responseTimeoutMs t <= 3600000 /\
   1 <= ho_transferTimeoutMs t <= 3600000 /\ 1 <= ho_maxAttempts t <= 101 /\ 0 <= ho_maxRedirects t <= 100 /\
   ho_destinations t <> empty_policy) /\
  (options_typed (rc_cache c) /\ normal_options (Normalized (rc_cache c))) /\
  kMinPersistentBudgetBytes <= dc_budgetBytes (rc_persistence c) <= 1024 * 1024 * 1024 * 1024 /\
  c = fst (ConfigurationFrom (canonical_lookup lookup) []) /\
  (forall name, name ∈ ConfiguredVariables ->
     Exists (refuses name) problems <->
     exists text r, lookup name = Some text /\ variable_parse name text = inl r).
Proof.
  destruct (ConfigurationFrom_eq lookup []) as (ps & -> & P1 & P2).
  destruct (ConfigurationFrom_eq (canonical_lookup lookup) []) as (ps' & -> & _).
  cbn [fst snd app]. pose proof (configuration_cache_typed lookup) as Hc. split_and!;
    try (cbn [configuration_of rc_transport rc_persistence transport_of persistence_of ho_connectTimeoutMs ho_responseTimeoutMs
      ho_transferTimeoutMs ho_maxRedirects dc_budgetBytes]; apply setting_range; vm_compute; done).
  - pose proof (setting_range lookup kMaxRetries 0 100 2 ltac:(lia)). cbn [configuration_of rc_transport transport_of ho_maxAttempts]. lia.
  - pose proof (setting_range lookup kMaxRetries 0 100 2 ltac:(lia)). cbn [configuration_of rc_transport transport_of ho_maxAttempts]. lia.
  - cbn [configuration_of rc_transport transport_of ho_destinations]. unfold destinations_setting.
    destruct (lookup kDestinations) as [text|]; [|done].
    destruct (ParseDestinations text) eqn:E; [done|]. by eapply ParseDestinations_ne.
  - done.
  - by apply Normalized_normal.
  - by rewrite configuration_canonical.
  - intros name Hn. rewrite Exists_exists. split.
    + intros (p & Hp & Hv & Ha). destruct (P1 p Hp) as [[? _]|(n & text & r & _ & Hl & Hr & ->)]; [congruence|].
      cbn [Refused cp_variable] in Hv. subst n. eauto.
    + intros (text & r & Hl & Hr). exists (Refused name text r). split; [by apply P2|done].
Qed.

(** C11: the text of a context is canonical: what a context carries are context
    variables with values as the parser prints them, its canonical text read over
    any environment gives it back, and so two contexts have the same text exactly
    when they carry the same values. *)
Theorem OverridesFrom_canonical text base problems :
  let o := fst (OverridesFrom text base problems) in
  (forall n v, o !! n = Some v -> n ∈ ContextVariables /\ variable_parse n v = inr v) /\
  (forall base' problems', fst (OverridesFrom (CanonicalContextString o) base' problems') = o) /\
  (forall text' base' problems', let o' := fst (OverridesFrom text' base' problems') in
     CanonicalContextString o = CanonicalContextString o' <-> o = o').
Proof.
  assert (forall text base problems n v, fst (OverridesFrom text base problems) !! n = Some v ->
    n ∈ ContextVariables /\ variable_parse n v = inr v) as Hv.
  { clear. intros text base problems n v. rewrite OverridesFrom_lookup.
    destruct (fst (entries_loop _ _ _ _) !! n) as [t|] eqn:E; [|done].
    destruct (variable_parse n t) as [|c] eqn:Ep; [done|]. intros [= <-].
    split; [|by eapply variable_parse_idem]. eapply (entries_loop_dom (S (length text)) text ∅ problems); [|by rewrite E].
    intros ? [? H]. by rewrite lookup_empty in H. }
  assert (forall text base problems base' problems',
    fst (OverridesFrom (CanonicalContextString (fst (OverridesFrom text base problems))) base' problems') =
    fst (OverridesFrom text base problems)) as Hrt.
  { clear text base problems. intros text base problems base' problems'. pose proof (Hv text base problems) as Ho.
    set (o := fst (OverridesFrom text base problems)) in *. apply map_eq. intros n. rewrite OverridesFrom_lookup.
    rewrite entries_canonical. 2:{ intros m v [Hm Hp]%Ho. split; [done|]. by eapply variable_parse_plain. }
    cbn [fst]. destruct (o !! n) as [v|] eqn:E; [|done]. destruct (Ho n v E) as [_ ->]. done. }
  intros o. split_and!; [apply Hv|intros; apply Hrt|]. intros text' base' problems' o'. split; [|by intros ->].
  intros E. unfold o, o' in *. by rewrite <-(Hrt text base problems base []), E, Hrt.
Qed.

(** A refused value of the context is judged together with its siblings: the gap
    is measured against the default request ceiling, which stands in for the
    refused one, although the environment's is the ceiling in force. *)
Example refused_sibling :
  let base := LookupIn (<[kMaxRequestBytes := lit "67108864"]> ∅) in
  let text := lit "USD_HTTP_RESOLVER_MAX_REQUEST_BYTES=oops;USD_HTTP_RESOLVER_COALESCE_GAP=500" in
  let '(overrides, problems) := OverridesFrom text base [] in
  let in_force := rc_cache (fst (ConfigurationFrom (Layered overrides base) [])) in
  map_to_list overrides = [(kCoalesceGap, lit "500")] /\
  map cp_reason problems = [lit "not a non-negative integer";
    lit "capped at 126, the widest gap that can fit under USD_HTTP_RESOLVER_MAX_REQUEST_BYTES"] /\
  co_coalesceGapBlocks (Normalized in_force) = 500.
Proof. vm_compute. split_and!; reflexivity. Qed.
