(* ===== verification/ResolverReport.v ===== *)
(** * ResolverReport: what the plugin tells its host

    plugins/http-resolver: src/Diagnostics.cpp, src/Identity.cpp, src/Report.cpp
    and src/ResolvedAsset.cpp.  The host's diagnostic system is the list of the
    messages posted to it. *)

From S2P Require Import Prelude Diagnostics Validator RangeMath AssetReader Configuration.

Definition HttpCode (c : StatusCode) : str :=
  match c with
  | Ok => []
  | NotFound => lit "HTTP001"
  | AccessDenied => lit "HTTP002"
  | RangeNotSupported => lit "HTTP003"
  | InvalidResponse => lit "HTTP004"
  | NetworkError => lit "HTTP005"
  | Timeout => lit "HTTP006"
  | AssetChanged => lit "HTTP007"
  | Cancelled => lit "HTTP008"
  | InvalidArgument => lit "HTTP009"
  | Unsupported => lit "HTTP010"
  end.

Definition kRetryOccurred : str := lit "HTTP101".

Definition Render (status : Status) (identifier : str) : str :=
  HttpCode (st_code status) ++
  (if bool_decide (st_message status = []) then [] else lit ": " ++ st_message status) ++
  match st_byteOffset status with
  | Some offset =>
      lit " (offset " ++ to_string offset ++
      match st_byteLength status with Some n => lit ", length " ++ to_string n | None => [] end ++ lit ")"
  | None => []
  end ++
  match st_transportStatus status with
  | Some t => lit " [HTTP " ++ to_string t ++ lit "]"
  | None => []
  end ++
  (if bool_decide (identifier = []) then [] else lit " " ++ ElideSecrets identifier).

Definition RenderRetryWarning (retryCount : Z) (identifier : str) : str :=
  kRetryOccurred ++ lit ": request succeeded after " ++ to_string retryCount ++
  (if retryCount =? 1 then lit " retry" else lit " retries") ++
  (if bool_decide (identifier = []) then [] else lit " " ++ ElideSecrets identifier).

(** ** Posting *)

(** [TF_WARN], [TF_CODING_ERROR] and [TF_RUNTIME_ERROR]. *)
Inductive Posted : Type :=
| PostWarn (message : str)
| PostCodingError (message : str)
| PostRuntimeError (message : str).

#[export] Instance Posted_eq_dec : EqDecision Posted.
Proof. solve_decision. Defined.

Definition Report (status : Status) (identifier : str) : list Posted :=
  if IsOk status then []
  else
    let message := Render status identifier in
    match st_severity status with
    | Warning => [PostWarn message]
    | CodingError => [PostCodingError message]
    | Error => [PostRuntimeError message]
    end.

Definition ReportRetries (retryCount : Z) (identifier : str) : list Posted :=
  if retryCount =? 0 then [] else [PostWarn (RenderRetryWarning retryCount identifier)].

Definition ReportConfigurationProblem (p : ConfigurationProblem) : list Posted :=
  if cp_fromContext p then
    if bool_decide (cp_variable p = []) then
      [PostWarn (lit "a resolver context has an entry '" ++ cp_value p ++ lit "', which is " ++ cp_reason p ++
                 lit "; it is ignored")]
    else if cp_adjusted p then
      [PostWarn (lit "a resolver context sets " ++ cp_variable p ++ lit " to '" ++ cp_value p ++ lit "': " ++ cp_reason p)]
    else
      [PostWarn (lit "a resolver context sets " ++ cp_variable p ++ lit " to '" ++ cp_value p ++ lit "', which is " ++
                 cp_reason p ++ lit "; stages bound to it use the environment's value or the default")]
  else if cp_adjusted p then
    [PostWarn (cp_variable p ++ lit " is set to '" ++ cp_value p ++ lit "': " ++ cp_reason p)]
  else
    [PostWarn (cp_variable p ++ lit " is set to '" ++ cp_value p ++ lit "', which is " ++ cp_reason p ++
               lit "; using the default")].

(** ** The published identity *)

Record PublishedIdentity : Type := mkPublished {
  pi_resolvedIdentifier : str;
  pi_size : Z;
  pi_validationToken : str;
  pi_stability : str;
  pi_reusable : bool }.

Definition PublishIdentity (metadata : AssetMetadata) (contradicted : bool) : PublishedIdentity :=
  let resolvedIdentifier := ElideSecrets (am_resolvedIdentifier metadata) in
  let validationToken := if IsUsable (am_validator metadata) then v_value (am_validator metadata) else [] in
  let stability := am_stability metadata in
  let stability := if contradicted && bool_decide (stability = Stable) then Unstable else stability in
  let reusable := bool_decide (stability = Stable) && negb (bool_decide (validationToken = [])) &&
                  negb (bool_decide (resolvedIdentifier = [])) in
  let name := if negb reusable && bool_decide (stability = Stable) then IdentityStabilityName Unavailable
              else IdentityStabilityName stability in
  mkPublished resolvedIdentifier (am_size metadata) validationToken name reusable.

(** ** The asset handed to the host *)

Section asset.
Context {R : Type} `{AssetReader R}.

(** [_metrics] is null or the reader's own counter block: what is read of it is
    its retry count. *)
Context (retryCount : option (R -> Z)).

Record HttpResolvedAsset : Type := mkAsset {
  ra_reader : R;
  ra_identifier : str;
  ra_reportedRetries : Z }.

Definition ReportNewRetries (a : HttpResolvedAsset) : HttpResolvedAsset * list Posted :=
  match retryCount with
  | None => (a, [])
  | Some count =>
      let retries := count (ra_reader a) in
      let reported := ra_reportedRetries a in
      if retries >? reported
      then (mkAsset (ra_reader a) (ra_identifier a) retries, ReportRetries (u64 (retries - reported)) (ra_identifier a))
      else (a, [])
  end.

Definition HttpResolvedAsset_new (reader : R) : HttpResolvedAsset * list Posted :=
  ReportNewRetries (mkAsset reader (am_resolvedIdentifier (Metadata reader)) 0).

Definition GetSize (a : HttpResolvedAsset) : Z := am_size (Metadata (ra_reader a)).

(** The buffer and the size [Read] returns, the asset after it, and what it
    posts. *)
Definition Asset_Read (a : HttpResolvedAsset) (buffer : option bytes) (count offset : Z)
    : Z * option bytes * HttpResolvedAsset * list Posted :=
  let '(result, buffer, reader) := Read (ra_reader a) offset buffer count in
  let '(a, posted) := ReportNewRetries (mkAsset reader (ra_identifier a) (ra_reportedRetries a)) in
  if negb (IsOk (rr_status result))
  then (0, buffer, a, posted ++ Report (rr_status result) (ra_identifier a))
  else (rr_bytesRead result, buffer, a, posted).

(** ** Theorems *)

Lemma ReportNewRetries_keeps a :
  ra_reader (fst (ReportNewRetries a)) = ra_reader a /\ ra_identifier (fst (ReportNewRetries a)) = ra_identifier a.
Proof. unfold ReportNewRetries. destruct retryCount; [|done]. by destruct (_ >? _). Qed.

Lemma Report_nil status identifier : Report status identifier = [] <-> IsOk status = true.
Proof. unfold Report. destruct (IsOk status); [done|]. by destruct (st_severity status). Qed.

(** The asset the host reads through keeps the reader's contract with one
    number: what [Read] returns is exactly the count the asset has, with those
    bytes in the buffer, and anything less is a failure, for which it returns
    zero whatever was placed in the buffer and posts the failure after the
    retries.  The buffer keeps its length. *)
Theorem Asset_Read_contract (Inv : R -> Prop) A (a : HttpResolvedAsset) count offset buffer :
  ReaderContract R Inv A -> Inv (ra_reader a) -> is_u64 offset -> is_u64 count -> zlen buffer = count ->
  exists n out a' posted status,
    Asset_Read a (Some buffer) count offset = (n, Some out, a', posted ++ Report status (ra_identifier a)) /\
    Inv (ra_reader a') /\ ra_identifier a' = ra_identifier a /\ length out = length buffer /\
    (Report status (ra_identifier a) = [] ->
       n = available offset count (zlen A) /\ take (Z.to_nat n) out = slice A offset n) /\
    (Report status (ra_identifier a) <> [] -> n = 0).
Proof.
  intros HC Hi Ho Hc Hz. unfold Asset_Read. destruct (Read (ra_reader a) offset (Some buffer) count) as [[res out] r] eqn:E.
  destruct (rc_read _ _ _ _ _ _ _ Hi Ho Hc Hz E) as (Hi' & d & -> & Hp).
  destruct (ReportNewRetries_keeps (mkAsset r (ra_identifier a) (ra_reportedRetries a))) as [K1 K2].
  destruct (ReportNewRetries _) as [a' posted]. cbn [fst ra_reader ra_identifier] in K1, K2. rewrite K2.
  destruct Hp as [P1 P2 P3 P4]. destruct (IsOk (rr_status res)) eqn:Eok; cbn [negb].
  - exists (rr_bytesRead res), d, a', posted, (rr_status res). rewrite (proj2 (Report_nil _ _)) by done.
    rewrite app_nil_r, K1. split_and!; try done. intros _. by apply P4.
  - exists 0, d, a', posted, (rr_status res). rewrite K1. split_and!; try done.
    intros ?%Report_nil. congruence.
Qed.
End asset.

(** An identity is published as reusable exactly when it is the stable one of
    an identifier that never contradicted itself, with a token and a name to
    attach it to; nothing else is called stable, and the identifier published
    carries no userinfo of the URL. *)
Theorem PublishIdentity_reusable metadata contradicted :
  let p := PublishIdentity metadata contradicted in
  (pi_reusable p = true <->
     contradicted = false /\ am_stability metadata = Stable /\ IsUsable (am_validator metadata) = true /\
     v_value (am_validator metadata) <> [] /\ ElideSecrets (am_resolvedIdentifier metadata) <> []) /\
  (pi_stability p = lit "Stable" <-> pi_reusable p = true) /\
  (pi_reusable p = true -> pi_validationToken p = v_value (am_validator metadata)) /\
  pi_resolvedIdentifier p = ElideSecrets (am_resolvedIdentifier metadata) /\ pi_size p = am_size metadata.
Proof.
  unfold PublishIdentity. cbn [pi_reusable pi_stability pi_validationToken pi_resolvedIdentifier pi_size].
  set (id := ElideSecrets _). destruct (am_stability metadata), contradicted, (IsUsable (am_validator metadata));
    rewrite ?(bool_decide_eq_true_2 (Stable = Stable)), ?(bool_decide_eq_false_2 (_ = Stable)) by done; cbn [andb negb];
    destruct (bool_decide_reflect (v_value (am_validator metadata) = [])), (bool_decide_reflect (id = []));
    rewrite ?(bool_decide_eq_true_2 (@nil ascii = [])) by done; cbn [andb negb];
    rewrite ?(bool_decide_eq_true_2 (Stable = Stable)), ?(bool_decide_eq_false_2 (_ = Stable)) by done; cbn [andb negb];
    split_and!; try done; naive_solver.
Qed.
