(* ===== verification/HttpResolver.v ===== *)
(** * HttpResolver: the resolver

    plugins/http-resolver: src/HttpResolver.h and src/HttpResolver.cpp, with the
    context object of src/Context.cpp.  The shared state is [Resolver]: the
    entries of retained opens ([_Opened] objects, shared by reference and so kept
    in a heap), the table and the order of their keys, the remembered identities
    and the fingerprints.  A definition that takes and returns a [Resolver] is
    one section of the source under one lock; a handler is their sequence, with
    the world the opens happen in and the messages posted threaded through.  The
    HTTP client's [Open] is the class [HttpOpener]; the bound context and the
    current scope's cache, which OpenUSD keeps per thread, are arguments. *)

From S2P Require Import Prelude Diagnostics Validator AssetReader Metrics CacheOptions BlockCache PersistentTier CachedReader.
From S2P Require Import DiskStore Destination HttpReader Identifier Configuration ResolverReport.

(** [usdasset::http::Open], and the counters of the reader it returns. *)
Class HttpOpener (W R : Type) : Type := {
  opener_Open : str -> HttpOptions -> W -> OpenResult R * W;
  opener_Metrics : R -> ReaderMetrics }.

Definition kMaxRetainedOpens : nat := 64.

Definition kMaxRememberedIdentities : nat := 512.

Record Effective : Type := mkEffective {
  ef_transport : HttpOptions;
  ef_cache : CacheOptions;
  ef_fingerprint : str }.

Record IdentityEntry : Type := mkIdentity {
  ie_metadata : AssetMetadata;
  ie_reachedUnder : list DestinationPolicy }.

Record Fingerprint : Type := mkFingerprint {
  fp_validator : Validator;
  fp_seen : bool;
  fp_contradicted : bool }.

Definition Fingerprint_new : Fingerprint := mkFingerprint Validator_none false false.

Definition AssetMetadata_new : AssetMetadata :=
  mkAssetMetadata [] 0 false Validator_none Unavailable [].

(** The answer of [_GetAssetInfo]: [version] and the dictionary, if any. *)
Record AssetInfo : Type := mkAssetInfo {
  ai_version : str;
  ai_resolverInfo : option PublishedIdentity }.

Definition AssetInfo_new : AssetInfo := mkAssetInfo [] None.

Section resolver.
Context {W R : Type} `{AssetReader R} `{HttpOpener W R}.

(** [_Opened], without its mutex. *)
Record Opened : Type := mkOpened {
  od_opened : bool;
  od_reader : option R;
  od_status : Status;
  od_succeeded : bool;
  od_metadata : AssetMetadata }.

Definition Opened_new : Opened := mkOpened false None Status_Ok false AssetMetadata_new.

Record Resolver : Type := mkResolver {
  rv_heap : gmap nat Opened;
  rv_next : nat;
  rv_table : gmap str nat;
  rv_order : list str;
  rv_identities : gmap str IdentityEntry;
  rv_identityOrder : list str;
  rv_fingerprints : gmap str Fingerprint }.

Definition Resolver_new : Resolver := mkResolver ∅ 0 ∅ [] ∅ [] ∅.

Definition with_table (table : gmap str nat) (order : list str) (s : Resolver) : Resolver :=
  mkResolver (rv_heap s) (rv_next s) table order (rv_identities s) (rv_identityOrder s) (rv_fingerprints s).

Definition with_entry (e : nat) (o : Opened) (s : Resolver) : Resolver :=
  mkResolver (<[e := o]> (rv_heap s)) (rv_next s) (rv_table s) (rv_order s) (rv_identities s)
    (rv_identityOrder s) (rv_fingerprints s).

Definition entry_of (e : nat) (s : Resolver) : Opened := default Opened_new (rv_heap s !! e).

(** ** Under the table lock *)

(** [while (_order.size() > bound)]: the oldest goes. *)
Fixpoint evict_oldest {A} (bound : nat) (order : list str) (table : gmap str A) : gmap str A * list str :=
  match order with
  | [] => (table, [])
  | oldest :: order' =>
      if (bound <? length order)%nat then evict_oldest bound order' (delete oldest table) else (table, order)
  end.

Definition GetOrCreate (key : str) (s : Resolver) : nat * Resolver :=
  match rv_table s !! key with
  | Some e => (e, s)
  | None =>
      let e := rv_next s in
      let '(table, order) := evict_oldest kMaxRetainedOpens (rv_order s ++ [key]) (<[key := e]> (rv_table s)) in
      (e, mkResolver (<[e := Opened_new]> (rv_heap s)) (S e) table order (rv_identities s) (rv_identityOrder s)
            (rv_fingerprints s))
  end.

(** The loop that erases the first occurrence from a deque. *)
Fixpoint erase_first (key : str) (order : list str) : list str :=
  match order with
  | [] => []
  | k :: order' => if str_eqb k key then order' else k :: erase_first key order'
  end.

Definition Take (key : str) (s : Resolver) : option nat * Resolver :=
  match rv_table s !! key with
  | None => (None, s)
  | Some e => (Some e, with_table (delete key (rv_table s)) (erase_first key (rv_order s)) s)
  end.

Definition Forget (key : str) (e : nat) (s : Resolver) : Resolver :=
  match rv_table s !! key with
  | None => s
  | Some found =>
      if negb (found =? e)%nat then s
      else with_table (delete key (rv_table s)) (erase_first key (rv_order s)) s
  end.

(** ** Under the identity lock *)

Definition RememberIdentity (identifier : str) (metadata : AssetMetadata) (reachedUnder : DestinationPolicy)
    (s : Resolver) : bool * Resolver :=
  let fingerprint := default Fingerprint_new (rv_fingerprints s !! identifier) in
  let fingerprint :=
    if negb (fp_seen fingerprint) then mkFingerprint (am_validator metadata) true (fp_contradicted fingerprint)
    else if negb (Validator_eqb (fp_validator fingerprint) (am_validator metadata))
    then mkFingerprint (am_validator metadata) (fp_seen fingerprint) true
    else fingerprint in
  let '(identities, order) :=
    match rv_identities s !! identifier with
    | Some found =>
        let policies := ie_reachedUnder found in
        let policies := if bool_decide (reachedUnder ∈ policies) then policies else policies ++ [reachedUnder] in
        (<[identifier := mkIdentity metadata policies]> (rv_identities s), rv_identityOrder s)
    | None =>
        evict_oldest kMaxRememberedIdentities (rv_identityOrder s ++ [identifier])
          (<[identifier := mkIdentity metadata [reachedUnder]]> (rv_identities s))
    end in
  (fp_contradicted fingerprint,
   mkResolver (rv_heap s) (rv_next s) (rv_table s) (rv_order s) identities order
     (<[identifier := fingerprint]> (rv_fingerprints s))).

Definition KnownIdentity (identifier : str) (policy : DestinationPolicy) (s : Resolver)
    : option (AssetMetadata * bool) :=
  match rv_identities s !! identifier with
  | None => None
  | Some found =>
      if negb (existsb (Covers policy) (ie_reachedUnder found)) then None
      else
        Some (ie_metadata found,
              match rv_fingerprints s !! identifier with
              | Some fingerprint => fp_contradicted fingerprint
              | None => false
              end)
  end.

(** ** Under an entry's lock *)

(** The open of [_ResolveOnce] and [_IdentityFor], once per entry. *)
Definition OpenEntry (e : nat) (identifier : str) (transport : HttpOptions) (s : Resolver) (w : W)
    : Resolver * W :=
  let entry := entry_of e s in
  if od_opened entry then (s, w)
  else
    let '(result, w) := opener_Open identifier transport w in
    let entry :=
      match or_reader result with
      | Some reader => mkOpened true (Some reader) (or_status result) true (Metadata reader)
      | None => mkOpened true None (or_status result) (od_succeeded entry) (od_metadata entry)
      end in
    (with_entry e entry s, w).

(** [std::move(entry->result.reader)]. *)
Definition MoveReader (e : nat) (s : Resolver) : option R * Resolver :=
  let entry := entry_of e s in
  (od_reader entry,
   with_entry e (mkOpened (od_opened entry) None (od_status entry) (od_succeeded entry) (od_metadata entry)) s).

(** ** Configuration *)

Record Settings : Type := mkSettings {
  se_environment : strmap;
  se_base : Effective }.

Definition effective_of (configuration : ResolverConfiguration) : Effective :=
  mkEffective (rc_transport configuration) (Normalized (rc_cache configuration))
    (TransportFingerprint 0 (rc_transport configuration)).

(** [context] is the [HttpResolverContext] bound on the calling thread. *)
Definition EffectiveConfiguration (settings : Settings) (context : option strmap) : Effective :=
  match context with
  | None => se_base settings
  | Some overrides =>
      if bool_decide (overrides = ∅) then se_base settings
      else effective_of (fst (ConfigurationFrom (Layered overrides (LookupIn (se_environment settings))) []))
  end.

Definition OpenKey (identifier : str) (effective : Effective) : str :=
  identifier ++ "010"%char :: ef_fingerprint effective.

Definition CreateContextFromString (settings : Settings) (contextStr : str) : strmap * list Posted :=
  let '(overrides, problems) := OverridesFrom contextStr (LookupIn (se_environment settings)) [] in
  (overrides, concat (map ReportConfigurationProblem problems)).

(** [HttpResolverContext]: [GetAsString] and the debug string. *)
Definition Context_GetAsString (overrides : strmap) : str := CanonicalContextString overrides.

Definition ArGetDebugString (overrides : strmap) : str :=
  lit "HttpResolverContext(" ++ Context_GetAsString overrides ++ lit ")".

(** ** Handlers *)

Record Sys : Type := mkSys {
  sy_resolver : Resolver;
  sy_world : W;
  sy_posted : list Posted }.

Definition post (p : list Posted) (y : Sys) : Sys := mkSys (sy_resolver y) (sy_world y) (sy_posted y ++ p).

Definition on_resolver (f : Resolver -> Resolver) (y : Sys) : Sys :=
  mkSys (f (sy_resolver y)) (sy_world y) (sy_posted y).

Definition on_entry (e : nat) (identifier : str) (transport : HttpOptions) (y : Sys) : Sys :=
  let '(s, w) := OpenEntry e identifier transport (sy_resolver y) (sy_world y) in mkSys s w (sy_posted y).

(** The identifier, or the empty path. *)
Definition ResolveOnce (identifier key : str) (effective : Effective) (y : Sys) : str * Sys :=
  let '(e, s) := GetOrCreate key (sy_resolver y) in
  let y := on_entry e identifier (ef_transport effective) (on_resolver (fun _ => s) y) in
  let entry := entry_of e (sy_resolver y) in
  if od_succeeded entry then
    (identifier,
     on_resolver (fun s => snd (RememberIdentity identifier (od_metadata entry)
                                  (ho_destinations (ef_transport effective)) s)) y)
  else
    let status := od_status entry in
    let y := on_resolver (Forget key e) y in
    ([], if negb (bool_decide (st_code status = NotFound)) then post (Report status identifier) y else y).

(** [unordered_map::emplace]: an answer that is there stays. *)
Definition emplace (key resolved : str) (cache : strmap) : strmap :=
  match cache !! key with Some _ => cache | None => <[key := resolved]> cache end.

(** [scope] is the cache of the current [ArResolverScopedCache], if there is one. *)
Definition Resolve (settings : Settings) (context : option strmap) (assetPath : str) (scope : option strmap)
    (y : Sys) : str * option strmap * Sys :=
  let identifier := CreateIdentifier assetPath [] in
  if bool_decide (identifier = []) then ([], scope, y)
  else
    let effective := EffectiveConfiguration settings context in
    let key := OpenKey identifier effective in
    match (match scope with Some cache => cache !! key | None => None end) with
    | Some resolved => (resolved, scope, y)
    | None =>
        let '(resolved, y) := ResolveOnce identifier key effective y in
        (resolved,
         match scope with
         | Some cache => Some (emplace key resolved cache)
         | None => None
         end, y)
    end.

(** The reader [_OpenAsset] goes on with: the retained one, or a new open's. *)
Definition AcquireReader (identifier : str) (effective : Effective) (y : Sys) : option R * Sys :=
  let '(taken, s) := Take (OpenKey identifier effective) (sy_resolver y) in
  let y := on_resolver (fun _ => s) y in
  let '(reader, y) :=
    match taken with
    | Some e => let '(reader, s) := MoveReader e (sy_resolver y) in (reader, on_resolver (fun _ => s) y)
    | None => (None, y)
    end in
  match reader with
  | Some reader => (Some reader, y)
  | None =>
      let '(result, w) := opener_Open identifier (ef_transport effective) (sy_world y) in
      let y := mkSys (sy_resolver y) w (sy_posted y) in
      match or_reader result with
      | Some reader => (Some reader, y)
      | None => (None, post (Report (or_status result) identifier) y)
      end
  end.

Definition retries_of (r : R) : Z := rm_value (opener_Metrics r) retryCount.

(** The asset: the reader [WrapAsset] gave, the identifier it reports under and
    the retries its constructor reported. *)
Record OpenedAsset : Type := mkOpenedAsset {
  oa_reader : wrapped (R := R);
  oa_identifier : str;
  oa_reportedRetries : Z }.

Definition OpenAsset {D} `{PersistentTier D} (settings : Settings) (context : option strmap) (resolvedPath : str)
    (store : BlockCache.Store) (d : D) (y : Sys) : option OpenedAsset * Sys :=
  let identifier := CreateIdentifier resolvedPath [] in
  if bool_decide (identifier = []) then (None, y)
  else
    let effective := EffectiveConfiguration settings context in
    let '(reader, y) := AcquireReader identifier effective y in
    match reader with
    | None => (None, y)
    | Some reader =>
        let y := on_resolver (fun s => snd (RememberIdentity identifier (Metadata reader)
                                              (ho_destinations (ef_transport effective)) s)) y in
        match WrapAsset (mkOpenResult (Some reader) Status_Ok) (Some (opener_Metrics reader)) (ef_cache effective)
                store d with
        | NoReader status => (None, post (Report status identifier) y)
        | cached =>
            let '(a, posted) := HttpResolvedAsset_new (Some retries_of) reader in
            (Some (mkOpenedAsset cached (ra_identifier a) (ra_reportedRetries a)), post posted y)
        end
    end.

Definition UnsupportedWrite : Status :=
  Status_Error Unsupported (lit "assets are read-only; publish a new revision at a new path").

Definition OpenAssetForWrite (resolvedPath : str) (y : Sys) : option OpenedAsset * Sys :=
  (None, post (Report UnsupportedWrite resolvedPath) y).

Definition CanWriteAssetToPath : bool * str := (false, Render UnsupportedWrite []).

(** Nothing is written through this resolver, an identifier carries no
    timestamp, and whether it resolves depends on the context. *)
Definition CreateIdentifierForNewAsset (assetPath anchorAssetPath : str) : str := [].

Definition ResolveForNewAsset (assetPath : str) : str := [].

Definition GetModificationTimestamp (assetPath resolvedPath : str) : option Z := None.

Definition IsContextDependentPath (assetPath : str) : bool := true.

Definition IdentityFor (identifier : str) (mayOpen : bool) (effective : Effective) (y : Sys)
    : option (AssetMetadata * bool) * Sys :=
  let destinations := ho_destinations (ef_transport effective) in
  match KnownIdentity identifier destinations (sy_resolver y) with
  | Some known => (Some known, y)
  | None =>
      if negb mayOpen then (None, y)
      else
        let key := OpenKey identifier effective in
        let '(e, s) := GetOrCreate key (sy_resolver y) in
        let y := on_entry e identifier (ef_transport effective) (on_resolver (fun _ => s) y) in
        let entry := entry_of e (sy_resolver y) in
        if od_succeeded entry then
          let '(contradicted, s) := RememberIdentity identifier (od_metadata entry) destinations (sy_resolver y) in
          (Some (od_metadata entry, contradicted), on_resolver (fun _ => s) y)
        else (None, on_resolver (Forget key e) y)
  end.

Definition info_of (known : AssetMetadata * bool) : AssetInfo :=
  let published := PublishIdentity (fst known) (snd known) in
  mkAssetInfo (if pi_reusable published then pi_validationToken published else []) (Some published).

Definition GetAssetInfo (settings : Settings) (context : option strmap) (assetPath resolvedPath : str) (y : Sys)
    : AssetInfo * Sys :=
  let resolved := negb (bool_decide (resolvedPath = [])) in
  let identifier := CreateIdentifier (if resolved then resolvedPath else assetPath) [] in
  if bool_decide (identifier = []) then (AssetInfo_new, y)
  else
    match IdentityFor identifier resolved (EffectiveConfiguration settings context) y with
    | (None, y) => (AssetInfo_new, y)
    | (Some known, y) => (info_of known, y)
    end.

(** [_Configure], with the process stores it configures. *)
Definition Resolver_Configure {F} `{FileSystem F} (environment : EnvironmentLookup) (store : BlockCache.Store)
    (d : DiskBlockStore F) : Settings * BlockCache.Store * DiskBlockStore F * list Posted :=
  let snapshot := Configuration.Snapshot environment in
  let '(configuration, problems) := ConfigurationFrom (LookupIn snapshot) [] in
  let base := effective_of configuration in
  let '(configured, store) := BlockCache.ConfigureProcess (ef_cache base) store in
  let problems :=
    if negb configured then
      problems ++ [Refused kCacheBudget (to_string (co_budgetBytes (ef_cache base)))
        (lit "the process block store was already in use; its budget and block size were left as they were")]
    else problems in
  let '(problems, d) :=
    if bool_decide (dc_directory (rc_persistence configuration) = []) then (problems, d)
    else
      let '(enabled, d) := DiskStore.Configure (rc_persistence configuration) d in
      (if negb enabled then
         problems ++ [Refused kPersistentDirectory (dc_directory (rc_persistence configuration))
           (lit "not a directory this process can create and write")]
       else problems, d) in
  (mkSettings snapshot base, store, d, concat (map ReportConfigurationProblem problems)).

End resolver.
