(* ===== verification/HttpResolverSpec.v ===== *)
(** * HttpResolverSpec: what the resolver keeps

    The threads of a host call the handlers of [HttpResolver] concurrently.  Each
    handler is a sequence of the sections it runs under one lock, so the resolver
    under any number of threads is the relation [rstep]: any section, at any time,
    by a caller that holds what the section needs.  The invariants are proved for
    every state it reaches, and the handlers are paths of it. *)

From S2P Require Import Prelude Diagnostics Validator AssetReader Metrics CacheOptions BlockCache PersistentTier CachedReader.
From S2P Require Import DiskStore Destination HttpReader Identifier Configuration ConfigurationSpec ResolverReport HttpResolver.

(** ** Bounded tables *)

(** A deque that lists the keys of a table, once each. *)
Record keys_listed {A} (order : list str) (table : gmap str A) : Prop := {
  ls_nodup : NoDup order;
  ls_keys : forall k, k ∈ order <-> is_Some (table !! k) }.

Lemma listed_delete {A} (oldest : str) (order : list str) (table : gmap str A) :
  keys_listed (oldest :: order) table -> keys_listed order (delete oldest table).
Proof.
  intros [Hn Hk]. apply NoDup_cons in Hn as [Hni Hn]. split; [done|]. intros k. specialize (Hk k).
  rewrite elem_of_cons in Hk. destruct (decide (k = oldest)) as [->|Hne].
  - rewrite lookup_delete_eq. split; [done|]. intros [? ?]. done.
  - rewrite lookup_delete_ne by done. rewrite <-Hk. tauto.
Qed.

Lemma evict_subseteq {A} (bound : nat) (order : list str) (table : gmap str A) table' order' :
  evict_oldest bound order table = (table', order') -> table' ⊆ table.
Proof.
  revert table. induction order as [|k order IH]; intros table; cbn [evict_oldest]; [by intros [= <- <-]|].
  destruct (_ <? _)%nat; [|by intros [= <- <-]]. intros E%IH. etrans; [exact E|]. apply delete_subseteq.
Qed.

Lemma evict_spec {A} (bound : nat) (order : list str) (table : gmap str A) :
  keys_listed order table ->
  let '(table', order') := evict_oldest bound order table in
  keys_listed order' table' /\ (length order' <= bound)%nat.
Proof.
  revert table. induction order as [|k order IH]; intros table Hl; cbn [evict_oldest]; [split; [done|cbn; lia]|].
  destruct (Nat.ltb_spec bound (length (k :: order))); [|split; [done|lia]].
  by apply IH, listed_delete.
Qed.

Lemma listed_snoc {A} (key : str) (x : A) (order : list str) (table : gmap str A) :
  keys_listed order table -> table !! key = None -> keys_listed (order ++ [key]) (<[key := x]> table).
Proof.
  intros [Hn Hk] Hf. split.
  - apply NoDup_app. split_and!; [done| |apply NoDup_singleton]. intros k Hin Hs.
    apply list_elem_of_singleton in Hs as ->. apply Hk in Hin as [? ?]. congruence.
  - intros k. rewrite elem_of_app, list_elem_of_singleton, Hk. destruct (decide (k = key)) as [->|Hne].
    + rewrite lookup_insert_eq. split; [done|]. intros _. by right.
    + rewrite lookup_insert_ne by done. split; [|by left]. by intros [?|?].
Qed.

Lemma erase_first_elem key (order : list str) :
  NoDup order -> NoDup (erase_first key order) /\ (forall k, k ∈ erase_first key order <-> k ∈ order /\ k <> key) /\
  (length (erase_first key order) <= length order)%nat.
Proof.
  induction order as [|x order IH]; intros Hn; cbn [erase_first].
  { split_and!; [done| |done]. intros k. split; [by intros ?%not_elem_of_nil|]. by intros [?%not_elem_of_nil _]. }
  apply NoDup_cons in Hn as [Hni Hn]. destruct (IH Hn) as (I1 & I2 & I3). destruct (str_eqb x key) eqn:E.
  - apply str_eqb_eq in E as ->. split_and!; [done| |cbn; lia]. intros k. rewrite elem_of_cons. split.
    + intros Hin. split; [by right|]. by intros ->.
    + intros [[->|?] ?]; done.
  - assert (x <> key) as Hne by (intros ->; by rewrite (proj2 (str_eqb_eq key key)) in E).
    split_and!; [| |cbn; lia].
    + apply NoDup_cons. split; [|done]. intros [? _]%I2. done.
    + intros k. rewrite !elem_of_cons, I2. split; [|tauto]. intros [->|[? ?]]; [by split; [left|]|]. split; [by right|done].
Qed.

Lemma listed_erase {A} (key : str) (order : list str) (table : gmap str A) :
  keys_listed order table -> keys_listed (erase_first key order) (delete key table).
Proof.
  intros [Hn Hk]. destruct (erase_first_elem key order Hn) as (H1 & H2 & _). split; [done|].
  intros k. rewrite H2, Hk. destruct (decide (k = key)) as [->|Hne].
  - rewrite lookup_delete_eq. split; [by intros [_ ?]|]. intros [? ?]. done.
  - rewrite lookup_delete_ne by done. tauto.
Qed.

Section spec.
Context {W R : Type} `{AssetReader R} `{HttpOpener W R}.

Abbreviation Resolver := (Resolver (R := R)).

(** The tables are listed by their deques and bounded, and what they hold was
    allocated. *)
Record tables_ok (s : Resolver) : Prop := {
  tk_table : keys_listed (rv_order s) (rv_table s);
  tk_opens : (length (rv_order s) <= kMaxRetainedOpens)%nat;
  tk_identities : keys_listed (rv_identityOrder s) (rv_identities s);
  tk_remembered : (length (rv_identityOrder s) <= kMaxRememberedIdentities)%nat }.

Lemma listed_nil {A} : keys_listed [] (∅ : gmap str A).
Proof.
  split; [constructor|]. intros k. rewrite lookup_empty. split; [by intros ?%not_elem_of_nil|]. by intros [? ?].
Qed.

Lemma tables_new : tables_ok Resolver_new.
Proof. split; [apply listed_nil|cbn; lia|apply listed_nil|cbn; lia]. Qed.

Lemma tables_GetOrCreate key s : tables_ok s -> tables_ok (snd (GetOrCreate key s)).
Proof.
  intros [T1 T2 T3 T4]. unfold GetOrCreate. destruct (rv_table s !! key) eqn:E; [done|].
  pose proof (evict_spec kMaxRetainedOpens _ _ (listed_snoc key (rv_next s) _ _ T1 E)) as He.
  destruct (evict_oldest _ _ _) as [table order]. destruct He as [? ?]. by split.
Qed.

Lemma tables_erase key s : tables_ok s -> tables_ok (with_table (delete key (rv_table s)) (erase_first key (rv_order s)) s).
Proof.
  intros [T1 T2 T3 T4]. split; cbn [with_table rv_table rv_order rv_identities rv_identityOrder]; try done.
  - by apply listed_erase.
  - etrans; [|exact T2]. apply erase_first_elem, T1.
Qed.

Lemma tables_Take key s : tables_ok s -> tables_ok (snd (Take key s)).
Proof. intros Ht. unfold Take. destruct (rv_table s !! key); [by apply tables_erase|done]. Qed.

Lemma tables_Forget key e s : tables_ok s -> tables_ok (Forget key e s).
Proof.
  intros Ht. unfold Forget. destruct (rv_table s !! key); [|done]. destruct (negb _); [done|]. by apply tables_erase.
Qed.

Lemma tables_with_entry e o s : tables_ok s -> tables_ok (with_entry e o s).
Proof. by intros [? ? ? ?]. Qed.

Lemma tables_OpenEntry e identifier transport s w : tables_ok s -> tables_ok (fst (OpenEntry e identifier transport s w)).
Proof.
  intros Ht. unfold OpenEntry. destruct (od_opened _); [done|]. destruct (opener_Open _ _ _) as [res w']. by apply tables_with_entry.
Qed.

Lemma tables_MoveReader e s : tables_ok s -> tables_ok (snd (MoveReader e s)).
Proof. by apply tables_with_entry. Qed.

Lemma tables_Remember identifier metadata policy s :
  tables_ok s -> tables_ok (snd (RememberIdentity identifier metadata policy s)).
Proof.
  intros [T1 T2 T3 T4]. unfold RememberIdentity. destruct (rv_identities s !! identifier) as [found|] eqn:E.
  - split; cbn [snd rv_table rv_order rv_identities rv_identityOrder]; try done. destruct T3 as [Hn Hk]. split; [done|].
    intros k. rewrite Hk. destruct (decide (k = identifier)) as [->|Hne]; [rewrite lookup_insert_eq, E; by split|].
    by rewrite lookup_insert_ne.
  - pose proof (evict_spec kMaxRememberedIdentities _ _ (listed_snoc identifier (mkIdentity metadata [policy]) _ _ T3 E)) as He.
    destruct (evict_oldest _ _ _) as [ids order]. destruct He as [? ?]. by split.
Qed.

(** ** Threads *)

(** What [_EffectiveConfiguration] can return: options read from a configuration,
    under their own fingerprint. *)
Record effective_ok (ef : Effective) : Prop := {
  eo_counts : transport_counts (ef_transport ef);
  eo_agent : ho_userAgent (ef_transport ef) = [];
  eo_interceptor : ho_interceptor (ef_transport ef) = false;
  eo_fingerprint : ef_fingerprint ef = TransportFingerprint 0 (ef_transport ef) }.

Lemma effective_of_ok lookup : effective_ok (effective_of (fst (ConfigurationFrom lookup []))).
Proof.
  destruct (ConfigurationFrom_eq lookup []) as (ps & -> & _). split; try done. apply configuration_counts.
Qed.

(** No line break in a fingerprint. *)
Lemma fingerprint_newline ef : effective_ok ef -> "010"%char ∉ ef_fingerprint ef.
Proof.
  intros [[C1 C2 C3 C4 C5] Ha Hi ->]. unfold TransportFingerprint. rewrite Ha, Hi.
  rewrite !not_elem_of_app. split_and!; try (apply to_string_no_char; done);
    try (by apply (bool_decide_unpack _); vm_compute);
    match goal with |- _ ∉ (if ?b then _ else _) => destruct b end; by apply (bool_decide_unpack _); vm_compute.
Qed.

(** A key names one identifier and one set of options: the last line break is the
    one between them, whatever the query of the identifier holds. *)
Lemma OpenKey_inj id1 ef1 id2 ef2 :
  effective_ok ef1 -> effective_ok ef2 -> OpenKey id1 ef1 = OpenKey id2 ef2 ->
  id1 = id2 /\ ef_transport ef1 = ef_transport ef2.
Proof.
  intros H1 H2 E. apply sep_inj_r in E as [-> E]; [|by apply fingerprint_newline..]. split; [done|].
  destruct H1 as [C1 _ _ F1], H2 as [C2 _ _ F2]. rewrite F1, F2 in E. by apply TransportFingerprint_inj in E as [? _].
Qed.

(** The system under any number of callers.  [cn_held] are the entries callers
    got from [_GetOrCreate], [cn_taken] those they took out of the table,
    [cn_readers] the readers handed out, with the entry each came from, and
    [cn_log] every identity recorded. *)
Record Conc : Type := mkConc {
  cn_resolver : Resolver;
  cn_world : W;
  cn_held : list (str * Effective * nat);
  cn_taken : list (str * Effective * nat);
  cn_readers : list (str * Effective * option nat * R);
  cn_log : list (str * AssetMetadata * DestinationPolicy) }.

Definition Conc_new (w : W) : Conc := mkConc Resolver_new w [] [] [] [].

Definition destinations_of (ef : Effective) : DestinationPolicy := ho_destinations (ef_transport ef).

Inductive rstep (c : Conc) : Conc -> Prop :=
| step_get id ef e s :
    effective_ok ef -> GetOrCreate (OpenKey id ef) (cn_resolver c) = (e, s) ->
    rstep c (mkConc s (cn_world c) ((id, ef, e) :: cn_held c) (cn_taken c) (cn_readers c) (cn_log c))
| step_open id ef e s w :
    (id, ef, e) ∈ cn_held c -> OpenEntry e id (ef_transport ef) (cn_resolver c) (cn_world c) = (s, w) ->
    rstep c (mkConc s w (cn_held c) (cn_taken c) (cn_readers c) (cn_log c))
| step_remember id ef e :
    (id, ef, e) ∈ cn_held c -> let o := entry_of e (cn_resolver c) in od_succeeded o = true ->
    rstep c (mkConc (snd (RememberIdentity id (od_metadata o) (destinations_of ef) (cn_resolver c))) (cn_world c)
               (cn_held c) (cn_taken c) (cn_readers c) ((id, od_metadata o, destinations_of ef) :: cn_log c))
| step_forget id ef e :
    (id, ef, e) ∈ cn_held c ->
    rstep c (mkConc (Forget (OpenKey id ef) e (cn_resolver c)) (cn_world c) (cn_held c) (cn_taken c) (cn_readers c) (cn_log c))
| step_take id ef e s :
    effective_ok ef -> Take (OpenKey id ef) (cn_resolver c) = (Some e, s) ->
    rstep c (mkConc s (cn_world c) (cn_held c) ((id, ef, e) :: cn_taken c) (cn_readers c) (cn_log c))
| step_move id ef e o s :
    (id, ef, e) ∈ cn_taken c -> MoveReader e (cn_resolver c) = (o, s) ->
    rstep c (mkConc s (cn_world c) (cn_held c) (cn_taken c)
               (match o with Some r => [(id, ef, Some e, r)] | None => [] end ++ cn_readers c) (cn_log c))
| step_fresh id ef res w :
    effective_ok ef -> opener_Open id (ef_transport ef) (cn_world c) = (res, w) ->
    rstep c (mkConc (cn_resolver c) w (cn_held c) (cn_taken c)
               (match or_reader res with Some r => [(id, ef, None, r)] | None => [] end ++ cn_readers c) (cn_log c))
| step_remember_reader id ef o r :
    (id, ef, o, r) ∈ cn_readers c ->
    rstep c (mkConc (snd (RememberIdentity id (Metadata r) (destinations_of ef) (cn_resolver c))) (cn_world c)
               (cn_held c) (cn_taken c) (cn_readers c) ((id, Metadata r, destinations_of ef) :: cn_log c))
| step_world w :
    rstep c (mkConc (cn_resolver c) w (cn_held c) (cn_taken c) (cn_readers c) (cn_log c)).

Definition reachable (c : Conc) : Prop := exists w, rtc rstep (Conc_new w) c.

(** An invariant of the steps holds in every reachable state. *)
Lemma reachable_ind (P : Conc -> Prop) :
  (forall w, P (Conc_new w)) -> (forall c c', P c -> rstep c c' -> P c') -> forall c, reachable c -> P c.
Proof.
  intros H1 H2 c (w & Hr). remember (Conc_new w) as c0 eqn:E. assert (P c0) as HP by (subst; apply H1). clear E.
  induction Hr as [|x y z Hs Hr IH]; [done|]. eauto.
Qed.

Lemma reachable_tables c : reachable c -> tables_ok (cn_resolver c).
Proof.
  revert c. apply reachable_ind; [intros; apply tables_new|]. intros c c' Ht Hs.
  destruct Hs as [id ef e s Hk E|id ef e s w Hh E|id ef e Hh|id ef e Hh|id ef e s Hk E|id ef e o s Hh E|id ef res w Hk E|id ef o r Hh|w];
    cbn [cn_resolver]; try done.
  - change s with (snd (e, s)). rewrite <-E. by apply tables_GetOrCreate.
  - change s with (fst (s, w)). rewrite <-E. by apply tables_OpenEntry.
  - by apply tables_Remember.
  - by apply tables_Forget.
  - change s with (snd (Some e, s)). rewrite <-E. by apply tables_Take.
  - change s with (snd (o, s)). rewrite <-E. by apply tables_MoveReader.
  - by apply tables_Remember.
Qed.

(** ** Whose reader it is *)

(** [r] is what an open of [id] with the options [tr] returned. *)
Definition opened_by (id : str) (tr : HttpOptions) (r : R) : Prop :=
  exists w res w', opener_Open id tr w = (res, w') /\ or_reader res = Some r.

(** [keys] gives every entry the key it was created under. *)
Definition entry_key (keys : gmap nat str) (e : nat) (id : str) (ef : Effective) : Prop :=
  effective_ok ef /\ keys !! e = Some (OpenKey id ef).

Record entry_ok (keys : gmap nat str) (e : nat) (o : Opened) : Prop := {
  eo_known : od_opened o = true -> is_Some (keys !! e);
  eo_reader : forall r, od_reader o = Some r ->
    od_opened o = true /\ exists id ef, entry_key keys e id ef /\ opened_by id (ef_transport ef) r;
  eo_succeeded : od_succeeded o = true ->
    od_opened o = true /\ exists id ef r, entry_key keys e id ef /\ opened_by id (ef_transport ef) r /\ od_metadata o = Metadata r }.

Record keys_ok (keys : gmap nat str) (c : Conc) : Prop := {
  ko_fresh : forall e, is_Some (keys !! e) -> (e < rv_next (cn_resolver c))%nat;
  ko_table : forall k e, rv_table (cn_resolver c) !! k = Some e -> keys !! e = Some k;
  ko_held : forall id ef e, (id, ef, e) ∈ cn_held c ++ cn_taken c -> entry_key keys e id ef;
  ko_entry : forall e, entry_ok keys e (entry_of e (cn_resolver c));
  ko_readers : forall id ef o r, (id, ef, o, r) ∈ cn_readers c -> opened_by id (ef_transport ef) r;
  ko_moved : forall id ef e r, (id, ef, Some e, r) ∈ cn_readers c ->
    od_opened (entry_of e (cn_resolver c)) = true /\ od_reader (entry_of e (cn_resolver c)) = None;
  ko_once : NoDup (omap (fun x : str * Effective * option nat * R => snd (fst x)) (cn_readers c));
  ko_log : forall id m p, (id, m, p) ∈ cn_log c ->
    exists tr r, opened_by id tr r /\ Metadata r = m /\ ho_destinations tr = p }.

Lemma entry_key_inj keys e id1 ef1 id2 ef2 :
  entry_key keys e id1 ef1 -> entry_key keys e id2 ef2 -> id1 = id2 /\ ef_transport ef1 = ef_transport ef2.
Proof. intros [H1 E1] [H2 E2]. apply OpenKey_inj; [done|done|congruence]. Qed.

Lemma entry_of_with e o (s : Resolver) e' : entry_of e' (with_entry e o s) = if decide (e = e') then o else entry_of e' s.
Proof.
  unfold entry_of, with_entry. cbn [rv_heap]. destruct (decide (e = e')) as [->|Hne];
    [by rewrite lookup_insert_eq|by rewrite lookup_insert_ne].
Qed.

(** The keys grow when an entry is created, and only then. *)
Lemma keys_GetOrCreate keys c id ef e s :
  keys_ok keys c -> effective_ok ef -> GetOrCreate (OpenKey id ef) (cn_resolver c) = (e, s) ->
  exists keys', keys_ok keys' (mkConc s (cn_world c) ((id, ef, e) :: cn_held c) (cn_taken c) (cn_readers c) (cn_log c)).
Proof.
  intros [K1 K2 K3 K4 K5 K6 K7 K8] Hef. unfold GetOrCreate.
  destruct (rv_table (cn_resolver c) !! OpenKey id ef) as [e0|] eqn:E.
  { intros [= <- <-]. exists keys. split; cbn [cn_resolver cn_held cn_taken cn_readers cn_log]; try done.
    intros id' ef' e'. cbn [app]. rewrite elem_of_cons. intros [[= -> -> ->]|?]; [|by apply K3]. split; [done|by apply K2]. }
  destruct (evict_oldest _ _ _) as [table order] eqn:Ev. intros [= <- <-].
  set (n := rv_next (cn_resolver c)) in *. set (k := OpenKey id ef) in *.
  assert (keys !! n = None) as Hn by (apply eq_None_not_Some; intros ?%K1; lia).
  assert (forall e, is_Some (keys !! e) -> e <> n) as Hne by (intros x Hx ->; destruct Hx; congruence).
  assert (forall e x, keys !! e = Some x -> <[n := k]> keys !! e = Some x) as Hmono.
  { intros x y Hx. rewrite lookup_insert_ne; [done|]. intros <-. congruence. }
  assert (forall e o, entry_ok keys e o -> entry_ok (<[n := k]> keys) e o) as Hent.
  { intros x o [E1 E2 E3]. split.
    - intros [y Hy]%E1. eauto.
    - intros r [? (i & f & [? ?] & ?)]%E2. split; [done|]. exists i, f. split; [split; auto|done].
    - intros [? (i & f & r & [? ?] & ?)]%E3. split; [done|]. exists i, f, r. split; [split; auto|done]. }
  assert (forall e, entry_of e (mkResolver (<[n := Opened_new]> (rv_heap (cn_resolver c))) (S n) table order
    (rv_identities (cn_resolver c)) (rv_identityOrder (cn_resolver c)) (rv_fingerprints (cn_resolver c))) =
    if decide (n = e) then Opened_new else entry_of e (cn_resolver c)) as Heo.
  { intros x. unfold entry_of. cbn [rv_heap]. destruct (decide (n = x)) as [<-|Hx]; [by rewrite lookup_insert_eq|by rewrite lookup_insert_ne]. }
  exists (<[n := k]> keys). split; cbn [cn_resolver cn_held cn_taken cn_readers cn_log rv_next rv_table]; try done.
  - intros x Hx. destruct (decide (x = n)) as [->|Hxn]; [lia|]. rewrite lookup_insert_ne in Hx by done. specialize (K1 x Hx). lia.
  - intros k' x Hx. assert (<[k := n]> (rv_table (cn_resolver c)) !! k' = Some x) as Hx'.
    { eapply lookup_weaken; [exact Hx|]. by eapply evict_subseteq. }
    destruct (decide (k' = k)) as [->|Hk]; [rewrite lookup_insert_eq in Hx'; injection Hx' as <-; by rewrite lookup_insert_eq|].
    rewrite lookup_insert_ne in Hx' by done. auto.
  - intros id' ef' e'. cbn [app]. rewrite elem_of_cons. intros [[= -> -> ->]|Hin]; [split; [done|by rewrite lookup_insert_eq]|].
    destruct (K3 _ _ _ Hin). split; auto.
  - intros x. rewrite Heo. destruct (decide (n = x)) as [<-|Hx]; [by split|]. by apply Hent.
  - intros i f x r Hin. rewrite Heo. destruct (K6 _ _ _ _ Hin) as [Ho Hr]. destruct (decide (n = x)) as [<-|Hx]; [|done].
    exfalso. apply (eo_known _ _ _ (K4 n)) in Ho. by apply Hne in Ho.
Qed.

(** A step that leaves the entries and the callers alone and can only take keys
    out of the table. *)
Lemma keys_frame keys c (s : Resolver) log :
  keys_ok keys c -> rv_heap s = rv_heap (cn_resolver c) -> rv_next s = rv_next (cn_resolver c) ->
  rv_table s ⊆ rv_table (cn_resolver c) ->
  (forall id m p, (id, m, p) ∈ log -> exists tr r, opened_by id tr r /\ Metadata r = m /\ ho_destinations tr = p) ->
  keys_ok keys (mkConc s (cn_world c) (cn_held c) (cn_taken c) (cn_readers c) log).
Proof.
  intros [K1 K2 K3 K4 K5 K6 K7 K8] Hh Hn Ht Hl.
  assert (forall e, entry_of e s = entry_of e (cn_resolver c)) as He by (intros e; unfold entry_of; by rewrite Hh).
  split; cbn [cn_resolver cn_held cn_taken cn_readers cn_log]; try done.
  - intros e Hk. rewrite Hn. by apply K1.
  - intros k e Hk. apply K2. by eapply lookup_weaken.
  - intros e. by rewrite He.
  - intros id ef e r Hin. rewrite He. by eapply K6.
Qed.

Lemma keys_log keys c id m p :
  keys_ok keys c -> (exists tr r, opened_by id tr r /\ Metadata r = m /\ ho_destinations tr = p) ->
  keys_ok keys (mkConc (snd (RememberIdentity id m p (cn_resolver c))) (cn_world c) (cn_held c) (cn_taken c) (cn_readers c)
    ((id, m, p) :: cn_log c)).
Proof.
  intros Hk Ho. assert (forall s : Resolver, s = snd (RememberIdentity id m p (cn_resolver c)) ->
    rv_heap s = rv_heap (cn_resolver c) /\ rv_next s = rv_next (cn_resolver c) /\ rv_table s = rv_table (cn_resolver c)) as Hr.
  { intros s ->. unfold RememberIdentity. destruct (rv_identities _ !! id); [done|]. by destruct (evict_oldest _ _ _). }
  destruct (Hr _ eq_refl) as (H1 & H2 & H3). apply keys_frame; [done|done|done|by rewrite H3|].
  intros id' m' p'. rewrite elem_of_cons. intros [[= -> -> ->]|?]; [done|by eapply (ko_log _ _ Hk)].
Qed.

Lemma erase_table (s : Resolver) key :
  rv_table (with_table (delete key (rv_table s)) (erase_first key (rv_order s)) s) ⊆ rv_table s.
Proof. apply delete_subseteq. Qed.

(** An entry is opened once, for its own identifier and options. *)
Lemma keys_OpenEntry keys c id ef e s w :
  keys_ok keys c -> (id, ef, e) ∈ cn_held c ->
  OpenEntry e id (ef_transport ef) (cn_resolver c) (cn_world c) = (s, w) ->
  keys_ok keys (mkConc s w (cn_held c) (cn_taken c) (cn_readers c) (cn_log c)).
Proof.
  intros [K1 K2 K3 K4 K5 K6 K7 K8] Hh. assert (entry_key keys e id ef) as Hek by (apply K3, elem_of_app; by left).
  unfold OpenEntry. destruct (od_opened (entry_of e (cn_resolver c))) eqn:Eo; [by intros [= <- <-]|].
  destruct (opener_Open id (ef_transport ef) (cn_world c)) as [res w'] eqn:Ew. intros [= <- <-].
  split; cbn [cn_resolver cn_held cn_taken cn_readers cn_log with_entry rv_next rv_table]; try done.
  - intros x. fold (with_entry e (match or_reader res with
      | Some reader => mkOpened true (Some reader) (or_status res) true (Metadata reader)
      | None => mkOpened true None (or_status res) (od_succeeded (entry_of e (cn_resolver c))) (od_metadata (entry_of e (cn_resolver c)))
      end) (cn_resolver c)).
    rewrite entry_of_with. destruct (decide (e = x)) as [<-|Hx]; [|apply K4].
    pose proof (eo_succeeded _ _ _ (K4 e)) as Hsu. destruct Hek as [He Hek]. destruct (or_reader res) as [r|] eqn:Er.
    + assert (opened_by id (ef_transport ef) r) as Ho by by exists (cn_world c), res, w'.
      split; cbn [od_opened od_reader od_succeeded od_metadata]; [by eauto| |].
      * intros r' [= <-]. split; [done|]. by exists id, ef.
      * intros _. split; [done|]. by exists id, ef, r.
    + split; cbn [od_opened od_reader od_succeeded od_metadata]; [by eauto|done|].
      intros [? _]%Hsu. congruence.
  - intros i f x r Hin. destruct (K6 _ _ _ _ Hin) as [H1 H2].
    change (entry_of x (mkResolver (<[e := ?o]> (rv_heap (cn_resolver c))) _ _ _ _ _ _)) with (entry_of x (with_entry e o (cn_resolver c))).
    rewrite entry_of_with. destruct (decide (e = x)) as [<-|Hx]; [congruence|done].
Qed.

(** A reader moves to one caller, and its entry never has another. *)
Lemma keys_MoveReader keys c id ef e o s :
  keys_ok keys c -> (id, ef, e) ∈ cn_taken c -> MoveReader e (cn_resolver c) = (o, s) ->
  keys_ok keys (mkConc s (cn_world c) (cn_held c) (cn_taken c)
    (match o with Some r => [(id, ef, Some e, r)] | None => [] end ++ cn_readers c) (cn_log c)).
Proof.
  intros [K1 K2 K3 K4 K5 K6 K7 K8] Hh. assert (entry_key keys e id ef) as Hek by (apply K3, elem_of_app; by right).
  unfold MoveReader. set (o' := mkOpened _ None _ _ _). intros [= <- <-].
  assert (forall i f x r, (i, f, x, r) ∈ match od_reader (entry_of e (cn_resolver c)) with
      | Some r => [(id, ef, Some e, r)] | None => [] end ++ cn_readers c ->
    (i = id /\ f = ef /\ x = Some e /\ od_reader (entry_of e (cn_resolver c)) = Some r) \/ (i, f, x, r) ∈ cn_readers c) as Hin.
  { intros i f x r. rewrite elem_of_app. intros [Hi|?]; [left|by right].
    destruct (od_reader _); [|by apply not_elem_of_nil in Hi]. apply list_elem_of_singleton in Hi. by injection Hi as -> -> -> ->. }
  split; cbn [cn_resolver cn_held cn_taken cn_readers cn_log rv_next rv_table with_entry]; try done.
  - intros x. change (entry_ok keys x (entry_of x (with_entry e o' (cn_resolver c)))). rewrite entry_of_with.
    destruct (decide (e = x)) as [<-|Hx]; [|apply K4]. destruct (K4 e) as [E1 E2 E3]. by split.
  - intros i f x r [(-> & -> & -> & Hr)|?]%Hin; [|by eapply K5].
    destruct (eo_reader _ _ _ (K4 e) r Hr) as [_ (i' & f' & Hk' & Ho)].
    destruct (entry_key_inj _ _ _ _ _ _ Hek Hk') as [-> ->]. done.
  - intros i f x r Hi. change (od_opened (entry_of x (with_entry e o' (cn_resolver c))) = true /\
      od_reader (entry_of x (with_entry e o' (cn_resolver c))) = None). rewrite entry_of_with.
    apply Hin in Hi as [(_ & _ & [= ->] & Hr)|Hi].
    + rewrite decide_True by done. split; [|done]. exact (proj1 (eo_reader _ _ _ (K4 e) r Hr)).
    + destruct (K6 _ _ _ _ Hi) as [? ?]. destruct (decide (e = x)) as [->|]; [by split|done].
  - destruct (od_reader (entry_of e (cn_resolver c))) as [r|] eqn:Er; [|done]. cbn [app omap list_omap fst snd].
    apply NoDup_cons. split; [|done]. intros Hi. apply list_elem_of_omap in Hi as ([[[i f] x] r'] & Hi & [= ->]).
    destruct (K6 _ _ _ _ Hi) as [_ ?]. congruence.
Qed.

Lemma reachable_keys c : reachable c -> exists keys, keys_ok keys c.
Proof.
  revert c. apply reachable_ind.
  { intros w. exists ∅. split; cbn [Conc_new cn_resolver Resolver_new rv_table cn_held cn_taken cn_readers cn_log app].
    - intros e [? E]. by rewrite lookup_empty in E.
    - intros k e E. by rewrite lookup_empty in E.
    - by intros ? ? ? ?%not_elem_of_nil.
    - intros e. assert (forall o : Opened, o = Opened_new (R := R) -> entry_ok ∅ e o) as Hn by (by intros o ->; split). apply Hn.
      unfold entry_of, Conc_new, Resolver_new. cbn [cn_resolver rv_heap]. by rewrite lookup_empty.
    - by intros ? ? ? ? ?%not_elem_of_nil.
    - by intros ? ? ? ? ?%not_elem_of_nil.
    - constructor.
    - by intros ? ? ? ?%not_elem_of_nil. }
  intros c c' [keys Hk] Hs.
  destruct Hs as [id ef e s Hef E|id ef e s w Hh E|id ef e Hh o Hsu|id ef e Hh|id ef e s Hef E|id ef e o s Hh E|id ef res w Hef E|id ef o r Hh|w].
  - by eapply keys_GetOrCreate.
  - exists keys. by eapply keys_OpenEntry.
  - exists keys. apply keys_log; [done|]. destruct (eo_succeeded _ _ _ (ko_entry _ _ Hk e) Hsu) as [_ (i & f & r & Hk' & Ho & Hm)].
    destruct (entry_key_inj keys e id ef i f) as [-> Ht]; [|done|].
    { apply (ko_held _ _ Hk), elem_of_app. by left. }
    exists (ef_transport f), r. split_and!; [done|done|]. unfold destinations_of. by rewrite Ht.
  - exists keys. assert (forall s : Resolver, s = Forget (OpenKey id ef) e (cn_resolver c) -> rv_heap s = rv_heap (cn_resolver c) /\
      rv_next s = rv_next (cn_resolver c) /\ rv_table s ⊆ rv_table (cn_resolver c)) as Hf.
    { intros s ->. unfold Forget. destruct (rv_table _ !! _); [|done]. destruct (negb _); [done|]. split_and!; [done|done|apply erase_table]. }
    destruct (Hf _ eq_refl) as (? & ? & ?). by apply keys_frame; [| | | |apply (ko_log _ _ Hk)].
  - exists keys. unfold Take in E. destruct (rv_table (cn_resolver c) !! OpenKey id ef) as [e0|] eqn:Et; [|done].
    injection E as <- <-. pose proof (keys_frame keys c (with_table (delete (OpenKey id ef) (rv_table (cn_resolver c)))
      (erase_first (OpenKey id ef) (rv_order (cn_resolver c))) (cn_resolver c)) (cn_log c) Hk eq_refl eq_refl
      (erase_table (cn_resolver c) (OpenKey id ef)) (ko_log _ _ Hk)) as Hk'.
    destruct Hk' as [K1 K2 K3 K4 K5 K6 K7 K8]. split; try done. cbn [cn_held cn_taken]. intros i f x.
    rewrite elem_of_app, elem_of_cons. intros [Hi|[[= -> -> ->]|Hi]]; [apply K3, elem_of_app; by left| |apply K3, elem_of_app; by right].
    split; [done|]. by apply (ko_table _ _ Hk).
  - exists keys. by eapply keys_MoveReader.
  - exists keys. destruct Hk as [K1 K2 K3 K4 K5 K6 K7 K8]. destruct (or_reader res) as [r|] eqn:Er; [|by split].
    split; cbn [cn_resolver cn_held cn_taken cn_readers cn_log app]; try done.
    + intros i f o r'. rewrite elem_of_cons. intros [[= -> -> -> ->]|?]; [by exists (cn_world c), res, w|by eapply K5].
    + intros i f x r'. rewrite elem_of_cons. intros [[=]|?]; by eapply K6.
  - exists keys. apply keys_log; [done|]. exists (ef_transport ef), r. split_and!; [by eapply (ko_readers _ _ Hk)|done|done].
  - exists keys. by destruct Hk as [K1 K2 K3 K4 K5 K6 K7 K8].
Qed.

(** ** What is remembered *)

Abbreviation log_t := (list (str * AssetMetadata * DestinationPolicy)).

(** Two recorded opens of [id] found two validators. *)
Definition contradicts (log : log_t) (id : str) : Prop :=
  exists m1 p1 m2 p2, (id, m1, p1) ∈ log /\ (id, m2, p2) ∈ log /\ am_validator m1 <> am_validator m2.

Record finger_ok (log : log_t) (id : str) (fp : Fingerprint) : Prop := {
  fo_seen : fp_seen fp = true;
  fo_last : exists m p, (id, m, p) ∈ log /\ am_validator m = fp_validator fp;
  fo_same : fp_contradicted fp = false -> forall m p, (id, m, p) ∈ log -> am_validator m = fp_validator fp;
  fo_differ : fp_contradicted fp = true -> contradicts log id }.

Record memory_ok (s : Resolver) (log : log_t) : Prop := {
  mo_none : forall id, rv_fingerprints s !! id = None -> forall m p, (id, m, p) ∉ log;
  mo_finger : forall id fp, rv_fingerprints s !! id = Some fp -> finger_ok log id fp;
  mo_known : forall id ie, rv_identities s !! id = Some ie ->
    (forall p, p ∈ ie_reachedUnder ie -> exists m, (id, m, p) ∈ log) /\
    (exists p, (id, ie_metadata ie, p) ∈ log) /\
    (exists fp, rv_fingerprints s !! id = Some fp /\ fp_validator fp = am_validator (ie_metadata ie)) }.

(** The fingerprint [_RememberIdentity] leaves. *)
Definition next_fingerprint (old : option Fingerprint) (v : Validator) : Fingerprint :=
  let fingerprint := default Fingerprint_new old in
  if negb (fp_seen fingerprint) then mkFingerprint v true (fp_contradicted fingerprint)
  else if negb (Validator_eqb (fp_validator fingerprint) v) then mkFingerprint v (fp_seen fingerprint) true
  else fingerprint.

Lemma next_fingerprint_validator old v : fp_validator (next_fingerprint old v) = v.
Proof.
  unfold next_fingerprint. destruct (negb (fp_seen _)); [done|].
  destruct (Validator_eqb _ v) eqn:E; [by apply Validator_eqb_eq in E|done].
Qed.

Lemma next_fingerprint_ok log id old m p :
  match old with Some fp => finger_ok log id fp | None => forall m p, (id, m, p) ∉ log end ->
  finger_ok ((id, m, p) :: log) id (next_fingerprint old (am_validator m)).
Proof.
  intros Hold. pose proof (next_fingerprint_validator old (am_validator m)) as Hv.
  assert (fp_seen (next_fingerprint old (am_validator m)) = true /\
    (fp_contradicted (next_fingerprint old (am_validator m)) = false -> forall m' p', (id, m', p') ∈ log -> am_validator m' = am_validator m) /\
    (fp_contradicted (next_fingerprint old (am_validator m)) = true -> contradicts ((id, m, p) :: log) id)) as (H1 & H2 & H3).
  { unfold next_fingerprint. destruct old as [fp|]; [change (default Fingerprint_new (Some fp)) with fp|].
    2:{ cbn. split_and!; [done| |done]. intros _ m' p' Hin. by apply Hold in Hin. }
    destruct Hold as [F1 (m0 & p0 & F2 & F2') F3 F4]. rewrite F1. cbn [negb].
    destruct (Validator_eqb (fp_validator fp) (am_validator m)) eqn:E; cbn [negb fp_seen fp_contradicted].
    - apply Validator_eqb_eq in E. split_and!; [done| |].
      + intros Hc m' p' Hin. rewrite <-E. by eapply F3.
      + intros (m1 & p1 & m2 & p2 & ? & ? & ?)%F4. exists m1, p1, m2, p2. by split_and!; [right|right|].
    - split_and!; [done|done|]. intros _. exists m0, p0, m, p. split_and!; [by right|by left|].
      rewrite F2'. intros Ev. rewrite Ev in E. by rewrite (proj2 (Validator_eqb_eq _ _)) in E. }
  split; [done|exists m, p; split; [by left|done]| |done].
  intros Hc m' p'. rewrite Hv, elem_of_cons. intros [[= -> ->]|?]; [done|by eapply H2].
Qed.

Lemma RememberIdentity_eq id m p (s : Resolver) :
  exists ids order, RememberIdentity id m p s =
    (fp_contradicted (next_fingerprint (rv_fingerprints s !! id) (am_validator m)),
     mkResolver (rv_heap s) (rv_next s) (rv_table s) (rv_order s) ids order
       (<[id := next_fingerprint (rv_fingerprints s !! id) (am_validator m)]> (rv_fingerprints s))) /\
    forall id' ie, ids !! id' = Some ie -> (id' <> id /\ rv_identities s !! id' = Some ie) \/
      (id' = id /\ ie_metadata ie = m /\
       forall q, q ∈ ie_reachedUnder ie -> q = p \/ exists found, rv_identities s !! id = Some found /\ q ∈ ie_reachedUnder found).
Proof.
  unfold RememberIdentity. fold (next_fingerprint (rv_fingerprints s !! id) (am_validator m)).
  destruct (rv_identities s !! id) as [found|] eqn:E.
  - eexists _, _. split; [done|]. intros id' ie. destruct (decide (id' = id)) as [->|Hne].
    + rewrite lookup_insert_eq. intros [= <-]. right. split_and!; [done|done|]. cbn [ie_reachedUnder]. intros q.
      case_bool_decide; [eauto|]. rewrite elem_of_app, list_elem_of_singleton. intros [?|?]; eauto.
    + rewrite lookup_insert_ne by done. by left.
  - destruct (evict_oldest _ _ _) as [ids order] eqn:Ev. apply evict_subseteq in Ev. exists ids, order. split; [done|].
    intros id' ie Hi. eapply lookup_weaken in Hi; [|exact Ev]. destruct (decide (id' = id)) as [->|Hne].
    + rewrite lookup_insert_eq in Hi. injection Hi as <-. right. split_and!; [done|done|]. cbn [ie_reachedUnder].
      intros q Hq%list_elem_of_singleton. by left.
    + rewrite lookup_insert_ne in Hi by done. by left.
Qed.

Lemma memory_Remember id m p (s : Resolver) log :
  memory_ok s log -> memory_ok (snd (RememberIdentity id m p s)) ((id, m, p) :: log).
Proof.
  intros [M1 M2 M3]. destruct (RememberIdentity_eq id m p s) as (ids & order & -> & Hids). cbn [snd].
  assert (finger_ok ((id, m, p) :: log) id (next_fingerprint (rv_fingerprints s !! id) (am_validator m))) as Hf.
  { apply next_fingerprint_ok. destruct (rv_fingerprints s !! id) eqn:E; [by apply M2|by apply M1]. }
  split; cbn [rv_fingerprints rv_identities].
  - intros id' Hn. destruct (decide (id' = id)) as [->|Hne]; [by rewrite lookup_insert_eq in Hn|].
    rewrite lookup_insert_ne in Hn by done. intros m' p'. rewrite elem_of_cons. intros [[= -> _ _]|Hin]; [done|by eapply M1].
  - intros id' fp Hi. destruct (decide (id' = id)) as [->|Hne].
    + rewrite lookup_insert_eq in Hi. by injection Hi as <-.
    + rewrite lookup_insert_ne in Hi by done. destruct (M2 _ _ Hi) as [F1 (m0 & p0 & ? & ?) F3 F4]. split; [done| | |].
      * exists m0, p0. split; [by right|done].
      * intros Hc m' p'. rewrite elem_of_cons. intros [[= -> _ _]|?]; [done|by eapply F3].
      * intros (m1 & p1 & m2 & p2 & ? & ? & ?)%F4. exists m1, p1, m2, p2. by split_and!; [right|right|].
  - intros id' ie [[Hne Hi]|(-> & Hm & Hq)]%Hids.
    + destruct (M3 _ _ Hi) as (P1 & (p0 & P2) & fp & P3 & P4). split_and!.
      * intros q [m' Hin]%P1. exists m'. by right.
      * exists p0. by right.
      * exists fp. by rewrite lookup_insert_ne.
    + split_and!.
      * intros q [->|(found & Hi & Hin)]%Hq; [exists m; by left|]. destruct (M3 _ _ Hi) as (P1 & _).
        destruct (P1 _ Hin) as [m' ?]. exists m'. by right.
      * exists p. rewrite Hm. by left.
      * eexists. rewrite lookup_insert_eq. split; [done|]. by rewrite next_fingerprint_validator, Hm.
Qed.

(** Steps that leave both tables of identities alone. *)
Lemma memory_frame (s s' : Resolver) log :
  rv_fingerprints s' = rv_fingerprints s -> rv_identities s' = rv_identities s -> memory_ok s log -> memory_ok s' log.
Proof. intros E1 E2 [M1 M2 M3]. split; rewrite ?E1, ?E2; done. Qed.

Lemma reachable_memory c : reachable c -> memory_ok (cn_resolver c) (cn_log c).
Proof.
  revert c. apply reachable_ind.
  { intros w. split; cbn [Conc_new cn_resolver cn_log Resolver_new rv_fingerprints rv_identities]; intros id.
    - intros _ m p. apply not_elem_of_nil.
    - intros fp E. by rewrite lookup_empty in E.
    - intros ie E. by rewrite lookup_empty in E. }
  intros c c' Hm Hs.
  destruct Hs as [id ef e s Hef E|id ef e s w Hh E|id ef e Hh o Hsu|id ef e Hh|id ef e s Hef E|id ef e o s Hh E|id ef res w Hef E|id ef o r Hh|w];
    cbn [cn_resolver cn_log]; try done.
  - eapply memory_frame; [..|done]; unfold GetOrCreate in E; destruct (rv_table _ !! _); try destruct (evict_oldest _ _ _);
      by injection E as <- <-.
  - eapply memory_frame; [..|done]; unfold OpenEntry in E; destruct (od_opened _); try destruct (opener_Open _ _ _);
      by injection E as <- <-.
  - by apply memory_Remember.
  - eapply memory_frame; [..|done]; unfold Forget; destruct (rv_table _ !! _); try done; by destruct (negb _).
  - eapply memory_frame; [..|done]; unfold Take in E; destruct (rv_table _ !! _); try done; by injection E as <- <-.
  - eapply memory_frame; [..|done]; unfold MoveReader in E; by injection E as <- <-.
  - by apply memory_Remember.
Qed.

(** ** The handlers are paths *)

Abbreviation Sys := (Sys (W := W) (R := R)).

Definition at_state (c : Conc) (y : Sys) : Prop := cn_resolver c = sy_resolver y /\ cn_world c = sy_world y.

(** [c'] is reached from [c], and is where [y'] is. *)
Definition path_to (c c' : Conc) (y' : Sys) : Prop := rtc rstep c c' /\ at_state c' y'.

Lemma EffectiveConfiguration_ok settings context :
  effective_ok (se_base settings) -> effective_ok (EffectiveConfiguration settings context).
Proof.
  intros Hb. unfold EffectiveConfiguration. destruct context as [o|]; [|done]. case_bool_decide; [done|]. apply effective_of_ok.
Qed.

(** The two sections every handler that may open begins with. *)
Lemma get_open_path c id ef e s (y : Sys) :
  at_state c y -> effective_ok ef -> GetOrCreate (OpenKey id ef) (sy_resolver y) = (e, s) ->
  exists c', path_to c c' (on_entry e id (ef_transport ef) (on_resolver (fun _ => s) y)) /\ (id, ef, e) ∈ cn_held c'.
Proof.
  intros [H1 H2] Hef E. unfold on_entry, on_resolver. cbn [sy_resolver sy_world].
  destruct (OpenEntry e id (ef_transport ef) s (sy_world y)) as [s' w'] eqn:Eo. rewrite <-H1 in E. rewrite <-H2 in Eo.
  set (c1 := mkConc s (cn_world c) ((id, ef, e) :: cn_held c) (cn_taken c) (cn_readers c) (cn_log c)).
  exists (mkConc s' w' (cn_held c1) (cn_taken c1) (cn_readers c1) (cn_log c1)). split; [split; [|done]|by left].
  eapply rtc_l; [by apply (step_get c id ef e s)|]. apply rtc_once. apply (step_open c1 id ef e s' w'); [by left|done].
Qed.

Lemma ResolveOnce_path c id ef (y : Sys) :
  at_state c y -> effective_ok ef -> exists c', path_to c c' (snd (ResolveOnce id (OpenKey id ef) ef y)).
Proof.
  intros Hc Hef. unfold ResolveOnce. destruct (GetOrCreate (OpenKey id ef) (sy_resolver y)) as [e s] eqn:E.
  destruct (get_open_path c id ef e s y Hc Hef E) as (c1 & [P1 [A1 A2]] & Hh). set (y1 := on_entry _ _ _ _) in *.
  destruct (od_succeeded (entry_of e (sy_resolver y1))) eqn:Es; cbn [snd].
  - eexists. split; [eapply rtc_r; [exact P1|]; apply (step_remember c1 id ef e Hh); by rewrite A1|].
    by rewrite A1.
  - exists (mkConc (Forget (OpenKey id ef) e (cn_resolver c1)) (cn_world c1) (cn_held c1) (cn_taken c1) (cn_readers c1) (cn_log c1)).
    split; [eapply rtc_r; [exact P1|]; by apply step_forget|]. rewrite A1, A2. by destruct (negb _).
Qed.

Lemma Resolve_path c settings context assetPath scope (y : Sys) :
  at_state c y -> effective_ok (se_base settings) ->
  exists c', path_to c c' (snd (Resolve settings context assetPath scope y)).
Proof.
  intros Hc Hb. unfold Resolve. assert (exists c', path_to c c' y) as Hid by (exists c; by split; [apply rtc_refl|]).
  case_bool_decide; [done|]. destruct (match scope with Some cache => _ | None => _ end); [done|].
  pose proof (ResolveOnce_path c (CreateIdentifier assetPath []) (EffectiveConfiguration settings context) y Hc
    (EffectiveConfiguration_ok settings context Hb)) as Hp. by destruct (ResolveOnce _ _ _ y) as [res y'].
Qed.

(** The reader a caller goes on with is recorded as handed out to it. *)
Lemma AcquireReader_path c id ef (y : Sys) :
  at_state c y -> effective_ok ef ->
  exists c', path_to c c' (snd (AcquireReader id ef y)) /\
    forall r, fst (AcquireReader id ef y) = Some r -> exists o, (id, ef, o, r) ∈ cn_readers c'.
Proof.
  intros [H1 H2] Hef. unfold AcquireReader.
  assert (forall c1 (y1 : Sys), rtc rstep c c1 -> at_state c1 y1 -> exists c',
    path_to c c' (snd (let '(result, w) := opener_Open id (ef_transport ef) (sy_world y1) in
      match or_reader result with
      | Some reader => (Some reader, mkSys (sy_resolver y1) w (sy_posted y1))
      | None => (None, post (Report (or_status result) id) (mkSys (sy_resolver y1) w (sy_posted y1)))
      end)) /\
    forall r, fst (let '(result, w) := opener_Open id (ef_transport ef) (sy_world y1) in
      match or_reader result with
      | Some reader => (Some reader, mkSys (sy_resolver y1) w (sy_posted y1))
      | None => (None, post (Report (or_status result) id) (mkSys (sy_resolver y1) w (sy_posted y1)))
      end) = Some r -> exists o, (id, ef, o, r) ∈ cn_readers c') as Hfresh.
  { intros c1 y1 P1 [A1 A2]. destruct (opener_Open id (ef_transport ef) (sy_world y1)) as [res w] eqn:Eo. rewrite <-A2 in Eo.
    eexists. split; [split; [eapply rtc_r; [exact P1|]; by apply (step_fresh c1 id ef res w)|]|].
    - rewrite A1. by destruct (or_reader res).
    - intros r. destruct (or_reader res) as [r0|]; [|done]. intros [= <-]. exists None. by left. }
  destruct (Take (OpenKey id ef) (sy_resolver y)) as [[e|] s] eqn:Et.
  - cbn [on_resolver sy_resolver]. destruct (MoveReader e s) as [o s'] eqn:Em. rewrite <-H1 in Et.
    set (c1 := mkConc s (cn_world c) (cn_held c) ((id, ef, e) :: cn_taken c) (cn_readers c) (cn_log c)).
    set (c2 := mkConc s' (cn_world c1) (cn_held c1) (cn_taken c1)
      (match o with Some r => [(id, ef, Some e, r)] | None => [] end ++ cn_readers c1) (cn_log c1)).
    assert (rtc rstep c c2) as P2.
    { eapply rtc_l; [by apply (step_take c id ef e s)|]. apply rtc_once. apply (step_move c1 id ef e o s'); [by left|done]. }
    destruct o as [r|]; [|by apply (Hfresh c2)]. exists c2. split; [by split|]. intros r' [= <-]. exists (Some e). by left.
  - assert (s = sy_resolver y) as -> by (unfold Take in Et; destruct (rv_table _ !! _); congruence).
    apply (Hfresh c); [apply rtc_refl|by split].
Qed.

Lemma OpenAsset_path {D} `{PersistentTier D} c settings context resolvedPath store (d : D) (y : Sys) :
  at_state c y -> effective_ok (se_base settings) ->
  exists c', path_to c c' (snd (OpenAsset settings context resolvedPath store d y)).
Proof.
  intros Hc Hb. unfold OpenAsset. case_bool_decide; [exists c; by split; [apply rtc_refl|]|].
  set (id := CreateIdentifier resolvedPath []). set (ef := EffectiveConfiguration settings context).
  destruct (AcquireReader_path c id ef y Hc (EffectiveConfiguration_ok _ _ Hb)) as (c1 & [P1 [A1 A2]] & Hr).
  destruct (AcquireReader id ef y) as [[r|] y1]; cbn [fst snd] in *; [|exists c1; by split].
  destruct (Hr r eq_refl) as (o & Hin).
  eexists. split; [eapply rtc_r; [exact P1|]; by apply (step_remember_reader c1 id ef o r)|].
  rewrite A1. destruct (WrapAsset _ _ _ _ _); [done|..]; destruct (HttpResolvedAsset_new _ _); done.
Qed.

(** The answer about an identity, and the state it is true of. *)
Lemma IdentityFor_path c id mayOpen ef (y : Sys) :
  at_state c y -> effective_ok ef ->
  exists c', path_to c c' (snd (IdentityFor id mayOpen ef y)) /\
    forall m b, fst (IdentityFor id mayOpen ef y) = Some (m, b) ->
      (KnownIdentity id (destinations_of ef) (cn_resolver c') = Some (m, b) \/ (id, m, destinations_of ef) ∈ cn_log c') /\
      (KnownIdentity id (destinations_of ef) (cn_resolver c') = Some (m, b) \/
       exists fp, rv_fingerprints (cn_resolver c') !! id = Some fp /\ fp_contradicted fp = b /\ fp_validator fp = am_validator m).
Proof.
  intros Hc Hef. unfold IdentityFor. fold (destinations_of ef).
  destruct (KnownIdentity id (destinations_of ef) (sy_resolver y)) as [[m0 b0]|] eqn:Ek.
  { exists c. split; [by split; [apply rtc_refl|]|]. destruct Hc as [-> _]. intros m b [= <- <-]. by split; left. }
  destruct mayOpen; cbn [negb]; [|exists c; by split; [split; [apply rtc_refl|]|]].
  destruct (GetOrCreate (OpenKey id ef) (sy_resolver y)) as [e s] eqn:E.
  destruct (get_open_path c id ef e s y Hc Hef E) as (c1 & [P1 [A1 A2]] & Hh). set (y1 := on_entry _ _ _ _) in *.
  destruct (od_succeeded (entry_of e (sy_resolver y1))) eqn:Es.
  - set (m0 := od_metadata (entry_of e (sy_resolver y1))).
    destruct (RememberIdentity_eq id m0 (destinations_of ef) (sy_resolver y1)) as (ids & order & Er & _). rewrite Er. cbn [fst snd].
    exists (mkConc (snd (RememberIdentity id m0 (destinations_of ef) (cn_resolver c1))) (cn_world c1) (cn_held c1) (cn_taken c1)
      (cn_readers c1) ((id, m0, destinations_of ef) :: cn_log c1)). rewrite A1, Er. split.
    + split; [|by split]. eapply rtc_r; [exact P1|].
      assert (snd (RememberIdentity id m0 (destinations_of ef) (cn_resolver c1)) = _) as Es' by (rewrite A1, Er; reflexivity).
      rewrite <-Es'. unfold m0. rewrite <-A1. apply (step_remember c1 id ef e Hh). by rewrite A1.
    + intros m b [= <- <-]. split; [right; by left|right]. cbn [cn_resolver snd rv_fingerprints]. eexists.
      rewrite lookup_insert_eq. split_and!; [done|done|apply next_fingerprint_validator].
  - exists (mkConc (Forget (OpenKey id ef) e (cn_resolver c1)) (cn_world c1) (cn_held c1) (cn_taken c1) (cn_readers c1) (cn_log c1)).
    split; [|done]. split; [eapply rtc_r; [exact P1|]; by apply step_forget|]. by rewrite A1, A2.
Qed.

(** ** Theorems *)

Lemma listed_size {A} (order : list str) (table : gmap str A) : keys_listed order table -> size table = length order.
Proof.
  intros [Hn Hk]. rewrite <-size_dom. assert (dom table = (list_to_set order : gset str)) as ->.
  { apply set_eq. intros k. rewrite elem_of_dom, elem_of_list_to_set. symmetry. apply Hk. }
  by apply size_list_to_set.
Qed.

Lemma reachable_trans c c' : reachable c -> rtc rstep c c' -> reachable c'.
Proof. intros (w & Hw) Hr. exists w. by etrans. Qed.

(** What is known of an identifier was found by an open the caller could have
    made itself. *)
Lemma known_opened c id policy m b :
  reachable c -> KnownIdentity id policy (cn_resolver c) = Some (m, b) ->
  (exists tr r, opened_by id tr r /\ Covers policy (ho_destinations tr) = true) /\
  (exists tr r, opened_by id tr r /\ Metadata r = m) /\
  exists fp, rv_fingerprints (cn_resolver c) !! id = Some fp /\ fp_contradicted fp = b /\ fp_validator fp = am_validator m.
Proof.
  intros Hr. pose proof (reachable_memory c Hr) as Hm. destruct (reachable_keys c Hr) as [keys Hk].
  unfold KnownIdentity. destruct (rv_identities (cn_resolver c) !! id) as [ie|] eqn:E; [|done].
  destruct (existsb _ _) eqn:Ex; [|done]. cbn [negb]. intros [= <- <-].
  destruct (mo_known _ _ Hm _ _ E) as (P1 & (p & P2) & fp & P3 & P4). split_and!.
  - apply existsb_exists in Ex as (q & Hq & Hc). apply list_elem_of_In in Hq. destruct (P1 q Hq) as [m' Hin].
    destruct (ko_log _ _ Hk _ _ _ Hin) as (tr & r & Ho & _ & <-). eauto.
  - destruct (ko_log _ _ Hk _ _ _ P2) as (tr & r & Ho & Hm' & _). eauto.
  - exists fp. by rewrite P3.
Qed.

Lemma Covers_refl p : Covers p p = true.
Proof. by destruct p as [[] [] [] [] []]. Qed.

(** C18: however the threads of a host interleave, the table of retained opens never
    holds more than 64 and the remembered identities never more than 512, and each
    eviction order lists exactly the keys of its table, once each. *)
Theorem resolver_tables c :
  reachable c ->
  (size (rv_table (cn_resolver c)) <= 64 /\ size (rv_identities (cn_resolver c)) <= 512)%nat /\
  keys_listed (rv_order (cn_resolver c)) (rv_table (cn_resolver c)) /\
  keys_listed (rv_identityOrder (cn_resolver c)) (rv_identities (cn_resolver c)).
Proof.
  intros [T1 T2 T3 T4]%reachable_tables. rewrite !(listed_size _ _ T1), !(listed_size _ _ T3). done.
Qed.

(** C7: no stage is handed what another stage's configuration reached.  A reader
    that [_OpenAsset] goes on with was opened for the identifier it asked for,
    with exactly the transport options it asks with, and no retained reader is
    ever handed out twice; and an identity is answered only to a caller whose
    destination policy covers one under which the asset was opened. *)
Theorem resolver_isolation c (y : Sys) id mayOpen ef :
  reachable c -> at_state c y -> effective_ok ef ->
  (forall r, fst (AcquireReader id ef y) = Some r -> opened_by id (ef_transport ef) r) /\
  NoDup (omap (fun x : str * Effective * option nat * R => snd (fst x)) (cn_readers c)) /\
  (forall m b, fst (IdentityFor id mayOpen ef y) = Some (m, b) ->
     (exists tr r, opened_by id tr r /\ Covers (ho_destinations (ef_transport ef)) (ho_destinations tr) = true) /\
     (exists tr r, opened_by id tr r /\ Metadata r = m)).
Proof.
  intros Hr Hc Hef. split_and!.
  - intros r Er. destruct (AcquireReader_path c id ef y Hc Hef) as (c' & [P _] & Hin).
    destruct (Hin r Er) as (o & Ho). destruct (reachable_keys c' (reachable_trans _ _ Hr P)) as [keys Hk]. by eapply (ko_readers _ _ Hk).
  - destruct (reachable_keys c Hr) as [keys Hk]. apply (ko_once _ _ Hk).
  - intros m b Ei. destruct (IdentityFor_path c id mayOpen ef y Hc Hef) as (c' & [P _] & Hi).
    destruct (Hi m b Ei) as [[Hkn|Hlog] _].
    + by destruct (known_opened c' id _ m b (reachable_trans _ _ Hr P) Hkn) as (? & ? & _).
    + destruct (reachable_keys c' (reachable_trans _ _ Hr P)) as [keys Hk].
      destruct (ko_log _ _ Hk _ _ _ Hlog) as (tr & r & Ho & Hm & Hd). split; [|eauto].
      exists tr, r. split; [done|]. rewrite Hd. apply Covers_refl.
Qed.

(** C9: asset info never files one revision's bytes under another's token.  When it
    publishes a version, every open of the identifier this process has recorded,
    up to and including the one the answer is about, found that same validator;
    and an identifier that was once recorded with two is never given one. *)
Theorem asset_info_version c (y : Sys) settings context assetPath resolvedPath :
  reachable c -> at_state c y -> effective_ok (se_base settings) ->
  let id := CreateIdentifier (if bool_decide (resolvedPath = []) then assetPath else resolvedPath) [] in
  let '(info, y') := GetAssetInfo settings context assetPath resolvedPath y in
  exists c', path_to c c' y' /\
    (ai_version info <> [] -> forall m p, (id, m, p) ∈ cn_log c' -> v_value (am_validator m) = ai_version info) /\
    (contradicts (cn_log c') id -> ai_version info = []).
Proof.
  intros Hr Hc Hb id. unfold GetAssetInfo.
  replace (if negb (bool_decide (resolvedPath = [])) then resolvedPath else assetPath)
    with (if bool_decide (resolvedPath = []) then assetPath else resolvedPath) by (by case_bool_decide).
  fold id. case_bool_decide; [exists c; by split; [split; [apply rtc_refl|]|]|].
  set (ef := EffectiveConfiguration settings context).
  destruct (IdentityFor_path c id (negb (bool_decide (resolvedPath = []))) ef y Hc (EffectiveConfiguration_ok _ _ Hb)) as (c' & P & Hi).
  destruct (IdentityFor id _ ef y) as [[[m b]|] y']; cbn [fst snd] in *; exists c'; (split; [done|]); [|done].
  assert (reachable c') as Hr' by (eapply reachable_trans; [done|apply P]).
  assert (exists fp, rv_fingerprints (cn_resolver c') !! id = Some fp /\ fp_contradicted fp = b /\ fp_validator fp = am_validator m) as (fp & F1 & F2 & F3).
  { destruct (Hi m b eq_refl) as [_ [Hkn|?]]; [|done]. by destruct (known_opened c' id _ m b Hr' Hkn) as (_ & _ & ?). }
  destruct (mo_finger _ _ (reachable_memory c' Hr') _ _ F1) as [G1 G2 G3 G4]. rewrite F2 in G3.
  assert (ai_version (info_of (m, b)) <> [] -> b = false /\ ai_version (info_of (m, b)) = v_value (am_validator m)) as Hv.
  { unfold info_of, PublishIdentity. cbn [ai_version fst snd pi_reusable pi_validationToken].
    destruct b; cbn [andb].
    - destruct (am_stability m); rewrite ?(bool_decide_eq_true_2 (Stable = Stable)) by done;
        rewrite (bool_decide_eq_false_2 (_ = Stable)) by done; done.
    - destruct (_ && _ && _); [|done]. by destruct (IsUsable _). }
  split.
  - intros Hne m' p Hin. destruct (Hv Hne) as [-> ->]. f_equal. rewrite <-F3. by eapply G3.
  - intros (m1 & p1 & m2 & p2 & I1 & I2 & Hd). destruct (decide (ai_version (info_of (m, b)) = [])) as [|Hne]; [done|].
    destruct (Hv Hne) as [-> _]. exfalso. apply Hd. rewrite (G3 eq_refl _ _ I1). symmetry. by eapply G3.
Qed.

(** ** One request for a resolve and an open *)

(** The newest key is not the one that goes. *)
Lemma evict_last {A} (bound : nat) (order : list str) (key : str) (table : gmap str A) :
  (1 <= bound)%nat -> key ∉ order -> fst (evict_oldest bound (order ++ [key]) table) !! key = table !! key.
Proof.
  intros Hb. revert table. induction order as [|x order IH]; intros table Hn; cbn [app evict_oldest length].
  - destruct (Nat.ltb_spec bound 1); [lia|done].
  - apply not_elem_of_cons in Hn as [Hx Hn]. destruct (_ <? _)%nat; [|done]. rewrite IH by done. by apply lookup_delete_ne.
Qed.

Lemma GetOrCreate_new key (s : Resolver) :
  tables_ok s -> rv_table s !! key = None ->
  exists s', GetOrCreate key s = (rv_next s, s') /\ rv_table s' !! key = Some (rv_next s) /\ entry_of (rv_next s) s' = Opened_new.
Proof.
  intros Ht E. unfold GetOrCreate. rewrite E.
  pose proof (evict_last kMaxRetainedOpens (rv_order s) key (<[key := rv_next s]> (rv_table s)) ltac:(unfold kMaxRetainedOpens; lia)) as Hl.
  destruct (evict_oldest _ _ _) as [table order]. eexists. split; [done|]. cbn [rv_table fst] in *. split.
  - rewrite Hl; [apply lookup_insert_eq|]. intros [? ?]%(ls_keys _ _ (tk_table _ Ht)). congruence.
  - unfold entry_of. cbn [rv_heap]. by rewrite lookup_insert_eq.
Qed.

Definition reader_in (w : wrapped (R := R)) : option R :=
  match w with NoReader _ => None | PassedThrough r _ => Some r | Cached _ r _ _ _ => Some r end.

(** A resolve and the open that follows it. *)
Lemma Resolve_OpenAsset {D} `{PersistentTier D} settings context assetPath scope (y : Sys) res w' store (d : D) :
  let id := CreateIdentifier assetPath [] in
  let ef := EffectiveConfiguration settings context in
  id <> [] -> CreateIdentifier id [] = id -> scope ≫= (fun cache : strmap => cache !! OpenKey id ef) = None ->
  tables_ok (sy_resolver y) -> rv_table (sy_resolver y) !! OpenKey id ef = None ->
  opener_Open id (ef_transport ef) (sy_world y) = (res, w') ->
  exists resolved y1, Resolve settings context assetPath scope y = (resolved, emplace (OpenKey id ef) resolved <$> scope, y1) /\
  sy_world y1 = w' /\
  match or_reader res with
  | Some r => resolved = id /\ sy_posted y1 = sy_posted y /\
      exists asset y2, OpenAsset settings context resolved store d y1 = (Some asset, y2) /\
        sy_world y2 = w' /\ reader_in (oa_reader asset) = Some r /\
        oa_reader asset = WrapAsset (mkOpenResult (Some r) Status_Ok) (Some (opener_Metrics r)) (ef_cache ef) store d
  | None => resolved = [] /\ rv_table (sy_resolver y1) !! OpenKey id ef = None /\
      sy_posted y1 = sy_posted y ++ (if bool_decide (st_code (or_status res) = NotFound) then [] else Report (or_status res) id)
  end.
Proof.
  intros id ef Hid Hfix Hscope Ht Hn Ho. unfold Resolve. fold id ef. rewrite bool_decide_eq_false_2 by done. cbv zeta.
  assert (match scope with Some cache => cache !! OpenKey id ef | None => None end = None) as -> by by destruct scope.
  unfold ResolveOnce. destruct (GetOrCreate_new _ _ Ht Hn) as (s1 & -> & Htab & Hent).
  set (e := rv_next (sy_resolver y)) in *. unfold on_entry, on_resolver. cbn [sy_resolver sy_world sy_posted].
  unfold OpenEntry. rewrite Hent. cbn [od_opened Opened_new]. rewrite Ho.
  destruct (or_reader res) as [r|] eqn:Er; cbn [sy_resolver sy_world sy_posted].
  - rewrite entry_of_with, decide_True by done. cbn [od_succeeded od_metadata]. eexists _, _. split_and!; [done|done|done|done|].
    unfold OpenAsset. rewrite Hfix, bool_decide_eq_false_2 by done. fold ef. unfold AcquireReader. cbn [sy_resolver sy_world sy_posted].
    set (s2 := with_entry e _ s1). destruct (RememberIdentity_eq id (Metadata r) (ho_destinations (ef_transport ef)) s2) as (ids & order & -> & _).
    cbn [snd]. unfold Take. cbn [rv_table with_entry s2]. rewrite Htab.
    unfold MoveReader, entry_of. cbn [rv_heap on_resolver with_table sy_resolver]. cbn [s2 with_entry rv_heap]. rewrite lookup_insert_eq.
    change (default Opened_new (Some ?x)) with x. cbn [od_reader].
    destruct (WrapAsset _ _ _ _ _) as [st|r' st|im r' metrics inner st] eqn:Ew; pose proof Ew as Ew'; unfold WrapAsset, Wrap in Ew; cbn [or_reader] in Ew.
    + exfalso. destruct (negb _); [done|]. by destruct (Impl_new _ _ _ _ _) as [[[? ?] ?] ?].
    + destruct (negb _); [|by destruct (Impl_new _ _ _ _ _) as [[[? ?] ?] ?]]. injection Ew as <- <-.
      destruct (HttpResolvedAsset_new _ _). eexists _, _. by split_and!.
    + destruct (negb _); [done|]. destruct (Impl_new _ _ _ _ _) as [[[? ?] ?] ?]. injection Ew as <- <- <- <- <-.
      destruct (HttpResolvedAsset_new _ _). eexists _, _. by split_and!.
  - rewrite entry_of_with, decide_True by done. cbn [od_succeeded od_status Opened_new].
    assert (rv_table (Forget (OpenKey id ef) e (with_entry e (mkOpened true None (or_status res) false AssetMetadata_new) s1)) !! OpenKey id ef = None) as Hf.
    { unfold Forget. cbn [rv_table with_entry]. rewrite Htab, Nat.eqb_refl. cbn [negb with_table rv_table]. apply lookup_delete_eq. }
    eexists _, _. split; [done|]. case_bool_decide; cbn [negb]; split_and!; try done. by rewrite app_nil_r.
Qed.

(** C19: resolving an asset and opening it costs one open.  Let the identifier of the
    path be its own identifier, as it is when its authority has no colon beside the
    one before a port ([CreateIdentifier_canonical]), and let neither the resolver nor the current
    scoped cache, if there is one, hold a result for it.  The resolve then opens it
    once and leaves its result in the scoped cache.  On success the path is the
    identifier, nothing is posted, and the open that follows under the same
    configuration makes no request and reads through that very reader; on failure
    the path is empty, the resolver does not retain the failure, and it is posted
    unless the asset is simply not there. *)
Theorem Resolve_then_OpenAsset {D} `{PersistentTier D} settings context assetPath scope (y : Sys) res w' store (d : D) :
  let id := CreateIdentifier assetPath [] in
  let ef := EffectiveConfiguration settings context in
  id <> [] -> CreateIdentifier id [] = id -> scope ≫= (fun cache : strmap => cache !! OpenKey id ef) = None ->
  tables_ok (sy_resolver y) -> rv_table (sy_resolver y) !! OpenKey id ef = None ->
  opener_Open id (ef_transport ef) (sy_world y) = (res, w') ->
  exists resolved y1, Resolve settings context assetPath scope y = (resolved, emplace (OpenKey id ef) resolved <$> scope, y1) /\
  sy_world y1 = w' /\
  match or_reader res with
  | Some r => resolved = id /\ sy_posted y1 = sy_posted y /\
      exists asset y2, OpenAsset settings context resolved store d y1 = (Some asset, y2) /\
        sy_world y2 = w' /\ reader_in (oa_reader asset) = Some r /\
        oa_reader asset = WrapAsset (mkOpenResult (Some r) Status_Ok) (Some (opener_Metrics r)) (ef_cache ef) store d
  | None => resolved = [] /\ rv_table (sy_resolver y1) !! OpenKey id ef = None /\
      sy_posted y1 = sy_posted y ++ (if bool_decide (st_code (or_status res) = NotFound) then [] else Report (or_status res) id)
  end.
Proof. apply Resolve_OpenAsset. Qed.
End spec.
