(* ===== verification/ResolverScope.v ===== *)
(** * ResolverScope: resolutions shared by a scope

    plugins/http-resolver: the cache of resolutions a host may put around a
    composition (_BeginCacheScope, _ResolveCache of HttpResolver.h, and the two
    sections of _Resolve that use it).  The container that finds the calling
    thread's cache is OpenUSD's; what is modelled is that any thread may have any
    live cache as its current one.  Threads of a scope look up and insert under
    its lock, and resolve outside it. *)

From S2P Require Import Prelude Diagnostics Validator AssetReader Metrics Destination HttpReader Identifier Configuration.
From S2P Require Import ConfigurationSpec ResolverReport HttpResolver HttpResolverSpec.

Lemma emplace_keeps key resolved cache k v : cache !! k = Some v -> emplace key resolved cache !! k = Some v.
Proof.
  intros E. unfold emplace. destruct (cache !! key) eqn:Ek; [done|]. rewrite lookup_insert_ne; [done|]. congruence.
Qed.

Lemma emplace_lookup key resolved cache k v :
  emplace key resolved cache !! k = Some v -> cache !! k = Some v \/ (k = key /\ v = resolved).
Proof.
  unfold emplace. destruct (cache !! key); [by left|]. destruct (decide (k = key)) as [->|Hne].
  - rewrite lookup_insert_eq. intros [= <-]. by right.
  - rewrite lookup_insert_ne by done. by left.
Qed.

Section scope.
Context {W R : Type} `{AssetReader R} `{HttpOpener W R}.

Abbreviation Conc := (Conc (W := W) (R := R)).
Abbreviation Sys := (Sys (W := W) (R := R)).
Abbreviation answer := (str * Effective * str)%type.

(** The resolver under any number of threads, the caches that are alive, and
    every answer a section of [_Resolve] has produced: for an identifier, under a
    configuration, a path or the empty path. *)
Record Scoped : Type := mkScoped {
  sc_conc : Conc;
  sc_caches : gmap nat strmap;
  sc_answers : list answer }.

Inductive sstep (x : Scoped) : Scoped -> Prop :=
| scope_section c :
    rstep (sc_conc x) c -> sstep x (mkScoped c (sc_caches x) (sc_answers x))
| scope_found id ef e :
    (id, ef, e) ∈ cn_held (sc_conc x) -> od_succeeded (entry_of e (cn_resolver (sc_conc x))) = true ->
    sstep x (mkScoped (sc_conc x) (sc_caches x) ((id, ef, id) :: sc_answers x))
| scope_failed id ef e :
    (id, ef, e) ∈ cn_held (sc_conc x) -> od_succeeded (entry_of e (cn_resolver (sc_conc x))) = false ->
    sstep x (mkScoped (sc_conc x) (sc_caches x) ((id, ef, []) :: sc_answers x))
| scope_hit n cache id ef resolved :
    effective_ok ef -> sc_caches x !! n = Some cache -> cache !! OpenKey id ef = Some resolved ->
    sstep x (mkScoped (sc_conc x) (sc_caches x) ((id, ef, resolved) :: sc_answers x))
| scope_insert n cache id ef resolved :
    (id, ef, resolved) ∈ sc_answers x -> sc_caches x !! n = Some cache ->
    sstep x (mkScoped (sc_conc x) (<[n := emplace (OpenKey id ef) resolved cache]> (sc_caches x)) (sc_answers x))
| scope_begin n :
    sc_caches x !! n = None -> sstep x (mkScoped (sc_conc x) (<[n := ∅]> (sc_caches x)) (sc_answers x))
| scope_end n :
    sstep x (mkScoped (sc_conc x) (delete n (sc_caches x)) (sc_answers x)).

Definition Scoped_new (w : W) : Scoped := mkScoped (Conc_new w) ∅ [].

Definition scope_reachable (x : Scoped) : Prop := exists w, rtc sstep (Scoped_new w) x.

(** An answer that is right for its caller: no path, or the identifier of an
    asset that was opened with exactly the caller's options. *)
Definition answer_ok (id : str) (ef : Effective) (resolved : str) : Prop :=
  resolved = [] \/ (resolved = id /\ exists r, opened_by id (ef_transport ef) r).

Definition cache_ok (cache : strmap) : Prop :=
  forall k v, cache !! k = Some v -> exists id ef, effective_ok ef /\ k = OpenKey id ef /\ answer_ok id ef v.

Record scoped_ok (x : Scoped) : Prop := {
  so_conc : reachable (sc_conc x);
  so_caches : forall n cache, sc_caches x !! n = Some cache -> cache_ok cache;
  so_answers : forall id ef v, (id, ef, v) ∈ sc_answers x -> effective_ok ef /\ answer_ok id ef v }.

(** A cached answer is right for whoever's key finds it. *)
Lemma cache_answer cache id ef v :
  cache_ok cache -> effective_ok ef -> cache !! OpenKey id ef = Some v -> answer_ok id ef v.
Proof.
  intros Hc Hef Hl. destruct (Hc _ _ Hl) as (id' & ef' & Hef' & Ek & Ha).
  apply OpenKey_inj in Ek as [-> E]; [|done..]. unfold answer_ok. by rewrite E.
Qed.

Lemma emplace_ok id ef v cache :
  cache_ok cache -> effective_ok ef -> answer_ok id ef v -> cache_ok (emplace (OpenKey id ef) v cache).
Proof.
  intros Hc Hef Ha k v' [Hl|[-> ->]]%emplace_lookup; [by apply Hc|]. by exists id, ef.
Qed.

(** A held entry that was opened was opened for its holder. *)
Lemma held_answer c id ef e :
  reachable c -> (id, ef, e) ∈ cn_held c ->
  effective_ok ef /\ (od_succeeded (entry_of e (cn_resolver c)) = true -> exists r, opened_by id (ef_transport ef) r).
Proof.
  intros Hr Hin. destruct (reachable_keys c Hr) as [keys Hk].
  assert (entry_key keys e id ef) as Hek by (apply (ko_held _ _ Hk), elem_of_app; by left).
  split; [apply Hek|]. intros Hs. destruct (eo_succeeded _ _ _ (ko_entry _ _ Hk e) Hs) as (_ & id' & ef' & r & Hk' & Ho & _).
  destruct (entry_key_inj _ _ _ _ _ _ Hek Hk') as [-> ->]. by exists r.
Qed.

Lemma scoped_step x x' : scoped_ok x -> sstep x x' -> scoped_ok x'.
Proof.
  intros [Hr Hc Ha] Hs.
  assert (forall id ef v, effective_ok ef -> answer_ok id ef v ->
    scoped_ok (mkScoped (sc_conc x) (sc_caches x) ((id, ef, v) :: sc_answers x))) as Hanswer.
  { intros id ef v Hef Hv. split; [done|done|]. cbn [sc_answers]. intros id' ef' v'.
    rewrite elem_of_cons. intros [[= -> -> ->]|?]; [done|by apply Ha]. }
  assert (forall n cache, cache_ok cache -> scoped_ok (mkScoped (sc_conc x) (<[n := cache]> (sc_caches x)) (sc_answers x))) as Hcache.
  { intros n cache Hn. split; [done| |done]. cbn [sc_caches]. intros n' cache'.
    destruct (decide (n' = n)) as [->|Hne]; [rewrite lookup_insert_eq; by intros [= <-]|].
    rewrite lookup_insert_ne by done. apply Hc. }
  destruct Hs as [c Hs|id ef e Hh Hsu|id ef e Hh Hsu|n cache id ef v Hef Hn Hl|n cache id ef v Hin Hn|n Hn|n].
  - split; [|done|done]. eapply reachable_trans; [exact Hr|]. by apply rtc_once.
  - destruct (held_answer _ _ _ _ Hr Hh) as [Hef Ho]. apply Hanswer; [done|]. right. auto.
  - destruct (held_answer _ _ _ _ Hr Hh) as [Hef _]. apply Hanswer; [done|]. by left.
  - apply Hanswer; [done|]. eapply cache_answer; eauto.
  - destruct (Ha _ _ _ Hin) as [Hef Hv]. apply Hcache, emplace_ok; eauto.
  - apply Hcache. intros k v Hl. by rewrite lookup_empty in Hl.
  - split; [done| |done]. cbn [sc_caches]. intros n' cache' Hl. apply lookup_delete_Some in Hl as [_ Hl]. eauto.
Qed.

Lemma scoped_reachable x : scope_reachable x -> scoped_ok x.
Proof.
  intros (w & Hr). assert (scoped_ok (Scoped_new w)) as H0'.
  { split; cbn [Scoped_new sc_conc sc_caches sc_answers].
    - by exists w.
    - intros n cache Hl. by rewrite lookup_empty in Hl.
    - by intros ??? ?%not_elem_of_nil. }
  revert Hr H0'. generalize (Scoped_new w). induction 1; eauto using scoped_step.
Qed.

(** ** [_Resolve] is a path of the steps *)

Lemma sections_path x c : rtc rstep (sc_conc x) c -> rtc sstep x (mkScoped c (sc_caches x) (sc_answers x)).
Proof.
  intros Hr. assert (x = mkScoped (sc_conc x) (sc_caches x) (sc_answers x)) as Ex by by destruct x.
  rewrite Ex at 1. revert Hr. generalize (sc_conc x). induction 1 as [|a b c' Hs Hr IH]; [done|].
  eapply rtc_l; [|exact IH]. by apply (scope_section (mkScoped a _ _)).
Qed.

Lemma ResolveOnce_answer x id ef (y : Sys) :
  at_state (sc_conc x) y -> effective_ok ef ->
  let '(resolved, y') := ResolveOnce id (OpenKey id ef) ef y in
  exists x', rtc sstep x x' /\ at_state (sc_conc x') y' /\ sc_caches x' = sc_caches x /\ (id, ef, resolved) ∈ sc_answers x'.
Proof.
  intros Hc Hef. unfold ResolveOnce. destruct (GetOrCreate (OpenKey id ef) (sy_resolver y)) as [e s] eqn:E.
  destruct (get_open_path _ id ef e s y Hc Hef E) as (c1 & [P1 [A1 A2]] & Hh). set (y1 := on_entry _ _ _ _) in *.
  apply sections_path in P1. set (x1 := mkScoped c1 (sc_caches x) (sc_answers x)) in *.
  destruct (od_succeeded (entry_of e (sy_resolver y1))) eqn:Es; rewrite <-A1 in Es.
  - set (x2 := mkScoped c1 (sc_caches x) ((id, ef, id) :: sc_answers x)).
    exists (mkScoped (mkConc (snd (RememberIdentity id (od_metadata (entry_of e (cn_resolver c1))) (destinations_of ef) (cn_resolver c1)))
      (cn_world c1) (cn_held c1) (cn_taken c1) (cn_readers c1)
      ((id, od_metadata (entry_of e (cn_resolver c1)), destinations_of ef) :: cn_log c1)) (sc_caches x2) (sc_answers x2)).
    split_and!; [|by rewrite A1|done|by left].
    eapply rtc_r; [eapply rtc_r; [exact P1|by apply (scope_found x1 id ef e)]|].
    apply (scope_section x2). by apply (step_remember c1 id ef e).
  - set (x2 := mkScoped c1 (sc_caches x) ((id, ef, []) :: sc_answers x)).
    exists (mkScoped (mkConc (Forget (OpenKey id ef) e (cn_resolver c1)) (cn_world c1) (cn_held c1) (cn_taken c1) (cn_readers c1)
      (cn_log c1)) (sc_caches x2) (sc_answers x2)).
    split_and!; [|rewrite A1, A2; by destruct (negb _)|done|by left].
    eapply rtc_r; [eapply rtc_r; [exact P1|by apply (scope_failed x1 id ef e)]|].
    apply (scope_section x2). by apply (step_forget c1 id ef e).
Qed.

Lemma Resolve_answer x settings context assetPath n (y : Sys) :
  at_state (sc_conc x) y -> effective_ok (se_base settings) ->
  let id := CreateIdentifier assetPath [] in
  let '(resolved, scope, y') := Resolve settings context assetPath (sc_caches x !! n) y in
  exists x', rtc sstep x x' /\ at_state (sc_conc x') y' /\ sc_caches x' !! n = scope /\
    (resolved = [] \/ (id, EffectiveConfiguration settings context, resolved) ∈ sc_answers x').
Proof.
  intros Hc Hb id. unfold Resolve. fold id. case_bool_decide as Hid; [exists x; by split_and!; try left|].
  pose proof (EffectiveConfiguration_ok settings context Hb) as Hef.
  set (ef := EffectiveConfiguration settings context) in *.
  destruct (match sc_caches x !! n with Some cache => cache !! OpenKey id ef | None => None end) as [v|] eqn:El.
  - destruct (sc_caches x !! n) as [cache|] eqn:En; [|done].
    exists (mkScoped (sc_conc x) (sc_caches x) ((id, ef, v) :: sc_answers x)).
    split_and!; [apply rtc_once; by eapply scope_hit|done|done|right; by left].
  - pose proof (ResolveOnce_answer x id ef y Hc Hef) as Hro. destruct (ResolveOnce id (OpenKey id ef) ef y) as [v y'].
    destruct Hro as (x1 & P1 & A1 & Ec & Hin). destruct (sc_caches x !! n) as [cache|] eqn:En.
    + exists (mkScoped (sc_conc x1) (<[n := emplace (OpenKey id ef) v cache]> (sc_caches x1)) (sc_answers x1)).
      split_and!; [|done|cbn [sc_caches]; by rewrite lookup_insert_eq|by right].
      eapply rtc_r; [exact P1|]. apply scope_insert; [done|]. by rewrite Ec.
    + exists x1. split_and!; [done|done|by rewrite Ec|by right].
Qed.

Lemma scope_reachable_trans x x' : scope_reachable x -> rtc sstep x x' -> scope_reachable x'.
Proof. intros (w & Hw) Hr. exists w. by etrans. Qed.

(** C8: a scope never lets one stage answer for another.  However the threads of a
    scope interleave their lookups, opens and insertions, and whatever contexts
    they are under, [_Resolve] answers a caller with its own identifier or with
    no path, and with the identifier only when the asset was opened with exactly
    the caller's transport options: a refusing stage does not resolve what a
    permissive one did, inside the scope or outside it.  And an answer that is in
    a scope's cache stays the same until the scope ends. *)
Theorem scope_isolation x :
  scope_reachable x ->
  (forall settings context assetPath n (y : Sys),
     at_state (sc_conc x) y -> effective_ok (se_base settings) ->
     let '(resolved, scope, y') := Resolve settings context assetPath (sc_caches x !! n) y in
     (resolved <> [] -> resolved = CreateIdentifier assetPath [] /\
        exists r, opened_by resolved (ef_transport (EffectiveConfiguration settings context)) r) /\
     exists x', scope_reachable x' /\ at_state (sc_conc x') y' /\ sc_caches x' !! n = scope) /\
  (forall id ef v, (id, ef, v) ∈ sc_answers x -> v <> [] -> v = id /\ exists r, opened_by id (ef_transport ef) r) /\
  (forall x' n cache cache' key v, sstep x x' -> sc_caches x !! n = Some cache -> cache !! key = Some v ->
     sc_caches x' !! n = Some cache' -> cache' !! key = Some v).
Proof.
  intros Hx. split_and!.
  - intros settings context assetPath n y Hc Hb. pose proof (Resolve_answer x settings context assetPath n y Hc Hb) as Hp.
    destruct (Resolve _ _ _ _ y) as [[v scope] y']. destruct Hp as (x' & P & A & Es & Hv).
    pose proof (scope_reachable_trans _ _ Hx P) as Hx'. split; [|by exists x']. intros Hne. destruct Hv as [?|Hin]; [done|].
    destruct (so_answers _ (scoped_reachable _ Hx') _ _ _ Hin) as [_ [?|[-> Ho]]]; done.
  - intros id ef v Hin Hne. destruct (so_answers _ (scoped_reachable _ Hx) _ _ _ Hin) as [_ [?|?]]; done.
  - intros x' n cache cache' key v Hs Hn Hl Hn'.
    destruct Hs as [c Hs|id ef e Hh Hsu|id ef e Hh Hsu|m m' id ef u Hef Hm Hu|m m' id ef u Hin Hm|m Hm|m]; cbn [sc_caches] in Hn';
      [congruence..| | |].
    + destruct (decide (n = m)) as [->|Hne]; [|rewrite lookup_insert_ne in Hn'; congruence].
      rewrite lookup_insert_eq in Hn'. injection Hn' as <-. apply emplace_keeps. congruence.
    + destruct (decide (n = m)) as [->|Hne]; [congruence|]. rewrite lookup_insert_ne in Hn'; congruence.
    + apply lookup_delete_Some in Hn' as [_ Hn']. congruence.
Qed.
End scope.
