(* ===== verification/ResolverContext.v ===== *)
(** * ResolverContext: contexts as values, and their Python conversion

    plugins/http-resolver: Context.h and Context.cpp.  A context is its map of
    overrides.  Hosts keep contexts in ordered and in hashed containers, so its
    order and hash matter, and creating one may register its conversion to
    Python: the threads that do are the step relation at the end. *)

From S2P Require Import Prelude Diagnostics Configuration HttpResolver.

(** ** Comparison and hashing *)

(** The entries of the [std::map], in its order. *)
Definition map_entries (overrides : strmap) : list (str * str) := merge_sort key_le (map_to_list overrides).

(** [std::pair]'s and [std::map]'s [operator<]: lexicographic both times. *)
Definition pair_ltb (a b : str * str) : bool :=
  str_ltb (fst a) (fst b) || (negb (str_ltb (fst b) (fst a)) && str_ltb (snd a) (snd b)).

Fixpoint entries_ltb (a b : list (str * str)) : bool :=
  match a, b with
  | _, [] => false
  | [], _ :: _ => true
  | x :: a', y :: b' => if pair_ltb x y then true else if pair_ltb y x then false else entries_ltb a' b'
  end.

Definition Context_ltb (a b : strmap) : bool := entries_ltb (map_entries a) (map_entries b).

Definition Context_eqb (a b : strmap) : bool := bool_decide (a = b).

(** [hash] is [std::hash<std::string>]. *)
Definition Context_hash (hash : str -> Z) (context : strmap) : Z := hash (Context_GetAsString context).

Lemma pair_ltb_irrefl a : pair_ltb a a = false.
Proof. unfold pair_ltb. by rewrite !str_ltb_irrefl. Qed.

(** Texts that neither precedes the other are the same. *)
Lemma str_ltb_tie a b : str_ltb a b = false -> str_ltb b a = false -> a = b.
Proof. intros H1 H2. destruct (decide (a = b)) as [|Hne]; [done|]. by rewrite (str_ltb_total a b) in H2. Qed.

Lemma pair_ltb_tie a b : pair_ltb a b = false -> pair_ltb b a = false -> a = b.
Proof.
  destruct a as [k v], b as [k' v']. unfold pair_ltb. cbn [fst snd]. rewrite !orb_false_iff.
  intros [H1 H2] [H3 H4]. rewrite H1, H3 in *. cbn in *. f_equal; by apply str_ltb_tie.
Qed.

Lemma pair_ltb_trans a b c : pair_ltb a b = true -> pair_ltb b c = true -> pair_ltb a c = true.
Proof.
  destruct a as [k1 v1], b as [k2 v2], c as [k3 v3]. unfold pair_ltb. cbn [fst snd].
  rewrite !orb_true_iff, !andb_true_iff, !negb_true_iff.
  intros [H1|[H1 H1']] [H2|[H2 H2']].
  - left. by eapply str_ltb_trans.
  - left. destruct (str_ltb k2 k3) eqn:E; [by eapply str_ltb_trans|]. by rewrite <-(str_ltb_tie k2 k3).
  - left. destruct (str_ltb k1 k2) eqn:E; [by eapply str_ltb_trans|]. by rewrite (str_ltb_tie k1 k2).
  - destruct (str_ltb k1 k3) eqn:E; [by left|right]. split; [|by eapply str_ltb_trans].
    destruct (str_ltb k3 k1) eqn:E'; [|done]. destruct (str_ltb k1 k2) eqn:E12.
    + by rewrite (str_ltb_trans k3 k1 k2) in H2.
    + by rewrite <-(str_ltb_tie k1 k2), E' in H2.
Qed.

Lemma entries_ltb_irrefl a : entries_ltb a a = false.
Proof. induction a as [|x a IH]; [done|]. cbn. by rewrite pair_ltb_irrefl. Qed.

Lemma entries_ltb_tie a b : entries_ltb a b = false -> entries_ltb b a = false -> a = b.
Proof.
  revert b. induction a as [|x a IH]; intros [|y b]; cbn; try done.
  destruct (pair_ltb x y) eqn:E1, (pair_ltb y x) eqn:E2; try done.
  intros H1 H2. f_equal; [by apply pair_ltb_tie|by apply IH].
Qed.

Lemma entries_ltb_trans a b c : entries_ltb a b = true -> entries_ltb b c = true -> entries_ltb a c = true.
Proof.
  revert b c. induction a as [|x a IH]; intros [|y b] [|z c]; cbn; try done.
  destruct (pair_ltb x y) eqn:Exy, (pair_ltb y z) eqn:Eyz.
  - by rewrite (pair_ltb_trans x y z).
  - destruct (pair_ltb z y) eqn:Ezy; [done|]. rewrite <-(pair_ltb_tie y z), Exy by done. done.
  - destruct (pair_ltb y x) eqn:Eyx; [done|]. rewrite (pair_ltb_tie x y), Eyz by done. done.
  - destruct (pair_ltb y x) eqn:Eyx, (pair_ltb z y) eqn:Ezy; try done.
    apply pair_ltb_tie in Exy as <-; [|done]. apply pair_ltb_tie in Eyz as <-; [|done].
    rewrite pair_ltb_irrefl. apply IH.
Qed.

(** A map is its entries. *)
Lemma map_entries_inj a b : map_entries a = map_entries b -> a = b.
Proof.
  intros E. apply map_to_list_inj. rewrite <-(merge_sort_Permutation key_le (map_to_list a)).
  rewrite <-(merge_sort_Permutation key_le (map_to_list b)). fold (map_entries a) (map_entries b). by rewrite E.
Qed.

Definition context_lt (a b : strmap) : Prop := Context_ltb a b = true.

#[export] Instance context_lt_strict : StrictOrder context_lt.
Proof.
  split; [intros a; unfold complement, context_lt, Context_ltb; by rewrite entries_ltb_irrefl|].
  intros a b c. apply entries_ltb_trans.
Qed.

(** The order and the equality agree: contexts that neither precedes are equal,
    so an ordered container holds one of each. *)
Lemma context_lt_total a b : Context_eqb a b = false <-> context_lt a b \/ context_lt b a.
Proof.
  unfold Context_eqb, context_lt, Context_ltb. rewrite bool_decide_eq_false. split.
  - intros Hne. destruct (entries_ltb (map_entries a) (map_entries b)) eqn:E1; [by left|right].
    destruct (entries_ltb (map_entries b) (map_entries a)) eqn:E2; [done|].
    destruct Hne. by apply map_entries_inj, entries_ltb_tie.
  - intros [E|E] ->; by rewrite entries_ltb_irrefl in E.
Qed.

(** ** The conversion to Python

    [HttpResolverContextEnsurePythonConversion]: the interpreter's lock (the GIL)
    is the only lock, a caller from Python already holds it, and the interpreter
    may start at any time. *)

(** Where a call is.  [Returning saw] remembers whether the call found the
    interpreter running. *)
Inductive Pc : Type :=
| Before | Entered | Locking | Locked | Registering | Storing | Unlocking | Returning (saw : bool) | Done (saw : bool).

#[export] Instance Pc_eq_dec : EqDecision Pc.
Proof. solve_decision. Defined.

Definition ended (pc : Pc) : bool := match pc with Done _ => true | _ => false end.

(** A call, and whether its caller is Python. *)
Record Call : Type := mkCall { ca_pc : Pc; ca_python : bool }.

Record Interp : Type := mkInterp {
  in_registered : bool;          (** the flag *)
  in_initialized : bool;         (** [TfPyIsInitialized] *)
  in_gil : option nat;           (** the call that holds the GIL *)
  in_conversions : nat;          (** converters handed to Python *)
  in_calls : list Call }.

(** The GIL is free, or already the call's ([TfPyLock] nests). *)
Definition may_lock (i : nat) (s : Interp) : bool := bool_decide (in_gil s = None \/ in_gil s = Some i).

(** The next access of call [i]; [None] when it has to wait or has ended. *)
Definition call_step (i : nat) (c : Call) (s : Interp) : option Interp :=
  let at_ pc := <[i := mkCall pc (ca_python c)]> (in_calls s) in
  let go pc := Some (mkInterp (in_registered s) (in_initialized s) (in_gil s) (in_conversions s) (at_ pc)) in
  let gil g pc := Some (mkInterp (in_registered s) (in_initialized s) g (in_conversions s) (at_ pc)) in
  match ca_pc c with
  | Before =>
      if ca_python c then (if in_initialized s && bool_decide (in_gil s = None) then gil (Some i) Entered else None)
      else go Entered
  | Entered =>
      if in_registered s || negb (in_initialized s) then go (Returning (in_initialized s)) else go Locking
  | Locking => if may_lock i s then gil (Some i) Locked else None
  | Locked => if in_registered s then go Unlocking else go Registering
  | Registering =>
      Some (mkInterp (in_registered s) (in_initialized s) (in_gil s) (S (in_conversions s)) (at_ Storing))
  | Storing => Some (mkInterp true (in_initialized s) (in_gil s) (in_conversions s) (at_ Unlocking))
  | Unlocking => gil (if ca_python c then in_gil s else None) (Returning true)
  | Returning saw => gil (if ca_python c then None else in_gil s) (Done saw)
  | Done _ => None
  end.

Inductive pstep (s : Interp) : Interp -> Prop :=
| pstep_call i c s' : in_calls s !! i = Some c -> call_step i c s = Some s' -> pstep s s'
| pstep_start :
    pstep s (mkInterp (in_registered s) true (in_gil s) (in_conversions s) (in_calls s)).

Definition Interp_new (running : bool) (callers : list bool) : Interp :=
  mkInterp false running None 0 (map (mkCall Before) callers).

(** Which calls hold the GIL, and which are inside the guarded part. *)
Definition holds_gil (c : Call) : bool :=
  match ca_pc c with
  | Locked | Registering | Storing | Unlocking => true
  | Before | Done _ => false
  | Entered | Locking | Returning _ => ca_python c
  end.

Record interp_ok (s : Interp) : Prop := {
  io_gil : forall i c, in_calls s !! i = Some c -> (holds_gil c = true <-> in_gil s = Some i);
  io_owner : forall i, in_gil s = Some i -> is_Some (in_calls s !! i);
  io_pending : forall i c, in_calls s !! i = Some c -> ca_pc c = Registering \/ ca_pc c = Storing -> in_registered s = false;
  io_returned : forall i c, in_calls s !! i = Some c ->
    ca_pc c = Unlocking \/ ca_pc c = Returning true \/ ca_pc c = Done true -> in_registered s = true;
  io_once : in_registered s = true -> in_conversions s = 1%nat;
  io_storing : forall i c, in_calls s !! i = Some c -> ca_pc c = Storing -> in_conversions s = 1%nat;
  io_none : in_registered s = false -> (forall i c, in_calls s !! i = Some c -> ca_pc c <> Storing) -> in_conversions s = 0%nat }.

Lemma interp_new running callers : interp_ok (Interp_new running callers).
Proof.
  assert (forall i c, in_calls (Interp_new running callers) !! i = Some c -> ca_pc c = Before) as Hb.
  { intros i c. cbn. rewrite list_lookup_fmap. destruct (callers !! i); by intros [= <-]. }
  split; cbn [Interp_new in_registered in_gil in_conversions]; try done.
  - intros i c Hc%Hb. unfold holds_gil. by rewrite Hc.
  - intros i c Hc%Hb [E|[E|E]]; congruence.
  - intros i c Hc%Hb E. congruence.
Qed.

(** One call moves on: what has to be shown of it, and of the others nothing. *)
Lemma interp_move s i c pc reg gil n :
  interp_ok s -> in_calls s !! i = Some c ->
  let c' := mkCall pc (ca_python c) in
  (holds_gil c' = true <-> gil = Some i) ->
  gil = in_gil s \/ ((in_gil s = None \/ in_gil s = Some i) /\ (gil = None \/ gil = Some i)) ->
  (pc = Registering \/ pc = Storing -> reg = false) ->
  (pc = Unlocking \/ pc = Returning true \/ pc = Done true -> reg = true) ->
  (reg = in_registered s \/ (reg = true /\ in_gil s = Some i)) ->
  (n = in_conversions s /\ (reg = true -> in_registered s = true \/ ca_pc c = Storing) /\
     (pc = Storing -> ca_pc c = Storing) /\ (ca_pc c = Storing -> pc = Storing \/ reg = true)) \/
   (n = S (in_conversions s) /\ ca_pc c = Registering /\ pc = Storing) ->
  interp_ok (mkInterp reg (in_initialized s) gil n (<[i := c']> (in_calls s))).
Proof.
  intros [I1 I2 I3 I4 I5 I6 I7] Hi c' Hh Hg Hp Hr Hreg Hn.
  assert (forall j d, <[i := c']> (in_calls s) !! j = Some d -> (j = i /\ d = c') \/ (j <> i /\ in_calls s !! j = Some d)) as Hl.
  { intros j d Hj. destruct (decide (j = i)) as [->|Hne]; [left|right].
    - rewrite list_lookup_insert_eq in Hj by (by eapply lookup_lt_Some). by injection Hj as <-.
    - by rewrite list_lookup_insert_ne in Hj by done. }
  assert (in_calls s !! i = Some c -> ca_pc c = Registering \/ ca_pc c = Storing -> in_gil s = Some i) as Hown.
  { intros _ Hpc. apply (I1 i c Hi). unfold holds_gil. by destruct Hpc as [-> | ->]. }
  split; cbn [in_calls in_gil in_registered in_conversions].
  - intros j d [[-> ->]|[Hne Hj]]%Hl; [done|]. rewrite (I1 j d Hj). destruct Hg as [->|[[E|E] [->| ->]]]; [done|..];
      rewrite E; split; congruence.
  - intros j E. destruct (decide (j = i)) as [->|Hne]; [rewrite list_lookup_insert_eq by (by eapply lookup_lt_Some); done|].
    rewrite list_lookup_insert_ne by done. apply I2. destruct Hg as [->|[_ [->| ->]]]; congruence.
  - intros j d [[-> ->]|[Hne Hj]]%Hl Hpc; [by apply Hp|]. destruct Hreg as [->|[_ Hgi]]; [by eapply I3|].
    assert (in_gil s = Some j) by (apply (I1 j d Hj); unfold holds_gil; by destruct Hpc as [-> | ->]). congruence.
  - intros j d [[-> ->]|[Hne Hj]]%Hl Hpc; [by apply Hr|]. destruct Hreg as [->|[-> _]]; [by eapply I4|done].
  - intros ->. destruct Hn as [(-> & Hn & _)|(-> & Ec & ->)]; [|by specialize (Hp (or_intror eq_refl))].
    destruct (Hn eq_refl) as [?|?]; eauto.
  - intros j d [[-> ->]|[Hne Hj]]%Hl Hpc.
    + destruct Hn as [(-> & _ & Hn & _)|(-> & Ec & _)]; [eauto|]. f_equal. apply I7; [by eapply I3; eauto|].
      intros k e Hk Ek. assert (in_gil s = Some k) by (apply (I1 k e Hk); unfold holds_gil; by rewrite Ek).
      assert (k = i) as -> by (specialize (Hown Hi (or_introl Ec)); congruence). congruence.
    + destruct Hn as [(-> & _)|(-> & Ec & _)]; [eauto|].
      assert (in_gil s = Some j) by (apply (I1 j d Hj); unfold holds_gil; by rewrite Hpc).
      specialize (Hown Hi (or_introl Ec)). congruence.
  - intros -> Hs. destruct Hn as [(-> & _ & _ & Hn)|(_ & _ & ->)].
    + apply I7; [by destruct Hreg as [<-|[? _]]|]. intros j d Hj Hd. destruct (decide (j = i)) as [->|Hne].
      * assert (d = c) as -> by congruence. destruct (Hn Hd) as [->|?]; [|done].
        apply (Hs i c'); [|done]. apply list_lookup_insert_eq. by eapply lookup_lt_Some.
      * apply (Hs j d); [|done]. by rewrite list_lookup_insert_ne.
    + exfalso. apply (Hs i c'); [|done]. apply list_lookup_insert_eq. by eapply lookup_lt_Some.
Qed.

Lemma interp_step s s' : interp_ok s -> pstep s s' -> interp_ok s'.
Proof.
  intros Hs Hstep. destruct Hstep as [i c s' Hi E|]; [|by destruct Hs as [I1 I2 I3 I4 I5 I6 I7]; split].
  pose proof (io_gil s Hs i c Hi) as Hg. unfold holds_gil in Hg. unfold call_step in E.
  destruct c as [pc py]. cbn [ca_pc ca_python] in *.
  assert (forall pc' g, s' = mkInterp (in_registered s) (in_initialized s) g (in_conversions s) (<[i := mkCall pc' py]> (in_calls s)) ->
    pc <> Storing -> pc' <> Storing -> (pc' = Registering -> in_registered s = false) ->
    (pc' = Unlocking \/ pc' = Returning true \/ pc' = Done true -> in_registered s = true) ->
    (holds_gil (mkCall pc' py) = true <-> g = Some i) ->
    g = in_gil s \/ ((in_gil s = None \/ in_gil s = Some i) /\ (g = None \/ g = Some i)) -> interp_ok s') as Hquiet.
  { intros pc' g -> Hn1 Hn2 Hp Hr Hh Ho.
    apply (interp_move s i (mkCall pc py) pc' (in_registered s) g (in_conversions s) Hs Hi); try done.
    - intros [?|?]; [by apply Hp|done].
    - by left.
    - left. split_and!; [done|by left|done|done]. }
  destruct pc as [| | | | | | |saw|saw]; cbv beta iota zeta in E, Hg; [..|done].
  - destruct py.
    + destruct (in_initialized s && bool_decide (in_gil s = None)) eqn:Eb; [|done]. injection E as <-.
      apply andb_true_iff in Eb as [_ Eg%bool_decide_eq_true]. eapply Hquiet; [reflexivity|try done..]; [naive_solver|naive_solver].
    + injection E as <-. eapply Hquiet; [reflexivity|try done..]; naive_solver.
  - pose proof (io_returned s Hs). destruct (in_registered s || negb (in_initialized s)) eqn:Eb; injection E as <-.
    + eapply Hquiet; [reflexivity|try done..]; [|by left]. intros [?|[[= Ei]|?]]; try done.
      rewrite Ei in Eb. by rewrite orb_false_r in Eb.
    + eapply Hquiet; [reflexivity|try done..]; naive_solver.
  - unfold may_lock in E. case_bool_decide as Hm; [|done]. injection E as <-.
    eapply Hquiet; [reflexivity|try done..]; naive_solver.
  - destruct (in_registered s) eqn:Er; injection E as <-; eapply Hquiet; try reflexivity; try done; naive_solver.
  - injection E as <-.
    apply (interp_move s i (mkCall Registering py) Storing (in_registered s) (in_gil s) (S (in_conversions s)) Hs Hi); try done; auto.
    + intros _. eapply (io_pending s Hs); eauto.
    + naive_solver.
  - injection E as <-.
    apply (interp_move s i (mkCall Storing py) Unlocking true (in_gil s) (in_conversions s) Hs Hi); try done; auto; naive_solver.
  - injection E as <-. assert (in_registered s = true) by (eapply (io_returned s Hs); eauto).
    eapply Hquiet; [reflexivity|try done..]; destruct py; naive_solver.
  - injection E as <-. assert (saw = true -> in_registered s = true) by (intros ->; eapply (io_returned s Hs); eauto).
    eapply Hquiet; [reflexivity|try done..]; destruct py; naive_solver.
Qed.

(** However the threads that create contexts interleave, and whenever the host
    starts Python: the conversion is registered at most once; a call that found
    Python running returns with it registered; and with Python running the calls
    never wait for one another for ever, a caller that already holds the GIL
    included. *)
Theorem registration_once running callers s :
  rtc pstep (Interp_new running callers) s ->
  (in_conversions s <= 1)%nat /\
  (forall i c, in_calls s !! i = Some c -> ca_pc c = Done true -> in_registered s = true /\ in_conversions s = 1%nat) /\
  (in_initialized s = true -> (forall i c, in_calls s !! i = Some c -> exists saw, ca_pc c = Done saw) \/
     exists i c s', in_calls s !! i = Some c /\ call_step i c s = Some s').
Proof.
  intros Hr. assert (interp_ok s) as Hs.
  { revert Hr. generalize (interp_new running callers). generalize (Interp_new running callers).
    intros s0 H0 Hr. induction Hr; eauto using interp_step. }
  split_and!.
  - destruct (in_registered s) eqn:Er; [by rewrite (io_once s Hs)|].
    destruct (decide (Exists (fun c => ca_pc c = Storing) (in_calls s))) as [He|Hn].
    + apply Exists_exists in He as (c & [i Hi]%list_elem_of_lookup & Hc). by rewrite (io_storing s Hs i c).
    + rewrite (io_none s Hs); [lia|done|]. intros i c Hi Hc. apply Hn, Exists_exists. exists c. split; [|done].
      by eapply list_elem_of_lookup_2.
  - intros i c Hi Hc. assert (in_registered s = true) as Er by (eapply (io_returned s Hs); eauto).
    split; [done|by apply io_once].
  - intros Hrun.
    assert (forall i c, in_calls s !! i = Some c -> (forall saw, ca_pc c <> Done saw) ->
      (in_gil s = None \/ in_gil s = Some i) -> exists s', call_step i c s = Some s') as Hgo.
    { intros i c Hi Hd Hg. pose proof (io_gil s Hs i c Hi) as Hown. unfold holds_gil in Hown. unfold call_step, may_lock.
      rewrite Hrun. cbn [negb andb orb]. rewrite (bool_decide_eq_true_2 _ Hg).
      destruct c as [pc py]. cbn [ca_pc ca_python] in *.
      destruct pc; try (by eexists); [|by destruct (_ || _); eexists|by destruct (in_registered s); eexists|by edestruct Hd].
      destruct py; [|by eexists]. rewrite bool_decide_eq_true_2; [by eexists|]. destruct Hg as [?|Hg]; [done|]. by apply Hown in Hg. }
    destruct (in_gil s) as [i|] eqn:Eg.
    + right. destruct (io_owner s Hs i Eg) as [c Hi]. exists i, c. assert (holds_gil c = true) as Hh by (by apply (io_gil s Hs i c Hi)).
      destruct (Hgo i c Hi) as [s' Es]; [intros saw Ed; unfold holds_gil in Hh; by rewrite Ed in Hh|by right|by exists s'].
    + destruct (decide (Exists (fun c => ended (ca_pc c) = false) (in_calls s))) as [He|Hn].
      * right. apply Exists_exists in He as (c & [i Hi]%list_elem_of_lookup & Hc).
        destruct (Hgo i c Hi) as [s' Es]; [intros saw Ed; by rewrite Ed in Hc|by left|by exists i, c, s'].
      * left. intros i c Hi. destruct (ca_pc c) eqn:Ec; [..|by eexists]; destruct Hn; apply Exists_exists; exists c;
          (split; [by eapply list_elem_of_lookup_2|by rewrite Ec]).
Qed.
