(* ===== verification/Stack.v ===== *)
(** * Stack: a cached reader over a file, with the disk tier underneath

    The composition the library is for: [LocalReader] opened, wrapped by
    [CachedReader.WrapAsset], reading through the shared store of [BlockCache]
    and the directory of [DiskStore].  Each component's contract discharges what
    the next one relies on. *)

From S2P Require Import Prelude Diagnostics Validator RangeMath AssetReader Metrics CacheKey CacheOptions.
From S2P Require Import BlockPlan BlockCache PersistentTier CachedReader CachedReaderSpec.
From S2P Require Import Sha256 DiskFormat DiskStore PlatformFile LocalReader.

Section stack.
Context {OS : Type} `{PlatformLaws OS} {F : Type} `{FileSystemLaws F} (nonce : Z).

#[local] Instance stack_reader : AssetReader (LocalAssetReader (OS := OS)) := Local_AssetReader.
#[local] Instance stack_tier : PersistentTier (DiskBlockStore F) := Disk_tier nonce.

(** The moment of the file a reader is bound to makes it the asset of a cached
    reader on top. *)
Lemma stack_deployed (r : LocalAssetReader (OS := OS)) A env options st (d : DiskBlockStore F) im metrics inner st' :
  local_inv A r -> options_typed options -> store_wf st -> 0 <= s_nextIdentityId st < 2 ^ 64 - 1 ->
  Impl_new r options st d None = (im, metrics, inner, st') ->
  s_identities st !! b_identity (im_binding im) = None -> tier_ok (b_identity (im_binding im)) A d ->
  (forall t w, winv im A (local_inv A) (tier_ok (b_identity (im_binding im)) A) w ->
     winv im A (local_inv A) (tier_ok (b_identity (im_binding im)) A) (env t w)) ->
  deployed env im A (local_inv A) (tier_ok (b_identity (im_binding im)) A) /\
  winv im A (local_inv A) (tier_ok (b_identity (im_binding im)) A) (st', d, r).
Proof.
  intros Hr Ht Hw Hn E Hfresh Hd Hrely.
  pose proof (Impl_new_ok env r options st d None A (local_inv A) (tier_ok (b_identity (im_binding im)) A) Ht Hw Hn Hr Hd) as Hi.
  rewrite E in Hi. apply Hi; [right; by apply store_holds_new|done].
Qed.

(** End to end.  A file is opened, wrapped in a cache and read, while other
    processes rewrite the file, other readers use the store and the directory,
    and any file-system call of the disk tier may fail: every read that returns
    success returns exactly the bytes the file had at one moment of the open,
    where an unchanged identity means unchanged bytes ([identity_tells]), and no
    read writes outside its destination. *)
Theorem stack_read p os r options st (d : DiskBlockStore F) im metrics inner st' :
  stat_reliable (OS := OS) -> identity_tells OS ->
  fst (Local_Open p None os) = mkOpenResult (Some r) Status_Ok ->
  options_typed options -> store_wf st -> 0 <= s_nextIdentityId st < 2 ^ 64 - 1 ->
  WrapAsset (mkOpenResult (Some r) Status_Ok) None options st d = Cached im r metrics inner st' ->
  s_identities st !! b_identity (im_binding im) = None ->
  key_typed (b_identity (im_binding im)) 0 ->
  exists t A, os_le os t /\ os_le t (lr_os r) /\ A = file_at t (lr_handle r) /\
  (tier_ok (b_identity (im_binding im)) A d ->
   forall env patience start end_ offset dst size,
   (forall t w, winv im A (local_inv A) (tier_ok (b_identity (im_binding im)) A) w ->
      winv im A (local_inv A) (tier_ok (b_identity (im_binding im)) A) (env t w)) ->
   is_u64 offset -> is_u64 size -> zlen dst = size ->
   exists res out c', Cached_Read env patience im start end_ offset (Some dst) size
     (mkCsys st' d r 0 metrics) = (res, Some out, c') /\ length out = length dst /\
     forall result, res = Some result -> read_post A offset size dst result out).
Proof.
  intros Hrel Htell Ho Ht Hw Hn Hwrap Hfresh Hkey. pose proof (Local_Open_spec p os) as Hspec.
  rewrite Ho in Hspec. destruct Hspec as (_ & (t & T1 & T2 & Hinv) & _ & Hra & _).
  exists t, (file_at t (lr_handle r)). split_and!; try done. intros Hd env patience start end_ offset dst size Hrely Hu1 Hu2 Hz.
  set (A := file_at t (lr_handle r)) in *.
  unfold WrapAsset, Wrap in Hwrap. cbn [or_reader Metadata stack_reader Local_AssetReader] in Hwrap. rewrite Hra in Hwrap.
  cbn [negb] in Hwrap. destruct (Impl_new r options st d None) as [[[im0 m0] i0] st0] eqn:E.
  injection Hwrap as -> -> -> ->.
  destruct (stack_deployed r A env options st d im metrics inner st') as [Hdep Hwinv]; try done.
  assert (is_u64 (zlen A)) as HA by apply law_size.
  assert (0 < ai_blockSize (b_identity (im_binding im))) as Hbs by (rewrite (dp_identity _ _ _ _ _ Hdep); apply Hdep).
  pose proof (Local_ReaderContract A Hrel Htell HA) as HR.
  pose proof (Disk_TierContract _ A Hkey Hbs HA (F := F) nonce) as HT.
  pose proof (Cached_Read_cases env patience im A _ _ Hdep start end_ offset dst size (mkCsys st' d r 0 metrics) Hwinv Hu1 Hu2 Hz) as Hc.
  destruct (Cached_Read _ _ _ _ _ _ _ _ _) as [[res dst'] c']. destruct Hc as (_ & out & -> & Hl & Hr).
  exists res, out, c'. split_and!; try done. intros result ->. apply Hr.
Qed.
End stack.
