(* ===== verification/HttpStack.v ===== *)
(** * HttpStack: a cached reader over HTTP, with the disk tier underneath

    The deployment of the library: an asset opened by [HttpReader], wrapped by
    [CachedReader.WrapAsset], read through the shared store of [BlockCache] and
    the directory of [DiskStore]. *)

From S2P Require Import Prelude Diagnostics Validator RangeMath AssetReader Metrics CacheKey CacheOptions.
From S2P Require Import BlockPlan BlockCache PersistentTier CachedReader CachedReaderSpec.
From S2P Require Import Sha256 DiskFormat DiskStore Uri Framing Destination HttpReader HttpReaderSpec.

Section http_stack.
Context {W : Type} `{HttpWorld W} {F : Type} `{FileSystemLaws F} (nonce : Z).

#[local] Instance http_stack_tier : PersistentTier (DiskBlockStore F) := Disk_tier nonce.

(** What an open of a URL where the asset is published leaves, when it captured
    the strong entity tag of the asset: a reader bound to it, with random access. *)
Lemma Http_Open_inv (Inv : W -> Prop) Here A url options (w w' : W) r status u :
  Origin W Inv Here (am_validator (hr_metadata r)) A -> ParseUri url = inr u -> Here u -> am_size (hr_metadata r) = zlen A ->
  Inv w -> Http_Open url options (Some w) = (mkOpenResult (Some r) status, Some w') ->
  http_inv Inv Here (am_validator (hr_metadata r)) A r /\ am_supportsRandomAccess (hr_metadata r) = true.
Proof.
  intros Hor Hp Hu Hsz Hi. unfold Http_Open. rewrite Hp.
  destruct (PerformExchange _ _ _ _ _ _ _ _) as [x xs] eqn:Ex. unfold PerformExchange in Ex.
  apply (exchange_answered Inv Here (am_validator (hr_metadata r)) A) in Ex as (Hi' & _ & Hf & _); [|done..].
  destruct (negb _); [done|]. destruct (negb _); [done|].
  destruct (if HasConflictingDuplicate _ _ then _ else _) as [size|]; [|done]. destruct (negb _); [done|].
  intros [= Er <- <-]. destruct (og_strong (Origin := Hor)) as (S1 & S2 & _). subst r. unfold http_inv.
  cbn [with_hmetrics Http_new hr_world hr_metadata hr_ifRangeValue hr_uri am_validator am_size am_supportsRandomAccess] in *.
  split_and!; try done. by apply CaptureValidator_strong.
Qed.

(** The reads of a cached reader over an open, with or without the transport's
    counters attached. *)
Lemma http_stack_reads (Inv : W -> Prop) Here A url http (w w' : W) r status u options st (d : DiskBlockStore F) im0 im metrics inner st'
    env patience start end_ offset dst size :
  Http_Open url http (Some w) = (mkOpenResult (Some r) status, Some w') ->
  Inv w -> Origin W Inv Here (am_validator (hr_metadata r)) A -> ParseUri url = inr u -> Here u ->
  am_size (hr_metadata r) = zlen A -> is_u64 (zlen A) ->
  options_typed options -> store_wf st -> 0 <= s_nextIdentityId st < 2 ^ 64 - 1 ->
  WrapAsset (mkOpenResult (Some r) Status_Ok) im0 options st d = Cached im r metrics inner st' ->
  store_holds A (b_identity (im_binding im)) st -> key_typed (b_identity (im_binding im)) 0 ->
  tier_ok (b_identity (im_binding im)) A d ->
  (forall t x, winv im A (http_inv Inv Here (am_validator (hr_metadata r)) A) (tier_ok (b_identity (im_binding im)) A) x ->
     winv im A (http_inv Inv Here (am_validator (hr_metadata r)) A) (tier_ok (b_identity (im_binding im)) A) (env t x)) ->
  is_u64 offset -> is_u64 size -> zlen dst = size ->
  exists res out c', Cached_Read env patience im start end_ offset (Some dst) size
    (mkCsys st' d r 0 metrics) = (res, Some out, c') /\ length out = length dst /\
    forall result, res = Some result -> read_post A offset size dst result out.
Proof.
  intros Ho Hi Hor Hp Hu Hsz HA Ht Hw Hn Hwrap Hheld Hkey Hd Hrely Hu1 Hu2 Hz.
  destruct (Http_Open_inv Inv Here A _ _ _ _ _ _ u Hor Hp Hu Hsz Hi Ho) as [Hr Hra]. set (v := am_validator (hr_metadata r)) in *.
  unfold WrapAsset, Wrap in Hwrap. cbn [or_reader Metadata Http_AssetReader] in Hwrap. rewrite Hra in Hwrap.
  cbn [negb] in Hwrap. destruct (Impl_new r options st d im0) as [[[im1 m1] i1] st1] eqn:E.
  injection Hwrap as -> -> -> ->.
  pose proof (Http_ReaderContract Inv Here v A HA) as HR.
  pose proof (Impl_new_ok env r options st d im0 A (http_inv Inv Here v A) (tier_ok (b_identity (im_binding im)) A) Ht Hw Hn Hr Hd) as Hdep.
  rewrite E in Hdep. destruct Hdep as [Hdep Hwinv]; [by right|done|].
  assert (0 < ai_blockSize (b_identity (im_binding im))) as Hbs by (rewrite (dp_identity _ _ _ _ _ Hdep); apply Hdep).
  pose proof (Disk_TierContract _ A Hkey Hbs HA (F := F) nonce) as HT.
  pose proof (Cached_Read_cases env patience im A _ _ Hdep start end_ offset dst size (mkCsys st' d r 0 metrics) Hwinv Hu1 Hu2 Hz) as Hc.
  destruct (Cached_Read _ _ _ _ _ _ _ _ _) as [[res dst'] c']. destruct Hc as (_ & out & -> & Hl & Hres).
  exists res, out, c'. split_and!; try done. intros result ->. apply Hres.
Qed.
End http_stack.
