(* ===== verification/ResolverStack.v ===== *)
(** * ResolverStack: from an asset path to the bytes of the asset

    The whole program: the resolver of [HttpResolver] with the HTTP backend of
    [HttpReader] as its opener, the cache of [CachedReader] around the reader, the
    shared store of [BlockCache] and the directory of [DiskStore] under it. *)

From S2P Require Import Prelude Diagnostics Validator RangeMath AssetReader Metrics CacheKey CacheOptions.
From S2P Require Import BlockPlan BlockCache PersistentTier CachedReader CachedReaderSpec.
From S2P Require Import Sha256 DiskFormat DiskStore Uri Framing Destination HttpReader HttpReaderSpec HttpStack.
From S2P Require Import Identifier Configuration ConfigurationSpec ResolverReport HttpResolver HttpResolverSpec.

Section resolver_stack.
Context {W : Type} `{HttpWorld W} {F : Type} `{FileSystemLaws F} (nonce : Z).

(** [usdasset::http::Open]; the world is absent where no transport can be made. *)
#[export] Instance Http_Opener : HttpOpener (option W) (HttpAssetReader (W := W)) := {
  opener_Open := Http_Open;
  opener_Metrics := hr_metrics }.

#[local] Instance resolver_stack_tier : PersistentTier (DiskBlockStore F) := Disk_tier nonce.

(** What [_Configure] leaves in the settings. *)
Definition configured (settings : Settings) : Prop :=
  se_base settings = effective_of (fst (ConfigurationFrom (LookupIn (se_environment settings)) [])).

Lemma configured_cache_typed settings context :
  configured settings -> options_typed (ef_cache (EffectiveConfiguration settings context)).
Proof.
  intros Hs. assert (forall lookup, options_typed (ef_cache (effective_of (fst (ConfigurationFrom lookup []))))) as Hl.
  { intros lookup. destruct (ConfigurationFrom_eq lookup []) as (ps & -> & _). apply Normalized_typed, configuration_cache_typed. }
  unfold EffectiveConfiguration. destruct context as [o|]; [case_bool_decide|]; try apply Hl; rewrite Hs; apply Hl.
Qed.

(** C1: from the path a layer names to the bytes its host reads.  The path is
    resolved, the asset opened through the reader the resolve left behind with no
    further request, wrapped in the configured cache, and read: every read that
    succeeds returns exactly the bytes of the representation [A] the resolve found,
    and none writes outside its destination.  Assumed: the settings are the
    environment's; the path's identifier is its own identifier (no second port),
    with no retained result; the open captures [A]'s strong entity tag and size; the
    origin honours [If-Range] as [Origin] says (a [206] to it at a URL [Here] carries
    bytes of [A], unless it names another tag or length; redirects stay [Here]) and
    otherwise answers anything; the store is well formed, with identities left; what
    it and the directory hold under the asset's key is [A]'s; and the environment,
    run between any two steps, keeps that true. *)
Theorem resolver_read (Inv : W -> Prop) Here A settings context assetPath scope u
    (y : Sys (W := option W) (R := HttpAssetReader (W := W))) w w' r status store (d : DiskBlockStore F) :
  let id := CreateIdentifier assetPath [] in
  let ef := EffectiveConfiguration settings context in
  let v := am_validator (hr_metadata r) in
  let key := mkAssetIdentity (am_resolvedIdentifier (hr_metadata r)) (v_value v) (co_blockSize (CacheOptions.Normalized (ef_cache ef))) in
  configured settings ->
  id <> [] -> CreateIdentifier id [] = id -> scope ≫= (fun cache : strmap => cache !! OpenKey id ef) = None ->
  tables_ok (sy_resolver y) -> rv_table (sy_resolver y) !! OpenKey id ef = None ->
  sy_world y = Some w -> Http_Open id (ef_transport ef) (Some w) = (mkOpenResult (Some r) status, Some w') ->
  Inv w -> Origin W Inv Here v A -> ParseUri id = inr u -> Here u -> am_size (hr_metadata r) = zlen A -> is_u64 (zlen A) ->
  store_wf store -> 0 <= s_nextIdentityId store < 2 ^ 64 - 1 ->
  store_holds A key store -> key_typed key 0 -> tier_ok key A d ->
  exists y1 y2 asset im metrics inner store',
    Resolve settings context assetPath scope y = (id, emplace (OpenKey id ef) id <$> scope, y1) /\
    OpenAsset settings context id store d y1 = (Some asset, y2) /\
    sy_world y2 = Some w' /\ oa_reader asset = Cached im r metrics inner store' /\
    let kept := winv im A (http_inv Inv Here v A) (tier_ok key A) in
    forall env patience start end_ offset dst size,
    (forall t x, kept x -> kept (env t x)) ->
    is_u64 offset -> is_u64 size -> zlen dst = size ->
    exists res out c', Cached_Read env patience im start end_ offset (Some dst) size
      (mkCsys store' d r 0 metrics) = (res, Some out, c') /\ length out = length dst /\
      forall result, res = Some result -> read_post A offset size dst result out.
Proof.
  intros id ef v key Hs Hid Hfix Hscope Ht Hn Hw Ho Hi Hor Hp Hu Hsz HA Hst Hnx Hheld Hkey Htier.
  assert (opener_Open id (ef_transport ef) (sy_world y) = (mkOpenResult (Some r) status, Some w')) as Hop by (rewrite Hw; exact Ho).
  destruct (Resolve_OpenAsset settings context assetPath scope y _ (Some w') store d Hid Hfix Hscope Ht Hn Hop)
    as (resolved & y1 & E1 & _ & Hrest).
  cbn [or_reader] in Hrest. destruct Hrest as (-> & _ & asset & y2 & E2 & Hw2 & _ & Hwrap). fold id ef in E1, E2, Hwrap.
  destruct (Http_Open_inv Inv Here A _ _ _ _ _ _ u Hor Hp Hu Hsz Hi Ho) as [_ Hra].
  pose proof Hwrap as Hwrap'. unfold WrapAsset, Wrap in Hwrap'.
  cbn [or_reader Metadata Http_AssetReader] in Hwrap'. rewrite Hra in Hwrap'. cbn [negb] in Hwrap'.
  destruct (Impl_new _ _ _ _ _) as [[[im metrics] inner] store'] eqn:Enew. apply Impl_new_identity in Enew as Ekey.
  change (b_identity (im_binding im) = key) in Ekey.
  exists y1, y2, asset, im, metrics, inner, store'. split_and!; try done.
  intros kept env patience start end_ offset dst size Hrely Hu1 Hu2 Hz.
  eapply (http_stack_reads nonce Inv Here A id (ef_transport ef) w w' r status u (ef_cache ef) store d); rewrite ?Ekey; try done.
  - by apply configured_cache_typed.
  - etrans; [symmetry; exact Hwrap|exact Hwrap'].
Qed.
End resolver_stack.
