(* ===== verification/Examples.v ===== *)
(** * Examples: the parameters of the theorems instantiated

    Concrete instances of the interfaces: a file that never changes, and one that
    is rewritten while it is read, behind the system calls of [LocalReader], an asset in memory behind [AssetReader], and a
    cached reader over that asset with the disk tier of [DiskStore] on
    [MemoryFs].  The witnesses of the theorems use them. *)

From S2P Require Import Prelude Diagnostics Validator RangeMath AssetReader Metrics CacheKey CacheOptions.
From S2P Require Import BlockPlan BlockCache PersistentTier CachedReader CachedReaderSpec.
From S2P Require Import Sha256 DiskFormat DiskStore MemoryFs PlatformFile LocalReader.

(** ** A file that never changes *)

Record StaticOs : Type := mkStaticOs {
  so_file : bytes;
  so_bound : (zlen so_file <? 2 ^ 64) = true }.

Definition static_stat (os : StaticOs) : stat := mkStat (zlen (so_file os)) 1 2 3 4 false.

#[export] Instance StaticOs_posix : Posix StaticOs := {
  sys_open os p := (inr 3, os);
  sys_fstat os fd := (inr (static_stat os), os);
  sys_pread os fd n off := (inr (slice (so_file os) off n), os);
  sys_close os fd := os;
  sys_clock os := 0;
  errno_code e := 0 }.

#[export] Instance StaticOs_laws : PosixLaws StaticOs.
Proof.
  refine {| px_le := eq; px_file := fun os fd => so_file os; px_stat := fun os fd => static_stat os |};
    cbn [sys_open sys_fstat sys_pread StaticOs_posix fst snd]; try done.
  - intros os fd. split; [done|]. intros info [= <-]. by exists os.
  - intros os fd n off Hn. split; [done|]. intros data [= <-]. split.
    + unfold slice, zlen. rewrite length_take. lia.
    + intros j b Hj. exists os. split_and!; [done..|]. revert Hj. unfold slice.
      rewrite lookup_take, lookup_drop. by case_decide.
  - intros t fd. split; [done|]. destruct t as [f Hf]. simpl. apply Z.ltb_lt in Hf.
    split; [apply zlen_nonneg|done].
Defined.

#[export] Instance StaticOs_platform : Platform StaticOs := Posix_platform 2.

#[export] Instance StaticOs_platform_laws : PlatformLaws StaticOs := Posix_laws 2.

(** ** A file that is rewritten

    The revisions of a file, each written after some read of the one before it;
    the modification time counts them. *)

Definition revisions_ok (files : list bytes) : bool :=
  forallb (fun f => zlen f <? 2 ^ 32) files && (zlen files <? 2 ^ 32).

Record EditedOs : Type := mkEditedOs {
  eo_files : list bytes;
  eo_now : nat;
  eo_ok : revisions_ok eo_files && (eo_now <? length eo_files)%nat = true }.

Definition eo_file (os : EditedOs) : bytes := default [] (eo_files os !! eo_now os).

Lemma eo_next_ok os :
  revisions_ok (eo_files os) && (Nat.min (S (eo_now os)) (pred (length (eo_files os))) <? length (eo_files os))%nat = true.
Proof.
  pose proof (eo_ok os) as [H1 H2]%andb_true_iff. apply andb_true_iff. split; [done|]. apply Nat.ltb_lt in H2. apply Nat.ltb_lt. lia.
Qed.

(** The next revision, if there is one. *)
Definition eo_edit (os : EditedOs) : EditedOs :=
  mkEditedOs (eo_files os) (Nat.min (S (eo_now os)) (pred (length (eo_files os)))) (eo_next_ok os).

Definition eo_le (a b : EditedOs) : Prop := eo_files a = eo_files b /\ (eo_now a <= eo_now b)%nat.

#[export] Instance eo_le_preorder : PreOrder eo_le.
Proof. split; [by intros []|]. intros a b c [E1 H1] [E2 H2]. split; [congruence|lia]. Qed.

Lemma eo_le_edit os : eo_le os (eo_edit os).
Proof. pose proof (eo_ok os) as [_ H%Nat.ltb_lt]%andb_true_iff. split; [done|]. unfold eo_edit. cbn [eo_now]. lia. Qed.

Lemma eo_bounds os : zlen (eo_file os) < 2 ^ 32 /\ Z.of_nat (eo_now os) < 2 ^ 32.
Proof.
  destruct os as [files now Hok]. unfold eo_file. cbn. apply andb_true_iff in Hok as [[Hf Hl]%andb_true_iff Hn].
  apply Nat.ltb_lt in Hn. apply Z.ltb_lt in Hl. split; [|unfold zlen in Hl; lia].
  destruct (lookup_lt_is_Some_2 files now Hn) as [f Ef]. rewrite Ef. cbn. rewrite forallb_forall in Hf.
  apply Z.ltb_lt, Hf, list_elem_of_In. by eapply list_elem_of_lookup_2.
Qed.

Lemma eo_unchanged t1 t2 t3 : eo_le t1 t2 -> eo_le t2 t3 -> eo_now t1 = eo_now t3 -> eo_file t2 = eo_file t1.
Proof.
  intros [E1 L1] [E2 L2] E. unfold eo_file. rewrite E1. assert (eo_now t2 = eo_now t1) as -> by lia. done.
Qed.

Lemma eo_slice os off n j b :
  slice (eo_file os) off n !! j = Some b -> eo_file os !! (Z.to_nat off + j)%nat = Some b.
Proof. unfold slice. rewrite lookup_take, lookup_drop. by case_decide. Qed.

Definition edited_stat (os : EditedOs) : stat := mkStat (zlen (eo_file os)) 1 2 0 (Z.of_nat (eo_now os)) false.

#[export] Instance EditedOs_posix : Posix EditedOs := {
  sys_open os p := (inr 3, os);
  sys_fstat os fd := (inr (edited_stat os), os);
  sys_pread os fd n off := (inr (slice (eo_file os) off n), eo_edit os);
  sys_close os fd := os;
  sys_clock os := 0;
  errno_code e := 0 }.

#[export] Instance EditedOs_laws : PosixLaws EditedOs.
Proof.
  refine {| px_le := eo_le; px_file := fun os fd => eo_file os; px_stat := fun os fd => edited_stat os |};
    cbn [sys_open sys_fstat sys_pread EditedOs_posix fst snd]; try done.
  - intros os fd. split; [done|]. intros info [= <-]. by exists os.
  - intros os fd n off Hn. split; [apply eo_le_edit|]. intros data [= <-]. split.
    + unfold slice, zlen. rewrite length_take. lia.
    + intros j b Hj%eo_slice. exists os. split_and!; [done|apply eo_le_edit|done].
  - intros t fd. destruct (eo_bounds t) as [Hb _]. split; [done|]. split; [apply zlen_nonneg|lia].
Defined.

(** Here the modification time tells the revisions apart. *)
Lemma EditedOs_tells interrupts : @identity_tells EditedOs _ (Posix_laws interrupts).
Proof.
  intros t1 t2 t3 fd L1 L2 E. apply (eo_unchanged t1 t2 t3 L1 L2).
  destruct (eo_bounds t1) as [_ B1], (eo_bounds t3) as [_ B3]. injection E as _ E.
  change (u64 (u64 (u64 0 * 1000000000))) with 0 in E. rewrite !(u64_small (Z.of_nat _)) in E by (unfold is_u64; lia).
  change (u64 (u64 0 * 1000000000)) with 0 in E. rewrite !Z.add_0_l, !u64_small in E by (unfold is_u64; lia). lia.
Qed.

Definition edited_information (os : EditedOs) : FileInformation :=
  mkFileInformation 0 (zlen (eo_file os)) 1 2 3 0 (Z.of_nat (eo_now os)).

#[export] Instance EditedWin_win32 : Win32 EditedOs := {
  win_MultiByteToWideChar os text := map code text;
  win_GetFileAttributesW os wide := (None, os);
  win_CreateFileW os wide := (inr 3, os);
  win_GetFileInformationByHandle os h := (inr (edited_information os), os);
  win_ReadFile os h n low high :=
    (if zlen (eo_file os) <=? high * 2 ^ 32 + low then inl ERROR_HANDLE_EOF
     else inr (slice (eo_file os) (high * 2 ^ 32 + low) n), eo_edit os);
  win_CloseHandle os h := os;
  win_clock os := 0 }.

#[export] Instance EditedWin_laws : Win32Laws EditedOs.
Proof.
  refine {| wn_le := eo_le; wn_file := fun os h => eo_file os; wn_info := fun os h => edited_information os |};
    cbn [win_CreateFileW win_GetFileInformationByHandle win_ReadFile EditedWin_win32 fst snd]; try done.
  - intros os h. split; [done|]. intros info [= <-]. by exists os.
  - intros os h n low high Hn Hl Hh. split; [apply eo_le_edit|]. intros data. destruct (_ <=? _); [done|]. intros [= <-]. split.
    + unfold slice, zlen. rewrite length_take. lia.
    + intros j b Hj%eo_slice. exists os. split_and!; [done|apply eo_le_edit|done].
  - intros t h. destruct (eo_bounds t) as [Hb _]. cbn. pose proof (zlen_nonneg (eo_file t)). split_and!; lia.
Defined.

Lemma EditedWin_tells : @identity_tells EditedOs _ Win32_laws.
Proof.
  intros t1 t2 t3 fd L1 L2 E. apply (eo_unchanged t1 t2 t3 L1 L2).
  destruct (eo_bounds t1) as [_ B1], (eo_bounds t3) as [_ B3]. injection E as _ E.
  rewrite !dwords_value in E by lia. lia.
Qed.

(** ** An asset in memory *)

Record MemReader : Type := mkMemReader { mr_metadata : AssetMetadata; mr_bytes : bytes }.

#[export] Instance MemReader_reader : AssetReader MemReader := {
  Metadata := mr_metadata;
  Read r offset dst size :=
    let range := ResolveReadRange offset size (zlen (mr_bytes r)) in
    match rr_outcome range, dst with
    | Overflow, _ => (mkReadResult 0 (OverflowStatus offset size), dst, r)
    | Empty, _ => (mkReadResult 0 Status_Ok, dst, r)
    | Transfer, None => (mkReadResult 0 (Status_Error InvalidArgument []), dst, r)
    | Transfer, Some d =>
        (mkReadResult (rr_length range) Status_Ok,
         Some (write_at d 0 (slice (mr_bytes r) offset (rr_length range))), r)
    end }.

Definition mem_inv (r0 r : MemReader) : Prop := r = r0.

Lemma MemReader_read r offset dst size :
  is_u64 (zlen (mr_bytes r)) -> is_u64 offset -> is_u64 size -> zlen dst = size ->
  exists res d, Read r offset (Some dst) size = (res, Some d, r) /\
    read_post (mr_bytes r) offset size dst res d /\
    (offset + size < 2 ^ 64 -> IsOk (rr_status res) = true).
Proof.
  intros Hu Ho Hs Hd. cbn [Read MemReader_reader].
  destruct (ResolveReadRange_cases offset size (zlen (mr_bytes r)) Ho Hs Hu) as [_ Hcase].
  unfold is_u64 in Ho, Hs.
  destruct Hcase as [(Hov & -> & _)|[(Hov & Ha & -> & _)|(Hov & Ha & -> & -> & Hin)]].
  - eexists _, dst. split; [done|]. split; [|lia]. apply read_post_fail; done || lia.
  - eexists _, dst. split; [done|]. split; [|done]. apply read_post_empty; lia.
  - set (n := available offset size (zlen (mr_bytes r))) in *.
    pose proof (available_range offset size (zlen (mr_bytes r)) ltac:(lia)) as Hn. fold n in Hn.
    assert (zlen (slice (mr_bytes r) offset n) = n) as Hl by (apply zlen_slice; lia).
    eexists _, _. split; [done|]. split; [|done]. split; cbn [rr_bytesRead rr_status]; [|lia|lia|].
    + apply length_write_at; lia.
    + intros _. split; [done|]. rewrite write_at_prefix.
      rewrite take_app_le by (unfold zlen in *; lia). apply take_ge. unfold zlen in *. lia.
Qed.

Lemma MemReader_contract r :
  am_size (mr_metadata r) = zlen (mr_bytes r) -> is_u64 (zlen (mr_bytes r)) ->
  ReaderContract MemReader (mem_inv r) (mr_bytes r).
Proof.
  intros Hs Hu. split; [by intros r' ->|done| |].
  - intros r' offset dst size ->. cbn [Read MemReader_reader]. by repeat case_match.
  - intros r' offset dst size r1 res dst' -> Ho Hz Hd E.
    destruct (MemReader_read r offset dst size) as (res0 & d & E0 & Hp & _); [done..|].
    rewrite E0 in E. injection E as <- <- <-. split; [done|]. by exists d.
Qed.

Lemma MemReader_never_fails r : is_u64 (zlen (mr_bytes r)) -> never_fails (mem_inv r).
Proof.
  intros Hu r' offset dst size -> Ho Hs Hd Hov.
  destruct (MemReader_read r offset dst size) as (res0 & d & -> & _ & Hok); [done..|]. by apply Hok.
Qed.

(** ** A deployed cached reader *)

Definition ex_bytes : bytes := lit "hello world".

Definition ex_validator : Validator := mkValidator (lit "v1") EntityTag Strong.

Definition ex_reader : MemReader :=
  mkMemReader (mkAssetMetadata (lit "http://host/a.usd") 11 true ex_validator Stable []) ex_bytes.

Definition ex_disk : DiskBlockStore MemFs :=
  DiskBlockStore_new (mkDiskCacheOptions (lit "/cache") 0) (mkMemFs ∅ 0).

#[export] Instance ex_tier : PersistentTier (DiskBlockStore MemFs) := Disk_tier 7.

Definition ex_new : Impl * ReaderMetrics * option ReaderMetrics * BlockCache.Store :=
  Impl_new ex_reader CacheOptions_default (BlockCache_new CacheOptions_default) ex_disk None.

Definition ex_im : Impl := fst (fst (fst ex_new)).

(** Another reader of the asset, which gives up on block 0 at every turn. *)
Definition ex_env (t : nat) (w : BlockCache.Store * DiskBlockStore MemFs * MemReader)
    : BlockCache.Store * DiskBlockStore MemFs * MemReader :=
  let '(st, d, r) := w in (Abandon (im_binding ex_im) 0 st, d, r).

Definition ex_csys : csys (R := MemReader) (D := DiskBlockStore MemFs) :=
  mkCsys (snd ex_new) ex_disk ex_reader 0 (snd (fst (fst ex_new))).

Definition ex_identity : AssetIdentity := mkAssetIdentity (lit "http://host/a.usd") (lit "v1") 65536.

Lemma ex_im_identity : b_identity (im_binding ex_im) = ex_identity.
Proof. by vm_compute. Qed.

Lemma ex_typed : key_typed ex_identity 0.
Proof. by vm_compute. Qed.

Lemma default_typed : options_typed CacheOptions_default.
Proof. by split; vm_compute. Qed.

Lemma ex_tier_ok : tier_ok ex_identity ex_bytes ex_disk.
Proof. 
  intros p raw Hp. change (mf_contents (mkMemFs ∅ 0) p = Some raw) in Hp.
  unfold mf_contents in Hp. cbn [mf_files] in Hp. by rewrite lookup_empty in Hp.
Qed.

#[export] Instance ex_reader_contract : ReaderContract MemReader (mem_inv ex_reader) ex_bytes.
Proof. by apply (MemReader_contract ex_reader). Qed.

#[export] Instance ex_tier_contract :
  TierContract (DiskBlockStore MemFs) (tier_ok ex_identity ex_bytes) (b_identity (im_binding ex_im)) ex_bytes.
Proof. rewrite ex_im_identity. by apply Disk_TierContract; [apply ex_typed|..]. Qed.

Lemma ex_deployed :
  deployed ex_env ex_im ex_bytes (mem_inv ex_reader) (tier_ok ex_identity ex_bytes) /\
  cwinv ex_im ex_bytes (mem_inv ex_reader) (tier_ok ex_identity ex_bytes) ex_csys.
Proof.
  assert (forall t w, winv ex_im ex_bytes (mem_inv ex_reader) (tier_ok ex_identity ex_bytes) w ->
    winv ex_im ex_bytes (mem_inv ex_reader) (tier_ok ex_identity ex_bytes) (ex_env t w)) as Hrely.
  { intros t [[st d] r] Hw. by apply abandon_winv. }
  assert (s_identities (BlockCache_new CacheOptions_default) !! b_identity (im_binding ex_im) = None) as Hfresh
    by by vm_compute.
  pose proof (Impl_new_ok ex_env ex_reader CacheOptions_default (BlockCache_new CacheOptions_default) ex_disk None
    ex_bytes (mem_inv ex_reader) (tier_ok ex_identity ex_bytes) default_typed) as H.
  specialize (H (proj1 (BlockCache_new_wf CacheOptions_default default_typed ltac:(by vm_compute)))).
  specialize (H ltac:(split; by vm_compute) eq_refl ex_tier_ok).
  unfold cwinv, ex_csys. cbn [c_store c_disk c_inner]. unfold ex_im in *. fold ex_new in H.
  destruct ex_new as [[[im m] im2] st']. cbn [fst snd] in *. apply H; [right; by apply store_holds_new|done].
Qed.

Lemma ex_not_stuck k tick w :
  winv ex_im ex_bytes (mem_inv ex_reader) (tier_ok ex_identity ex_bytes) w ->
  in_asset (co_blockSize (im_options ex_im)) (zlen ex_bytes) k ->
  stuck ex_env ex_im 1 k tick w -> False.
Proof.
  intros Hw [Hk1 Hk2] Hs. change (k * 65536 < 11) in Hk2. assert (k = 0) as -> by lia.
  destruct w as [[st d] r]. destruct Hw as (Hst & Hb & _). cbn [stuck ex_env] in Hs.
  destruct (Abandon_spec (im_binding ex_im) 0 st Hst) as (Hst' & _ & Hrel).
  pose proof (Await_spec (im_binding ex_im) 0 (Abandon (im_binding ex_im) 0 st) Hst') as Ha.
  destruct (Await (im_binding ex_im) 0 (Abandon (im_binding ex_im) 0 st)) as [res st'].
  destruct Hs as [-> _]. destruct Ha as (_ & _ & Ha & _).
  specialize (Hrel (key_of (im_binding ex_im) 0)). destruct (visible (Abandon _ _ _) _) as [[x|]|]; [done| |done].
  destruct (decide (_ /\ _)) as [|Hn] in Hrel; [done|]. by apply Hn.
Qed.
