(* ===== verification/HttpExamples.v ===== *)
(** * HttpExamples: origins to instantiate the theorems of the HTTP backend with

    [MemOrigin] serves an asset from memory, redirects the first metadata
    request, records what it was sent, and may replace the asset by another of
    the same length after some requests; [HopOrigin] redirects every range
    request and cuts every transfer short. *)

From S2P Require Import Prelude Diagnostics Validator RangeMath AssetReader Metrics Uri Framing Destination HttpReader HttpReaderSpec.

(** ** An asset in memory behind a server *)

(** [mo_until] is how many requests the asset still lives for, if it is ever
    replaced. *)
Record MemOrigin : Type := mkMemOrigin {
  mo_bytes : bytes;
  mo_until : option nat;
  mo_log : list TransportRequest }.

Definition moved_url : str := lit "http://user:pw@origin.test/old".

(** The inverse of [FormatByteRange]. *)
Definition parse_byte_range (r : str) : option (Z * Z) :=
  if negb (starts_with (lit "bytes=") r) then None
  else let r := drop 6 r in
       match find "-" r with
       | None => None
       | Some i => match ParseUnsigned (take i r), ParseUnsigned (drop (S i) r) with
                   | Some a, Some b => Some (a, b)
                   | _, _ => None
                   end
       end.

Definition whole_headers (a : bytes) : HeaderTable :=
  [(lit "Content-Length", to_string (zlen a)); (lit "accept-ranges", lit "none, bytes"); (lit "ETag", lit " v1")].

Definition mem_answer (rq : TransportRequest) (a : bytes) : TransportResponse :=
  match rq_method rq with
  | MethodHead =>
      if str_eqb (rq_url rq) moved_url
      then mkResponse 302 [(lit "Location", lit "./x/../asset")] [] false NoError true None
      else mkResponse 200 (whole_headers a) [] false NoError true None
  | MethodGet =>
      match parse_byte_range (rq_range rq) with
      | Some (first, last) =>
          if (first <=? last) && (last <? zlen a) then
            mkResponse 206
              [(lit "Content-Range", print_range (mkContentRange false first last true (zlen a)));
               (lit "ETag", lit "v1")]
              (slice a first (Z.min (Z.max 0 (rq_bodyCapacity rq)) (last - first + 1)))
              (rq_bodyCapacity rq <? last - first + 1) NoError true None
          else mkResponse 416 [(lit "Content-Range", print_range (mkContentRange true 0 0 true (zlen a)))] [] false NoError true None
      | None => mkResponse 200 (whole_headers a) [] (0 <? zlen a) NoError true None
      end
  end.

(** The answers once the asset is replaced: [If-Range] with the old tag gets the
    whole new one, and a range request without it a part of the new one. *)
Definition new_answer (rq : TransportRequest) (a : bytes) : TransportResponse :=
  let whole := mkResponse 200
    [(lit "Content-Length", to_string (zlen a)); (lit "accept-ranges", lit "bytes"); (lit "ETag", lit "v2")]
    [] (0 <? zlen a) NoError true None in
  if bool_decide (rq_method rq = MethodHead) then whole
  else if bool_decide (rq_ifRange rq = lit "v1") then whole
  else mem_answer rq (rev a).

Definition mo_answer (rq : TransportRequest) (w : MemOrigin) : TransportResponse :=
  match mo_until w with
  | Some 0%nat => new_answer rq (mo_bytes w)
  | _ => mem_answer rq (mo_bytes w)
  end.

#[export] Instance MemOrigin_world : HttpWorld MemOrigin := {
  Perform rq w := (mo_answer rq w, mkMemOrigin (mo_bytes w) (Nat.pred <$> mo_until w) (mo_log w ++ [rq]));
  CallInterceptor view w := (Some (true, [mkRequestHeader (lit "Authorization") (lit "Bearer t")]), w);
  steady_clock w := 0 }.

Definition v1 : Validator := mkValidator (lit "v1") EntityTag Strong.

(** The server started with [a], and keeps it when [stays]. *)
Definition mem_origin_inv (a : bytes) (stays : bool) (w : MemOrigin) : Prop :=
  mo_bytes w = a /\ (stays = true -> mo_until w = None).

Lemma mem_range_wf (a : bytes) first last : is_u64 (zlen a) -> 0 <= first -> (first <=? last) && (last <? zlen a) = true ->
  range_wf (mkContentRange false first last true (zlen a)).
Proof.
  rewrite andb_true_iff, Z.leb_le, Z.ltb_lt. unfold is_u64. intros Ha Hf Hl. split; simpl; try done; try lia.
Qed.

Lemma mem_range_header (a : bytes) first last :
  Find (lit "Content-Range")
    [(lit "Content-Range", print_range (mkContentRange false first last true (zlen a))); (lit "ETag", lit "v1")] =
  Some (print_range (mkContentRange false first last true (zlen a))).
Proof. reflexivity. Qed.

Lemma parse_byte_range_u64 r a b : parse_byte_range r = Some (a, b) -> is_u64 a /\ is_u64 b.
Proof.
  unfold parse_byte_range. destruct (negb _); [done|]. destruct (find _ _); [|done].
  destruct (ParseUnsigned _) as [x|] eqn:E1; [|done]. destruct (ParseUnsigned (drop _ _)) as [y|] eqn:E2; [|done].
  intros [= <- <-]. split; by eapply ParseUnsigned_u64.
Qed.

Lemma parse_FormatByteRange a n :
  0 <= a -> 0 < n -> a + n <= 2 ^ 64 -> parse_byte_range (FormatByteRange a n) = Some (a, a + n - 1).
Proof.
  intros Ha Hn Hle. unfold FormatByteRange. rewrite u64_small by (unfold is_u64; lia). unfold parse_byte_range.
  rewrite starts_with_app. cbn [negb]. change (drop 6 (lit "bytes=" ++ ?x)) with x.
  change (lit "-" ++ ?x) with ("-"%char :: x). rewrite find_app by (apply to_string_no_char; [lia|done]).
  rewrite take_app_length, drop_app_ge by lia.
  replace (S (length (to_string a)) - length (to_string a))%nat with 1%nat by lia.
  change (drop 1 (?c :: ?x)) with x. by rewrite !ParseUnsigned_to_string by (unfold is_u64; lia).
Qed.

(** Where the server publishes: it answers alike at every URL of its host. *)
Definition at_origin (u : Uri) : Prop := u_host u = lit "origin.test".

Lemma at_origin_redirect u target : at_origin u -> ResolveReference u (lit "./x/../asset") = inr target -> at_origin target.
Proof.
  intros Hu. unfold ResolveReference.
  change (StripFragment (lit "./x/../asset")) with (lit "./x/../asset"). generalize (rfind slash (u_path u)). intros o.
  intros E. vm_compute in E. injection E as <-. exact Hu.
Qed.

Lemma mem_answer_fits rq a : 0 <= rq_bodyCapacity rq -> zlen (rs_body (mem_answer rq a)) <= rq_bodyCapacity rq.
Proof.
  intros Hc. unfold mem_answer. destruct (rq_method rq); [|by destruct (str_eqb _ _)].
  destruct (parse_byte_range _) as [[f l]|]; [|done]. destruct (_ && _); [|done]. cbn [rs_body].
  unfold zlen, slice. rewrite length_take. lia.
Qed.

Lemma mem_answer_partial rq a c :
  is_u64 (zlen a) -> rq_method rq = MethodGet ->
  let r := mem_answer rq a in
  rs_status r = 206 -> Find (lit "Content-Range") (rs_headers r) ≫= ParseContentRange = Some c ->
  rs_bodyOverflowed r = false -> rs_body r = slice a (cr_first c) (zlen (rs_body r)).
Proof.
  intros Ha Hm. unfold mem_answer. rewrite Hm.
  destruct (parse_byte_range _) as [[f l]|] eqn:Ep; [|done]. destruct (_ && _) eqn:Ev; [|done].
  cbn [rs_status rs_headers rs_body rs_bodyOverflowed]. intros _. rewrite mem_range_header. cbn [mbind option_bind].
  destruct (parse_byte_range_u64 _ _ _ Ep) as [Hf _]. unfold is_u64 in Hf.
  rewrite ParseContentRange_print by (apply mem_range_wf; done || lia).
  intros [= <-] Hov. cbn [cr_first]. apply Z.ltb_ge in Hov.
  rewrite andb_true_iff, Z.leb_le, Z.ltb_lt in Ev. by rewrite zlen_slice by lia.
Qed.

Lemma mem_answer_location rq a location :
  IsRedirect (rs_status (mem_answer rq a)) = true ->
  Find (lit "Location") (rs_headers (mem_answer rq a)) = Some location -> location = lit "./x/../asset".
Proof.
  unfold mem_answer. destruct (rq_method rq).
  - destruct (parse_byte_range _) as [[f l]|]; [destruct (_ && _)|]; done.
  - destruct (str_eqb _ _); [|done]. intros _ E. vm_compute in E. injection E as <-. reflexivity.
Qed.

#[export] Instance MemOrigin_origin (a : bytes) stays : is_u64 (zlen a) -> Origin MemOrigin (mem_origin_inv a stays) at_origin v1 a.
Proof.
  intros Ha. split; try done.
  - intros rq w [<- Hs]. split; [done|]. intros E%Hs. cbn. by rewrite E.
  - intros rq w _ Hc. cbn [Perform MemOrigin_world fst]. unfold mo_answer. destruct (mo_until w) as [[|n]|];
      [|by apply mem_answer_fits..]. unfold new_answer. case_bool_decide; [done|].
    case_bool_decide; [done|]. by apply mem_answer_fits.
  - intros rq w u location target _ Hu _. cbn [Perform MemOrigin_world fst]. intros Hr Hl Ht.
    assert (location = lit "./x/../asset") as ->; [|by eapply at_origin_redirect].
    revert Hr Hl. unfold mo_answer. destruct (mo_until w) as [[|n]|]; [|by apply mem_answer_location..].
    unfold new_answer. case_bool_decide; [done|]. case_bool_decide; [done|]. apply mem_answer_location.
  - intros rq w u c [<- _] _ _ Hm Hif. cbn [Perform MemOrigin_world fst]. unfold mo_answer.
    destruct (mo_until w) as [[|n]|]; [|intros; by eapply mem_answer_partial..].
    unfold new_answer. rewrite Hm, Hif. rewrite bool_decide_eq_false_2 by done. by rewrite bool_decide_eq_true_2.
Qed.

Lemma MemOrigin_serves (a : bytes) u : is_u64 (zlen a) -> serves (mem_origin_inv a true) u v1 a.
Proof.
  intros Ha rq w at_ n [Hw Hs] _ Hm Hr _ Hc Hat Hn Hle. subst a. unfold is_u64 in Ha. cbn [Perform MemOrigin_world fst].
  unfold mo_answer. rewrite (Hs eq_refl). unfold mem_answer.
  rewrite Hm, Hr, parse_FormatByteRange by lia.
  assert ((at_ <=? at_ + n - 1) && (at_ + n - 1 <? zlen (mo_bytes w)) = true) as Ev
    by (rewrite andb_true_iff, Z.leb_le, Z.ltb_lt; lia).
  rewrite Ev. cbn [rs_status rs_error rs_bodyOverflowed rs_headers rs_body]. rewrite Hc.
  replace (at_ + n - 1 - at_ + 1) with n by lia. rewrite Z.ltb_irrefl. replace (Z.min (Z.max 0 n) n) with n by lia.
  rewrite mem_range_header. cbn [mbind option_bind].
  rewrite ParseContentRange_print by (apply mem_range_wf; done || lia). done.
Qed.

(** ** A deployment of it *)

Definition http_bytes : bytes := lit "hello http".

Definition http_options : HttpOptions :=
  mkHttpOptions 1000 1000 1000 2 3 DestinationPolicy_default [] true.

Definition http_world : MemOrigin := mkMemOrigin http_bytes None [].

Definition http_opened := Http_Open (lit "http://user:pw@origin.test:80/a/../old#top") http_options (Some http_world).

(** A reader without an interceptor. *)
Definition plain_options : HttpOptions := HttpOptions_new.

Definition origin_uri : Uri := mkUri (lit "http") [] (lit "origin.test") 0 (lit "/asset") [] false.

Definition plain_reader : HttpAssetReader (W := MemOrigin) :=
  Http_new http_world plain_options origin_uri origin_uri
    (mkAssetMetadata (lit "http://origin.test/asset") (zlen http_bytes) true v1 Stable []) (lit "v1").

(** The same reader on the server when the asset is about to be replaced. *)
Definition stale_reader : HttpAssetReader (W := MemOrigin) :=
  Http_new (mkMemOrigin http_bytes (Some 1%nat) []) plain_options origin_uri origin_uri
    (mkAssetMetadata (lit "http://origin.test/asset") (zlen http_bytes) true v1 Stable []) (lit "v1").

(** Its first read is answered from the asset; the next one is told of the new
    one, and fails. *)
Example stale_read_run :
  let '(first, d1, r) := Http_Read stale_reader 6 (Some (replicate 4 zero)) 4 in
  let '(second, d2, _) := Http_Read r 0 (Some (replicate 4 zero)) 4 in
  IsOk (rr_status first) = true /\ d1 = Some (lit "http") /\
  st_code (rr_status second) = AssetChanged /\ rr_bytesRead second = 0.
Proof. by vm_compute. Qed.

(** The open follows the redirect, keeps the credentials out of the identifier,
    and asks the interceptor at both hops. *)
Example http_open_run :
  match http_opened with
  | (mkOpenResult (Some r) status, Some w) =>
      IsOk status = true /\ am_resolvedIdentifier (hr_metadata r) = lit "http://origin.test/asset" /\
      am_size (hr_metadata r) = 10 /\ am_validator (hr_metadata r) = v1 /\
      map rq_url (mo_log w) = [lit "http://user:pw@origin.test/old"; lit "http://user:pw@origin.test/asset"] /\
      map (fun rq => map rh_name (rq_headers rq)) (mo_log w) = [[lit "Authorization"]; [lit "Authorization"]]
  | _ => False
  end.
Proof. by vm_compute. Qed.

(** ** An origin that makes a read expensive *)

Record HopOrigin : Type := mkHopOrigin { ho_log : list TransportRequest }.

Definition hop_answer (rq : TransportRequest) : TransportResponse :=
  if str_eqb (rq_url rq) (lit "http://origin.test/asset")
  then mkResponse 307 [(lit "Location", lit "/mirror")] [] false NoError true None
  else match parse_byte_range (rq_range rq) with
       | Some (first, last) =>
           mkResponse 206 [(lit "Content-Range", print_range (mkContentRange false first last true 10))]
             (take 1 (lit "x")) false IncompleteBody true None
       | None => mkResponse 404 [] [] false NoError true None
       end.

#[export] Instance HopOrigin_world : HttpWorld HopOrigin := {
  Perform rq w := (hop_answer rq, mkHopOrigin (ho_log w ++ [rq]));
  CallInterceptor view w := (None, w);
  steady_clock w := 0 }.

Definition hop_reader : HttpAssetReader (W := HopOrigin) :=
  Http_new (mkHopOrigin []) (mkHttpOptions 1 1 1 1 3 DestinationPolicy_default [] false) origin_uri origin_uri
    (mkAssetMetadata (lit "http://origin.test/asset") 10 true Validator_none Unavailable []) [].

(** The redirect budget is one of every exchange: a read with one redirect and
    three attempts allowed sends six requests, and not four. *)
Example hop_read_run :
  let '(res, _, r) := Http_Read hop_reader 0 (Some (replicate 10 zero)) 10 in
  rr_bytesRead res = 3 /\ st_code (rr_status res) = InvalidResponse /\ length (ho_log (hr_world r)) = 6%nat.
Proof. by vm_compute. Qed.
