(* ===== verification/CurlExamples.v ===== *)
(** * CurlExamples: a client library to instantiate the transport's theorems with

    [MemCurl] is a library in front of the server of [HttpExamples]: it resolves
    every name to the instance-metadata address and to a public one, offers both,
    sends an interim response first, and treats its callbacks as documented. *)

From S2P Require Import Prelude Diagnostics Validator AssetReader Metrics Uri Framing Destination HttpReader HttpReaderSpec.
From S2P Require Import CurlTransport CurlTransportSpec HttpExamples.

Record MemCurl : Type := mkMemCurl {
  mk_live : list Z }.

Definition crlf : str := ["013"; "010"]%char.

(** The lines of a header block, then the rest. *)
Fixpoint send (lines : list str) (status : Z) (c : MemCurl) (rest : CurlRun MemCurl) : CurlRun MemCurl :=
  match lines with
  | [] => rest
  | line :: lines' =>
      HeaderData (line ++ crlf) (fun n =>
        if n =? zlen (line ++ crlf) then send lines' status c rest else Done CURLE_WRITE_ERROR status 1 c)
  end.

Definition send_body (data : bytes) (status : Z) (c : MemCurl) : CurlRun MemCurl :=
  BodyData data (fun n =>
    if n =? zlen data then
      Progress (Some 3000) (Some 1000) (fun n =>
        if n =? 0 then Done CURLE_OK status 1 c else Done CURLE_ABORTED_BY_CALLBACK status 1 c)
    else Done CURLE_WRITE_ERROR status 1 c).

Definition socket_address (a b c d : Z) : SocketAddress :=
  mkSocketAddress AF_INET 16 [2; 0; 0; 80; a; b; c; d; 0; 0; 0; 0; 0; 0; 0; 0].

(** The request the options describe. *)
Definition range_of (headers : list str) : str :=
  match filter (fun line => starts_with (lit "Range: ") line = true) headers with
  | line :: _ => drop 7 line
  | [] => []
  end.

Definition request_of (o : EasyOptions) : TransportRequest :=
  mkRequest (eo_url o) (if eo_nobody o then MethodHead else MethodGet) (range_of (eo_httpHeader o)) [] [] []
    (mkTimeouts 0 0 0) DestinationPolicy_default (zlen http_bytes).

Definition header_text (h : str * str) : str := fst h ++ lit ": " ++ snd h.

Definition response_lines (r : TransportResponse) : list str :=
  [lit "HTTP/1.1 100 Continue"; []; lit "HTTP/1.1 " ++ to_string (rs_status r)] ++
  map header_text (rs_headers r) ++ [[]].

Definition mem_perform (o : EasyOptions) (c : MemCurl) : CurlRun MemCurl :=
  let r := mem_answer (request_of o) http_bytes in
  OpenSocket CURLSOCKTYPE_IPCXN (Some (socket_address 169 254 169 254)) (fun _ =>
  OpenSocket CURLSOCKTYPE_IPCXN (Some (socket_address 93 184 216 34)) (fun answer =>
    match answer with
    | None => Done CURLE_COULDNT_CONNECT 0 0 c
    | Some _ => send (response_lines r) (rs_status r) c (send_body (rs_body r) (rs_status r) c)
    end)).

#[export] Instance MemCurl_lib : LibCurl MemCurl := {
  libcurl_version := 0x080700;
  curl_url c := true;
  curl_url_set url c := true;
  curl_url_host url punycode c :=
    match ParseUri url with inl _ => None | inr u => Some (u_host u) end;
  curl_slist_append headers line c := true;
  curl_easy_init c := let h := 1 + foldr Z.max 0 (mk_live c) in (Some h, mkMemCurl (h :: mk_live c));
  curl_easy_reset h c := c;
  curl_easy_cleanup h c := mkMemCurl (filter (fun g => g <> h) (mk_live c));
  curl_easy_perform h o c := mem_perform o c }.

#[export] Instance MemCurl_host : CurlHost MemCurl := {
  host_intercept view c := (Some (true, []), c);
  host_clock c := 0 }.

(** ** Its laws *)

Lemma max_fresh l : 1 + foldr Z.max 0 l ∉ l.
Proof.
  assert (forall g, g ∈ l -> g <= foldr Z.max 0 l) as Hm.
  { induction l as [|x l IH]; intros g; [by intros ?%not_elem_of_nil|]. cbn.
    intros [-> |Hg]%elem_of_cons; [lia|]. specialize (IH g Hg). lia. }
  intros Hin. specialize (Hm _ Hin). lia.
Qed.

#[export] Instance MemCurl_handles : HandleLaws MemCurl.
Proof.
  refine {| live c h := h ∈ mk_live c |}.
  - intros c h c' [= <- <-]. split; [apply max_fresh|]. intros g. apply elem_of_cons.
  - done.
  - done.
  - intros h c g. cbn. rewrite list_elem_of_filter. tauto.
Defined.

Lemma send_honours conn lines status c rest :
  conn = ConnAdmitted -> honours conn rest -> honours conn (send lines status c rest).
Proof.
  intros -> Hr. induction lines as [|line lines IH]; [done|]. cbn [send]. constructor; [done| |].
  - by rewrite Z.eqb_refl.
  - intros n Hn _. apply Z.eqb_neq in Hn. rewrite Hn. constructor.
Qed.

#[export] Instance MemCurl_laws : LibCurlLaws MemCurl.
Proof.
  split. intros handle options c. cbn. constructor; [done|]. intros first. constructor; [by destruct first|].
  intros [a|]; [|by constructor]. cbn [conn_after]. apply send_honours; [done|]. constructor; [done| | |].
  - pose proof (mem_answer_fits (request_of options) http_bytes ltac:(by cbn)) as Hb. cbn [request_of rq_bodyCapacity] in Hb.
    change (zlen http_bytes) with 10 in Hb. unfold CURL_WRITEFUNC_PAUSE. lia.
  - rewrite Z.eqb_refl. constructor; [by constructor|]. intros n Hn. apply Z.eqb_neq in Hn. rewrite Hn. constructor.
  - intros n Hn _. apply Z.eqb_neq in Hn. rewrite Hn. constructor.
Qed.

(** ** Its wire *)

Lemma send_trace lines status c rest e :
  exchange_ok e -> existsb header_cut (trace (send lines status c rest) e) = false ->
  exists e', exchange_ok e' /\ existsb header_cut (trace rest e') = false /\
    trace (send lines status c rest) e = map (fun line => EvHeader (line ++ crlf) (zlen (line ++ crlf))) lines ++ trace rest e' /\
    run (send lines status c rest) e = run rest e'.
Proof.
  revert e. induction lines as [|line lines IH]; intros e Hok; cbn [send run trace map app]; [by exists e|].
  destruct (OnHeader (line ++ crlf) e) as [n e1] eqn:E. cbn [existsb header_cut].
  intros [Hn Hc]%orb_false_iff. apply negb_false_iff, Z.eqb_eq in Hn as ->. rewrite Z.eqb_refl in *.
  destruct (IH e1 (OnHeader_ok _ _ _ _ Hok E) Hc) as (e' & ? & ? & -> & ->). by exists e'.
Qed.

Definition is_break (c : ascii) : bool := char_eqb c "013" || char_eqb c "010".

Lemma strip_line line : (forall c, last line = Some c -> is_break c = false) -> strip_breaks (line ++ crlf) = line.
Proof.
  intros Hl. unfold strip_breaks. rewrite rev_app_distr. change (drop_breaks (rev crlf ++ rev line)) with (drop_breaks (rev line)).
  destruct line as [|c line _] using rev_ind; [done|]. rewrite rev_app_distr. cbn [rev app drop_breaks].
  specialize (Hl c (last_snoc _ _)). unfold is_break in Hl. rewrite Hl. cbn. by rewrite rev_involutive.
Qed.

Lemma lines_taken_app a b : lines_taken (a ++ b) = lines_taken a ++ lines_taken b.
Proof. apply omap_app. Qed.

Lemma lines_taken_sent lines :
  Forall (fun line => forall c, last line = Some c -> is_break c = false) lines ->
  lines_taken (map (fun line => EvHeader (line ++ crlf) (zlen (line ++ crlf))) lines) = lines.
Proof.
  induction 1 as [|line lines Hl Hls IH]; [done|]. cbn [map]. rewrite lines_taken_cons, IH.
  unfold lines_taken. cbn [omap list_omap]. by rewrite Z.eqb_refl, strip_line.
Qed.

Lemma delivered_app a b : delivered (a ++ b) = delivered a ++ delivered b.
Proof. unfold delivered. by rewrite map_app, concat_app. Qed.

Lemma delivered_sent lines : delivered (map (fun line => EvHeader (line ++ crlf) (zlen (line ++ crlf))) lines) = [].
Proof. induction lines as [|line lines IH]; [done|]. cbn [map]. by rewrite delivered_cons, IH. Qed.

Lemma send_body_trace data status c e :
  delivered (trace (send_body data status c) e) = data /\ lines_taken (trace (send_body data status c) e) = [] /\
  oc_status (run (send_body data status c) e) = status.
Proof.
  unfold send_body. cbn [trace run]. destruct (OnBody data e) as [n e1]. rewrite delivered_cons, lines_taken_cons.
  assert (delivered [EvBody data n] = data) as -> by apply app_nil_r.
  destruct (n =? zlen data); cbn [trace run]; [|by rewrite app_nil_r].
  destruct (OnProgressWithClock (Some 3000) (Some 1000) e1) as [m e2]. rewrite delivered_cons, lines_taken_cons.
  destruct (m =? 0); cbn [trace run]; by rewrite !app_nil_r.
Qed.

(** The two offers of [mem_perform]. *)
Lemma mem_perform_trace o c e :
  exchange_ok e ->
  let r := mem_answer (request_of o) http_bytes in
  oc_status (run (mem_perform o c) e) = 0 \/
  exists e', exchange_ok e' /\
    let rest := send (response_lines r) (rs_status r) c (send_body (rs_body r) (rs_status r) c) in
    lines_taken (trace (mem_perform o c) e) = lines_taken (trace rest e') /\
    delivered (trace (mem_perform o c) e) = delivered (trace rest e') /\
    existsb header_cut (trace (mem_perform o c) e) = existsb header_cut (trace rest e') /\
    run (mem_perform o c) e = run rest e'.
Proof.
  intros Hok r. unfold mem_perform. fold r. cbn [trace run].
  destruct (OnOpenSocket _ (Some (socket_address 169 254 169 254)) e) as [a1 e1] eqn:E1. cbn [trace run].
  destruct (OnOpenSocket _ (Some (socket_address 93 184 216 34)) e1) as [[a2|] e2] eqn:E2; [right|by left].
  exists e2. split; [by eauto using OnOpenSocket_ok|]. done.
Qed.

Lemma last_literal (pre : str) c : is_break c = false -> forall d, last (pre ++ [c]) = Some d -> is_break d = false.
Proof. intros Hc d. rewrite last_snoc. by intros [= <-]. Qed.

(** The block of a partial response. *)
Lemma partial_lines first last_ :
  let r := mkResponse 206 [(lit "Content-Range", print_range (mkContentRange false first last_ true (zlen http_bytes)));
                           (lit "ETag", lit "v1")] [] false NoError true None in
  Forall (fun line => forall c, last line = Some c -> is_break c = false) (response_lines r) /\
  table [] (response_lines r) = rs_headers r.
Proof.
  intros r. split.
  - unfold response_lines. cbn [rs_headers rs_status r map app]. repeat constructor; intros c; try by intros [= <-].
    assert (header_text (lit "Content-Range", print_range (mkContentRange false first last_ true (zlen http_bytes))) =
      (lit "Content-Range: bytes " ++ print_spec (mkContentRange false first last_ true (zlen http_bytes)) ++ lit "/1") ++ lit "0") as ->.
    { unfold header_text, print_range. cbn [fst snd]. by rewrite <-!app_assoc. }
    by apply last_literal.
  - change (response_lines r) with
      ([lit "HTTP/1.1 100 Continue"; []] ++ lit "HTTP/1.1 206" :: (map header_text (rs_headers r) ++ [[]])).
    rewrite table_block; [|done|]. 2:{ repeat constructor; done. } reflexivity.
Qed.

(** A transfer whose header block was taken in full is the server's response. *)
Lemma mem_perform_response o c e :
  exchange_ok e -> let tr := trace (mem_perform o c) e in let r := mem_answer (request_of o) http_bytes in
  i32 (oc_status (run (mem_perform o c) e)) <> 0 -> existsb header_cut tr = false ->
  Forall (fun line => forall c, last line = Some c -> is_break c = false) (response_lines r) ->
  lines_taken tr = response_lines r /\ delivered tr = rs_body r /\ oc_status (run (mem_perform o c) e) = rs_status r.
Proof.
  intros Hok tr r. unfold tr. clear tr.
  destruct (mem_perform_trace o c e Hok) as [-> |(e' & Hok' & -> & -> & -> & ->)]; [done|]. fold r. intros _ Hcut Hl.
  destruct (send_trace _ _ _ _ _ Hok' Hcut) as (e2 & _ & _ & -> & ->).
  destruct (send_body_trace (rs_body r) (rs_status r) c e2) as (B1 & B2 & ->).
  by rewrite lines_taken_app, delivered_app, delivered_sent, B1, B2, app_nil_r, lines_taken_sent.
Qed.

(** The lines of any response of the server. *)
Lemma mem_status o :
  let r := mem_answer (request_of o) http_bytes in
  (eo_nobody o = false /\ exists first last_, parse_byte_range (range_of (eo_httpHeader o)) = Some (first, last_) /\
     (first <=? last_) && (last_ <? zlen http_bytes) = true /\
     r = mkResponse 206 [(lit "Content-Range", print_range (mkContentRange false first last_ true (zlen http_bytes))); (lit "ETag", lit "v1")]
           (slice http_bytes first (Z.min (Z.max 0 (zlen http_bytes)) (last_ - first + 1))) (zlen http_bytes <? last_ - first + 1)
           NoError true None) \/
  (r = mkResponse 302 [(lit "Location", lit "./x/../asset")] [] false NoError true None) \/
  (rs_status r = 200 \/ rs_status r = 416) /\
    Forall (fun line => forall c, last line = Some c -> is_break c = false) (response_lines r).
Proof.
  unfold mem_answer, request_of. cbn [rq_method rq_url rq_range rq_bodyCapacity]. cbv zeta.
  destruct (eo_nobody o).
  - destruct (str_eqb _ _); [by right; left|]. right. right. split; [by left|]. repeat constructor; intros c; by intros [= <-].
  - destruct (parse_byte_range _) as [[first last_]|]; [destruct (_ && _) eqn:Ev|].
    + left. split; [done|]. by exists first, last_.
    + right. right. split; [by right|]. repeat constructor; intros c; by intros [= <-].
    + right. right. split; [by left|]. repeat constructor; intros c; by intros [= <-].
Qed.

#[export] Instance MemCurl_wire : WireOrigin MemCurl (fun _ => True) at_origin v1 http_bytes.
Proof.
  split; try done.
  - intros handle o c e u location target _ Hok Hu _. cbv zeta. change (curl_easy_perform handle o c) with (mem_perform o c). intros Hs Hcut Hf Ht.
    assert (i32 (oc_status (run (mem_perform o c) e)) <> 0) as Hs0 by (intros E; by rewrite E in Hs).
    pose proof (mem_perform_response o c e Hok Hs0 Hcut) as Hr. cbv zeta in Hr.
    assert (location = lit "./x/../asset") as ->; [|by eapply at_origin_redirect].
    destruct (mem_status o) as [(_ & first & last_ & _ & _ & E)|[E|[E Hl]]].
    + destruct (partial_lines first last_) as [Hl _]. rewrite E in Hr. destruct (Hr Hl) as (_ & _ & Est). by rewrite Est in Hs.
    + rewrite E in Hr. destruct Hr as (Hlines & _ & _); [repeat constructor; intros c0; by intros [= <-]|].
      rewrite Hlines in Hf. vm_compute in Hf. injection Hf as <-. reflexivity.
    + destruct (Hr Hl) as (_ & _ & Est). rewrite Est in Hs. by destruct E as [E|E]; rewrite E in Hs.
  - intros handle o c e u cr _ Hok _ _ Hn _. cbv zeta. change (curl_easy_perform handle o c) with (mem_perform o c). intros Hs Hcut _.
    assert (i32 (oc_status (run (mem_perform o c) e)) <> 0) as Hs0 by by rewrite Hs.
    pose proof (mem_perform_response o c e Hok Hs0 Hcut) as Hr. cbv zeta in Hr.
    destruct (mem_status o) as [(_ & first & last_ & Ep & Ev & E)|[E|[E Hl]]].
    + destruct (partial_lines first last_) as [Hl Htab]. rewrite E in Hr. destruct (Hr Hl) as (-> & -> & _).
      destruct (parse_byte_range_u64 _ _ _ Ep) as [Hf _]. unfold is_u64 in Hf.
      cbn zeta in Htab. unfold response_lines in *. cbn [rs_status rs_headers rs_body] in *. rewrite Htab.
      rewrite mem_range_header. cbn [mbind option_bind].
      rewrite ParseContentRange_print by (apply mem_range_wf; done || lia). intros [= <-] _ _. cbn [cr_first].
      rewrite andb_true_iff, Z.leb_le, Z.ltb_lt in Ev. by rewrite zlen_slice by (change (zlen http_bytes) with 10 in *; lia).
    + rewrite E in Hr. destruct Hr as (_ & _ & Est); [repeat constructor; intros c0; by intros [= <-]|]. by rewrite Est in Hs.
    + destruct (Hr Hl) as (_ & _ & Est). rewrite Est in Hs. by destruct E as [E|E]; rewrite E in Hs.
Qed.
