(* ===== verification/Witnesses.v ===== *)
(** * Witnesses: the hypotheses of the theorems hold on concrete inputs *)

From S2P Require Import Prelude Diagnostics Validator RangeMath AssetReader Metrics CacheKey CacheOptions.
From S2P Require Import BlockPlan BlockCache SingleFlight PersistentTier CachedReader CachedReaderSpec.
From S2P Require Import Sha256 DiskFormat DiskStore MemoryFs PlatformFile LocalReader Stack Examples.
From Stdlib Require Import Relations.

(** ** The cached reader *)

Lemma Cached_Read_contract_witness :
  let '(res, dst', c') := Cached_Read ex_env 1 ex_im 0 0 6 (Some (replicate 9 zero)) 9 ex_csys in
  cwinv ex_im ex_bytes (mem_inv ex_reader) (tier_ok ex_identity ex_bytes) c' /\
  exists d, dst' = Some d /\ length d = 9%nat /\
    forall r, res = Some r -> read_post ex_bytes 6 9 (replicate 9 zero) r d.
Proof.
  destruct ex_deployed as [Hd Hw].
  exact (Cached_Read_contract ex_env 1 ex_im ex_bytes (mem_inv ex_reader) (tier_ok ex_identity ex_bytes)
    0 0 6 (replicate 9 zero) 9 ex_csys Hd Hw ltac:(done) ltac:(done) ltac:(done)).
Defined.

Lemma Cached_Read_total_witness :
  exists r d c', Cached_Read ex_env 1 ex_im 0 0 6 (Some (replicate 9 zero)) 9 ex_csys = (Some r, Some d, c') /\
    IsOk (rr_status r) = true /\ rr_bytesRead r = 5 /\ take 5 d = lit "world".
Proof.
  destruct ex_deployed as [Hd Hw].
  destruct (Cached_Read_total ex_env 1 ex_im ex_bytes (mem_inv ex_reader) (tier_ok ex_identity ex_bytes)
    0 0 6 (replicate 9 zero) 9 ex_csys Hd Hw ltac:(done) ltac:(done) ltac:(done) ltac:(done)
    (MemReader_never_fails ex_reader ltac:(done)) ex_not_stuck) as (r & d & c' & E & Hok & Hn & Ht).
  exists r, d, c'. change (available 6 9 (zlen ex_bytes)) with 5 in Hn. rewrite Hn in Ht. split; [exact E|]. split; [exact Hok|]. split; [exact Hn|exact Ht].
Defined.

Lemma ReadCached_obligations_witness :
  obligations (y_log (snd (ReadCached ex_env 1 ex_im (mkReadRange Transfer 6 5) (replicate 5 zero) ex_csys))) = Some [].
Proof.
  destruct ex_deployed as [Hd Hw].
  exact (ReadCached_obligations ex_env 1 ex_im ex_bytes (mem_inv ex_reader) (tier_ok ex_identity ex_bytes)
    6 5 (replicate 5 zero) ex_csys Hd Hw ltac:(done) ltac:(done) ltac:(done) ltac:(done)).
Defined.

(** ** The stack *)

Definition ex_os : StaticOs := mkStaticOs ex_bytes eq_refl.

Definition ex_local : option (LocalAssetReader (OS := StaticOs)) :=
  or_reader (fst (Local_Open (lit "/a.usd") None ex_os)).

Lemma stack_read_witness :
  exists r im metrics inner st', ex_local = Some r /\
  @WrapAsset (LocalAssetReader (OS := StaticOs)) (DiskBlockStore MemFs) Local_AssetReader (Disk_tier 7)
    (mkOpenResult (Some r) Status_Ok) None CacheOptions_default
    (BlockCache_new CacheOptions_default) ex_disk = Cached im r metrics inner st' /\
  exists t A, os_le ex_os t /\ A = ex_bytes /\
  (tier_ok (b_identity (im_binding im)) A ex_disk ->
   forall start end_ offset dst size, is_u64 offset -> is_u64 size -> zlen dst = size ->
   exists res out c', @Cached_Read _ _ Local_AssetReader (Disk_tier 7) (fun _ w => w) 0 im start end_ offset (Some dst) size
     (mkCsys st' ex_disk r 0 metrics) = (res, Some out, c') /\ length out = length dst /\
     forall result, res = Some result -> read_post A offset size dst result out).
Proof.
  eexists _, _, _, _, _. split; [reflexivity|]. split; [reflexivity|].
  edestruct (stack_read (OS := StaticOs) (F := MemFs) 7 (lit "/a.usd") ex_os) as (t & A & T1 & T2 & EA & Hread).
  - intros os fd. by eexists.
  - by intros t1 t2 t3 fd -> ->.
  - reflexivity.
  - apply default_typed.
  - apply (proj1 (BlockCache_new_wf CacheOptions_default default_typed ltac:(by vm_compute))).
  - split; by vm_compute.
  - reflexivity.
  - by vm_compute.
  - by vm_compute.
  - exists t, A. split; [exact T1|]. split; [by rewrite EA, <-T1|]. intros Hd start end_ offset dst size H1 H2 H3.
    apply (Hread Hd (fun _ w => w) 0%nat start end_ offset dst size); done.
Defined.

(** ** The shared store *)

Definition ex_bind1 := Bind (BlockCache_new CacheOptions_default) (lit "http://host/a.usd") ex_validator 65536.
Definition ex_bind2 := Bind (snd ex_bind1) (lit "http://host/a.usd") ex_validator 65536.
Definition ex_b1 : Binding := fst ex_bind1.
Definition ex_b2 : Binding := fst ex_bind2.
Definition ex_acquired := Acquire ex_b1 0 (snd ex_bind2).

Definition ex_world : world :=
  mkWorld (snd ex_acquired) [ex_b2; ex_b1] (take_on 1 (key_of ex_b1 0) (fst ex_acquired) []).

Lemma ex_reachable : reachable CacheOptions_default ex_world.
Proof.
  eapply Relation_Operators.rt1n_trans.
  { apply (step_bind _ _ _ (lit "http://host/a.usd") ex_validator 65536 ex_b1 (snd ex_bind1)); [split; by vm_compute|].
    apply surjective_pairing. }
  eapply Relation_Operators.rt1n_trans.
  { apply (step_bind _ _ _ (lit "http://host/a.usd") ex_validator 65536 ex_b2 (snd ex_bind2)); [split; by vm_compute|].
    apply surjective_pairing. }
  eapply Relation_Operators.rt1n_trans; [|apply rt1n_refl].
  apply (step_acquire _ _ _ 1 ex_b1 0 (fst ex_acquired) (snd ex_acquired)); [set_solver|].
  apply surjective_pairing.
Qed.

Lemma default_budget : co_budgetBytes CacheOptions_default + kMaxBlockSize < 2 ^ 64.
Proof. by vm_compute. Qed.

Lemma single_flight_witness :
  (forall k, visible (w_store ex_world) k = Some None <-> exists t, (t, k) ∈ w_owned ex_world) /\
  (forall t1 t2 k, (t1, k) ∈ w_owned ex_world -> (t2, k) ∈ w_owned ex_world -> t1 = t2) /\
  (forall b i st', b ∈ w_bindings ex_world -> Acquire b i (w_store ex_world) = (Owned, st') ->
     forall t, (t, key_of b i) ∉ w_owned ex_world).
Proof. exact (single_flight CacheOptions_default ex_world default_typed default_budget ex_reachable). Defined.

Definition ex_opened : Reader := mkReader (lit "http://host/a.usd") ex_validator 65536.

Lemma ex_tracked : tracked CacheOptions_default ex_world [ex_opened; ex_opened].
Proof.
  eapply tracked_step; [|apply (step_acquire (snd ex_bind2) _ _ 1 ex_b1 0 (fst ex_acquired) (snd ex_acquired)); [|apply surjective_pairing]|done].
  - apply (tracked_bind _ (snd ex_bind1) _ _ _ _ _ _ _ (snd ex_bind2)); [|split; by vm_compute|apply surjective_pairing].
    apply (tracked_bind _ (BlockCache_new CacheOptions_default) _ _ _ _ _ _ _ (snd ex_bind1)); [apply tracked_start|split; by vm_compute|apply surjective_pairing].
  - set_solver.
Qed.

(** A third reader, of a weak tag with the same text, and a fourth like it. *)
Definition ex_weak : Validator := mkValidator (lit "v1") EntityTag Weak.

Definition ex_bind3 := Bind (snd ex_acquired) (lit "http://host/a.usd") ex_weak 65536.

Definition ex_bind4 := Bind (snd ex_bind3) (lit "http://host/a.usd") ex_weak 65536.

Definition ex_world4 : world :=
  mkWorld (snd ex_bind4) (fst ex_bind4 :: fst ex_bind3 :: w_bindings ex_world) (w_owned ex_world).

Definition ex_opened_weak : Reader := mkReader (lit "http://host/a.usd") ex_weak 65536.

Lemma ex_tracked4 : tracked CacheOptions_default ex_world4 [ex_opened_weak; ex_opened_weak; ex_opened; ex_opened].
Proof.
  apply (tracked_bind _ (snd ex_bind3) _ _ _ _ _ _ _ (snd ex_bind4)); [|split; by vm_compute|apply surjective_pairing].
  apply (tracked_bind _ (snd ex_acquired) _ _ _ _ _ _ _ (snd ex_bind3)); [apply ex_tracked|split; by vm_compute|apply surjective_pairing].
Qed.

(** The readers of the strong tag share; those of the weak one do not. *)
Lemma binding_isolation_witness :
  b_identityId ex_b2 = b_identityId ex_b1 /\ b_identityId (fst ex_bind4) <> b_identityId (fst ex_bind3).
Proof.
  split.
  - apply (binding_isolation CacheOptions_default ex_world4 _ 2 3 ex_b2 ex_b1 ex_opened ex_opened default_typed default_budget ex_tracked4 eq_refl eq_refl eq_refl eq_refl ltac:(discriminate)).
    split_and!; reflexivity.
  - intros H. apply (binding_isolation CacheOptions_default ex_world4 _ 0 1 (fst ex_bind4) (fst ex_bind3) ex_opened_weak ex_opened_weak
      default_typed default_budget ex_tracked4 eq_refl eq_refl eq_refl eq_refl ltac:(discriminate)) in H. destruct H as [H _]. discriminate H.
Defined.

Lemma store_refinement_witness :
  store_wf (w_store ex_world) /\ binding_wf (w_store ex_world) ex_b1 /\
  publish_rel (visible (w_store ex_world)) (key_of ex_b1 0) (lit "abc")
    (fst (Publish ex_b1 0 (lit "abc") (w_store ex_world)))
    (visible (snd (Publish ex_b1 0 (lit "abc") (w_store ex_world)))).
Proof.
  pose proof (reachable_ok _ _ default_typed default_budget ex_reachable) as [Hw Hb _ _ _ _].
  assert (binding_wf (w_store ex_world) ex_b1) as Hb1 by (apply (bo_wf _ _ Hb); set_solver).
  split; [done|]. split; [done|].
  pose proof (store_refinement (w_store ex_world) ex_b1 0 (lit "abc") Hw Hb1 ltac:(by vm_compute)) as (_ & _ & H & _).
  destruct (Publish ex_b1 0 (lit "abc") (w_store ex_world)) as [e st']. apply H.
Defined.

Lemma reachable_budget_witness :
  exists sh, s_shards (w_store ex_world) !! 0%nat = Some sh /\
  s_shardBudget (w_store ex_world) = 2097152 /\
  (sh_residentBytes sh <= s_shardBudget (w_store ex_world) \/
   (length (sh_lru sh) <= 1)%nat /\ sh_residentBytes sh <= kMaxBlockSize).
Proof.
  destruct (s_shards (w_store ex_world) !! 0%nat) as [sh|] eqn:E.
  - exists sh. split; [done|]. split; [by vm_compute|].
    apply (reachable_budget CacheOptions_default ex_world 0 sh default_typed default_budget ex_reachable E).
  - exfalso. apply lookup_ge_None in E. vm_compute in E. lia.
Defined.

(** ** Plans, ranges and options *)

Lemma PlanRuns_spec_witness :
  exists groups, concat groups = [0; 1; 4] /\
    PlanRuns [0; 1; 4] 4096 20000 1 16384 = map (run_of 4096 20000) groups /\
    Forall (group_ok 4096 20000 1 16384) groups /\ Sorted (cannot_merge 4096 20000 1 16384) groups.
Proof.
  apply (PlanRuns_spec 4096 20000 1 16384 [0; 1; 4]); [done|done|done|]. split.
  - repeat constructor.
  - repeat constructor; by vm_compute.
Defined.

Lemma CoveringBlocks_exact_witness :
  let span := CoveringBlocks 4000 5000 4096 in
  (bs_first span <= 1 <= bs_last span <->
   exists b, 4000 <= b < 4000 + 5000 /\ 1 * 4096 <= b < (1 + 1) * 4096) /\
  zsum (overlap 4096 20000 4000 5000) (seqZ (bs_first span) (Count span)) = 5000.
Proof. apply (CoveringBlocks_exact 4096 20000 4000 5000 1); done. Defined.

Lemma Normalized_spec_witness :
  normal_options (Normalized (mkCacheOptions 5000 0 9 0 0)) /\
  IsNormalized (Normalized (mkCacheOptions 5000 0 9 0 0)) = true /\
  (normal_options (mkCacheOptions 5000 0 9 0 0) <-> IsNormalized (mkCacheOptions 5000 0 9 0 0) = true).
Proof. apply (Normalized_spec (mkCacheOptions 5000 0 9 0 0)). by split; vm_compute. Defined.

Lemma ResolveReadRange_spec_witness :
  let r := ResolveReadRange 90 20 100 in
  (rr_outcome r = Overflow <-> 2 ^ 64 <= 90 + 20) /\
  (rr_outcome r = Empty <-> 90 + 20 < 2 ^ 64 /\ (20 = 0 \/ 100 <= 90)) /\
  (rr_outcome r <> Overflow -> rr_length r = available 90 20 100) /\
  0 <= rr_length r <= 20 /\ (0 < rr_length r -> 90 + rr_length r <= 100) /\
  (rr_length r < 20 -> rr_outcome r = Transfer -> 90 + rr_length r = 100).
Proof. apply (ResolveReadRange_spec 90 20 100); done. Defined.

Lemma ElideSecrets_url_witness :
  ElideSecrets (lit "https://user:pw@host/a?sig=1") = lit "https://<elided>@host/a?<elided>".
Proof.
  apply (ElideSecrets_url (lit "https") (lit "user:pw") (lit "host") (lit "/a?sig=1")).
  - by vm_compute.
  - by apply (bool_decide_unpack _); vm_compute.
  - by apply (bool_decide_unpack _); vm_compute.
  - by apply (bool_decide_unpack _); vm_compute.
  - by vm_compute.
Defined.

Lemma Snapshot_quantiles_witness :
  let s := Histogram_Snapshot (record_all [3; 100; 5]) in
  su_count s = 3 /\ su_max s = 100 /\
  good_quantile [3; 100; 5] 50 (su_p50 s) /\ good_quantile [3; 100; 5] 90 (su_p90 s) /\
  good_quantile [3; 100; 5] 99 (su_p99 s).
Proof.
  apply (Snapshot_quantiles [3; 100; 5]); [split; [repeat constructor; by vm_compute|done]|done|].
  repeat constructor.
Defined.

Lemma Histogram_Fold_samples_witness :
  Histogram_Fold (record_all [7; 0]) (record_all [3]) = record_all [3; 7; 0].
Proof.
  apply (Histogram_Fold_samples [3] [7; 0]); [split; [repeat constructor; by vm_compute|done]..|done].
Defined.

(** ** The persistent tier *)

Definition ex_other : AssetIdentity := mkAssetIdentity (lit "http://host/b.usd") (lit "v1") 65536.

Lemma ex_other_typed : key_typed ex_other 0.
Proof. by vm_compute. Qed.

Lemma KeyImage_injective_witness : ex_identity = ex_identity /\ 0 = 0.
Proof. apply (KeyImage_injective ex_identity 0 ex_identity 0); [apply ex_typed..|done]. Defined.

Lemma DecodeEntry_exact_witness :
  DecodeEntry (EncodeEntry ex_identity (DigestOf ex_identity 0) 0 ex_bytes) ex_identity
    (DigestOf ex_identity 0) 0 11 = (DecodeOk, Some ex_bytes).
Proof.
  apply (DecodeEntry_exact _ ex_identity 0 11 ex_bytes ex_typed).
  split; [done|]. split; [done|]. exists (le_bytes 4 0). split; [done|]. apply EncodeEntry_with.
Defined.

Lemma DecodeEntry_roundtrip_witness :
  let raw := EncodeEntry ex_identity (DigestOf ex_identity 0) 0 ex_bytes in
  DecodeEntry raw ex_identity (DigestOf ex_identity 0) 0 11 = (DecodeOk, Some ex_bytes) /\
  (DecodeEntry raw ex_other (DigestOf ex_other 0) 0 11 = (OtherKey, None) \/
   KeyImage ex_identity 0 <> KeyImage ex_other 0 /\
   sha256 (KeyImage ex_identity 0) = sha256 (KeyImage ex_other 0)).
Proof.
  split.
  - apply (DecodeEntry_roundtrip ex_identity 0 ex_bytes ex_identity 0 11 ex_typed ex_typed); done.
  - apply (DecodeEntry_roundtrip ex_identity 0 ex_bytes ex_other 0 11 ex_typed ex_other_typed); [done|by left].
Defined.

Lemma DecodeEntry_damage_witness :
  fst (DecodeEntry (take 90 (EncodeEntry ex_identity (DigestOf ex_identity 0) 0 ex_bytes))
         ex_identity (DigestOf ex_identity 0) 0 11) = Corrupt.
Proof.
  refine (proj1 (proj2 (DecodeEntry_damage ex_identity 0 ex_bytes
    (EncodeEntry ex_identity (DigestOf ex_identity 0) 0 ex_bytes) ex_typed _ eq_refl
    ex_identity (DigestOf ex_identity 0) 0 11)) 90%nat _); [done|].
  apply Nat2Z.inj_lt. fold (zlen (EncodeEntry ex_identity (DigestOf ex_identity 0) 0 ex_bytes)).
  rewrite (zlen_EncodeEntry ex_identity 0 ex_bytes ex_typed); done.
Defined.

Lemma Disk_tier_contract_witness :
  @TierContract (DiskBlockStore MemFs) (Disk_tier 7) (tier_ok ex_identity ex_bytes) ex_identity ex_bytes.
Proof. apply (Disk_tier_contract (F := MemFs) 7 ex_identity ex_bytes); [apply ex_typed|done|done]. Defined.

Lemma Disk_store_shared_witness :
  tier_ok ex_identity ex_bytes (snd (Disk_Store 7 ex_disk ex_other 0 true (lit "other"))).
Proof.
  apply (Disk_store_shared (F := MemFs) 7 ex_identity ex_bytes ex_disk ex_typed); [done|done|apply ex_tier_ok|
    apply ex_other_typed|done|].
  intros i [Hi1 Hi2] E. change (i * 65536 < 11) in Hi2. assert (i = 0) as -> by lia.
  exfalso. revert E. by vm_compute.
Defined.

Definition ex_swept : DiskBlockStore MemFs :=
  snd (Disk_Store 7 ex_disk ex_identity 0 true ex_bytes).

Lemma Disk_Store_Load_witness :
  exists d', Disk_Store 7 ex_swept ex_identity 0 true ex_bytes = (true, d') /\
  (fst (Disk_Load d' ex_identity 0 11) = Some ex_bytes \/
   ReadWholeFile (db_fs d') (PathFor ex_swept (NameFor (DigestOf ex_identity 0))) = None).
Proof.
  exists (snd (Disk_Store 7 ex_swept ex_identity 0 true ex_bytes)).
  assert (Disk_Store 7 ex_swept ex_identity 0 true ex_bytes =
    (true, snd (Disk_Store 7 ex_swept ex_identity 0 true ex_bytes))) as E.
  { assert (fst (Disk_Store 7 ex_swept ex_identity 0 true ex_bytes) = true) as Hf by by vm_compute.
    rewrite <-Hf. apply surjective_pairing. }
  split; [exact E|].
  refine (proj1 (proj2 (Disk_Store_Load (F := MemFs) 7 ex_swept ex_identity 0 ex_bytes _ ex_typed E _))).
  by vm_compute.
Defined.

Definition ex_root : path := [lit "/cache"; kEntryRoot].

Definition ex_old : path := ex_root ++ [lit "aa"; lit "old.blk"].
Definition ex_new_file : path := ex_root ++ [lit "bb"; lit "new.blk"].

Definition ex_full : DiskBlockStore MemFs :=
  mkDisk (mkMemFs (<[ex_old := (lit "12345678", 1)]> (<[ex_new_file := (lit "123456", 2)]> ∅)) 3)
    (mkDiskCacheOptions (lit "/cache") 10) ex_root true true 0 0 0 0 false 0 (fun _ => 0).

Definition ex_candidates : list Candidate :=
  (sweep_walk (default [] (fs_walk (db_fs ex_full) ex_root)) (db_fs ex_full) [] 0).1.2.

Lemma ex_listing : listing (db_fs ex_full) ex_candidates.
Proof.
  split.
  - by apply (bool_decide_unpack _); vm_compute.
  - intros c Hc. assert (Forall (fun c => is_Some (mf_contents (db_fs ex_full) (c_path c))) ex_candidates) as HF
      by (by apply (bool_decide_unpack _); vm_compute).
    rewrite Forall_forall in HF. destruct (HF c Hc) as [x Hx].
    change (mf_contents (db_fs ex_full) (c_path c) <> None). by rewrite Hx.
  - intros c Hc. assert (Forall (fun c => 0 <= c_size c) ex_candidates) as HF
      by (by apply (bool_decide_unpack _); vm_compute).
    rewrite Forall_forall in HF. by apply HF.
  - by vm_compute.
Qed.

Lemma RunSweep_trims_witness :
  exists deleted kept, ex_candidates ≡ₚ deleted ++ kept /\
    (forall a b, a ∈ deleted -> b ∈ kept -> c_written a <= c_written b) /\
    total_size kept <= 9 /\ db_knownBytes (RunSweep (mkSweepPlan ex_root 10 0) ex_full) = total_size kept.
Proof.
  destruct (RunSweep_trims (F := MemFs) ex_full (default [] (fs_walk (db_fs ex_full) ex_root)) (db_fs ex_full)
    ex_candidates 14 (mkSweepPlan ex_root 10 0) MemFs_removable) as
    (deleted & kept & H1 & H2 & _ & _ & H5 & _ & H7 & _).
  - reflexivity.
  - vm_compute. reflexivity.
  - vm_compute. reflexivity.
  - apply ex_listing.
  - vm_compute. reflexivity.
  - done.
  - done.
  - exists deleted, kept. split; [exact H1|]. split; [exact H2|]. split; [exact H5|exact H7].
Defined.

(** ** The local backend *)

(** The contract over a file that is rewritten, with its modification time, by
    every read. *)
Lemma Local_reader_contract_witness :
  @ReaderContract (LocalAssetReader (OS := EditedOs)) (@Local_AssetReader EditedOs (Posix_platform 2))
    (@local_inv EditedOs _ (Posix_laws 2) ex_bytes) ex_bytes /\
  @ReaderContract (LocalAssetReader (OS := EditedOs)) (@Local_AssetReader EditedOs Win32_platform)
    (@local_inv EditedOs _ Win32_laws ex_bytes) ex_bytes.
Proof.
  destruct (Local_reader_contract (PX := EditedOs) (WN := EditedOs) 2 ex_bytes ltac:(done)) as [Hp Hw].
  split; [apply Hp|apply Hw]; try (intros os fd; by eexists); [apply EditedOs_tells|apply EditedWin_tells].
Defined.

(** A file that is rewritten once, at the same length, after the first read: that
    read is found out by the check that follows it, and so are all others. *)
Definition edited_os : EditedOs := mkEditedOs [ex_bytes; rev ex_bytes] 0 eq_refl.

Example edited_run :
  match fst (@Local_Open EditedOs (Posix_platform 2) (lit "/a.usd") None edited_os) with
  | mkOpenResult (Some r) _ =>
      let '(first, _, r) := @Local_Read EditedOs (Posix_platform 2) r 0 (Some (replicate 5 zero)) 5 in
      let '(second, _, _) := @Local_Read EditedOs (Posix_platform 2) r 0 (Some (replicate 5 zero)) 5 in
      st_code (rr_status first) = AssetChanged /\ st_code (rr_status second) = AssetChanged
  | _ => False
  end.
Proof. by vm_compute. Qed.

Lemma Local_Open_binds_witness :
  match fst (Local_Open (lit "/a.usd") None ex_os) with
  | mkOpenResult (Some r) st => st = Status_Ok /\
      (exists t, os_le ex_os t /\ os_le t (lr_os r) /\ local_inv (file_at t (lr_handle r)) r) /\
      am_resolvedIdentifier (lr_metadata r) = lit "/a.usd" /\
      am_supportsRandomAccess (lr_metadata r) = true /\
      am_stability (lr_metadata r) = Stable /\ v_kind (am_validator (lr_metadata r)) = Derived
  | mkOpenResult None st => IsOk st = false
  end.
Proof. exact (Local_Open_binds (OS := StaticOs) (lit "/a.usd") ex_os). Defined.

Lemma FormatIdentity_injective_witness :
  mkFileIdentity 1 2 3 4 = mkFileIdentity 1 2 3 4.
Proof. apply (FormatIdentity_injective (mkFileIdentity 1 2 3 4) (mkFileIdentity 1 2 3 4)); done. Defined.
