(* ===== verification/HttpWitnesses.v ===== *)
(** * HttpWitnesses: the hypotheses of the HTTP theorems hold on concrete inputs *)

From S2P Require Import Prelude Diagnostics Validator RangeMath AssetReader Metrics CacheKey CacheOptions.
From S2P Require Import BlockPlan BlockCache PersistentTier CachedReader CachedReaderSpec.
From S2P Require Import Sha256 DiskFormat DiskStore MemoryFs Uri Framing Destination HttpReader HttpReaderSpec.
From S2P Require Import HttpStack Examples HttpExamples.

(** ** URIs *)

Definition signed_text : str := lit "HTTPS://me@Host.Example:443/a/./b/../c%20d?x=/../y#frag".

Definition signed_uri : Uri :=
  mkUri (lit "https") (lit "me") (lit "host.example") 443 (lit "/a/c%20d") (lit "x=/../y") true.

Lemma ParseUri_roundtrip_witness :
  ParseUri (ToString signed_uri) = inr (canonical signed_uri) /\
  ParseUri (ToIdentity signed_uri) = inr (canonical (without_userinfo signed_uri)) /\
  ToString (canonical signed_uri) = ToString signed_uri.
Proof. exact (ParseUri_roundtrip signed_text signed_uri ltac:(vm_compute; reflexivity)). Defined.

Lemma signed_wf : uri_wf signed_uri.
Proof. apply (ParseUri_wf signed_text). by vm_compute. Qed.

Lemma ResolveReference_rfc_witness :
  ResolveReference signed_uri (lit "../../z/./w:1?q") =
    inr (mkUri (lit "https") (lit "me") (lit "host.example") 443 (lit "/z/w:1") (lit "q") true) /\
  uri_wf (rfc_transform signed_uri (lit "../../z/./w:1") (Some (lit "q"))).
Proof.
  apply (ResolveReference_rfc signed_uri (lit "../../z/./w:1") (Some (lit "q"))); [apply signed_wf|..].
  - intros i E. vm_compute in E. injection E as <-. exists 2%nat. split; [by vm_compute|lia].
  - done.
  - by apply (bool_decide_unpack _).
  - by apply (bool_decide_unpack _).
  - intros s [= <-]. by apply (bool_decide_unpack _).
  - done.
Defined.

(** ** Destinations *)

Lemma numeral_ok part v :
  (0 <? length part)%nat && (length part <=? 4)%nat && forallb (fun c => 0 <=? HexValue c) part &&
  (v =? fold_left (fun acc c => acc * 16 + HexValue c) part 0) = true -> hex_numeral part v.
Proof.
  rewrite !andb_true_iff, Nat.ltb_lt, Nat.leb_le, Z.eqb_eq, forallb_forall. intros [[[H1 H2] H3] H4].
  split; [lia|]. split; [|done]. apply Forall_forall. intros c Hc. apply Z.leb_le, H3. by apply list_elem_of_In.
Qed.

(** The mapped form of 169.254.169.254 with hexadecimal groups, shortened and in
    full. *)
Lemma mapped_short : ipv6_text (embedded Mapped 169 254 169 254) (lit "::FFFF:a9fe:A9FE").
Proof.
  apply (it_gap [] [0xffff; 0xa9fe; 0xa9fe] [] (lit "FFFF:a9fe:A9FE")); [by left| |cbn; lia]. right.
  apply (gt_cons true (lit "FFFF") 0xffff [0xa9fe; 0xa9fe] (lit "a9fe:A9FE")); [by apply numeral_ok|].
  apply (gt_cons true (lit "a9fe") 0xa9fe [0xa9fe] (lit "A9FE")); [by apply numeral_ok|]. constructor. by apply numeral_ok.
Qed.

Lemma mapped_full : ipv6_text (embedded Mapped 169 254 169 254) (lit "0:00:000:0000:0:ffff:169.254.169.254").
Proof.
  apply it_full; [|done].
  apply (gt_cons true (lit "0") 0 [0; 0; 0; 0; 0xffff; 0xa9fe; 0xa9fe] (lit "00:000:0000:0:ffff:169.254.169.254")); [by apply numeral_ok|].
  apply (gt_cons true (lit "00") 0 [0; 0; 0; 0xffff; 0xa9fe; 0xa9fe] (lit "000:0000:0:ffff:169.254.169.254")); [by apply numeral_ok|].
  apply (gt_cons true (lit "000") 0 [0; 0; 0xffff; 0xa9fe; 0xa9fe] (lit "0000:0:ffff:169.254.169.254")); [by apply numeral_ok|].
  apply (gt_cons true (lit "0000") 0 [0; 0xffff; 0xa9fe; 0xa9fe] (lit "0:ffff:169.254.169.254")); [by apply numeral_ok|].
  apply (gt_cons true (lit "0") 0 [0xffff; 0xa9fe; 0xa9fe] (lit "ffff:169.254.169.254")); [by apply numeral_ok|].
  apply (gt_cons true (lit "ffff") 0xffff [0xa9fe; 0xa9fe] (lit "169.254.169.254")); [by apply numeral_ok|].
  apply (gt_quad true 169 254 169 254); unfold is_byte; (done || lia).
Qed.

Lemma ClassifyHostLiteral_ipv4_witness :
  ClassifyHostLiteral (lit "169.254.169.254.") = Some Metadata_ /\
  ClassifyHostLiteral (lit "[::FFFF:a9fe:A9FE%25eth0]") = Some Metadata_ /\
  ClassifyHostLiteral (lit "[0:00:000:0000:0:ffff:169.254.169.254]") = Some Metadata_.
Proof.
  destruct ClassifyHostLiteral_ipv4 as [H1 H2]. split; [|split].
  - apply H1; [reflexivity|]. exists 169, 254, 169, 254. unfold is_byte. split_and!; try lia; [right; reflexivity|reflexivity].
  - apply (H2 Mapped 169 254 169 254 (lit "::FFFF:a9fe:A9FE") (lit "%25eth0")); [unfold is_byte; lia..|apply mapped_short|right; by eexists].
  - apply (H2 Mapped 169 254 169 254 (lit "0:00:000:0000:0:ffff:169.254.169.254") []); [unfold is_byte; lia..|apply mapped_full|left; reflexivity].
Defined.

(** What is not a literal. *)
Example numeric_names :
  Forall (fun host => ClassifyHostLiteral host = None)
    [lit "127.1"; lit "0x7f.0.0.1"; lit "2130706433"; lit "017700000001"; lit "127.0.0.01"; lit "localhost"].
Proof. repeat constructor. Qed.

Lemma ClassifyIPv4_blocks_witness :
  ClassifyIPv4 [172; 31; 255; 255] = first_block ipv4_blocks (ipv4_value [172; 31; 255; 255]).
Proof. apply (ClassifyIPv4_blocks 172 31 255 255); unfold is_byte; lia. Defined.

(** ** Requests *)

Lemma origin_uri_wf : uri_wf origin_uri.
Proof. apply (ParseUri_wf (lit "http://origin.test/asset")). by vm_compute. Qed.

Definition exchange_run :=
  PerformExchange http_options origin_uri MethodHead [] [] 0 origin_uri
    (mkX http_world PendingSink_new 2 []).

Lemma PerformExchange_requests_witness :
  exists n, evolves (request_ok http_options origin_uri MethodHead [] [] 0 origin_uri) n http_world
      (x_world (snd exchange_run)) /\ (n + x_retries (snd exchange_run) <= 5)%nat /\
    uri_wf (xr_finalUri (fst exchange_run)) /\
    (IsSecure origin_uri = true -> IsSecure (xr_finalUri (fst exchange_run)) = true).
Proof.
  exact (PerformExchange_requests http_options origin_uri MethodHead [] [] 0 origin_uri
    (mkX http_world PendingSink_new 2 []) (fst exchange_run) (snd exchange_run) origin_uri_wf eq_refl).
Defined.

Lemma triple_eta {A B C} (t : A * B * C) : t = (fst (fst t), snd (fst t), snd t).
Proof. by destruct t as [[]]. Qed.

Abbreviation hop_run := (Http_Read hop_reader 0 (Some (replicate 10 zero)) 10).

Lemma Http_Read_requests_witness :
  exists n, evolves (read_request_ok 0 10 hop_reader) n (mkHopOrigin []) (hr_world (snd hop_run)) /\ Z.of_nat n <= 6.
Proof.
  exact (Http_Read_requests hop_reader 0 (Some (replicate 10 zero)) 10 (fst (fst hop_run)) (snd (fst hop_run))
    (snd hop_run) origin_uri_wf ltac:(done) ltac:(done) ltac:(done) (triple_eta hop_run)).
Defined.

(** ** Reads *)

#[export] Instance http_bytes_origin stays : Origin MemOrigin (mem_origin_inv http_bytes stays) at_origin v1 http_bytes.
Proof. by apply MemOrigin_origin. Qed.

(** The server replaces the asset after the first request. *)
Abbreviation stale_run := (Http_Read stale_reader 6 (Some (replicate 9 zero)) 9).

Lemma Http_reader_contract_witness :
  http_inv (mem_origin_inv http_bytes false) at_origin v1 http_bytes (snd stale_run) /\
  hr_metadata (snd stale_run) = hr_metadata stale_reader /\
  exists d, snd (fst stale_run) = Some d /\ read_post http_bytes 6 9 (replicate 9 zero) (fst (fst stale_run)) d.
Proof.
  exact (Http_reader_contract (mem_origin_inv http_bytes false) at_origin v1 http_bytes stale_reader 6 (replicate 9 zero) 9
    (fst (fst stale_run)) (snd (fst stale_run)) (snd stale_run) ltac:(done) ltac:(by split_and!) ltac:(done) ltac:(done)
    ltac:(done) (triple_eta stale_run)).
Defined.

(** A reader whose requests the interceptor signs. *)
Definition signed_reader : HttpAssetReader (W := MemOrigin) :=
  Http_new http_world http_options origin_uri origin_uri
    (mkAssetMetadata (lit "http://origin.test/asset") (zlen http_bytes) true v1 Stable []) (lit "v1").

Lemma signed_admits : interceptor_admits (mem_origin_inv http_bytes true) http_options origin_uri.
Proof.
  intros _ redirects attempt w _. exists [mkRequestHeader (lit "Authorization") (lit "Bearer t")], w.
  unfold Intercept. cbn [CallInterceptor MemOrigin_world]. by vm_compute.
Qed.

Lemma Http_Read_succeeds_witness :
  exists res d r', Http_Read signed_reader 6 (Some (replicate 9 zero)) 9 = (res, Some d, r') /\
    IsOk (rr_status res) = true /\ rr_bytesRead res = 4 /\ take (Z.to_nat (rr_bytesRead res)) d = slice http_bytes 6 (rr_bytesRead res).
Proof.
  apply (Http_Read_succeeds (mem_origin_inv http_bytes true) at_origin v1 http_bytes signed_reader 6 (replicate 9 zero) 9).
  - done.
  - by apply MemOrigin_serves.
  - by split_and!.
  - exact signed_admits.
  - intros c E. by vm_compute in E.
  - done.
  - done.
  - done.
  - done.
Defined.

(** ** Open, and the stack *)

Definition opened_reader : HttpAssetReader (W := MemOrigin) := default plain_reader (or_reader (fst http_opened)).

Definition opened_world : MemOrigin := default http_world (snd http_opened).

Lemma open_eta {R W} (t : OpenResult R * option W) d w :
  bool_decide (is_Some (or_reader (fst t))) = true -> bool_decide (is_Some (snd t)) = true ->
  or_status (fst t) = Status_Ok ->
  t = (mkOpenResult (Some (default d (or_reader (fst t)))) Status_Ok, Some (default w (snd t))).
Proof. destruct t as [[[r|] st] [x|]]; simpl; try done. by intros _ _ ->. Qed.

Lemma opened_eq : http_opened = (mkOpenResult (Some opened_reader) Status_Ok, Some opened_world).
Proof. apply (open_eta http_opened); by vm_compute. Qed.

Lemma opened_authority : bool_decide (Authority (hr_uri opened_reader) = []) = false.
Proof. by vm_compute. Qed.

Lemma Http_Open_binds_witness :
  hr_world opened_reader = opened_world /\ am_size (hr_metadata opened_reader) = 10 /\
  ParseUri (am_resolvedIdentifier (hr_metadata opened_reader)) = inr (canonical (without_userinfo (hr_uri opened_reader))).
Proof.
  destruct (Http_Open_binds (lit "http://user:pw@origin.test:80/a/../old#top") http_options http_world opened_world
    opened_reader Status_Ok opened_eq)
    as (_ & Hw & u & response & n & _ & _ & _ & _ & _ & _ & _ & _ & _ & Hl & _ & _ & _ & _ & _ & Hp).
  split; [exact Hw|]. split; [by vm_compute|]. rewrite Hp. unfold read_back. rewrite opened_authority. reflexivity.
Defined.

Lemma empty_tier_ok identity : tier_ok identity http_bytes ex_disk.
Proof.
  intros p raw Hp. change (mf_contents (mkMemFs ∅ 0) p = Some raw) in Hp.
  unfold mf_contents in Hp. cbn [mf_files] in Hp. by rewrite lookup_empty in Hp.
Qed.

Lemma http_bytes_u64 : is_u64 (zlen http_bytes).
Proof. done. Qed.

Lemma fresh_ids : 0 <= s_nextIdentityId (BlockCache_new CacheOptions_default) < 2 ^ 64 - 1.
Proof. split; by vm_compute. Qed.

Lemma six_u64 : is_u64 6.
Proof. done. Qed.

Lemma nine_u64 : is_u64 9.
Proof. done. Qed.
