(* ===== verification/ResolverWitnesses.v ===== *)
(** * ResolverWitnesses: the plugin's theorems at concrete inputs

    [Revisions] is an origin that publishes a new revision at every open; the HTTP
    example is [HttpExamples.MemOrigin]. *)

From S2P Require Import Prelude Diagnostics Validator RangeMath AssetReader Metrics CacheKey CacheOptions.
From S2P Require Import BlockPlan BlockCache PersistentTier CachedReader CachedReaderSpec DiskFormat DiskStore MemoryFs.
From S2P Require Import Uri Framing Destination HttpReader HttpReaderSpec.
From S2P Require Import Identifier Configuration ConfigurationSpec ResolverReport HttpResolver HttpResolverSpec ResolverScope ResolverStack.
From S2P Require Import Examples HttpExamples HttpWitnesses.

(** ** The asset *)

Lemma Asset_Read_contract_witness :
  exists n out a' posted status,
    Asset_Read None (mkAsset ex_reader (lit "http://host/a.usd") 0) (Some (replicate 9 zero)) 9 6 =
      (n, Some out, a', posted ++ Report status (lit "http://host/a.usd")) /\
    length out = 9%nat /\
    (Report status (lit "http://host/a.usd") = [] -> n = 5 /\ take (Z.to_nat n) out = slice ex_bytes 6 n).
Proof.
  destruct (Asset_Read_contract None (mem_inv ex_reader) ex_bytes (mkAsset ex_reader (lit "http://host/a.usd") 0) 9 6
    (replicate 9 zero) ex_reader_contract eq_refl six_u64 nine_u64 eq_refl) as (n & out & a' & posted & status & E & _ & _ & Hl & Hok & _).
  exists n, out, a', posted, status. split; [exact E|]. split; [exact Hl|exact Hok].
Defined.

(** ** An origin that republishes *)

Definition revision_metadata (id : str) (w : nat) : AssetMetadata :=
  mkAssetMetadata id 11 true (mkValidator (to_string (Z.of_nat w)) EntityTag Strong) Stable [].

#[export] Instance Revisions : HttpOpener nat MemReader := {
  opener_Open id tr w := (mkOpenResult (Some (mkMemReader (revision_metadata id w) ex_bytes)) Status_Ok, S w);
  opener_Metrics r := ReaderMetrics_new (am_resolvedIdentifier (mr_metadata r)) }.

Definition ex_settings : Settings := mkSettings ∅ (effective_of (fst (ConfigurationFrom (LookupIn ∅) []))).

Definition ex_path : str := lit "HTTP://Host:80/x/../a.usd#top".

Definition ex_id : str := lit "http://host/a.usd".

Definition ex_y0 : Sys (W := nat) (R := MemReader) := mkSys Resolver_new 0%nat [].

Definition ex_y1 : Sys (W := nat) (R := MemReader) := snd (Resolve ex_settings None ex_path None ex_y0).

(** The second open finds another revision: the version that was published after
    the first is withdrawn. *)
Example republished :
  let '(info1, y1) := GetAssetInfo ex_settings None [] ex_id ex_y0 in
  let '(_, y2) := OpenAsset ex_settings None ex_id (BlockCache_new CacheOptions_default) ex_disk y1 in
  let '(_, y3) := OpenAsset ex_settings None ex_id (BlockCache_new CacheOptions_default) ex_disk y2 in
  let '(info2, _) := GetAssetInfo ex_settings None [] ex_id y3 in
  ai_version info1 = lit "0" /\ sy_world y1 = 1%nat /\ sy_world y2 = 1%nat /\ sy_world y3 = 2%nat /\ ai_version info2 = [] /\
  option_map pi_validationToken (ai_resolverInfo info2) = Some (lit "1") /\
  option_map pi_stability (ai_resolverInfo info2) = Some (lit "Unstable").
Proof. vm_compute. split_and!; reflexivity. Qed.

Lemma ex_base_ok : effective_ok (se_base ex_settings).
Proof. apply effective_of_ok. Qed.

Lemma ex_path_reached : exists c, reachable (W := nat) (R := MemReader) c /\ at_state c ex_y1.
Proof.
  destruct (Resolve_path (Conc_new 0%nat) ex_settings None ex_path None ex_y0) as (c & P & A); [done|apply ex_base_ok|].
  exists c. split; [|exact A]. exists 0%nat. exact P.
Qed.

Lemma resolver_tables_witness :
  exists c, at_state c ex_y1 /\ (size (rv_table (cn_resolver c)) <= 64)%nat.
Proof.
  destruct ex_path_reached as (c & Hr & Ha). exists c. split; [exact Ha|].
  exact (proj1 (proj1 (resolver_tables c Hr))).
Defined.

Lemma resolver_isolation_witness :
  exists r, fst (AcquireReader ex_id (se_base ex_settings) ex_y1) = Some r /\
    opened_by (W := nat) ex_id (ef_transport (se_base ex_settings)) r.
Proof.
  destruct ex_path_reached as (c & Hr & Ha).
  exists (mkMemReader (revision_metadata ex_id 0) ex_bytes).
  assert (fst (AcquireReader ex_id (se_base ex_settings) ex_y1) = Some (mkMemReader (revision_metadata ex_id 0) ex_bytes)) as E
    by (vm_compute; reflexivity).
  split; [exact E|].
  exact (proj1 (resolver_isolation c ex_y1 ex_id true (se_base ex_settings) Hr Ha ex_base_ok) _ E).
Defined.

(** A scope in which the asset is resolved, and resolved again under a context
    that admits only public addresses: two configurations, two answers in the
    cache, and each open made for its own. *)
Definition ex_scope : Scoped (W := nat) (R := MemReader) := mkScoped (Conc_new 0%nat) {[0%nat := ∅]} [].

Example two_stages :
  let '(overrides, _) := CreateContextFromString ex_settings (lit "USD_HTTP_RESOLVER_DESTINATIONS=public") in
  let '(first, scope, y1) := Resolve ex_settings None ex_path (Some ∅) ex_y0 in
  let '(again, scope, y2) := Resolve ex_settings None ex_path scope y1 in
  let '(other, scope, y3) := Resolve ex_settings (Some overrides) ex_path scope y2 in
  first = ex_id /\ again = ex_id /\ other = ex_id /\ option_map size scope = Some 2%nat /\
  sy_world y1 = 1%nat /\ sy_world y2 = 1%nat /\ sy_world y3 = 2%nat.
Proof. vm_compute. split_and!; reflexivity. Qed.

(** An origin that fails its first open. *)
#[export] Instance Restarting : HttpOpener bool MemReader := {
  opener_Open id tr w :=
    if w then (mkOpenResult (Some (mkMemReader (revision_metadata id 0) ex_bytes)) Status_Ok, true)
    else (mkOpenResult None (Status_Error NetworkError (lit "restarting")), true);
  opener_Metrics r := ReaderMetrics_new (am_resolvedIdentifier (mr_metadata r)) }.

(** Two threads of one scope that both miss its cache need not agree: the entry
    of a failed open is forgotten, so the second opens again, and the scope keeps
    the answer that was inserted first. *)
Example miss_together :
  let y : Sys (W := bool) (R := MemReader) := mkSys Resolver_new false [] in
  let key := OpenKey ex_id (se_base ex_settings) in
  let '(first, y) := ResolveOnce ex_id key (se_base ex_settings) y in
  let '(second, y) := ResolveOnce ex_id key (se_base ex_settings) y in
  let cache := emplace key second (emplace key first ∅) in
  first = [] /\ second = ex_id /\ cache !! key = Some [].
Proof. vm_compute. split_and!; reflexivity. Qed.

Lemma scope_isolation_witness :
  fst (fst (Resolve ex_settings None ex_path (Some ∅) ex_y0)) = ex_id /\
  exists r, opened_by (W := nat) (R := MemReader) ex_id (ef_transport (se_base ex_settings)) r.
Proof.
  assert (fst (fst (Resolve ex_settings None ex_path (Some ∅) ex_y0)) = ex_id) as E by (vm_compute; reflexivity).
  assert (scope_reachable ex_scope) as Hx.
  { exists 0%nat. apply rtc_once, (scope_begin (Scoped_new 0%nat) 0%nat). reflexivity. }
  split; [exact E|]. destruct (scope_isolation ex_scope Hx) as [Hr _].
  specialize (Hr ex_settings None ex_path 0%nat ex_y0 ltac:(done) ex_base_ok).
  change (sc_caches ex_scope !! 0%nat) with (Some (∅ : strmap)) in Hr.
  destruct (Resolve ex_settings None ex_path (Some ∅) ex_y0) as [[v scope] y]. cbn [fst] in E. subst v.
  apply Hr. discriminate.
Defined.

Lemma asset_info_version_witness :
  exists c, reachable (W := nat) (R := MemReader) c /\
  let '(info, y') := GetAssetInfo ex_settings None [] ex_id ex_y1 in
  ai_version info = lit "0" /\
  exists c', path_to c c' y' /\
    (ai_version info <> [] -> forall m p, (ex_id, m, p) ∈ cn_log c' -> v_value (am_validator m) = ai_version info).
Proof.
  destruct ex_path_reached as (c & Hr & Ha). exists c. split; [exact Hr|].
  pose proof (asset_info_version c ex_y1 ex_settings None [] ex_id Hr Ha ex_base_ok) as H.
  assert (ai_version (fst (GetAssetInfo ex_settings None [] ex_id ex_y1)) = lit "0") as E by (vm_compute; reflexivity).
  assert (CreateIdentifier (if bool_decide (ex_id = []) then [] else ex_id) [] = ex_id) as Ei by (vm_compute; reflexivity).
  cbv zeta in H. rewrite Ei in H. destruct (GetAssetInfo ex_settings None [] ex_id ex_y1) as [info y'].
  split; [exact E|]. destruct H as (c' & P & H1 & _). exists c'. split; [exact P|exact H1].
Defined.

Lemma Resolve_then_OpenAsset_witness :
  exists resolved y1, Resolve ex_settings None ex_path (Some ∅) ex_y0 =
      (resolved, Some (emplace (OpenKey ex_id (se_base ex_settings)) ex_id ∅), y1) /\ resolved = ex_id /\
    exists asset y2, OpenAsset ex_settings None resolved (BlockCache_new CacheOptions_default) ex_disk y1 = (Some asset, y2) /\
      sy_world y2 = 1%nat.
Proof.
  assert (CreateIdentifier ex_path [] = ex_id) as Ei by (vm_compute; reflexivity).
  assert (CreateIdentifier ex_id [] = ex_id) as Ef by (vm_compute; reflexivity).
  assert (opener_Open ex_id (ef_transport (EffectiveConfiguration ex_settings None)) (sy_world ex_y0) =
    (mkOpenResult (Some (mkMemReader (revision_metadata ex_id 0) ex_bytes)) Status_Ok, 1%nat)) as Ho by reflexivity.
  pose proof (Resolve_then_OpenAsset ex_settings None ex_path (Some ∅) ex_y0 (mkOpenResult (Some (mkMemReader (revision_metadata ex_id 0) ex_bytes)) Status_Ok) 1%nat
    (BlockCache_new CacheOptions_default) ex_disk) as H. cbv zeta in H. rewrite Ei in H.
  destruct (H ltac:(discriminate) Ef (lookup_empty _) tables_new (lookup_empty _) Ho)
    as (resolved & y1 & E & _ & Hres & _ & asset & y2 & E2 & Hw & _).
  exists resolved, y1. split; [rewrite E, Hres; reflexivity|]. split; [exact Hres|]. exists asset, y2. split; [exact E2|exact Hw].
Defined.

(** ** Over HTTP *)

(** The server replaces the asset after two requests: the open's and one of a
    read. *)
Definition mortal_world : MemOrigin := mkMemOrigin http_bytes (Some 2%nat) [].

Lemma mortal_stays : false = true -> mo_until mortal_world = None.
Proof. discriminate. Qed.

Definition http_path : str := lit "http://origin.test/x/../asset".

Definition http_resolved := Http_Open (lit "http://origin.test/asset") (ef_transport (se_base ex_settings)) (Some mortal_world).

Definition resolved_reader : HttpAssetReader (W := MemOrigin) := default plain_reader (or_reader (fst http_resolved)).

Definition resolved_world : MemOrigin := default mortal_world (snd http_resolved).

Lemma resolved_eq : http_resolved = (mkOpenResult (Some resolved_reader) Status_Ok, Some resolved_world).
Proof. apply (open_eta http_resolved); by vm_compute. Qed.

Definition http_y0 : Sys (W := option MemOrigin) (R := HttpAssetReader (W := MemOrigin)) :=
  mkSys Resolver_new (Some mortal_world) [].

Lemma resolved_facts :
  am_validator (hr_metadata resolved_reader) = v1 /\ am_size (hr_metadata resolved_reader) = zlen http_bytes.
Proof. split; by vm_compute. Qed.

Definition http_id : str := lit "http://origin.test/asset".

Lemma http_id_uri : ParseUri http_id = inr origin_uri.
Proof. by vm_compute. Qed.

(** The key of the asset: its identifier, its entity tag and the block size. *)
Definition http_key : AssetIdentity :=
  mkAssetIdentity http_id (lit "v1") (co_blockSize (CacheOptions.Normalized (ef_cache (se_base ex_settings)))).

#[local] Instance http_tier : PersistentTier (DiskBlockStore MemFs) := Disk_tier 7.

Lemma http_key_typed : key_typed http_key 0.
Proof. by vm_compute. Qed.

Lemma http_store_wf : store_wf (BlockCache_new CacheOptions_default).
Proof. apply BlockCache_new_wf; [apply default_typed|by vm_compute]. Qed.

Lemma http_key_eq :
  mkAssetIdentity (am_resolvedIdentifier (hr_metadata resolved_reader)) (v_value (am_validator (hr_metadata resolved_reader)))
    (co_blockSize (CacheOptions.Normalized (ef_cache (EffectiveConfiguration ex_settings None)))) = http_key.
Proof. by vm_compute. Qed.

Lemma http_store_holds : store_holds http_bytes http_key (BlockCache_new CacheOptions_default).
Proof. by apply store_holds_new. Qed.

Lemma resolver_read_witness :
  exists y1 y2 asset im metrics inner store',
    Resolve ex_settings None http_path None http_y0 = (http_id, None, y1) /\
    OpenAsset (D := DiskBlockStore MemFs) ex_settings None http_id
      (BlockCache_new CacheOptions_default) ex_disk y1 = (Some asset, y2) /\
    sy_world y2 = Some resolved_world /\ oa_reader asset = Cached im resolved_reader metrics inner store' /\
    exists res out c', Cached_Read (fun _ x => x) 0 im 0 0 6 (Some (replicate 9 zero)) 9
      (mkCsys store' ex_disk resolved_reader 0 metrics) = (res, Some out, c') /\ length out = 9%nat /\
      forall result, res = Some result -> read_post http_bytes 6 9 (replicate 9 zero) result out.
Proof.
  destruct resolved_facts as (Ev & Es).
  assert (CreateIdentifier http_path [] = http_id) as Ei by (vm_compute; reflexivity).
  assert (CreateIdentifier http_id [] = http_id) as Ef by (vm_compute; reflexivity).
  pose proof (resolver_read (F := MemFs) 7 (mem_origin_inv http_bytes false) at_origin http_bytes ex_settings None http_path None origin_uri
    http_y0 mortal_world resolved_world resolved_reader Status_Ok (BlockCache_new CacheOptions_default) ex_disk) as Hrr.
  cbv zeta in Hrr. rewrite Ei, http_key_eq in Hrr.
  destruct (Hrr eq_refl ltac:(discriminate) Ef eq_refl tables_new (lookup_empty _) eq_refl resolved_eq (conj eq_refl mortal_stays)
    ltac:(rewrite Ev; exact (MemOrigin_origin http_bytes false http_bytes_u64)) http_id_uri eq_refl Es http_bytes_u64
    http_store_wf fresh_ids http_store_holds http_key_typed (empty_tier_ok _))
    as (y1 & y2 & asset & im & metrics & inner & store' & E1 & E2 & E3 & E4 & Hread).
  exists y1, y2, asset, im, metrics, inner, store'. split; [exact E1|]. split; [exact E2|]. split; [exact E3|]. split; [exact E4|].
  exact (Hread (fun _ x => x) 0%nat 0 0 6 (replicate 9 zero) 9 (fun _ x Hx => Hx) six_u64 nine_u64 eq_refl).
Defined.

(** The run: the first read is served by the origin and fills the cache; by the
    second, the origin has another asset, and the cache still answers for the one
    that was opened. *)
Example resolver_read_run :
  let '(_, _, y1) := Resolve ex_settings None http_path None http_y0 in
  match OpenAsset (D := DiskBlockStore MemFs) ex_settings None http_id (BlockCache_new CacheOptions_default) ex_disk y1 with
  | (Some asset, _) =>
      match oa_reader asset with
      | Cached im r metrics _ store =>
          let '(first, d1, c) := Cached_Read (fun _ x => x) 0 im 0 0 6 (Some (replicate 9 zero)) 9 (mkCsys store ex_disk r 0 metrics) in
          let '(second, d2, _) := Cached_Read (fun _ x => x) 0 im 0 0 0 (Some (replicate 5 zero)) 5 c in
          rr_bytesRead <$> first = Some 4 /\ (take 4 <$> d1) = Some (lit "http") /\
          rr_bytesRead <$> second = Some 5 /\ d2 = Some (lit "hello") /\ length (mo_log (hr_world (c_inner c))) = 2%nat
      | _ => False
      end
  | _ => False
  end.
Proof. vm_compute. split_and!; reflexivity. Qed.
