(* ===== verification/CurlWitnesses.v ===== *)
(** * CurlWitnesses: the transport's theorems at concrete inputs *)

From S2P Require Import Prelude Diagnostics Validator RangeMath AssetReader Metrics Uri Framing Destination HttpReader HttpReaderSpec.
From S2P Require Import CurlTransport CurlTransportSpec HttpExamples CurlExamples HttpWitnesses.

Definition curl_world : CurlTransport MemCurl := mkCurl [] (mkMemCurl []).

(** Four bytes asked for, room for three. *)
Definition curl_request : TransportRequest :=
  mkRequest (lit "http://origin.test/asset") MethodGet (lit "bytes=2-5") [] (lit "agent") [] (mkTimeouts 1000 1000 1000)
    DestinationPolicy_default 3.

Lemma Curl_Perform_bounded_witness :
  let r := fst (Curl_Perform curl_request curl_world) in
  let tr := Curl_trace curl_request curl_world in
  rs_body r = lit "llo" /\ rs_bodyOverflowed r = true /\ rs_error r = NoError /\
  rs_headers r = [(lit "Content-Range", lit "bytes 2-5/10"); (lit "ETag", lit "v1")] /\
  sockets tr = [socket_address 93 184 216 34] /\
  Forall (admissible DestinationPolicy_default) (sockets tr).
Proof.
  intros r tr. split; [by vm_compute|]. split; [by vm_compute|]. split; [by vm_compute|]. split; [by vm_compute|]. split; [by vm_compute|].
  exact (proj2 (proj2 (proj2 (proj2 (Curl_Perform_bounded curl_request curl_world ltac:(unfold is_u64; cbn; lia)))))).
Defined.



(** The same library with a log, and an exchange over it that is redirected. *)
Definition logged_world : CurlTransport (Logged MemCurl) := mkCurl [] (mkMemCurl [], []).

Definition moved_uri : Uri := mkUri (lit "http") (lit "user:pw") (lit "origin.test") 0 (lit "/old") [] false.

Lemma moved_uri_wf : uri_wf moved_uri.
Proof. apply (ParseUri_wf moved_url). by vm_compute. Qed.

Definition curl_exchange :=
  PerformExchange http_options moved_uri MethodHead [] [] 0 moved_uri (mkX logged_world PendingSink_new 2 []).

(** Two requests, each of which was offered two addresses and opened one. *)
Lemma curl_exchange_log :
  rs_status (xr_response (fst curl_exchange)) = 200 /\
  sockets (snd (ct_curl (x_world (snd curl_exchange)))) = [socket_address 93 184 216 34; socket_address 93 184 216 34].
Proof. by vm_compute. Qed.

Lemma exchange_destinations_witness :
  (exists events, snd (ct_curl (x_world (snd curl_exchange))) = [] ++ events /\
     Forall (admissible (ho_destinations http_options)) (sockets events)) /\
  exists n, evolves (fun rq => request_ok http_options moved_uri MethodHead [] [] 0 moved_uri rq /\
      forall (t : CurlTransport (Logged MemCurl)) class,
        PermittedByClient (rq_url rq) (ho_destinations http_options) (ct_curl t) = Some class ->
        Curl_Perform rq t = (failed_response DestinationRefused (Some class), t))
    n logged_world (x_world (snd curl_exchange)).
Proof.
  exact (exchange_destinations http_options moved_uri MethodHead [] [] 0 moved_uri
    (mkX logged_world PendingSink_new 2 []) (fst curl_exchange) (snd curl_exchange) moved_uri_wf (surjective_pairing _)).
Defined.

Lemma Curl_Origin_witness : Origin (CurlTransport MemCurl) (transport_inv (fun _ => True)) at_origin v1 http_bytes.
Proof. exact (Curl_Origin (fun _ => True) at_origin v1 http_bytes). Defined.

Definition curl_reader : HttpAssetReader (W := CurlTransport MemCurl) :=
  Http_new curl_world plain_options origin_uri origin_uri
    (mkAssetMetadata (lit "http://origin.test/asset") (zlen http_bytes) true v1 Stable []) (lit "v1").

(** A read of the backend over the transport. *)
Example curl_read_run :
  let '(res, out, r) := Http_Read curl_reader 6 (Some (replicate 9 zero)) 9 in
  rr_bytesRead res = 4 /\ IsOk (rr_status res) = true /\ option_map (take 4) out = Some (lit "http") /\
  ct_idle (hr_world r) = [1].
Proof. by vm_compute. Qed.

(** Two threads check a handle out, and one checks its handle in. *)
Lemma pool_exclusive_witness :
  exists p : Pool (C := MemCurl),
    rtc pool_step (mkPool curl_world []) p /\ ct_idle (pl_transport p) = [1] /\ pl_out p = [2] /\
    NoDup (ct_idle (pl_transport p) ++ pl_out p).
Proof.
  set (t1 := mkCurl [] (mkMemCurl [1]) : CurlTransport MemCurl). set (t2 := mkCurl [] (mkMemCurl [2; 1]) : CurlTransport MemCurl).
  assert (rtc pool_step (mkPool curl_world []) (mkPool (Release_handle 1 t2) ([2] ++ []))) as Hr.
  { eapply rtc_l; [apply (ps_acquire curl_world [] 1 t1); reflexivity|].
    eapply rtc_l; [apply (ps_acquire t1 [1] 2 t2); reflexivity|].
    eapply rtc_l; [apply (ps_release t2 [2] 1 [])|apply rtc_refl]. }
  exists (mkPool (Release_handle 1 t2) ([2] ++ [])). split; [exact Hr|]. split; [reflexivity|]. split; [reflexivity|].
  exact (proj1 (proj2 (pool_exclusive (mkMemCurl []) _ Hr))).
Defined.
